(* ===== verification/_CoqProject ===== *)
-Q . S2P
Prelude.v
GoText.v
Filter.v
Lexer.v
Parser.v
PrintParse.v
FilterSet.v
Index.v
Claims.v
ClaimsAST.v
Request.v
AuthGate.v
Mtls.v
Jwks.v
Jwt.v
RefToken.v
Cache.v
Pipeline.v
MongoStore.v
Cdc.v
KeyCrypt.v
KeyMaterial.v
CacheFlight.v
Nats.v
NatsService.v
Di.v
DiStore.v
DiResolve.v
DiLifetimes.v
DiScopes.v
DiLive.v
ServerTls.v
Environment.v
Base64.v
Sessions.v
Secrets.v
Lifecycle.v
MetadataFilter.v
Cookies.v
Correlation.v
Web.v
Url.v
Browser.v
GrpcClient.v
MapMerge.v
Helpers.v
