(* ===== verification/Prelude.v ===== *)
(** * fluffycore: a verification development

    fluffycore is a Go library of building blocks for gRPC and web services:
    CloudEvent filters, authentication and authorization of calls, a dependency
    injection container, key material and tokens, gRPC over NATS, server
    start-up and TLS, web sessions and helpers.  This development models the
    parts of it that decide something.  Go functions are translated to Rocq
    functions; mutable state is passed explicitly; [(T, error)] is [result]; a panic
    is [None] or an outcome; what runs concurrently is a step relation; the order
    in which Go visits a map is an argument.

    ** The program and the files

    CloudEvent filtering ([cloudevent/cefilter], [cloudevent/contracts]).  An
    expression such as [type = 'a' AND NOT source LIKE 'x*'] is lexed, parsed
    into a predicate tree and evaluated on the flat attributes of an event; many
    named filters are kept in a linear or an indexed set, which may follow a
    MongoDB collection.
    - [GoText.v]: what the code uses of Go's strings, runes, UTF-8, [unicode] and [%q].
    - [Filter.v]: [filter.go], predicates, [Match], [String], [globToRegexp] with the
      fragment of [regexp] it generates.
    - [Lexer.v]: [lexer.go].  [Parser.v]: [parser.go] with the documented grammar as an
      inductive relation.  [PrintParse.v]: [String] followed by [Parse].
    - [FilterSet.v]: [accessor.go], [sdk.go], the linear [FilterSet], and the contract
      [IFilterSet] as a class with laws over a registry (name to filter).
    - [Index.v]: [index.go], the inverted index, as an implementation of the contract.
    - [MongoStore.v]: [mongostore/store.go] and [doc.go].  [Cdc.v]: [mongostore/cdc.go],
      [FilterCDC.Run], which follows the collection by snapshot and change stream;
      and the composition with [Index.v].

    Authentication and authorization ([middleware], [services/common]).  Each
    request gets a scope with a claims principal; interceptors add the claims of
    the verified client certificate and of the bearer token; a gate evaluates the
    claim expression configured for the method.
    - [Claims.v]: [claimsprincipal.go], the contract [IClaimsPrincipal] as a class with
      laws over a set of claims, the two-map implementation, claim import and the
      reserved [mtls_*] claims.
    - [ClaimsAST.v]: [claims_ast.go], [claim_fact.go], the [claimsast] DSL and the
      entry-point builder, with boolean formulas as their meaning.
    - [Request.v]: contexts, handlers, interceptors, chaining, the request scope
      ([middleware/dicontext]).
    - [AuthGate.v]: [middleware/claimsprincipal], the gates; [ClaimsConfig] of
      [middleware/oidc/types.go].  [Mtls.v]: [middleware/auth/mtls].
    - [Jwks.v], [Jwt.v]: [middleware/auth/jwt/middleware.go] and [jwt_token.go], the key
      sets with their refresh gate as interleaved threads, validators, token
      parsing and the interceptors.
    - [RefToken.v]: [middleware/auth/referencetoken], opaque tokens exchanged by
      resolvers, with a cache behind the class [ICache].
    - [Cache.v]: [services/common/cache/inmemory.go], an implementation of that class;
      [CacheFlight.v]: overlapping [GetOrInsertE] calls of it.
    - [Pipeline.v]: the interceptor chain of
      [runtime/otel/otel-fluffycore-startup.go].

    Keys and secrets.
    - [KeyCrypt.v]: [utils/pkcs8enc], [utils/ecdsa] and [DecryptPEM]: private key files.
    - [KeyMaterial.v]: [services/keymaterial], [services/jwtminter] and its validator:
      signing keys with validity windows, minting, validation.
    - [Secrets.v]: [utils/oauth2_secrets.go], [utils/passwords.go], [password/xkcd.go],
      [utils/redact].  [Base64.v]: [encoding/base64].

    gRPC over NATS ([nats]).  [Nats.v]: statuses in reply headers and subject
    templates.  [NatsService.v]: [HandleRequest], [HandleNATSClientRequest] and the client.

    Dependency injection ([fluffy-dozm-di]).  [Di.v]: descriptors, the builder and
    the call site factory; [DiResolve.v]: resolver, scopes, container, validator;
    [DiStore.v]: what call sites say; [DiLifetimes.v]: instances per container, scope
    and request; [DiScopes.v]: validation and disposal; [DiLive.v]: resolution ends.

    Server process and clients.  [ServerTls.v]: [runtime/servertls], configuration and
    hot reload.  [Lifecycle.v]: [runtime/runtime.go] and the admin servers.
    [Environment.v]: [utils/env.go], [ReplaceEnvVars], the cached environment service.
    [MetadataFilter.v]: [gods/sets/hashset], [metadatafilter].  [Correlation.v]:
    [middleware/correlation], [middleware/logging], [middleware/otel],
    [services/propertybag] and the web correlation middleware.  [GrpcClient.v]:
    [grpcclient] (module [Client]) and [middleware/oidc/introspection] (module
    [Introspection]).

    Web ([echo], [go-app]).  [Sessions.v]: session stores, objects and the factory.
    [Cookies.v]: cookie services and NATS connection tokens.  [Web.v]: the request
    pipeline (module [WebStack]), handlers and routes ([Routes]), start-up and
    shut-down ([WebRuntime]).  [Browser.v]: values in cookies and local storage;
    [Url.v]: the escaping and the decimal text it uses.

    Helpers.  [MapMerge.v]: [utils/replace_merge_map.go] and string replacement.
    [Helpers.v]: [services/tasks], [async], [services/claims], [utils/zeroer.go].

    ** What the theorems show

    Filtering.  [Parse] accepts exactly the documented grammar and returns the
    derived tree, always returns, and reads back what [String] prints; [Match]
    decides the documented meaning of each operator and a glob the strings it
    describes.  Both filter sets compute the registry's answers; the index never
    loses a match.

    Following the database.  Over any sequence of [Run] calls, with reconnects,
    cancellations, lost resume positions, dropped collections and concurrent
    writers, the caller's set agrees with the active documents for every filter
    not written since the resume position, and equals them once the stream is
    caught up; an [IndexedFilterSet] fed this way routes by the active documents.

    Authorization and authentication.  The principal is a set of claims under any
    history; an expression's decision is the value of the formula it prints; the
    gate decides as configured and fails closed.  A validator accepts only a token
    of its issuer whose signature, over the presented bytes, verifies under keys
    that the cache served in this call for the issuer's configured URL, with claims
    valid at a clock reading of this call and a matching audience; the interceptors
    refuse, proceed anonymously, or load exactly the unreserved claims of the token
    that was presented and accepted so; forced key refreshes are rate limited in
    every interleaving; reserved claims never enter the reference-token cache.  For
    the whole chain: a handler is entered only with the claims of the verified
    certificate and of a vouched-for token that satisfy the method's requirement,
    and no token, resolver or cache entry can supply a required [mtls_*] claim.  The
    web pipeline has the corresponding guarantee, and no panic leaves it.

    Caching.  TTLs are absolute; of overlapping [GetOrInsertE] calls for a key one
    runs the adder, and a call waits for running adders only: when adders come back,
    with a value, an error or a panic, every call ends.

    Keys.  What the key writers write the readers read, and the readers never
    panic, on any bytes; concurrent getters never return a signing key outside its
    window; tokens minted at any point of a minter's life, across rotations, validate,
    and the validator accepts only tokens of a
    configured key valid at their issue time.  A generated secret verifies, and
    verification accepts only the secret.

    NATS.  Every request gets one answer, panics included, which only the connection
    can refuse; within the limits that the theorems state (one-word static segments,
    printable values without [$], [{] and [}], trimmed messages) a subject gives back
    the fields it was made of, and a call over NATS gives the result or the status of
    the handler.  [dashed_segment_never_matches] and [values_can_join_to_a_parameter]
    are what happens outside them.

    Containers.  For registrations that list no implemented interfaces and have no
    cycles ([simple]): one instance per container of a singleton, per scope other
    than the root of a scoped service, per request of a transient; captive scoped
    services are found exactly, and the first one is named; resolution of
    well-behaved registrations ends and never locks a mutex twice.  Cycles of plain
    registrations are reported.  A scope disposes of what it captured, last first.
    The conditions are needed: [DiResolve.Scenarios] and [Di.Examples] hold a singleton
    built twice and the deadlocks.

    Process.  A handshake for which a check is due serves the certificate files on
    disk whenever they load; a verified client certificate is the presented one, with
    a chain verified against the configured CA bundle; whatever start-up, the
    application and its services do, what was opened is closed in reverse order, and
    a server that returns has stopped and joined its servers, though not the
    goroutine of the NATS gateway ([nats_gateway_outlives_server]); admin servers without a token
    only listen on loopback; the environment service is a map with the process
    environment behind it; handlers behind the metadata filter see exactly the
    allowed headers; loggers and response headers carry the request's correlation
    id; a client with certificates never dials in plaintext (one without any option
    does); an introspected token
    is accepted only when the endpoint says it is active.

    Web.  Session identifiers cannot be fixed by a client, sessions round trip,
    their cookies expire as configured; a request path is served by the handler
    registered last for it; a stop after the server has started returns; cookies
    and local storage give back primitive values as stored, and of other values
    their JSON copy.

    Helpers.  Merging maps does not depend on the order of visits and fails exactly
    beyond the depth limit; the task service is a map of tasks; an asynchronous
    call completes with its result or panic; emptiness is what it says.

    Statements that describe a defect of the code ([early_stop_hangs],
    [otel_interceptor_mixes_requests], [web_correlation_not_passed_on],
    [pointer_to_pointer_unreadable], [add_may_outlive_stop],
    [CurlyBraceReplaceStrings_depends_on_order], [nats_gateway_outlives_server] and those
    of the other components) are theorems too.

    ** Parameters

    Code outside the repository is an argument, usually a class with a class of
    laws that state its documentation: [UnicodeTables] (Go's character tables, no
    laws), [GrpcContext] (metadata, peer), [JWX], [JwkCache], [JwkLib], [JwtLib],
    [JwtVerify] (JOSE libraries), [TTLCache], [Collection], [ChangeFeed] and [Bson]
    (MongoDB driver), [Aes], [Md5], [Pbkdf2], [Asn1], [Pem], [X509], [Digests], [Argon2id]
    (cryptography), [Float] (no laws), [Micro], [Wire], [JsonPath] (NATS), [TypeSystem]
    (reflection), [TlsLib], [TlsStack] ([crypto/tls]), [Multi], [Xid], [CodecPairs]
    (gorilla, xid), [CodecLaws], [JsonLaws], [ValueLaws] (securecookie, JSON), and as
    plain arguments SHA-256, clocks, the scheduler library, HTTP, files and map
    iteration orders.  Law classes have executable instances, on which the
    examples and witnesses evaluate.

    ** Fuel

    [tokenize] runs with one unit per rune plus one, each iteration consuming a
    rune; the parser with [4 * tokens + 4], since at most four nested calls separate
    two consumed tokens; both are proved never to run out.  [keySetForKid] runs with
    8 steps, the longest path through its program counters being shorter, and is
    proved to return.  [Run] of the change feed takes one unit per stream event and
    reports [Running] when they are used up, so that its theorems hold at every
    moment of a call that may never return.  The scanners of subject templates and
    placeholders ([scan_tokens], [replace_all], [replace_matches]) take the length of
    the text, of which each round consumes a byte; [evp_loop] takes the key length,
    each round adding 16 bytes.  [GetCallSite] and the resolver take the nesting of
    constructor arguments: one unit per registered constructor, and two above the
    rank of the type, are proved enough; [validator_visit] needs no more than there
    are call sites.  [pick] draws random words without repetition: it is proved to
    end for every fuel within which enough different words are drawn.
    [replaceOnlyMergeMap] has no fuel of its own: it counts the depth that the code
    limits.

    ** Not modelled

    Code generators and generated protobuf code, command line tools, mocks and
    example programs: text production and glue with no behaviour of their own to
    state.  Certificate generation, token sources, the auth0 wrapper, the
    [eko_gocache] adapters, protobuf and JSON conversions, OpenTelemetry and Datadog
    start-up, swagger, health and time services: each is a configured call of a
    library, so that a model would be the library's.  Templates, static files and
    the fetch and script loading of [go-app]: the effects are the browser's.  The
    container is modelled for one goroutine with explicit mutexes, not for races
    between goroutines, and an application's [Dispose] is an entry of a log.  Of
    [runtime/otel] only the interceptor chain is modelled, without its correlation and
    logging interceptors (these are in [Correlation.v]); [singleflight] of [x/sync] is
    part of the step relation of [CacheFlight.v], with its panics; nil [pem.Block]s and
    nil claims validators are not represented;
    of [strings.go] not the localization helpers; of [grpcclient] not the deprecated
    aliases. *)
From stdpp Require Export base numbers list strings gmap sets.
From stdpp Require Import options.

(** ** Results: Go's [(T, error)] return pair as a sum. *)
Inductive result (E A : Type) : Type :=
| Ok (a : A)
| Err (e : E).
Arguments Ok {E A} a.
Arguments Err {E A} e.

(** [x ← m; k] is Go's [x, err := m; if err != nil { return err }; k]. *)
#[export] Instance result_ret E : MRet (result E) := fun A a => Ok a.
#[export] Instance result_bind E : MBind (result E) := fun A B f m =>
  match m with Ok a => f a | Err e => Err e end.
#[export] Instance result_fmap E : FMap (result E) := fun A B f m =>
  match m with Ok a => Ok (f a) | Err e => Err e end.

Lemma bind_Ok {E A B} (m : result E A) (f : A → result E B) b :
  m ≫= f = Ok b ↔ ∃ a, m = Ok a ∧ f a = Ok b.
Proof. destruct m; simpl; naive_solver. Qed.

Lemma bind_Err {E A B} (m : result E A) (f : A → result E B) e :
  m ≫= f = Err e ↔ m = Err e ∨ ∃ a, m = Ok a ∧ f a = Err e.
Proof. destruct m; simpl; naive_solver. Qed.

(** ** Shared tactics *)

(** Invert a successful chain of binds into one equation per step. *)
Ltac inv_bind :=
  repeat match goal with
  | H : _ ≫= _ = Ok _ |- _ =>
      let a := fresh "a" in let E := fresh "E" in
      apply bind_Ok in H as (a & E & H)
  | a : _ * _ |- _ => destruct a
  | H : Ok _ = Ok _ |- _ => injection H as H; subst
  | H : Err _ = Ok _ |- _ => discriminate H
  end.

(** Case analysis on the [if]s and [match]es of a hypothesis or of the goal. *)
Ltac split_match :=
  repeat (case_match || case_decide); simplify_eq/=.

(** Destruct every boolean test of the shape [a =? b], [a <=? b], [a <? b] on
    [N] in the goal, keeping the arithmetic fact for [lia]. *)
Ltac cases_N :=
  repeat match goal with
  | |- context [N.leb ?a ?b] => destruct (N.leb_spec a b)
  | |- context [N.ltb ?a ?b] => destruct (N.ltb_spec a b)
  | |- context [N.eqb ?a ?b] => destruct (N.eqb_spec a b)
  end.

Create HintDb fluffy.

(** ** Generic lemmas *)

Lemma forallb_Forall {A} (f : A → bool) (l : list A) :
  forallb f l = true ↔ Forall (fun x => f x = true) l.
Proof. induction l as [|x l IH]; simpl; [by split|]. rewrite andb_true_iff, IH, Forall_cons. done. Qed.

Lemma existsb_true {A} (f : A → bool) (l : list A) :
  existsb f l = true ↔ ∃ x, x ∈ l ∧ f x = true.
Proof. rewrite existsb_exists. by setoid_rewrite list_elem_of_In. Qed.

(** ** Machine integers: the wrap-around of a 64-bit signed integer. *)
Definition wrap64 (z : Z) : Z := ((z + 2 ^ 63) mod 2 ^ 64 - 2 ^ 63)%Z.

Lemma wrap64_small z : (- 2 ^ 63 <= z < 2 ^ 63)%Z → wrap64 z = z.
Proof. intros Hz. unfold wrap64. rewrite Z.mod_small; lia. Qed.

Lemma wrap64_range z : (- 2 ^ 63 <= wrap64 z < 2 ^ 63)%Z.
Proof. unfold wrap64. pose proof (Z.mod_pos_bound (z + 2 ^ 63) (2 ^ 64)). lia. Qed.

(** ** Liveness: under every scheduling of [step], [P] is reached, and until then
    some step is possible. *)
Inductive eventually {S} (step : S → S → Prop) (P : S → Prop) (s : S) : Prop :=
| eventually_done : P s → eventually step P s
| eventually_step : (∃ s', step s s') → (∀ s', step s s' → eventually step P s') → eventually step P s.

(** It follows from an invariant, progress, and a measure that every step decreases. *)
Lemma eventually_measure {S} (step : S → S → Prop) (P I : S → Prop) (measure : S → nat) :
  (∀ s, I s → P s ∨ ∃ s', step s s') →
  (∀ s s', I s → step s s' → I s' ∧ measure s' < measure s) →
  ∀ s, I s → eventually step P s.
Proof.
  intros Hprog Hdec s. remember (measure s) as n eqn:Hn. revert s Hn.
  induction n as [n IH] using lt_wf_ind. intros s -> HI. destruct (Hprog s HI) as [HP|Hs]; [by left|].
  right; [done|]. intros s' Hss'. destruct (Hdec s s' HI Hss') as [HI' Hlt]. by eapply (IH (measure s')).
Qed.

Lemma sum_list_insert (l : list nat) i x y : l !! i = Some x → sum_list (<[i := y]> l) + x = sum_list l + y.
Proof.
  revert i. induction l as [|z l IH]; intros [|i] Hl; simpl in *; [done|done|by simplify_eq; lia|].
  specialize (IH i Hl). lia.
Qed.
