(* ===== verification/GoText.v ===== *)
(** * Go strings and runes

    Go strings are byte sequences; Rocq's [string] (a list of 8-bit [ascii]) is
    used for them throughout.  This file models what the code uses of Go's
    standard library on text: UTF-8 decoding and encoding ([[]rune(s)],
    [string(runes)], [unicode/utf8]), the [unicode] predicates used by the
    filter lexer, [strings.ToUpper], and [fmt]'s [%q] ([strconv.Quote]).

    The Unicode character tables above Latin-1 are data of the Go toolchain:
    they are the fields of the class [UnicodeTables] and no theorem assumes
    anything about them. *)
From S2P Require Import Prelude.
From Stdlib Require Import Ascii.
From stdpp Require Import options.

Abbreviation rune := N.

Local Open Scope N_scope.

(** ** UTF-8 *)

Fixpoint bytes_of_string (s : string) : list N :=
  match s with
  | EmptyString => []
  | String c s' => N_of_ascii c :: bytes_of_string s'
  end.

Fixpoint string_of_bytes (bs : list N) : string :=
  match bs with
  | [] => EmptyString
  | b :: bs' => String (ascii_of_N b) (string_of_bytes bs')
  end.

Definition RuneError : rune := 0xFFFD.

Definition ValidRune (r : rune) : bool :=
  (r <=? 0x10FFFF) && negb ((0xD800 <=? r) && (r <=? 0xDFFF)).

(** [utf8.AppendRune]. *)
Definition EncodeRune (r : rune) : list N :=
  if r <=? 0x7F then [r]
  else if r <=? 0x7FF then [0xC0 + r / 64; 0x80 + r mod 64]
  else if negb (ValidRune r) then [0xEF; 0xBF; 0xBD]
  else if r <=? 0xFFFF then [0xE0 + r / 4096; 0x80 + (r / 64) mod 64; 0x80 + r mod 64]
  else [0xF0 + r / 262144; 0x80 + (r / 4096) mod 64; 0x80 + (r / 64) mod 64; 0x80 + r mod 64].

Definition between (lo hi b : N) : bool := (lo <=? b) && (b <=? hi).

(** The accept range of the second byte, by leading byte ([utf8.acceptRanges]). *)
Definition second_ok (b0 b1 : N) : bool :=
  if b0 =? 0xE0 then between 0xA0 0xBF b1
  else if b0 =? 0xED then between 0x80 0x9F b1
  else if b0 =? 0xF0 then between 0x90 0xBF b1
  else if b0 =? 0xF4 then between 0x80 0x8F b1
  else between 0x80 0xBF b1.

Definition cont (b : N) : bool := between 0x80 0xBF b.

(** A chunk of a decoded string: a well-encoded rune, or one invalid byte
    ([utf8.DecodeRune] returning [(RuneError, 1)]). *)
Inductive chunk := Good (r : rune) | Bad (b : N).

Fixpoint decode (bs : list N) : list chunk :=
  match bs with
  | [] => []
  | b0 :: r1 =>
    if b0 <? 0x80 then Good b0 :: decode r1
    else match r1 with
    | [] => Bad b0 :: decode r1
    | b1 :: r2 =>
      if between 0xC2 0xDF b0 && cont b1 then
        Good ((b0 - 0xC0) * 64 + (b1 - 0x80)) :: decode r2
      else match r2 with
      | [] => Bad b0 :: decode r1
      | b2 :: r3 =>
        if between 0xE0 0xEF b0 && second_ok b0 b1 && cont b2 then
          Good ((b0 - 0xE0) * 4096 + (b1 - 0x80) * 64 + (b2 - 0x80)) :: decode r3
        else match r3 with
        | [] => Bad b0 :: decode r1
        | b3 :: r4 =>
          if between 0xF0 0xF4 b0 && second_ok b0 b1 && cont b2 && cont b3 then
            Good ((b0 - 0xF0) * 262144 + (b1 - 0x80) * 4096 + (b2 - 0x80) * 64 + (b3 - 0x80))
              :: decode r4
          else Bad b0 :: decode r1
        end
      end
    end
  end.

Definition chunk_rune (c : chunk) : rune :=
  match c with Good r => r | Bad _ => RuneError end.

Definition chunks (s : string) : list chunk := decode (bytes_of_string s).

(** [[]rune(s)], and the runes that [for _, ch := range s] visits. *)
Definition runes (s : string) : list rune := chunk_rune <$> chunks s.

(** [string(rs)] for a [[]rune], and [strings.Builder.WriteRune] in a loop. *)
Definition string_of_runes (rs : list rune) : string := string_of_bytes (rs ≫= EncodeRune).

(** *** Round trips *)

Lemma bytes_of_string_of_bytes bs :
  Forall (fun b => b < 256) bs → bytes_of_string (string_of_bytes bs) = bs.
Proof. induction 1 as [|b bs Hb _ IH]; simpl; [done|]. by rewrite N_ascii_embedding, IH. Qed.

Lemma string_of_bytes_of_string s : string_of_bytes (bytes_of_string s) = s.
Proof. induction s as [|c s IH]; simpl; [done|]. by rewrite ascii_N_embedding, IH. Qed.

Lemma bytes_of_string_app s t : bytes_of_string (s +:+ t) = bytes_of_string s ++ bytes_of_string t.
Proof. induction s as [|c s IH]; [done|]. exact (f_equal (cons (N_of_ascii c)) IH). Qed.

(** [lia] with the defining equations of [/] and [mod] on [N]. *)
Local Ltac divlia := zify; Z.to_euclidean_division_equations; lia.

Lemma EncodeRune_bytes r : Forall (fun b => b < 256) (EncodeRune r).
Proof.
  unfold EncodeRune, ValidRune. cases_N; simpl; repeat constructor; divlia.
Qed.

(** Evaluate a comparison of bytes whose ranges [lia] knows. *)
Local Ltac byte_tests :=
  repeat (match goal with
  | |- context [N.leb ?a ?b] => first [ rewrite (proj2 (N.leb_le a b)) by lia | rewrite (proj2 (N.leb_gt a b)) by lia ]
  | |- context [N.ltb ?a ?b] => first [ rewrite (proj2 (N.ltb_lt a b)) by lia | rewrite (proj2 (N.ltb_ge a b)) by lia ]
  | |- context [N.eqb ?a ?b] => first [ rewrite (proj2 (N.eqb_eq a b)) by lia | rewrite (proj2 (N.eqb_neq a b)) by lia ]
  end; cbn [andb negb]).

Lemma decode_1 b0 bs : b0 < 0x80 → decode (b0 :: bs) = Good b0 :: decode bs.
Proof. intros. simpl. by byte_tests. Qed.

Lemma decode_2 a c bs :
  2 <= a < 32 → c < 64 → decode (0xC0 + a :: 0x80 + c :: bs) = Good (a * 64 + c) :: decode bs.
Proof.
  intros. cbn [decode]. unfold between, cont, between. byte_tests. do 2 f_equal. lia.
Qed.

Lemma decode_3 a b c bs :
  a < 16 → b < 64 → c < 64 → (a = 0 → 32 <= b) → (a = 13 → b < 32) →
  decode (0xE0 + a :: 0x80 + b :: 0x80 + c :: bs) = Good (a * 4096 + b * 64 + c) :: decode bs.
Proof.
  intros. cbn [decode]. unfold second_ok, between, cont, between. byte_tests.
  destruct (decide (a = 0)), (decide (a = 13)); byte_tests; do 2 f_equal; lia.
Qed.

Lemma decode_4 a b c d bs :
  a < 5 → b < 64 → c < 64 → d < 64 → (a = 0 → 16 <= b) → (a = 4 → b < 16) →
  decode (0xF0 + a :: 0x80 + b :: 0x80 + c :: 0x80 + d :: bs)
  = Good (a * 262144 + b * 4096 + c * 64 + d) :: decode bs.
Proof.
  intros. cbn [decode]. unfold second_ok, between, cont, between. byte_tests.
  destruct (decide (a = 0)), (decide (a = 4)); byte_tests; do 2 f_equal; lia.
Qed.

Lemma decode_encode r bs : ValidRune r = true → decode (EncodeRune r ++ bs) = Good r :: decode bs.
Proof.
  intros Hv. unfold EncodeRune. rewrite Hv. unfold ValidRune in Hv. revert Hv.
  cases_N; intros Hv; try discriminate; cbn [negb app].
  all: first [ rewrite decode_1 by lia; done
             | rewrite decode_2 by divlia
             | rewrite decode_3 by divlia
             | rewrite decode_4 by divlia ];
    do 2 f_equal; divlia.
Qed.

Lemma decode_encode_list rs bs :
  Forall (fun r => ValidRune r = true) rs →
  decode ((rs ≫= EncodeRune) ++ bs) = (Good <$> rs) ++ decode bs.
Proof.
  induction 1 as [|r rs Hr _ IH]; [done|].
  by rewrite bind_cons, <- (assoc_L (++)), decode_encode, IH.
Qed.

Lemma encode_list_bytes rs : Forall (fun b => b < 256) (rs ≫= EncodeRune).
Proof. induction rs; [constructor|]. rewrite bind_cons. apply Forall_app; auto using EncodeRune_bytes. Qed.

(** The bytes of a decoded piece. *)
Definition chunk_bytes (c : chunk) : list N := match c with Good r => EncodeRune r | Bad b => [b] end.
Definition text (cs : list chunk) : string := string_of_bytes (cs ≫= chunk_bytes).

Local Ltac encode_tests :=
  unfold EncodeRune, ValidRune; cases_N; cbn [negb app]; try (exfalso; lia); repeat f_equal; divlia.

Lemma encode_2 b0 b1 :
  between 0xC2 0xDF b0 && cont b1 = true → EncodeRune ((b0 - 0xC0) * 64 + (b1 - 0x80)) = [b0; b1].
Proof. unfold cont, between. rewrite !andb_true_iff, !N.leb_le. intros. encode_tests. Qed.

Lemma encode_3 b0 b1 b2 :
  between 0xE0 0xEF b0 && second_ok b0 b1 && cont b2 = true →
  EncodeRune ((b0 - 0xE0) * 4096 + (b1 - 0x80) * 64 + (b2 - 0x80)) = [b0; b1; b2].
Proof.
  unfold second_ok, cont, between. intros Hb. assert (∃ lo hi, lo <= b1 <= hi ∧ 0x80 <= lo ∧ hi <= 0xBF ∧
    (b0 = 0xE0 → lo = 0xA0) ∧ (b0 = 0xED → hi = 0x9F) ∧ 0xE0 <= b0 <= 0xEF ∧ 0x80 <= b2 <= 0xBF) as (lo & hi & ?).
  { revert Hb. cases_N; cbn [andb]; intros; try discriminate; subst; try lia.
    all: first [ by exists 0xA0, 0xBF; repeat split; lia | by exists 0x80, 0x9F; repeat split; lia
               | by exists 0x80, 0xBF; repeat split; lia ]. }
  encode_tests.
Qed.

Lemma encode_4 b0 b1 b2 b3 :
  between 0xF0 0xF4 b0 && second_ok b0 b1 && cont b2 && cont b3 = true →
  EncodeRune ((b0 - 0xF0) * 262144 + (b1 - 0x80) * 4096 + (b2 - 0x80) * 64 + (b3 - 0x80)) = [b0; b1; b2; b3].
Proof.
  unfold second_ok, cont, between. intros Hb. assert (∃ lo hi, lo <= b1 <= hi ∧ 0x80 <= lo ∧ hi <= 0xBF ∧
    (b0 = 0xF0 → lo = 0x90) ∧ (b0 = 0xF4 → hi = 0x8F) ∧ 0xF0 <= b0 <= 0xF4 ∧ 0x80 <= b2 <= 0xBF ∧ 0x80 <= b3 <= 0xBF)
    as (lo & hi & ?).
  { revert Hb. cases_N; cbn [andb]; intros; try discriminate; subst; try lia.
    all: first [ by exists 0x90, 0xBF; repeat split; lia | by exists 0x80, 0x8F; repeat split; lia
               | by exists 0x80, 0xBF; repeat split; lia ]. }
  encode_tests.
Qed.

(** One step of the decoder: the chunk it takes and the bytes left; an ASCII
    byte behind the input changes neither. *)
Definition decode_step (b : N) (bs : list N) (c : chunk) (rest : list N) : Prop :=
  chunk_bytes c ++ rest = b :: bs ∧ (b < 0x80 → c = Good b) ∧ (0x80 <= b → 0x80 <= chunk_rune c) ∧
  decode (b :: bs) = c :: decode rest ∧
  (∀ x t, x < 0x80 → decode (b :: bs ++ x :: t) = c :: decode (rest ++ x :: t)).

Lemma decode_step_bad b bs :
  0x80 <= b → decode (b :: bs) = Bad b :: decode bs →
  (∀ x t, cont x = false → second_ok b x = false → decode (b :: bs ++ x :: t) = Bad b :: decode (bs ++ x :: t)) →
  ∃ c rest, decode_step b bs c rest.
Proof.
  intros Hb Hd Hx. exists (Bad b), bs. repeat split; [lia|done|done|]. intros x t Hlt.
  apply Hx; unfold second_ok, cont, between; cases_N; cbn [andb]; try lia; done.
Qed.

Lemma decode_step_good b bs r bs' :
  EncodeRune r ++ bs' = b :: bs → 0x80 <= b → (∀ s, decode (b :: bs ++ s) = Good r :: decode (bs' ++ s)) →
  ∃ c rest, decode_step b bs c rest.
Proof.
  intros Happ Hb Hd.
  exists (Good r), bs'. repeat split; [done|lia| |by specialize (Hd []); rewrite !app_nil_r in Hd|auto].
  unfold chunk_rune. revert Happ. unfold EncodeRune. cases_N; intros; simplify_eq/=; lia.
Qed.

Lemma decode_cons b bs : ∃ c rest, decode_step b bs c rest.
Proof.
  destruct (N.ltb_spec b 0x80) as [Hb|Hb].
  { exists (Good b), bs. repeat split; try lia; try (by apply decode_1); [|intros; by rewrite decode_1].
    cbn [chunk_bytes]. unfold EncodeRune. by rewrite (proj2 (N.leb_le b 0x7F)) by lia. }
  assert (Hlt : (b <? 0x80) = false) by (by apply N.ltb_ge).
  destruct bs as [|b1 r2]; [|destruct (between 0xC2 0xDF b && cont b1) eqn:E2;
    [|destruct r2 as [|b2 r3]; [|destruct (between 0xE0 0xEF b && second_ok b b1 && cont b2) eqn:E3;
    [|destruct r3 as [|b3 r4]; [|destruct (between 0xF0 0xF4 b && second_ok b b1 && cont b2 && cont b3) eqn:E4]]]]].
  2: apply (decode_step_good b _ ((b - 0xC0) * 64 + (b1 - 0x80)) r2).
  6: apply (decode_step_good b _ ((b - 0xE0) * 4096 + (b1 - 0x80) * 64 + (b2 - 0x80)) r3).
  10: apply (decode_step_good b _ ((b - 0xF0) * 262144 + (b1 - 0x80) * 4096 + (b2 - 0x80) * 64 + (b3 - 0x80)) r4).
  all: try (apply decode_step_bad; [done| |]).
  all: try done; try (first [rewrite encode_2 by done|rewrite encode_3 by done|rewrite encode_4 by done]).
  all: try done.
  all: intros; cbn [app decode]; rewrite Hlt, ?E2, ?E3, ?E4; try done.
  all: repeat match goal with H : cont _ = false |- _ => rewrite H | H : second_ok _ _ = false |- _ => rewrite H end.
  all: rewrite ?andb_false_r; cbn [andb]; rewrite ?andb_false_r; by repeat case_match.
Qed.

Lemma chunk_bytes_ne c : (0 < length (chunk_bytes c))%nat.
Proof. destruct c as [r|b]; [|simpl; lia]. unfold chunk_bytes, EncodeRune. repeat case_match; simpl; lia. Qed.

(** Decoding loses nothing. *)
Lemma chunk_bytes_decode bs : decode bs ≫= chunk_bytes = bs.
Proof.
  induction bs as [bs IH] using (induction_ltof1 _ length). unfold ltof in IH. destruct bs as [|b bs]; [done|].
  destruct (decode_cons b bs) as (c & rest & Happ & _ & _ & -> & _). rewrite bind_cons, IH; [done|].
  rewrite <- Happ, length_app. pose proof (chunk_bytes_ne c). lia.
Qed.

Lemma text_chunks s : text (chunks s) = s.
Proof. unfold text, chunks. by rewrite chunk_bytes_decode, string_of_bytes_of_string. Qed.

(** An ASCII byte starts a chunk of its own. *)
Lemma decode_app_ascii bs x t : x < 0x80 → decode (bs ++ x :: t) = decode bs ++ Good x :: decode t.
Proof.
  intros Hx. induction bs as [bs IH] using (induction_ltof1 _ length). unfold ltof in IH.
  destruct bs as [|b bs]; [by rewrite app_nil_l, decode_1|].
  destruct (decode_cons b bs) as (c & rest & Happ & _ & _ & -> & Hd). cbn [app]. rewrite Hd, IH; [done| |done].
  rewrite <- Happ, length_app. pose proof (chunk_bytes_ne c). lia.
Qed.

(** A chunk that reads as an ASCII character is one of the bytes. *)
Lemma decode_ascii_elem x bs : x < 0x80 → x ∈ chunk_rune <$> decode bs → x ∈ bs.
Proof.
  intros Hx. induction bs as [bs IH] using (induction_ltof1 _ length). unfold ltof in IH. destruct bs as [|b bs]; [done|].
  destruct (decode_cons b bs) as (c & rest & Happ & Hg & Hge & -> & _). rewrite fmap_cons, elem_of_cons. intros [-> |Hin].
  - destruct (N.lt_ge_cases b 0x80) as [Hb|Hb]; [|specialize (Hge Hb); lia]. rewrite (Hg Hb). left.
  - rewrite <- Happ. apply elem_of_app. right. apply IH; [|done]. rewrite <- Happ, length_app.
    pose proof (chunk_bytes_ne c). lia.
Qed.

(** UTF-8 round trip: decoding the encoding of valid runes gives them back. *)
Lemma runes_of_string_of_runes rs :
  Forall (fun r => ValidRune r = true) rs → runes (string_of_runes rs) = rs.
Proof.
  intros Hrs. unfold runes, chunks, string_of_runes.
  rewrite bytes_of_string_of_bytes by apply encode_list_bytes.
  rewrite <- (app_nil_r (rs ≫= _)), decode_encode_list by done. simpl.
  rewrite app_nil_r, <- list_fmap_compose. apply list_fmap_id.
Qed.

Lemma string_of_bytes_app a b : string_of_bytes (a ++ b) = string_of_bytes a +:+ string_of_bytes b.
Proof. induction a as [|x a IH]; [done|]. simpl. rewrite IH. done. Qed.

Lemma string_of_runes_app a b : string_of_runes (a ++ b) = string_of_runes a +:+ string_of_runes b.
Proof. unfold string_of_runes. by rewrite bind_app, string_of_bytes_app. Qed.

(** *** ASCII text: a rune is a byte. *)
Lemma runes_ascii s : Forall (fun b => b < 0x80) (bytes_of_string s) → runes s = bytes_of_string s.
Proof.
  unfold runes, chunks. induction s as [|c s IH]; [done|]. cbn [bytes_of_string]. intros [Hc Hs]%Forall_cons.
  rewrite decode_1 by done. rewrite fmap_cons, IH by done. done.
Qed.

Lemma string_of_runes_ascii rs : Forall (fun b => b < 0x80) rs → string_of_runes rs = string_of_bytes rs.
Proof.
  intros Hr. unfold string_of_runes. f_equal. induction Hr as [|r rs Hr _ IH]; [done|]. rewrite bind_cons, IH.
  unfold EncodeRune. by rewrite (proj2 (N.leb_le r 0x7F)) by lia.
Qed.

(** ** Character classes of package [unicode] *)

(** The tables consulted for code points above Latin-1 (above ASCII for case
    mapping), which are data of the Go toolchain. *)
Class UnicodeTables := {
  letter_table : rune → bool;   (* unicode.Letter, r > U+00FF *)
  digit_table : rune → bool;    (* unicode.Digit, r > U+00FF *)
  upper_table : rune → rune;    (* unicode.ToUpper, r > U+007F *)
  lower_table : rune → rune;    (* unicode.ToLower, r > U+007F *)
  fold_table : rune → rune → bool; (* equal under unicode.SimpleFold, one of them > U+007F *)
  print_table : rune → bool;    (* strconv.IsPrint, r > U+00FF *)
}.

(** Tables that classify nothing above Latin-1: the instance used to evaluate
    concrete (ASCII) inputs. *)
Definition latin1_tables : UnicodeTables := {|
  letter_table := fun _ => false; digit_table := fun _ => false;
  upper_table := fun r => r; lower_table := fun r => r; fold_table := fun _ _ => false; print_table := fun _ => false |}.

Section unicode.
Context `{UT : UnicodeTables}.

Definition IsLetter (r : rune) : bool :=
  if r <=? 0xFF then
    between 0x41 0x5A r || between 0x61 0x7A r || (r =? 0xAA) || (r =? 0xB5) || (r =? 0xBA)
    || between 0xC0 0xD6 r || between 0xD8 0xF6 r || between 0xF8 0xFF r
  else letter_table r.

Definition IsDigit (r : rune) : bool :=
  if r <=? 0xFF then between 0x30 0x39 r else digit_table r.

(** White_Space is small: it is spelled out in full. *)
Definition IsSpace (r : rune) : bool :=
  if r <=? 0xFF then between 0x09 0x0D r || (r =? 0x20) || (r =? 0x85) || (r =? 0xA0)
  else (r =? 0x1680) || between 0x2000 0x200A r || between 0x2028 0x2029 r
       || (r =? 0x202F) || (r =? 0x205F) || (r =? 0x3000).

Definition unicode_ToUpper (r : rune) : rune :=
  if r <=? 0x7F then (if between 0x61 0x7A r then r - 32 else r) else upper_table r.

Definition strings_ToUpper (s : string) : string :=
  string_of_runes (unicode_ToUpper <$> runes s).

Definition unicode_ToLower (r : rune) : rune :=
  if r <=? 0x7F then (if between 0x41 0x5A r then r + 32 else r) else lower_table r.

Definition strings_ToLower (s : string) : string :=
  string_of_runes (unicode_ToLower <$> runes s).

Definition fold_rune (a b : rune) : bool :=
  (a =? b) || if (a <=? 0x7F) && (b <=? 0x7F) then
                (between 0x41 0x5A a && (b =? a + 32)) || (between 0x41 0x5A b && (a =? b + 32))
              else fold_table a b.

Fixpoint fold_runes (l1 l2 : list rune) : bool :=
  match l1, l2 with
  | [], [] => true
  | a :: l1', b :: l2' => fold_rune a b && fold_runes l1' l2'
  | _, _ => false
  end.

Definition strings_EqualFold (s t : string) : bool := fold_runes (runes s) (runes t).

Definition IsPrint (r : rune) : bool :=
  if r <=? 0xFF then between 0x20 0x7E r || (between 0xA1 0xFF r && negb (r =? 0xAD))
  else print_table r.

(** ** [%q]: [strconv.Quote] *)

Definition hex_digit (n : N) : rune := if n <? 10 then 48 + n else 87 + n.

Fixpoint hex_digits (k : nat) (n : N) : list rune :=
  match k with
  | O => []
  | S k' => hex_digits k' (n / 16) ++ [hex_digit (n mod 16)]
  end.

Definition rBackslash : rune := 92.
Definition rQuote : rune := 34.
Definition rApostrophe : rune := 39.

Definition escaped_rune (r : rune) : list rune :=
  if (r =? rQuote) || (r =? rBackslash) then [rBackslash; r]
  else if IsPrint r then [r]
  else if r =? 7 then [rBackslash; 97]
  else if r =? 8 then [rBackslash; 98]
  else if r =? 12 then [rBackslash; 102]
  else if r =? 10 then [rBackslash; 110]
  else if r =? 13 then [rBackslash; 114]
  else if r =? 9 then [rBackslash; 116]
  else if r =? 11 then [rBackslash; 118]
  else if (r <? 32) || (r =? 0x7F) then rBackslash :: 120 :: hex_digits 2 r
  else if r <? 0x10000 then rBackslash :: 117 :: hex_digits 4 r
  else rBackslash :: 85 :: hex_digits 8 r.

Definition quote_chunk (c : chunk) : list rune :=
  match c with
  | Good r => escaped_rune r
  | Bad b => rBackslash :: 120 :: hex_digits 2 b
  end.

Definition quote_runes (s : string) : list rune :=
  rQuote :: (chunks s ≫= quote_chunk) ++ [rQuote].

Definition Quote (s : string) : string := string_of_runes (quote_runes s).

(** A string that [%q] prints without numeric or letter escapes: valid UTF-8
    made of printable runes. *)
Definition printable (s : string) : bool :=
  bool_decide (string_of_runes (runes s) = s) &&
  forallb (fun c => match c with Good r => ValidRune r && IsPrint r | Bad _ => false end) (chunks s).

Lemma good_chunks l :
  Forall (fun c => match c with Good r => ValidRune r && IsPrint r | Bad _ => false end = true) l →
  l = Good <$> (chunk_rune <$> l) ∧
  Forall (fun r => ValidRune r = true ∧ IsPrint r = true) (chunk_rune <$> l).
Proof.
  induction 1 as [|[r|b] l Hr _ [IH1 IH2]]; simpl in *; [by split| |done].
  apply andb_true_iff in Hr. split; [by f_equal|by constructor].
Qed.

Lemma printable_chunks s :
  printable s = true →
  s = string_of_runes (runes s) ∧ chunks s = Good <$> runes s ∧
  Forall (fun r => ValidRune r = true ∧ IsPrint r = true) (runes s).
Proof.
  unfold printable. rewrite andb_true_iff, bool_decide_eq_true, forallb_Forall.
  intros [Hs Hc]. split; [done|]. by apply good_chunks.
Qed.

(** [%q] of a printable string only ever escapes the quote and the backslash. *)
Definition escape_simple (r : rune) : list rune :=
  if (r =? rQuote) || (r =? rBackslash) then [rBackslash; r] else [r].

Lemma quote_runes_printable s :
  printable s = true → quote_runes s = rQuote :: (runes s ≫= escape_simple) ++ [rQuote].
Proof.
  intros (_ & Hc & Hp)%printable_chunks. unfold quote_runes. rewrite Hc. do 2 f_equal. clear Hc.
  induction Hp as [|r rs [_ Hr] _ IH]; [done|].
  rewrite fmap_cons, !bind_cons, IH. f_equal. simpl.
  unfold escaped_rune, escape_simple. by rewrite Hr.
Qed.

Lemma quote_runes_valid s :
  printable s = true → Forall (fun r => ValidRune r = true) (quote_runes s).
Proof.
  intros H. rewrite quote_runes_printable by done. apply printable_chunks in H as (_ & _ & Hp).
  constructor; [done|]. apply Forall_app; split; [|by repeat constructor].
  induction Hp as [|r rs [Hr _] _ IH]; [constructor|].
  rewrite bind_cons. apply Forall_app; split; [|done].
  unfold escape_simple. destruct (_ || _); repeat constructor; done.
Qed.
End unicode.

(** ** [strings] *)

Definition strings_HasPrefix (s prefix : string) : bool := String.prefix prefix s.

Fixpoint strings_Join (elems : list string) (sep : string) : string :=
  match elems with
  | [] => EmptyString
  | [e] => e
  | e :: es => e +:+ sep +:+ strings_Join es sep
  end.

Definition cSpace : ascii := ascii_of_N 32.
Definition cDot : ascii := ascii_of_N 46.

(** [strings.Split(s, c)] for a one-byte separator. *)
Fixpoint split_char (c : ascii) (s : string) : list string :=
  match s with
  | EmptyString => [EmptyString]
  | String x s' =>
    if Ascii.eqb x c then EmptyString :: split_char c s'
    else match split_char c s' with h :: t => String x h :: t | [] => [String x EmptyString] end
  end.

(** [strings.Count(s, c)] for a one-byte substring. *)
Fixpoint count_char (c : ascii) (s : string) : nat :=
  match s with
  | EmptyString => 0
  | String x s' => (if Ascii.eqb x c then 1 else 0) + count_char c s'
  end.

Lemma split_char_ne c s : split_char c s ≠ [].
Proof. destruct s as [|x s]; simpl; [done|]. repeat case_match; done. Qed.

(** The pieces, joined by the separator, are the string. *)
Lemma Join_split_char c s : strings_Join (split_char c s) (String c EmptyString) = s.
Proof.
  induction s as [|x s IH]; simpl; [done|]. pose proof (split_char_ne c s) as Hne.
  destruct (Ascii.eqb_spec x c) as [->|_].
  - destruct (split_char c s) as [|h t]; [done|]. by rewrite <- IH.
  - destruct (split_char c s) as [|h [|h2 t]]; [done| |]; by rewrite <- IH.
Qed.

Lemma split_char_pieces c s : Forall (fun p => count_char c p = 0%nat) (split_char c s).
Proof.
  induction s as [|x s IH]; simpl; [by repeat constructor|]. destruct (Ascii.eqb x c) eqn:E; [by constructor|].
  destruct (split_char c s) as [|h t]; [by constructor; simpl; rewrite ?E|].
  apply Forall_cons in IH as [Hh Ht]. constructor; [|done]. simpl. by rewrite E.
Qed.

Lemma split_char_none c s : count_char c s = 0%nat → split_char c s = [s].
Proof.
  induction s as [|x s IH]; simpl; [done|]. destruct (Ascii.eqb x c); [done|]. intros Hc. by rewrite IH.
Qed.

Lemma split_char_app c s t :
  count_char c s = 0%nat → split_char c (s +:+ String c t) = s :: split_char c t.
Proof.
  induction s as [|x s IH]; simpl; intros Hc; [by rewrite Ascii.eqb_refl|].
  destruct (Ascii.eqb x c); [done|]. by rewrite IH.
Qed.

(** [strings.SplitN(s, c, 2)] for a one-byte separator. *)
Fixpoint splitn2_char (c : ascii) (s : string) : list string :=
  match s with
  | EmptyString => [EmptyString]
  | String x s' =>
    if Ascii.eqb x c then [EmptyString; s']
    else match splitn2_char c s' with h :: t => String x h :: t | [] => [String x EmptyString] end
  end.

Lemma splitn2_char_app c k v :
  count_char c k = 0%nat → splitn2_char c (k +:+ String c v) = [k; v].
Proof.
  induction k as [|x k IH]; simpl; intros Hc; [by rewrite Ascii.eqb_refl|].
  destruct (Ascii.eqb x c); [done|]. by rewrite IH.
Qed.

(** Either there is no separator, or the first one splits the string. *)
Lemma splitn2_char_cases c s :
  (splitn2_char c s = [s] ∧ count_char c s = 0%nat) ∨
  (∃ k v, splitn2_char c s = [k; v] ∧ s = k +:+ String c v ∧ count_char c k = 0%nat).
Proof.
  induction s as [|x s IH]; [by left|]. simpl. destruct (Ascii.eqb_spec x c) as [-> |Hne].
  - right. by exists EmptyString, s.
  - destruct IH as [[-> ?]|(k & v & -> & -> & ?)]; [by left|right]. exists (String x k), v.
    repeat split; [done..|]. simpl. by rewrite (proj2 (Ascii.eqb_neq x c)).
Qed.

Lemma count_char_app c s t : count_char c (s +:+ t) = (count_char c s + count_char c t)%nat.
Proof.
  induction s as [|x s IH]; [done|]. change (String x s +:+ t) with (String x (s +:+ t)). cbn [count_char]. rewrite IH. by destruct (Ascii.eqb x c).
Qed.

Lemma count_char_none c s : count_char c s = 0%nat ↔ N_of_ascii c ∉ bytes_of_string s.
Proof.
  induction s as [|x s IH]; simpl; [set_solver|]. rewrite not_elem_of_cons.
  destruct (Ascii.eqb_spec x c) as [-> |Hne]; [naive_solver lia|]. rewrite <- IH. split; [|naive_solver].
  split; [|done]. intros Heq. apply Hne. by rewrite <- (ascii_N_embedding x), <- Heq, ascii_N_embedding.
Qed.

(** ** [encoding/hex] *)
Definition hex_char (n : N) : ascii := ascii_of_N (hex_digit n).

Fixpoint hex_EncodeToString (bs : list N) : string :=
  match bs with
  | [] => EmptyString
  | b :: bs' => String (hex_char (N.shiftr b 4)) (String (hex_char (N.land b 15)) (hex_EncodeToString bs'))
  end.

Lemma hex_char_inj m n : (m < 16)%N → (n < 16)%N → hex_char m = hex_char n → m = n.
Proof.
  unfold hex_char, hex_digit. intros Hm Hn Heq. apply (f_equal N_of_ascii) in Heq.
  destruct (N.ltb_spec m 10), (N.ltb_spec n 10);
    rewrite !N_ascii_embedding in Heq by lia; lia.
Qed.

Lemma byte_nibbles a b :
  (a < 256)%N → (b < 256)%N → N.shiftr a 4 = N.shiftr b 4 → N.land a 15 = N.land b 15 → a = b.
Proof.
  intros Ha Hb Hs Hl. rewrite (N.div_mod a 16), (N.div_mod b 16) by lia.
  rewrite !N.shiftr_div_pow2 in Hs. change 15%N with (N.ones 4) in Hl. rewrite !N.land_ones in Hl.
  change (2 ^ 4)%N with 16%N in *. by rewrite Hs, Hl.
Qed.

(** The encoding of byte strings is injective. *)
Lemma hex_EncodeToString_inj l1 l2 :
  Forall (fun b => b < 256)%N l1 → Forall (fun b => b < 256)%N l2 →
  hex_EncodeToString l1 = hex_EncodeToString l2 → l1 = l2.
Proof.
  intros H1. revert l2. induction H1 as [|a l1 Ha H1 IH]; intros l2 H2 Heq; destruct H2 as [|b l2 Hb H2]; try done.
  simpl in Heq. injection Heq as E1 E2 E3. f_equal; [|by apply IH].
  assert (Hlt : ∀ x, (x < 256)%N → (N.shiftr x 4 < 16)%N ∧ (N.land x 15 < 16)%N).
  { intros x Hx. rewrite N.shiftr_div_pow2. change 15%N with (N.ones 4). rewrite N.land_ones.
    change (2 ^ 4)%N with 16%N. split; [apply N.Div0.div_lt_upper_bound; lia|by apply N.mod_lt]. }
  destruct (Hlt a Ha), (Hlt b Hb). apply byte_nibbles; auto using hex_char_inj.
Qed.

(** Upper-case digits, and the value of a digit in either case. *)
Definition upper_hex (n : N) : rune := (if n <? 10 then 48 + n else 55 + n)%N.
Definition fromHexChar (c : N) : option N :=
  if between 48 57 c then Some (c - 48)%N
  else if between 97 102 c then Some (c - 87)%N
  else if between 65 70 c then Some (c - 55)%N
  else None.

(** ** Concatenation *)
Lemma sapp_assoc a b c : a +:+ b +:+ c = (a +:+ b) +:+ c.
Proof. induction a as [|x a IH]; [done|]. exact (f_equal (String x) IH). Qed.
Lemma sapp_cons c a b : String c a +:+ b = String c (a +:+ b).
Proof. done. Qed.
Lemma sapp_nil_l b : "" +:+ b = b.
Proof. done. Qed.
Lemma sapp_nil_r a : a +:+ "" = a.
Proof. induction a as [|x a IH]; [done|]. exact (f_equal (String x) IH). Qed.
Lemma slength_app a b : String.length (a +:+ b) = (String.length a + String.length b)%nat.
Proof. induction a as [|x a IH]; [done|]. exact (f_equal S IH). Qed.
Lemma substring_app a b : String.substring (String.length a) (String.length (a +:+ b) - String.length a) (a +:+ b) = b.
Proof.
  rewrite slength_app. replace (String.length a + String.length b - String.length a)%nat with (String.length b) by lia.
  induction a as [|c a IH]; [|exact IH]. rewrite sapp_nil_l. induction b as [|d b IHb]; [done|].
  exact (f_equal (String d) IHb).
Qed.

(** [strings.Contains(s, sub)]. *)
Fixpoint strings_Contains (s sub : string) : bool :=
  String.prefix sub s || match s with EmptyString => false | String _ s' => strings_Contains s' sub end.

(** [strings.ReplaceAll(s, old, new)] for a non-empty [old]. *)
Fixpoint replace_all (fuel : nat) (s old new : string) : string :=
  match fuel, s with
  | S n, String c s' =>
      if String.prefix old s
      then new +:+ replace_all n (String.substring (String.length old) (String.length s - String.length old) s) old new
      else String c (replace_all n s' old new)
  | _, _ => s
  end.
Definition strings_ReplaceAll (s old new : string) : string := replace_all (String.length s) s old new.

(** ** [strconv.Atoi]: an optional sign and decimal digits, on 64 bits. *)
Definition digit_value (c : ascii) : option Z :=
  let n := N_of_ascii c in if between 48 57 n then Some (Z.of_N n - 48)%Z else None.
Fixpoint digits_value (s : string) (acc : Z) : option Z :=
  match s with
  | EmptyString => Some acc
  | String c s' => d ← digit_value c; digits_value s' (10 * acc + d)%Z
  end.
(** The number written, if it is one. *)
Definition signed_value (s : string) : option Z :=
  let unsigned t := if decide (t = "") then None else digits_value t 0 in
  match s with
  | String c s' => if Ascii.eqb c (ascii_of_N 45) then Z.opp <$> unsigned s'
                   else if Ascii.eqb c (ascii_of_N 43) then unsigned s' else unsigned s
  | EmptyString => None
  end.
Definition Atoi (s : string) : option Z :=
  z ← signed_value s; if decide (wrap64 z = z) then Some z else None.

(** ** [strings.TrimSpace] *)
Fixpoint trim_left `{UnicodeTables} (cs : list chunk) : list chunk :=
  match cs with c :: cs' => if IsSpace (chunk_rune c) then trim_left cs' else cs | [] => [] end.
Definition TrimSpace `{UnicodeTables} (s : string) : string := text (reverse (trim_left (reverse (trim_left (chunks s))))).

Lemma trim_left_none `{UnicodeTables} cs : Forall (fun c => IsSpace (chunk_rune c) = false) cs → trim_left cs = cs.
Proof. intros Hcs. destruct Hcs as [|c cs Hc Hcs]; [done|]. cbn [trim_left]. by rewrite Hc. Qed.

(** Text without spaces is left alone, and one in front of it is removed. *)
Lemma TrimSpace_none `{UnicodeTables} s : Forall (fun b => between 0x21 0x7E b = true) (bytes_of_string s) →
  TrimSpace s = s ∧ TrimSpace (" " +:+ s) = s.
Proof.
  intros Hs.
  assert (Hc : Forall (fun c => IsSpace (chunk_rune c) = false) (chunks s)).
  { unfold chunks. induction Hs as [|b bs Hb Hs IH]; [constructor|]. unfold between in Hb.
    apply andb_prop in Hb as [H1%N.leb_le H2%N.leb_le]. rewrite decode_1 by lia. constructor; [|done]. cbn [chunk_rune]. clear -H1 H2.
    unfold IsSpace, between. rewrite (proj2 (N.leb_le b 0xFF)) by lia.
    repeat match goal with |- context [?a <=? ?b] => destruct (N.leb_spec a b) | |- context [?a =? ?b] => destruct (N.eqb_spec a b) end; try lia; done. }
  assert (Ht : text (reverse (trim_left (reverse (trim_left (chunks s))))) = s).
  { rewrite (trim_left_none _ Hc), trim_left_none by (by apply Forall_reverse). by rewrite reverse_involutive, text_chunks. }
  split; [exact Ht|]. unfold TrimSpace. change (chunks (" " +:+ s)) with (Good 0x20 :: chunks s). cbn [trim_left chunk_rune].
  change (IsSpace 0x20) with true. exact Ht.
Qed.
