(* ===== verification/Filter.v ===== *)
(** * Filter predicates ([cloudevent/cefilter/filter.go])

    The compiled predicate tree of a CloudEvent filter, its evaluation
    ([Match]) and its printed form ([String]), and the compiler of [LIKE]
    globs to regular expressions.  The glob compiler is modelled with the
    fragment of Go's [regexp] it produces: the pattern source is built as the
    code builds it, parsed ([regexp_Compile]) and run ([MatchString]). *)
From S2P Require Import Prelude GoText.
From stdpp Require Import options.

(** The flat view of a CloudEvent: [type Attrs map[string]string]. *)
Abbreviation Attrs := (gmap string string).

(** ** The fragment of package [regexp] that globs compile to *)
Module Regexp.
Local Open Scope N_scope.

Definition rStar : rune := 42.
Definition rQuestion : rune := 63.
Definition rDot : rune := 46.
Definition rNL : rune := 10.

(** The runes [regexp.QuoteMeta] escapes: \ . + * ? ( ) | [ ] { } ^ $ *)
Definition meta_runes : list rune := [92; 46; 43; 42; 63; 40; 41; 124; 91; 93; 123; 125; 94; 36].
Definition is_meta (r : rune) : bool := existsb (N.eqb r) meta_runes.

Definition QuoteMeta (r : rune) : list rune := if is_meta r then [rBackslash; r] else [r].

(** The operators of a compiled glob: [\A], [\z], [.], [.*] and literals. *)
Inductive re_op := OpBeginText | OpEndText | OpAnyCharNotNL | OpStarAnyCharNotNL | OpLiteral (r : rune).

#[global] Instance re_op_eq_dec : EqDecision re_op.
Proof. solve_decision. Defined.

Record Regexp := mkRegexp { rx_expr : list rune; rx_prog : list re_op }.

#[global] Instance Regexp_eq_dec : EqDecision Regexp.
Proof. solve_decision. Defined.

(** A repetition operator after an atom: [*], [+], [?] or a brace. *)
Definition repeats (rs : list rune) : bool :=
  match rs with r :: _ => existsb (N.eqb r) [42; 43; 63; 123] | [] => false end.

(** A punctuation character that [\] may escape (ASCII, not alphanumeric, not [_]). *)
Definition is_punct (r : rune) : bool :=
  (r <? 0x80) && negb (between 48 57 r || between 65 90 r || between 97 122 r || (r =? 95)).

(** The parser of Go's regexp syntax, on the fragment with [\A], [\z], [.],
    [.*], escaped punctuation and plain literals ([None]: anything else). *)
Fixpoint re_parse (rs : list rune) : option (list re_op) :=
  match rs with
  | [] => Some []
  | r :: rs1 =>
    if r =? rBackslash then
      match rs1 with
      | [] => None
      | c :: rs2 =>
        if repeats rs2 then None
        else if c =? 65 then cons OpBeginText <$> re_parse rs2
        else if c =? 122 then cons OpEndText <$> re_parse rs2
        else if is_punct c then cons (OpLiteral c) <$> re_parse rs2
        else None
      end
    else if r =? rDot then
      match rs1 with
      | c :: rs2 =>
        if c =? rStar then (if repeats rs2 then None else cons OpStarAnyCharNotNL <$> re_parse rs2)
        else if repeats rs1 then None else cons OpAnyCharNotNL <$> re_parse rs1
      | [] => Some [OpAnyCharNotNL]
      end
    else if is_meta r then None
    else if repeats rs1 then None
    else cons (OpLiteral r) <$> re_parse rs1
  end.

Definition regexp_Compile (expr : list rune) : option Regexp := mkRegexp expr <$> re_parse expr.

(** Matching at a position: [at0] says the position is the start of the text. *)
Fixpoint match_here (ops : list re_op) (at0 : bool) (s : list rune) {struct ops} : bool :=
  match ops with
  | [] => true
  | OpBeginText :: ops' => at0 && match_here ops' at0 s
  | OpEndText :: ops' => match s with [] => match_here ops' at0 s | _ => false end
  | OpAnyCharNotNL :: ops' =>
      match s with c :: s' => negb (c =? rNL) && match_here ops' false s' | [] => false end
  | OpLiteral r :: ops' =>
      match s with c :: s' => (c =? r) && match_here ops' false s' | [] => false end
  | OpStarAnyCharNotNL :: ops' =>
      (fix star (at0 : bool) (s : list rune) {struct s} : bool :=
         match_here ops' at0 s ||
         match s with c :: s' => negb (c =? rNL) && star false s' | [] => false end) at0 s
  end.

(** [Regexp.MatchString]: a match anywhere in the text. *)
Fixpoint match_from (ops : list re_op) (at0 : bool) (s : list rune) {struct s} : bool :=
  match_here ops at0 s ||
  match s with _ :: s' => match_from ops false s' | [] => false end.

Definition MatchString (rx : Regexp) (v : string) : bool := match_from (rx_prog rx) true (runes v).
End Regexp.
Export Regexp.

(** ** Glob compiler *)

(** The source text the loop of [globToRegexp] writes for one rune. *)
Definition glob_rune (ch : rune) : list rune :=
  if (ch =? rStar)%N then [rDot; rStar]
  else if (ch =? rQuestion)%N then [rDot]
  else QuoteMeta ch.

Definition globToRegexp (pattern : string) : option Regexp :=
  regexp_Compile ([rBackslash; 65%N] ++ (runes pattern ≫= glob_rune) ++ [rBackslash; 122%N]).

(** ** The predicate tree *)
Inductive Predicate :=
| eqPred (key val : string)
| nePred (key val : string)
| likePred (key pattern : string) (rx : Regexp)
| inPred (key : string) (vals : gset string) (repr : string)
| existsPred (key : string)
| andPred (left right : Predicate)
| orPred (left right : Predicate)
| notPred (inner : Predicate).

#[global] Instance Predicate_eq_dec : EqDecision Predicate.
Proof. solve_decision. Defined.

(** [Predicate.Match]. *)
Fixpoint Predicate_Match (p : Predicate) (a : Attrs) : bool :=
  match p with
  | eqPred k v => match a !! k with Some x => bool_decide (x = v) | None => false end
  | nePred k v => match a !! k with Some x => negb (bool_decide (x = v)) | None => true end
  | likePred k _ rx => match a !! k with Some x => MatchString rx x | None => false end
  | inPred k vals _ => match a !! k with Some x => bool_decide (x ∈ vals) | None => false end
  | existsPred k => match a !! k with Some _ => true | None => false end
  | andPred l r => Predicate_Match l a && Predicate_Match r a
  | orPred l r => Predicate_Match l a || Predicate_Match r a
  | notPred q => negb (Predicate_Match q a)
  end.

(** [Predicate.String]. *)
Fixpoint Predicate_String `{UnicodeTables} (p : Predicate) : string :=
  match p with
  | eqPred k v => k +:+ " = " +:+ Quote v
  | nePred k v => k +:+ " != " +:+ Quote v
  | likePred k pat _ => k +:+ " LIKE " +:+ Quote pat
  | inPred k _ repr => k +:+ " IN (" +:+ repr +:+ ")"
  | existsPred k => "EXISTS " +:+ k
  | andPred l r => "(" +:+ Predicate_String l +:+ " AND " +:+ Predicate_String r +:+ ")"
  | orPred l r => "(" +:+ Predicate_String l +:+ " OR " +:+ Predicate_String r +:+ ")"
  | notPred q => "NOT " +:+ Predicate_String q
  end.

(** ** What a glob means

    [*] stands for any run of runes other than newline, [?] for one rune other
    than newline, every other rune for itself. *)
Inductive glob_matches : list rune → list rune → Prop :=
| glob_nil : glob_matches [] []
| glob_star_stop g s : glob_matches g s → glob_matches (rStar :: g) s
| glob_star_more g c s : c ≠ rNL → glob_matches (rStar :: g) s → glob_matches (rStar :: g) (c :: s)
| glob_question g c s : c ≠ rNL → glob_matches g s → glob_matches (rQuestion :: g) (c :: s)
| glob_char g c s : c ≠ rStar → c ≠ rQuestion → glob_matches g s → glob_matches (c :: g) (c :: s).
#[export] Hint Constructors glob_matches : fluffy.

(** The operators of a compiled glob. *)
Definition glob_op (ch : rune) : re_op :=
  if (ch =? rStar)%N then OpStarAnyCharNotNL
  else if (ch =? rQuestion)%N then OpAnyCharNotNL
  else OpLiteral ch.

Lemma glob_rune_no_repeat g tail :
  repeats tail = false → repeats ((g ≫= glob_rune) ++ tail) = false.
Proof.
  destruct g as [|ch g]; [done|]. intros _. rewrite bind_cons. unfold glob_rune.
  destruct (N.eqb_spec ch rStar); [done|]. destruct (N.eqb_spec ch rQuestion); [done|].
  unfold QuoteMeta. destruct (is_meta ch) eqn:Hm; [done|]. simpl.
  unfold is_meta, meta_runes in Hm. simpl in Hm.
  repeat (apply orb_false_iff in Hm as [? Hm]).
  by repeat (apply orb_false_iff; split).
Qed.

Lemma re_parse_glob g tail ops :
  re_parse tail = Some ops → repeats tail = false →
  re_parse ((g ≫= glob_rune) ++ tail) = Some ((glob_op <$> g) ++ ops).
Proof.
  intros Ht Hr. induction g as [|ch g IH]; [done|].
  pose proof (glob_rune_no_repeat g tail Hr) as Hrep.
  rewrite bind_cons, fmap_cons, <- (assoc_L (++)). unfold glob_rune at 1, glob_op at 1.
  destruct (N.eqb_spec ch rStar) as [->|Hs].
  { cbn [app re_parse]. change (rDot =? rBackslash)%N with false.
    change (rDot =? rDot)%N with true. change (rStar =? rStar)%N with true. cbv iota.
    by rewrite Hrep, IH. }
  destruct (N.eqb_spec ch rQuestion) as [->|Hq].
  { cbn [app re_parse]. change (rDot =? rBackslash)%N with false.
    change (rDot =? rDot)%N with true. cbv iota.
    destruct ((g ≫= glob_rune) ++ tail) as [|c l] eqn:E; [simpl in IH; injection IH as IH; by rewrite <- IH|].
    rewrite Hrep, IH. replace (c =? rStar)%N with false; [done|].
    symmetry. apply N.eqb_neq. intros ->. done. }
  unfold QuoteMeta. destruct (is_meta ch) eqn:Hm.
  - cbn [app re_parse]. change (rBackslash =? rBackslash)%N with true. cbv iota. rewrite Hrep, IH.
    unfold is_meta, meta_runes in Hm. simpl in Hm.
    repeat (apply orb_true_iff in Hm as [Hm%N.eqb_eq|Hm]; [by subst|]). done.
  - cbn [app re_parse]. rewrite Hm, Hrep, IH.
    unfold is_meta, meta_runes in Hm. simpl in Hm.
    apply orb_false_iff in Hm as [H1 Hm]. apply orb_false_iff in Hm as [H2 _].
    unfold rBackslash, rDot. by rewrite H1, H2.
Qed.

(** The glob compiler never fails, and compiles each glob character to its operator. *)
Lemma globToRegexp_prog pattern :
  ∃ rx, globToRegexp pattern = Some rx ∧
        rx_prog rx = OpBeginText :: (glob_op <$> runes pattern) ++ [OpEndText].
Proof.
  unfold globToRegexp, regexp_Compile. cbn [app re_parse].
  change (rBackslash =? rBackslash)%N with true. cbv iota.
  rewrite glob_rune_no_repeat, (re_parse_glob _ _ [OpEndText]) by done. simpl. eauto.
Qed.

Lemma match_here_glob g at0 s :
  match_here ((glob_op <$> g) ++ [OpEndText]) at0 s = true ↔ glob_matches g s.
Proof.
  revert at0 s. induction g as [|ch g IH]; intros at0 s.
  { simpl. destruct s; (split; [intros; try done; constructor|by inversion 1]). }
  rewrite fmap_cons. unfold glob_op at 1.
  destruct (N.eqb_spec ch rStar) as [->|Hs].
  - cbn [app match_here]. revert at0. induction s as [|c s IHs]; intros at0.
    + rewrite orb_false_r, IH. split; [auto with fluffy|]. by inversion 1; subst.
    + rewrite orb_true_iff, andb_true_iff, negb_true_iff, N.eqb_neq, IH, IHs.
      split; [intros [?|[??]]; auto with fluffy|]. inversion 1; subst; auto. done.
  - destruct (N.eqb_spec ch rQuestion) as [->|Hq]; cbn [app match_here]; destruct s as [|c s].
    + split; [done|]. by inversion 1.
    + rewrite andb_true_iff, negb_true_iff, N.eqb_neq, IH.
      split; [intros [??]; auto with fluffy|]. by inversion 1; subst.
    + split; [done|]. by inversion 1.
    + rewrite andb_true_iff, N.eqb_eq, IH. split; [|by inversion 1; subst].
      intros [-> ?]. by constructor.
Qed.

Lemma match_from_not_start ops s : match_from (OpBeginText :: ops) false s = false.
Proof. induction s as [|c s IH]; simpl; [done|]. by rewrite IH. Qed.

Lemma match_from_anchored ops s :
  match_from (OpBeginText :: ops) true s = match_here ops true s.
Proof. destruct s; simpl; rewrite ?match_from_not_start, ?orb_false_r; done. Qed.

Lemma MatchString_glob pattern rx v :
  globToRegexp pattern = Some rx → MatchString rx v = true ↔ glob_matches (runes pattern) (runes v).
Proof.
  intros Hg. destruct (globToRegexp_prog pattern) as (rx' & Hg' & Hp). simplify_eq.
  unfold MatchString. rewrite Hp, match_from_anchored. apply match_here_glob.
Qed.

(** ** Well-formed predicates: what [Parse] builds

    A [LIKE] leaf carries the compiled form of its pattern; an [IN] leaf
    carries the set of a non-empty list of literals, and as [repr] that list
    printed with [%q]. *)
Fixpoint wf_pred `{UnicodeTables} (p : Predicate) : Prop :=
  match p with
  | likePred _ pat rx => globToRegexp pat = Some rx
  | inPred _ vals repr =>
      ∃ vs, vs ≠ [] ∧ vals = list_to_set vs ∧ repr = strings_Join (Quote <$> vs) ", "
  | andPred l r | orPred l r => wf_pred l ∧ wf_pred r
  | notPred q => wf_pred q
  | _ => True
  end.

(** The meaning of a predicate on an event, as the package documentation gives
    it: [=], [!=], [LIKE], [IN], [EXISTS] on one attribute, and the connectives. *)
Fixpoint pred_holds (p : Predicate) (a : Attrs) : Prop :=
  match p with
  | eqPred k v => a !! k = Some v
  | nePred k v => a !! k ≠ Some v
  | likePred k pat _ => ∃ v, a !! k = Some v ∧ glob_matches (runes pat) (runes v)
  | inPred k vals _ => ∃ v, a !! k = Some v ∧ v ∈ vals
  | existsPred k => is_Some (a !! k)
  | andPred l r => pred_holds l a ∧ pred_holds r a
  | orPred l r => pred_holds l a ∨ pred_holds r a
  | notPred q => ¬ pred_holds q a
  end.

(** evaluating a well-formed predicate decides exactly the documented
    meaning of the expression: [=] and [EXISTS] need the attribute, [!=] holds
    also when it is absent, [LIKE] is glob matching of the whole value, [IN] is
    membership, and [AND], [OR], [NOT] are the Boolean connectives. *)
Theorem Match_spec `{UnicodeTables} p a : wf_pred p → Predicate_Match p a = true ↔ pred_holds p a.
Proof.
  induction p as [k v|k v|k pat rx|k vals repr|k|l IHl r IHr|l IHl r IHr|q IH]; simpl; intros Hwf.
  - destruct (a !! k); rewrite ?bool_decide_eq_true; naive_solver.
  - destruct (a !! k); rewrite ?negb_true_iff, ?bool_decide_eq_false; naive_solver.
  - destruct (a !! k) as [v|]; [|naive_solver].
    rewrite (MatchString_glob _ _ _ Hwf). naive_solver.
  - destruct (a !! k) as [v|]; rewrite ?bool_decide_eq_true; naive_solver.
  - destruct (a !! k); unfold is_Some; naive_solver.
  - rewrite andb_true_iff. naive_solver.
  - rewrite orb_true_iff. naive_solver.
  - rewrite negb_true_iff, <- not_true_iff_false. naive_solver.
Qed.

Definition attrs_of (l : list (string * string)) : Attrs := list_to_map l.

Lemma Match_spec_witness :
  let a := attrs_of [("type", "com.acme.order"); ("orgid", "org-1")] in
  match globToRegexp "com.*.order" with
  | Some rx => pred_holds (andPred (likePred "type" "com.*.order" rx) (notPred (existsPred "debug"))) a
  | None => False
  end.
Proof.
  destruct (globToRegexp "com.*.order") as [rx|] eqn:E; [|by vm_compute in E].
  apply (Match_spec (H := latin1_tables)); [by split|].
  revert E. vm_compute. intros [= <-]. reflexivity.
Defined.

(** a [LIKE] glob never fails to compile, and the compiled regexp accepts
    exactly the values the glob describes, anchored at both ends: [*] is any run
    of runes, [?] one rune, every other rune itself — except that neither
    wildcard matches a newline, which the regexp's [.] excludes. *)
Theorem globToRegexp_correct pattern :
  ∃ rx, globToRegexp pattern = Some rx ∧
        ∀ v, MatchString rx v = true ↔ glob_matches (runes pattern) (runes v).
Proof.
  destruct (globToRegexp_prog pattern) as (rx & Hg & _).
  exists rx. split; [done|]. intros v. by apply MatchString_glob.
Qed.

(** A value holding a newline is matched by no wildcard: [LIKE "*"] rejects it. *)
Lemma like_star_rejects_newline rx v :
  globToRegexp "*" = Some rx → rNL ∈ runes v → MatchString rx v = false.
Proof.
  intros Hrx Hnl. apply not_true_iff_false. rewrite (MatchString_glob _ _ _ Hrx).
  change (runes "*") with [rStar].
  generalize dependent (runes v). intros l Hnl Hm.
  remember [rStar] as g eqn:Hg. revert Hnl. induction Hm; simplify_eq; try done.
  - inversion Hm; subst. by rewrite elem_of_nil.
  - rewrite elem_of_cons. intros [?|?]; [done|auto].
Qed.
