(* ===== verification/Lexer.v ===== *)
(** * The filter lexer ([cloudevent/cefilter/lexer.go])

    The lexer's state is the position and the input from that position on
    ([l.pos] and [l.input[l.pos:]]), with the tokens emitted so far.  The
    main loop is fuelled; [lex] gives it one unit more than the input has runes,
    which is always enough ([lex_total]). *)
From S2P Require Import Prelude GoText.
From stdpp Require Import options.

Inductive tokenKind :=
| tokEOF | tokIdent | tokString | tokEq | tokNe | tokLike | tokIn | tokExists
| tokAnd | tokOr | tokNot | tokLParen | tokRParen | tokComma.

#[global] Instance tokenKind_eq_dec : EqDecision tokenKind.
Proof. solve_decision. Defined.

Record token := mkToken { tok_kind : tokenKind; tok_val : string; tok_pos : nat }.

#[global] Instance token_eq_dec : EqDecision token.
Proof. solve_decision. Defined.

(** [token.String]. *)
Definition token_String `{UnicodeTables} (t : token) : string :=
  match tok_kind t with
  | tokEOF => "<EOF>"
  | tokIdent => "IDENT(" +:+ tok_val t +:+ ")"
  | tokString => "STRING(" +:+ Quote (tok_val t) +:+ ")"
  | _ => tok_val t
  end.

(** The lexer's errors; [LexOutOfFuel] is the model's own and never returned. *)
Inductive lex_error :=
| UnexpectedCharacter (ch : rune) (pos : nat)
| UnterminatedString (pos : nat)
| LexOutOfFuel.

Section lexer.
Context `{UT : UnicodeTables}.
Local Open Scope N_scope.

(** [skipWhitespace]: the position and the input after leading white space. *)
Fixpoint skipWhitespace (pos : nat) (rest : list rune) : nat * list rune :=
  match rest with
  | c :: rest' => if IsSpace c then skipWhitespace (S pos) rest' else (pos, rest)
  | [] => (pos, rest)
  end.

Definition is_word_rune (ch : rune) : bool :=
  IsLetter ch || IsDigit ch || (ch =? 95) || (ch =? 45) || (ch =? 46).

(** [readWord]: the longest run of word runes, and the state after it. *)
Fixpoint readWord (pos : nat) (rest : list rune) : list rune * nat * list rune :=
  match rest with
  | ch :: rest' =>
      if is_word_rune ch then
        let '(w, pos', r) := readWord (S pos) rest' in (ch :: w, pos', r)
      else ([], pos, rest)
  | [] => ([], pos, rest)
  end.

(** The loop of [readString], after the opening quote: the literal's runes and
    the state after the closing quote, or the position where the input ended. *)
Fixpoint readString (quote : rune) (pos : nat) (rest : list rune)
  : result lex_error (list rune * nat * list rune) :=
  match rest with
  | [] => Err (UnterminatedString pos)
  | ch :: rest' =>
    if ch =? quote then Ok ([], S pos, rest')
    else if ch =? rBackslash then
      match rest' with
      | esc :: rest'' =>
          '(s, pos', r) ← readString quote (S (S pos)) rest''; Ok (esc :: s, pos', r)
      | [] => Err (UnterminatedString (S pos))
      end
    else '(s, pos', r) ← readString quote (S pos) rest'; Ok (ch :: s, pos', r)
  end.

(** [emitWord]: reserved words are recognised case-insensitively. *)
Definition emitWord (word : string) (pos : nat) : token :=
  let up := strings_ToUpper word in
  if bool_decide (up = "AND") then mkToken tokAnd "AND" pos
  else if bool_decide (up = "OR") then mkToken tokOr "OR" pos
  else if bool_decide (up = "NOT") then mkToken tokNot "NOT" pos
  else if bool_decide (up = "LIKE") then mkToken tokLike "LIKE" pos
  else if bool_decide (up = "IN") then mkToken tokIn "IN" pos
  else if bool_decide (up = "EXISTS") then mkToken tokExists "EXISTS" pos
  else mkToken tokIdent word pos.

(** [l.peek(1) == '=']. *)
Definition starts_eq (rest : list rune) : bool :=
  match rest with c :: _ => c =? 61 | [] => false end.

(** [tokenize]: one iteration per token. *)
Fixpoint tokenize (fuel : nat) (pos : nat) (rest : list rune) (toks : list token)
  : result lex_error (list token) :=
  match fuel with
  | O => Err LexOutOfFuel
  | S fuel' =>
    let '(start, rest0) := skipWhitespace pos rest in
    match rest0 with
    | [] => Ok (toks ++ [mkToken tokEOF "" start])
    | ch :: rest1 =>
      let emit k v := tokenize fuel' (S start) rest1 (toks ++ [mkToken k v start]) in
      if ch =? 40 then emit tokLParen "("
      else if ch =? 41 then emit tokRParen ")"
      else if ch =? 44 then emit tokComma ","
      else if (ch =? 33) && starts_eq rest1 then
        tokenize fuel' (S (S start)) (tail rest1) (toks ++ [mkToken tokNe "!=" start])
      else if ch =? 61 then emit tokEq "="
      else if (ch =? rQuote) || (ch =? rApostrophe) then
        '(s, pos', r) ← readString ch (S start) rest1;
        tokenize fuel' pos' r (toks ++ [mkToken tokString (string_of_runes s) start])
      else if IsLetter ch || (ch =? 95) then
        let '(w, pos', r) := readWord start rest0 in
        tokenize fuel' pos' r (toks ++ [emitWord (string_of_runes w) start])
      else Err (UnexpectedCharacter ch start)
    end
  end.

Definition lex (input : string) : result lex_error (list token) :=
  tokenize (S (length (runes input))) 0 (runes input) [].

(** ** Every iteration consumes input *)

Lemma skipWhitespace_length pos rest :
  (length (skipWhitespace pos rest).2 ≤ length rest)%nat.
Proof.
  revert pos. induction rest as [|c rest IH]; intros pos; simpl; [lia|].
  destruct (IsSpace c); simpl; [|lia]. specialize (IH (S pos)). lia.
Qed.

Lemma readWord_length pos rest w pos' r :
  readWord pos rest = (w, pos', r) → (length rest = length w + length r)%nat.
Proof.
  revert pos w pos' r. induction rest as [|c rest IH]; intros pos w pos' r; simpl; [by intros [= <- <- <-]|].
  destruct (is_word_rune c); [|by intros [= <- <- <-]].
  destruct (readWord (S pos) rest) as [[w' p'] r'] eqn:E. intros [= <- <- <-].
  simpl. by rewrite (IH _ _ _ _ E).
Qed.

Lemma readString_length quote pos rest s pos' r :
  readString quote pos rest = Ok (s, pos', r) → (length r < length rest)%nat.
Proof.
  revert pos s pos' r. induction rest as [rest IH] using (induction_ltof1 _ (@length rune)).
  unfold ltof in IH. intros pos s pos' r. destruct rest as [|c rest]; simpl; [done|].
  destruct (c =? quote); [intros [= <- <- <-]; lia|].
  destruct (c =? rBackslash).
  - destruct rest as [|esc rest]; [done|]. unfold mbind, result_bind.
    destruct (readString quote (S (S pos)) rest) as [[[s' p'] r']|e] eqn:E; [|done].
    intros [= <- <- <-]. apply IH in E; simpl in *; lia.
  - unfold mbind, result_bind.
    destruct (readString quote (S pos) rest) as [[[s' p'] r']|e] eqn:E; [|done].
    intros [= <- <- <-]. apply IH in E; simpl in *; lia.
Qed.

Lemma readString_no_fuel quote pos rest : readString quote pos rest ≠ Err LexOutOfFuel.
Proof.
  revert pos. induction rest as [rest IH] using (induction_ltof1 _ (@length rune)).
  unfold ltof in IH. intros pos. destruct rest as [|c rest]; simpl; [done|].
  destruct (c =? quote); [done|].
  destruct (c =? rBackslash); [destruct rest as [|esc rest]; [done|]|];
    unfold mbind, result_bind; case_match eqn:E; simplify_eq/=;
    repeat case_match; try done; intros [= ->]; eapply IH, E; simpl; lia.
Qed.

Lemma readWord_head c rest pos w pos' r :
  is_word_rune c = true → readWord pos (c :: rest) = (w, pos', r) → (length r ≤ length rest)%nat.
Proof.
  intros Hc H. pose proof (readWord_length _ _ _ _ _ H) as Hl. simpl in H.
  rewrite Hc in H. destruct (readWord (S pos) rest) as [[w' p'] r'].
  injection H as <- <- <-. simpl in Hl. lia.
Qed.

Lemma letter_is_word c : IsLetter c || (c =? 95) = true → is_word_rune c = true.
Proof. unfold is_word_rune. destruct (IsLetter c); simpl; [done|]. intros ->. by rewrite orb_true_r. Qed.

(** Walk the cases of one iteration of [tokenize]. *)
Local Ltac lex_cases :=
  repeat match goal with
  | |- context [if ?b then _ else _] => destruct b eqn:?
  end.

(** What one loop of [tokenize] preserves: enough fuel for the input left. *)
Lemma tokenize_total fuel pos rest toks :
  (length rest < fuel)%nat → tokenize fuel pos rest toks ≠ Err LexOutOfFuel.
Proof.
  revert pos rest toks. induction fuel as [|fuel IH]; intros pos rest toks Hf; [lia|]. simpl.
  pose proof (skipWhitespace_length pos rest) as Hs.
  destruct (skipWhitespace pos rest) as [start rest0]. simpl in Hs.
  destruct rest0 as [|ch rest1]; [done|]. simpl in Hs.
  lex_cases; try (apply IH; simpl; lia).
  - apply IH. destruct rest1; simpl in *; lia.
  - unfold mbind, result_bind.
    destruct (readString ch (S start) rest1) as [[[s p'] r]|e] eqn:E.
    + apply IH. apply readString_length in E. lia.
    + intros [= ->]. by eapply readString_no_fuel.
  - destruct (readWord start (ch :: rest1)) as [[w p'] r] eqn:E.
    apply IH. apply readWord_head in E; [lia|by apply letter_is_word].
  - done.
Qed.

(** ** The token stream ends with its only [EOF] *)

Definition is_eof (t : token) : Prop := tok_kind t = tokEOF.

Lemma emitWord_not_eof w pos : ¬ is_eof (emitWord w pos).
Proof. unfold emitWord, is_eof. by repeat case_bool_decide. Qed.

Lemma tokenize_shape fuel pos rest toks ts :
  tokenize fuel pos rest toks = Ok ts →
  ∃ body e, ts = toks ++ body ++ [e] ∧ Forall (fun t => ¬ is_eof t) body ∧ is_eof e ∧ tok_val e = "".
Proof.
  revert pos rest toks. induction fuel as [|fuel IH]; intros pos rest toks; simpl; [done|].
  destruct (skipWhitespace pos rest) as [start rest0].
  assert (Hrec : ∀ t p r, ¬ is_eof t → tokenize fuel p r (toks ++ [t]) = Ok ts →
    ∃ body e, ts = toks ++ body ++ [e] ∧ Forall (fun t => ¬ is_eof t) body ∧ is_eof e ∧ tok_val e = "").
  { intros t p r Ht (body & e & -> & Hb & He)%IH. exists (t :: body), e.
    split; [by rewrite <- (assoc_L (++))|]. split; [by constructor|done]. }
  destruct rest0 as [|ch rest1].
  { intros [= <-]. exists [], (mkToken tokEOF "" start). done. }
  lex_cases; try done; try (apply Hrec; done).
  - unfold mbind, result_bind.
    destruct (readString _ _ _) as [[[s p'] r]|e]; [|done]. by apply Hrec.
  - destruct (readWord _ _) as [[w p'] r]. apply Hrec, emitWord_not_eof.
Qed.

Lemma lex_shape input ts :
  lex input = Ok ts →
  ∃ body e, ts = body ++ [e] ∧ Forall (fun t => ¬ is_eof t) body ∧ is_eof e ∧ tok_val e = "".
Proof. apply tokenize_shape. Qed.

(** ** What the lexer reads back: token sequences and their spellings *)

Definition kv (t : token) : tokenKind * string := (tok_kind t, tok_val t).

(** [lexes rs kvs]: from any position, the lexer turns the runes [rs] into
    tokens with these kinds and values, followed by [EOF]. *)
Definition lexes (rs : list rune) (kvs : list (tokenKind * string)) : Prop :=
  ∀ fuel pos toks, (length rs < fuel)%nat →
    ∃ ts, tokenize fuel pos rs toks = Ok (toks ++ ts) ∧ kv <$> ts = kvs ++ [(tokEOF, "")].

Lemma lexes_lex rs kvs :
  Forall (fun r => ValidRune r = true) rs → lexes rs kvs →
  ∃ ts, lex (string_of_runes rs) = Ok ts ∧ kv <$> ts = kvs ++ [(tokEOF, "")].
Proof.
  intros Hv H. unfold lex. rewrite runes_of_string_of_runes by done.
  destruct (H (S (length rs)) 0%nat []) as (ts & ? & ?); [lia|]. by exists ts.
Qed.

Lemma lexes_nil : lexes [] [].
Proof. intros [|fuel] pos toks Hf; simpl in Hf; [lia|]. simpl. by eexists. Qed.

Lemma skipWhitespace_space pos rs : skipWhitespace pos (32 :: rs) = skipWhitespace (S pos) rs.
Proof. done. Qed.

Lemma tokenize_fuel_mono fuel fuel' pos rest toks ts :
  tokenize fuel pos rest toks = Ok ts → (fuel ≤ fuel')%nat → tokenize fuel' pos rest toks = Ok ts.
Proof.
  revert fuel' pos rest toks. induction fuel as [|fuel IH]; intros fuel' pos rest toks; [done|].
  destruct fuel' as [|fuel']; [lia|]. intros H Hle. simpl in *.
  destruct (skipWhitespace pos rest) as [start rest0]. destruct rest0 as [|ch rest1]; [done|].
  revert H. lex_cases; try done; try (intros H; eapply IH; [exact H|lia]).
  - unfold mbind, result_bind. destruct (readString _ _ _) as [[[s p'] r]|e]; [|done].
    intros H; eapply IH; [exact H|lia].
  - destruct (readWord _ _) as [[w p'] r]. intros H; eapply IH; [exact H|lia].
Qed.

Lemma lexes_space rs kvs : lexes rs kvs → lexes (32 :: rs) kvs.
Proof.
  intros H fuel pos toks Hf. destruct fuel as [|fuel]; simpl in Hf; [lia|].
  destruct (H (S fuel) (S pos) toks) as (ts & Ht & Hk); [lia|]. exists ts. split; [|done].
  cbn [tokenize]. rewrite skipWhitespace_space. exact Ht.
Qed.

(** One token read by an iteration that consumes [pre] and leaves [rs]. *)
Lemma lexes_token pre t rs kvs :
  (0 < length pre)%nat →
  (∀ fuel pos toks, ∃ pos', tokenize (S fuel) pos (pre ++ rs) toks
      = tokenize fuel pos' rs (toks ++ [mkToken t.1 t.2 pos])) →
  lexes rs kvs → lexes (pre ++ rs) (t :: kvs).
Proof.
  intros Hpre Hstep H fuel pos toks Hf. rewrite length_app in Hf.
  destruct fuel as [|fuel]; [lia|].
  destruct (Hstep fuel pos toks) as (pos' & ->).
  destruct (H fuel pos' (toks ++ [mkToken t.1 t.2 pos])) as (ts & -> & Hk); [lia|].
  exists (mkToken t.1 t.2 pos :: ts). rewrite <- (assoc_L (++)). split; [done|].
  rewrite fmap_cons, Hk. by destruct t.
Qed.

Lemma lexes_lparen rs kvs : lexes rs kvs → lexes (40 :: rs) ((tokLParen, "(") :: kvs).
Proof. apply (lexes_token [40] (tokLParen, "(")); [simpl; lia|]. intros. by exists (S pos). Qed.
Lemma lexes_rparen rs kvs : lexes rs kvs → lexes (41 :: rs) ((tokRParen, ")") :: kvs).
Proof. apply (lexes_token [41] (tokRParen, ")")); [simpl; lia|]. intros. by exists (S pos). Qed.
Lemma lexes_comma rs kvs : lexes rs kvs → lexes (44 :: rs) ((tokComma, ",") :: kvs).
Proof. apply (lexes_token [44] (tokComma, ",")); [simpl; lia|]. intros. by exists (S pos). Qed.
Lemma lexes_eq rs kvs : lexes rs kvs → lexes (61 :: rs) ((tokEq, "=") :: kvs).
Proof. apply (lexes_token [61] (tokEq, "=")); [simpl; lia|]. intros. by exists (S pos). Qed.
Lemma lexes_ne rs kvs : lexes rs kvs → lexes (33 :: 61 :: rs) ((tokNe, "!=") :: kvs).
Proof. apply (lexes_token [33; 61] (tokNe, "!=")); [simpl; lia|]. intros. by exists (S (S pos)). Qed.

Lemma readString_escaped pos (l : list rune) rs :
  ∃ pos', readString rQuote pos ((l ≫= escape_simple) ++ rQuote :: rs) = Ok (l, pos', rs).
Proof.
  revert pos. induction l as [|c l IH]; intros pos; [by eexists|].
  rewrite bind_cons, <- (assoc_L (++)). unfold escape_simple at 1.
  destruct ((c =? rQuote) || (c =? rBackslash)) eqn:E; cbn [app readString].
  - destruct (IH (S (S pos))) as (pos' & ->). by eexists.
  - apply orb_false_iff in E as [-> ->]. destruct (IH (S pos)) as (pos' & ->). by eexists.
Qed.

Lemma lexes_string s rs kvs :
  printable s = true → lexes rs kvs → lexes (quote_runes s ++ rs) ((tokString, s) :: kvs).
Proof.
  intros Hp. rewrite quote_runes_printable by done. apply printable_chunks in Hp as (Hs & _).
  intros H. apply (lexes_token _ (tokString, s)); [simpl; lia| |done]. intros fuel pos toks.
  cbn [app tokenize]. rewrite <- (assoc_L (++)). simpl (skipWhitespace _ _).
  destruct (readString_escaped (S pos) (runes s) rs) as (pos' & Hr). exists pos'.
  change (rQuote =? 40) with false. change (rQuote =? 41) with false.
  change (rQuote =? 44) with false. change (rQuote =? 33) with false.
  change (rQuote =? 61) with false. change (rQuote =? rQuote) with true. cbn [andb orb app].
  rewrite Hr. cbn. by rewrite <- Hs.
Qed.

(** A spelling that the lexer reads as one word. *)
Definition word_ok (w : list rune) : bool :=
  match w with
  | c :: _ => (IsLetter c || (c =? 95)) && negb (IsSpace c) && forallb is_word_rune w
  | [] => false
  end.

Definition not_word_next (rs : list rune) : bool :=
  match rs with c :: _ => negb (is_word_rune c) | [] => true end.

Lemma readWord_word pos w rs :
  forallb is_word_rune w = true → not_word_next rs = true →
  ∃ pos', readWord pos (w ++ rs) = (w, pos', rs).
Proof.
  intros Hw Hrs. revert pos. induction w as [|c w IH]; intros pos; simpl in *.
  - exists pos. destruct rs as [|c rs]; [done|]. simpl in *.
    by rewrite (proj1 (negb_true_iff _) Hrs).
  - apply andb_true_iff in Hw as [-> Hw]. destruct (IH Hw (S pos)) as (pos' & ->). by exists pos'.
Qed.

(** The single-rune tokens and quotes are not letters. *)
Lemma letter_not_symbol c :
  IsLetter c || (c =? 95) = true →
  (c =? 40) = false ∧ (c =? 41) = false ∧ (c =? 44) = false ∧ (c =? 33) = false ∧ (c =? 61) = false
  ∧ (c =? rQuote) = false ∧ (c =? rApostrophe) = false.
Proof.
  intros H. repeat split; apply N.eqb_neq; intros ->; vm_compute in H; done.
Qed.

Lemma lexes_word w rs kvs :
  word_ok w = true → not_word_next rs = true → lexes rs kvs →
  lexes (w ++ rs) (kv (emitWord (string_of_runes w) 0) :: kvs).
Proof.
  intros Hw Hrs H. destruct w as [|c w]; [done|]. unfold word_ok in Hw.
  apply andb_true_iff in Hw as [[Hc Hsp%negb_true_iff]%andb_true_iff Hall].
  apply lexes_token; [simpl; lia| |done]. intros fuel pos toks. cbn [app tokenize skipWhitespace].
  rewrite Hsp. destruct (letter_not_symbol c Hc) as (-> & -> & -> & -> & -> & -> & ->). cbn [andb orb].
  rewrite Hc. destruct (readWord_word pos (c :: w) rs Hall Hrs) as (pos' & Hr).
  cbn [app] in Hr. rewrite Hr. exists pos'. do 3 f_equal.
  unfold emitWord. by repeat case_bool_decide.
Qed.
End lexer.
