(* ===== verification/Parser.v ===== *)
(** * The filter parser ([cloudevent/cefilter/parser.go])

    Recursive descent over the token list.  The parser's state is the list of
    tokens from [p.pos] on; past the end [peek] yields an [EOF] token, as in the
    code.  The mutually recursive functions are fuelled; [Parse] gives
    [4 * tokens + 4] units, which is always enough ([Parse_total]), because four
    nested calls at most separate two consumed tokens.  The specification is
    the grammar of [Parse]'s documentation, as an inductive relation. *)
From S2P Require Import Prelude GoText Filter Lexer.
From stdpp Require Import options.

Inductive parse_error :=
| ELex (e : lex_error)
| EUnexpectedToken (t : token)
| EExpected (desc : string) (t : token)
| EInvalidLike (pattern : string)
| EExpectedOperator (key : string) (op : token)
| EParseOutOfFuel.

(** [p.peek()]. *)
Definition peek (ts : list token) : token :=
  match ts with t :: _ => t | [] => mkToken tokEOF "" 0 end.

Definition peek_kind (ts : list token) : tokenKind := tok_kind (peek ts).

(** [p.expect(kind, desc)]: the token, and the state after consuming it. *)
Definition expect (kind : tokenKind) (desc : string) (ts : list token)
  : result parse_error (token * list token) :=
  if decide (peek_kind ts = kind) then Ok (peek ts, tail ts) else Err (EExpected desc (peek ts)).

Definition expectString (ts : list token) : result parse_error (string * list token) :=
  '(t, ts') ← expect tokString "string literal" ts; Ok (tok_val t, ts').

Section parser.
Context `{UT : UnicodeTables}.

(** The loop of the [IN] case: literals separated by commas. *)
Fixpoint inValues (ts : list token) (vals : gset string) (reprs : list string)
  : result parse_error (gset string * list string * list token) :=
  match ts with
  | t :: ts1 =>
    if decide (tok_kind t = tokString) then
      let vals' := {[tok_val t]} ∪ vals in
      let reprs' := reprs ++ [Quote (tok_val t)] in
      match ts1 with
      | c :: ts2 =>
          if decide (tok_kind c = tokComma) then inValues ts2 vals' reprs'
          else Ok (vals', reprs', ts1)
      | [] => Ok (vals', reprs', ts1)
      end
    else Err (EExpected "string literal" t)
  | [] => Err (EExpected "string literal" (peek []))
  end.

Definition parseComparison (key : string) (ts : list token)
  : result parse_error (Predicate * list token) :=
  match peek_kind ts with
  | tokEq => '(s, ts') ← expectString (tail ts); Ok (eqPred key s, ts')
  | tokNe => '(s, ts') ← expectString (tail ts); Ok (nePred key s, ts')
  | tokLike =>
      '(pattern, ts') ← expectString (tail ts);
      match globToRegexp pattern with
      | Some rx => Ok (likePred key pattern rx, ts')
      | None => Err (EInvalidLike pattern)
      end
  | tokIn =>
      '(_, ts1) ← expect tokLParen "'('" (tail ts);
      '(vals, reprs, ts2) ← inValues ts1 ∅ [];
      '(_, ts3) ← expect tokRParen "')'" ts2;
      Ok (inPred key vals (strings_Join reprs ", "), ts3)
  | _ => Err (EExpectedOperator key (peek ts))
  end.

Fixpoint parseOr (fuel : nat) (ts : list token) {struct fuel}
  : result parse_error (Predicate * list token) :=
  match fuel with
  | O => Err EParseOutOfFuel
  | S n => '(lhs, ts1) ← parseAnd n ts; orLoop n lhs ts1
  end
with orLoop (fuel : nat) (lhs : Predicate) (ts : list token) {struct fuel}
  : result parse_error (Predicate * list token) :=
  match fuel with
  | O => Err EParseOutOfFuel
  | S n =>
    if decide (peek_kind ts = tokOr) then
      '(rhs, ts1) ← parseAnd n (tail ts); orLoop n (orPred lhs rhs) ts1
    else Ok (lhs, ts)
  end
with parseAnd (fuel : nat) (ts : list token) {struct fuel}
  : result parse_error (Predicate * list token) :=
  match fuel with
  | O => Err EParseOutOfFuel
  | S n => '(lhs, ts1) ← parseNot n ts; andLoop n lhs ts1
  end
with andLoop (fuel : nat) (lhs : Predicate) (ts : list token) {struct fuel}
  : result parse_error (Predicate * list token) :=
  match fuel with
  | O => Err EParseOutOfFuel
  | S n =>
    if decide (peek_kind ts = tokAnd) then
      '(rhs, ts1) ← parseNot n (tail ts); andLoop n (andPred lhs rhs) ts1
    else Ok (lhs, ts)
  end
with parseNot (fuel : nat) (ts : list token) {struct fuel}
  : result parse_error (Predicate * list token) :=
  match fuel with
  | O => Err EParseOutOfFuel
  | S n =>
    if decide (peek_kind ts = tokNot) then
      '(inner, ts1) ← parseNot n (tail ts); Ok (notPred inner, ts1)
    else parsePrimary n ts
  end
with parsePrimary (fuel : nat) (ts : list token) {struct fuel}
  : result parse_error (Predicate * list token) :=
  match fuel with
  | O => Err EParseOutOfFuel
  | S n =>
    match peek_kind ts with
    | tokLParen =>
        '(inner, ts1) ← parseOr n (tail ts);
        '(_, ts2) ← expect tokRParen "')'" ts1;
        Ok (inner, ts2)
    | tokExists =>
        '(ident, ts1) ← expect tokIdent "attribute name" (tail ts);
        Ok (existsPred (tok_val ident), ts1)
    | tokIdent => parseComparison (tok_val (peek ts)) (tail ts)
    | _ => Err (EUnexpectedToken (peek ts))
    end
  end.

(** [Parse]. *)
Definition Parse (expr : string) : result parse_error Predicate :=
  match lex expr with
  | Err e => Err (ELex e)
  | Ok tokens =>
    '(pred, rest) ← parseOr (4 * length tokens + 4) tokens;
    if decide (peek_kind rest = tokEOF) then Ok pred else Err (EUnexpectedToken (peek rest))
  end.

(** ** The grammar of the documentation

<<
    or_expr  = and_expr  { OR  and_expr  }
    and_expr = not_expr  { AND not_expr  }
    not_expr = NOT not_expr | primary
    primary  = "(" expr ")" | EXISTS ident | ident IN "(" string { "," string } ")"
             | ident LIKE string | ident "=" string | ident "!=" string
>>
    with the tree each phrase stands for: the repetitions associate to the left. *)
Inductive gStrings : list token → list string → Prop :=
| gStrings_one s : tok_kind s = tokString → gStrings [s] [tok_val s]
| gStrings_more s c ts vs :
    tok_kind s = tokString → tok_kind c = tokComma → gStrings ts vs →
    gStrings (s :: c :: ts) (tok_val s :: vs).

Inductive gOr : list token → Predicate → Prop :=
| gOr_intro ts1 ts2 p q : gAnd ts1 p → gOrTail p ts2 q → gOr (ts1 ++ ts2) q
with gOrTail : Predicate → list token → Predicate → Prop :=
| gOrTail_nil p : gOrTail p [] p
| gOrTail_cons p t ts1 ts2 q r :
    tok_kind t = tokOr → gAnd ts1 q → gOrTail (orPred p q) ts2 r → gOrTail p (t :: ts1 ++ ts2) r
with gAnd : list token → Predicate → Prop :=
| gAnd_intro ts1 ts2 p q : gNot ts1 p → gAndTail p ts2 q → gAnd (ts1 ++ ts2) q
with gAndTail : Predicate → list token → Predicate → Prop :=
| gAndTail_nil p : gAndTail p [] p
| gAndTail_cons p t ts1 ts2 q r :
    tok_kind t = tokAnd → gNot ts1 q → gAndTail (andPred p q) ts2 r → gAndTail p (t :: ts1 ++ ts2) r
with gNot : list token → Predicate → Prop :=
| gNot_not t ts p : tok_kind t = tokNot → gNot ts p → gNot (t :: ts) (notPred p)
| gNot_primary ts p : gPrimary ts p → gNot ts p
with gPrimary : list token → Predicate → Prop :=
| gPrimary_paren l ts r p :
    tok_kind l = tokLParen → gOr ts p → tok_kind r = tokRParen → gPrimary (l :: ts ++ [r]) p
| gPrimary_exists e i :
    tok_kind e = tokExists → tok_kind i = tokIdent → gPrimary [e; i] (existsPred (tok_val i))
| gPrimary_eq i o s :
    tok_kind i = tokIdent → tok_kind o = tokEq → tok_kind s = tokString →
    gPrimary [i; o; s] (eqPred (tok_val i) (tok_val s))
| gPrimary_ne i o s :
    tok_kind i = tokIdent → tok_kind o = tokNe → tok_kind s = tokString →
    gPrimary [i; o; s] (nePred (tok_val i) (tok_val s))
| gPrimary_like i o s rx :
    tok_kind i = tokIdent → tok_kind o = tokLike → tok_kind s = tokString →
    globToRegexp (tok_val s) = Some rx →
    gPrimary [i; o; s] (likePred (tok_val i) (tok_val s) rx)
| gPrimary_in i o l ts r vs :
    tok_kind i = tokIdent → tok_kind o = tokIn → tok_kind l = tokLParen →
    gStrings ts vs → tok_kind r = tokRParen →
    gPrimary (i :: o :: l :: ts ++ [r])
      (inPred (tok_val i) (list_to_set vs) (strings_Join (Quote <$> vs) ", ")).

Scheme gOr_mind := Induction for gOr Sort Prop
  with gOrTail_mind := Induction for gOrTail Sort Prop
  with gAnd_mind := Induction for gAnd Sort Prop
  with gAndTail_mind := Induction for gAndTail Sort Prop
  with gNot_mind := Induction for gNot Sort Prop
  with gPrimary_mind := Induction for gPrimary Sort Prop.
Combined Scheme grammar_ind from gOr_mind, gOrTail_mind, gAnd_mind, gAndTail_mind, gNot_mind, gPrimary_mind.
#[local] Hint Constructors gStrings gOr gOrTail gAnd gAndTail gNot gPrimary : fluffy.

(** ** Soundness: what is parsed is a phrase of the grammar *)

Lemma peek_cons ts k : peek_kind ts = k → k ≠ tokEOF → ts = peek ts :: tail ts.
Proof. destruct ts; [|done]. unfold peek_kind. simpl. intros <-. done. Qed.

Lemma expect_Ok kind desc ts t ts' :
  kind ≠ tokEOF → expect kind desc ts = Ok (t, ts') → ts = t :: ts' ∧ tok_kind t = kind.
Proof.
  unfold expect. intros Hk. case_decide as H; [|done]. intros [= <- <-].
  split; [by eapply peek_cons|done].
Qed.

Lemma expectString_Ok ts s ts' :
  expectString ts = Ok (s, ts') → ∃ t, ts = t :: ts' ∧ tok_kind t = tokString ∧ tok_val t = s.
Proof.
  unfold expectString. intros H. inv_bind. apply expect_Ok in E as [-> ?]; [|done]. eauto.
Qed.

Lemma inValues_Ok ts vals reprs vals' reprs' ts' :
  inValues ts vals reprs = Ok (vals', reprs', ts') →
  ∃ pre vs, ts = pre ++ ts' ∧ gStrings pre vs ∧
    vals' = list_to_set vs ∪ vals ∧ reprs' = reprs ++ (Quote <$> vs).
Proof.
  revert vals reprs. induction ts as [ts IH] using (induction_ltof1 _ (@length token)).
  unfold ltof in IH. intros vals reprs. destruct ts as [|t ts1]; simpl; [done|].
  case_decide as Ht; [|done]. destruct ts1 as [|c ts2].
  { intros [= <- <- <-]. exists [t], [tok_val t]. split_and!; [done|auto with fluffy|set_solver|done]. }
  case_decide as Hc.
  - intros (pre & vs & -> & Hg & -> & ->)%IH; [|simpl; lia].
    exists (t :: c :: pre), (tok_val t :: vs).
    split_and!; [done|auto with fluffy|set_solver|by rewrite <- (assoc_L (++))].
  - intros [= <- <- <-]. exists [t], [tok_val t].
    split_and!; [done|auto with fluffy|set_solver|done].
Qed.

Lemma parseComparison_sound i key ts p ts' :
  tok_kind i = tokIdent → tok_val i = key → parseComparison key ts = Ok (p, ts') →
  ∃ pre, i :: ts = pre ++ ts' ∧ gPrimary pre p.
Proof.
  intros Hi <-. unfold parseComparison.
  destruct (peek_kind ts) eqn:Hk; try done; intros H; rewrite (peek_cons _ _ Hk) by done; inv_bind.
  - apply expectString_Ok in E as (t & -> & ? & <-). exists [i; peek ts; t]. auto with fluffy.
  - apply expectString_Ok in E as (t & -> & ? & <-). exists [i; peek ts; t]. auto with fluffy.
  - apply expectString_Ok in E as (t & -> & ? & <-).
    destruct (globToRegexp _) eqn:?; simplify_eq. exists [i; peek ts; t]. auto with fluffy.
  - apply expect_Ok in E as [-> ?]; [|done]. apply expect_Ok in E1 as [-> ?]; [|done].
    apply inValues_Ok in E0 as (pre & vs & -> & ? & -> & ->).
    eexists (i :: peek ts :: _ :: pre ++ [_]). split; [simpl; by rewrite <- (assoc_L (++))|].
    rewrite (right_id_L ∅ (∪)). by apply gPrimary_in.
Qed.

Lemma parser_sound fuel :
  (∀ ts p ts', parseOr fuel ts = Ok (p, ts') → ∃ pre, ts = pre ++ ts' ∧ gOr pre p) ∧
  (∀ l ts p ts', orLoop fuel l ts = Ok (p, ts') → ∃ pre, ts = pre ++ ts' ∧ gOrTail l pre p) ∧
  (∀ ts p ts', parseAnd fuel ts = Ok (p, ts') → ∃ pre, ts = pre ++ ts' ∧ gAnd pre p) ∧
  (∀ l ts p ts', andLoop fuel l ts = Ok (p, ts') → ∃ pre, ts = pre ++ ts' ∧ gAndTail l pre p) ∧
  (∀ ts p ts', parseNot fuel ts = Ok (p, ts') → ∃ pre, ts = pre ++ ts' ∧ gNot pre p) ∧
  (∀ ts p ts', parsePrimary fuel ts = Ok (p, ts') → ∃ pre, ts = pre ++ ts' ∧ gPrimary pre p).
Proof.
  induction fuel as [|n (IHor & IHol & IHand & IHal & IHnot & IHprim)]; [done|].
  split_and!; simpl.
  - intros ts p ts' H. inv_bind. apply IHand in E as (a & -> & ?). apply IHol in H as (b & -> & ?).
    exists (a ++ b). rewrite (assoc_L (++)). eauto with fluffy.
  - intros l ts p ts'. case_decide as Hk; [|intros [= <- <-]; exists []; eauto with fluffy].
    destruct ts as [|t ts]; [done|]. cbn [tail]. intros H. inv_bind.
    apply IHand in E as (a & -> & ?). apply IHol in H as (b & -> & ?).
    exists (t :: a ++ b). simpl. rewrite <- (assoc_L (++)). eauto with fluffy.
  - intros ts p ts' H. inv_bind. apply IHnot in E as (a & -> & ?). apply IHal in H as (b & -> & ?).
    exists (a ++ b). rewrite (assoc_L (++)). eauto with fluffy.
  - intros l ts p ts'. case_decide as Hk; [|intros [= <- <-]; exists []; eauto with fluffy].
    destruct ts as [|t ts]; [done|]. cbn [tail]. intros H. inv_bind.
    apply IHnot in E as (a & -> & ?). apply IHal in H as (b & -> & ?).
    exists (t :: a ++ b). simpl. rewrite <- (assoc_L (++)). eauto with fluffy.
  - intros ts p ts'. case_decide as Hk.
    + destruct ts as [|t ts]; [done|]. cbn [tail]. intros H. inv_bind. apply IHnot in E as (a & -> & ?).
      exists (t :: a). eauto with fluffy.
    + intros (a & -> & ?)%IHprim. eauto with fluffy.
  - intros ts p ts'. destruct ts as [|t ts]; [done|].
    unfold peek_kind; cbn [peek tail]. destruct (tok_kind t) eqn:Hk; try done; intros H.
    + by eapply parseComparison_sound.
    + inv_bind. apply expect_Ok in E as [-> ?]; [|done]. eexists [t; _]. eauto with fluffy.
    + inv_bind. apply IHor in E as (a & -> & ?). apply expect_Ok in E0 as [-> ?]; [|done].
      eexists (t :: a ++ [_]). split; [simpl; by rewrite <- (assoc_L (++))|]. eauto with fluffy.
Qed.

(** ** Completeness: every phrase is parsed, to its tree *)

Lemma gOrTail_head l ts p rest :
  gOrTail l ts p → peek_kind rest ≠ tokAnd → peek_kind (ts ++ rest) ≠ tokAnd.
Proof. destruct 1 as [|????? ? Ht]; [done|]. unfold peek_kind. simpl. by rewrite Ht. Qed.

Lemma inValues_complete ts vs vals reprs rest :
  gStrings ts vs → peek_kind rest ≠ tokComma →
  inValues (ts ++ rest) vals reprs = Ok (list_to_set vs ∪ vals, reprs ++ (Quote <$> vs), rest).
Proof.
  intros Hg Hr. revert vals reprs.
  induction Hg as [s Hs|s c ts vs Hs Hc _ IH]; intros vals reprs; cbn [app inValues];
    rewrite decide_True by done.
  - assert (HU : {[tok_val s]} ∪ vals = list_to_set [tok_val s] ∪ vals :> gset string) by set_solver.
    rewrite <- HU. destruct rest; [done|]. by rewrite decide_False by done.
  - rewrite decide_True by done. rewrite IH, fmap_cons, <- (assoc_L (++)).
    do 3 f_equal. set_solver.
Qed.

Lemma expect_complete kind desc t ts : tok_kind t = kind → expect kind desc (t :: ts) = Ok (t, ts).
Proof. intros <-. unfold expect. by rewrite decide_True. Qed.

Lemma expectString_complete t ts : tok_kind t = tokString → expectString (t :: ts) = Ok (tok_val t, ts).
Proof. intros H. unfold expectString. by rewrite expect_complete. Qed.

Lemma parser_complete :
  (∀ ts p, gOr ts p → ∀ rest fuel, peek_kind rest ≠ tokOr → peek_kind rest ≠ tokAnd →
     4 * length ts + 4 ≤ fuel → parseOr fuel (ts ++ rest) = Ok (p, rest)) ∧
  (∀ l ts p, gOrTail l ts p → ∀ rest fuel, peek_kind rest ≠ tokOr → peek_kind rest ≠ tokAnd →
     4 * length ts + 1 ≤ fuel → orLoop fuel l (ts ++ rest) = Ok (p, rest)) ∧
  (∀ ts p, gAnd ts p → ∀ rest fuel, peek_kind rest ≠ tokAnd →
     4 * length ts + 3 ≤ fuel → parseAnd fuel (ts ++ rest) = Ok (p, rest)) ∧
  (∀ l ts p, gAndTail l ts p → ∀ rest fuel, peek_kind rest ≠ tokAnd →
     4 * length ts + 1 ≤ fuel → andLoop fuel l (ts ++ rest) = Ok (p, rest)) ∧
  (∀ ts p, gNot ts p → ∀ rest fuel,
     4 * length ts + 2 ≤ fuel → parseNot fuel (ts ++ rest) = Ok (p, rest)) ∧
  (∀ ts p, gPrimary ts p → ∀ rest fuel,
     4 * length ts + 1 ≤ fuel → parsePrimary fuel (ts ++ rest) = Ok (p, rest) ∧
     peek_kind (ts ++ rest) ≠ tokNot).
Proof.
  apply grammar_ind; intros; (destruct fuel as [|n]; [simpl in *; lia|]);
    rewrite ?length_app in *; cbn [length] in *; rewrite ?length_app in *;
    cbn [app parseOr orLoop parseAnd andLoop parseNot parsePrimary]; rewrite <- ?(assoc_L (++)).
  - rewrite H by (eauto using gOrTail_head; lia). simpl. apply H0; auto; lia.
  - by rewrite decide_False.
  - unfold peek_kind. cbn [peek tail]. rewrite decide_True by done.
    rewrite H by (eauto using gOrTail_head; lia). simpl. apply H0; auto; lia.
  - rewrite H by lia. simpl. apply H0; auto; lia.
  - by rewrite decide_False.
  - unfold peek_kind. cbn [peek tail]. rewrite decide_True by done.
    rewrite H by lia. simpl. apply H0; auto; lia.
  - unfold peek_kind. cbn [peek tail]. rewrite decide_True by done. by rewrite H by lia.
  - destruct (H rest n) as [? ?]; [lia|]. by rewrite decide_False.
  - unfold peek_kind. cbn [peek tail]. rewrite e. split; [|done].
    rewrite H by (unfold peek_kind; simpl; (congruence || lia)).
    simpl. by rewrite expect_complete.
  - unfold peek_kind. cbn [peek tail]. rewrite e0. split; [|done]. simpl. by rewrite expect_complete.
  - unfold peek_kind. cbn [peek tail]. rewrite e. split; [|done].
    unfold parseComparison, peek_kind. cbn [peek tail]. rewrite e0. by rewrite expectString_complete.
  - unfold peek_kind. cbn [peek tail]. rewrite e. split; [|done].
    unfold parseComparison, peek_kind. cbn [peek tail]. rewrite e0. by rewrite expectString_complete.
  - unfold peek_kind. cbn [peek tail]. rewrite e. split; [|done].
    unfold parseComparison, peek_kind. cbn [peek tail]. rewrite e0, expectString_complete by done.
    simpl. by rewrite e2.
  - unfold peek_kind. cbn [peek tail]. rewrite e. split; [|done].
    unfold parseComparison, peek_kind. cbn [peek tail]. rewrite e0, expect_complete by done.
    cbn. rewrite (inValues_complete ts vs) by (unfold peek_kind; simpl; congruence).
    cbn. rewrite expect_complete by done. cbn. by rewrite (right_id_L ∅ (∪)).
Qed.

(** ** Enough fuel *)

(** The errors the parser itself builds (neither the lexer's nor the model's). *)
Definition parser_error (e : parse_error) : Prop :=
  match e with ELex _ | EParseOutOfFuel => False | _ => True end.

Lemma expect_error kind desc ts e : expect kind desc ts = Err e → parser_error e.
Proof. unfold expect. case_decide; [done|]. by intros [= <-]. Qed.

Lemma expectString_error ts e : expectString ts = Err e → parser_error e.
Proof. intros [?%expect_error|([??]&_&?)]%bind_Err; done. Qed.

Lemma inValues_error ts vals reprs e : inValues ts vals reprs = Err e → parser_error e.
Proof.
  revert vals reprs. induction ts as [ts IH] using (induction_ltof1 _ (@length token)).
  unfold ltof in IH. intros vals reprs.
  destruct ts as [|t [|c ts]]; simpl; repeat case_decide; try (by intros [= <-]).
  apply IH. simpl. lia.
Qed.

Lemma parseComparison_error key ts e : parseComparison key ts = Err e → parser_error e.
Proof.
  unfold parseComparison. destruct (peek_kind ts); try (by intros [= <-]).
  - intros [?%expectString_error|([??]&_&?)]%bind_Err; done.
  - intros [?%expectString_error|([??]&_&?)]%bind_Err; done.
  - intros [?%expectString_error|([??]&_&H)]%bind_Err; [done|]. case_match; by simplify_eq.
  - intros [?%expect_error|([??]&_&H)]%bind_Err; [done|].
    apply bind_Err in H as [?%inValues_error|([[??]?]&_&H)]; [done|].
    apply bind_Err in H as [?%expect_error|([??]&_&?)]; done.
Qed.

Lemma parser_total fuel :
  (∀ ts e, 4 * length ts + 4 ≤ fuel → parseOr fuel ts = Err e → parser_error e) ∧
  (∀ l ts e, 4 * length ts + 1 ≤ fuel → orLoop fuel l ts = Err e → parser_error e) ∧
  (∀ ts e, 4 * length ts + 3 ≤ fuel → parseAnd fuel ts = Err e → parser_error e) ∧
  (∀ l ts e, 4 * length ts + 1 ≤ fuel → andLoop fuel l ts = Err e → parser_error e) ∧
  (∀ ts e, 4 * length ts + 2 ≤ fuel → parseNot fuel ts = Err e → parser_error e) ∧
  (∀ ts e, 4 * length ts + 1 ≤ fuel → parsePrimary fuel ts = Err e → parser_error e).
Proof.
  induction fuel as [|n (IHor & IHol & IHand & IHal & IHnot & IHprim)]; [split_and!; intros; lia|].
  destruct (parser_sound n) as (_ & _ & Sand & _ & Snot & _).
  assert (Hand : ∀ ts a ts', parseAnd n ts = Ok (a, ts') → length ts' ≤ length ts).
  { intros ts a ts' (pre & -> & _)%Sand. rewrite length_app. lia. }
  assert (Hnot : ∀ ts a ts', parseNot n ts = Ok (a, ts') → length ts' ≤ length ts).
  { intros ts a ts' (pre & -> & _)%Snot. rewrite length_app. lia. }
  split_and!; simpl.
  - intros ts e Hf [H|([a ts']&Ha%Hand&H)]%bind_Err; revert H; [apply IHand|apply IHol]; lia.
  - intros l ts e Hf. case_decide as Hk; [|done]. destruct ts as [|t ts]; [done|]. simpl in *.
    intros [H|([a ts']&Ha%Hand&H)]%bind_Err; revert H; [apply IHand|apply IHol]; lia.
  - intros ts e Hf [H|([a ts']&Ha%Hnot&H)]%bind_Err; revert H; [apply IHnot|apply IHal]; lia.
  - intros l ts e Hf. case_decide as Hk; [|done]. destruct ts as [|t ts]; [done|]. simpl in *.
    intros [H|([a ts']&Ha%Hnot&H)]%bind_Err; revert H; [apply IHnot|apply IHal]; lia.
  - intros ts e Hf. case_decide as Hk; [|apply IHprim; lia]. destruct ts as [|t ts]; [done|]. simpl in *.
    intros [H|([a ts']&_&H)]%bind_Err; [|done]. revert H. apply IHnot. lia.
  - intros ts e Hf. destruct ts as [|t ts]; [by intros [= <-]|].
    unfold peek_kind. cbn [peek tail length] in *. destruct (tok_kind t); try (by intros [= <-]).
    + apply parseComparison_error.
    + intros [?%expect_error|([a ts']&_&?)]%bind_Err; done.
    + intros [H|([a ts']&_&H)]%bind_Err; [revert H; apply IHor; lia|].
      apply bind_Err in H as [?%expect_error|([??]&_&?)]; done.
Qed.

(** The grammar has no place for an [EOF] token. *)
Lemma gStrings_not_eof ts vs : gStrings ts vs → Forall (fun t => ¬ is_eof t) ts.
Proof. unfold is_eof. induction 1; repeat constructor; try congruence. Qed.

Lemma grammar_not_eof :
  (∀ ts p, gOr ts p → Forall (fun t => ¬ is_eof t) ts) ∧
  (∀ l ts p, gOrTail l ts p → Forall (fun t => ¬ is_eof t) ts) ∧
  (∀ ts p, gAnd ts p → Forall (fun t => ¬ is_eof t) ts) ∧
  (∀ l ts p, gAndTail l ts p → Forall (fun t => ¬ is_eof t) ts) ∧
  (∀ ts p, gNot ts p → Forall (fun t => ¬ is_eof t) ts) ∧
  (∀ ts p, gPrimary ts p → Forall (fun t => ¬ is_eof t) ts).
Proof.
  apply grammar_ind; intros; rewrite ?Forall_app, ?Forall_cons; unfold is_eof in *;
    eauto; split_and!; try congruence; rewrite ?Forall_app, ?Forall_cons; split_and?;
    try congruence; eauto using Forall_nil, gStrings_not_eof; try by apply gStrings_not_eof in g.
Qed.

Lemma grammar_wf :
  (∀ ts p, gOr ts p → wf_pred p) ∧
  (∀ l ts p, gOrTail l ts p → wf_pred l → wf_pred p) ∧
  (∀ ts p, gAnd ts p → wf_pred p) ∧
  (∀ l ts p, gAndTail l ts p → wf_pred l → wf_pred p) ∧
  (∀ ts p, gNot ts p → wf_pred p) ∧
  (∀ ts p, gPrimary ts p → wf_pred p).
Proof.
  apply grammar_ind; simpl; intros; eauto.
  exists vs. split; [|done]. by destruct g.
Qed.

Lemma body_prefix {A} (P : A → Prop) (body pre rest : list A) e :
  body ++ [e] = pre ++ rest → Forall P pre → ¬ P e → Forall P body →
  (∀ t, head rest = Some t → ¬ P t) → pre = body.
Proof.
  revert pre. induction body as [|b body IH]; intros pre; destruct pre as [|a pre]; simpl.
  - done.
  - intros [= -> ?]. by inversion 1.
  - intros <- _ _ Hb Hr. inversion Hb; subst. by destruct (Hr b).
  - intros [= -> H] Hp He Hb Hr. inversion Hp; inversion Hb; subst. f_equal. eauto.
Qed.

(** ** Properties of [Parse] *)

Lemma Parse_sound expr p :
  Parse expr = Ok p → ∃ body e, lex expr = Ok (body ++ [e]) ∧ is_eof e ∧ gOr body p.
Proof.
  unfold Parse. destruct (lex expr) as [ts|] eqn:Hlex; [|done]. intros H. inv_bind.
  case_decide as Hk; simplify_eq. apply parser_sound in E as (pre & -> & Hg).
  pose proof Hlex as (body & e & Hts & Hb & He & _)%lex_shape.
  exists body, e. split; [by rewrite <- Hts|]. split; [done|].
  enough (pre = body) as -> by done. pose proof (proj1 grammar_not_eof _ _ Hg) as Hpre.
  eapply (body_prefix (fun t => ¬ is_eof t)); eauto.
  intros t Ht Hn. destruct l; simplify_eq/=. by apply Hn.
Qed.

Lemma Parse_complete expr body e p :
  lex expr = Ok (body ++ [e]) → is_eof e → gOr body p → Parse expr = Ok p.
Proof.
  intros Hl He Hg. unfold Parse. rewrite Hl.
  rewrite (proj1 parser_complete _ _ Hg [e]);
    [simpl; by rewrite decide_True| | |rewrite length_app; lia]; unfold peek_kind; simpl; by rewrite He.
Qed.

(** C39: [Parse] accepts an expression exactly when its tokens (before the
    end-of-input token) are a phrase of the documented grammar, and the
    predicate it returns is that phrase's tree: [NOT] binds tighter than [AND],
    [AND] tighter than [OR], both associate to the left, and parentheses group. *)
Theorem Parse_grammar expr p :
  Parse expr = Ok p ↔ ∃ body e, lex expr = Ok (body ++ [e]) ∧ is_eof e ∧ gOr body p.
Proof. split; [apply Parse_sound|]. intros (body & e & ? & ? & ?). by eapply Parse_complete. Qed.

(** [Parse] always returns: on every input the lexer's and the parser's
    loops finish within the fuel the model gives them, so that a rejected
    expression is rejected with one of the lexer's or the parser's own errors. *)
Theorem Parse_total expr :
  match Parse expr with
  | Ok _ => True
  | Err (ELex e) => lex expr = Err e ∧ e ≠ LexOutOfFuel
  | Err e => parser_error e
  end.
Proof.
  assert (Hl : lex expr ≠ Err LexOutOfFuel) by (apply tokenize_total; lia).
  unfold Parse. destruct (lex expr) as [ts|e]; [|split; congruence].
  destruct (_ ≫= _) as [|e] eqn:H; [done|].
  enough (parser_error e) by (by destruct e).
  apply bind_Err in H as [H|([q rest]&_&H)].
  - eapply (proj1 (parser_total _)); [|exact H]. lia.
  - case_decide; by simplify_eq.
Qed.

(** the documented grammar is unambiguous: a token sequence has at most one tree. *)
Theorem grammar_unambiguous ts p q : gOr ts p → gOr ts q → p = q.
Proof.
  intros Hp Hq.
  pose proof (proj1 parser_complete _ _ Hp [] (4 * length ts + 4)) as H1.
  pose proof (proj1 parser_complete _ _ Hq [] (4 * length ts + 4)) as H2.
  rewrite H1 in H2 by done. specialize (H2 ltac:(done) ltac:(done) ltac:(lia)). congruence.
Qed.

(** every predicate [Parse] returns is well formed: its [LIKE] leaves carry
    the compiled form of their patterns and its [IN] leaves a non-empty literal
    set with its printed form; so evaluating it follows the documented meaning. *)
Theorem Parse_wf expr p : Parse expr = Ok p → wf_pred p.
Proof. intros (body & e & _ & _ & Hg)%Parse_sound. by apply grammar_wf in Hg. Qed.

End parser.

(** Example expressions, evaluated. *)
Section examples.
#[local] Instance ex_tables : UnicodeTables := latin1_tables.

(** [NOT] binds tighter than [AND], [AND] tighter than [OR]; keywords in any case. *)
Example Parse_precedence :
  Parse "EXISTS a or NOT EXISTS b and c = 'x'"
  = Ok (orPred (existsPred "a") (andPred (notPred (existsPred "b")) (eqPred "c" "x"))).
Proof. vm_compute. reflexivity. Qed.

Example Parse_error_position :
  Parse "type = 'a' AND" = Err (EUnexpectedToken (mkToken tokEOF "" 14)).
Proof. vm_compute. reflexivity. Qed.

(** The position of an unterminated literal is where the input ends, not where
    the literal starts. *)
Example unterminated_reports_end : lex "type = 'abc" = Err (UnterminatedString 11).
Proof. vm_compute. reflexivity. Qed.

Lemma grammar_unambiguous_witness :
  ∃ ts p, gOr ts p ∧ ∀ q, gOr ts q → p = q.
Proof.
  set (e := mkToken tokExists "EXISTS" 0). set (i := mkToken tokIdent "a" 7).
  exists [e; i], (existsPred "a").
  assert (H : gOr [e; i] (existsPred "a")).
  { apply (gOr_intro [e; i] [] (existsPred "a")); [|constructor].
    apply (gAnd_intro [e; i] [] (existsPred "a")); [|constructor].
    apply gNot_primary, (gPrimary_exists e i); reflexivity. }
  split; [exact H|]. intros q Hq. exact (grammar_unambiguous _ _ _ H Hq).
Defined.

Lemma Parse_wf_witness : wf_pred (inPred "orgid" {[ "o1"; "o2" ]}
  (strings_Join [Quote "o1"; Quote "o2"] ", ")).
Proof. apply (Parse_wf "orgid IN ('o1', 'o2')"). vm_compute. reflexivity. Defined.
End examples.
