(* ===== verification/PrintParse.v ===== *)
(** * Printing and parsing back ([filter.go] [String], [parser.go] [Parse])

    [Predicate.String] prints an expression that [Parse] reads back to the same
    predicate, when its attribute names are identifiers and its literals are
    printable. *)
From S2P Require Import Prelude GoText Filter Lexer Parser.
From stdpp Require Import options.

Section printing.
Context `{UT : UnicodeTables}.

(** An attribute name the lexer reads as one identifier token. *)
Definition ident_ok (k : string) : bool :=
  bool_decide (string_of_runes (runes k) = k) && forallb ValidRune (runes k) &&
  word_ok (runes k) && bool_decide (tok_kind (emitWord k 0) = tokIdent).

(** Predicates as [Parse] builds them, over identifiers and printable literals. *)
Fixpoint print_ok (p : Predicate) : Prop :=
  match p with
  | eqPred k v | nePred k v => ident_ok k = true ∧ printable v = true
  | likePred k pat rx => ident_ok k = true ∧ printable pat = true ∧ globToRegexp pat = Some rx
  | inPred k vals repr =>
      ident_ok k = true ∧ ∃ vs, vs ≠ [] ∧ Forall (fun v => printable v = true) vs ∧
        vals = list_to_set vs ∧ repr = strings_Join (Quote <$> vs) ", "
  | existsPred k => ident_ok k = true
  | andPred l r | orPred l r => print_ok l ∧ print_ok r
  | notPred q => print_ok q
  end.

(** [spells strict s rs kvs]: the string [s] is the runes [rs], and the lexer
    reads them as the tokens [kvs] whatever follows — when [strict], unless a
    word character follows. *)
Definition spells (strict : bool) (s : string) (rs : list rune) (kvs : list (tokenKind * string)) : Prop :=
  s = string_of_runes rs ∧ Forall (fun r => ValidRune r = true) rs ∧
  ∀ rest kr, (strict = true → not_word_next rest = true) → lexes rest kr → lexes (rs ++ rest) (kvs ++ kr).

Definition breaks_word (rs : list rune) : bool :=
  match rs with c :: _ => negb (is_word_rune c) | [] => false end.

Lemma spells_app b1 b2 s1 rs1 k1 s2 rs2 k2 :
  spells b1 s1 rs1 k1 → spells b2 s2 rs2 k2 → negb b1 || breaks_word rs2 = true →
  spells b2 (s1 +:+ s2) (rs1 ++ rs2) (k1 ++ k2).
Proof.
  intros (-> & Hv1 & H1) (-> & Hv2 & H2) Hb. split; [by rewrite string_of_runes_app|].
  split; [by apply Forall_app|]. intros rest kr Hr Hl.
  rewrite <- !(assoc_L (++)). apply H1; [|by apply H2].
  intros ->. destruct rs2; [done|exact Hb].
Qed.

(** Words of the grammar between spaces or after a parenthesis. *)
Lemma spells_ident k : ident_ok k = true → spells true k (runes k) [(tokIdent, k)].
Proof.
  unfold ident_ok. intros [[[Hk Hv]%andb_true_iff Hw]%andb_true_iff Ht]%andb_true_iff.
  apply bool_decide_eq_true in Hk, Ht. split; [done|]. split; [by apply forallb_Forall|].
  intros rest kr Hn Hl. pose proof (lexes_word _ _ _ Hw (Hn eq_refl) Hl) as H. rewrite Hk in H.
  enough (kv (emitWord k 0) = (tokIdent, k)) as E by (by rewrite E in H).
  revert Ht. unfold emitWord, kv. by repeat case_bool_decide.
Qed.

Lemma spells_quote v : printable v = true → spells false (Quote v) (quote_runes v) [(tokString, v)].
Proof.
  intros Hp. split; [done|]. split; [by apply quote_runes_valid|]. intros rest kr _. by apply lexes_string.
Qed.

(** The fixed texts of [String]. *)
Lemma spells_lparen : spells false "(" [40%N] [(tokLParen, "(")].
Proof. split; [done|]. split; [by repeat constructor|]. intros rest kr _. apply lexes_lparen. Qed.
Lemma spells_rparen : spells false ")" [41%N] [(tokRParen, ")")].
Proof. split; [done|]. split; [by repeat constructor|]. intros rest kr _. apply lexes_rparen. Qed.
Lemma spells_comma : spells false ", " [44%N; 32%N] [(tokComma, ",")].
Proof.
  split; [done|]. split; [by repeat constructor|]. intros rest kr _ H. by apply lexes_comma, lexes_space.
Qed.
Lemma spells_eq : spells false " = " [32%N; 61%N; 32%N] [(tokEq, "=")].
Proof.
  split; [done|]. split; [by repeat constructor|]. intros rest kr _ H. by apply lexes_space, lexes_eq, lexes_space.
Qed.
Lemma spells_ne : spells false " != " [32%N; 33%N; 61%N; 32%N] [(tokNe, "!=")].
Proof.
  split; [done|]. split; [by repeat constructor|]. intros rest kr _ H. by apply lexes_space, lexes_ne, lexes_space.
Qed.

(** A keyword followed by a space, with or without one in front. *)
Lemma lexes_keyword (w : list rune) t rest kr :
  word_ok w = true → kv (emitWord (string_of_runes w) 0) = t →
  lexes rest kr → lexes (w ++ 32%N :: rest) (t :: kr).
Proof. intros Hw <- H. apply lexes_word; [done|done|]. by apply lexes_space. Qed.

Lemma spells_like : spells false " LIKE " [32%N; 76%N; 73%N; 75%N; 69%N; 32%N] [(tokLike, "LIKE")].
Proof.
  split; [done|]. split; [by repeat constructor|]. intros rest kr _ H. apply lexes_space.
  by apply (lexes_keyword [76%N; 73%N; 75%N; 69%N]).
Qed.
Lemma spells_in : spells false " IN (" [32%N; 73%N; 78%N; 32%N; 40%N] [(tokIn, "IN"); (tokLParen, "(")].
Proof.
  split; [done|]. split; [by repeat constructor|]. intros rest kr _ H. apply lexes_space.
  apply (lexes_keyword [73%N; 78%N]); [done|done|]. by apply lexes_lparen.
Qed.
Lemma spells_exists : spells false "EXISTS " [69%N; 88%N; 73%N; 83%N; 84%N; 83%N; 32%N] [(tokExists, "EXISTS")].
Proof.
  split; [done|]. split; [by repeat constructor|]. intros rest kr _ H.
  by apply (lexes_keyword [69%N; 88%N; 73%N; 83%N; 84%N; 83%N]).
Qed.
Lemma spells_not : spells false "NOT " [78%N; 79%N; 84%N; 32%N] [(tokNot, "NOT")].
Proof.
  split; [done|]. split; [by repeat constructor|]. intros rest kr _ H.
  by apply (lexes_keyword [78%N; 79%N; 84%N]).
Qed.
Lemma spells_and : spells false " AND " [32%N; 65%N; 78%N; 68%N; 32%N] [(tokAnd, "AND")].
Proof.
  split; [done|]. split; [by repeat constructor|]. intros rest kr _ H. apply lexes_space.
  by apply (lexes_keyword [65%N; 78%N; 68%N]).
Qed.
Lemma spells_or : spells false " OR " [32%N; 79%N; 82%N; 32%N] [(tokOr, "OR")].
Proof.
  split; [done|]. split; [by repeat constructor|]. intros rest kr _ H. apply lexes_space.
  by apply (lexes_keyword [79%N; 82%N]).
Qed.

(** Read off the tokens of a known token sequence. *)
Local Ltac inv_kv :=
  repeat match goal with
  | H : kv <$> ?ts = _ :: _ |- _ =>
      let t := fresh "t" in let E := fresh "E" in
      apply fmap_cons_inv in H as (t & ? & E & H & ->); symmetry in H; injection E as ??; subst
  | H : kv <$> ?ts = [] |- _ => apply fmap_nil_inv in H; subst
  | H : kv <$> ?ts = (_ ++ _) |- _ =>
      let E := fresh "E" in
      apply fmap_app_inv in H as (? & ? & E & H & ->); symmetry in H; symmetry in E
  end.

(** The literals of an [IN] list. *)
Lemma spells_join vs :
  vs ≠ [] → Forall (fun v => printable v = true) vs →
  ∃ rs kvs, spells false (strings_Join (Quote <$> vs) ", ") rs kvs ∧ breaks_word rs = true ∧
    ∀ ts, kv <$> ts = kvs → gStrings ts vs.
Proof.
  intros Hne Hp. induction Hp as [|v vs Hv _ IH]; [done|]. destruct vs as [|v' vs].
  - exists (quote_runes v), [(tokString, v)]. split; [by apply spells_quote|]. split; [done|].
    intros ts H. inv_kv. by constructor.
  - destruct IH as (rs & kvs & Hs & Hb & Hg); [done|].
    exists (quote_runes v ++ [44%N; 32%N] ++ rs), ([(tokString, v)] ++ [(tokComma, ",")] ++ kvs).
    split; [|split]; [|done|].
    + apply (spells_app false false); [by apply spells_quote| |done].
      by apply (spells_app false false); [apply spells_comma|..].
    + intros ts H. simpl in H. inv_kv. constructor; auto.
Qed.

(** A parenthesised binary expression. *)
Lemma spells_group b1 s1 rs1 k1 b2 s2 rs2 k2 op rsop kop :
  spells b1 s1 rs1 k1 → spells b2 s2 rs2 k2 → spells false op rsop [kop] → breaks_word rsop = true →
  spells false ("(" +:+ s1 +:+ op +:+ s2 +:+ ")") ([40%N] ++ rs1 ++ rsop ++ rs2 ++ [41%N])
    ((tokLParen, "(") :: k1 ++ kop :: k2 ++ [(tokRParen, ")")]).
Proof.
  intros S1 S2 Sop Hb.
  assert (S3 : spells false (s2 +:+ ")") (rs2 ++ [41%N]) (k2 ++ [(tokRParen, ")")])).
  { eapply spells_app; [exact S2|apply spells_rparen|apply orb_true_r]. }
  assert (S4 := spells_app _ _ _ _ _ _ _ _ Sop S3 eq_refl).
  assert (S5 := spells_app _ _ _ _ _ _ _ _ S1 S4).
  refine (spells_app _ _ _ _ _ _ _ _ spells_lparen (S5 _) eq_refl).
  destruct rsop as [|c rsop]; [done|]. simpl in *. rewrite Hb. apply orb_true_r.
Qed.

Lemma gPrimary_paren_and l r o t1 t2 p q :
  tok_kind l = tokLParen → tok_kind r = tokRParen → tok_kind o = tokAnd → gNot t1 p → gNot t2 q →
  gPrimary (l :: t1 ++ o :: t2 ++ [r]) (andPred p q).
Proof.
  intros Hl Hr Ho Hp Hq.
  assert (Ht : gAndTail p (o :: t2 ++ []) (andPred p q)) by (econstructor; [done|done|constructor]).
  replace (t1 ++ o :: t2 ++ [r]) with ((t1 ++ o :: t2) ++ [r]) by (by rewrite <- (assoc_L (++))).
  apply gPrimary_paren; [done| |done].
  rewrite <- (app_nil_r (t1 ++ _)). rewrite app_nil_r in Ht.
  econstructor; [|constructor]. by econstructor.
Qed.

Lemma gPrimary_paren_or l r o t1 t2 p q :
  tok_kind l = tokLParen → tok_kind r = tokRParen → tok_kind o = tokOr → gNot t1 p → gNot t2 q →
  gPrimary (l :: t1 ++ o :: t2 ++ [r]) (orPred p q).
Proof.
  intros Hl Hr Ho Hp Hq.
  assert (Hand : ∀ t x, gNot t x → gAnd t x).
  { intros t x Hx. rewrite <- (app_nil_r t). econstructor; [done|constructor]. }
  assert (Ht : gOrTail p (o :: t2 ++ []) (orPred p q)) by (econstructor; [done|by apply Hand|constructor]).
  replace (t1 ++ o :: t2 ++ [r]) with ((t1 ++ o :: t2) ++ [r]) by (by rewrite <- (assoc_L (++))).
  apply gPrimary_paren; [done| |done].
  rewrite app_nil_r in Ht. econstructor; eauto.
Qed.

(** A printed predicate is read back as the tokens of a [not_expr] whose tree it is. *)
Lemma spells_pred p :
  print_ok p →
  ∃ b rs kvs, spells b (Predicate_String p) rs kvs ∧ ∀ ts, kv <$> ts = kvs → gNot ts p.
Proof.
  induction p as [k v|k v|k pat rx|k vals repr|k|l IHl r IHr|l IHl r IHr|q IH]; simpl.
  - intros [Hk Hv]. eexists _, _, _. split.
    + eapply spells_app; [by apply spells_ident|by eapply spells_app; [apply spells_eq|apply spells_quote|]|done].
    + intros ts H. simpl in H. inv_kv. by apply gNot_primary, gPrimary_eq.
  - intros [Hk Hv]. eexists _, _, _. split.
    + eapply spells_app; [by apply spells_ident|by eapply spells_app; [apply spells_ne|apply spells_quote|]|done].
    + intros ts H. simpl in H. inv_kv. by apply gNot_primary, gPrimary_ne.
  - intros (Hk & Hv & Hrx). eexists _, _, _. split.
    + eapply spells_app; [by apply spells_ident|by eapply spells_app; [apply spells_like|apply spells_quote|]|done].
    + intros ts H. simpl in H. inv_kv. by apply gNot_primary, gPrimary_like.
  - intros (Hk & vs & Hne & Hp & -> & ->).
    destruct (spells_join vs Hne Hp) as (rs & kvs & Hs & _ & Hg). eexists _, _, _. split.
    + eapply spells_app; [by apply spells_ident| |].
      { eapply spells_app; [apply spells_in| |].
        { eapply spells_app; [exact Hs|apply spells_rparen|done]. } done. } done.
    + intros ts H. simpl in H. inv_kv. apply gNot_primary, gPrimary_in; auto.
  - intros Hk. eexists _, _, _. split.
    + by eapply spells_app; [apply spells_exists|apply spells_ident|].
    + intros ts H. simpl in H. inv_kv. by apply gNot_primary, gPrimary_exists.
  - intros [(b1 & rs1 & k1 & S1 & G1)%IHl (b2 & rs2 & k2 & S2 & G2)%IHr]. eexists _, _, _. split.
    + apply (spells_group _ _ _ _ _ _ _ _ _ _ _ S1 S2 spells_and). done.
    + intros ts H. simpl in H. inv_kv. apply gNot_primary, gPrimary_paren_and; auto.
  - intros [(b1 & rs1 & k1 & S1 & G1)%IHl (b2 & rs2 & k2 & S2 & G2)%IHr]. eexists _, _, _. split.
    + apply (spells_group _ _ _ _ _ _ _ _ _ _ _ S1 S2 spells_or). done.
    + intros ts H. simpl in H. inv_kv. apply gNot_primary, gPrimary_paren_or; auto.
  - intros (b & rs & kvs & S & G)%IH. eexists _, _, _. split.
    + by eapply spells_app; [apply spells_not|exact S|].
    + intros ts H. simpl in H. inv_kv. apply gNot_not; auto.
Qed.

(** printing then parsing is the identity: for a predicate over identifier
    attribute names and printable literals, [Parse] applied to [String()]
    returns the same predicate (same tree, same compiled globs, same [IN] set). *)
Theorem Parse_String p : print_ok p → Parse (Predicate_String p) = Ok p.
Proof.
  intros (b & rs & kvs & (-> & Hv & Hl) & Hg)%spells_pred.
  destruct (lexes_lex rs kvs Hv) as (ts & Hlex & Hk).
  { rewrite <- (app_nil_r rs), <- (app_nil_r kvs). apply Hl; [done|apply lexes_nil]. }
  apply fmap_app_inv in Hk as (body & e & -> & (e' & ? & [= Hek _] & H%symmetry%fmap_nil_inv & ->)%symmetry%fmap_cons_inv & ->).
  subst. apply (Parse_complete _ body e'); [done|done|].
  rewrite <- (app_nil_r body). econstructor; [|constructor].
  rewrite <- (app_nil_r body). econstructor; [|constructor]. by apply Hg.
Qed.
End printing.

Section example.
#[local] Instance rt_tables : UnicodeTables := latin1_tables.

Lemma Parse_String_witness :
  Parse (Predicate_String (andPred (orPred (eqPred "type" "com.example.order") (nePred "org-id" "a'b"))
                                   (notPred (existsPred "debug"))))
  = Ok (andPred (orPred (eqPred "type" "com.example.order") (nePred "org-id" "a'b"))
                (notPred (existsPred "debug"))).
Proof. apply Parse_String. simpl. vm_compute. repeat split; reflexivity. Defined.
End example.
