(* ===== verification/FilterSet.v ===== *)
(** * Filter sets ([cloudevent/contracts/cefilter.go], [cloudevent/cefilter/accessor.go])

    The flat attribute view of an event ([FromCloudEvent]), the linear
    [FilterSet], and the contract [IFilterSet] that it shares with the indexed
    set of [Index.v], as a class of operations with their laws. *)
From S2P Require Import Prelude GoText Filter Lexer Parser.
From stdpp Require Import options.

(** ** Events *)

(** [CloudEventAccessor]: the standard attributes and the extensions, whose
    values are of any type. *)
Record CloudEventAccessor (V : Type) := mkEvent {
  ev_Type : string; ev_Source : string; ev_Subject : string; ev_ID : string;
  ev_Extensions : gmap string V }.
Arguments mkEvent {V}. Arguments ev_Type {V}. Arguments ev_Source {V}. Arguments ev_Subject {V}.
Arguments ev_ID {V}. Arguments ev_Extensions {V}.

Section event.
(** [fmt.Sprintf("%v", v)] on the extension values in use. *)
Context {V : Type} (fmt_v : V → string).

Definition FromCloudEvent (e : CloudEventAccessor V) : Attrs :=
  let a := <["type" := ev_Type e]> (<["source" := ev_Source e]> (<["id" := ev_ID e]> ∅)) in
  let a := if decide (ev_Subject e = "") then a else <["subject" := ev_Subject e]> a in
  map_fold (fun k v a => <[k := fmt_v v]> a) a (ev_Extensions e).

(** [FromSDKEvent] (sdk.go): a [cloudevents.Event] is a [CloudEventAccessor]. *)
Definition FromSDKEvent (e : CloudEventAccessor V) : Attrs := FromCloudEvent e.

Lemma extensions_fold (a : Attrs) (x : gmap string V) k :
  map_fold (fun k v a => <[k := fmt_v v]> a) a x !! k
  = match x !! k with Some v => Some (fmt_v v) | None => a !! k end.
Proof.
  apply (map_fold_weak_ind (fun (r : Attrs) (m : gmap string V) =>
    r !! k = match m !! k with Some v => Some (fmt_v v) | None => a !! k end)); [by simplify_map_eq|].
  intros i v m r Hi IH. destruct (decide (i = k)) as [->|]; by simplify_map_eq.
Qed.
End event.

(** the flat view of an event: an extension's value overrides a standard
    attribute of the same name, [type], [source] and [id] are always present
    and [subject] only when it is not empty; nothing else is in the map, so
    EXISTS and the comparisons of a filter see exactly these attributes. *)
Theorem FromCloudEvent_lookup {V} (fmt_v : V → string) (e : CloudEventAccessor V) k :
  FromCloudEvent fmt_v e !! k =
  match ev_Extensions e !! k with
  | Some v => Some (fmt_v v)
  | None =>
    if decide (k = "type") then Some (ev_Type e)
    else if decide (k = "source") then Some (ev_Source e)
    else if decide (k = "id") then Some (ev_ID e)
    else if decide (k = "subject" ∧ ev_Subject e ≠ "") then Some (ev_Subject e)
    else None
  end.
Proof.
  unfold FromCloudEvent. rewrite extensions_fold. destruct (ev_Extensions e !! k); [done|].
  repeat case_decide; subst; simplify_map_eq; try done; try naive_solver;
    rewrite ?lookup_insert_ne by naive_solver; done.
Qed.

(** ** Entries and filters *)
Record FilterEntry := mkEntry { Name : string; Hint : string; Metadata : gmap string string }.

#[global] Instance FilterEntry_eq_dec : EqDecision FilterEntry.
Proof. solve_decision. Defined.

Record namedFilter := mkFilter { nf_entry : FilterEntry; nf_pred : Predicate }.

(** The [MaxMatches] limit on [n] collected items: [0] or less is no limit. *)
Definition limit_hit (max : Z) (n : nat) : bool := (0 <? max)%Z && (max <=? Z.of_nat n)%Z.

(** The first [max] elements, or all of them without a limit. *)
Definition cap {A} (max : Z) (l : list A) : list A := if (0 <? max)%Z then take (Z.to_nat max) l else l.

(** The arguments of the [OnLimitExceeded] calls made while collecting [n] items
    of a possible [total]: one call, when the limit stops the collection. *)
Definition limit_calls (max : Z) (cb : bool) (total : nat) : list nat :=
  if cb && limit_hit max total then [Z.to_nat max] else [].

Record FilterSet := mkFilterSet {
  MaxMatches : Z;
  OnLimitExceeded : bool;           (* a callback is set *)
  filters : list namedFilter }.

Definition with_filters (fs : FilterSet) (l : list namedFilter) : FilterSet :=
  mkFilterSet (MaxMatches fs) (OnLimitExceeded fs) l.

Section filterset.
Context `{UT : UnicodeTables}.

(** [Add]: the error carries the filter's name; an invalid expression changes nothing. *)
Definition FilterSet_Add (fs : FilterSet) (entry : FilterEntry) (expr : string)
  : FilterSet * result (string * parse_error) unit :=
  match Parse expr with
  | Err e => (fs, Err (Name entry, e))
  | Ok pred => (with_filters fs (filters fs ++ [mkFilter entry pred]), Ok ())
  end.

(** The loop of [Match]: collected entries, and the callback's arguments. *)
Fixpoint match_loop (max : Z) (cb : bool) (a : Attrs) (l : list namedFilter) (matched : list FilterEntry)
  : list FilterEntry * list nat :=
  match l with
  | [] => (matched, [])
  | f :: l' =>
    if Predicate_Match (nf_pred f) a then
      let matched' := matched ++ [nf_entry f] in
      if limit_hit max (length matched') then (matched', if cb then [length matched'] else [])
      else match_loop max cb a l' matched'
    else match_loop max cb a l' matched
  end.

Definition FilterSet_Match (fs : FilterSet) (a : Attrs) : list FilterEntry * list nat :=
  match_loop (MaxMatches fs) (OnLimitExceeded fs) a (filters fs) [].

Fixpoint any_loop (a : Attrs) (l : list namedFilter) : bool :=
  match l with
  | [] => false
  | f :: l' => if Predicate_Match (nf_pred f) a then true else any_loop a l'
  end.

Definition FilterSet_MatchAny (fs : FilterSet) (a : Attrs) : bool := any_loop a (filters fs).

(** The loop of [MatchEndpoints]. *)
Fixpoint endpoints_loop (max : Z) (cb : bool) (a : Attrs) (l : list namedFilter)
    (seen : gset string) (endpoints : list string) : list string * list nat :=
  match l with
  | [] => (endpoints, [])
  | f :: l' =>
    if Predicate_Match (nf_pred f) a then
      let hint := Hint (nf_entry f) in
      if decide (hint = "") then endpoints_loop max cb a l' seen endpoints
      else if decide (hint ∈ seen) then endpoints_loop max cb a l' seen endpoints
      else
        let endpoints' := endpoints ++ [hint] in
        if limit_hit max (length endpoints') then (endpoints', if cb then [length endpoints'] else [])
        else endpoints_loop max cb a l' ({[hint]} ∪ seen) endpoints'
    else endpoints_loop max cb a l' seen endpoints
  end.

Definition FilterSet_MatchEndpoints (fs : FilterSet) (a : Attrs) : list string * list nat :=
  endpoints_loop (MaxMatches fs) (OnLimitExceeded fs) a (filters fs) ∅ [].

Fixpoint remove_loop (name : string) (l kept : list namedFilter) : list namedFilter :=
  match l with
  | [] => kept
  | f :: l' => if decide (Name (nf_entry f) = name) then remove_loop name l' kept
               else remove_loop name l' (kept ++ [f])
  end.

Definition FilterSet_Remove (fs : FilterSet) (name : string) : FilterSet :=
  with_filters fs (remove_loop name (filters fs) []).
End filterset.

(** ** What the loops compute *)

(** Distinct elements, first occurrences kept. *)
Fixpoint dedup (seen : gset string) (l : list string) : list string :=
  match l with
  | [] => []
  | x :: l' => if decide (x ∈ seen) then dedup seen l' else x :: dedup ({[x]} ∪ seen) l'
  end.

Definition matching (a : Attrs) (l : list namedFilter) : list FilterEntry :=
  nf_entry <$> filter (fun f => Predicate_Match (nf_pred f) a = true) l.

Definition hints (l : list FilterEntry) : list string := filter (fun h => h ≠ "") (Hint <$> l).

Lemma matching_cons a f l :
  matching a (f :: l) = (if Predicate_Match (nf_pred f) a then [nf_entry f] else []) ++ matching a l.
Proof. unfold matching. rewrite filter_cons. destruct (Predicate_Match _ _); by case_decide. Qed.

Lemma hints_cons e l : hints (e :: l) = (if decide (Hint e = "") then [] else [Hint e]) ++ hints l.
Proof. unfold hints. rewrite fmap_cons, filter_cons. by repeat case_decide. Qed.

(** Collecting into an accumulator that has not hit the limit yet. *)
Definition collected {A} (max : Z) (cb : bool) (acc l : list A) : list A * list nat :=
  (cap max (acc ++ l), limit_calls max cb (length (acc ++ l))).

Lemma collected_nil {A} max cb (acc : list A) :
  limit_hit max (length acc) = false → collected max cb acc [] = (acc, []).
Proof.
  unfold collected, limit_calls. rewrite app_nil_r. intros H. rewrite H, andb_false_r. f_equal.
  unfold cap, limit_hit in *. destruct (Z.ltb_spec 0 max); [|done].
  destruct (Z.leb_spec max (Z.of_nat (length acc))); [done|]. apply take_ge. lia.
Qed.

Lemma collected_cons {A} max cb (acc : list A) x l :
  limit_hit max (length acc) = false →
  collected max cb acc (x :: l) =
    if limit_hit max (length (acc ++ [x])) then (acc ++ [x], if cb then [length (acc ++ [x])] else [])
    else collected max cb (acc ++ [x]) l.
Proof.
  intros H. unfold collected. rewrite cons_middle, (assoc_L (++)).
  destruct (limit_hit max (length (acc ++ [x]))) eqn:Hh; [|done].
  unfold limit_calls, cap, limit_hit in *. rewrite !length_app in *. simpl in *.
  destruct (Z.ltb_spec 0 max); [|done]. simpl in *.
  destruct (Z.leb_spec max (Z.of_nat (length acc))); [done|].
  destruct (Z.leb_spec max (Z.of_nat (length acc + 1))); [|done].
  assert (Hm : Z.to_nat max = length (acc ++ [x])) by (rewrite length_app; simpl; lia).
  rewrite Hm, take_app_length. f_equal.
  destruct (Z.leb_spec max (Z.of_nat (length acc + 1 + length l))); [|lia].
  rewrite length_app. simpl. by destruct cb.
Qed.

Lemma match_loop_spec max cb a l acc :
  limit_hit max (length acc) = false → match_loop max cb a l acc = collected max cb acc (matching a l).
Proof.
  revert acc. induction l as [|f l IH]; intros acc H; simpl; [symmetry; by apply collected_nil|].
  rewrite matching_cons. destruct (Predicate_Match (nf_pred f) a); [|by apply IH]. cbn [app].
  rewrite collected_cons by done. destruct (limit_hit max (length (acc ++ _))) eqn:Hh; [done|].
  by apply IH.
Qed.

Lemma endpoints_loop_spec max cb a l seen acc :
  limit_hit max (length acc) = false →
  endpoints_loop max cb a l seen acc = collected max cb acc (dedup seen (hints (matching a l))).
Proof.
  revert seen acc. induction l as [|f l IH]; intros seen acc H; simpl; [symmetry; by apply collected_nil|].
  rewrite matching_cons. destruct (Predicate_Match (nf_pred f) a); [|by apply IH]. cbn [app].
  rewrite hints_cons. case_decide; [by apply IH|]. cbn [app dedup]. case_decide; [by apply IH|].
  rewrite collected_cons by done. destruct (limit_hit max (length (acc ++ _))) eqn:Hl; [done|].
  by apply IH.
Qed.

Lemma remove_loop_spec name l kept :
  remove_loop name l kept = kept ++ filter (fun f => Name (nf_entry f) ≠ name) l.
Proof.
  revert kept. induction l as [|f l IH]; intros kept; simpl; [by rewrite app_nil_r|].
  rewrite filter_cons. case_decide as H.
  - rewrite decide_False by congruence. apply IH.
  - rewrite decide_True by done. rewrite IH. by rewrite <- (assoc_L (++)).
Qed.

Lemma any_loop_existsb a l : any_loop a l = existsb (fun f => Predicate_Match (nf_pred f) a) l.
Proof. induction l as [|f l IH]; simpl; [done|]. rewrite IH. by destruct (Predicate_Match _ _). Qed.

Lemma limit_hit_0 max : limit_hit max 0 = false.
Proof. unfold limit_hit. destruct (Z.ltb_spec 0 max), (Z.leb_spec max (Z.of_nat 0)); try done. lia. Qed.

(** ** The contract [IFilterSet]

    Both implementations answer from a registry: at most one entry and
    compiled predicate per [Name]. *)
Abbreviation registry := (gmap string (FilterEntry * Predicate)).

Definition reg_matches (m : registry) (a : Attrs) (e : FilterEntry) : Prop :=
  ∃ n p, m !! n = Some (e, p) ∧ Predicate_Match p a = true.

Definition reg_endpoint (m : registry) (a : Attrs) (h : string) : Prop :=
  h ≠ "" ∧ ∃ e, reg_matches m a e ∧ Hint e = h.

(** [l] lists elements of [P] once each: all of them, unless [max] stops it. *)
Definition enumerates {A} (max : Z) (P : A → Prop) (l : list A) : Prop :=
  NoDup l ∧ (∀ x, x ∈ l → P x) ∧
  ((max <= 0)%Z ∨ (Z.of_nat (length l) < max)%Z → ∀ x, P x → x ∈ l) ∧
  ((0 < max)%Z → (Z.of_nat (length l) <= max)%Z).

Class IFilterSet (F : Type) := {
  if_Add : F → FilterEntry → string → F * result (string * parse_error) unit;
  if_Remove : F → string → F;
  if_Match : F → Attrs → list FilterEntry;
  if_MatchEndpoints : F → Attrs → list string;
  if_MatchAny : F → Attrs → bool;
  if_MaxMatches : F → Z }.

(** What the contract promises to its callers, relative to a representation
    relation: [Name] identifies a filter, so [Add] is specified for a new name. *)
Class FilterSetLaws `{UnicodeTables} (F : Type) `{IFilterSet F} (rep : F → registry → Prop) := {
  law_add_err s entry expr e : Parse expr = Err e → if_Add s entry expr = (s, Err (Name entry, e));
  law_add_ok s m entry expr p :
    rep s m → m !! Name entry = None → Parse expr = Ok p →
    ∃ s', if_Add s entry expr = (s', Ok ()) ∧ rep s' (<[Name entry := (entry, p)]> m) ∧
          if_MaxMatches s' = if_MaxMatches s;
  law_remove s m n :
    rep s m → rep (if_Remove s n) (delete n m) ∧ if_MaxMatches (if_Remove s n) = if_MaxMatches s;
  law_match s m a : rep s m → enumerates (if_MaxMatches s) (reg_matches m a) (if_Match s a);
  law_endpoints s m a :
    rep s m → enumerates (if_MaxMatches s) (reg_endpoint m a) (if_MatchEndpoints s a);
  law_any s m a : rep s m → if_MatchAny s a = true ↔ ∃ e, reg_matches m a e }.

(** *** A client of the contract: a history of registrations *)
Inductive fop := OpAdd (entry : FilterEntry) (expr : string) | OpRemove (name : string).

Section client.
Context `{UT : UnicodeTables}.

Definition reg_step (m : registry) (o : fop) : registry :=
  match o with
  | OpAdd entry expr => match Parse expr with Ok p => <[Name entry := (entry, p)]> m | Err _ => m end
  | OpRemove n => delete n m
  end.

Definition fresh_op (m : registry) (o : fop) : Prop :=
  match o with OpAdd entry _ => m !! Name entry = None | OpRemove _ => True end.

(** Every [Add] of the history uses a name not registered at that moment. *)
Fixpoint fresh_ops (m : registry) (ops : list fop) : Prop :=
  match ops with [] => True | o :: ops' => fresh_op m o ∧ fresh_ops (reg_step m o) ops' end.

Definition if_step `{IFilterSet F} (s : F) (o : fop) : F :=
  match o with OpAdd entry expr => (if_Add s entry expr).1 | OpRemove n => if_Remove s n end.

Lemma if_steps_rep {F : Type} `{IFilterSet F} {rep} `{!FilterSetLaws F rep} (s : F) m ops :
  rep s m → fresh_ops m ops →
  rep (foldl if_step s ops) (foldl reg_step m ops) ∧
  if_MaxMatches (foldl if_step s ops) = if_MaxMatches s.
Proof.
  revert s m. induction ops as [|o ops IH]; intros s m Hr Hf; simpl; [done|]. destruct Hf as [Ho Hf].
  enough (rep (if_step s o) (reg_step m o) ∧ if_MaxMatches (if_step s o) = if_MaxMatches s) as [Hs Hm].
  { destruct (IH _ _ Hs Hf) as [? ->]. done. }
  destruct o as [entry expr|n]; simpl in *.
  - destruct (Parse expr) as [p|e] eqn:E.
    + destruct (law_add_ok s m entry expr p) as (s' & -> & ? & ?); done.
    + by rewrite (law_add_err s entry expr e E).
  - by apply law_remove.
Qed.

Lemma enumerates_perm {A} (P : A → Prop) l1 l2 :
  enumerates 0 P l1 → enumerates 0 P l2 → l1 ≡ₚ l2.
Proof.
  intros (N1 & S1 & C1 & _) (N2 & S2 & C2 & _). apply NoDup_Permutation; [done|done|].
  intros x. split; [intros ?%S1; apply C2|intros ?%S2; apply C1]; auto; by left.
Qed.

(** Two implementations of the contract are interchangeable for any history
    that never registers a live name twice. *)
Lemma filter_sets_agree {F1 F2 : Type} `{IFilterSet F1} {rep1} `{!FilterSetLaws F1 rep1} `{IFilterSet F2} {rep2}
    `{!FilterSetLaws F2 rep2} (s1 : F1) (s2 : F2) ops a :
  rep1 s1 ∅ → rep2 s2 ∅ → if_MaxMatches s1 = 0%Z → if_MaxMatches s2 = 0%Z → fresh_ops ∅ ops →
  let s1' := foldl if_step s1 ops in let s2' := foldl if_step s2 ops in
  if_MatchAny s1' a = if_MatchAny s2' a ∧
  if_Match s1' a ≡ₚ if_Match s2' a ∧
  if_MatchEndpoints s1' a ≡ₚ if_MatchEndpoints s2' a.
Proof.
  intros H1 H2 M1 M2 Hf. cbv zeta.
  destruct (if_steps_rep s1 ∅ ops H1 Hf) as [R1 E1]. destruct (if_steps_rep s2 ∅ ops H2 Hf) as [R2 E2].
  rewrite M1 in E1. rewrite M2 in E2. split_and!.
  - apply eq_true_iff_eq. by rewrite (law_any _ _ a R1), (law_any _ _ a R2).
  - pose proof (law_match _ _ a R1) as P1. pose proof (law_match _ _ a R2) as P2.
    rewrite E1 in P1. rewrite E2 in P2. by eapply enumerates_perm.
  - pose proof (law_endpoints _ _ a R1) as P1. pose proof (law_endpoints _ _ a R2) as P2.
    rewrite E1 in P1. rewrite E2 in P2. by eapply enumerates_perm.
Qed.
End client.

(** *** The linear set satisfies the contract *)
#[global] Instance FilterSet_IFilterSet `{UnicodeTables} : IFilterSet FilterSet := {|
  if_Add := FilterSet_Add; if_Remove := FilterSet_Remove;
  if_Match := fun s a => (FilterSet_Match s a).1;
  if_MatchEndpoints := fun s a => (FilterSet_MatchEndpoints s a).1;
  if_MatchAny := FilterSet_MatchAny; if_MaxMatches := MaxMatches |}.

Definition filterset_rep (s : FilterSet) (m : registry) : Prop :=
  NoDup ((fun f => Name (nf_entry f)) <$> filters s) ∧
  ∀ n e p, m !! n = Some (e, p) ↔ Name e = n ∧ mkFilter e p ∈ filters s.

Lemma cap_spec {A} max (l : list A) P :
  NoDup l → (∀ x, x ∈ l ↔ P x) → enumerates max P (cap max l).
Proof.
  intros Hnd Hin. unfold cap. destruct (Z.ltb_spec 0 max) as [Hm|Hm].
  - split; [by apply (NoDup_app _ (drop (Z.to_nat max) l)); rewrite take_drop|].
    split; [intros x (i & Hi & _)%elem_of_take; apply Hin; by eapply list_elem_of_lookup_2|].
    rewrite length_take. split; [|lia].
    intros [|Hlt]; [lia|]. intros x Hx. rewrite take_ge by lia. by apply Hin.
  - split; [done|]. split; [by intros x; rewrite Hin|]. split; [intros _ x; by rewrite Hin|lia].
Qed.

Lemma dedup_elem seen l x : x ∈ dedup seen l ↔ x ∈ l ∧ x ∉ seen.
Proof.
  revert seen. induction l as [|y l IH]; intros seen; simpl; [rewrite elem_of_nil; naive_solver|].
  case_decide; rewrite ?elem_of_cons, IH; clear IH; destruct (decide (x = y)); set_solver.
Qed.

Lemma dedup_NoDup seen l : NoDup (dedup seen l).
Proof.
  revert seen. induction l as [|y l IH]; intros seen; simpl; [constructor|].
  case_decide; [done|]. constructor; [|done]. rewrite dedup_elem. set_solver.
Qed.

Lemma elem_of_hints h l : h ∈ hints l ↔ h ≠ "" ∧ ∃ e, e ∈ l ∧ Hint e = h.
Proof. unfold hints. rewrite list_elem_of_filter, list_elem_of_fmap. naive_solver. Qed.

Lemma elem_of_matching e a l :
  e ∈ matching a l ↔ ∃ p, mkFilter e p ∈ l ∧ Predicate_Match p a = true.
Proof.
  unfold matching. rewrite list_elem_of_fmap. setoid_rewrite list_elem_of_filter. split.
  - intros ([e' p] & -> & ? & ?). eauto.
  - intros (p & ? & ?). by exists (mkFilter e p).
Qed.

Lemma NoDup_fmap_filter {A B} (f : A → B) (P : A → Prop) `{∀ x, Decision (P x)} l :
  NoDup (f <$> l) → NoDup (f <$> filter P l).
Proof.
  induction l as [|x l IH]; [done|]. rewrite fmap_cons, NoDup_cons, filter_cons. intros [Hx Hl].
  case_decide; [|auto]. rewrite fmap_cons. constructor; [|auto].
  rewrite list_elem_of_fmap in *. setoid_rewrite list_elem_of_filter. naive_solver.
Qed.

Lemma NoDup_fmap_inv {A B} (f : A → B) l : NoDup (f <$> l) → NoDup l.
Proof.
  induction l as [|x l IH]; [constructor|]. rewrite fmap_cons, !NoDup_cons. intros [Hx Hl].
  split; [|auto]. intros Hin. apply Hx. rewrite list_elem_of_fmap. eauto.
Qed.

Lemma matching_NoDup a l : NoDup ((fun f => Name (nf_entry f)) <$> l) → NoDup (matching a l).
Proof.
  intros H. unfold matching. apply (NoDup_fmap_inv Name). rewrite <- list_fmap_compose.
  by apply (NoDup_fmap_filter (fun f => Name (nf_entry f))).
Qed.

Lemma filterset_rep_matching s m a e :
  filterset_rep s m → e ∈ matching a (filters s) ↔ reg_matches m a e.
Proof.
  intros [_ Hm]. rewrite elem_of_matching. unfold reg_matches. setoid_rewrite Hm. naive_solver.
Qed.

Section properties.
Context `{UT : UnicodeTables}.

Lemma FilterSet_Match_eq fs a :
  FilterSet_Match fs a = collected (MaxMatches fs) (OnLimitExceeded fs) [] (matching a (filters fs)).
Proof. apply match_loop_spec, limit_hit_0. Qed.

Lemma FilterSet_MatchEndpoints_eq fs a :
  FilterSet_MatchEndpoints fs a =
  collected (MaxMatches fs) (OnLimitExceeded fs) [] (dedup ∅ (hints (matching a (filters fs)))).
Proof. apply endpoints_loop_spec, limit_hit_0. Qed.

Lemma FilterSet_MatchAny_iff fs a : FilterSet_MatchAny fs a = true ↔ ∃ e, e ∈ matching a (filters fs).
Proof.
  unfold FilterSet_MatchAny. rewrite any_loop_existsb, existsb_true. setoid_rewrite elem_of_matching.
  split; [intros ([e p] & ? & ?); eauto|intros (e & p & ? & ?); eexists; split; eauto].
Qed.

(** [FilterSet.Match] collects exactly the entries of the matching filters,
    in registration order, cut at [MaxMatches] when that is positive;
    [OnLimitExceeded] is called once, with the number collected, exactly when the
    cut is reached.  [MatchEndpoints] does the same over the distinct non-empty
    hints, and [MatchAny] is whether any filter matches. *)
Theorem FilterSet_results fs a :
  FilterSet_Match fs a =
    (cap (MaxMatches fs) (matching a (filters fs)),
     limit_calls (MaxMatches fs) (OnLimitExceeded fs) (length (matching a (filters fs)))) ∧
  FilterSet_MatchEndpoints fs a =
    (cap (MaxMatches fs) (dedup ∅ (hints (matching a (filters fs)))),
     limit_calls (MaxMatches fs) (OnLimitExceeded fs)
       (length (dedup ∅ (hints (matching a (filters fs)))))) ∧
  (FilterSet_MatchAny fs a = true ↔ ∃ e, e ∈ matching a (filters fs)).
Proof. rewrite FilterSet_Match_eq, FilterSet_MatchEndpoints_eq, FilterSet_MatchAny_iff. done. Qed.

#[global] Instance FilterSet_laws : FilterSetLaws FilterSet filterset_rep.
Proof.
  split; simpl.
  - intros s entry expr e He. unfold FilterSet_Add. by rewrite He.
  - intros s m entry expr p [Hnd Hm] Hnone Hp. unfold FilterSet_Add. rewrite Hp.
    eexists. split; [done|]. split; [|done].
    assert (Hfresh : ∀ f, f ∈ filters s → Name (nf_entry f) ≠ Name entry).
    { intros [e q] Hf Hn. simpl in Hn. rewrite (proj2 (Hm (Name entry) e q)) in Hnone; done. }
    split; simpl.
    + rewrite fmap_app. apply NoDup_app. split; [done|]. split; [|apply NoDup_singleton].
      intros n (f & -> & Hf)%list_elem_of_fmap. intros Hs%list_elem_of_singleton. by eapply Hfresh.
    + intros n e q. rewrite elem_of_app, list_elem_of_singleton. destruct (decide (n = Name entry)) as [->|Hn].
      * rewrite lookup_insert_eq. split; [intros [= <- <-]; eauto|].
        intros [Hne [Hf|[= -> ->]]]; [by apply Hfresh in Hf|done].
      * rewrite lookup_insert_ne by done. rewrite Hm. naive_solver.
  - intros s m n [Hnd Hm]. split; [|done]. unfold FilterSet_Remove. split; simpl.
    + rewrite remove_loop_spec. simpl. by apply (NoDup_fmap_filter (fun f => Name (nf_entry f))).
    + intros n' e p. rewrite remove_loop_spec. simpl. rewrite list_elem_of_filter. simpl.
      rewrite lookup_delete_Some, Hm. naive_solver.
  - intros s m a [Hnd Hm]. rewrite FilterSet_Match_eq. simpl. apply cap_spec.
    + by apply matching_NoDup.
    + intros e. by apply filterset_rep_matching.
  - intros s m a [Hnd Hm]. rewrite FilterSet_MatchEndpoints_eq. simpl. apply cap_spec.
    + apply dedup_NoDup.
    + intros h. rewrite dedup_elem, elem_of_hints. unfold reg_endpoint.
      setoid_rewrite (filterset_rep_matching s m a _ (conj Hnd Hm)). set_solver.
  - intros s m a Hr. rewrite FilterSet_MatchAny_iff. by setoid_rewrite (filterset_rep_matching s m a).
Qed.
End properties.
