(* ===== verification/Index.v ===== *)
(** * The indexed filter set ([cloudevent/cefilter/index.go])

    [IndexedFilterSet] keeps, beside the set of registered names, an inverted
    index on the event type: buckets for filters whose predicate pins the type
    to given values, a list of globs, and a list of filters with no type
    constraint.  [*indexedEntry] pointers are modelled by an allocation number
    ([ie_ptr]), since [Stats] counts distinct pointers.  Every operation runs
    under the set's [RWMutex], so operations are atomic steps. *)
From S2P Require Import Prelude GoText Filter Lexer Parser FilterSet.
From stdpp Require Import options.

(** ** Type constraints *)
Record typeConstraint := mkTC {
  tc_exact : gset string; tc_globs : list Regexp; tc_unconstrained : bool }.

Definition unconstrained_tc : typeConstraint := mkTC ∅ [] true.

Definition glob_hit (globs : list Regexp) (v : string) : bool :=
  existsb (fun rx => MatchString rx v) globs.

Definition intersectConstraints (a b : typeConstraint) : typeConstraint :=
  mkTC ((tc_exact a ∩ tc_exact b)
        ∪ filter (fun v => glob_hit (tc_globs b) v = true) (tc_exact a)
        ∪ filter (fun v => glob_hit (tc_globs a) v = true) (tc_exact b))
       (tc_globs a ++ tc_globs b) false.

Definition unionConstraints (a b : typeConstraint) : typeConstraint :=
  mkTC (tc_exact a ∪ tc_exact b) (tc_globs a ++ tc_globs b) false.

Fixpoint extractTypeConstraint (p : Predicate) : typeConstraint :=
  match p with
  | eqPred k v => if decide (k = "type") then mkTC {[v]} [] false else unconstrained_tc
  | nePred _ _ => unconstrained_tc
  | likePred k _ rx => if decide (k = "type") then mkTC ∅ [rx] false else unconstrained_tc
  | inPred k vals _ => if decide (k = "type") then mkTC vals [] false else unconstrained_tc
  | existsPred _ => unconstrained_tc
  | andPred l r =>
      let lc := extractTypeConstraint l in let rc := extractTypeConstraint r in
      if tc_unconstrained lc then rc
      else if tc_unconstrained rc then lc
      else intersectConstraints lc rc
  | orPred l r =>
      let lc := extractTypeConstraint l in let rc := extractTypeConstraint r in
      if tc_unconstrained lc || tc_unconstrained rc then unconstrained_tc
      else unionConstraints lc rc
  | notPred _ => unconstrained_tc
  end.

(** ** State *)
Record indexedEntry := mkIE { ie_ptr : N; ie_entry : FilterEntry; ie_pred : Predicate }.
Record globIndexEntry := mkGE { ge_rx : Regexp; ge_entry : indexedEntry }.

#[global] Instance indexedEntry_eq_dec : EqDecision indexedEntry.
Proof. solve_decision. Defined.
#[global] Instance globIndexEntry_eq_dec : EqDecision globIndexEntry.
Proof. solve_decision. Defined.

Record IndexedFilterSet := mkIndexed {
  ix_MaxMatches : Z;
  ix_OnLimitExceeded : bool;
  names : gset string;
  exactIndex : gmap string (list indexedEntry);
  globEntries : list globIndexEntry;
  wildcardEntries : list indexedEntry;
  next_ptr : N }.

Definition ie_name (e : indexedEntry) : string := Name (ie_entry e).

(** [&IndexedFilterSet{MaxMatches: max}]. *)
Definition empty_index (max : Z) (cb : bool) : IndexedFilterSet := mkIndexed max cb ∅ ∅ [] [] 0.

(** ** Operations *)

Definition keep_entries (name : string) (l : list indexedEntry) : list indexedEntry :=
  filter (fun e => ie_name e ≠ name) l.

Definition removeLocked (name : string) (fs : IndexedFilterSet) : IndexedFilterSet :=
  mkIndexed (ix_MaxMatches fs) (ix_OnLimitExceeded fs)
    (names fs ∖ {[name]})
    (omap (fun entries => match keep_entries name entries with [] => None | kept => Some kept end)
          (exactIndex fs))
    (filter (fun ge => ie_name (ge_entry ge) ≠ name) (globEntries fs))
    (keep_entries name (wildcardEntries fs))
    (next_ptr fs).

Definition bucket (m : gmap string (list indexedEntry)) (v : string) : list indexedEntry :=
  default [] (m !! v).

(** [for v := range tc.exact { fs.exactIndex[v] = append(fs.exactIndex[v], ie) }]. *)
Definition add_exact (ie : indexedEntry) (vs : list string) (m : gmap string (list indexedEntry))
  : gmap string (list indexedEntry) :=
  foldl (fun m v => <[v := bucket m v ++ [ie]]> m) m vs.

(** [Add]'s insertion, after the [removeLocked] of an existing name. *)
Definition insert_entry (ie : indexedEntry) (tc : typeConstraint) (fs : IndexedFilterSet)
  : IndexedFilterSet :=
  let names' := {[ie_name ie]} ∪ names fs in
  if tc_unconstrained tc then
    mkIndexed (ix_MaxMatches fs) (ix_OnLimitExceeded fs) names' (exactIndex fs) (globEntries fs)
      (wildcardEntries fs ++ [ie]) (next_ptr fs)
  else
    mkIndexed (ix_MaxMatches fs) (ix_OnLimitExceeded fs) names'
      (add_exact ie (elements (tc_exact tc)) (exactIndex fs))
      (globEntries fs ++ ((fun rx => mkGE rx ie) <$> tc_globs tc))
      (wildcardEntries fs ++
         (if decide (tc_exact tc = ∅ ∧ tc_globs tc = []) then [ie] else []))
      (next_ptr fs).

Definition with_next (fs : IndexedFilterSet) (n : N) : IndexedFilterSet :=
  mkIndexed (ix_MaxMatches fs) (ix_OnLimitExceeded fs) (names fs) (exactIndex fs) (globEntries fs)
    (wildcardEntries fs) n.

Section ops.
Context `{UT : UnicodeTables}.

Definition Indexed_Add (fs : IndexedFilterSet) (entry : FilterEntry) (expr : string)
  : IndexedFilterSet * result (string * parse_error) unit :=
  match Parse expr with
  | Err e => (fs, Err (Name entry, e))
  | Ok pred =>
    let ie := mkIE (next_ptr fs) entry pred in
    let fs0 := with_next fs (N.succ (next_ptr fs)) in
    let tc := extractTypeConstraint pred in
    let fs1 := if decide (Name entry ∈ names fs0) then removeLocked (Name entry) fs0 else fs0 in
    (insert_entry ie tc fs1, Ok ())
  end.
End ops.

Definition Indexed_Remove (fs : IndexedFilterSet) (name : string) : IndexedFilterSet :=
  removeLocked name fs.

(** [t := a["type"]]: the empty string when absent. *)
Definition event_type (a : Attrs) : string := default "" (a !! "type").

Definition Indexed_MatchAny (fs : IndexedFilterSet) (a : Attrs) : bool :=
  let t := event_type a in
  if existsb (fun e => Predicate_Match (ie_pred e) a) (bucket (exactIndex fs) t) then true
  else if existsb (fun ge => MatchString (ge_rx ge) t && Predicate_Match (ie_pred (ge_entry ge)) a)
            (globEntries fs) then true
  else existsb (fun e => Predicate_Match (ie_pred e) a) (wildcardEntries fs).

(** The variables captured by the [add] closure of [Match]. *)
Record match_state := mkMS {
  ms_seen : gset string; ms_matched : list FilterEntry; ms_done : bool; ms_calls : list nat }.

Definition match_add (max : Z) (cb : bool) (a : Attrs) (st : match_state) (e : indexedEntry) : match_state :=
  if ms_done st then st
  else if decide (ie_name e ∈ ms_seen st) then st
  else
    let seen := {[ie_name e]} ∪ ms_seen st in
    if Predicate_Match (ie_pred e) a then
      let matched := ms_matched st ++ [ie_entry e] in
      if limit_hit max (length matched)
      then mkMS seen matched true (ms_calls st ++ if cb then [length matched] else [])
      else mkMS seen matched false (ms_calls st)
    else mkMS seen (ms_matched st) false (ms_calls st).

(** A loop over candidates that breaks once [done] is set. *)
Fixpoint match_entries (max : Z) (cb : bool) (a : Attrs) (st : match_state) (l : list indexedEntry) : match_state :=
  match l with
  | [] => st
  | e :: l' => if ms_done st then st else match_entries max cb a (match_add max cb a st e) l'
  end.

Fixpoint match_globs (max : Z) (cb : bool) (a : Attrs) (t : string) (st : match_state) (l : list globIndexEntry)
  : match_state :=
  match l with
  | [] => st
  | ge :: l' =>
    if ms_done st then st
    else match_globs max cb a t
           (if MatchString (ge_rx ge) t then match_add max cb a st (ge_entry ge) else st) l'
  end.

Definition Indexed_Match (fs : IndexedFilterSet) (a : Attrs) : list FilterEntry * list nat :=
  let t := event_type a in
  let max := ix_MaxMatches fs in let cb := ix_OnLimitExceeded fs in
  let st := match_entries max cb a (mkMS ∅ [] false []) (bucket (exactIndex fs) t) in
  let st := match_globs max cb a t st (globEntries fs) in
  let st := match_entries max cb a st (wildcardEntries fs) in
  (ms_matched st, ms_calls st).

(** The variables captured by the [add] closure of [MatchEndpoints]. *)
Record ep_state := mkES {
  es_names : gset string; es_hints : gset string; es_endpoints : list string;
  es_done : bool; es_calls : list nat }.

Definition ep_add (max : Z) (cb : bool) (a : Attrs) (st : ep_state) (e : indexedEntry) : ep_state :=
  if es_done st then st
  else if decide (ie_name e ∈ es_names st) then st
  else
    let seen := {[ie_name e]} ∪ es_names st in
    let hint := Hint (ie_entry e) in
    let skip := mkES seen (es_hints st) (es_endpoints st) false (es_calls st) in
    if decide (hint = "") then skip
    else if decide (hint ∈ es_hints st) then skip
    else if Predicate_Match (ie_pred e) a then
      let endpoints := es_endpoints st ++ [hint] in
      if limit_hit max (length endpoints)
      then mkES seen ({[hint]} ∪ es_hints st) endpoints true
             (es_calls st ++ if cb then [length endpoints] else [])
      else mkES seen ({[hint]} ∪ es_hints st) endpoints false (es_calls st)
    else skip.

Fixpoint ep_entries (max : Z) (cb : bool) (a : Attrs) (st : ep_state) (l : list indexedEntry) : ep_state :=
  match l with
  | [] => st
  | e :: l' => if es_done st then st else ep_entries max cb a (ep_add max cb a st e) l'
  end.

Fixpoint ep_globs (max : Z) (cb : bool) (a : Attrs) (t : string) (st : ep_state) (l : list globIndexEntry)
  : ep_state :=
  match l with
  | [] => st
  | ge :: l' =>
    if es_done st then st
    else ep_globs max cb a t
           (if MatchString (ge_rx ge) t then ep_add max cb a st (ge_entry ge) else st) l'
  end.

Definition Indexed_MatchEndpoints (fs : IndexedFilterSet) (a : Attrs) : list string * list nat :=
  let t := event_type a in
  let max := ix_MaxMatches fs in let cb := ix_OnLimitExceeded fs in
  let st := ep_entries max cb a (mkES ∅ ∅ [] false []) (bucket (exactIndex fs) t) in
  let st := ep_globs max cb a t st (globEntries fs) in
  let st := ep_entries max cb a st (wildcardEntries fs) in
  (es_endpoints st, es_calls st).

(** [Stats]: distinct entries by pointer in the type index, plus the wildcards. *)
Record IndexStats := mkStats {
  Total : nat; ExactTypeBuckets : nat; GlobEntries : nat; Unconstrained : nat }.

Definition seen_ptrs (fs : IndexedFilterSet) : gset N :=
  list_to_set (ie_ptr <$> concat (snd <$> map_to_list (exactIndex fs)))
  ∪ list_to_set ((fun ge => ie_ptr (ge_entry ge)) <$> globEntries fs).

Definition Indexed_Stats (fs : IndexedFilterSet) : IndexStats :=
  mkStats (size (seen_ptrs fs) + length (wildcardEntries fs)) (size (exactIndex fs))
    (length (globEntries fs)) (length (wildcardEntries fs)).

(** ** The type constraint over-approximates the predicate *)

Definition tc_allows (tc : typeConstraint) (t : string) : Prop :=
  tc_unconstrained tc = true ∨ t ∈ tc_exact tc ∨ glob_hit (tc_globs tc) t = true.

Lemma glob_hit_app g1 g2 t : glob_hit (g1 ++ g2) t = glob_hit g1 t || glob_hit g2 t.
Proof. apply existsb_app. Qed.

Lemma intersect_allows a b t :
  tc_unconstrained a = false → tc_unconstrained b = false →
  tc_allows a t → tc_allows b t → tc_allows (intersectConstraints a b) t.
Proof.
  intros Ha Hb [?|[Ea|Ga]] [?|[Eb|Gb]]; try congruence; right; simpl;
    rewrite glob_hit_app, !elem_of_union, elem_of_intersection, !elem_of_filter;
    rewrite ?Ga, ?Gb, ?orb_true_r; auto.
Qed.

Lemma union_allows a b t :
  tc_allows a t ∨ tc_allows b t → tc_unconstrained a = false → tc_unconstrained b = false →
  tc_allows (unionConstraints a b) t.
Proof.
  intros H Ha Hb. right. simpl. rewrite glob_hit_app, elem_of_union.
  destruct H as [[?|[?|G]]|[?|[?|G]]]; try congruence; auto; rewrite G, ?orb_true_r; auto.
Qed.

Lemma extractTypeConstraint_sound p a :
  Predicate_Match p a = true → tc_allows (extractTypeConstraint p) (event_type a).
Proof.
  induction p as [k v|k v|k pat rx|k vals repr|k|l IHl r IHr|l IHl r IHr|q IH]; simpl; try (by left).
  - case_decide as Hk; [|by left]. subst. unfold event_type.
    destruct (a !! "type"); [|done]. rewrite bool_decide_eq_true. intros ->. right; left. set_solver.
  - case_decide as Hk; [|by left]. subst. unfold event_type.
    destruct (a !! "type"); [|done]. intros Hm. right; right. simpl. by rewrite Hm.
  - case_decide as Hk; [|by left]. subst. unfold event_type.
    destruct (a !! "type"); [|done]. rewrite bool_decide_eq_true. intros Hm. right; left. done.
  - intros [Hl Hr]%andb_true_iff. destruct (tc_unconstrained (extractTypeConstraint l)) eqn:El; [auto|].
    destruct (tc_unconstrained (extractTypeConstraint r)) eqn:Er; [auto|]. by apply intersect_allows; auto.
  - intros H%orb_true_iff. destruct (tc_unconstrained (extractTypeConstraint l)) eqn:El; [by left|].
    destruct (tc_unconstrained (extractTypeConstraint r)) eqn:Er; [by left|]. simpl.
    apply union_allows; [destruct H; auto|done|done].
Qed.

(** ** The index invariant

    [reg] is the registry of live entries by name; every bucket holds exactly
    the entries its position calls for. *)
Definition in_wild (p : Predicate) : Prop :=
  let tc := extractTypeConstraint p in
  tc_unconstrained tc = true ∨ (tc_exact tc = ∅ ∧ tc_globs tc = []).

Record index_ok (fs : IndexedFilterSet) (reg : gmap string indexedEntry) : Prop := {
  ok_names : names fs = dom reg;
  ok_key n e : reg !! n = Some e → ie_name e = n;
  ok_ptr n e : reg !! n = Some e → (ie_ptr e < next_ptr fs)%N;
  ok_inj n1 n2 e1 e2 : reg !! n1 = Some e1 → reg !! n2 = Some e2 → ie_ptr e1 = ie_ptr e2 → n1 = n2;
  ok_exact v e : e ∈ bucket (exactIndex fs) v ↔
    reg !! ie_name e = Some e ∧ tc_unconstrained (extractTypeConstraint (ie_pred e)) = false ∧
    v ∈ tc_exact (extractTypeConstraint (ie_pred e));
  ok_exact_ne v : exactIndex fs !! v ≠ Some [];
  ok_glob ge : ge ∈ globEntries fs ↔
    reg !! ie_name (ge_entry ge) = Some (ge_entry ge) ∧
    tc_unconstrained (extractTypeConstraint (ie_pred (ge_entry ge))) = false ∧
    ge_rx ge ∈ tc_globs (extractTypeConstraint (ie_pred (ge_entry ge)));
  ok_wild e : e ∈ wildcardEntries fs ↔ reg !! ie_name e = Some e ∧ in_wild (ie_pred e);
  ok_wild_nodup : NoDup (wildcardEntries fs) }.

Lemma empty_index_ok max cb : index_ok (empty_index max cb) ∅.
Proof.
  split; simpl; try done; try (intros *; rewrite lookup_empty; done); try constructor;
    rewrite ?lookup_empty, ?elem_of_nil; naive_solver.
Qed.

(** *** Removal *)

Lemma bucket_remove name m v :
  bucket (omap (fun es => match keep_entries name es with [] => None | kept => Some kept end) m) v
  = keep_entries name (bucket m v).
Proof.
  unfold bucket. rewrite lookup_omap. destruct (m !! v) as [es|]; simpl; [|done].
  by destruct (keep_entries name es).
Qed.

Lemma lookup_delete_key (reg : gmap string indexedEntry) name e :
  delete name reg !! ie_name e = Some e ↔ ie_name e ≠ name ∧ reg !! ie_name e = Some e.
Proof. rewrite lookup_delete_Some. naive_solver. Qed.

Lemma removeLocked_ok fs reg name : index_ok fs reg → index_ok (removeLocked name fs) (delete name reg).
Proof.
  intros [Hn Hk Hp Hi He Hne Hg Hw Hnd].
  assert (Hd : ∀ n e, delete name reg !! n = Some e → reg !! n = Some e).
  { intros n e [_ ?]%lookup_delete_Some. done. }
  split; simpl.
  - rewrite dom_delete_L. by rewrite Hn.
  - intros n e ?%Hd. eauto.
  - intros n e ?%Hd. eauto.
  - intros n1 n2 e1 e2 ?%Hd ?%Hd. eauto.
  - intros v e. rewrite bucket_remove. unfold keep_entries.
    rewrite list_elem_of_filter, He, lookup_delete_key. tauto.
  - intros v. rewrite lookup_omap. destruct (exactIndex fs !! v); simpl; [|done].
    by destruct (keep_entries name _).
  - intros ge. rewrite list_elem_of_filter, Hg, lookup_delete_key. tauto.
  - intros e. unfold keep_entries. rewrite list_elem_of_filter, Hw, lookup_delete_key. tauto.
  - by apply NoDup_filter.
Qed.

(** *** Insertion *)

Lemma bucket_add_exact ie vs m v :
  NoDup vs → bucket (add_exact ie vs m) v = bucket m v ++ (if decide (v ∈ vs) then [ie] else []).
Proof.
  intros Hnd. revert m. induction Hnd as [|w vs Hw Hnd IH]; intros m; simpl.
  { by rewrite app_nil_r. }
  change (add_exact ie (w :: vs) m) with (add_exact ie vs (<[w := bucket m w ++ [ie]]> m)).
  rewrite IH. unfold bucket at 1.
  destruct (decide (v = w)) as [->|Hv].
  - rewrite lookup_insert_eq. simpl. rewrite decide_False by done.
    rewrite decide_True by set_solver. by rewrite app_nil_r.
  - rewrite lookup_insert_ne by done. fold (bucket m v). f_equal.
    destruct (decide (v ∈ vs)); [rewrite decide_True by set_solver|rewrite decide_False by set_solver]; done.
Qed.

Lemma add_exact_ne ie vs m v : (∀ w, m !! w ≠ Some []) → add_exact ie vs m !! v ≠ Some [].
Proof.
  revert m. induction vs as [|w vs IH]; intros m Hm; simpl; [done|]. apply IH.
  intros u. rewrite lookup_insert_Some. intros [[_ H]|[_ H]]; [|by apply Hm in H].
  by apply app_nil in H as [_ ?].
Qed.

Lemma lookup_insert_key (reg : gmap string indexedEntry) ie e :
  reg !! ie_name ie = None →
  <[ie_name ie := ie]> reg !! ie_name e = Some e ↔ e = ie ∨ reg !! ie_name e = Some e.
Proof.
  intros Hf. rewrite lookup_insert_Some. split; [naive_solver|].
  intros [->|He]; [by left|]. right. split; [|done]. intros Heq. rewrite Heq in Hf. congruence.
Qed.

Lemma insert_entry_ok fs reg ie :
  index_ok fs reg → reg !! ie_name ie = None → (ie_ptr ie < next_ptr fs)%N →
  (∀ n e, reg !! n = Some e → ie_ptr e ≠ ie_ptr ie) →
  index_ok (insert_entry ie (extractTypeConstraint (ie_pred ie)) fs) (<[ie_name ie := ie]> reg).
Proof.
  intros [Hn Hk Hp Hi He Hne Hg Hw Hnd] Hf Hpie Hfp.
  set (tc := extractTypeConstraint (ie_pred ie)).
  assert (Hkey : ∀ n e, <[ie_name ie := ie]> reg !! n = Some e → ie_name e = n).
  { intros n e [[<- <-]|[_ ?]]%lookup_insert_Some; eauto. }
  assert (Hptr : ∀ n e, <[ie_name ie := ie]> reg !! n = Some e → (ie_ptr e < next_ptr fs)%N).
  { intros n e [[<- <-]|[_ ?]]%lookup_insert_Some; eauto. }
  assert (Hinj : ∀ n1 n2 e1 e2, <[ie_name ie := ie]> reg !! n1 = Some e1 →
      <[ie_name ie := ie]> reg !! n2 = Some e2 → ie_ptr e1 = ie_ptr e2 → n1 = n2).
  { intros n1 n2 e1 e2 [[<- <-]|[_ H1]]%lookup_insert_Some [[<- <-]|[_ H2]]%lookup_insert_Some Heq; eauto.
    - by edestruct Hfp.
    - by edestruct Hfp. }
  assert (Hwf : ie ∉ wildcardEntries fs). { rewrite Hw. rewrite Hf. by intros [? _]. }
  unfold insert_entry. fold tc. destruct (tc_unconstrained tc) eqn:Hu; split; simpl; try done.
  - by rewrite dom_insert_L, Hn.
  - intros v e. rewrite He, lookup_insert_key by done.
    split; [tauto|]. intros [[->|?] [? ?]]; [|done]. unfold tc in Hu. congruence.
  - intros ge. rewrite Hg, lookup_insert_key by done.
    split; [tauto|]. intros [[Heq|?] [? ?]]; [|done]. rewrite Heq in *. unfold tc in Hu. congruence.
  - intros e. rewrite elem_of_app, list_elem_of_singleton, Hw, lookup_insert_key by done.
    split; [|tauto]. intros [?| ->]; [tauto|]. split; [by left|]. by left.
  - apply NoDup_app. split; [done|]. split; [|apply NoDup_singleton].
    intros x Hx ->%list_elem_of_singleton. done.
  - by rewrite dom_insert_L, Hn.
  - intros v e. rewrite bucket_add_exact by apply NoDup_elements.
    rewrite elem_of_app, He, lookup_insert_key by done. case_decide as Hv.
    + rewrite elem_of_elements in Hv. rewrite list_elem_of_singleton. split; [|tauto].
      intros [?| ->]; [tauto|]. auto.
    + rewrite elem_of_elements in Hv. rewrite elem_of_nil. split; [tauto|].
      intros [[->|?] [? ?]]; [done|tauto].
  - intros v. by apply add_exact_ne.
  - intros ge. rewrite elem_of_app, Hg, list_elem_of_fmap, lookup_insert_key by done. split.
    + intros [?|(rx & -> & Hrx)]; [tauto|]. simpl. auto.
    + intros [[Heq|?] [? ?]]; [|tauto]. right. exists (ge_rx ge). destruct ge; simpl in *. by subst.
  - intros e. rewrite elem_of_app, Hw, lookup_insert_key by done. case_decide as Hc.
    + rewrite list_elem_of_singleton. split; [|tauto]. intros [?| ->]; [tauto|]. split; [by left|by right].
    + rewrite elem_of_nil. split; [tauto|]. intros [[->|?] Hiw]; [|tauto].
      destruct Hiw as [Hiw|Hiw]; fold tc in Hiw; [congruence|done].
  - case_decide; [|by rewrite app_nil_r]. apply NoDup_app. split; [done|]. split; [|apply NoDup_singleton].
    intros x Hx ->%list_elem_of_singleton. done.
Qed.

Lemma with_next_ok fs reg n : index_ok fs reg → (next_ptr fs <= n)%N → index_ok (with_next fs n) reg.
Proof.
  intros [] ?. split; try done. intros m e Hm. simpl. eapply N.lt_le_trans; eauto.
Qed.

(** *** The operations keep the invariant *)
Section invariant.
Context `{UT : UnicodeTables}.

Lemma Indexed_Add_ok fs reg entry expr p :
  index_ok fs reg → Parse expr = Ok p →
  ∃ fs', Indexed_Add fs entry expr = (fs', Ok ()) ∧
    index_ok fs' (<[Name entry := mkIE (next_ptr fs) entry p]> reg) ∧
    ix_MaxMatches fs' = ix_MaxMatches fs ∧ ix_OnLimitExceeded fs' = ix_OnLimitExceeded fs.
Proof.
  intros Hok Hp. unfold Indexed_Add. rewrite Hp. eexists. split; [done|].
  set (ie := mkIE (next_ptr fs) entry p).
  set (fs1 := if decide _ then _ else _).
  assert (H1 : index_ok fs1 (delete (Name entry) reg) ∧ next_ptr fs1 = N.succ (next_ptr fs) ∧
      ix_MaxMatches fs1 = ix_MaxMatches fs ∧ ix_OnLimitExceeded fs1 = ix_OnLimitExceeded fs).
  { unfold fs1. case_decide as Hin; (split; [|done]).
    - apply removeLocked_ok, with_next_ok; [done|lia].
    - rewrite delete_id; [apply with_next_ok; [done|lia]|].
      simpl in Hin. rewrite (ok_names _ _ Hok) in Hin. by apply not_elem_of_dom in Hin. }
  destruct H1 as (H1 & Hn & Hm & Hc). split.
  - rewrite <- insert_delete_eq. apply (insert_entry_ok fs1 _ ie H1); simpl.
    + apply lookup_delete_eq.
    + lia.
    + intros n e [_ He]%lookup_delete_Some. pose proof (ok_ptr _ _ Hok _ _ He). lia.
  - unfold insert_entry. by destruct (tc_unconstrained _).
Qed.

Definition live (reg : gmap string indexedEntry) : registry :=
  (fun e => (ie_entry e, ie_pred e)) <$> reg.

Definition index_rep (fs : IndexedFilterSet) (m : registry) : Prop :=
  ∃ reg, index_ok fs reg ∧ m = live reg.

Lemma index_rep_empty max cb : index_rep (empty_index max cb) ∅.
Proof. exists ∅. split; [apply empty_index_ok|by unfold live; rewrite fmap_empty]. Qed.

Lemma index_rep_add fs m entry expr p :
  index_rep fs m → Parse expr = Ok p →
  ∃ fs', Indexed_Add fs entry expr = (fs', Ok ()) ∧ index_rep fs' (<[Name entry := (entry, p)]> m) ∧
    ix_MaxMatches fs' = ix_MaxMatches fs ∧ ix_OnLimitExceeded fs' = ix_OnLimitExceeded fs.
Proof.
  intros (reg & Hok & ->) Hp. destruct (Indexed_Add_ok _ _ entry _ _ Hok Hp) as (fs' & ? & ? & ?).
  exists fs'. split; [done|]. split; [|done]. eexists. split; [done|]. unfold live. by rewrite fmap_insert.
Qed.

Lemma index_rep_remove fs m n : index_rep fs m → index_rep (Indexed_Remove fs n) (delete n m).
Proof.
  intros (reg & Hok & ->). eexists. split; [by apply removeLocked_ok|]. unfold live. by rewrite fmap_delete.
Qed.
End invariant.

(** ** What the lookups compute *)

(** The entries the index proposes for an event, in the order they are tried. *)
Definition candidates (fs : IndexedFilterSet) (t : string) : list indexedEntry :=
  bucket (exactIndex fs) t
  ++ (ge_entry <$> filter (fun ge => MatchString (ge_rx ge) t = true) (globEntries fs))
  ++ wildcardEntries fs.

(** The first entry for each name not seen yet. *)
Fixpoint uniq (seen : gset string) (l : list indexedEntry) : list indexedEntry :=
  match l with
  | [] => []
  | e :: l' => if decide (ie_name e ∈ seen) then uniq seen l' else e :: uniq ({[ie_name e]} ∪ seen) l'
  end.

Definition hits (a : Attrs) (l : list indexedEntry) : list FilterEntry :=
  ie_entry <$> filter (fun e => Predicate_Match (ie_pred e) a = true) l.

Lemma hits_cons a e l :
  hits a (e :: l) = (if Predicate_Match (ie_pred e) a then [ie_entry e] else []) ++ hits a l.
Proof. unfold hits. rewrite filter_cons. destruct (Predicate_Match _ _); by case_decide. Qed.

Section loops.
Context (max : Z) (cb : bool) (a : Attrs).

Lemma match_entries_done st l : ms_done st = true → match_entries max cb a st l = st.
Proof. intros H. destruct l; simpl; by rewrite ?H. Qed.

Lemma match_entries_app st l1 l2 :
  match_entries max cb a st (l1 ++ l2) = match_entries max cb a (match_entries max cb a st l1) l2.
Proof.
  revert st. induction l1 as [|e l1 IH]; intros st; simpl; [done|].
  destruct (ms_done st) eqn:E; [by rewrite match_entries_done|apply IH].
Qed.

Lemma match_globs_eq t st l :
  match_globs max cb a t st l
  = match_entries max cb a st (ge_entry <$> filter (fun ge => MatchString (ge_rx ge) t = true) l).
Proof.
  revert st. induction l as [|ge l IH]; intros st; simpl; [done|]. rewrite filter_cons.
  destruct (ms_done st) eqn:E; [by rewrite match_entries_done|]. rewrite IH.
  destruct (MatchString (ge_rx ge) t); case_decide; try done. simpl. by rewrite E.
Qed.

Lemma match_entries_spec seen acc l :
  limit_hit max (length acc) = false →
  let st := match_entries max cb a (mkMS seen acc false []) l in
  (ms_matched st, ms_calls st) = collected max cb acc (hits a (uniq seen l)).
Proof.
  cbv zeta. revert seen acc. induction l as [|e l IH]; intros seen acc H; simpl.
  { symmetry. by apply collected_nil. }
  unfold match_add. simpl. case_decide; [by apply IH|]. rewrite hits_cons.
  destruct (Predicate_Match (ie_pred e) a); [|by apply IH]. cbn [app]. rewrite collected_cons by done.
  destruct (limit_hit max (length (acc ++ _))) eqn:Hl; [|by apply IH].
  by rewrite match_entries_done.
Qed.

Lemma ep_entries_done st l : es_done st = true → ep_entries max cb a st l = st.
Proof. intros H. destruct l; simpl; by rewrite ?H. Qed.

Lemma ep_entries_app st l1 l2 :
  ep_entries max cb a st (l1 ++ l2) = ep_entries max cb a (ep_entries max cb a st l1) l2.
Proof.
  revert st. induction l1 as [|e l1 IH]; intros st; simpl; [done|].
  destruct (es_done st) eqn:E; [by rewrite ep_entries_done|apply IH].
Qed.

Lemma ep_globs_eq t st l :
  ep_globs max cb a t st l
  = ep_entries max cb a st (ge_entry <$> filter (fun ge => MatchString (ge_rx ge) t = true) l).
Proof.
  revert st. induction l as [|ge l IH]; intros st; simpl; [done|]. rewrite filter_cons.
  destruct (es_done st) eqn:E; [by rewrite ep_entries_done|]. rewrite IH.
  destruct (MatchString (ge_rx ge) t); case_decide; try done. simpl. by rewrite E.
Qed.

Lemma ep_entries_spec seen shints acc l :
  limit_hit max (length acc) = false →
  let st := ep_entries max cb a (mkES seen shints acc false []) l in
  (es_endpoints st, es_calls st) = collected max cb acc (dedup shints (hints (hits a (uniq seen l)))).
Proof.
  cbv zeta. revert seen shints acc. induction l as [|e l IH]; intros seen shints acc H; simpl.
  { symmetry. by apply collected_nil. }
  unfold ep_add. simpl. case_decide; [by apply IH|]. rewrite hits_cons.
  destruct (Predicate_Match (ie_pred e) a); [|by repeat case_decide; apply IH].
  cbn [app]. rewrite hints_cons. case_decide; [by apply IH|]. cbn [app dedup].
  case_decide; [by apply IH|]. rewrite collected_cons by done.
  destruct (limit_hit max (length (acc ++ _))) eqn:Hl; [|by apply IH].
  by rewrite ep_entries_done.
Qed.
End loops.

Lemma Indexed_Match_eq fs a :
  Indexed_Match fs a = collected (ix_MaxMatches fs) (ix_OnLimitExceeded fs) []
    (hits a (uniq ∅ (candidates fs (event_type a)))).
Proof.
  unfold Indexed_Match. rewrite match_globs_eq, <- !match_entries_app.
  apply match_entries_spec, limit_hit_0.
Qed.

Lemma Indexed_MatchEndpoints_eq fs a :
  Indexed_MatchEndpoints fs a = collected (ix_MaxMatches fs) (ix_OnLimitExceeded fs) []
    (dedup ∅ (hints (hits a (uniq ∅ (candidates fs (event_type a)))))).
Proof.
  unfold Indexed_MatchEndpoints. rewrite ep_globs_eq, <- !ep_entries_app.
  apply ep_entries_spec, limit_hit_0.
Qed.

Lemma Indexed_MatchAny_eq fs a :
  Indexed_MatchAny fs a
  = existsb (fun e => Predicate_Match (ie_pred e) a) (candidates fs (event_type a)).
Proof.
  unfold Indexed_MatchAny, candidates. rewrite !existsb_app.
  destruct (existsb _ (bucket _ _)); simpl; [done|]. induction (globEntries fs) as [|ge l IH]; simpl; [done|].
  rewrite filter_cons. destruct (MatchString (ge_rx ge) _); case_decide; try done; simpl.
  by destruct (Predicate_Match _ _).
Qed.

(** *** The candidates are sound and complete for the registry *)

Lemma candidates_sound fs reg t e : index_ok fs reg → e ∈ candidates fs t → reg !! ie_name e = Some e.
Proof.
  intros Hok. unfold candidates. rewrite !elem_of_app, list_elem_of_fmap.
  setoid_rewrite list_elem_of_filter. intros [H|[(ge & -> & _ & H)|H]].
  - by apply (ok_exact _ _ Hok) in H as [? _].
  - by apply (ok_glob _ _ Hok) in H as [? _].
  - by apply (ok_wild _ _ Hok) in H as [? _].
Qed.

Lemma candidates_complete fs reg a e n :
  index_ok fs reg → reg !! n = Some e → Predicate_Match (ie_pred e) a = true →
  e ∈ candidates fs (event_type a).
Proof.
  intros Hok He Hm. pose proof (ok_key _ _ Hok _ _ He) as <-. unfold candidates.
  rewrite !elem_of_app, list_elem_of_fmap. setoid_rewrite list_elem_of_filter.
  pose proof (extractTypeConstraint_sound _ _ Hm) as Ht.
  destruct (tc_unconstrained (extractTypeConstraint (ie_pred e))) eqn:Hu.
  { right; right. apply (ok_wild _ _ Hok). split; [done|by left]. }
  destruct Ht as [?|[Hx|(rx & Hr & Hx)%existsb_true]]; [congruence| |].
  - left. by apply (ok_exact _ _ Hok).
  - right; left. exists (mkGE rx e). split; [done|]. split; [done|]. by apply (ok_glob _ _ Hok).
Qed.

Lemma elem_of_uniq seen l e :
  (∀ e1 e2, e1 ∈ l → e2 ∈ l → ie_name e1 = ie_name e2 → e1 = e2) →
  e ∈ uniq seen l ↔ e ∈ l ∧ ie_name e ∉ seen.
Proof.
  revert seen. induction l as [|x l IH]; intros seen Hl; simpl; [rewrite elem_of_nil; naive_solver|].
  assert (Hl' : ∀ e1 e2, e1 ∈ l → e2 ∈ l → ie_name e1 = ie_name e2 → e1 = e2).
  { intros e1 e2 ? ?. apply Hl; by right. }
  assert (Hx : e ∈ l → ie_name e = ie_name x → e = x). { intros. apply Hl; [by right|by left|done]. }
  case_decide; rewrite ?elem_of_cons, IH by done; clear IH Hl Hl'; [naive_solver|].
  rewrite not_elem_of_union, not_elem_of_singleton.
  destruct (decide (e = x)) as [->|Hne]; [naive_solver|]. naive_solver.
Qed.

Lemma uniq_NoDup seen l : NoDup (ie_name <$> uniq seen l) ∧ ∀ e, e ∈ uniq seen l → ie_name e ∉ seen.
Proof.
  revert seen. induction l as [|x l IH]; intros seen; simpl.
  { split; [constructor|]. intros e. by rewrite elem_of_nil. }
  case_decide; [apply IH|]. destruct (IH ({[ie_name x]} ∪ seen)) as [Hn Hs]. split.
  - rewrite fmap_cons. constructor; [|done]. intros (e & He & Hin)%list_elem_of_fmap.
    apply Hs in Hin. set_solver.
  - intros e [->|Hin]%elem_of_cons; [done|]. apply Hs in Hin. set_solver.
Qed.

Lemma hits_NoDup a l : NoDup (ie_name <$> l) → NoDup (hits a l).
Proof.
  intros H. apply (NoDup_fmap_inv Name). unfold hits. rewrite <- list_fmap_compose.
  by apply (NoDup_fmap_filter ie_name).
Qed.

Lemma candidates_spec fs reg a e :
  index_ok fs reg →
  e ∈ uniq ∅ (candidates fs (event_type a)) ∧ Predicate_Match (ie_pred e) a = true
  ↔ reg !! ie_name e = Some e ∧ Predicate_Match (ie_pred e) a = true.
Proof.
  intros Hok. rewrite elem_of_uniq.
  - split; intros [H Hm]; (split; [|done]).
    + destruct H as [H _]. by eapply candidates_sound.
    + split; [by eapply candidates_complete|set_solver].
  - intros e1 e2 H1 H2 Heq. apply (candidates_sound _ _ _ _ Hok) in H1, H2. congruence.
Qed.

Lemma elem_of_hits e a l :
  e ∈ hits a l ↔ ∃ ie, ie ∈ l ∧ ie_entry ie = e ∧ Predicate_Match (ie_pred ie) a = true.
Proof. unfold hits. rewrite list_elem_of_fmap. setoid_rewrite list_elem_of_filter. naive_solver. Qed.

Lemma reg_matches_live reg a e :
  reg_matches (live reg) a e ↔
  ∃ n ie, reg !! n = Some ie ∧ ie_entry ie = e ∧ Predicate_Match (ie_pred ie) a = true.
Proof.
  unfold reg_matches, live. setoid_rewrite lookup_fmap. setoid_rewrite fmap_Some. naive_solver.
Qed.

Lemma hits_spec fs reg a e :
  index_ok fs reg →
  e ∈ hits a (uniq ∅ (candidates fs (event_type a))) ↔ reg_matches (live reg) a e.
Proof.
  intros Hok. rewrite elem_of_hits, reg_matches_live. split.
  - intros (ie & Hin & He & Hm). destruct (proj1 (candidates_spec _ _ _ _ Hok) (conj Hin Hm)). eauto.
  - intros (n & ie & Hr & He & Hm). pose proof (ok_key _ _ Hok _ _ Hr) as <-.
    destruct (proj2 (candidates_spec _ _ _ _ Hok) (conj Hr Hm)). eauto.
Qed.

Section results.
Context {fs : IndexedFilterSet} {m : registry} (Hrep : index_rep fs m).

Lemma index_match_enumerates a :
  enumerates (ix_MaxMatches fs) (reg_matches m a) (Indexed_Match fs a).1.
Proof using Hrep.
  destruct Hrep as (reg & Hok & ->). rewrite Indexed_Match_eq. apply cap_spec.
  - apply hits_NoDup, uniq_NoDup.
  - intros e. by apply hits_spec.
Qed.

Lemma index_endpoints_enumerates a :
  enumerates (ix_MaxMatches fs) (reg_endpoint m a) (Indexed_MatchEndpoints fs a).1.
Proof using Hrep.
  destruct Hrep as (reg & Hok & ->). rewrite Indexed_MatchEndpoints_eq. simpl. apply cap_spec.
  - apply dedup_NoDup.
  - intros h. rewrite dedup_elem, elem_of_hints. unfold reg_endpoint.
    setoid_rewrite (hits_spec fs reg a _ Hok). set_solver.
Qed.

Lemma index_any_iff a : Indexed_MatchAny fs a = true ↔ ∃ e, reg_matches m a e.
Proof using Hrep.
  destruct Hrep as (reg & Hok & ->). rewrite Indexed_MatchAny_eq, existsb_true.
  setoid_rewrite reg_matches_live. split.
  - intros (e & Hin & Hm). exists (ie_entry e), (ie_name e), e. eauto using candidates_sound.
  - intros (_ & n & ie & Hr & _ & Hm). eauto using candidates_complete.
Qed.
End results.

(** *** [Stats.Total] counts the registry *)

Lemma elem_of_seen_ptrs fs reg i :
  index_ok fs reg →
  i ∈ seen_ptrs fs ↔ ∃ e, reg !! ie_name e = Some e ∧ ~ in_wild (ie_pred e) ∧ ie_ptr e = i.
Proof.
  intros Hok. unfold seen_ptrs. rewrite elem_of_union, !elem_of_list_to_set, !list_elem_of_fmap. split.
  - intros [(e & -> & Hin)|(ge & -> & Hg)].
    + apply list_elem_of_In, in_concat in Hin as (l & Hl & Hin).
      apply list_elem_of_In, list_elem_of_fmap in Hl as ([v l'] & -> & Hl). apply elem_of_map_to_list in Hl.
      assert (He : e ∈ bucket (exactIndex fs) v).
      { unfold bucket. rewrite Hl. by apply list_elem_of_In. }
      apply (ok_exact _ _ Hok) in He as (? & Hu & Hx). exists e. split; [done|]. split; [|done].
      intros [?|[He _]]; [congruence|]. rewrite He in Hx. set_solver.
    + apply (ok_glob _ _ Hok) in Hg as (? & Hu & Hx). exists (ge_entry ge). split; [done|]. split; [|done].
      intros [?|[_ He]]; [congruence|]. rewrite He in Hx. set_solver.
  - intros (e & Hr & Hw & <-). unfold in_wild in Hw. set (tc := extractTypeConstraint (ie_pred e)) in *.
    destruct (tc_unconstrained tc) eqn:Hu; [by destruct Hw; left|].
    destruct (decide (tc_exact tc = ∅)) as [Hx|(v & Hv)%set_choose_L].
    + destruct (tc_globs tc) as [|rx l] eqn:Hg; [by destruct Hw; right|]. right.
      exists (mkGE rx e). split; [done|]. apply (ok_glob _ _ Hok). simpl. fold tc. rewrite Hg. set_solver.
    + left. exists e. split; [done|].
      assert (He : e ∈ bucket (exactIndex fs) v) by (by apply (ok_exact _ _ Hok)).
      unfold bucket in He. destruct (exactIndex fs !! v) as [l|] eqn:Hl; [|by apply elem_of_nil in He].
      apply list_elem_of_In, in_concat. exists l. split; [|by apply list_elem_of_In].
      apply list_elem_of_In, list_elem_of_fmap. exists (v, l). by rewrite elem_of_map_to_list.
Qed.

Definition reg_ptrs (reg : gmap string indexedEntry) : gset N :=
  list_to_set ((fun ne => ie_ptr ne.2) <$> map_to_list reg).

Lemma elem_of_reg_ptrs fs reg i :
  index_ok fs reg → i ∈ reg_ptrs reg ↔ ∃ e, reg !! ie_name e = Some e ∧ ie_ptr e = i.
Proof.
  intros Hok. unfold reg_ptrs. rewrite elem_of_list_to_set, list_elem_of_fmap. split.
  - intros ([n e] & -> & He%elem_of_map_to_list). exists e. by rewrite (ok_key _ _ Hok _ _ He).
  - intros (e & He & <-). exists (ie_name e, e). by rewrite elem_of_map_to_list.
Qed.

Lemma size_reg_ptrs fs reg : index_ok fs reg → size (reg_ptrs reg) = size reg.
Proof.
  intros Hok. unfold reg_ptrs. rewrite size_list_to_set, length_fmap; [apply length_map_to_list|].
  apply NoDup_fmap_2_strong; [|apply NoDup_map_to_list].
  intros [n1 e1] [n2 e2] H1%elem_of_map_to_list H2%elem_of_map_to_list Heq. simpl in *.
  pose proof (ok_inj _ _ Hok _ _ _ _ H1 H2 Heq) as ->. congruence.
Qed.

Lemma Stats_Total fs reg : index_ok fs reg → Total (Indexed_Stats fs) = size reg.
Proof.
  intros Hok. simpl. rewrite <- (size_reg_ptrs fs reg Hok).
  set (W := list_to_set (ie_ptr <$> wildcardEntries fs) : gset N).
  assert (HW : size W = length (wildcardEntries fs)).
  { unfold W. rewrite size_list_to_set; [apply length_fmap|].
    apply NoDup_fmap_2_strong; [|apply (ok_wild_nodup _ _ Hok)].
    intros e1 e2 [H1 _]%(ok_wild _ _ Hok) [H2 _]%(ok_wild _ _ Hok) Heq.
    pose proof (ok_inj _ _ Hok _ _ _ _ H1 H2 Heq). congruence. }
  assert (HWe : ∀ i, i ∈ W ↔ ∃ e, reg !! ie_name e = Some e ∧ in_wild (ie_pred e) ∧ ie_ptr e = i).
  { intros i. unfold W. rewrite elem_of_list_to_set, list_elem_of_fmap.
    setoid_rewrite (ok_wild _ _ Hok). naive_solver. }
  rewrite <- HW, <- size_union.
  - f_equal. apply set_eq. intros i.
    rewrite elem_of_union, (elem_of_seen_ptrs _ _ _ Hok), HWe, (elem_of_reg_ptrs _ _ _ Hok).
    split; [naive_solver|]. intros (e & He & Hi).
    assert (Dec : in_wild (ie_pred e) ∨ ~ in_wild (ie_pred e)).
    { unfold in_wild. destruct (decide (tc_unconstrained (extractTypeConstraint (ie_pred e)) = true));
        destruct (decide (tc_exact (extractTypeConstraint (ie_pred e)) = ∅));
        destruct (decide (tc_globs (extractTypeConstraint (ie_pred e)) = [])); tauto. }
    destruct Dec; eauto.
  - intros i (e1 & H1 & N1 & E1)%(elem_of_seen_ptrs _ _ _ Hok) (e2 & H2 & W2 & E2)%HWe.
    assert (ie_name e1 = ie_name e2) by (eapply (ok_inj _ _ Hok); eauto; congruence). congruence.
Qed.

(** ** The contract and the reachable states *)
#[global] Instance Indexed_IFilterSet `{UnicodeTables} : IFilterSet IndexedFilterSet := {|
  if_Add := Indexed_Add; if_Remove := Indexed_Remove;
  if_Match := fun s a => (Indexed_Match s a).1;
  if_MatchEndpoints := fun s a => (Indexed_MatchEndpoints s a).1;
  if_MatchAny := Indexed_MatchAny; if_MaxMatches := ix_MaxMatches |}.

Section contract.
Context `{UT : UnicodeTables}.

#[global] Instance Indexed_laws : FilterSetLaws IndexedFilterSet index_rep.
Proof.
  split; simpl.
  - intros s entry expr e He. unfold Indexed_Add. by rewrite He.
  - intros s m entry expr p Hr _ Hp.
    destruct (index_rep_add s m entry expr p Hr Hp) as (s' & ? & ? & ? & _). eauto.
  - intros s m n Hr. split; [by apply index_rep_remove|done].
  - intros s m a Hr. by apply index_match_enumerates.
  - intros s m a Hr. by apply index_endpoints_enumerates.
  - intros s m a Hr. by apply index_any_iff.
Qed.

Lemma index_rep_steps fs m ops :
  index_rep fs m → index_rep (foldl if_step fs ops) (foldl reg_step m ops) ∧
  ix_MaxMatches (foldl if_step fs ops) = ix_MaxMatches fs.
Proof.
  revert fs m. induction ops as [|o ops IH]; intros fs m Hr; simpl; [done|].
  enough (index_rep (if_step fs o) (reg_step m o) ∧ ix_MaxMatches (if_step fs o) = ix_MaxMatches fs) as [Hs Hm].
  { rewrite <- Hm. by apply IH. }
  destruct o as [entry expr|n]; simpl.
  - destruct (Parse expr) as [p|e] eqn:E.
    + destruct (index_rep_add fs m entry expr p Hr E) as (s' & -> & ? & ? & _). done.
    + unfold Indexed_Add. by rewrite E.
  - split; [by apply index_rep_remove|done].
Qed.

(** C3: after any history of [Add] (new names, re-registrations and
    unparsable expressions alike) and [Remove] on an empty [IndexedFilterSet],
    [Match] and [MatchEndpoints] list exactly the entries and the distinct
    non-empty hints of the filters whose latest version matches, each once, all
    of them unless [MaxMatches] cuts the list at its bound; [MatchAny] is whether
    there is one; and [Stats] counts the registered filters.  The type index never
    loses a match, and a replaced or removed filter never matches again. *)
Theorem IndexedFilterSet_refines_registry max cb ops a :
  let fs := foldl if_step (empty_index max cb) ops in
  let m := foldl reg_step ∅ ops in
  enumerates max (reg_matches m a) (Indexed_Match fs a).1 ∧
  enumerates max (reg_endpoint m a) (Indexed_MatchEndpoints fs a).1 ∧
  (Indexed_MatchAny fs a = true ↔ ∃ e, reg_matches m a e) ∧
  Total (Indexed_Stats fs) = size m.
Proof.
  cbv zeta. destruct (index_rep_steps _ _ ops (index_rep_empty max cb)) as [Hr Hm]. simpl in Hm.
  pose proof (index_match_enumerates Hr a) as H1. pose proof (index_endpoints_enumerates Hr a) as H2.
  rewrite Hm in H1, H2. split; [done|]. split; [done|]. split; [by apply index_any_iff|].
  destruct Hr as (reg & Hok & ->). rewrite (Stats_Total _ _ Hok). unfold live. by rewrite map_size_fmap.
Qed.

(** the linear and the indexed set are interchangeable, as the
    [IFilterSet] contract says, for every history in which no [Add] reuses the
    name of a live filter: without a limit they return the same matches and the
    same endpoints up to order, and the same [MatchAny]. *)
Theorem filter_sets_interchangeable cb1 cb2 ops a :
  fresh_ops ∅ ops →
  let s1 := foldl if_step (mkFilterSet 0 cb1 []) ops in
  let s2 := foldl if_step (empty_index 0 cb2) ops in
  FilterSet_MatchAny s1 a = Indexed_MatchAny s2 a ∧
  (FilterSet_Match s1 a).1 ≡ₚ (Indexed_Match s2 a).1 ∧
  (FilterSet_MatchEndpoints s1 a).1 ≡ₚ (Indexed_MatchEndpoints s2 a).1.
Proof.
  intros Hf. cbv zeta.
  refine (filter_sets_agree (rep1 := filterset_rep) (rep2 := index_rep)
    (mkFilterSet 0 cb1 []) (empty_index 0 cb2) ops a _ _ _ _ Hf); try done.
  - split; [constructor|]. intros n e p. rewrite lookup_empty, elem_of_nil. naive_solver.
  - apply index_rep_empty.
Qed.

(** the type constraint extracted from a predicate is never too
    narrow: a predicate that matches an event is filed under the event's type,
    under a glob that accepts it, or with the unconstrained filters. *)
Theorem extractTypeConstraint_safe p a :
  Predicate_Match p a = true →
  in_wild p ∨ event_type a ∈ tc_exact (extractTypeConstraint p) ∨
  glob_hit (tc_globs (extractTypeConstraint p)) (event_type a) = true.
Proof. intros [?|?]%extractTypeConstraint_sound; [by left; left|by right]. Qed.
End contract.

#[local] Existing Instance latin1_tables.

(** A concrete history: two filters on the type, one re-registered with a
    glob, one removed and one that does not parse. *)
Definition sample_ops : list fop :=
  [ OpAdd (mkEntry "orders" "nats.orders" ∅) "type = 'order.created' AND subject = 'a'";
    OpAdd (mkEntry "all" "nats.all" ∅) "NOT source = 'test'";
    OpAdd (mkEntry "bad" "nats.bad" ∅) "type =";
    OpAdd (mkEntry "users" "nats.users" ∅) "type LIKE 'user.*'";
    OpRemove "users" ].

Definition sample_attrs : Attrs := <["type" := "order.created"]> {["subject" := "a"]}.

Lemma sample_fresh : fresh_ops ∅ sample_ops.
Proof. vm_compute. repeat split. Qed.

Lemma filter_sets_interchangeable_witness :
  fresh_ops ∅ sample_ops ∧
  Name <$> (Indexed_Match (foldl if_step (empty_index 0 false) sample_ops) sample_attrs).1
    = ["orders"; "all"] ∧
  (FilterSet_Match (foldl if_step (mkFilterSet 0 false []) sample_ops) sample_attrs).1
  ≡ₚ (Indexed_Match (foldl if_step (empty_index 0 false) sample_ops) sample_attrs).1.
Proof.
  split; [exact sample_fresh|]. split; [vm_compute; reflexivity|].
  apply (filter_sets_interchangeable false false sample_ops sample_attrs sample_fresh).
Defined.

Lemma extractTypeConstraint_safe_witness :
  Predicate_Match (andPred (eqPred "type" "order.created") (existsPred "subject")) sample_attrs = true ∧
  tc_exact (extractTypeConstraint (andPred (eqPred "type" "order.created") (existsPred "subject")))
    = {["order.created"]} ∧
  (in_wild (andPred (eqPred "type" "order.created") (existsPred "subject")) ∨
   event_type sample_attrs ∈
     tc_exact (extractTypeConstraint (andPred (eqPred "type" "order.created") (existsPred "subject"))) ∨
   glob_hit (tc_globs (extractTypeConstraint
     (andPred (eqPred "type" "order.created") (existsPred "subject")))) (event_type sample_attrs) = true).
Proof.
  split; [reflexivity|]. split; [reflexivity|].
  apply (extractTypeConstraint_safe _ sample_attrs). reflexivity.
Defined.

(** Re-registering a name: the linear set keeps both versions, the indexed set
    only the latest. *)
Example duplicate_names_differ :
  let ops := [ OpAdd (mkEntry "r" "h" ∅) "type = 'a'"; OpAdd (mkEntry "r" "h" ∅) "type = 'b'" ] in
  let a : Attrs := {["type" := "a"]} in
  Name <$> (FilterSet_Match (foldl if_step (mkFilterSet 0 false []) ops) a).1 = ["r"] ∧
  (Indexed_Match (foldl if_step (empty_index 0 false) ops) a).1 = [].
Proof. vm_compute. done. Qed.
