(* ===== verification/Claims.v ===== *)
(** * Claims principals ([services/common/claimsprincipal/claimsprincipal.go])

    The request's bag of claims: a map from claim types to value lists with a
    second map ([fastMap]) for membership.  The contract [IClaimsPrincipal] is a
    class whose laws relate an implementation to a finite set of claims; the
    authorization components are proved against the class, and the two-map
    implementation is shown to satisfy it.  A Go panic is [None]. *)
From S2P Require Import Prelude GoText.
From stdpp Require Import options.

(** ** Claims ([contracts/common/claimsprincipal.go]) *)
Record Claim := mkClaim { cl_Type : string; cl_Value : string }.

#[global] Instance Claim_eq_dec : EqDecision Claim.
Proof. solve_decision. Defined.
#[global] Instance Claim_countable : Countable Claim.
Proof.
  refine (inj_countable' (fun c => (cl_Type c, cl_Value c)) (fun p => mkClaim p.1 p.2) _). by intros [].
Defined.

(** [wellknown/claim-types.go]. *)
Definition ClaimTypeSub : string := "sub".
Definition ClaimTypeAud : string := "aud".
Definition ClaimTypeIss : string := "iss".
Definition ClaimTypeClientID : string := "client_id".
Definition ClaimTypeEmail : string := "email".
Definition ClaimTypeScope : string := "scope".
Definition ClaimTypePermissions : string := "permissions".
Definition AnonymousSubject : string := "anonymous".
Definition MTLSClaimTypePrefix : string := "mtls_".
Definition ClaimTypeMTLSVerified : string := "mtls_verified".
Definition ClaimTypeMTLSCommonName : string := "mtls_cn".
Definition ClaimTypeMTLSFingerprint : string := "mtls_fingerprint".
Definition ClaimTypeMTLSSANURI : string := "mtls_san_uri".

(** ** The contract *)
Class IClaimsPrincipal (P : Type) := {
  GetClaims : P → list Claim;
  HasClaim : P → Claim → bool;
  AddClaim : P → list Claim → P;
  RemoveClaim : P → list Claim → option P;
  RemoveClaimType : P → list string → P;
  GetClaimsByType : P → string → list Claim;
  HasClaimType : P → string → bool }.

(** Claims without a type are never added. *)
Definition typed (cs : list Claim) : gset Claim :=
  list_to_set (filter (fun c => cl_Type c ≠ "") cs).

Definition without_types (ts : list string) (S : gset Claim) : gset Claim :=
  filter (fun c => cl_Type c ∉ ts) S.

(** A principal stands for a set of claims: [rep p S]. *)
Class ClaimsLaws (P : Type) `{IClaimsPrincipal P} (rep : P → gset Claim → Prop) := {
  law_AddClaim p S cs : rep p S → rep (AddClaim p cs) (S ∪ typed cs);
  law_RemoveClaim p S cs :
    rep p S → ∃ p', RemoveClaim p cs = Some p' ∧ rep p' (S ∖ list_to_set cs);
  law_RemoveClaimType p S ts : rep p S → rep (RemoveClaimType p ts) (without_types ts S);
  law_HasClaim p S c : rep p S → HasClaim p c = true ↔ c ∈ S;
  law_HasClaimType p S t : rep p S → HasClaimType p t = true ↔ ∃ v, mkClaim t v ∈ S;
  law_GetClaims p S : rep p S → NoDup (GetClaims p) ∧ ∀ c, c ∈ GetClaims p ↔ c ∈ S;
  law_GetClaimsByType p S t :
    rep p S → NoDup (GetClaimsByType p t) ∧ ∀ c, c ∈ GetClaimsByType p t ↔ c ∈ S ∧ cl_Type c = t }.

(** ** The implementation *)
Module Principal.

Record claimsPrincipal := mkCP {
  claims : gmap string (list string);
  fastMap : gmap string (gmap string bool) }.

Definition NewIClaimsPrincipal : claimsPrincipal := mkCP ∅ ∅.

(** [removeIndex]: the last element takes the removed one's place. *)
Definition removeIndex (s : list string) (index : nat) : option (list string) :=
  if (length s <=? index)%nat then None
  else
    let s := <[index := default "" (s !! (length s - 1)%nat)]> s in
    let s := <[(length s - 1)%nat := ""]> s in
    Some (take (length s - 1) s).

Definition remove_type (c : claimsPrincipal) (claimType : string) : claimsPrincipal :=
  match claims c !! claimType with
  | None => c
  | Some _ => mkCP (delete claimType (claims c)) (delete claimType (fastMap c))
  end.

Definition cp_RemoveClaimType (c : claimsPrincipal) (claimTypes : list string) : claimsPrincipal :=
  foldl remove_type c claimTypes.

(** [for idx, value := range claims { if value == claim.Value { ...; break } }]. *)
Fixpoint find_index (v : string) (l : list string) : option nat :=
  match l with
  | [] => None
  | x :: l' => if decide (x = v) then Some 0%nat else S <$> find_index v l'
  end.

Definition remove_claim (c : claimsPrincipal) (claim : Claim) : option claimsPrincipal :=
  match claims c !! cl_Type claim with
  | None => Some c
  | Some vs =>
    match find_index (cl_Value claim) vs with
    | None => Some c
    | Some idx =>
      vs' ← removeIndex vs idx;
      if decide (vs' = []) then
        Some (mkCP (delete (cl_Type claim) (claims c)) (delete (cl_Type claim) (fastMap c)))
      else
        Some (mkCP (<[cl_Type claim := vs']> (claims c))
                (alter (delete (cl_Value claim)) (cl_Type claim) (fastMap c)))
    end
  end.

Definition cp_RemoveClaim (c : claimsPrincipal) (cs : list Claim) : option claimsPrincipal :=
  foldl (fun o claim => c ← o; remove_claim c claim) (Some c) cs.

Definition cp_HasClaimType (c : claimsPrincipal) (claimType : string) : bool :=
  match claims c !! claimType with Some _ => true | None => false end.

Definition cp_GetClaimsByType (c : claimsPrincipal) (claimType : string) : list Claim :=
  match claims c !! claimType with
  | None => []
  | Some vs => mkClaim claimType <$> vs
  end.

Definition cp_HasClaim (c : claimsPrincipal) (claim : Claim) : bool :=
  match fastMap c !! cl_Type claim with
  | None => false
  | Some parent => match parent !! cl_Value claim with Some _ => true | None => false end
  end.

Definition addFastMapClaim (fm : gmap string (gmap string bool)) (claim : Claim) : gmap string (gmap string bool) :=
  let parent := match fm !! cl_Type claim with Some p => p | None => ∅ end in
  <[cl_Type claim := <[cl_Value claim := true]> parent]> fm.

Definition add_claim (c : claimsPrincipal) (claim : Claim) : claimsPrincipal :=
  if decide (cl_Type claim = "") then c
  else if cp_HasClaim c claim then c
  else
    let vs := default [] (claims c !! cl_Type claim) in
    mkCP (<[cl_Type claim := vs ++ [cl_Value claim]]> (claims c)) (addFastMapClaim (fastMap c) claim).

Definition cp_AddClaim (c : claimsPrincipal) (cs : list Claim) : claimsPrincipal := foldl add_claim c cs.

(** [GetClaims] ranges over a map: the loop for a given iteration order. *)
Fixpoint claims_in_order (o : list (string * list string)) : list Claim :=
  match o with
  | [] => []
  | (t, vs) :: o' => (mkClaim t <$> vs) ++ claims_in_order o'
  end.

Definition cp_GetClaims (c : claimsPrincipal) : list Claim := claims_in_order (map_to_list (claims c)).

#[global] Instance principal_ops : IClaimsPrincipal claimsPrincipal := {|
  GetClaims := cp_GetClaims; HasClaim := cp_HasClaim; AddClaim := cp_AddClaim;
  RemoveClaim := cp_RemoveClaim; RemoveClaimType := cp_RemoveClaimType;
  GetClaimsByType := cp_GetClaimsByType; HasClaimType := cp_HasClaimType |}.

(** *** The invariant of the two maps, and the set they stand for *)
Record principal_rep (c : claimsPrincipal) (S : gset Claim) : Prop := {
  rep_vals t vs : claims c !! t = Some vs → vs ≠ [] ∧ NoDup vs;
  rep_claims t v : mkClaim t v ∈ S ↔ ∃ vs, claims c !! t = Some vs ∧ v ∈ vs;
  rep_fast t v : mkClaim t v ∈ S ↔ ∃ m, fastMap c !! t = Some m ∧ is_Some (m !! v);
  rep_fast_dom t : is_Some (fastMap c !! t) → is_Some (claims c !! t) }.

Lemma principal_rep_new : principal_rep NewIClaimsPrincipal ∅.
Proof. split; simpl; intros *; rewrite ?lookup_empty; naive_solver set_solver. Qed.

Lemma rep_HasClaim c S cl : principal_rep c S → cp_HasClaim c cl = true ↔ cl ∈ S.
Proof.
  intros H. destruct cl as [t v]. rewrite (rep_fast _ _ H). unfold cp_HasClaim. simpl.
  destruct (fastMap c !! t) as [m|]; [|naive_solver].
  destruct (m !! v) eqn:E; split; try done.
  - intros _. exists m. rewrite E. eauto.
  - intros (m' & [= <-] & [x Hx]). congruence.
Qed.

Lemma rep_add_claim c S cl :
  principal_rep c S → principal_rep (add_claim c cl) (S ∪ typed [cl]).
Proof.
  intros H. unfold add_claim, typed. rewrite filter_cons, filter_nil. case_decide as Ht.
  { rewrite decide_False by auto. simpl. by rewrite (right_id_L ∅ (∪)). }
  rewrite decide_True by done. simpl. rewrite (right_id_L ∅ (∪)).
  destruct (cp_HasClaim c cl) eqn:Hh.
  { apply (rep_HasClaim _ _ _ H) in Hh. by replace (S ∪ {[cl]}) with S by set_solver. }
  assert (Hn : cl ∉ S) by (rewrite <- (rep_HasClaim _ _ _ H); congruence).
  destruct cl as [t v]. destruct H as [Hv Hc Hf Hd]. simpl in *. rewrite Hc in Hn.
  split; simpl; unfold addFastMapClaim; simpl.
  - intros t' vs [[<- <-]|[Hne Hl]]%lookup_insert_Some; [|by eauto]. split; [by destruct (default [] _)|].
    apply NoDup_app. split; [|split; [|apply NoDup_singleton]].
    + destruct (claims c !! t) as [vs|] eqn:E; simpl; [by eapply Hv|constructor].
    + intros x Hx ->%list_elem_of_singleton. apply Hn.
      destruct (claims c !! t); simpl in *; [eauto|by apply elem_of_nil in Hx].
  - intros t' v'. rewrite elem_of_union, elem_of_singleton, Hc. destruct (decide (t' = t)) as [->|Hne].
    + rewrite lookup_insert_eq. transitivity (v' ∈ default [] (claims c !! t) ++ [v]); [|naive_solver].
      rewrite elem_of_app, list_elem_of_singleton. clear. destruct (claims c !! t) as [vs|]; simpl.
      * naive_solver.
      * rewrite elem_of_nil. naive_solver.
    + rewrite lookup_insert_ne by done. naive_solver.
  - intros t' v'. rewrite elem_of_union, elem_of_singleton, Hf. destruct (decide (t' = t)) as [->|Hne].
    + rewrite lookup_insert_eq. destruct (decide (v' = v)) as [->|Hv'].
      { split; [|by right]. intros _. eexists. split; [done|]. by rewrite lookup_insert_eq. }
      destruct (fastMap c !! t) as [m|]; split;
        [intros [(m' & [= <-] & ?)|[= ?]]|intros (m' & [= <-] & Hm)
        |intros [(m' & [=] & ?)|[= ?]]|intros (m' & [= <-] & Hm)]; try done.
      * eexists. split; [done|]. by rewrite lookup_insert_ne.
      * left. rewrite lookup_insert_ne in Hm by done. eauto.
      * rewrite lookup_insert_ne, lookup_empty in Hm by done. by destruct Hm.
    + rewrite lookup_insert_ne by done. naive_solver.
  - intros t'. destruct (decide (t' = t)) as [->|Hne]; [rewrite !lookup_insert_eq; eauto|].
    rewrite !lookup_insert_ne by done. apply Hd.
Qed.

Lemma rep_AddClaim c S cs : principal_rep c S → principal_rep (cp_AddClaim c cs) (S ∪ typed cs).
Proof.
  revert c S. induction cs as [|cl cs IH]; intros c S H; simpl.
  { by replace (S ∪ typed []) with S by (unfold typed; set_solver). }
  replace (S ∪ typed (cl :: cs)) with ((S ∪ typed [cl]) ∪ typed cs); [by apply IH, rep_add_claim|].
  unfold typed. rewrite (filter_cons _ cl cs), (filter_cons _ cl []).
  case_decide; simpl; set_solver.
Qed.

(** *** Removal *)

Lemma find_index_Some v l i : find_index v l = Some i → l !! i = Some v.
Proof.
  revert i. induction l as [|x l IH]; intros i; simpl; [done|]. case_decide as Hx.
  - intros [= <-]. by subst.
  - intros (j & Hj & ->)%fmap_Some. by apply IH.
Qed.

Lemma find_index_None v l : find_index v l = None → v ∉ l.
Proof.
  induction l as [|x l IH]; simpl; [intros _; apply not_elem_of_nil|]. case_decide; [done|].
  intros ?%fmap_None. rewrite elem_of_cons. naive_solver.
Qed.

(** [removeIndex] never panics on an index that was found, and removes just
    that element, up to order. *)
Lemma removeIndex_spec s i v :
  s !! i = Some v → ∃ s', removeIndex s i = Some s' ∧ s ≡ₚ v :: s'.
Proof.
  intros Hi. pose proof (lookup_lt_Some _ _ _ Hi) as Hlt. unfold removeIndex.
  destruct (Nat.leb_spec (length s) i); [lia|]. eexists. split; [done|].
  destruct s as [|w s0 _] using rev_ind; [done|].
  rewrite !length_insert, length_app. cbn [length]. replace (length s0 + 1 - 1)%nat with (length s0) by lia.
  rewrite take_insert_ge by lia. rewrite (list_lookup_middle s0 [] w (length s0)) by done. cbn [default].
  rewrite length_app in Hlt. cbn [length] in Hlt. destruct (decide (i < length s0)%nat) as [Hlt'|Hge].
  - rewrite lookup_app_l in Hi by done. rewrite insert_app_l by done.
    rewrite take_app_length' by (by rewrite length_insert).
    rewrite insert_take_drop by done. rewrite <- (take_drop_middle s0 i v Hi) at 1. solve_Permutation.
  - assert (i = length s0) as -> by lia. rewrite list_lookup_middle in Hi by done. injection Hi as ->.
    rewrite take_insert_ge by lia. rewrite take_app_length. solve_Permutation.
Qed.

Lemma elem_of_without_types ts S c : c ∈ without_types ts S ↔ c ∈ S ∧ cl_Type c ∉ ts.
Proof. unfold without_types. rewrite elem_of_filter. tauto. Qed.

Lemma rep_delete_type c S t :
  principal_rep c S →
  principal_rep (mkCP (delete t (claims c)) (delete t (fastMap c))) (without_types [t] S).
Proof.
  intros [Hv Hc Hf Hd].
  assert (Hmem : ∀ t' v', mkClaim t' v' ∈ without_types [t] S ↔ mkClaim t' v' ∈ S ∧ t' ≠ t).
  { intros. rewrite elem_of_without_types, list_elem_of_singleton. done. }
  split; simpl.
  - intros t' l [_ Hl]%lookup_delete_Some. eauto.
  - intros t' v'. rewrite Hmem, Hc. setoid_rewrite lookup_delete_Some. naive_solver.
  - intros t' v'. rewrite Hmem, Hf. setoid_rewrite lookup_delete_Some. naive_solver.
  - intros t' [m [Hne Hm]%lookup_delete_Some]. rewrite lookup_delete_ne by done. eauto.
Qed.

(** Replacing the values of a type by all but one of them. *)
Lemma rep_drop_value c S t v vs vs' :
  principal_rep c S → claims c !! t = Some vs → vs ≡ₚ v :: vs' → vs' ≠ [] →
  principal_rep (mkCP (<[t := vs']> (claims c)) (alter (delete v) t (fastMap c))) (S ∖ {[mkClaim t v]}).
Proof.
  intros [Hv Hc Hf Hd] Et Hp Hnil. destruct (Hv t vs Et) as [_ Hnd]. rewrite Hp in Hnd.
  apply NoDup_cons in Hnd as [Hvn Hnd'].
  assert (Hmem : ∀ t' v', mkClaim t' v' ∈ S ∖ {[mkClaim t v]} ↔ mkClaim t' v' ∈ S ∧ (t' ≠ t ∨ v' ≠ v)).
  { intros t' v'. rewrite elem_of_difference, elem_of_singleton.
    destruct (decide (t' = t)), (decide (v' = v)); naive_solver. }
  split; simpl.
  - intros t' l [[<- <-]|[_ Hl]]%lookup_insert_Some; [done|eauto].
  - intros t' v'. rewrite Hmem, Hc. destruct (decide (t' = t)) as [->|Hne].
    + rewrite lookup_insert_eq, Et. pose proof (elem_of_cons vs' v' v) as He. rewrite <- Hp in He. naive_solver.
    + rewrite lookup_insert_ne by done. naive_solver.
  - intros t' v'. rewrite Hmem, Hf. destruct (decide (t' = t)) as [->|Hne].
    + rewrite lookup_alter_eq. destruct (fastMap c !! t) as [m|]; simpl; [|naive_solver].
      destruct (decide (v' = v)) as [->|Hv'].
      * split; [naive_solver|]. intros (m' & [= <-] & Hm). rewrite lookup_delete_eq in Hm. by destruct Hm.
      * split; [intros [(m' & [= <-] & Hm) _]|intros (m' & [= <-] & Hm)].
        { eexists. split; [done|]. by rewrite lookup_delete_ne. }
        { rewrite lookup_delete_ne in Hm by done. eauto. }
    + rewrite lookup_alter_ne by done. naive_solver.
  - intros t'. destruct (decide (t' = t)) as [->|Hne]; [rewrite lookup_insert_eq; eauto|].
    rewrite lookup_alter_ne, lookup_insert_ne by done. apply Hd.
Qed.

Lemma rep_remove_claim c S cl :
  principal_rep c S → ∃ c', remove_claim c cl = Some c' ∧ principal_rep c' (S ∖ {[cl]}).
Proof.
  intros H. destruct cl as [t v]. unfold remove_claim. cbn [cl_Type cl_Value].
  pose proof (rep_claims _ _ H t) as Hc. destruct (claims c !! t) as [vs|] eqn:Et.
  2: { exists c. split; [done|]. replace (S ∖ {[mkClaim t v]}) with S; [done|].
       assert (mkClaim t v ∉ S) by (rewrite Hc; naive_solver). set_solver. }
  destruct (find_index v vs) as [i|] eqn:Ei.
  2: { apply find_index_None in Ei. exists c. split; [done|]. replace (S ∖ {[mkClaim t v]}) with S; [done|].
       assert (mkClaim t v ∉ S) by (rewrite Hc; naive_solver). set_solver. }
  apply find_index_Some in Ei. destruct (removeIndex_spec vs i v Ei) as (vs' & -> & Hp). simpl.
  case_decide as Hnil; (eexists; split; [done|]); [|by eapply rep_drop_value].
  replace (S ∖ {[mkClaim t v]}) with (without_types [t] S); [by apply rep_delete_type|].
  apply set_eq. intros [t' v']. rewrite elem_of_without_types, list_elem_of_singleton. simpl.
  rewrite elem_of_difference, elem_of_singleton. split; [naive_solver|]. intros [HS Hne]. split; [done|].
  intros ->. apply Hc in HS as (vs0 & [= <-] & Hv). rewrite Hp, Hnil, list_elem_of_singleton in Hv. naive_solver.
Qed.

Lemma rep_RemoveClaim c S cs :
  principal_rep c S → ∃ c', cp_RemoveClaim c cs = Some c' ∧ principal_rep c' (S ∖ list_to_set cs).
Proof.
  revert c S. induction cs as [|cl cs IH]; intros c S H; simpl.
  { exists c. split; [done|]. by replace (S ∖ ∅) with S by set_solver. }
  destruct (rep_remove_claim c S cl H) as (c1 & E & H1). unfold cp_RemoveClaim. simpl. rewrite E.
  destruct (IH _ _ H1) as (c2 & ? & ?). exists c2. split; [done|].
  by replace (S ∖ ({[cl]} ∪ list_to_set cs)) with (S ∖ {[cl]} ∖ list_to_set cs) by set_solver.
Qed.

Lemma rep_RemoveClaimType c S ts :
  principal_rep c S → principal_rep (cp_RemoveClaimType c ts) (without_types ts S).
Proof.
  revert c S. induction ts as [|t ts IH]; intros c S H; simpl.
  { replace (without_types [] S) with S; [done|]. apply set_eq. intros x.
    rewrite elem_of_without_types. pose proof (not_elem_of_nil (cl_Type x)). tauto. }
  replace (without_types (t :: ts) S) with (without_types ts (without_types [t] S)).
  - apply IH. unfold remove_type. destruct (claims c !! t) as [vs|] eqn:Et; [by apply rep_delete_type|].
    replace (without_types [t] S) with S; [done|]. apply set_eq. intros [t' v'].
    rewrite elem_of_without_types, list_elem_of_singleton. simpl. split; [|tauto]. intros HS. split; [done|].
    intros ->. apply (rep_claims _ _ H) in HS. rewrite Et in HS. naive_solver.
  - apply set_eq. intros x. rewrite !elem_of_without_types, !elem_of_cons.
    pose proof (not_elem_of_nil (cl_Type x)). tauto.
Qed.

(** *** Queries *)

Lemma rep_HasClaimType c S t :
  principal_rep c S → cp_HasClaimType c t = true ↔ ∃ v, mkClaim t v ∈ S.
Proof.
  intros H. setoid_rewrite (rep_claims _ _ H). unfold cp_HasClaimType.
  destruct (claims c !! t) as [vs|] eqn:Et; [|naive_solver]. split; [|done]. intros _.
  destruct (rep_vals _ _ H _ _ Et) as [Hne _]. destruct vs as [|v vs]; [done|].
  exists v, (v :: vs). split; [done|left].
Qed.

Lemma rep_GetClaimsByType c S t :
  principal_rep c S →
  NoDup (cp_GetClaimsByType c t) ∧ ∀ cl, cl ∈ cp_GetClaimsByType c t ↔ cl ∈ S ∧ cl_Type cl = t.
Proof.
  intros H. unfold cp_GetClaimsByType. pose proof (rep_claims _ _ H t) as Hc.
  destruct (claims c !! t) as [vs|] eqn:Et.
  - split; [apply NoDup_fmap_2; [by intros ?? [=]|by eapply rep_vals]|].
    intros [t' v']. rewrite list_elem_of_fmap. simpl. split.
    + intros (v & [= -> ->] & Hv). split; [|done]. rewrite Hc. eauto.
    + intros [HS ->]. apply Hc in HS as (? & [= <-] & ?). eauto.
  - split; [constructor|]. intros [t' v']. rewrite elem_of_nil. split; [done|]. simpl.
    intros [HS ->]. apply Hc in HS. naive_solver.
Qed.

Lemma elem_of_claims_in_order o t v :
  mkClaim t v ∈ claims_in_order o ↔ ∃ vs, (t, vs) ∈ o ∧ v ∈ vs.
Proof.
  induction o as [|[t' vs'] o IH]; simpl; [rewrite elem_of_nil; split; [done|]; intros (? & ?%elem_of_nil & _); done|].
  rewrite elem_of_app, list_elem_of_fmap, IH. setoid_rewrite elem_of_cons. naive_solver.
Qed.

Lemma NoDup_claims_in_order o :
  NoDup (fst <$> o) → (∀ t vs, (t, vs) ∈ o → NoDup vs) → NoDup (claims_in_order o).
Proof.
  induction o as [|[t vs] o IH]; simpl; [constructor|]. rewrite NoDup_cons. intros [Ht Ho] Hvs.
  apply NoDup_app. split; [|split].
  - apply NoDup_fmap_2; [by intros ?? [=]|]. apply (Hvs t). left.
  - intros [t' v'] (v & [= -> ->] & _)%list_elem_of_fmap (vs' & Hin & _)%elem_of_claims_in_order.
    apply Ht. apply list_elem_of_fmap. by exists (t, vs').
  - apply IH; [done|]. intros t' vs' Hin. apply (Hvs t'). by right.
Qed.

(** Whatever order the map is ranged in. *)
Lemma rep_GetClaims_order c S o :
  principal_rep c S → o ≡ₚ map_to_list (claims c) →
  NoDup (claims_in_order o) ∧ ∀ cl, cl ∈ claims_in_order o ↔ cl ∈ S.
Proof.
  intros H Ho.
  assert (Hin : ∀ t vs, (t, vs) ∈ o ↔ claims c !! t = Some vs).
  { intros. by rewrite Ho, elem_of_map_to_list. }
  split.
  - apply NoDup_claims_in_order; [rewrite Ho; apply NoDup_fst_map_to_list|].
    intros t vs ?%Hin. by eapply rep_vals.
  - intros [t v]. rewrite elem_of_claims_in_order, (rep_claims _ _ H). by setoid_rewrite Hin.
Qed.

#[global] Instance principal_laws : ClaimsLaws claimsPrincipal principal_rep.
Proof.
  split; simpl.
  - apply rep_AddClaim.
  - apply rep_RemoveClaim.
  - apply rep_RemoveClaimType.
  - apply rep_HasClaim.
  - apply rep_HasClaimType.
  - intros p S H. by apply (rep_GetClaims_order p S _ H).
  - apply rep_GetClaimsByType.
Qed.
End Principal.
Export (hints) Principal.

(** ** Importing claims from a decoded token *)
Section import.
(** [float64] values and their [%v] rendering. *)
Context {F : Type} (fmt_float : F → string).

(** The dynamic types [ClaimsPrincipalFromClaimsMap] distinguishes. *)
Inductive claim_value :=
| CVFloat (f : F)
| CVBool (b : bool)
| CVString (s : string)
| CVArray (l : list claim_value)
| CVStrings (l : list string)
| CVOther.

Definition NewBoolClaim (t : string) (b : bool) : Claim := mkClaim t (if b then "true" else "false").
Definition NewStringClaim (t v : string) : Claim := mkClaim t v.
Definition NewFloat64Claim (t : string) (f : F) : Claim := mkClaim t (fmt_float f).

(** The inner switch: the scalar claim of an array element. *)
Definition scalar_claim (key : string) (v : claim_value) : list Claim :=
  match v with
  | CVFloat f => [NewFloat64Claim key f]
  | CVBool b => [NewBoolClaim key b]
  | CVString s => [NewStringClaim key s]
  | CVArray _ | CVStrings _ | CVOther => []
  end.

(** The claims the outer switch adds for one entry, in order. *)
Definition entry_claims (key : string) (v : claim_value) : list Claim :=
  match v with
  | CVFloat f => [NewFloat64Claim key f]
  | CVBool b => [NewBoolClaim key b]
  | CVString s => [NewStringClaim key s]
  | CVArray l => concat (scalar_claim key <$> l)
  | CVStrings l => mkClaim key <$> l
  | CVOther => []
  end.

(** The loop over [claimsMap] in a given iteration order. *)
Definition principal_of_entries {P} `{IClaimsPrincipal P} (p : P) (o : list (string * claim_value)) : P :=
  foldl (fun p kv => AddClaim p (entry_claims kv.1 kv.2)) p o.

Definition ClaimsPrincipalFromClaimsMap (claimsMap : gmap string claim_value) : Principal.claimsPrincipal :=
  principal_of_entries Principal.NewIClaimsPrincipal (map_to_list claimsMap).

(** The claims a decoded map asserts. *)
Definition asserted (m : gmap string claim_value) (c : Claim) : Prop :=
  ∃ k v, m !! k = Some v ∧ k ≠ "" ∧ c ∈ entry_claims k v.

Lemma entry_claims_type k v c : c ∈ entry_claims k v → cl_Type c = k.
Proof.
  destruct v as [f|b|s|l|l|]; simpl; rewrite ?list_elem_of_singleton; try (by intros ->); [| |by intros ?%elem_of_nil].
  - induction l as [|x l IH]; simpl; [by intros ?%elem_of_nil|]. rewrite elem_of_app. intros [H|]; [|auto].
    destruct x; simpl in H; rewrite ?list_elem_of_singleton in H; try (by subst); by apply elem_of_nil in H.
  - by intros (v & -> & _)%list_elem_of_fmap.
Qed.

Lemma elem_of_typed c cs : c ∈ typed cs ↔ c ∈ cs ∧ cl_Type c ≠ "".
Proof. unfold typed. rewrite elem_of_list_to_set, list_elem_of_filter. tauto. Qed.

Lemma principal_of_entries_rep {P} `{IClaimsPrincipal P} {rep} `{!ClaimsLaws P rep} (p : P) S o :
  rep p S → ∃ S', rep (principal_of_entries p o) S' ∧
    ∀ c, c ∈ S' ↔ c ∈ S ∨ ∃ k v, (k, v) ∈ o ∧ k ≠ "" ∧ c ∈ entry_claims k v.
Proof.
  revert p S. induction o as [|[k v] o IH]; intros p S Hr; simpl.
  { exists S. split; [done|]. intros c. split; [by left|]. intros [?|(? & ? & ?%elem_of_nil & _)]; done. }
  destruct (IH _ _ (law_AddClaim p S (entry_claims k v) Hr)) as (S' & Hr' & HS'). exists S'. split; [done|].
  intros c. rewrite HS', elem_of_union, elem_of_typed. setoid_rewrite elem_of_cons. split.
  - intros [[?|[Hc Hn]]|?]; [by left| |right; naive_solver].
    right. exists k, v. rewrite (entry_claims_type _ _ _ Hc) in Hn. auto.
  - intros [?|(k' & v' & [[= -> ->]|?] & Hn & Hc)]; [by left; left| |right; eauto].
    left; right. rewrite (entry_claims_type _ _ _ Hc). done.
Qed.
End import.
Arguments claim_value : clear implicits.

(** [WithoutReservedMTLSClaims]. *)
Definition reserved (c : Claim) : bool := strings_HasPrefix (cl_Type c) MTLSClaimTypePrefix.

Definition WithoutReservedMTLSClaims (cs : list Claim) : list Claim :=
  foldl (fun out c => if negb (reserved c) then out ++ [c] else out) [] cs.

(** [ClaimsAddedSince]. *)
Definition ClaimsAddedSince (before after : list Claim) : list Claim :=
  let seen : gset Claim := foldl (fun seen c => {[c]} ∪ seen) ∅ before in
  foldl (fun added c => if decide (c ∈ seen) then added else added ++ [c]) [] after.

Lemma foldl_filter_app {A} (f : A → bool) l acc :
  foldl (fun out c => if f c then out ++ [c] else out) acc l = acc ++ filter (fun c => f c = true) l.
Proof.
  revert acc. induction l as [|x l IH]; intros acc; simpl; [by rewrite app_nil_r|].
  rewrite filter_cons, IH. destruct (f x); case_decide; try done. by rewrite <- (assoc_L (++)).
Qed.

Lemma WithoutReserved_spec cs :
  WithoutReservedMTLSClaims cs = filter (fun c => negb (reserved c) = true) cs.
Proof. apply (foldl_filter_app (fun c => negb (reserved c))). Qed.

Lemma elem_of_WithoutReserved c cs :
  c ∈ WithoutReservedMTLSClaims cs ↔ c ∈ cs ∧ reserved c = false.
Proof. rewrite WithoutReserved_spec, list_elem_of_filter, negb_true_iff. tauto. Qed.

Lemma seen_claims l S c : c ∈ foldl (fun seen c => {[c]} ∪ seen) (S : gset Claim) l ↔ c ∈ S ∨ c ∈ l.
Proof.
  revert S. induction l as [|x l IH]; intros S; simpl; [rewrite elem_of_nil; tauto|].
  rewrite IH, elem_of_union, elem_of_singleton, elem_of_cons. tauto.
Qed.

Lemma ClaimsAddedSince_spec before after :
  ClaimsAddedSince before after = filter (fun c => c ∉ before) after.
Proof.
  unfold ClaimsAddedSince. set (seen := foldl _ (∅ : gset Claim) before).
  assert (Hs : ∀ c, c ∈ seen ↔ c ∈ before).
  { intros c. unfold seen. rewrite seen_claims. set_solver. }
  clearbody seen. enough (∀ acc, foldl (fun added c => if decide (c ∈ seen) then added else added ++ [c]) acc after
    = acc ++ filter (fun c => c ∉ before) after) as ->; [done|].
  induction after as [|c after IH]; intros acc; simpl; [by rewrite app_nil_r|].
  rewrite filter_cons, IH. case_decide as H; rewrite Hs in H.
  - by rewrite decide_False by auto.
  - rewrite decide_True by done. by rewrite <- (assoc_L (++)).
Qed.

Lemma elem_of_ClaimsAddedSince c before after :
  c ∈ ClaimsAddedSince before after ↔ c ∈ after ∧ c ∉ before.
Proof. rewrite ClaimsAddedSince_spec, list_elem_of_filter. tauto. Qed.

(** ** Properties *)

(** Histories of mutations of a principal, and their meaning on sets. *)
Inductive cop := CAdd (cs : list Claim) | CRemove (cs : list Claim) | CRemoveType (ts : list string).

Definition principal_step (o : option Principal.claimsPrincipal) (op : cop) : option Principal.claimsPrincipal :=
  p ← o;
  match op with
  | CAdd cs => Some (AddClaim p cs)
  | CRemove cs => RemoveClaim p cs
  | CRemoveType ts => Some (RemoveClaimType p ts)
  end.

Definition set_step (S : gset Claim) (op : cop) : gset Claim :=
  match op with
  | CAdd cs => S ∪ typed cs
  | CRemove cs => S ∖ list_to_set cs
  | CRemoveType ts => without_types ts S
  end.

Lemma principal_steps_rep ops p S :
  Principal.principal_rep p S →
  ∃ p', foldl principal_step (Some p) ops = Some p' ∧ Principal.principal_rep p' (foldl set_step S ops).
Proof.
  revert p S. induction ops as [|op ops IH]; intros p S H; [by exists p|]. cbn [foldl].
  destruct op as [cs|cs|ts]; cbn [principal_step set_step mbind option_bind].
  - apply IH, law_AddClaim, H.
  - destruct (law_RemoveClaim p S cs H) as (p' & -> & H'). by apply IH.
  - apply IH, law_RemoveClaimType, H.
Qed.

(** a claims principal is a set of claims.  After any history of
    [AddClaim], [RemoveClaim] and [RemoveClaimType] no operation has panicked, and
    [HasClaim], [HasClaimType], [GetClaimsByType] and [GetClaims] (for every order
    in which the claims map may be ranged over) all answer from the same finite
    set, computed by set union, difference and filtering; claims with an empty
    type are ignored and no claim is listed twice. *)
Theorem claimsPrincipal_is_a_set ops :
  ∃ p, foldl principal_step (Some Principal.NewIClaimsPrincipal) ops = Some p ∧
  let S := foldl set_step ∅ ops in
  (∀ c, HasClaim p c = true ↔ c ∈ S) ∧
  (∀ t, HasClaimType p t = true ↔ ∃ v, mkClaim t v ∈ S) ∧
  (∀ t, NoDup (GetClaimsByType p t) ∧ ∀ c, c ∈ GetClaimsByType p t ↔ c ∈ S ∧ cl_Type c = t) ∧
  (∀ o, o ≡ₚ map_to_list (Principal.claims p) →
    NoDup (Principal.claims_in_order o) ∧ ∀ c, c ∈ Principal.claims_in_order o ↔ c ∈ S).
Proof.
  destruct (principal_steps_rep ops _ _ Principal.principal_rep_new) as (p & Hp & Hr).
  exists p. split; [done|]. cbv zeta. split_and!.
  - intros c. by apply law_HasClaim.
  - intros t. by apply law_HasClaimType.
  - intros t. by apply law_GetClaimsByType.
  - intros o. by apply Principal.rep_GetClaims_order.
Qed.

(** importing a decoded claims map: the principal holds exactly the
    claims the map asserts (floats, booleans and strings, arrays of those, string
    arrays; other values and empty keys contribute nothing), whatever the order in
    which the map is ranged over. *)
Theorem ClaimsPrincipalFromClaimsMap_spec {F} (fmt_float : F → string)
    (m : gmap string (claim_value F)) (o : list (string * claim_value F)) c :
  o ≡ₚ map_to_list m →
  HasClaim (principal_of_entries fmt_float Principal.NewIClaimsPrincipal o) c = true ↔ asserted fmt_float m c.
Proof.
  intros Ho.
  destruct (principal_of_entries_rep fmt_float _ _ o Principal.principal_rep_new) as (S & Hr & HS).
  rewrite (law_HasClaim _ S c Hr), HS. unfold asserted.
  setoid_rewrite Ho. setoid_rewrite elem_of_map_to_list. set_solver.
Qed.

Definition sample_token : gmap string (claim_value Z) :=
  <["sub" := CVString "alice"]> (<["roles" := CVArray [CVString "admin"; CVBool true; CVOther]]>
    {["aud" := CVStrings ["api"; "web"]]}).

Lemma ClaimsPrincipalFromClaimsMap_spec_witness :
  (GetClaimsByType (ClaimsPrincipalFromClaimsMap (fun _ : Z => "1") sample_token) "roles")
    = [mkClaim "roles" "admin"; mkClaim "roles" "true"] ∧
  (HasClaim (principal_of_entries (fun _ : Z => "1") Principal.NewIClaimsPrincipal (map_to_list sample_token))
     (mkClaim "roles" "admin") = true ↔ asserted (fun _ : Z => "1") sample_token (mkClaim "roles" "admin")).
Proof.
  split; [vm_compute; reflexivity|].
  apply (ClaimsPrincipalFromClaimsMap_spec (fun _ : Z => "1") sample_token (map_to_list sample_token)).
  reflexivity.
Defined.

(** the snapshot difference used by the token middlewares: for every
    implementation of [IClaimsPrincipal], the claims [ClaimsAddedSince] reports
    between [GetClaims] snapshots taken before and after an [AddClaim] are
    exactly the newly held ones; and what [WithoutReservedMTLSClaims] lets through
    is everything but the [mtls_*] claims, in order. *)
Theorem claim_snapshots {P} `{IClaimsPrincipal P} {rep} `{!ClaimsLaws P rep} (p : P) S cs c :
  rep p S →
  (c ∈ ClaimsAddedSince (GetClaims p) (GetClaims (AddClaim p (WithoutReservedMTLSClaims cs))) ↔
   c ∈ cs ∧ cl_Type c ≠ "" ∧ strings_HasPrefix (cl_Type c) MTLSClaimTypePrefix = false ∧ HasClaim p c = false) ∧
  WithoutReservedMTLSClaims cs = filter (fun c => negb (reserved c) = true) cs.
Proof.
  intros Hr. split; [|apply WithoutReserved_spec].
  destruct (law_GetClaims p S Hr) as [_ H1].
  destruct (law_GetClaims _ _ (law_AddClaim p S (WithoutReservedMTLSClaims cs) Hr)) as [_ H2].
  rewrite elem_of_ClaimsAddedSince, H1, H2, elem_of_union, elem_of_typed, elem_of_WithoutReserved.
  rewrite <- (not_true_iff_false (HasClaim p c)), (law_HasClaim p S c Hr). unfold reserved. tauto.
Qed.

Lemma claim_snapshots_witness :
  ClaimsAddedSince [mkClaim "sub" "a"] (GetClaims (AddClaim (AddClaim Principal.NewIClaimsPrincipal [mkClaim "sub" "a"])
    (WithoutReservedMTLSClaims [mkClaim "mtls_verified" "true"; mkClaim "role" "x"; mkClaim "sub" "a"])))
  = [mkClaim "role" "x"] ∧
  WithoutReservedMTLSClaims [mkClaim "mtls_verified" "true"; mkClaim "role" "x"] = [mkClaim "role" "x"].
Proof.
  split; [vm_compute; reflexivity|].
  rewrite (proj2 (claim_snapshots Principal.NewIClaimsPrincipal ∅
    [mkClaim "mtls_verified" "true"; mkClaim "role" "x"] (mkClaim "role" "x") Principal.principal_rep_new)).
  reflexivity.
Defined.
