(* ===== verification/ClaimsAST.v ===== *)
(** * Claim expressions ([claims_ast.go], [claim_fact.go], [entry_point_config.go],
      [EntryPointClaimsBuilder.go], and the [claimsast] DSL)

    The boolean expressions over claims that guard gRPC entry points.  The
    validators of the repository (the [ClaimsAST] struct and the DSL's or, and,
    not and leaf nodes) are one inductive type; a method call goes through
    [validate]/[stringify], whose second argument is the operand passed, [None] for
    the methods without one.  [None] as a result is Go's panic on an operand that
    is neither AND nor OR.  The reference semantics is a boolean formula
    ([formula]) that each validator denotes, with its evaluation and printing. *)
From S2P Require Import Prelude GoText Claims.
From stdpp Require Import options.

(** ** Facts *)
Record ClaimFact := mkFact { cf_Claim : Claim; cf_Directive : Z }.

Definition directive_ClaimTypeAndValue : Z := 0.
Definition directive_ClaimType : Z := 1.

Definition NewClaimFact (c : Claim) : ClaimFact := mkFact c directive_ClaimTypeAndValue.
Definition NewClaimFactType (t : string) : ClaimFact := mkFact (mkClaim t "") directive_ClaimType.

Definition fact_HasClaim {P} `{IClaimsPrincipal P} (f : ClaimFact) (p : P) : bool :=
  if (cf_Directive f =? directive_ClaimType)%Z then HasClaimType p (cl_Type (cf_Claim f))
  else HasClaim p (cf_Claim f).

Definition fact_Expression (f : ClaimFact) : string :=
  if (cf_Directive f =? directive_ClaimType)%Z then "has_claim_type(" +:+ cl_Type (cf_Claim f) +:+ ")"
  else "has_claim(" +:+ cl_Type (cf_Claim f) +:+ "|" +:+ cl_Value (cf_Claim f) +:+ ")".

(** ** Validators *)
Definition op_and : Z := 1.
Definition op_or : Z := 2.

Inductive IClaimsValidator :=
| VAST (facts : list ClaimFact) (ands ors nots : list IClaimsValidator)   (* *ClaimsAST *)
| VOr (children : list IClaimsValidator)
| VAnd (children : list IClaimsValidator)
| VNot (child : IClaimsValidator)
| VLeaf (fact : ClaimFact).

Record ClaimsAST := mkAST {
  ClaimFacts : list ClaimFact;
  ast_And : list IClaimsValidator;
  ast_Or : list IClaimsValidator;
  ast_Not : list IClaimsValidator }.

Definition as_validator (a : ClaimsAST) : IClaimsValidator :=
  VAST (ClaimFacts a) (ast_And a) (ast_Or a) (ast_Not a).

Definition AppendClaimsFact (a : ClaimsAST) (fs : list ClaimFact) : ClaimsAST :=
  mkAST (ClaimFacts a ++ fs) (ast_And a) (ast_Or a) (ast_Not a).

(** The loops: return on the first [false] ([true]), or when a call panics. *)
Definition all_loop {A} (f : A → option bool) : list A → option bool :=
  fix go l := match l with [] => Some true | x :: l' => match f x with Some true => go l' | r => r end end.

Definition any_loop {A} (f : A → option bool) : list A → option bool :=
  fix go l := match l with [] => Some false | x :: l' => match f x with Some false => go l' | r => r end end.

(** [if !loop1 { return false }; loop2], and its dual. *)
Definition and_also (a : option bool) (b : option bool) : option bool :=
  match a with Some true => b | r => r end.
Definition or_else (a : option bool) (b : option bool) : option bool :=
  match a with Some false => b | r => r end.

Section validate.
Context {P : Type} `{IClaimsPrincipal P} (p : P).

(** [Validate] ([op = None]) and [ValidateWithOperand] of every node. *)
Fixpoint validate (v : IClaimsValidator) (op : option Z) {struct v} : option bool :=
  match v with
  | VAST facts ands ors nots =>
      let op := default op_and op in
      if (op =? op_and)%Z then
        and_also (all_loop (fun f => Some (fact_HasClaim f p)) facts)
        (and_also (all_loop (fun a => validate a (Some op_and)) ands)
        (and_also (all_loop (fun o => validate o (Some op_or)) ors)
                  (all_loop (fun n => negb <$> validate n (Some op)) nots)))
      else if (op =? op_or)%Z then
        or_else (any_loop (fun f => Some (fact_HasClaim f p)) facts)
        (or_else (any_loop (fun a => validate a (Some op_and)) ands)
        (or_else (any_loop (fun o => validate o (Some op_or)) ors)
                 (any_loop (fun n => negb <$> validate n (Some op)) nots)))
      else None
  | VOr children => any_loop (fun c => validate c None) children
  | VAnd children => all_loop (fun c => validate c None) children
  | VNot child => negb <$> validate child None
  | VLeaf fact => Some (fact_HasClaim fact p)
  end.

Definition AST_Validate (a : ClaimsAST) : option bool := validate (as_validator a) None.
End validate.

(** Concatenate the renderings of a list, [None] as soon as one panics. *)
Definition map_loop {A} (f : A → option string) : list A → option (list string) :=
  fix go l := match l with [] => Some [] | x :: l' => s ← f x; r ← go l'; Some (s :: r) end.

(** [String] and [StringWithOperand] of every node. *)
Fixpoint stringify (v : IClaimsValidator) (op : option Z) {struct v} : option string :=
  match v with
  | VAST facts ands ors nots =>
      let op := default op_and op in
      g1 ← map_loop (fun a => stringify a (Some op_and)) ands;
      g2 ← map_loop (fun o => stringify o (Some op_or)) ors;
      g3 ← map_loop (fun n => s ← stringify n (Some op); Some ("!" +:+ s)) nots;
      let groups := map fact_Expression facts ++ g1 ++ g2 ++ g3 in
      if (op =? op_and)%Z then Some ("(" +:+ strings_Join groups " AND " +:+ ")")
      else if (op =? op_or)%Z then Some ("(" +:+ strings_Join groups " OR " +:+ ")")
      else None
  | VOr children =>
      parts ← map_loop (fun c => stringify c None) children;
      Some ("(" +:+ strings_Join parts " OR " +:+ ")")
  | VAnd children =>
      parts ← map_loop (fun c => stringify c None) children;
      Some ("(" +:+ strings_Join parts " AND " +:+ ")")
  | VNot child => s ← stringify child None; Some ("!(" +:+ s +:+ ")")
  | VLeaf fact => Some (fact_Expression fact)
  end.

Definition AST_String (a : ClaimsAST) : option string := stringify (as_validator a) None.

(** *** The DSL's constructors *)
Definition dsl_Or (children : list IClaimsValidator) : IClaimsValidator := VOr children.
Definition dsl_And (children : list IClaimsValidator) : IClaimsValidator := VAnd children.
Definition dsl_Not (child : IClaimsValidator) : IClaimsValidator := VNot child.
Definition dsl_Leaf (fact : ClaimFact) : IClaimsValidator := VLeaf fact.
Definition dsl_ClaimType (t : string) : IClaimsValidator := dsl_Leaf (NewClaimFactType t).
Definition dsl_ClaimTypeAndValue (t v : string) : IClaimsValidator := dsl_Leaf (NewClaimFact (mkClaim t v)).
Definition dsl_Root (v : IClaimsValidator) : ClaimsAST := mkAST [] [] [v] [].

(** *** Entry points and their builder *)
Record EntryPointConfig := mkEPC { FullMethodName : string; epc_ClaimsAST : ClaimsAST }.

Definition GetExpression (e : EntryPointConfig) : option string := AST_String (epc_ClaimsAST e).

Abbreviation EntrypointClaimsMap := (gmap string EntryPointConfig).

Definition NewEntryPointClaimsBuilder : EntrypointClaimsMap := ∅.

(** [ensureEntry] returns a pointer into the map: the map and the entry. *)
Definition ensureEntry (m : EntrypointClaimsMap) (fullMethodName : string) : EntrypointClaimsMap * EntryPointConfig :=
  match m !! fullMethodName with
  | Some e => (m, e)
  | None => let e := mkEPC fullMethodName (mkAST [] [] [] []) in (<[fullMethodName := e]> m, e)
  end.

Definition WithGrpcEntrypointPermissionsClaimsMapOpen (m : EntrypointClaimsMap) (fullMethodName : string) : EntrypointClaimsMap :=
  (ensureEntry m fullMethodName).1.

(** [AppendClaimsFact] mutates the AST the map's entry points to. *)
Definition WithGrpcEntrypointClams (m : EntrypointClaimsMap) (fullMethodName : string) (fs : list ClaimFact) : EntrypointClaimsMap :=
  let '(m', e) := ensureEntry m fullMethodName in
  <[fullMethodName := mkEPC (FullMethodName e) (AppendClaimsFact (epc_ClaimsAST e) fs)]> m'.

(** ** Reference semantics: the formula a validator stands for *)
Inductive formula :=
| FFact (f : ClaimFact)
| FGroup (isand : bool) (l : list formula)
| FNot (paren : bool) (f : formula).

Fixpoint denote (v : IClaimsValidator) (op : option bool) {struct v} : formula :=
  match v with
  | VAST facts ands ors nots =>
      let isand := default true op in
      FGroup isand (map FFact facts ++ map (fun a => denote a (Some true)) ands
                   ++ map (fun o => denote o (Some false)) ors
                   ++ map (fun n => FNot false (denote n (Some isand))) nots)
  | VOr children => FGroup false (map (fun c => denote c None) children)
  | VAnd children => FGroup true (map (fun c => denote c None) children)
  | VNot child => FNot true (denote child None)
  | VLeaf fact => FFact fact
  end.

Fixpoint feval {P} `{IClaimsPrincipal P} (p : P) (f : formula) : bool :=
  match f with
  | FFact f => fact_HasClaim f p
  | FGroup true l => forallb (feval p) l
  | FGroup false l => existsb (feval p) l
  | FNot _ f => negb (feval p f)
  end.

Fixpoint fprint (f : formula) : string :=
  match f with
  | FFact f => fact_Expression f
  | FGroup isand l => "(" +:+ strings_Join (map fprint l) (if isand then " AND " else " OR ") +:+ ")"
  | FNot paren f => if paren then "!(" +:+ fprint f +:+ ")" else "!" +:+ fprint f
  end.

(** ** Proofs *)

(** Induction over validators, through the child lists. *)
Lemma validator_ind (Q : IClaimsValidator → Prop) :
  (∀ facts ands ors nots, Forall Q ands → Forall Q ors → Forall Q nots → Q (VAST facts ands ors nots)) →
  (∀ l, Forall Q l → Q (VOr l)) → (∀ l, Forall Q l → Q (VAnd l)) →
  (∀ c, Q c → Q (VNot c)) → (∀ f, Q (VLeaf f)) → ∀ v, Q v.
Proof.
  intros HA HO HN HNot HL. fix IH 1.
  assert (all : ∀ l, Forall Q l) by (induction l; constructor; auto).
  intros [facts ands ors nots|l|l|c|f].
  - apply HA; apply all.
  - apply HO, all.
  - apply HN, all.
  - apply HNot, IH.
  - apply HL.
Qed.

(** The operand a formula is read under; [None] when it is invalid. *)
Definition operand (op : option Z) : option (option bool) :=
  match op with
  | None => Some None
  | Some z => if (z =? op_and)%Z then Some (Some true) else if (z =? op_or)%Z then Some (Some false) else None
  end.

Definition is_AST (v : IClaimsValidator) : bool := match v with VAST _ _ _ _ => true | _ => false end.

(** Loops whose calls do not panic. *)
Lemma all_loop_Some {A} (f : A → option bool) g l :
  Forall (fun x => f x = Some (g x)) l → all_loop f l = Some (forallb g l).
Proof. induction 1 as [|x l Hx _ IH]; simpl; [done|]. rewrite Hx. destruct (g x); simpl; done. Qed.

Lemma any_loop_Some {A} (f : A → option bool) g l :
  Forall (fun x => f x = Some (g x)) l → any_loop f l = Some (existsb g l).
Proof. induction 1 as [|x l Hx _ IH]; simpl; [done|]. rewrite Hx. destruct (g x); simpl; done. Qed.

Lemma map_loop_Some {A} (f : A → option string) g l :
  Forall (fun x => f x = Some (g x)) l → map_loop f l = Some (map g l).
Proof. induction 1 as [|x l Hx _ IH]; simpl; [done|]. rewrite Hx. simpl. by rewrite IH. Qed.

Lemma and_also_Some a b : and_also (Some a) (Some b) = Some (a && b).
Proof. by destruct a. Qed.
Lemma or_else_Some a b : or_else (Some a) (Some b) = Some (a || b).
Proof. by destruct a. Qed.

Lemma forallb_map {A B} (g : B → bool) (h : A → B) l : forallb g (map h l) = forallb (fun x => g (h x)) l.
Proof. induction l; simpl; congruence. Qed.
Lemma existsb_map {A B} (g : B → bool) (h : A → B) l : existsb g (map h l) = existsb (fun x => g (h x)) l.
Proof. induction l; simpl; congruence. Qed.

(** A group of formulas joined by AND or OR, split over its parts. *)
Lemma feval_group {P} `{IClaimsPrincipal P} (p : P) isand l1 l2 :
  feval p (FGroup isand (l1 ++ l2)) =
  (if isand then andb else orb) (feval p (FGroup isand l1)) (feval p (FGroup isand l2)).
Proof. destruct isand; [apply forallb_app|apply existsb_app]. Qed.

Section semantics.
Context {P : Type} `{IClaimsPrincipal P} (p : P).

Definition agrees (v : IClaimsValidator) : Prop :=
  ∀ op b, operand op = Some b → validate p v op = Some (feval p (denote v b)).

Lemma agrees_None l : Forall agrees l → Forall (fun c => validate p c None = Some (feval p (denote c None))) l.
Proof. intros Hl. eapply Forall_impl; [exact Hl|]. intros c Hc. by apply Hc. Qed.

Lemma agrees_op l z b :
  Forall agrees l → operand (Some z) = Some (Some b) →
  Forall (fun c => validate p c (Some z) = Some (feval p (denote c (Some b)))) l.
Proof. intros Hl Hz. eapply Forall_impl; [exact Hl|]. intros c Hc. by apply Hc. Qed.

Lemma agrees_not l z b :
  Forall agrees l → operand (Some z) = Some (Some b) →
  Forall (fun c => negb <$> validate p c (Some z) = Some (negb (feval p (denote c (Some b))))) l.
Proof. intros Hl Hz. eapply Forall_impl; [exact Hl|]. intros c Hc. simpl. by rewrite (Hc _ _ Hz). Qed.

Lemma validate_denote v : agrees v.
Proof.
  induction v as [facts ands ors nots IHa IHo IHn|l IH|l IH|c IH|f] using validator_ind; intros op b Hop.
  - cbn [validate denote]. rewrite !feval_group.
    assert (Hc : (default op_and op = op_and ∧ default true b = true) ∨
                 (default op_and op = op_or ∧ default true b = false)).
    { destruct op as [z|]; simpl in Hop; [|injection Hop as <-; by left].
      destruct (Z.eqb_spec z op_and) as [->|]; [injection Hop as <-; by left|].
      destruct (Z.eqb_spec z op_or) as [->|]; [injection Hop as <-; by right|done]. }
    destruct Hc as [[-> ->]|[-> ->]]; cbn.
    + rewrite (all_loop_Some _ (fun f => fact_HasClaim f p)) by (by apply Forall_true).
      rewrite (all_loop_Some _ _ _ (agrees_op ands op_and true IHa eq_refl)).
      rewrite (all_loop_Some _ _ _ (agrees_op ors op_or false IHo eq_refl)).
      rewrite (all_loop_Some _ _ _ (agrees_not nots op_and true IHn eq_refl)).
      rewrite !and_also_Some, !forallb_map. done.
    + rewrite (any_loop_Some _ (fun f => fact_HasClaim f p)) by (by apply Forall_true).
      rewrite (any_loop_Some _ _ _ (agrees_op ands op_and true IHa eq_refl)).
      rewrite (any_loop_Some _ _ _ (agrees_op ors op_or false IHo eq_refl)).
      rewrite (any_loop_Some _ _ _ (agrees_not nots op_or false IHn eq_refl)).
      rewrite !or_else_Some, !existsb_map. done.
  - simpl. rewrite (any_loop_Some _ _ _ (agrees_None _ IH)). by rewrite existsb_map.
  - simpl. rewrite (all_loop_Some _ _ _ (agrees_None _ IH)). by rewrite forallb_map.
  - simpl. by rewrite (IH None None eq_refl).
  - done.
Qed.
End semantics.

Definition prints (v : IClaimsValidator) : Prop :=
  ∀ op b, operand op = Some b → stringify v op = Some (fprint (denote v b)).

Lemma prints_None l : Forall prints l → Forall (fun c => stringify c None = Some (fprint (denote c None))) l.
Proof. intros Hl. eapply Forall_impl; [exact Hl|]. intros c Hc. by apply Hc. Qed.

Lemma prints_op l z b :
  Forall prints l → operand (Some z) = Some (Some b) →
  Forall (fun c => stringify c (Some z) = Some (fprint (denote c (Some b)))) l.
Proof. intros Hl Hz. eapply Forall_impl; [exact Hl|]. intros c Hc. by apply Hc. Qed.

Lemma prints_not l z b :
  Forall prints l → operand (Some z) = Some (Some b) →
  Forall (fun c => (s ← stringify c (Some z); Some ("!" +:+ s)) = Some (fprint (FNot false (denote c (Some b))))) l.
Proof. intros Hl Hz. eapply Forall_impl; [exact Hl|]. intros c Hc. simpl. by rewrite (Hc _ _ Hz). Qed.

Lemma stringify_denote v : prints v.
Proof.
  induction v as [facts ands ors nots IHa IHo IHn|l IH|l IH|c IH|f] using validator_ind; intros op b Hop.
  - cbn [stringify denote fprint]. rewrite !map_app, !map_map.
    rewrite (map_loop_Some _ _ _ (prints_op ands op_and true IHa eq_refl)).
    rewrite (map_loop_Some _ _ _ (prints_op ors op_or false IHo eq_refl)). cbn [mbind option_bind].
    destruct op as [z|]; simpl in Hop; [|injection Hop as <-].
    + destruct (Z.eqb_spec z op_and) as [->|]; [injection Hop as <-|destruct (Z.eqb_spec z op_or) as [->|];
        [injection Hop as <-|done]]; cbn [default id].
      * by rewrite (map_loop_Some _ _ _ (prints_not nots op_and true IHn eq_refl)).
      * by rewrite (map_loop_Some _ _ _ (prints_not nots op_or false IHn eq_refl)).
    + cbn [default id]. by rewrite (map_loop_Some _ _ _ (prints_not nots op_and true IHn eq_refl)).
  - simpl. rewrite (map_loop_Some _ _ _ (prints_None _ IH)). simpl. by rewrite map_map.
  - simpl. rewrite (map_loop_Some _ _ _ (prints_None _ IH)). simpl. by rewrite map_map.
  - simpl. by rewrite (IH None None eq_refl).
  - done.
Qed.

(** A node of the DSL ignores the operand it is given. *)
Lemma validate_ignores {P} `{IClaimsPrincipal P} (p : P) v op :
  is_AST v = false → validate p v op = validate p v None.
Proof. by destruct v. Qed.

Lemma denote_ignores v op : is_AST v = false → denote v op = denote v None.
Proof. by destruct v. Qed.

Lemma validate_invalid {P} `{IClaimsPrincipal P} (p : P) v op :
  operand op = None → validate p v op = None ↔ is_AST v = true.
Proof.
  intros Hop. destruct (is_AST v) eqn:Hv.
  - destruct v as [facts ands ors nots| | | |]; try done. destruct op as [z|]; simpl in *; [|done].
    by destruct (z =? op_and)%Z, (z =? op_or)%Z.
  - rewrite validate_ignores, (validate_denote p v None None eq_refl) by done. done.
Qed.

(** ** Properties *)

(** C40: what an entry point's expression shows is what is enforced:
    [Validate] of a [ClaimsAST] never panics and returns the value of the boolean
    formula the tree stands for (facts, AND/OR groups and negations combined under
    the documented rule), and [String] prints exactly that formula. *)
Theorem Validate_is_the_printed_formula {P} `{IClaimsPrincipal P} (p : P) (a : ClaimsAST) :
  AST_Validate p a = Some (feval p (denote (as_validator a) None)) ∧
  AST_String a = Some (fprint (denote (as_validator a) None)).
Proof. split; [by apply validate_denote|by apply stringify_denote]. Qed.

(** [ValidateWithOperand] panics in exactly one case: a [*ClaimsAST]
    given an operand that is neither AND (1) nor OR (2).  Nodes of the DSL accept
    any operand and ignore it. *)
Theorem ValidateWithOperand_panics_iff {P} `{IClaimsPrincipal P} (p : P) v z :
  validate p v (Some z) = None ↔ is_AST v = true ∧ z ≠ op_and ∧ z ≠ op_or.
Proof.
  destruct (operand (Some z)) as [b|] eqn:Hz.
  - rewrite (validate_denote p v _ _ Hz). split; [done|]. simpl in Hz.
    destruct (Z.eqb_spec z op_and), (Z.eqb_spec z op_or); naive_solver.
  - rewrite (validate_invalid p v _ Hz). simpl in Hz.
    destruct (Z.eqb_spec z op_and), (Z.eqb_spec z op_or); naive_solver.
Qed.

(** Two principals holding the same claims decide every fact alike. *)
Lemma fact_HasClaim_ext {P1 P2} `{IClaimsPrincipal P1, IClaimsPrincipal P2} {rep1 rep2}
    `{!ClaimsLaws P1 rep1, !ClaimsLaws P2 rep2} (p1 : P1) (p2 : P2) S f :
  rep1 p1 S → rep2 p2 S → fact_HasClaim f p1 = fact_HasClaim f p2.
Proof.
  intros H1 H2. unfold fact_HasClaim. apply eq_true_iff_eq. destruct (_ =? _)%Z.
  - by rewrite (law_HasClaimType _ _ _ H1), (law_HasClaimType _ _ _ H2).
  - by rewrite (law_HasClaim _ _ _ H1), (law_HasClaim _ _ _ H2).
Qed.

Lemma feval_ext {P1 P2} `{IClaimsPrincipal P1, IClaimsPrincipal P2} (p1 : P1) (p2 : P2) f :
  (∀ f, fact_HasClaim f p1 = fact_HasClaim f p2) → feval p1 f = feval p2 f.
Proof.
  intros Hf. revert f. fix IH 1. intros [f|isand l|paren f]; simpl; [apply Hf| |by rewrite IH].
  destruct isand; induction l as [|x l IHl]; simpl; congruence.
Qed.

(** authorization depends on nothing but the set of claims held: two
    principals of any implementations of [IClaimsPrincipal] that stand for the same
    set, however it was built, get the same decision from every validator. *)
Theorem Validate_depends_on_claims {P1 P2} `{IClaimsPrincipal P1, IClaimsPrincipal P2} {rep1 rep2}
    `{!ClaimsLaws P1 rep1, !ClaimsLaws P2 rep2} (p1 : P1) (p2 : P2) S v op :
  rep1 p1 S → rep2 p2 S → validate p1 v op = validate p2 v op.
Proof.
  intros H1 H2. destruct (operand op) as [b|] eqn:Hop.
  - rewrite !(validate_denote _ v _ _ Hop). f_equal. apply feval_ext. intros f. by apply (fact_HasClaim_ext p1 p2 S).
  - destruct (is_AST v) eqn:Hv.
    + by rewrite (proj2 (validate_invalid p1 v op Hop) Hv), (proj2 (validate_invalid p2 v op Hop) Hv).
    + rewrite !(validate_ignores _ v op Hv), !(validate_denote _ v None None eq_refl). f_equal.
      apply feval_ext. intros f. by apply (fact_HasClaim_ext p1 p2 S).
Qed.

Lemma Validate_depends_on_claims_witness :
  let a := mkClaim "role" "admin" in let b := mkClaim "sub" "u" in
  let v := as_validator (mkAST [NewClaimFact a] [] [] [VLeaf (NewClaimFactType "guest")]) in
  let p1 := AddClaim Principal.NewIClaimsPrincipal [a; b] in
  let p2 := AddClaim Principal.NewIClaimsPrincipal [b; a; b] in
  validate p1 v None = Some true ∧ validate p1 v None = validate p2 v None.
Proof.
  intros a b v p1 p2. split; [vm_compute; reflexivity|].
  assert (Hset : ∅ ∪ typed [b; a; b] = ∅ ∪ typed [a; b]).
  { apply set_eq. intros c. rewrite !elem_of_union, !elem_of_typed, !elem_of_cons. tauto. }
  apply (Validate_depends_on_claims p1 p2 (∅ ∪ typed [a; b])).
  - apply law_AddClaim, Principal.principal_rep_new.
  - rewrite <- Hset. apply law_AddClaim, Principal.principal_rep_new.
Defined.

(** a DSL expression under [Root] is evaluated with its own
    semantics: [And] is conjunction, [Or] disjunction and [Not] negation of the
    children's [Validate], a leaf is its fact, and the [ClaimsAST] shell of [Root]
    changes nothing. *)
Theorem dsl_semantics {P} `{IClaimsPrincipal P} (p : P) v l f :
  (is_AST v = false → AST_Validate p (dsl_Root v) = validate p v None) ∧
  validate p (dsl_And l) None = Some (forallb (fun c => default false (validate p c None)) l) ∧
  validate p (dsl_Or l) None = Some (existsb (fun c => default false (validate p c None)) l) ∧
  validate p (dsl_Not v) None = negb <$> validate p v None ∧
  validate p (dsl_Leaf f) None = Some (fact_HasClaim f p).
Proof.
  split_and!; [| | |done|done].
  - intros Hv. unfold AST_Validate. rewrite !(validate_denote p _ None None eq_refl). simpl.
    rewrite denote_ignores by done. by rewrite andb_true_r.
  - rewrite (validate_denote p _ None None eq_refl). simpl. rewrite forallb_map. f_equal.
    induction l as [|c l IH]; simpl; [done|]. by rewrite (validate_denote p c None None eq_refl), IH.
  - rewrite (validate_denote p _ None None eq_refl). simpl. rewrite existsb_map. f_equal.
    induction l as [|c l IH]; simpl; [done|]. by rewrite (validate_denote p c None None eq_refl), IH.
Qed.

Lemma dsl_semantics_witness :
  let v := dsl_And [dsl_ClaimType "org"; dsl_Or [dsl_ClaimTypeAndValue "perm" "r"; dsl_ClaimTypeAndValue "perm" "rw"]] in
  let p := AddClaim Principal.NewIClaimsPrincipal [mkClaim "org" "o"; mkClaim "perm" "rw"] in
  AST_Validate p (dsl_Root v) = Some true ∧ AST_Validate p (dsl_Root v) = validate p v None.
Proof.
  intros v p. split; [vm_compute; reflexivity|].
  apply (proj1 (dsl_semantics p v [] (NewClaimFactType "org"))). reflexivity.
Defined.

(** the documented example of [ClaimsAST]: the tree of its doc comment
    is A && B && (C || D) && (E || F || (G && H)) && !(I || J), for every
    principal. *)
Theorem ClaimsAST_doc_example {P} `{IClaimsPrincipal P} (p : P) (A B C D E F G H' I J : ClaimFact) :
  let has f := fact_HasClaim f p in
  AST_Validate p
    (mkAST [A; B] []
      [VAST [C; D] [] [] []; VAST [E; F] [VAST [G; H'] [] [] []] [] []]
      [VAST [] [] [VAST [I; J] [] [] []] []])
  = Some (has A && has B && (has C || has D) && (has E || has F || (has G && has H')) && negb (has I || has J)).
Proof.
  unfold AST_Validate. rewrite (validate_denote p _ None None eq_refl). simpl.
  by rewrite !andb_true_r, !orb_false_r, !orb_assoc, !andb_assoc.
Qed.

(** The package comment of [claimsast] shows a struct and the DSL expression it
    "becomes"; they are different formulas: org || (read && write) against
    org && (read || write). *)
Example dsl_doc_example_differs :
  let org := NewClaimFactType "org" in
  let rd := NewClaimFact (mkClaim "permissions" "UsageMetrics.Read") in
  let rw := NewClaimFact (mkClaim "permissions" "UsageMetrics.ReadWrite") in
  let struct := mkAST [] [] [VAST [] [VAST [org] [] [] []; VAST [rd; rw] [] [] []] [] []] [] in
  let dsl := dsl_Root (dsl_Or [dsl_And [dsl_Leaf org; dsl_Or [dsl_Leaf rd; dsl_Leaf rw]]]) in
  let p := AddClaim Principal.NewIClaimsPrincipal [mkClaim "org" "acme"] in
  AST_Validate p struct = Some true ∧ AST_Validate p dsl = Some false.
Proof. vm_compute. done. Qed.

(** *** The builder *)
Inductive bop := BOpen (m : string) | BClaims (m : string) (fs : list ClaimFact).

Definition bop_method (o : bop) : string := match o with BOpen m => m | BClaims m _ => m end.
Definition bop_facts (o : bop) : list ClaimFact := match o with BOpen _ => [] | BClaims _ fs => fs end.

Definition builder_step (b : EntrypointClaimsMap) (o : bop) : EntrypointClaimsMap :=
  match o with
  | BOpen m => WithGrpcEntrypointPermissionsClaimsMapOpen b m
  | BClaims m fs => WithGrpcEntrypointClams b m fs
  end.

(** The facts required of [m] by the calls made for it, in order. *)
Definition facts_for (ops : list bop) (m : string) : list ClaimFact :=
  concat (bop_facts <$> filter (fun o => bop_method o = m) ops).

Definition built (facts : option (list ClaimFact)) (m : string) : option EntryPointConfig :=
  (fun fs => mkEPC m (mkAST fs [] [] [])) <$> facts.

Lemma builder_step_lookup b o m facts :
  b !! m = built facts m →
  builder_step b o !! m = built (if decide (bop_method o = m) then Some (default [] facts ++ bop_facts o) else facts) m.
Proof.
  intros Hb. destruct o as [m'|m' fs]; simpl;
    unfold WithGrpcEntrypointPermissionsClaimsMapOpen, WithGrpcEntrypointClams, ensureEntry;
    (case_decide as Hm; [subst m'|]).
  - rewrite Hb. destruct facts as [l|]; simpl; [by rewrite app_nil_r|]. by rewrite lookup_insert_eq.
  - destruct (b !! m') eqn:E; simpl; [done|]. by rewrite lookup_insert_ne.
  - rewrite Hb. destruct facts as [l|]; simpl; by rewrite lookup_insert_eq.
  - destruct (b !! m') eqn:E; simpl; by rewrite !lookup_insert_ne.
Qed.

Lemma builder_lookup_gen ops b m facts :
  b !! m = built facts m →
  foldl builder_step b ops !! m =
    built (match filter (fun o => bop_method o = m) ops with
           | [] => facts | _ => Some (default [] facts ++ facts_for ops m) end) m.
Proof.
  revert b facts. induction ops as [|o ops IH]; intros b facts Hb; simpl; [done|].
  rewrite (IH _ _ (builder_step_lookup b o m facts Hb)). unfold facts_for. rewrite filter_cons.
  case_decide; [|done]. destruct (filter _ ops) eqn:E; simpl.
  - by rewrite app_nil_r.
  - by rewrite <- (assoc_L (++)).
Qed.

(** the entry-point builder: after any sequence of its calls, an entry
    exists exactly for the methods named; its claims tree holds the facts given for
    that method, in order and nothing else, so a principal passes it exactly when
    it satisfies all of them (and a method declared open accepts everyone). *)
Theorem builder_spec {P} `{IClaimsPrincipal P} (p : P) ops m :
  foldl builder_step NewEntryPointClaimsBuilder ops !! m =
    (if decide (m ∈ bop_method <$> ops) then Some (mkEPC m (mkAST (facts_for ops m) [] [] [])) else None) ∧
  AST_Validate p (mkAST (facts_for ops m) [] [] []) = Some (forallb (fun f => fact_HasClaim f p) (facts_for ops m)).
Proof.
  split.
  - unfold NewEntryPointClaimsBuilder. rewrite (builder_lookup_gen ops _ m None (lookup_empty m)).
    destruct (filter (fun o => bop_method o = m) ops) as [|o l] eqn:E.
    + rewrite decide_False; [done|]. intros (o & Ho & Hin)%list_elem_of_fmap.
      assert (Hf : o ∈ filter (fun o => bop_method o = m) ops) by (by apply list_elem_of_filter).
      rewrite E in Hf. by apply elem_of_nil in Hf.
    + rewrite decide_True; [done|]. assert (Hf : o ∈ filter (fun o => bop_method o = m) ops) by (rewrite E; left).
      apply list_elem_of_filter in Hf as [<- Hin]. apply list_elem_of_fmap. eauto.
  - unfold AST_Validate. rewrite (validate_denote p _ None None eq_refl). simpl.
    by rewrite app_nil_r, forallb_map.
Qed.
