(* ===== verification/Request.v ===== *)
(** * Requests, interceptors and their shared state

    The frame the gRPC middleware runs in.  A handler takes the call's context
    and the mutable state it can reach and produces an outcome; an interceptor is
    a transformer of handlers, given the method's full name, so composing
    interceptors is composing functions.  A stream handler sees its stream only
    through [ss.Context()], so the unary and the stream interceptors have the
    same type here ([NewStreamContextWrapper] with [SetContext] is the changed
    context).

    [google.golang.org/grpc]'s metadata and peer, [metautils] and the values of a
    [context.Context] are the class [GrpcContext] with the documented
    behaviour of the calls in use as laws, and [std_context] is one instance. *)
From S2P Require Import Prelude GoText Claims.
From stdpp Require Import options.

(** ** Errors *)
(** [google.golang.org/grpc/codes]. *)
Inductive code :=
| OK | Canceled | Unknown | InvalidArgument | DeadlineExceeded | NotFound | AlreadyExists | PermissionDenied
| ResourceExhausted | FailedPrecondition | Aborted | OutOfRange | Unimplemented | Internal | Unavailable | DataLoss
| Unauthenticated.

Inductive error :=
| StatusErr (c : code) (msg : string)
| PlainErr (msg : string).

#[global] Instance code_eq_dec : EqDecision code.
Proof. solve_decision. Defined.
#[global] Instance error_eq_dec : EqDecision error.
Proof. solve_decision. Defined.

(** [err.Error()]. *)
Definition code_String (c : code) : string :=
  match c with
  | OK => "OK" | Canceled => "Canceled" | Unknown => "Unknown" | InvalidArgument => "InvalidArgument"
  | DeadlineExceeded => "DeadlineExceeded" | NotFound => "NotFound" | AlreadyExists => "AlreadyExists"
  | PermissionDenied => "PermissionDenied" | ResourceExhausted => "ResourceExhausted"
  | FailedPrecondition => "FailedPrecondition" | Aborted => "Aborted" | OutOfRange => "OutOfRange"
  | Unimplemented => "Unimplemented" | Internal => "Internal" | Unavailable => "Unavailable"
  | DataLoss => "DataLoss" | Unauthenticated => "Unauthenticated"
  end.

Definition error_Error (e : error) : string :=
  match e with
  | StatusErr c msg => "rpc error: code = " +:+ code_String c +:+ " desc = " +:+ msg
  | PlainErr msg => msg
  end.

(** [wellknown/headers.go]. *)
Definition MetadataKeyAuthorization : string := "authorization".
Definition AuthSchemeBearer : string := "bearer".
Definition AuthSchemeBearerPrefix : string := "Bearer ".

(** ** Contexts *)

(** A verified or presented client certificate ([x509.Certificate]); its URIs
    are kept in their [String()] form. *)
Record Certificate := mkCert { CommonName : string; Raw : list N; URIs : list string }.

Inductive AuthInfo :=
| TLSInfo (VerifiedChains : list (list Certificate))
| OtherAuthInfo.

(** A request-scoped container: which of the two scoped services it provides. *)
Record Container := mkContainer { has_principal : bool; has_bag : bool }.

Abbreviation MD := (gmap string (list string)).

(** What a context may carry under the key [ctxRequestContainerContextKey], by
    its dynamic type. *)
Inductive ctxval := ContainerValue (c : Container) | OtherValue.

(** [ctx_Value] and [ctx_WithValue] are [context]'s, at that key. *)
Class GrpcContext (Ctx : Type) := {
  FromIncomingContext : Ctx → option MD;
  peer_AuthInfo : Ctx → option AuthInfo;
  ctx_Value : Ctx → option ctxval;
  ctx_WithValue : Ctx → ctxval → Ctx;
  (* metautils.ExtractIncoming(ctx).Del(k).ToIncoming(ctx), and with Set *)
  del_incoming : string → Ctx → Ctx;
  set_incoming : string → string → Ctx → Ctx }.

Class GrpcContextLaws (Ctx : Type) `{GrpcContext Ctx} := {
  incoming_del k c : FromIncomingContext (del_incoming k c) = Some (delete k (default ∅ (FromIncomingContext c)));
  incoming_set k v c : FromIncomingContext (set_incoming k v c) = Some (<[k := [v]]> (default ∅ (FromIncomingContext c)));
  peer_del k c : peer_AuthInfo (del_incoming k c) = peer_AuthInfo c;
  peer_set k v c : peer_AuthInfo (set_incoming k v c) = peer_AuthInfo c;
  value_del k c : ctx_Value (del_incoming k c) = ctx_Value c;
  value_set k v c : ctx_Value (set_incoming k v c) = ctx_Value c;
  value_WithValue c v : ctx_Value (ctx_WithValue c v) = Some v;
  incoming_WithValue c v : FromIncomingContext (ctx_WithValue c v) = FromIncomingContext c;
  peer_WithValue c v : peer_AuthInfo (ctx_WithValue c v) = peer_AuthInfo c }.

(** [middleware/dicontext/dicontext.go]. *)
Definition GetRequestContainer {Ctx} `{GrpcContext Ctx} (ctx : Ctx) : option Container :=
  match ctx_Value ctx with
  | None => None
  | Some (ContainerValue requestContainer) => Some requestContainer
  | Some OtherValue => None
  end.

Definition SetRequestContainer {Ctx} `{GrpcContext Ctx} (ctx : Ctx) (requestContainer : Container) : Ctx :=
  ctx_WithValue ctx (ContainerValue requestContainer).

Section context_laws.
Context {Ctx : Type} `{HG : GrpcContextLaws Ctx}.

Lemma container_del k (c : Ctx) : GetRequestContainer (del_incoming k c) = GetRequestContainer c.
Proof using HG. unfold GetRequestContainer. by rewrite value_del. Qed.
Lemma container_set k v (c : Ctx) : GetRequestContainer (set_incoming k v c) = GetRequestContainer c.
Proof using HG. unfold GetRequestContainer. by rewrite value_set. Qed.
Lemma container_SetRequestContainer (c : Ctx) s : GetRequestContainer (SetRequestContainer c s) = Some s.
Proof using HG. unfold GetRequestContainer, SetRequestContainer. by rewrite value_WithValue. Qed.
Lemma incoming_SetRequestContainer (c : Ctx) s : FromIncomingContext (SetRequestContainer c s) = FromIncomingContext c.
Proof using HG. apply incoming_WithValue. Qed.
Lemma peer_SetRequestContainer (c : Ctx) s : peer_AuthInfo (SetRequestContainer c s) = peer_AuthInfo c.
Proof using HG. apply peer_WithValue. Qed.
End context_laws.

(** A context as the record of what is read from it. *)
Record stdctx := mkCtx { ctx_md : option MD; ctx_peer : option AuthInfo; ctx_scope : option ctxval }.

#[global] Instance std_context : GrpcContext stdctx := {|
  FromIncomingContext := ctx_md; peer_AuthInfo := ctx_peer; ctx_Value := ctx_scope;
  ctx_WithValue := fun c v => mkCtx (ctx_md c) (ctx_peer c) (Some v);
  del_incoming := fun k c => mkCtx (Some (delete k (default ∅ (ctx_md c)))) (ctx_peer c) (ctx_scope c);
  set_incoming := fun k v c => mkCtx (Some (<[k := [v]]> (default ∅ (ctx_md c)))) (ctx_peer c) (ctx_scope c) |}.

#[global] Instance std_context_laws : GrpcContextLaws stdctx.
Proof. split; done. Qed.

(** ** State, handlers, interceptors *)

(** A value of the logging property bag. *)
Inductive bagval := BagString (s : string) | BagStrings (l : list string).

(** The scoped principal and property bag of the request, and everything else
    that outlives it (caches, key sets, clocks). *)
Record World (P X : Type) := mkWorld { w_principal : P; w_bag : gmap string bagval; w_ext : X }.
Arguments mkWorld {P X}. Arguments w_principal {P X}. Arguments w_bag {P X}. Arguments w_ext {P X}.

Definition with_principal {P X} (w : World P X) (p : P) : World P X := mkWorld p (w_bag w) (w_ext w).
Definition with_bag {P X} (w : World P X) (b : gmap string bagval) : World P X := mkWorld (w_principal w) b (w_ext w).
Definition with_ext {P X} (w : World P X) (x : X) : World P X := mkWorld (w_principal w) (w_bag w) x.

Inductive outcome (R : Type) := Reply (r : R) | Fail (e : error) | Panicked.
Arguments Reply {R}. Arguments Fail {R}. Arguments Panicked {R}.

(** Code that may fail or panic, in sequence. *)
#[global] Instance outcome_ret : MRet outcome := fun A a => Reply a.
#[global] Instance outcome_bind : MBind outcome := fun A B f m =>
  match m with Reply a => f a | Fail e => Fail e | Panicked => Panicked end.

(** A call that returns [(T, error)] and does not panic. *)
Definition of_result {A} (r : result error A) : outcome A := match r with Ok a => Reply a | Err e => Fail e end.

(** [fmt.Errorf(prefix + "%w", err)]. *)
Definition wrap_error {A} (prefix : string) (m : outcome A) : outcome A :=
  match m with Fail e => Fail (PlainErr (prefix +:+ error_Error e)) | _ => m end.

Lemma outcome_bind_Reply {A B} (m : outcome A) (f : A → outcome B) b :
  m ≫= f = Reply b ↔ ∃ a, m = Reply a ∧ f a = Reply b.
Proof. destruct m; simpl; naive_solver. Qed.

Lemma Reply_bind {A B} (a : A) (f : A → outcome B) : Reply a ≫= f = f a.
Proof. done. Qed.

Lemma wrap_Reply {A} p (a : A) : wrap_error p (Reply a) = Reply a.
Proof. done. Qed.

Lemma wrap_error_Reply {A} p (m : outcome A) a : wrap_error p m = Reply a ↔ m = Reply a.
Proof. by destruct m. Qed.

Definition Handler (Ctx P X R : Type) : Type := Ctx → World P X → outcome R * World P X.
Definition Interceptor (Ctx P X R : Type) : Type := string → Handler Ctx P X R → Handler Ctx P X R.

(** [grpc.ChainUnaryInterceptor]: the first interceptor is the outermost. *)
Definition chain {Ctx P X R} (l : list (Interceptor Ctx P X R)) (m : string) (h : Handler Ctx P X R) : Handler Ctx P X R :=
  foldr (fun i h => i m h) h l.

(** ** The request scope ([middleware/dicontext]) *)
Section dicontext.
Context {Ctx P X R : Type} `{GrpcContext Ctx}.
(** What the application registered as scoped services, and the constructor of
    its principal. *)
Context (registered : Container) (new_principal : P).

(** A fresh scope per request: a new principal and an empty bag, disposed when the handler returns. *)
Definition ScopedContextServerInterceptor : Interceptor Ctx P X R := fun m handler ctx w =>
  let ctx' := SetRequestContainer ctx registered in
  let '(o, w') := handler ctx' (mkWorld new_principal ∅ (w_ext w)) in
  (o, mkWorld (w_principal w) (w_bag w) (w_ext w')).
End dicontext.
