(* ===== verification/AuthGate.v ===== *)
(** * The authorization gate ([middleware/claimsprincipal], [middleware/oidc/types.go])

    [authorize], the decision point shared by the unary and the stream gates, and
    the older [ClaimsConfig] rules with their evaluation. *)
From S2P Require Import Prelude GoText Claims ClaimsAST Request.
From stdpp Require Import options.

Section gate.
Context {Ctx P X R : Type} `{GrpcContext Ctx} `{IClaimsPrincipal P}.
(** [NewIClaimsPrincipal()], the empty principal. *)
Context (new_principal : P).
(** The map given to the gate; a listed method may have a nil config. *)
Context (grpcEntrypointClaimsMap : gmap string (option EntryPointConfig)) (enableZeroTrust : bool).

Definition permission_denied : error := StatusErr PermissionDenied "permission denied".

(** [di.TryGet] on the request container, or the empty principal. *)
Definition gate_principal (ctx : Ctx) (w : World P X) : P :=
  match GetRequestContainer ctx with
  | Some c => if has_principal c then w_principal w else new_principal
  | None => new_principal
  end.

(** [Ok None] lets the call through; [None] is a panic of the tree's [Validate]. *)
Definition authorize (ctx : Ctx) (fullMethod : string) (w : World P X) : option (option error) :=
  match grpcEntrypointClaimsMap !! fullMethod with
  | None => if enableZeroTrust then Some (Some permission_denied) else Some None
  | Some None => Some None
  | Some (Some elem) =>
    valid ← AST_Validate (gate_principal ctx w) (epc_ClaimsAST elem);
    if negb valid then Some (Some permission_denied) else Some None
  end.

Definition FinalAuthVerificationMiddlewareUsingClaimsMapWithTrustOptionV2 : Interceptor Ctx P X R :=
  fun fullMethod handler ctx w =>
    match authorize ctx fullMethod w with
    | None => (Panicked, w)
    | Some (Some err) => (Fail err, w)
    | Some None => handler ctx w
    end.

Definition FinalAuthVerificationStreamMiddlewareUsingClaimsMapWithTrustOptionV2 : Interceptor Ctx P X R :=
  fun fullMethod handler ss w =>
    match authorize ss fullMethod w with
    | None => (Panicked, w)
    | Some (Some err) => (Fail err, w)
    | Some None => handler ss w
    end.

Definition FinalAuthVerificationMiddlewareNilVerification : Interceptor Ctx P X R :=
  fun _ handler ctx w => handler ctx w.

(** What the gate must allow, in terms of the claims held. *)
Definition allowed (fullMethod : string) (p : P) : bool :=
  match grpcEntrypointClaimsMap !! fullMethod with
  | None => negb enableZeroTrust
  | Some None => true
  | Some (Some elem) => feval p (denote (as_validator (epc_ClaimsAST elem)) None)
  end.

Lemma authorize_eq ctx m w :
  authorize ctx m w = Some (if allowed m (gate_principal ctx w) then None else Some permission_denied).
Proof.
  unfold authorize, allowed. destruct (grpcEntrypointClaimsMap !! m) as [[elem|]|]; [|done|by destruct enableZeroTrust].
  unfold AST_Validate. rewrite (validate_denote (gate_principal ctx w) _ None None eq_refl). cbn [mbind option_bind].
  by destruct (feval (gate_principal ctx w) _).
Qed.

Lemma gate_eq m handler ctx w :
  FinalAuthVerificationMiddlewareUsingClaimsMapWithTrustOptionV2 m handler ctx w =
  if allowed m (gate_principal ctx w) then handler ctx w else (Fail permission_denied, w).
Proof.
  unfold FinalAuthVerificationMiddlewareUsingClaimsMapWithTrustOptionV2. rewrite authorize_eq.
  by destruct (allowed _ _).
Qed.
End gate.

Definition FinalAuthVerificationMiddlewareUsingClaimsMapWithZeroTrustV2 {Ctx P X R} `{GrpcContext Ctx} `{IClaimsPrincipal P}
    (new_principal : P) (m : gmap string (option EntryPointConfig)) : Interceptor Ctx P X R :=
  FinalAuthVerificationMiddlewareUsingClaimsMapWithTrustOptionV2 new_principal m true.

Definition FinalAuthVerificationStreamMiddlewareUsingClaimsMapWithZeroTrustV2 {Ctx P X R} `{GrpcContext Ctx} `{IClaimsPrincipal P}
    (new_principal : P) (m : gmap string (option EntryPointConfig)) : Interceptor Ctx P X R :=
  FinalAuthVerificationStreamMiddlewareUsingClaimsMapWithTrustOptionV2 new_principal m true.

(** ** [ClaimsConfig] *)
Inductive ClaimsConfig := mkCC (OR AND : list ClaimFact) (Child : option ClaimsConfig).
Definition cc_OR (c : ClaimsConfig) : list ClaimFact := let 'mkCC o _ _ := c in o.
Definition cc_AND (c : ClaimsConfig) : list ClaimFact := let 'mkCC _ a _ := c in a.
Definition cc_Child (c : ClaimsConfig) : option ClaimsConfig := let 'mkCC _ _ ch := c in ch.

(** [GetChild]: the child, created when missing, and the config that now has it. *)
Definition GetChild (s : ClaimsConfig) : ClaimsConfig * ClaimsConfig :=
  match cc_Child s with
  | Some ch => (s, ch)
  | None => let ch := mkCC [] [] None in (mkCC (cc_OR s) (cc_AND s) (Some ch), ch)
  end.

Definition WithGrpcEntrypointPermissionsClaimFactsMapOR (s : ClaimsConfig) (fs : list ClaimFact) : ClaimsConfig :=
  mkCC (foldl (fun l f => l ++ [f]) (cc_OR s) fs) (cc_AND s) (cc_Child s).
Definition WithGrpcEntrypointPermissionsClaimFactsMapAND (s : ClaimsConfig) (fs : list ClaimFact) : ClaimsConfig :=
  mkCC (cc_OR s) (foldl (fun l f => l ++ [f]) (cc_AND s) fs) (cc_Child s).

Section config.
Context {P : Type} `{IClaimsPrincipal P} (p : P).

Fixpoint and_facts (l : list ClaimFact) : bool :=
  match l with
  | [] => true
  | v :: l' =>
    if (cf_Directive v =? directive_ClaimTypeAndValue)%Z && negb (HasClaim p (cf_Claim v)) then false
    else if (cf_Directive v =? directive_ClaimType)%Z && negb (HasClaimType p (cl_Type (cf_Claim v))) then false
    else and_facts l'
  end.

Fixpoint or_facts (l : list ClaimFact) : bool :=
  match l with
  | [] => false
  | v :: l' =>
    if (cf_Directive v =? directive_ClaimTypeAndValue)%Z && HasClaim p (cf_Claim v) then true
    else if (cf_Directive v =? directive_ClaimType)%Z && HasClaimType p (cl_Type (cf_Claim v)) then true
    else or_facts l'
  end.

Definition validateAND (c : ClaimsConfig) : bool :=
  match cc_AND c with [] => true | l => and_facts l end.
Definition validateOR (c : ClaimsConfig) : bool :=
  match cc_OR c with [] => true | l => or_facts l end.

Fixpoint config_Validate (c : ClaimsConfig) : bool :=
  if negb (validateAND c) then false
  else if negb (validateOR c) then false
  else match c with mkCC _ _ (Some ch) => config_Validate ch | mkCC _ _ None => true end.
End config.

(** The same requirement as a claims tree. *)
Fixpoint config_ast (c : ClaimsConfig) : IClaimsValidator :=
  match c with
  | mkCC ors ands ch =>
    VAST ands (match ch with Some ch => [config_ast ch] | None => [] end)
      (match ors with [] => [] | _ => [VAST ors [] [] []] end) []
  end.

(** Every directive of the config is one of the two defined constants. *)
Definition known_directive (f : ClaimFact) : bool :=
  (cf_Directive f =? directive_ClaimTypeAndValue)%Z || (cf_Directive f =? directive_ClaimType)%Z.

Fixpoint config_known (c : ClaimsConfig) : bool :=
  match c with
  | mkCC ors ands ch =>
    forallb known_directive ors && forallb known_directive ands
    && match ch with Some ch => config_known ch | None => true end
  end.

(** ** Properties *)

(** the gate decides exactly the configured requirement.  The handler
    runs, on an unchanged state, if and only if the method is listed with a
    requirement that the request's claims satisfy, or listed with none, or
    unlisted while zero trust is off; otherwise the call fails with
    PermissionDenied and the handler does not run.  The unary and the stream gate
    are the same function, and neither panics. *)
Theorem gate_decides {Ctx P X R} `{GrpcContext Ctx} `{IClaimsPrincipal P}
    (new_principal : P) cfg zt m (handler : Handler Ctx P X R) ctx w :
  let passes := match cfg !! m with
                | None => zt = false
                | Some None => True
                | Some (Some e) => AST_Validate (gate_principal new_principal ctx w) (epc_ClaimsAST e) = Some true
                end in
  (passes → FinalAuthVerificationMiddlewareUsingClaimsMapWithTrustOptionV2 new_principal cfg zt m handler ctx w
            = handler ctx w) ∧
  (~ passes → FinalAuthVerificationMiddlewareUsingClaimsMapWithTrustOptionV2 new_principal cfg zt m handler ctx w
              = (Fail (StatusErr PermissionDenied "permission denied"), w)) ∧
  FinalAuthVerificationStreamMiddlewareUsingClaimsMapWithTrustOptionV2 new_principal cfg zt m handler ctx w
  = FinalAuthVerificationMiddlewareUsingClaimsMapWithTrustOptionV2 new_principal cfg zt m handler ctx w.
Proof.
  cbv zeta. rewrite gate_eq.
  assert (Hp : allowed cfg zt m (gate_principal new_principal ctx w) = true ↔
    match cfg !! m with
    | None => zt = false | Some None => True
    | Some (Some e) => AST_Validate (gate_principal new_principal ctx w) (epc_ClaimsAST e) = Some true end).
  { unfold allowed. destruct (cfg !! m) as [[e|]|]; [|done|by destruct zt].
    unfold AST_Validate. rewrite (validate_denote _ (as_validator _) None None eq_refl).
    split; [intros Hy; by rewrite Hy|intros Hy; by injection Hy]. }
  split_and!; [intros Hy%Hp; by rewrite Hy| |by rewrite <- gate_eq].
  intros Hn. destruct (allowed cfg zt m _) eqn:E; [|done]. exfalso. apply Hn. by apply Hp.
Qed.

(** the gate fails closed.  Without a request container, or without a
    principal in it, a listed requirement is evaluated against no claims at all:
    whatever claims are lying around in the state, the call is refused unless the
    requirement holds of every principal that stands for the empty set. *)
Theorem gate_fails_closed {Ctx P X R} `{GrpcContext Ctx} `{IClaimsPrincipal P} {rep} `{!ClaimsLaws P rep}
    (new_principal p0 : P) cfg zt m e (handler : Handler Ctx P X R) ctx w :
  rep new_principal ∅ → rep p0 ∅ →
  cfg !! m = Some (Some e) →
  match GetRequestContainer ctx with Some c => has_principal c = false | None => True end →
  AST_Validate p0 (epc_ClaimsAST e) = Some false →
  FinalAuthVerificationMiddlewareUsingClaimsMapWithTrustOptionV2 new_principal cfg zt m handler ctx w
  = (Fail (StatusErr PermissionDenied "permission denied"), w).
Proof.
  intros Hn H0' Hm Hc Hv. rewrite gate_eq. unfold allowed. rewrite Hm.
  assert (gate_principal new_principal ctx w = new_principal) as ->.
  { unfold gate_principal. destruct (GetRequestContainer ctx); [by rewrite Hc|done]. }
  unfold AST_Validate in Hv. rewrite (validate_denote p0 _ None None eq_refl) in Hv. apply (inj Some) in Hv.
  rewrite (feval_ext new_principal p0); [by rewrite Hv|].
  intros f. by apply (fact_HasClaim_ext new_principal p0 ∅).
Qed.

Lemma gate_fails_closed_witness :
  let admin := mkClaim "role" "admin" in
  let cfg : gmap string (option EntryPointConfig) :=
    {["/svc/Do" := Some (mkEPC "/svc/Do" (mkAST [NewClaimFact admin] [] [] []))]} in
  let w : World Principal.claimsPrincipal unit := mkWorld (AddClaim Principal.NewIClaimsPrincipal [admin]) ∅ () in
  let handler : Handler stdctx Principal.claimsPrincipal unit nat := fun _ w => (Reply 1%nat, w) in
  FinalAuthVerificationMiddlewareUsingClaimsMapWithTrustOptionV2 Principal.NewIClaimsPrincipal cfg true "/svc/Do" handler
    (mkCtx None None (Some (ContainerValue (mkContainer true true)))) w = (Reply 1%nat, w) ∧
  FinalAuthVerificationMiddlewareUsingClaimsMapWithTrustOptionV2 Principal.NewIClaimsPrincipal cfg true "/svc/Do" handler
    (mkCtx None None None) w = (Fail (StatusErr PermissionDenied "permission denied"), w).
Proof.
  intros admin cfg w handler. split; [vm_compute; reflexivity|].
  apply (gate_fails_closed Principal.NewIClaimsPrincipal Principal.NewIClaimsPrincipal cfg true "/svc/Do"
    (mkEPC "/svc/Do" (mkAST [NewClaimFact admin] [] [] []))).
  - apply Principal.principal_rep_new.
  - apply Principal.principal_rep_new.
  - reflexivity.
  - exact I.
  - reflexivity.
Defined.

(** *** [ClaimsConfig] is a claims tree *)

Lemma and_facts_eq {P} `{IClaimsPrincipal P} (p : P) l :
  forallb known_directive l = true → and_facts p l = forallb (fun f => fact_HasClaim f p) l.
Proof.
  induction l as [|f l IH]; simpl; [done|]. intros [Hf Hl]%andb_true_iff. rewrite <- IH by done.
  unfold known_directive in Hf. unfold fact_HasClaim.
  destruct (Z.eqb_spec (cf_Directive f) directive_ClaimTypeAndValue) as [->|]; simpl in *.
  - by destruct (HasClaim p (cf_Claim f)).
  - rewrite Hf. by destruct (HasClaimType p (cl_Type (cf_Claim f))).
Qed.

Lemma or_facts_eq {P} `{IClaimsPrincipal P} (p : P) l :
  forallb known_directive l = true → or_facts p l = existsb (fun f => fact_HasClaim f p) l.
Proof.
  induction l as [|f l IH]; simpl; [done|]. intros [Hf Hl]%andb_true_iff. rewrite <- IH by done.
  unfold known_directive in Hf. unfold fact_HasClaim.
  destruct (Z.eqb_spec (cf_Directive f) directive_ClaimTypeAndValue) as [->|]; simpl in *.
  - by destruct (HasClaim p (cf_Claim f)).
  - rewrite Hf. by destruct (HasClaimType p (cl_Type (cf_Claim f))).
Qed.

(** A config and all its descendants: induction through [Child]. *)
Lemma config_ind (Q : ClaimsConfig → Prop) :
  (∀ ors ands, Q (mkCC ors ands None)) → (∀ ors ands ch, Q ch → Q (mkCC ors ands (Some ch))) → ∀ c, Q c.
Proof. intros H1 H2. fix IH 1. intros [ors ands [ch|]]; [apply H2, IH|apply H1]. Qed.

Lemma level_eval {P} `{IClaimsPrincipal P} (p : P) ors ands ch (rest : list IClaimsValidator) :
  forallb known_directive ors = true → forallb known_directive ands = true →
  feval p (denote (VAST ands rest (match ors with [] => [] | _ => [VAST ors [] [] []] end) []) None)
  = validateAND p (mkCC ors ands ch) && validateOR p (mkCC ors ands ch)
    && forallb (fun v => feval p (denote v (Some true))) rest.
Proof.
  intros Ho Ha. simpl. rewrite !forallb_app, !forallb_map. unfold validateAND, validateOR. cbn [cc_AND cc_OR].
  change (forallb (fun x => feval p (FFact x)) ands) with (forallb (fun f => fact_HasClaim f p) ands).
  rewrite <- (and_facts_eq p ands Ha). cbn [forallb]. rewrite andb_true_r.
  assert (Hor : forallb (fun o => feval p (denote o (Some false))) match ors with [] => [] | _ => [VAST ors [] [] []] end
    = match ors with [] => true | _ => or_facts p ors end).
  { destruct ors as [|f ors]; [done|]. rewrite (or_facts_eq p _ Ho). simpl.
    by rewrite app_nil_r, existsb_map, andb_true_r. }
  rewrite Hor. destruct ands as [|f ands], ors as [|g ors]; simpl; rewrite ?andb_true_r; try done;
    destruct (forallb _ rest); simpl; by rewrite ?andb_true_r, ?andb_false_r.
Qed.

(** the older [ClaimsConfig] rules are an instance of the claims tree:
    with the two defined directives, [Validate] of a config (AND facts, OR facts,
    then the child chain) decides the same as [ClaimsAST.Validate] of its
    translation, for every principal. *)
Theorem ClaimsConfig_is_a_tree {P} `{IClaimsPrincipal P} (p : P) c :
  config_known c = true → validate p (config_ast c) None = Some (config_Validate p c).
Proof.
  intros Hk. rewrite (validate_denote p _ None None eq_refl). f_equal. revert Hk.
  induction c as [ors ands|ors ands ch IH] using config_ind; cbn [config_known config_ast];
    intros [[Ho Ha]%andb_true_iff Hch]%andb_true_iff.
  - rewrite (level_eval p ors ands None) by done. simpl.
    by destruct (validateAND p _), (validateOR p _).
  - rewrite (level_eval p ors ands (Some ch)) by done. cbn [forallb]. rewrite andb_true_r.
    replace (denote (config_ast ch) (Some true)) with (denote (config_ast ch) None) by (by destruct ch).
    rewrite (IH Hch). simpl. by destruct (validateAND p _), (validateOR p _).
Qed.

Lemma ClaimsConfig_is_a_tree_witness :
  let c := mkCC [NewClaimFactType "org"; NewClaimFact (mkClaim "role" "admin")] [NewClaimFactType "sub"]
             (Some (mkCC [] [NewClaimFact (mkClaim "aud" "api")] None)) in
  let p := AddClaim Principal.NewIClaimsPrincipal [mkClaim "sub" "u"; mkClaim "role" "admin"; mkClaim "aud" "api"] in
  config_Validate p c = true ∧ validate p (config_ast c) None = Some (config_Validate p c).
Proof.
  intros c p. split; [vm_compute; reflexivity|]. apply (ClaimsConfig_is_a_tree p c). reflexivity.
Defined.
