(* ===== verification/Mtls.v ===== *)
(** * Client-certificate claims ([middleware/auth/mtls/mtls.go])

    The interceptors that put the verified leaf certificate of the connection on
    the request's principal as reserved [mtls_*] claims.  SHA-256 is a parameter. *)
From S2P Require Import Prelude GoText Claims Request.
From stdpp Require Import options.

Section mtls.
Context {Ctx P X R : Type} `{GrpcContext Ctx} `{IClaimsPrincipal P}.
(** [sha256.Sum256]. *)
Context (Sum256 : list N → list N).

Definition verifiedClientCert (ctx : Ctx) : option Certificate :=
  match peer_AuthInfo ctx with
  | None => None
  | Some OtherAuthInfo => None
  | Some (TLSInfo VerifiedChains) =>
    match VerifiedChains with
    | [] => None
    | [] :: _ => None
    | (leaf :: _) :: _ => Some leaf
    end
  end.

(** The [AddClaim] calls of [addPeerCertClaims], in order. *)
Definition add_cert_claims (p : P) (cert : Certificate) : P :=
  let p := AddClaim p [mkClaim ClaimTypeMTLSVerified "true"] in
  let p := if decide (CommonName cert = "") then p
           else AddClaim p [mkClaim ClaimTypeMTLSCommonName (CommonName cert)] in
  let p := AddClaim p [mkClaim ClaimTypeMTLSFingerprint (hex_EncodeToString (Sum256 (Raw cert)))] in
  foldl (fun p uri => AddClaim p [mkClaim ClaimTypeMTLSSANURI uri]) p (URIs cert).

(** [None]: [di.Get] panics when the container has no principal. *)
Definition addPeerCertClaims (ctx : Ctx) (w : World P X) : option (World P X) :=
  match verifiedClientCert ctx with
  | None => Some w
  | Some cert =>
    match GetRequestContainer ctx with
    | None => Some w
    | Some c => if has_principal c then Some (with_principal w (add_cert_claims (w_principal w) cert)) else None
    end
  end.

Definition mtls_UnaryServerInterceptor : Interceptor Ctx P X R := fun _ handler ctx w =>
  match addPeerCertClaims ctx w with Some w' => handler ctx w' | None => (Panicked, w) end.

Definition mtls_StreamServerInterceptor : Interceptor Ctx P X R := fun _ handler ss w =>
  match addPeerCertClaims ss w with Some w' => handler ss w' | None => (Panicked, w) end.

(** ** The claims a verified certificate stands for *)
Definition cert_claims (cert : Certificate) : list Claim :=
  [mkClaim ClaimTypeMTLSVerified "true"]
  ++ (if decide (CommonName cert = "") then [] else [mkClaim ClaimTypeMTLSCommonName (CommonName cert)])
  ++ [mkClaim ClaimTypeMTLSFingerprint (hex_EncodeToString (Sum256 (Raw cert)))]
  ++ (mkClaim ClaimTypeMTLSSANURI <$> URIs cert).

Definition peer_claims (ctx : Ctx) : list Claim :=
  match verifiedClientCert ctx with Some cert => cert_claims cert | None => [] end.

Lemma cert_claims_typed cert c : c ∈ cert_claims cert → cl_Type c ≠ "" ∧ reserved c = true.
Proof.
  unfold cert_claims. rewrite !elem_of_app, !list_elem_of_singleton, list_elem_of_fmap.
  intros [->|[Hc|[->|(u & -> & _)]]]; try done.
  case_decide; [by apply elem_of_nil in Hc|]. apply list_elem_of_singleton in Hc as ->. done.
Qed.

Context {rep : P → gset Claim → Prop} `{HL : !ClaimsLaws P rep}.

Lemma typed_app l1 l2 : typed (l1 ++ l2) = typed l1 ∪ typed l2.
Proof. unfold typed. rewrite filter_app. apply list_to_set_app_L. Qed.

Lemma rep_AddClaim_app p S l1 l2 :
  rep p (S ∪ typed l1) → rep (AddClaim p l2) (S ∪ typed (l1 ++ l2)).
Proof using HL. intros Hp. rewrite typed_app, (assoc_L (∪)). by apply law_AddClaim. Qed.

Lemma rep_add_uris p S l0 uris :
  rep p (S ∪ typed l0) →
  rep (foldl (fun p uri => AddClaim p [mkClaim ClaimTypeMTLSSANURI uri]) p uris)
      (S ∪ typed (l0 ++ (mkClaim ClaimTypeMTLSSANURI <$> uris))).
Proof using HL.
  revert p l0. induction uris as [|u uris IH]; intros p l0 Hp; simpl; [by rewrite app_nil_r|].
  rewrite cons_middle, (assoc_L (++)). by apply IH, rep_AddClaim_app.
Qed.

Lemma rep_add_cert_claims p S cert :
  rep p S → rep (add_cert_claims p cert) (S ∪ typed (cert_claims cert)).
Proof using HL.
  intros Hp. unfold add_cert_claims, cert_claims. rewrite !(assoc_L (++)). apply rep_add_uris, rep_AddClaim_app.
  case_decide; [rewrite app_nil_r; by apply law_AddClaim|]. by apply rep_AddClaim_app, law_AddClaim.
Qed.
End mtls.

(** the mTLS interceptor adds exactly the claims of the verified leaf
    certificate and never refuses a call.  With a verified chain (and a request
    scope) the handler runs with [mtls_verified], the non-empty common name, the
    SHA-256 fingerprint and every URI SAN added; without one (plaintext, no client
    certificate, presented but unverified) it runs on the untouched state. *)
Theorem mtls_adds_verified_claims {Ctx P X R} `{GrpcContext Ctx} `{IClaimsPrincipal P} {rep} `{!ClaimsLaws P rep}
    Sum256 m (handler : Handler Ctx P X R) ctx w S c :
  GetRequestContainer ctx = Some c → has_principal c = true → rep (w_principal w) S →
  ∃ p', rep p' (S ∪ typed (peer_claims Sum256 ctx)) ∧
    mtls_UnaryServerInterceptor Sum256 m handler ctx w = handler ctx (with_principal w p') ∧
    mtls_StreamServerInterceptor Sum256 m handler ctx w = handler ctx (with_principal w p') ∧
    (verifiedClientCert ctx = None → p' = w_principal w) ∧
    (∀ cl, cl ∈ peer_claims Sum256 ctx → cl ∈ typed (peer_claims Sum256 ctx) ∧ reserved cl = true).
Proof.
  intros Hc Hp Hr. unfold mtls_UnaryServerInterceptor, mtls_StreamServerInterceptor, addPeerCertClaims, peer_claims.
  rewrite Hc, Hp. destruct (verifiedClientCert ctx) as [cert|].
  - exists (add_cert_claims Sum256 (w_principal w) cert). split; [by apply rep_add_cert_claims|].
    split_and!; try done. intros cl Hcl. destruct (cert_claims_typed _ _ _ Hcl). by rewrite elem_of_typed.
  - exists (w_principal w). destruct w. split_and!; try done.
    + by replace (S ∪ typed []) with S by (unfold typed; set_solver).
    + intros cl ?%elem_of_nil. done.
Qed.

Lemma mtls_adds_verified_claims_witness :
  let cert := mkCert "svc-a" [1; 2; 3]%N ["spiffe://cluster.local/ns/foo/sa/bar"] in
  let ctx := mkCtx None (Some (TLSInfo [[cert]])) (Some (ContainerValue (mkContainer true true))) in
  let w : World Principal.claimsPrincipal unit := mkWorld Principal.NewIClaimsPrincipal ∅ () in
  let handler : Handler stdctx Principal.claimsPrincipal unit bool :=
    fun _ w => (Reply (HasClaim (w_principal w) (mkClaim "mtls_verified" "true")), w) in
  (mtls_UnaryServerInterceptor (fun b => b) "m" handler ctx w).1 = Reply true ∧
  ∃ p', Principal.principal_rep p' (∅ ∪ typed (peer_claims (fun b => b) ctx)) ∧
    mtls_UnaryServerInterceptor (fun b => b) "m" handler ctx w = handler ctx (with_principal w p').
Proof.
  intros cert ctx w handler. split; [vm_compute; reflexivity|].
  assert (Hc : GetRequestContainer ctx = Some (mkContainer true true)) by reflexivity.
  destruct (mtls_adds_verified_claims (fun b => b) "m" handler ctx w ∅ (mkContainer true true)
    Hc eq_refl Principal.principal_rep_new) as (p' & Hr & He & _).
  exists p'. split; [exact Hr|exact He].
Defined.
