(* ===== verification/Jwks.v ===== *)
(** * Key sets and the refresh gate ([middleware/auth/jwt/middleware.go],
      [keySetForKid] and [loadKeySet])

    Requests look up the signing keys of an issuer in a shared cache and force a
    refresh when a key is unknown, but at most once per interval and per URL.
    Many requests do this at the same time: a request is a thread with a program
    counter ([pc]), one step of it is a cache call or a section under the URL's
    mutex, and the system is any interleaving of such steps with background
    changes of the cache, new requests and changes of the interval.

    The cache ([jwkfetch]/[httprc]) is third-party code: the class [JwkCache].
    [time.Now()] reads a clock: the [n]-th reading of the run is [now n]. *)
From S2P Require Import Prelude GoText Claims Request.
From stdpp Require Import options.

Class JwkCache (C KeySet : Type) := {
  Lookup : C → string → result error KeySet;
  Refresh : C → string → C * result error KeySet;
  LookupResource : C → string → result error unit;
  IsBusy : C → string → bool;
  Ready : C → string → C * result error unit;
  LookupKeyID : KeySet → string → bool }.

(** 30 seconds, in nanoseconds. *)
Definition DefaultMinJWKSRefreshInterval : Z := 30000000000.

Section jwks.
Context {C KeySet : Type} `{JwkCache C KeySet} (now : nat → Z).

(** The shared variables: the cache, the gates' [last] (absent or [None] is the
    zero time), the interval, the number of clock readings so far; and the log of
    forced refreshes (URL, recorded attempt time, interval in force). *)
Record jwks := mkJwks {
  jk_cache : C;
  jk_gates : gmap string (option Z);
  jk_min : Z;
  jk_reads : nat;
  jk_fetches : list (string * Z * Z) }.

Definition with_cache (s : jwks) (c : C) : jwks := mkJwks c (jk_gates s) (jk_min s) (jk_reads s) (jk_fetches s).

Definition SetMinJWKSRefreshInterval (s : jwks) (d : Z) : jwks :=
  let d := if (d <=? 0)%Z then DefaultMinJWKSRefreshInterval else d in
  mkJwks (jk_cache s) (jk_gates s) d (jk_reads s) (jk_fetches s).

Definition time_Now (s : jwks) : Z * jwks :=
  (now (jk_reads s), mkJwks (jk_cache s) (jk_gates s) (jk_min s) (S (jk_reads s)) (jk_fetches s)).

Definition gate_last (s : jwks) (url : string) : option Z := default None (jk_gates s !! url).

(** [_jwksRefreshGates.LoadOrStore]. *)
Definition LoadOrStore_gate (s : jwks) (url : string) : jwks :=
  match jk_gates s !! url with
  | Some _ => s
  | None => mkJwks (jk_cache s) (<[url := None]> (jk_gates s)) (jk_min s) (jk_reads s) (jk_fetches s)
  end.

(** [!gate.last.IsZero() && time.Since(gate.last) < interval]: [Since] is only
    evaluated for a non-zero time. *)
Definition recently (s : jwks) (url : string) : bool * jwks :=
  match gate_last s url with
  | None => (false, s)
  | Some last => let '(t, s') := time_Now s in ((t - last <? jk_min s')%Z, s')
  end.

(** [gate.last = time.Now()], with the attempt recorded. *)
Definition record_attempt (s : jwks) (url : string) : jwks :=
  let '(t, s') := time_Now s in
  mkJwks (jk_cache s') (<[url := Some t]> (jk_gates s')) (jk_min s') (jk_reads s')
    (jk_fetches s' ++ [(url, t, jk_min s')]).

(** [refreshJWKS]; the two clock readings are for its log line. *)
Definition refreshJWKS (s : jwks) (url : string) : jwks * result error KeySet :=
  let '(_, s) := time_Now s in
  let '(c, r) := Refresh (jk_cache s) url in
  let '(_, s) := time_Now (with_cache s c) in
  (s, r).

Definition fetch (s : jwks) (url : string) : jwks * result error KeySet :=
  refreshJWKS (record_attempt s url) url.

Definition not_available (url : string) : error :=
  PlainErr ("the keys at " +:+ url +:+ " are not available (the last attempt to fetch them failed)").

(** Where a call of [keySetForKid] is. *)
Inductive pc :=
| PStart                                  (* LoadOrStore, first Lookup *)
| PLoad                                   (* loadKeySet: LookupResource *)
| PRecent                                 (* loadKeySet: first section under the gate *)
| PRecentLookup                           (* the Lookup after a recent failure *)
| PBusy                                   (* IsBusy, Ready *)
| PReadyLookup                            (* the Lookup after Ready *)
| PLoadGate                               (* loadKeySet: second section under the gate *)
| PFound (set : KeySet)                   (* LookupKeyID on the set obtained *)
| PGate                                   (* keySetForKid's section under the gate *)
| PDone (r : result error (option KeySet * bool)).

(** The section of [keySetForKid] under [gate.mu]. *)
Definition kid_section (s : jwks) (url kid : string) : jwks * pc :=
  let again := Lookup (jk_cache s) url in
  let refresh :=
    let '(rec, s1) := recently s url in
    if rec then (s1, PDone (Ok (match again with Ok set => Some set | Err _ => None end, false)))
    else
      let '(s2, r) := fetch s1 url in
      match r with
      | Err e => (s2, PDone (Err e))
      | Ok set => (s2, PDone (Ok (Some set, LookupKeyID set kid)))
      end in
  match again with
  | Ok set => if LookupKeyID set kid then (s, PDone (Ok (Some set, true))) else refresh
  | Err _ => refresh
  end.

(** The last section of [loadKeySet]. *)
Definition load_section (s : jwks) (url : string) : jwks * pc :=
  match Lookup (jk_cache s) url with
  | Ok set => (s, PFound set)
  | Err _ =>
    let '(rec, s1) := recently s url in
    if rec then (s1, PDone (Err (not_available url)))
    else
      let '(s2, r) := fetch s1 url in
      match r with Ok set => (s2, PFound set) | Err e => (s2, PDone (Err e)) end
  end.

Definition kstep (url kid : string) (p : pc) (s : jwks) : jwks * pc :=
  match p with
  | PStart =>
      let s := LoadOrStore_gate s url in
      match Lookup (jk_cache s) url with Ok set => (s, PFound set) | Err _ => (s, PLoad) end
  | PLoad =>
      match LookupResource (jk_cache s) url with Ok _ => (s, PRecent) | Err e => (s, PDone (Err e)) end
  | PRecent =>
      let '(rec, s1) := recently s url in (s1, if rec then PRecentLookup else PBusy)
  | PRecentLookup =>
      match Lookup (jk_cache s) url with Ok set => (s, PFound set) | Err _ => (s, PDone (Err (not_available url))) end
  | PBusy =>
      if IsBusy (jk_cache s) url then
        let '(_, s) := time_Now s in
        let '(c, r) := Ready (jk_cache s) url in
        let '(_, s) := time_Now (with_cache s c) in
        (s, match r with Ok _ => PReadyLookup | Err _ => PLoadGate end)
      else (s, PLoadGate)
  | PReadyLookup =>
      match Lookup (jk_cache s) url with Ok set => (s, PFound set) | Err e => (s, PDone (Err e)) end
  | PLoadGate => load_section s url
  | PFound set => (s, if LookupKeyID set kid then PDone (Ok (Some set, true)) else PGate)
  | PGate => kid_section s url kid
  | PDone r => (s, PDone r)
  end.

(** One uninterrupted call, as the sequential code runs it. *)
Fixpoint krun (fuel : nat) (url kid : string) (p : pc) (s : jwks) : jwks * pc :=
  match fuel with
  | O => (s, p)
  | S fuel' =>
    match p with
    | PDone _ => (s, p)
    | _ => let '(s', p') := kstep url kid p s in krun fuel' url kid p' s'
    end
  end.

(** Eight steps are enough (see [keySetForKid_total]). *)
Definition keySetForKid (s : jwks) (url kid : string) : jwks * result error (option KeySet * bool) :=
  let '(s', p) := krun 8 url kid PStart s in
  (s', match p with PDone r => r | _ => Err (PlainErr "unreachable") end).

(** ** The system of concurrent requests *)
Record sys := mkSys { sy_shared : jwks; sy_threads : list (string * string * pc) }.

Inductive sys_step : sys → sys → Prop :=
| step_thread s ths i url kid p s' p' :
    ths !! i = Some (url, kid, p) → kstep url kid p s = (s', p') →
    sys_step (mkSys s ths) (mkSys s' (<[i := (url, kid, p')]> ths))
| step_request s ths url kid : sys_step (mkSys s ths) (mkSys s (ths ++ [(url, kid, PStart)]))
| step_background s ths c : sys_step (mkSys s ths) (mkSys (with_cache s c) ths)
| step_set_interval s ths d : sys_step (mkSys s ths) (mkSys (SetMinJWKSRefreshInterval s d) ths).

Definition sys_init (c : C) : sys :=
  mkSys (SetMinJWKSRefreshInterval (mkJwks c ∅ 0 0 []) DefaultMinJWKSRefreshInterval) [].

(** ** Proofs *)

(** The most recent attempt for a URL. *)
Definition last_attempt (l : list (string * Z * Z)) (url : string) : option Z :=
  foldl (fun acc '(u, t, _) => if decide (u = url) then Some t else acc) None l.

(** Every attempt comes at least the interval in force after the previous one
    for the same URL. *)
Inductive spaced : list (string * Z * Z) → Prop :=
| spaced_nil : spaced []
| spaced_snoc l url t d :
    spaced l → (∀ t0, last_attempt l url = Some t0 → t - t0 >= d)%Z → spaced (l ++ [(url, t, d)]).

Definition gates_ok (s : jwks) : Prop :=
  spaced (jk_fetches s) ∧ ∀ url, gate_last s url = last_attempt (jk_fetches s) url.

Lemma last_attempt_snoc l url url' t d :
  last_attempt (l ++ [(url, t, d)]) url' = if decide (url = url') then Some t else last_attempt l url'.
Proof. unfold last_attempt. by rewrite foldl_app. Qed.

Context (now_mono : ∀ i j, i <= j → (now i <= now j)%Z).

Lemma gate_last_insert s url url' t c m n f :
  gate_last (mkJwks c (<[url := Some t]> (jk_gates s)) m n f) url' = if decide (url = url') then Some t else gate_last s url'.
Proof.
  unfold gate_last. simpl. case_decide as Hu; [subst; by rewrite lookup_insert_eq|by rewrite lookup_insert_ne].
Qed.

(** A refresh passes the gate, and the log stays spaced. *)
Lemma attempt_ok s url s1 :
  gates_ok s → recently s url = (false, s1) → gates_ok (record_attempt s1 url).
Proof using now_mono.
  intros [Hs Hg] Hr. unfold recently in Hr. pose proof (Hg url) as Hl.
  assert (Hsame : jk_gates s1 = jk_gates s ∧ jk_fetches s1 = jk_fetches s ∧
    ∀ t0, last_attempt (jk_fetches s) url = Some t0 → (now (jk_reads s1) - t0 >= jk_min s1)%Z).
  { destruct (gate_last s url) as [t0|] eqn:E; simpl in Hr.
    - injection Hr as Hlt <-. split_and!; [done|done|]. intros t' Ht'. simpl.
      assert (t' = t0) as -> by congruence. apply Z.ltb_ge in Hlt. simpl in Hlt.
      pose proof (now_mono (jk_reads s) (S (jk_reads s))). lia.
    - injection Hr as <-. split_and!; [done|done|]. intros t' Ht'. congruence. }
  destruct Hsame as (Eg & Ef & Hgap). split.
  - simpl. rewrite Ef. by apply spaced_snoc.
  - intros url'. unfold record_attempt. simpl. rewrite gate_last_insert, last_attempt_snoc.
    case_decide; [done|]. rewrite Ef, <- Hg. unfold gate_last. by rewrite Eg.
Qed.

(** Steps that touch neither the gates nor the log keep the invariant. *)
Lemma gates_ok_frame s s' :
  jk_fetches s' = jk_fetches s → (∀ url, gate_last s' url = gate_last s url) → gates_ok s → gates_ok s'.
Proof. intros Hf Hl [Hs Hg]. split; [by rewrite Hf|]. intros url. by rewrite Hl, Hf. Qed.

Lemma recently_frame s url b s1 : recently s url = (b, s1) → jk_fetches s1 = jk_fetches s ∧ ∀ u, gate_last s1 u = gate_last s u.
Proof. unfold recently. destruct (gate_last s url); intros [= <- <-]; done. Qed.

Lemma refresh_frame s url s' r : refreshJWKS s url = (s', r) → jk_fetches s' = jk_fetches s ∧ ∀ u, gate_last s' u = gate_last s u.
Proof. unfold refreshJWKS, time_Now. simpl. destruct (Refresh (jk_cache s) url). intros [= <- <-]. done. Qed.

Lemma fetch_ok s url s1 s2 r :
  gates_ok s → recently s url = (false, s1) → fetch s1 url = (s2, r) → gates_ok s2.
Proof using now_mono.
  intros Hg Hr Hf. unfold fetch in Hf. apply refresh_frame in Hf as [Hf Hl].
  eapply gates_ok_frame; [exact Hf|exact Hl|]. by eapply attempt_ok.
Qed.

Lemma kid_section_ok s url kid s' p' : gates_ok s → kid_section s url kid = (s', p') → gates_ok s'.
Proof using now_mono.
  intros Hg. unfold kid_section. destruct (recently s url) as [rec s1] eqn:Hr.
  pose proof (recently_frame _ _ _ _ Hr) as [Hf Hl].
  assert (Hg1 : gates_ok s1) by (by eapply gates_ok_frame).
  destruct (Lookup (jk_cache s) url) as [set|e]; [destruct (LookupKeyID set kid); [by intros [= <- <-]|]|];
    (destruct rec; [by intros [= <- <-]|]); destruct (fetch s1 url) as [s2 r] eqn:Hfe;
    pose proof (fetch_ok _ _ _ _ _ Hg Hr Hfe); destruct r; by intros [= <- <-].
Qed.

Lemma load_section_ok s url s' p' : gates_ok s → load_section s url = (s', p') → gates_ok s'.
Proof using now_mono.
  intros Hg. unfold load_section. destruct (Lookup (jk_cache s) url); [by intros [= <- <-]|].
  destruct (recently s url) as [rec s1] eqn:Hr. pose proof (recently_frame _ _ _ _ Hr) as [Hf Hl].
  destruct rec; [intros [= <- <-]; by eapply gates_ok_frame|].
  destruct (fetch s1 url) as [s2 r] eqn:Hfe. pose proof (fetch_ok _ _ _ _ _ Hg Hr Hfe).
  destruct r; by intros [= <- <-].
Qed.

Lemma kstep_ok url kid p s s' p' : gates_ok s → kstep url kid p s = (s', p') → gates_ok s'.
Proof using now_mono.
  intros Hg. destruct p; simpl.
  - assert (Hs : gates_ok (LoadOrStore_gate s url)).
    { unfold LoadOrStore_gate. destruct (jk_gates s !! url) eqn:E; [done|].
      eapply gates_ok_frame; [|..|exact Hg]; [done|]. intros u. unfold gate_last. simpl.
      destruct (decide (url = u)) as [<-|]; [by rewrite lookup_insert_eq, E|by rewrite lookup_insert_ne]. }
    destruct (Lookup _ _); by intros [= <- <-].
  - destruct (LookupResource _ _); by intros [= <- <-].
  - destruct (recently s url) as [rec s1] eqn:Hr. intros [= <- <-].
    destruct (recently_frame _ _ _ _ Hr). by eapply gates_ok_frame.
  - destruct (Lookup _ _); by intros [= <- <-].
  - destruct (IsBusy _ _); [|by intros [= <- <-]]. unfold time_Now. simpl.
    destruct (Ready _ _). by intros [= <- <-].
  - destruct (Lookup _ _); by intros [= <- <-].
  - by apply load_section_ok.
  - by intros [= <- <-].
  - by apply kid_section_ok.
  - by intros [= <- <-].
Qed.

(** Intervals are positive, so the attempts for a URL are in order of time. *)
Definition intervals_ok (s : jwks) : Prop :=
  (0 < jk_min s)%Z ∧ Forall (fun e : string * Z * Z => 0 < e.2)%Z (jk_fetches s).

Lemma recently_intervals s url b s1 : recently s url = (b, s1) → intervals_ok s → intervals_ok s1.
Proof. unfold recently. destruct (gate_last s url); intros [= <- <-]; done. Qed.

Lemma fetch_intervals s url s2 r : fetch s url = (s2, r) → intervals_ok s → intervals_ok s2.
Proof.
  unfold fetch, refreshJWKS, record_attempt, time_Now. simpl. destruct (Refresh _ _). intros [= <- <-] [Hm Hf].
  split; simpl; [done|]. by apply Forall_app_2; [|constructor].
Qed.

Lemma kstep_intervals url kid p s s' p' : kstep url kid p s = (s', p') → intervals_ok s → intervals_ok s'.
Proof.
  intros Hk Hi. destruct p; simpl in Hk.
  - unfold LoadOrStore_gate in Hk. destruct (jk_gates s !! url), (Lookup _ _); by simplify_eq.
  - destruct (LookupResource _ _); by simplify_eq.
  - destruct (recently s url) eqn:Hr. simplify_eq. by eapply recently_intervals.
  - destruct (Lookup _ _); by simplify_eq.
  - destruct (IsBusy _ _); [|by simplify_eq]. unfold time_Now in Hk. simpl in Hk. destruct (Ready _ _). by simplify_eq.
  - destruct (Lookup _ _); by simplify_eq.
  - unfold load_section in Hk. destruct (Lookup _ _); [by simplify_eq|]. destruct (recently s url) eqn:Hr.
    pose proof (recently_intervals _ _ _ _ Hr Hi). destruct b; [by simplify_eq|].
    destruct (fetch j url) as [s2 r] eqn:Hf. pose proof (fetch_intervals _ _ _ _ Hf H0). destruct r; by simplify_eq.
  - by simplify_eq.
  - unfold kid_section in Hk. destruct (recently s url) eqn:Hr.
    pose proof (recently_intervals _ _ _ _ Hr Hi). destruct (fetch j url) as [s2 r] eqn:Hf.
    pose proof (fetch_intervals _ _ _ _ Hf H0).
    destruct (Lookup _ _) as [set|]; [destruct (LookupKeyID set kid)|]; destruct b; destruct r; by simplify_eq.
  - by simplify_eq.
Qed.

(** In a spaced log, any two attempts for a URL are apart by the interval in
    force at the later one. *)
Lemma spaced_latest l url t :
  spaced l → Forall (fun e : string * Z * Z => 0 < e.2)%Z l →
  (∃ d, (url, t, d) ∈ l) → ∃ t0, last_attempt l url = Some t0 ∧ (t <= t0)%Z.
Proof.
  intros Hs. induction Hs as [|l u t1 d1 Hs IH Hgap]; intros Hf [d Hin]; [by apply elem_of_nil in Hin|].
  apply Forall_app in Hf as [Hf Hd]. apply Forall_cons in Hd as [Hd _]. simpl in Hd.
  rewrite last_attempt_snoc. apply elem_of_app in Hin as [Hin|Hin%list_elem_of_singleton].
  - destruct (IH Hf (ex_intro _ d Hin)) as (t0 & Ht0 & Hle). case_decide as Hu; [subst|by eauto].
    exists t1. split; [done|]. apply Hgap in Ht0. lia.
  - simplify_eq. rewrite decide_True by done. eauto with lia.
Qed.

Lemma spaced_pair l i j url ti di tj dj :
  spaced l → Forall (fun e : string * Z * Z => 0 < e.2)%Z l →
  (i < j)%nat → l !! i = Some (url, ti, di) → l !! j = Some (url, tj, dj) → (tj - ti >= dj)%Z.
Proof.
  intros Hs Hf Hij. induction Hs as [|l u t1 d1 Hs IH Hgap]; intros Hi Hj; [done|].
  apply Forall_app in Hf as [Hf Hd]. pose proof (lookup_lt_Some _ _ _ Hj) as Hlt. rewrite length_app in Hlt. simpl in Hlt.
  rewrite lookup_app_l in Hi by lia. destruct (decide (j < length l)%nat) as [Hlt'|].
  - rewrite lookup_app_l in Hj by done. by apply IH.
  - assert (j = length l) as -> by lia. rewrite list_lookup_middle in Hj by done. simplify_eq.
    destruct (spaced_latest l url ti Hs Hf) as (t0 & Ht0 & Hle).
    { exists di. by eapply list_elem_of_lookup_2. }
    apply Hgap in Ht0. lia.
Qed.

Lemma sys_step_ok σ σ' :
  sys_step σ σ' → gates_ok (sy_shared σ) ∧ intervals_ok (sy_shared σ) → gates_ok (sy_shared σ') ∧ intervals_ok (sy_shared σ').
Proof using now_mono.
  intros Hst [Hg Hi]. destruct Hst as [s ths i url kid p s' p' Hth Hk|s ths url kid|s ths c|s ths d]; simpl in *; try done.
  - split; [by eapply kstep_ok|by eapply kstep_intervals].
  - split; [done|]. split; [|by apply Hi]. simpl. case_match; [done|lia].
Qed.

Lemma sys_steps_ok σ σ' :
  rtc sys_step σ σ' → gates_ok (sy_shared σ) ∧ intervals_ok (sy_shared σ) → gates_ok (sy_shared σ') ∧ intervals_ok (sy_shared σ').
Proof using now_mono. induction 1 as [|σ1 σ2 σ3 Hst _ IH]; [done|]. intros Hok. eapply IH, sys_step_ok; eauto. Qed.

Lemma sys_reach_ok c σ : rtc sys_step (sys_init c) σ → gates_ok (sy_shared σ) ∧ intervals_ok (sy_shared σ).
Proof using now_mono.
  intros Hr. eapply sys_steps_ok; [exact Hr|]. split.
  - split; [constructor|]. intros url. unfold gate_last. simpl. by rewrite lookup_empty.
  - split; simpl; [done|constructor].
Qed.

(** *** Results *)
Definition pc_sound (kid : string) (p : pc) : Prop :=
  match p with
  | PDone (Ok (set, true)) => ∃ ks, set = Some ks ∧ LookupKeyID ks kid = true
  | _ => True
  end.

Lemma kstep_sound url kid p s s' p' : kstep url kid p s = (s', p') → pc_sound kid p → pc_sound kid p'.
Proof.
  intros Hk Hp. destruct p; simpl in Hk.
  - destruct (Lookup _ _); by simplify_eq.
  - destruct (LookupResource _ _); by simplify_eq.
  - destruct (recently s url) as [[] ?]; by simplify_eq.
  - destruct (Lookup _ _); by simplify_eq.
  - destruct (IsBusy _ _); [|by simplify_eq]. unfold time_Now in Hk. simpl in Hk.
    destruct (Ready _ _) as [? [|]]; by simplify_eq.
  - destruct (Lookup _ _); by simplify_eq.
  - unfold load_section in Hk. destruct (Lookup _ _); [by simplify_eq|]. destruct (recently s url) as [[] s1]; [by simplify_eq|].
    destruct (fetch s1 url) as [? [|]]; by simplify_eq.
  - destruct (LookupKeyID set kid) eqn:E; simplify_eq; simpl; eauto.
  - unfold kid_section in Hk. destruct (recently s url) as [b s1]. destruct (fetch s1 url) as [s2 r].
    destruct (Lookup _ _) as [set|]; [destruct (LookupKeyID set kid) eqn:E|]; destruct b; destruct r as [ks|];
      simplify_eq; simpl; eauto; destruct (LookupKeyID ks kid) eqn:E'; eauto.
  - by simplify_eq.
Qed.

(** A measure on program counters that every step decreases. *)
Definition rank (p : pc) : nat :=
  match p with
  | PStart => 8 | PLoad => 7 | PRecent => 6 | PRecentLookup => 3 | PBusy => 5 | PReadyLookup => 3
  | PLoadGate => 4 | PFound _ => 2 | PGate => 1 | PDone _ => 0
  end%nat.

Lemma kstep_rank url kid p s s' p' : kstep url kid p s = (s', p') → (∀ r, p ≠ PDone r) → (rank p' < rank p)%nat.
Proof.
  intros Hk Hp. destruct p; simpl in Hk; try (by destruct (Hp _ eq_refl)).
  - destruct (Lookup _ _); simplify_eq; simpl; lia.
  - destruct (LookupResource _ _); simplify_eq; simpl; lia.
  - destruct (recently s url) as [[] ?]; simplify_eq; simpl; lia.
  - destruct (Lookup _ _); simplify_eq; simpl; lia.
  - destruct (IsBusy _ _); [|simplify_eq; simpl; lia]. unfold time_Now in Hk. simpl in Hk.
    destruct (Ready _ _) as [? [|]]; simplify_eq; simpl; lia.
  - destruct (Lookup _ _); simplify_eq; simpl; lia.
  - unfold load_section in Hk. destruct (Lookup _ _); [simplify_eq; simpl; lia|].
    destruct (recently s url) as [[] s1]; [simplify_eq; simpl; lia|].
    destruct (fetch s1 url) as [? [|]]; simplify_eq; simpl; lia.
  - destruct (LookupKeyID set kid); simplify_eq; simpl; lia.
  - unfold kid_section in Hk. destruct (recently s url) as [b s1]. destruct (fetch s1 url) as [s2 r].
    destruct (Lookup _ _) as [set|]; [destruct (LookupKeyID set kid)|]; destruct b; destruct r;
      simplify_eq; simpl; lia.
Qed.

Lemma krun_done n url kid p s : (rank p <= n)%nat → pc_sound kid p →
  ∃ s' r, krun n url kid p s = (s', PDone r) ∧ pc_sound kid (PDone r).
Proof.
  revert p s. induction n as [|n IH]; intros p s Hr Hp; destruct p as [| | | | | | |ks| |r]; simpl in Hr; try lia;
    try (by exists s, r); cbn [krun].
  all: match goal with |- context [kstep _ _ ?p _] => destruct (kstep url kid p s) as [s' p'] eqn:E;
    pose proof (kstep_rank _ _ _ _ _ _ E) as Hlt; pose proof (kstep_sound _ _ _ _ _ _ E Hp) as Hs end.
  all: apply IH; [simpl in Hlt; assert (rank p' < S n)%nat by (eapply Nat.lt_le_trans; [by apply Hlt|done]); lia|done].
Qed.

Lemma krun_S n url kid p s s' p' :
  (∀ r, p ≠ PDone r) → kstep url kid p s = (s', p') → krun (S n) url kid p s = krun n url kid p' s'.
Proof. intros Hp E. destruct p as [| | | | | | |ks| |r]; try (by destruct (Hp r)); cbn [krun]; by rewrite E. Qed.

Lemma krun_PDone n url kid r s : krun n url kid (PDone r) s = (s, PDone r).
Proof. by destruct n. Qed.

Lemma keySetForKid_known s url kid s' set :
  keySetForKid s url kid = (s', Ok (set, true)) → ∃ ks, set = Some ks ∧ LookupKeyID ks kid = true.
Proof.
  destruct (krun_done 8 url kid PStart s) as (s1 & r & E & Hs); [done|done|].
  unfold keySetForKid. rewrite E. intros [= <- ->]. exact Hs.
Qed.

(** *** Where the keys come from *)
(** What the cache goes through in a call on [url] from [c]: only that call's own
    refreshes of [url] and its waits for [url]. *)
Inductive own_calls (url : string) (c : C) : C → Prop :=
| own_none : own_calls url c c
| own_refresh c' : own_calls url c c' → own_calls url c (Refresh c' url).1
| own_ready c' : own_calls url c c' → own_calls url c (Ready c' url).1.

(** [ks] is what the cache gave for [url] in the course of such a call. *)
Definition served (url : string) (c : C) (ks : KeySet) : Prop :=
  ∃ c', own_calls url c c' ∧ (Lookup c' url = Ok ks ∨ (Refresh c' url).2 = Ok ks).

(** A call that started in [s0] has made own calls only, the clock went forward,
    and the set it goes on with was served for its URL. *)
Definition call_ok (url : string) (s0 s : jwks) (p : pc) : Prop :=
  own_calls url (jk_cache s0) (jk_cache s) ∧ (jk_reads s0 <= jk_reads s)%nat ∧
  match p with
  | PFound ks | PDone (Ok (Some ks, true)) => served url (jk_cache s0) ks
  | _ => True
  end.

Lemma recently_cache s url b s1 : recently s url = (b, s1) → jk_cache s1 = jk_cache s ∧ (jk_reads s <= jk_reads s1)%nat.
Proof. unfold recently. destruct (gate_last s url); intros [= <- <-]; simpl; auto. Qed.

Lemma fetch_cache s url s' r :
  fetch s url = (s', r) →
  jk_cache s' = (Refresh (jk_cache s) url).1 ∧ r = (Refresh (jk_cache s) url).2 ∧ (jk_reads s <= jk_reads s')%nat.
Proof.
  unfold fetch, refreshJWKS, record_attempt, time_Now. simpl. destruct (Refresh (jk_cache s) url). intros [= <- <-].
  simpl. split_and!; [done|done|lia].
Qed.

Lemma served_lookup url c c' ks : own_calls url c c' → Lookup c' url = Ok ks → served url c ks.
Proof. intros. exists c'. auto. Qed.

(** A refresh under the gate, in either section. *)
Lemma fetch_call_ok url s0 s rec s1 s2 r :
  own_calls url (jk_cache s0) (jk_cache s) → (jk_reads s0 <= jk_reads s)%nat →
  recently s url = (rec, s1) → fetch s1 url = (s2, r) →
  own_calls url (jk_cache s0) (jk_cache s1) ∧ (jk_reads s0 <= jk_reads s1)%nat ∧
  own_calls url (jk_cache s0) (jk_cache s2) ∧ (jk_reads s0 <= jk_reads s2)%nat ∧
  ∀ ks, r = Ok ks → served url (jk_cache s0) ks.
Proof.
  intros Hc Hn [Ec En]%recently_cache (Ec2 & Er & En2)%fetch_cache. rewrite Ec in Ec2, Er. rewrite Ec, Ec2.
  split_and!; [done|lia|by constructor|lia|]. intros ks ->. exists (jk_cache s). auto.
Qed.

Lemma kstep_call_ok url kid s0 p s s' p' :
  kstep url kid p s = (s', p') → call_ok url s0 s p → call_ok url s0 s' p'.
Proof.
  intros Hk (Hc & Hn & Hp). unfold call_ok. destruct p; cbn [kstep] in Hk.
  - assert (jk_cache (LoadOrStore_gate s url) = jk_cache s ∧ jk_reads (LoadOrStore_gate s url) = jk_reads s) as [Ec En]
      by (unfold LoadOrStore_gate; by destruct (jk_gates s !! url)).
    destruct (Lookup _ _) eqn:El; simplify_eq; rewrite Ec, En in *; eauto using served_lookup.
  - destruct (LookupResource _ _); by simplify_eq.
  - destruct (recently s url) as [rec s1] eqn:Hr. apply recently_cache in Hr as [Ec En].
    destruct rec; simplify_eq; rewrite Ec; eauto with lia.
  - destruct (Lookup _ _) eqn:El; simplify_eq; eauto using served_lookup.
  - destruct (IsBusy _ _); [|by simplify_eq]. unfold time_Now in Hk. simpl in Hk.
    destruct (Ready (jk_cache s) url) as [c' r] eqn:Er. pose proof (own_ready url (jk_cache s0) (jk_cache s) Hc) as Hc'. rewrite Er in Hc'.
    destruct r; simplify_eq; simpl; (split_and!; [done|lia|done]).
  - destruct (Lookup _ _) eqn:El; simplify_eq; eauto using served_lookup.
  - unfold load_section in Hk. destruct (Lookup _ _) eqn:El; [simplify_eq; eauto using served_lookup|].
    destruct (recently s url) as [rec s1] eqn:Hr. destruct (fetch s1 url) as [s2 r] eqn:Hf.
    destruct (fetch_call_ok _ s0 _ _ _ _ _ Hc Hn Hr Hf) as (? & ? & ? & ? & Hks).
    destruct rec; [by simplify_eq|]. destruct r; simplify_eq; eauto.
  - destruct (LookupKeyID set kid); by simplify_eq.
  - unfold kid_section in Hk. destruct (recently s url) as [rec s1] eqn:Hr. destruct (fetch s1 url) as [s2 r] eqn:Hf.
    destruct (fetch_call_ok _ s0 _ _ _ _ _ Hc Hn Hr Hf) as (? & ? & ? & ? & Hks).
    destruct (Lookup _ _) as [set|] eqn:El; [destruct (LookupKeyID set kid)|]; try (simplify_eq; by eauto using served_lookup);
      (destruct rec; [by simplify_eq|]); destruct r as [ks|]; simplify_eq; try done;
      (split_and!; [done|done|]; destruct (LookupKeyID ks kid); [by apply Hks|done]).
  - by simplify_eq.
Qed.

Lemma krun_call_ok n url kid s0 p s :
  call_ok url s0 s p → let '(s', p') := krun n url kid p s in call_ok url s0 s' p'.
Proof.
  revert p s. induction n as [|n IH]; intros p s Hp; [done|]. destruct p as [| | | | | | |ks| |r]; try done; cbn [krun].
  all: match goal with |- context [kstep _ _ ?p _] => destruct (kstep url kid p s) as [s' p'] eqn:E end.
  all: apply IH; by eapply kstep_call_ok.
Qed.

(** The set that [keySetForKid] reports has the kid and was served for the URL
    during the call. *)
Lemma keySetForKid_served s url kid s' set :
  keySetForKid s url kid = (s', Ok (set, true)) →
  (jk_reads s <= jk_reads s')%nat ∧ ∃ ks, set = Some ks ∧ LookupKeyID ks kid = true ∧ served url (jk_cache s) ks.
Proof.
  intros Hk. destruct (keySetForKid_known _ _ _ _ _ Hk) as (ks & -> & Hks). revert Hk.
  destruct (krun_done 8 url kid PStart s) as (s1 & r & E & Hs); [done|done|].
  pose proof (krun_call_ok 8 url kid s PStart s) as Hc. unfold keySetForKid. rewrite E in *. intros [= <- ->].
  destruct Hc as (_ & Hn & Hserved); [repeat constructor|]. eauto 6.
Qed.

(** With a cached set that lacks the kid, everything is decided under the gate. *)
Lemma keySetForKid_miss s url kid set0 s' r :
  let s0 := LoadOrStore_gate s url in
  Lookup (jk_cache s0) url = Ok set0 → LookupKeyID set0 kid = false →
  kid_section s0 url kid = (s', PDone r) → keySetForKid s url kid = (s', r).
Proof.
  intros s0 Hl Hk Hs. unfold keySetForKid.
  rewrite (krun_S 7 url kid PStart s s0 (PFound set0)); [|done|cbn [kstep]; fold s0; by rewrite Hl].
  rewrite (krun_S 6 url kid (PFound set0) s0 s0 PGate); [|done|cbn [kstep]; by rewrite Hk].
  rewrite (krun_S 5 url kid PGate s0 s' (PDone r)); [|done|exact Hs]. by rewrite krun_PDone.
Qed.

(** ** Properties *)

(** C27: forced JWKS refreshes are rate limited.  In every interleaving of
    requests (random kids included), background cache changes and changes of the
    interval, any two refresh attempts for one JWKS URL are at least the minimum
    interval in force at the later one apart, so an unauthenticated caller cannot
    turn requests into fetches. *)
Theorem jwks_refresh_rate_limited c σ i j url ti di tj dj :
  rtc sys_step (sys_init c) σ →
  (i < j)%nat →
  jk_fetches (sy_shared σ) !! i = Some (url, ti, di) →
  jk_fetches (sy_shared σ) !! j = Some (url, tj, dj) →
  (tj - ti >= dj)%Z.
Proof using now_mono.
  intros Hr Hij Hi Hj. destruct (sys_reach_ok c σ Hr) as [[Hs _] [_ Hf]]. by eapply spaced_pair.
Qed.

(** a call of [keySetForKid] always returns, from any state of the
    shared variables, and when it reports the kid as known, the key set it returns
    contains that kid. *)
Theorem keySetForKid_total s url kid :
  ∃ s' r, krun 8 url kid PStart s = (s', PDone r) ∧ keySetForKid s url kid = (s', r) ∧
  ∀ set, r = Ok (set, true) → ∃ ks, set = Some ks ∧ LookupKeyID ks kid = true.
Proof.
  destruct (krun_done 8 url kid PStart s) as (s' & r & E & Hs); [done|done|].
  exists s', r. unfold keySetForKid. rewrite E. split_and!; [done|done|]. intros set ->. exact Hs.
Qed.

(** key rollover.  When the cached key set does not contain the kid:
    with the gate open (no attempt yet, or the last one at least the interval ago)
    exactly one refresh is forced and its result decides; with the gate closed
    nothing is fetched and the kid is reported unknown. *)
Theorem keySetForKid_unknown_kid s url kid set0 :
  Lookup (jk_cache s) url = Ok set0 → LookupKeyID set0 kid = false →
  let '(s', r) := keySetForKid s url kid in
  let open := match gate_last s url with
              | None => true
              | Some last => (jk_min s <=? now (jk_reads s) - last)%Z
              end in
  if open then
    (∃ t, jk_fetches s' = jk_fetches s ++ [(url, t, jk_min s)]) ∧
    r = match (Refresh (jk_cache s) url).2 with
        | Ok set => Ok (Some set, LookupKeyID set kid)
        | Err e => Err e
        end
  else jk_fetches s' = jk_fetches s ∧ r = Ok (Some set0, false).
Proof.
  intros Hl Hk. pose proof (keySetForKid_miss s url kid set0) as Hmiss. cbv zeta in Hmiss.
  set (s0 := LoadOrStore_gate s url) in *.
  assert (Hs0 : jk_cache s0 = jk_cache s ∧ jk_min s0 = jk_min s ∧ jk_reads s0 = jk_reads s ∧
                jk_fetches s0 = jk_fetches s ∧ gate_last s0 url = gate_last s url).
  { unfold s0, LoadOrStore_gate, gate_last. destruct (jk_gates s !! url) eqn:E; [by rewrite E|].
    simpl. by rewrite lookup_insert_eq. }
  destruct Hs0 as (Ec & Em & Er & Ef & Eg). rewrite Ec in Hmiss.
  unfold kid_section, recently, fetch, refreshJWKS, record_attempt, time_Now in Hmiss.
  rewrite Ec, Hl, Hk, Eg in Hmiss. cbn [jk_min jk_reads jk_cache jk_gates jk_fetches with_cache] in Hmiss.
  rewrite Em, Er, Ef in Hmiss.
  destruct (gate_last s url) as [last|].
  - rewrite Z.ltb_antisym in Hmiss.
    destruct (Z.leb_spec (jk_min s) (now (jk_reads s) - last)); cbn [negb] in Hmiss.
    + simpl in Hmiss. destruct (Refresh (jk_cache s) url) as [c' [ks|e]];
        rewrite (Hmiss _ _ eq_refl eq_refl eq_refl); simpl; eauto.
    + by rewrite (Hmiss _ _ eq_refl eq_refl eq_refl).
  - simpl in Hmiss. rewrite ?Ec, ?Em, ?Ef in Hmiss. destruct (Refresh (jk_cache s) url) as [c' [ks|e]];
      rewrite (Hmiss _ _ eq_refl eq_refl eq_refl); simpl; eauto.
Qed.
End jwks.

(** ** A concrete cache: one key set per URL, replaced by [remote] on refresh *)
Definition toy_cache (remote : list string) : JwkCache (gmap string (list string)) (list string) := {|
  Lookup := fun c url => match c !! url with Some ks => Ok ks | None => Err (PlainErr "not ready") end;
  Refresh := fun c url => (<[url := remote]> c, Ok remote);
  LookupResource := fun _ _ => Ok ();
  IsBusy := fun _ _ => false;
  Ready := fun c _ => (c, Ok ());
  LookupKeyID := fun ks kid => bool_decide (kid ∈ ks) |}.

(** Two requests with unknown kids, 40 seconds apart by the clock. *)
Definition toy_now (n : nat) : Z := Z.of_nat n * 40000000000.

Lemma toy_now_mono i j : i <= j → (toy_now i <= toy_now j)%Z.
Proof. unfold toy_now. lia. Qed.



Definition toy_state : jwks (C := gmap string (list string)) :=
  mkJwks {["u" := ["k1"]]} ∅ DefaultMinJWKSRefreshInterval 0 [].

Lemma keySetForKid_unknown_kid_witness :
  let J := toy_cache ["k1"; "k2"] in
  let '(s', r) := @keySetForKid _ _ J toy_now toy_state "u" "k2" in
  r = Ok (Some ["k1"; "k2"], true) ∧ (∃ t, jk_fetches s' = [("u", t, DefaultMinJWKSRefreshInterval)]).
Proof.
  intros J. pose proof (@keySetForKid_unknown_kid _ _ J toy_now toy_state "u" "k2" ["k1"]
    (eq_refl (Ok ["k1"])) eq_refl) as Hw.
  destruct (@keySetForKid _ _ J toy_now toy_state "u" "k2") as [s' r]. destruct Hw as [Hf Hr].
  split; [rewrite Hr; vm_compute; reflexivity|exact Hf].
Defined.

(** A run with two forced refreshes: request one starts, its last section runs,
    and a second request follows. *)
Definition run_thread {C KeySet} `{JwkCache C KeySet} (now : nat → Z) (σ : sys) (i : nat) : sys :=
  match sy_threads σ !! i with
  | Some (url, kid, p) => let '(s', p') := kstep now url kid p (sy_shared σ) in mkSys s' (<[i := (url, kid, p')]> (sy_threads σ))
  | None => σ
  end.

Lemma run_thread_step {C KeySet} `{JwkCache C KeySet} now (σ : sys) i :
  rtc (sys_step now) σ (run_thread now σ i).
Proof.
  unfold run_thread. destruct σ as [s ths]. simpl. destruct (ths !! i) as [[[url kid] p]|] eqn:E; [|done].
  destruct (kstep now url kid p s) as [s' p'] eqn:Ek. apply rtc_once. by econstructor.
Qed.

Definition add_request {C KeySet : Type} (σ : sys (C := C) (KeySet := KeySet)) (url kid : string) : sys :=
  let 'mkSys s ths := σ in mkSys s (ths ++ [(url, kid, PStart)]).

Lemma add_request_step {C KeySet} `{JwkCache C KeySet} now (σ : sys) url kid :
  rtc (sys_step now) σ (add_request σ url kid).
Proof. destruct σ as [s ths]. apply rtc_once, step_request. Qed.

Definition toy_run : sys :=
  let J := toy_cache ["k1"] in
  let σ1 := foldl (run_thread toy_now) (add_request (sys_init {["u" := ["k1"]]}) "u" "x") [0; 0; 0]%nat in
  foldl (run_thread toy_now) (add_request σ1 "u" "y") [1; 1; 1]%nat.

Lemma toy_run_reachable :
  rtc (@sys_step _ _ (toy_cache ["k1"]) toy_now) (sys_init {["u" := ["k1"]]}) toy_run.
Proof.
  unfold toy_run. cbn [foldl]. repeat (etransitivity; [|apply run_thread_step]).
  etransitivity; [|apply add_request_step]. repeat (etransitivity; [|apply run_thread_step]).
  apply add_request_step.
Qed.

Lemma jwks_refresh_rate_limited_witness :
  jk_fetches (sy_shared toy_run) =
    [("u", 0, DefaultMinJWKSRefreshInterval); ("u", 160000000000, DefaultMinJWKSRefreshInterval)]%Z ∧
  (160000000000 - 0 >= DefaultMinJWKSRefreshInterval)%Z.
Proof.
  assert (Hf : jk_fetches (sy_shared toy_run) =
    [("u", 0, DefaultMinJWKSRefreshInterval); ("u", 160000000000, DefaultMinJWKSRefreshInterval)]%Z)
    by (vm_compute; reflexivity).
  split; [exact Hf|].
  apply (@jwks_refresh_rate_limited _ _ (toy_cache ["k1"]) toy_now toy_now_mono {["u" := ["k1"]]} toy_run 0 1 "u" 0
    DefaultMinJWKSRefreshInterval 160000000000 DefaultMinJWKSRefreshInterval toy_run_reachable).
  - lia.
  - rewrite Hf. reflexivity.
  - rewrite Hf. reflexivity.
Defined.
