(* ===== verification/Jwt.v ===== *)
(** * JWT authentication ([middleware/auth/jwt/middleware.go], [jwt_token.go])

    The validators of the configured issuers, the parsing of the authorization
    header and of the token, and the unary and stream interceptors that load a
    validated token's claims onto the request's principal.

    Parsing and verifying JWS/JWT is third-party code ([lestrrat-go/jwx]): the
    class [JWX].  Its one law is the documented effect of [WithRequiredClaim(exp)]
    and [WithAcceptableSkew].  A panic is [None]. *)
From S2P Require Import Prelude GoText Claims Request Jwks.
From stdpp Require Import options.

Class JWX (Message Token KeySet F : Type) := {
  jws_ParseString : string → option Message;
  Signatures : Message → list (option string);            (* the kid of each protected header *)
  Payload : Message → string;
  jwt_Parse : string → option Token;                      (* WithVerify(false), WithValidate(false) *)
  Issuer : Token → option string;
  Subject : Token → option string;
  Audience : Token → option (list string);
  Expiration : Token → option Z;
  token_Claims : Token → gmap string (claim_value F);     (* Claims(), all of them *)
  jws_Verify : string → KeySet → bool;
  jwt_Validate : Z → Z → Token → bool }.                  (* clock, skew; requires exp *)

Class JWXLaws (Message Token KeySet F : Type) `{JWX Message Token KeySet F} := {
  Validate_requires_exp now skew tok :
    jwt_Validate now skew tok = true → ∃ exp, Expiration tok = Some exp ∧ (now <= exp + skew)%Z }.

(** [contracts/middleware/auth/jwt]; the OAuth2 fields that are read. *)
Record IssuerConfig := mkIssuer { ic_Issuer : string; ic_JWKSUrl : string; ic_Audiences : list string }.

Record service := mkService { sv_config : IssuerConfig; sv_nilValidator : bool }.

(** Package state set up before serving: [_issuerConfigs], the URLs registered
    with the cache, and the validators added to the container. *)
Record registration := mkReg {
  rg_issuerConfigs : gmap string IssuerConfig; rg_urls : gset string; rg_validators : list service }.

(** [AddValidators]: each URL is registered once; a failed registration panics. *)
Definition add_validator (register_ok : string → bool) (r : option registration) (ic : IssuerConfig) : option registration :=
  r ← r;
  let configs := <[ic_Issuer ic := ic]> (rg_issuerConfigs r) in
  let add urls := Some (mkReg configs urls (rg_validators r ++ [mkService ic false])) in
  if decide (ic_JWKSUrl ic ∈ rg_urls r) then add (rg_urls r)
  else if register_ok (ic_JWKSUrl ic) then add ({[ic_JWKSUrl ic]} ∪ rg_urls r)
  else None.

Definition AddValidators (register_ok : string → bool) (r : registration) (ics : list IssuerConfig) : option registration :=
  foldl (add_validator register_ok) (Some r) ics.

(** [AddNilValidator]: it replaces every validator. *)
Definition AddNilValidator (r : registration) : registration :=
  mkReg (rg_issuerConfigs r) (rg_urls r) [mkService (mkIssuer "" "" []) true].

(** [claimsToPropagate]: the default claims, over the configured ones. *)
Definition claimsToPropagate (cfg : option (gmap string string)) : gmap string string :=
  foldl (fun m t => <[t := t]> m) (default ∅ cfg)
    [ClaimTypeSub; ClaimTypeClientID; ClaimTypeEmail; ClaimTypeAud].

(** 5 minutes, in nanoseconds. *)
Definition acceptable_skew : Z := 300000000000.

Definition unauthenticated (msg : string) : error := StatusErr Unauthenticated msg.

Section jwt.
Context `{UT : UnicodeTables}.
Context {Message Token C KeySet F : Type} `{JWX Message Token KeySet F} `{JwkCache C KeySet}.
Context {Ctx P Y R : Type} `{GrpcContext Ctx} `{IClaimsPrincipal P}.
Context (fmt_float : F → string) (now : nat → Z) (reg : registration).

(** The state beside the request's scope: the key sets, and the rest. *)
Abbreviation X := (jwks (C := C) * Y)%type.

Record ParsedToken := mkParsed { pt_Token : Token; pt_JWSMessage : Message; pt_AccessToken : string }.

(** [Signatures()[0].ProtectedHeaders().KeyID()]: [""] when absent; panics without a signature. *)
Definition first_kid (m : Message) : option string :=
  match Signatures m with [] => None | k :: _ => Some (default "" k) end.

Definition checkAudienceMatch (tok : Token) (expected : string) : bool :=
  if decide (expected = "*") then true
  else existsb (fun v => bool_decide (v = expected)) (default [] (Audience tok)).

(** The audience loop: the first configured audience that matches. *)
Fixpoint matched_audience (tok : Token) (auds : list string) : string :=
  match auds with
  | [] => ""
  | aud :: auds' => if checkAudienceMatch tok aud then aud else matched_audience tok auds'
  end.

Definition ValidateAccessToken (s : service) (rt : ParsedToken) (x : X) : option (X * (bool * option error)) :=
  if sv_nilValidator s then Some (x, (true, None))
  else
    kid ← first_kid (pt_JWSMessage rt);
    let issuer := strings_ToLower (default "" (Issuer (pt_Token rt))) in
    if decide (issuer ≠ ic_Issuer (sv_config s)) then Some (x, (false, None))
    else
      issuerConfig ← rg_issuerConfigs reg !! issuer;
      let '(j, r) := keySetForKid now x.1 (ic_JWKSUrl issuerConfig) kid in
      let x := (j, x.2) in
      let fail msg := Some (x, (true, Some (unauthenticated msg))) in
      match r with
      | Err e => fail ("jwks fetch error: " +:+ error_Error e)
      | Ok (_, false) => fail "no keys found"
      | Ok (None, true) => None
      | Ok (Some set, true) =>
        if negb (jws_Verify (pt_AccessToken rt) set) then fail "token signature not valid"
        else
          let '(t, j) := time_Now now j in
          let x := (j, x.2) in
          let fail msg := Some (x, (true, Some (unauthenticated msg))) in
          if negb (jwt_Validate t acceptable_skew (pt_Token rt)) then fail "token signature not valid"
          else match ic_Audiences (sv_config s) with
               | [] => Some (x, (true, None))
               | auds => if decide (matched_audience (pt_Token rt) auds = "") then fail "JWT audience do not match"
                         else Some (x, (true, None))
               end
      end.

Definition getTokenFromAuthorizationHeader (ctx : Ctx) : result error (option string) :=
  match FromIncomingContext ctx with
  | None => Err (unauthenticated "no metadata found")
  | Some md =>
    match md !! MetadataKeyAuthorization with
    | None | Some [] => Ok None
    | Some (bear :: _) =>
      match split_char cSpace bear with
      | [scheme; token] =>
        if decide (strings_ToLower scheme ≠ AuthSchemeBearer) then Err (unauthenticated "invalid authorization")
        else Ok (Some token)
      | _ => Err (unauthenticated "invalid authorization")
      end
    end
  end.

Definition getRawToken (accessToken : string) : result error ParsedToken :=
  match jws_ParseString accessToken with
  | None => Err (unauthenticated "Failed to parse JWT. Invalid headers")
  | Some msg =>
    match Signatures msg with
    | [] => Err (unauthenticated "Failed to parse JWT. Invalid headers")
    | _ =>
      match jwt_Parse (Payload msg) with
      | None => Err (unauthenticated "Failed to parse JWT. Invalid format")
      | Some tok => Ok (mkParsed tok msg accessToken)
      end
    end
  end.

(** The validator loop: the first that handles the token decides. *)
Fixpoint validators_loop (vs : list service) (rt : ParsedToken) (x : X) : option (X * result error ParsedToken) :=
  match vs with
  | [] => Some (x, Err (unauthenticated "token validation error"))
  | v :: vs' =>
    res ← ValidateAccessToken v rt x;
    let '(x', (handled, err)) := res in
    if handled : bool then
      match err with Some e => Some (x', Err e) | None => Some (x', Ok rt) end
    else validators_loop vs' rt x'
  end.

Definition _validate (ctx : Ctx) (x : X) : option (X * result error ParsedToken) :=
  match getTokenFromAuthorizationHeader ctx with
  | Err _ => Some (x, Err (unauthenticated "token parse error"))
  | Ok None => Some (x, Err (StatusErr NotFound "no token found"))
  | Ok (Some token) =>
    match getRawToken token with
    | Err e => Some (x, Err e)
    | Ok rt =>
      kid ← first_kid (pt_JWSMessage rt);
      if decide (kid = "") then Some (x, Err (unauthenticated "no kid found in token"))
      else if decide (default "" (Issuer (pt_Token rt)) = "") then Some (x, Err (unauthenticated "no issuer found in token"))
      else validators_loop (rg_validators reg) rt x
    end
  end.

(** [jwt_token.go]: the registered claims are left out. *)
Definition registered_claims : list string := ["iss"; "sub"; "aud"; "exp"; "nbf"; "iat"; "jti"].

Definition privateClaims (tok : Token) : gmap string (claim_value F) :=
  filter (fun kv => kv.1 ∉ registered_claims) (token_Claims tok).

Record jwtToken := mkJwtToken { jt_ID : string; jt_Claims : gmap string (claim_value F); jt_Bearer : string }.

Definition newJWTToken (tok : Token) (bearer : string) : jwtToken :=
  mkJwtToken (default "" (Subject tok)) (privateClaims tok) bearer.

(** The claims of a validated token, transferred to the scoped principal. *)
Definition transfer_claims (p : P) (rt : ParsedToken) : P :=
  let tok := newJWTToken (pt_Token rt) (pt_AccessToken rt) in
  let scratch := ClaimsPrincipalFromClaimsMap fmt_float (jt_Claims tok) in
  let p := AddClaim p (WithoutReservedMTLSClaims (GetClaims scratch)) in
  if decide (jt_ID tok = "") then p else AddClaim p [mkClaim ClaimTypeSub (jt_ID tok)].

Definition anonymous_claim : Claim := mkClaim ClaimTypeSub AnonymousSubject.

(** [services/propertybag]: [Set] ignores an empty key. *)
Definition bag_Set (b : gmap string bagval) (k : string) (v : bagval) : gmap string bagval :=
  if decide (k = "") then b else <[k := v]> b.

Definition propagate_claim (p : P) (b : gmap string bagval) (kv : string * string) : gmap string bagval :=
  let '(claimType, ctxType) := kv in
  if HasClaimType p claimType then
    match GetClaimsByType p claimType with
    | [] => b
    | [c] => bag_Set b ctxType (BagString (cl_Value c))
    | l => bag_Set b ctxType (BagStrings (cl_Value <$> l))
    end
  else b.

Definition is_NotFound (e : error) : bool :=
  match e with StatusErr NotFound _ => true | _ => false end.

Definition jwt_UnaryServerInterceptor (anonymousOnFailure : bool) (propagate : gmap string string) : Interceptor Ctx P X R :=
  fun _ handler ctx w =>
    match GetRequestContainer ctx with
    | Some (mkContainer true true) =>
      match _validate ctx (w_ext w) with
      | None => (Panicked, w)
      | Some (x, r) =>
        let w := with_ext w x in
        let anonymous :=
          handler ctx (with_bag (with_principal w (AddClaim (w_principal w) [anonymous_claim]))
                                (bag_Set (w_bag w) ClaimTypeSub (BagString AnonymousSubject))) in
        match r with
        | Err err => if anonymousOnFailure then anonymous else if is_NotFound err then anonymous else (Fail err, w)
        | Ok rt =>
          let p := transfer_claims (w_principal w) rt in
          handler ctx (with_bag (with_principal w p) (foldl (propagate_claim p) (w_bag w) (map_to_list propagate)))
        end
      end
    | _ => (Panicked, w)
    end.

Definition jwt_StreamServerInterceptor (anonymousOnFailure : bool) : Interceptor Ctx P X R :=
  fun _ handler ss w =>
    match GetRequestContainer ss with
    | None => (Fail (StatusErr Internal "authentication unavailable"), w)
    | Some c =>
      if has_principal c then
        match _validate ss (w_ext w) with
        | None => (Panicked, w)
        | Some (x, r) =>
          let w := with_ext w x in
          match r with
          | Err err =>
            if anonymousOnFailure || is_NotFound err
            then handler ss (with_principal w (AddClaim (w_principal w) [anonymous_claim]))
            else (Fail err, w)
          | Ok rt => handler ss (with_principal w (transfer_claims (w_principal w) rt))
          end
        end
      else (Panicked, w)
    end.

(** ** Proofs *)

(** The service [s] has vouched for a token, in a call that took the key sets
    from [x] to [x']: the (lower-cased) issuer is the configured one; the signature
    over the token's own bytes verifies under a key set with the kid that the cache
    served, in this call, for the JWKS URL configured for the issuer; its claims
    are valid at a time the clock showed during this call; and an audience
    matches, if any is configured. *)
Definition trusted (s : service) (rt : ParsedToken) (x x' : jwks (C := C)) : Prop :=
  let tok := pt_Token rt in
  strings_ToLower (default "" (Issuer tok)) = ic_Issuer (sv_config s) ∧
  (∃ ic kid ks, rg_issuerConfigs reg !! ic_Issuer (sv_config s) = Some ic ∧ first_kid (pt_JWSMessage rt) = Some kid ∧
     served (ic_JWKSUrl ic) (jk_cache x) ks ∧ LookupKeyID ks kid = true ∧ jws_Verify (pt_AccessToken rt) ks = true) ∧
  (∃ n, (jk_reads x <= n < jk_reads x')%nat ∧ jwt_Validate (now n) acceptable_skew tok = true) ∧
  (ic_Audiences (sv_config s) = [] ∨
   ∃ aud, aud ∈ ic_Audiences (sv_config s) ∧ aud ≠ "" ∧ checkAudienceMatch tok aud = true).

Lemma matched_audience_sound tok auds :
  matched_audience tok auds ≠ "" → ∃ aud, aud ∈ auds ∧ aud ≠ "" ∧ checkAudienceMatch tok aud = true.
Proof.
  induction auds as [|aud auds IH]; simpl; [done|]. destruct (checkAudienceMatch tok aud) eqn:E.
  - intros Hne. exists aud. split; [left|done].
  - intros (a & ? & ?)%IH. exists a. split; [by right|done].
Qed.

Lemma service_sound s rt x x' :
  sv_nilValidator s = false → ValidateAccessToken s rt x = Some (x', (true, None)) → trusted s rt x.1 x'.1.
Proof.
  intros Hn. unfold ValidateAccessToken. rewrite Hn. destruct (first_kid (pt_JWSMessage rt)) as [kid|] eqn:Ek; [|done].
  cbn [mbind option_bind]. case_decide as Hi; [done|]. rewrite Hi.
  destruct (rg_issuerConfigs reg !! _) as [ic|] eqn:Eic; [|done]. cbn [mbind option_bind].
  destruct (keySetForKid now x.1 (ic_JWKSUrl ic) kid) as [j r] eqn:Er.
  destruct r as [[set b]|e]; [|done]. destruct b; [|by destruct set].
  destruct (keySetForKid_served _ _ _ _ _ _ Er) as (Hreads & ks & -> & Hks & Hserved).
  destruct (jws_Verify (pt_AccessToken rt) ks) eqn:Hv; [|done]. cbn [negb time_Now].
  destruct (jwt_Validate _ acceptable_skew (pt_Token rt)) eqn:Hval; [|done]. cbn [negb].
  intros Ha. assert (jk_reads x'.1 = S (jk_reads j) ∧ (ic_Audiences (sv_config s) = [] ∨ matched_audience (pt_Token rt) (ic_Audiences (sv_config s)) ≠ ""))
    as [En Haud] by (destruct (ic_Audiences (sv_config s)); [by simplify_eq; auto|]; case_decide; [done|]; by simplify_eq; auto).
  split_and!; [done|by eauto 10| |].
  - exists (jk_reads j). split; [lia|done].
  - destruct Haud as [?|Hm]; [by left|right; by apply matched_audience_sound].
Qed.

(** Every validator finds its issuer's configuration. *)
Definition reg_ok : Prop :=
  ∀ s, s ∈ rg_validators reg → sv_nilValidator s = true ∨ is_Some (rg_issuerConfigs reg !! ic_Issuer (sv_config s)).

Lemma service_no_panic s rt x kid :
  sv_nilValidator s = true ∨ is_Some (rg_issuerConfigs reg !! ic_Issuer (sv_config s)) →
  first_kid (pt_JWSMessage rt) = Some kid →
  ∃ x' handled err, ValidateAccessToken s rt x = Some (x', (handled, err)) ∧ (handled = false → x' = x) ∧
    match err with Some e => is_NotFound e = false | None => True end.
Proof.
  intros Hs Hk. unfold ValidateAccessToken. destruct (sv_nilValidator s) eqn:Hn; [by repeat eexists|].
  rewrite Hk. cbn [mbind option_bind]. case_decide as Hi; [by repeat eexists|].
  destruct Hs as [|[ic Hic]]; [done|]. rewrite Hi, Hic. cbn [mbind option_bind].
  destruct (keySetForKid now x.1 (ic_JWKSUrl ic) kid) as [j r] eqn:Er.
  destruct r as [[set b]|e]; [|by repeat eexists]. destruct b; [|by destruct set; repeat eexists].
  destruct (keySetForKid_known _ _ _ _ _ _ Er) as (ks & -> & Hks). cbn [time_Now].
  destruct (jws_Verify _ _); [|by repeat eexists]. cbn [negb]. destruct (jwt_Validate _ _ _); [|by repeat eexists]. cbn [negb].
  destruct (ic_Audiences _); [by repeat eexists|]. case_decide; by repeat eexists.
Qed.

Lemma validators_loop_spec vs rt x kid :
  first_kid (pt_JWSMessage rt) = Some kid →
  (∀ s, s ∈ vs → sv_nilValidator s = true ∨ is_Some (rg_issuerConfigs reg !! ic_Issuer (sv_config s))) →
  ∃ x' r, validators_loop vs rt x = Some (x', r) ∧
    match r with
    | Ok rt' => rt' = rt ∧ ∃ s, s ∈ vs ∧ (sv_nilValidator s = true ∨ trusted s rt x.1 x'.1)
    | Err e => is_NotFound e = false
    end.
Proof.
  intros Hk. revert x. induction vs as [|v vs IH]; intros x Hv; simpl; [by repeat eexists|].
  destruct (service_no_panic v rt x kid) as (x1 & handled & err & E & Hsame & He); [apply Hv; left|done|].
  rewrite E. cbn [mbind option_bind]. destruct handled.
  - destruct err as [e|]; [by repeat eexists|]. exists x1, (Ok rt). split_and!; [done|done|]. exists v. split; [left|].
    destruct (sv_nilValidator v) eqn:Hn; [by left|right]. by eapply service_sound.
  - rewrite (Hsame eq_refl). destruct (IH x) as (x2 & r & E2 & Hr); [intros s Hs; apply Hv; by right|].
    exists x2, r. split; [done|]. destruct r as [rt'|e]; [|done]. destruct Hr as [-> (s & ? & ?)].
    split; [done|]. exists s. split; [by right|done].
Qed.

Lemma getRawToken_Ok token rt :
  getRawToken token = Ok rt → pt_AccessToken rt = token ∧ jws_ParseString token = Some (pt_JWSMessage rt) ∧
  jwt_Parse (Payload (pt_JWSMessage rt)) = Some (pt_Token rt) ∧ is_Some (first_kid (pt_JWSMessage rt)).
Proof.
  unfold getRawToken. destruct (jws_ParseString token) as [msg|]; [|done].
  destruct (Signatures msg) as [|k l] eqn:Es; [done|]. destruct (jwt_Parse _) as [tok|] eqn:Et; [|done].
  intros [= <-]. split_and!; [done..|]. unfold first_kid. simpl. rewrite Es. eauto.
Qed.

Lemma getRawToken_Err token e : getRawToken token = Err e → is_NotFound e = false.
Proof.
  unfold getRawToken. destruct (jws_ParseString token) as [msg|]; [|by intros [= <-]].
  destruct (Signatures msg); [by intros [= <-]|]. destruct (jwt_Parse _); [done|by intros [= <-]].
Qed.

(** [rt] is what the bytes of the authorization header parse to: its message, its
    claims (the payload of that message) and the bytes themselves. *)
Definition presented (ctx : Ctx) (rt : ParsedToken) : Prop :=
  getTokenFromAuthorizationHeader ctx = Ok (Some (pt_AccessToken rt)) ∧
  jws_ParseString (pt_AccessToken rt) = Some (pt_JWSMessage rt) ∧ jwt_Parse (Payload (pt_JWSMessage rt)) = Some (pt_Token rt).

(** What [_validate] tells the interceptors. *)
Lemma validate_spec ctx x :
  reg_ok →
  ∃ x' r, _validate ctx x = Some (x', r) ∧
  match r with
  | Ok rt => presented ctx rt ∧ ∃ s, s ∈ rg_validators reg ∧ (sv_nilValidator s = true ∨ trusted s rt x.1 x'.1)
  | Err e => is_NotFound e = true ↔ getTokenFromAuthorizationHeader ctx = Ok None
  end.
Proof.
  intros Hreg. unfold _validate. destruct (getTokenFromAuthorizationHeader ctx) as [[token|]|e] eqn:Et.
  - destruct (getRawToken token) as [rt|e] eqn:Eg.
    2: { exists x, (Err e). split; [done|]. by rewrite (getRawToken_Err _ _ Eg). }
    destruct (getRawToken_Ok _ _ Eg) as (Ha & Hm & Hp & kid & Hk). rewrite Hk. cbn [mbind option_bind].
    case_decide; [by repeat eexists|]. case_decide; [by repeat eexists|].
    destruct (validators_loop_spec (rg_validators reg) rt x kid Hk Hreg) as (x' & r & E & Hr).
    exists x', r. split; [done|]. destruct r as [rt'|e]; [|by rewrite Hr].
    destruct Hr as [-> Hs]. split; [|done]. by rewrite <- Ha in Hm, Et.
  - exists x. eexists. by split.
  - exists x. eexists. by split.
Qed.

(** The claims a token brings: its private claims except the reserved ones, and
    its subject. *)
Definition token_claim (tok : Token) (c : Claim) : Prop :=
  (asserted fmt_float (privateClaims tok) c ∧ reserved c = false) ∨
  (∃ sub, Subject tok = Some sub ∧ sub ≠ "" ∧ c = mkClaim ClaimTypeSub sub).

Lemma token_claim_not_reserved tok c : token_claim tok c → reserved c = false.
Proof. intros [[_ ?]|(sub & _ & _ & ->)]; done. Qed.

Context {rep : P → gset Claim → Prop} `{HL : !ClaimsLaws P rep}.

Lemma rep_transfer p S rt :
  rep p S → ∃ S', rep (transfer_claims p rt) S' ∧ ∀ c, c ∈ S' ↔ c ∈ S ∨ token_claim (pt_Token rt) c.
Proof using HL.
  intros Hp. unfold transfer_claims, token_claim. cbn [newJWTToken jt_Claims jt_ID].
  set (m := privateClaims (pt_Token rt)).
  destruct (principal_of_entries_rep fmt_float Principal.NewIClaimsPrincipal ∅ (map_to_list m)
    Principal.principal_rep_new) as (Sm & Hm & HSm).
  destruct (law_GetClaims _ _ Hm) as [_ Hget].
  assert (Hin : ∀ c, c ∈ typed (WithoutReservedMTLSClaims (GetClaims (ClaimsPrincipalFromClaimsMap fmt_float m)))
                     ↔ asserted fmt_float m c ∧ reserved c = false).
  { intros c. rewrite elem_of_typed, elem_of_WithoutReserved. unfold ClaimsPrincipalFromClaimsMap.
    rewrite Hget, HSm. unfold asserted. setoid_rewrite elem_of_map_to_list. split.
    - intros [[[?%not_elem_of_empty|Ha] ?] _]; [done|auto].
    - intros [(k & v & Hkv & Hk & Hc) ?]. split; [split; [right; eauto|done]|].
      by rewrite (entry_claims_type _ _ _ _ Hc). }
  destruct (Subject (pt_Token rt)) as [sub|]; cbn [default]; [case_decide as Hs|].
  - eexists. split; [by apply law_AddClaim|]. intros c. rewrite elem_of_union, Hin. naive_solver.
  - eexists. split; [by apply law_AddClaim, law_AddClaim|]. intros c.
    rewrite !elem_of_union, Hin, elem_of_typed, list_elem_of_singleton. cbn [cl_Type ClaimTypeSub id].
    split; [intros [[?|?]|[-> _]]; eauto 8|]. intros [?|[?|(sub' & [= <-] & _ & ->)]]; auto.
  - rewrite decide_True by done. eexists. split; [by apply law_AddClaim|]. intros c.
    rewrite elem_of_union, Hin. naive_solver.
Qed.

(** How a call may end at a JWT interceptor that is given the scoped principal
    [S]: refused without running the handler or touching the principal; run as
    anonymous; or run with the claims of a token some validator vouched for. *)
Definition authenticated_call (anonymousOnFailure : bool) (handler : Handler Ctx P X R) (ctx : Ctx) (w : World P X)
    (S : gset Claim) (res : outcome R * World P X) : Prop :=
  (∃ e w', res = (Fail e, w') ∧ w_principal w' = w_principal w ∧ w_bag w' = w_bag w ∧
           anonymousOnFailure = false ∧ getTokenFromAuthorizationHeader ctx ≠ Ok None) ∨
  (∃ w', res = handler ctx w' ∧ rep (w_principal w') (S ∪ typed [anonymous_claim]) ∧
         (anonymousOnFailure = true ∨ getTokenFromAuthorizationHeader ctx = Ok None)) ∨
  (∃ w' S' rt s, res = handler ctx w' ∧ rep (w_principal w') S' ∧
         presented ctx rt ∧
         s ∈ rg_validators reg ∧ (sv_nilValidator s = true ∨ trusted s rt (w_ext w).1 (w_ext w').1) ∧
         ∀ c, c ∈ S' ↔ c ∈ S ∨ token_claim (pt_Token rt) c).

Lemma unary_authenticates anon prop m handler ctx w S :
  reg_ok → GetRequestContainer ctx = Some (mkContainer true true) → rep (w_principal w) S →
  authenticated_call anon handler ctx w S (jwt_UnaryServerInterceptor anon prop m handler ctx w).
Proof using HL.
  intros Hreg Hc Hr. unfold jwt_UnaryServerInterceptor. rewrite Hc.
  destruct (validate_spec ctx (w_ext w) Hreg) as (x & r & -> & Hv). destruct r as [rt|e].
  - right; right. destruct Hv as [Hg (s & Hs & Ht)].
    destruct (rep_transfer (w_principal w) S rt Hr) as (S' & Hr' & HS').
    eexists _, S', rt, s. by split_and!.
  - destruct anon.
    + right; left. eexists. split_and!; [done| |by left]. by apply law_AddClaim.
    + destruct (is_NotFound e) eqn:He.
      * right; left. eexists. split_and!; [done| |right; by apply Hv]. by apply law_AddClaim.
      * left. eexists _, _. split_and!; try done. rewrite <- Hv. congruence.
Qed.

Lemma stream_authenticates anon m handler ctx w S c :
  reg_ok → GetRequestContainer ctx = Some c → has_principal c = true → rep (w_principal w) S →
  authenticated_call anon handler ctx w S (jwt_StreamServerInterceptor anon m handler ctx w).
Proof using HL.
  intros Hreg Hc Hp Hr. unfold jwt_StreamServerInterceptor. rewrite Hc, Hp.
  destruct (validate_spec ctx (w_ext w) Hreg) as (x & r & -> & Hv). destruct r as [rt|e].
  - right; right. destruct Hv as [Hg (s & Hs & Ht)].
    destruct (rep_transfer (w_principal w) S rt Hr) as (S' & Hr' & HS').
    eexists _, S', rt, s. by split_and!.
  - destruct (anon || is_NotFound e) eqn:He.
    + right; left. eexists. split_and!; [done|by apply law_AddClaim|].
      apply orb_true_iff in He as [?|?]; [by left|right; by apply Hv].
    + apply orb_false_iff in He as [-> He]. left. eexists _, _. split_and!; try done. rewrite <- Hv. congruence.
Qed.
End jwt.

(** ** Properties *)
Section properties.
Context `{UT : UnicodeTables}.
Context {Message Token C KeySet F : Type} `{JWX Message Token KeySet F} `{JwkCache C KeySet}.
Context {Ctx P Y R : Type} `{GrpcContext Ctx} `{IClaimsPrincipal P}.
Context (fmt_float : F → string) (now : nat → Z) (reg : registration).

(** C29: a token is accepted only after every check.  When an issuer's
    validator accepts a token: the token's (lower-cased) issuer is the configured
    one; its signature, over the presented bytes, verifies under a key set that
    contains its kid and that the key cache served, during this very call, for the
    JWKS URL configured for that issuer; at a time the clock showed during this
    call its claims were valid and its expiry at most five minutes past; and one of
    the configured audiences, if any, matches.  (The call is taken as one that no
    other request interleaves with.) *)
Theorem ValidateAccessToken_accepts_only_verified `{!JWXLaws Message Token KeySet F}
    (s : service) (rt : ParsedToken (Message := Message)) (x x' : jwks (C := C) * Y) :
  sv_nilValidator s = false →
  ValidateAccessToken now reg s rt x = Some (x', (true, None)) →
  trusted (KeySet := KeySet) now reg s rt x.1 x'.1 ∧
  ∃ n exp, (jk_reads x.1 <= n < jk_reads x'.1)%nat ∧ Expiration (pt_Token rt) = Some exp ∧ (now n <= exp + acceptable_skew)%Z.
Proof.
  intros Hn Hv. pose proof (service_sound now reg s rt x x' Hn Hv) as Ht. split; [done|].
  destruct Ht as (_ & _ & (n & Hn' & Hval) & _).
  destruct (Validate_requires_exp (now n) acceptable_skew (pt_Token rt) Hval) as (exp & ? & ?). eauto 6.
Qed.

(** C28: what reaches the handler past the JWT interceptors.  With the
    request scope in place, a call is either refused (handler not run, principal
    and bag untouched, and only for a present but unacceptable header), or run as
    [sub=anonymous] (no authorization header, or [WithAnonymousOnFailure]), or run
    with the private claims and the subject of the token that the bytes in the
    header parse to, vouched for by a registered validator (under the keys served
    for its issuer and at a time within the call, see [trusted]; a nil validator,
    which the application must register as such, vouches for anything), reserved
    [mtls_*] claims left out.  The unary and the stream interceptor follow the same rule, and
    neither panics. *)
Theorem jwt_interceptors_authenticate {rep} `{!ClaimsLaws P rep}
    anon prop m (handler : Handler Ctx P (jwks (C := C) * Y) R) ctx w S :
  reg_ok reg → GetRequestContainer ctx = Some (mkContainer true true) → rep (w_principal w) S →
  authenticated_call (KeySet := KeySet) (rep := rep) fmt_float now reg anon handler ctx w S
    (jwt_UnaryServerInterceptor fmt_float now reg anon prop m handler ctx w) ∧
  authenticated_call (KeySet := KeySet) (rep := rep) fmt_float now reg anon handler ctx w S
    (jwt_StreamServerInterceptor fmt_float now reg anon m handler ctx w) ∧
  (∀ tok c, token_claim fmt_float tok c → reserved c = false).
Proof.
  intros Hreg Hc Hr. split_and!.
  - by apply unary_authenticates.
  - by eapply stream_authenticates.
  - intros tok c. apply token_claim_not_reserved.
Qed.

(** the bearer header.  A token is taken from the authorization header
    exactly when its first value is a scheme and a token separated by one space,
    neither containing another, and the scheme lower-cases to [bearer]; a missing
    header is no token (not an error), a missing metadata map and every other
    shape is refused as Unauthenticated. *)
Theorem getTokenFromAuthorizationHeader_spec (ctx : Ctx) :
  (∀ tok, getTokenFromAuthorizationHeader ctx = Ok (Some tok) ↔
     ∃ md scheme rest, FromIncomingContext ctx = Some md ∧
       md !! MetadataKeyAuthorization = Some ((scheme +:+ String cSpace tok) :: rest) ∧
       strings_ToLower scheme = AuthSchemeBearer ∧ count_char cSpace scheme = 0%nat ∧ count_char cSpace tok = 0%nat) ∧
  (getTokenFromAuthorizationHeader ctx = Ok None ↔
     ∃ md, FromIncomingContext ctx = Some md ∧ default [] (md !! MetadataKeyAuthorization) = []) ∧
  (∀ e, getTokenFromAuthorizationHeader ctx = Err e → ∃ msg, e = StatusErr Unauthenticated msg).
Proof.
  unfold getTokenFromAuthorizationHeader. destruct (FromIncomingContext ctx) as [md|].
  2: { split_and!; [intros tok; split; [done|]; by intros (md & ? & ? & [=] & _)|
         split; [done|]; by intros (md & [=] & _)|intros e [= <-]; by eexists]. }
  destruct (md !! MetadataKeyAuthorization) as [[|bear rest]|] eqn:Em.
  1, 3: split_and!; [intros tok; split; [done|]; intros (md' & sc & l & [= <-] & Hm & _); congruence|
         split; [intros _; exists md; by rewrite Em|done]|done].
  pose proof (Join_split_char cSpace bear) as Hj. pose proof (split_char_pieces cSpace bear) as Hp. split_and!.
  - intros tok. split.
    + destruct (split_char cSpace bear) as [|scheme [|t [|]]]; try done. case_decide as Hs; [done|].
      intros [= <-]. apply Forall_cons in Hp as [H1' Hp]. apply Forall_cons in Hp as [H2' _].
      exists md, scheme, rest. split_and!; try done. cbn [strings_Join] in Hj.
      change (String cSpace EmptyString +:+ t) with (String cSpace t) in Hj. by rewrite Hj.
    + intros (md' & scheme & rest' & [= <-] & Hm & Hs & H1' & H2'). rewrite Em in Hm. injection Hm as -> ->.
      rewrite split_char_app, split_char_none by done. by rewrite decide_False by auto.
  - split; [|intros (md' & [= <-] & Hd); by rewrite Em in Hd].
    destruct (split_char cSpace bear) as [|scheme [|t [|]]]; try done. by case_decide.
  - intros e. destruct (split_char cSpace bear) as [|scheme [|t [|]]];
      try (by intros [= <-]; eexists). case_decide; [|done]. intros [= <-]. by eexists.
Qed.
End properties.

(** registering issuers.  [AddValidators] succeeds when every URL can be
    registered with the key cache; it then adds one validator per issuer
    configuration, in order, after the ones already there, registers each JWKS
    URL once, and every validator finds its issuer's configuration (no request
    can crash on a missing one). *)
Theorem AddValidators_ok register_ok r ics :
  reg_ok r → (∀ ic, ic ∈ ics → register_ok (ic_JWKSUrl ic) = true) →
  ∃ r', AddValidators register_ok r ics = Some r' ∧ reg_ok r' ∧
    rg_validators r' = rg_validators r ++ ((fun ic => mkService ic false) <$> ics) ∧
    rg_urls r' = rg_urls r ∪ list_to_set (ic_JWKSUrl <$> ics).
Proof.
  revert r. induction ics as [|ic ics IH]; intros r Hr Hok.
  { exists r. split_and!; [done|done|by rewrite app_nil_r|set_solver]. }
  set (r1 := mkReg (<[ic_Issuer ic := ic]> (rg_issuerConfigs r)) ({[ic_JWKSUrl ic]} ∪ rg_urls r)
               (rg_validators r ++ [mkService ic false])).
  assert (E1 : add_validator register_ok (Some r) ic = Some r1).
  { unfold add_validator. cbn [mbind option_bind]. rewrite (Hok ic) by left. unfold r1.
    case_decide; [|done]. do 2 f_equal. set_solver. }
  assert (Hr1 : reg_ok r1).
  { intros s. simpl. rewrite elem_of_app, list_elem_of_singleton. intros [Hs| ->].
    - destruct (Hr s Hs) as [?|[c Hc]]; [by left|right]. simpl. rewrite lookup_insert_is_Some.
      destruct (decide (ic_Issuer ic = ic_Issuer (sv_config s))); eauto.
    - right. simpl. rewrite lookup_insert_eq. eauto. }
  destruct (IH r1 Hr1) as (r' & E & Hr' & Hv & Hu). { intros ic' Hic. apply Hok. by right. }
  exists r'. unfold AddValidators in *. cbn [foldl]. rewrite E1. split_and!; [done|done| |].
  - rewrite Hv. simpl. by rewrite <- (assoc_L (++)).
  - rewrite Hu. simpl. set_solver.
Qed.

(** ** A concrete token library: one signed and one forged token *)
Definition toy_jwx : JWX unit string (list string) Z := {|
  jws_ParseString := fun s => if decide (s = "good" ∨ s = "forged") then Some () else None;
  Signatures := fun _ => [Some "k1"];
  Payload := fun _ => "alice";
  jwt_Parse := fun s => Some s;
  Issuer := fun _ => Some "https://Idp";
  Subject := fun tok => Some tok;
  Audience := fun _ => Some ["api"];
  Expiration := fun _ => Some 1000%Z;
  token_Claims := fun _ => <["role" := CVString "admin"]> {["mtls_verified" := CVBool true]};
  jws_Verify := fun s _ => bool_decide (s = "good");
  jwt_Validate := fun now skew _ => (now <=? 1000 + skew)%Z |}.

Lemma toy_jwx_laws : @JWXLaws _ _ _ _ toy_jwx.
Proof. split. intros now skew tok Hv. exists 1000%Z. split; [done|]. simpl in Hv. lia. Qed.

Definition toy_reg : registration :=
  mkReg {["https://idp" := mkIssuer "https://idp" "u" ["api"]]} {["u"]} [mkService (mkIssuer "https://idp" "u" ["api"]) false].

Lemma toy_reg_ok : reg_ok toy_reg.
Proof. intros s ->%list_elem_of_singleton. right. by eexists. Qed.

Definition toy_ctx (header : string) : stdctx :=
  mkCtx (Some {[MetadataKeyAuthorization := [header]]}) None (Some (ContainerValue (mkContainer true true))).

Definition toy_world : World Principal.claimsPrincipal (jwks (C := gmap string (list string)) * unit) :=
  mkWorld Principal.NewIClaimsPrincipal ∅ (toy_state, ()).

(** The handler reports what it can see of the principal. *)
Definition toy_handler {X} : Handler stdctx Principal.claimsPrincipal X (list Claim) :=
  fun _ w => (Reply (GetClaims (w_principal w)), w).

Definition toy_keys : JwkCache (gmap string (list string)) (list string) := toy_cache ["k1"].

Section witnesses.
#[local] Existing Instance latin1_tables.
#[local] Existing Instance toy_jwx.
#[local] Existing Instance toy_jwx_laws.
#[local] Existing Instance toy_keys.

Lemma ValidateAccessToken_accepts_only_verified_witness :
  let s := mkService (mkIssuer "https://idp" "u" ["api"]) false in
  let rt := mkParsed "alice" () "good" in
  ∃ x', ValidateAccessToken toy_now toy_reg s rt (toy_state, ()) = Some (x', (true, None)) ∧
    trusted (KeySet := list string) toy_now toy_reg s rt toy_state x'.1 ∧
    ∃ n exp, (0 <= n < jk_reads x'.1)%nat ∧ Expiration (JWX := toy_jwx) "alice" = Some exp ∧ (toy_now n <= exp + acceptable_skew)%Z.
Proof.
  intros s rt.
  destruct (ValidateAccessToken toy_now toy_reg s rt (toy_state, ())) as [[x' [h err]]|] eqn:E;
    [|vm_compute in E; discriminate E].
  assert (Hh : h = true) by (vm_compute in E; injection E as _ <- _; reflexivity).
  assert (He : err = None) by (vm_compute in E; injection E as _ _ <-; reflexivity).
  subst h err. exists x'. split; [reflexivity|].
  exact (ValidateAccessToken_accepts_only_verified toy_now toy_reg s rt (toy_state, ()) x' eq_refl E).
Defined.

Lemma jwt_interceptors_authenticate_witness :
  let unary := jwt_UnaryServerInterceptor (fun _ : Z => "1") toy_now toy_reg false (claimsToPropagate None) "m" toy_handler in
  (unary (toy_ctx "Bearer good") toy_world).1 = Reply [mkClaim "sub" "alice"; mkClaim "role" "admin"] ∧
  (unary (toy_ctx "Bearer forged") toy_world).1 = Fail (StatusErr Unauthenticated "token signature not valid") ∧
  (unary (toy_ctx "Basic x") toy_world).1 = Fail (StatusErr Unauthenticated "token parse error") ∧
  authenticated_call (KeySet := list string) (rep := Principal.principal_rep) (fun _ : Z => "1") toy_now toy_reg false toy_handler
    (toy_ctx "Bearer good") toy_world ∅ (unary (toy_ctx "Bearer good") toy_world).
Proof.
  intros unary. split; [vm_compute; reflexivity|]. split; [vm_compute; reflexivity|].
  split; [vm_compute; reflexivity|].
  destruct (jwt_interceptors_authenticate (rep := Principal.principal_rep) (fun _ : Z => "1") toy_now toy_reg false
    (claimsToPropagate None) "m" toy_handler (toy_ctx "Bearer good") toy_world ∅) as [Hu _].
  - exact toy_reg_ok.
  - reflexivity.
  - exact Principal.principal_rep_new.
  - exact Hu.
Defined.

Lemma AddValidators_ok_witness :
  ∃ r', AddValidators (fun _ => true) (mkReg ∅ ∅ []) [mkIssuer "a" "u" []; mkIssuer "b" "u" []] = Some r' ∧
    rg_urls r' = ∅ ∪ list_to_set ["u"; "u"].
Proof.
  destruct (AddValidators_ok (fun _ => true) (mkReg ∅ ∅ []) [mkIssuer "a" "u" []; mkIssuer "b" "u" []])
    as (r' & E & _ & _ & Hu).
  - intros s Hs. simpl in Hs. inversion Hs.
  - reflexivity.
  - exists r'. split; [exact E|exact Hu].
Defined.

(** An issuer configured with an upper-case letter never handles a token, not
    even one whose [iss] is that very string. *)
Example mixed_case_issuer_never_matches :
  let cfg := mkIssuer "https://Idp" "u" ["api"] in
  Issuer (JWX := toy_jwx) "alice" = Some (ic_Issuer cfg) ∧
  snd <$> ValidateAccessToken toy_now (mkReg {["https://Idp" := cfg]} {["u"]} []) (mkService cfg false)
    (mkParsed "alice" () "good") (toy_state, ()) = Some (false, None).
Proof. by vm_compute. Qed.
End witnesses.
