(* ===== verification/RefToken.v ===== *)
(** * Reference tokens ([middleware/auth/referencetoken/referencetoken.go])

    Opaque bearer tokens that a resolver exchanges for a JWT or for claims, with a
    TTL cache of the result.  The cache contract ([ICache]), the resolvers and the
    clock are parameters; the wrapped interceptor ([next], normally the JWT one) is
    given in tail form: it either stops the call or hands a context and a state to
    its handler, once and last (see [Tail]).  [None] is a panic. *)
From S2P Require Import Prelude GoText Claims Request.
From stdpp Require Import pretty options.

(** ** Interceptors that end by calling their handler *)
Module Tail.
Inductive reach (Ctx P X R : Type) :=
| Proceed (ctx : Ctx) (w : World P X)
| Stop (o : outcome R) (w : World P X).
Arguments Proceed {Ctx P X R}. Arguments Stop {Ctx P X R}.

Definition tail (Ctx P X R : Type) : Type := Ctx → World P X → reach Ctx P X R.

Definition interceptor {Ctx P X R} (t : tail Ctx P X R) : Interceptor Ctx P X R := fun _ handler ctx w =>
  match t ctx w with Proceed ctx' w' => handler ctx' w' | Stop o w' => (o, w') end.
End Tail.
Import Tail.

(** ** Contracts ([contracts/middleware/auth/referencetoken]) *)

(** A cached value, by its dynamic type. *)
Inductive cached := CachedClaims (l : list Claim) | CachedOther.

Class ICache (X : Type) := {
  cache_Get : string → X → X * option cached;
  cache_SetWithTTL : string → list Claim → Z → X → X }.

(** Only what was stored comes back; [holds x k l]: a [Get] may return [l]. *)
Class CacheLaws (X : Type) `{ICache X} (holds : X → string → list Claim → Prop) := {
  cache_get_holds k x x' l : cache_Get k x = (x', Some (CachedClaims l)) → holds x k l;
  cache_get_keeps k x k' l : holds (cache_Get k x).1 k' l → holds x k' l;
  cache_set_holds k l ttl x k' l' : holds (cache_SetWithTTL k l ttl x) k' l' → (k' = k ∧ l' = l) ∨ holds x k' l' }.

Definition ResolvedKindUnhandled : Z := 0.
Definition ResolvedKindJWT : Z := 1.
Definition ResolvedKindClaimsPrincipal : Z := 2.

Record Resolved (F : Type) := mkResolved {
  rs_Kind : Z; rs_RawJWT : string; rs_Claims : gmap string (claim_value F); rs_TTL : Z }.
Arguments mkResolved {F}. Arguments rs_Kind {F}. Arguments rs_RawJWT {F}. Arguments rs_Claims {F}. Arguments rs_TTL {F}.

(** ** Configuration *)
Record Config := mkConfig {
  cf_Cache : bool;               (* a cache is configured *)
  DefaultTTL : Z;
  CacheKeyPrefix : string;
  KnownPrefixes : list string }.

(** 5 minutes, in nanoseconds; the zero [time.Time] in nanoseconds since the epoch. *)
Definition FiveMinutes : Z := 300000000000.
Definition zero_time : Z := -62135596800000000000.

Definition default_config : Config := mkConfig false FiveMinutes "reftok:" [].

(** The functional options. *)
Definition WithCache (c : Config) : Config := mkConfig true (DefaultTTL c) (CacheKeyPrefix c) (KnownPrefixes c).
Definition WithDefaultTTL (ttl : Z) (c : Config) : Config := mkConfig (cf_Cache c) ttl (CacheKeyPrefix c) (KnownPrefixes c).
Definition WithCacheKeyPrefix (p : string) (c : Config) : Config := mkConfig (cf_Cache c) (DefaultTTL c) p (KnownPrefixes c).
Definition WithKnownPrefixes (l : list string) (c : Config) : Config := mkConfig (cf_Cache c) (DefaultTTL c) (CacheKeyPrefix c) l.

Definition newConfig (opts : list (Config → Config)) : Config := foldl (fun c o => o c) default_config opts.

Definition no_container_msg : string :=
  "referencetoken middleware: no request-scoped container found -- is dicontext.ScopedContextUnaryServerInterceptor/StreamServerInterceptor registered before this middleware?".
Definition unrecognized_kind_msg (k : Z) : string :=
  "referencetoken middleware: resolver returned unrecognized ResolvedKind " +:+ pretty k.

Definition looksLikeJWT (token : string) : bool := (count_char cDot token =? 2)%nat.

Section reftoken.
Context `{UT : UnicodeTables}.
Context {Ctx P X R F : Type} `{GrpcContext Ctx} `{IClaimsPrincipal P} `{ICache X}.
Context (fmt_float : F → string).
(** [sha256.Sum256] of the token's bytes. *)
Context (Sum256 : list N → list N).
(** [time.Now()]. *)
Context (clock : X → Z * X).
(** [jwxt.Parse] without verification, then [Expiration()]: [None] when it does not parse. *)
Context (parse_exp : string → option (option Z)).
Context (config : Config).
(** The registered resolvers: handled, resolution, error. *)
Context (resolvers : list (Ctx → string → X → X * (bool * option (Resolved F) * option error))).

Inductive resolveOutcome :=
| outcomePassThrough
| outcomeDelegateToJWT (ctx : Ctx) (cacheKey : string) (ttl : Z) (claimsBefore : list Claim)
| outcomeDirect (ctx : Ctx)
| outcomeError (err : error).

Definition extractBearerToken (ctx : Ctx) : result error (option string) :=
  match FromIncomingContext ctx with
  | None => Ok None
  | Some md =>
    match md !! MetadataKeyAuthorization with
    | None | Some [] => Ok None
    | Some (v :: _) =>
      match splitn2_char cSpace v with
      | [scheme; token] =>
        if strings_EqualFold scheme AuthSchemeBearer then Ok (Some token)
        else Err (StatusErr Unauthenticated "invalid authorization header")
      | _ => Err (StatusErr Unauthenticated "invalid authorization header")
      end
    end
  end.

Definition stripAuthorization (ctx : Ctx) : Ctx := del_incoming MetadataKeyAuthorization ctx.

Definition rewriteAuthorizationToJWT (ctx : Ctx) (jwt : string) : Ctx :=
  set_incoming MetadataKeyAuthorization (AuthSchemeBearerPrefix +:+ jwt) ctx.

Definition isReferenceToken (rawToken : string) : bool :=
  match KnownPrefixes config with
  | [] => negb (looksLikeJWT rawToken)
  | prefixes => existsb (fun p => strings_HasPrefix rawToken p) prefixes
  end.

Definition cacheKey (rawToken : string) : string :=
  CacheKeyPrefix config +:+ hex_EncodeToString (Sum256 (bytes_of_string rawToken)).

(** [capTTLToJWTExpiry]: the TTL, and whether the resolution may be cached. *)
Definition capTTLToJWTExpiry (ttl : Z) (rawJWT : string) (x : X) : X * (Z * bool) :=
  match parse_exp rawJWT with
  | None => (x, (ttl, true))
  | Some None => (x, (ttl, true))
  | Some (Some exp) =>
    if (exp =? zero_time)%Z then (x, (ttl, true))
    else
      let '(now, x) := clock x in
      let remaining := (exp - now)%Z in
      if (remaining <=? 0)%Z then (x, (0%Z, false))
      else if (remaining <? ttl)%Z then (x, (remaining, true))
      else (x, (ttl, true))
  end.

Fixpoint resolveViaResolvers (l : list (Ctx → string → X → X * (bool * option (Resolved F) * option error)))
    (ctx : Ctx) (rawToken : string) (x : X) : X * result error (option (Resolved F)) :=
  match l with
  | [] => (x, Ok None)
  | resolver :: l' =>
    let '(x, (handled, resolved, err)) := resolver ctx rawToken x in
    match err with
    | Some e => (x, Err e)
    | None => if handled : bool then (x, Ok resolved) else resolveViaResolvers l' ctx rawToken x
    end
  end.

(** What to do with a resolution. *)
Definition apply_resolved (ctx : Ctx) (key : string) (resolved : Resolved F) (w : World P X) : resolveOutcome * World P X :=
  let ttl := if (rs_TTL resolved <=? 0)%Z then DefaultTTL config else rs_TTL resolved in
  if (rs_Kind resolved =? ResolvedKindJWT)%Z then
    let '(x, (jwtTTL, cacheable)) := capTTLToJWTExpiry ttl (rs_RawJWT resolved) (w_ext w) in
    (outcomeDelegateToJWT (rewriteAuthorizationToJWT ctx (rs_RawJWT resolved))
       (if cacheable : bool then key else "") jwtTTL (GetClaims (w_principal w)), with_ext w x)
  else if (rs_Kind resolved =? ResolvedKindClaimsPrincipal)%Z then
    let scratch := ClaimsPrincipalFromClaimsMap fmt_float (rs_Claims resolved) in
    let claims := WithoutReservedMTLSClaims (GetClaims scratch) in
    let w := with_principal w (AddClaim (w_principal w) claims) in
    let w := match claims with
             | [] => w
             | _ => if cf_Cache config then with_ext w (cache_SetWithTTL key claims ttl (w_ext w)) else w
             end in
    (outcomeDirect (stripAuthorization ctx), w)
  else (outcomeError (StatusErr Internal (unrecognized_kind_msg (rs_Kind resolved))), w).

(** The cache lookup of [resolve]: the claims of a usable hit. *)
Definition lookup_cached (key : string) (x : X) : X * option (list Claim) :=
  if cf_Cache config then
    let '(x, r) := cache_Get key x in
    match r with Some (CachedClaims l) => (x, Some l) | _ => (x, None) end
  else (x, None).

Definition resolve (ctx : Ctx) (w : World P X) : option (resolveOutcome * World P X) :=
  match extractBearerToken ctx with
  | Err e => Some (outcomeError e, w)
  | Ok None => Some (outcomePassThrough, w)
  | Ok (Some rawToken) =>
    if decide (rawToken = "") then Some (outcomePassThrough, w)
    else if negb (isReferenceToken rawToken) then Some (outcomePassThrough, w)
    else
      match GetRequestContainer ctx with
      | None => Some (outcomeError (StatusErr Internal no_container_msg), w)
      | Some c =>
        if negb (has_principal c) then None
        else
          let key := cacheKey rawToken in
          let '(x, hit) := lookup_cached key (w_ext w) in
          let w := with_ext w x in
          match hit with
          | Some claims =>
            Some (outcomeDirect (stripAuthorization ctx),
                  with_principal w (AddClaim (w_principal w) (WithoutReservedMTLSClaims claims)))
          | None =>
            let '(x, r) := resolveViaResolvers resolvers ctx rawToken (w_ext w) in
            let w := with_ext w x in
            match r with
            | Err e => Some (outcomeError e, w)
            | Ok None => Some (outcomeError (StatusErr Unauthenticated "unrecognized reference token"), w)
            | Ok (Some resolved) => Some (apply_resolved ctx key resolved w)
            end
          end
      end
  end.

(** [claimsToCache]: what the JWT validation added, without reserved claims. *)
Definition claimsToCache (claimsBefore captured : list Claim) : list Claim :=
  WithoutReservedMTLSClaims (ClaimsAddedSince claimsBefore captured).

Definition cacheResolvedClaims (key : string) (claims : list Claim) (ttl : Z) (x : X) : X :=
  if negb (cf_Cache config) || bool_decide (key = "") || bool_decide (claims = []) then x
  else cache_SetWithTTL key claims ttl x.

Definition UnaryServerInterceptor (next : tail Ctx P X R) : Interceptor Ctx P X R := fun m handler ctx w =>
  match resolve ctx w with
  | None => (Panicked, w)
  | Some (outcomeError e, w) => (Fail e, w)
  | Some (outcomePassThrough, w) => interceptor next m handler ctx w
  | Some (outcomeDirect ctx', w) => handler ctx' w
  | Some (outcomeDelegateToJWT ctx' key ttl before, w) =>
    match next ctx' w with
    | Stop o w => (o, w)
    | Proceed ctx' w =>
      let captured := GetClaims (w_principal w) in
      match handler ctx' w with
      | (Panicked, w) => (Panicked, w)
      | (o, w) => (o, with_ext w (cacheResolvedClaims key (claimsToCache before captured) ttl (w_ext w)))
      end
    end
  end.

(** The stream interceptor caches at the handoff, before the handler runs. *)
Definition StreamServerInterceptor (next : tail Ctx P X R) : Interceptor Ctx P X R := fun m handler ss w =>
  match resolve ss w with
  | None => (Panicked, w)
  | Some (outcomeError e, w) => (Fail e, w)
  | Some (outcomePassThrough, w) => interceptor next m handler ss w
  | Some (outcomeDirect ctx', w) => handler ctx' w
  | Some (outcomeDelegateToJWT ctx' key ttl before, w) =>
    match next ctx' w with
    | Stop o w => (o, w)
    | Proceed ctx' w =>
      let captured := GetClaims (w_principal w) in
      handler ctx' (with_ext w (cacheResolvedClaims key (claimsToCache before captured) ttl (w_ext w)))
    end
  end.

(** ** Proofs *)
Definition unreserved (l : list Claim) : Prop := ∀ c, c ∈ l → reserved c = false.

Lemma WithoutReserved_unreserved l : unreserved (WithoutReservedMTLSClaims l).
Proof. intros c [_ ?]%elem_of_WithoutReserved. done. Qed.

(** Some resolver recognized the token and returned [res]. *)
Definition resolver_gave (ctx : Ctx) (tok : string) (res : Resolved F) : Prop :=
  ∃ r x x', r ∈ resolvers ∧ r ctx tok x = (x', (true, Some res, None)).

Lemma resolveViaResolvers_gave l ctx tok x x' res :
  resolveViaResolvers l ctx tok x = (x', Ok (Some res)) →
  ∃ r y y', r ∈ l ∧ r ctx tok y = (y', (true, Some res, None)).
Proof.
  revert x. induction l as [|r l IH]; intros x; simpl; [done|].
  destruct (r ctx tok x) as [x1 [[handled resolved] err]] eqn:E. destruct err; [done|].
  destruct handled.
  - intros [= <- ->]. exists r, x, x1. split; [left|done].
  - intros (r' & y & y' & ? & ?)%IH. exists r', y, y'. split; [by right|done].
Qed.

(** Where the claims of a direct outcome come from. *)
Definition claims_source (holds : X → string → list Claim → Prop) (ctx : Ctx) (x : X) (tok : string) (claims : list Claim) : Prop :=
  (∃ l, holds x (cacheKey tok) l ∧ claims = WithoutReservedMTLSClaims l) ∨
  (∃ res, resolver_gave ctx tok res ∧
     claims = WithoutReservedMTLSClaims (GetClaims (ClaimsPrincipalFromClaimsMap fmt_float (rs_Claims res)))).

Section spec.
Context {rep : P → gset Claim → Prop} `{HL : !ClaimsLaws P rep}.
Context {holds : X → string → list Claim → Prop} `{HC : !CacheLaws X holds}.

Definition outcome_spec (ctx : Ctx) (w : World P X) (S : gset Claim) (o : resolveOutcome) (w' : World P X) : Prop :=
  match o with
  | outcomePassThrough => w' = w
  | outcomeError e => w_principal w' = w_principal w
  | outcomeDirect ctx' =>
      ∃ tok claims, extractBearerToken ctx = Ok (Some tok) ∧ isReferenceToken tok = true ∧
        ctx' = stripAuthorization ctx ∧ unreserved claims ∧ claims_source holds ctx (w_ext w) tok claims ∧
        rep (w_principal w') (S ∪ typed claims)
  | outcomeDelegateToJWT ctx' key ttl before =>
      ∃ tok res, extractBearerToken ctx = Ok (Some tok) ∧ isReferenceToken tok = true ∧
        resolver_gave ctx tok res ∧ rs_Kind res = ResolvedKindJWT ∧
        ctx' = rewriteAuthorizationToJWT ctx (rs_RawJWT res) ∧ (key = cacheKey tok ∨ key = "") ∧
        before = GetClaims (w_principal w) ∧ w_principal w' = w_principal w
  end.

Lemma lookup_cached_holds key x x' l : lookup_cached key x = (x', Some l) → holds x key l.
Proof using HC.
  unfold lookup_cached. destruct (cf_Cache config); [|done]. destruct (cache_Get key x) as [x1 r] eqn:E.
  destruct r as [[l'|]|]; [|done|done]. intros [= <- <-]. by eapply cache_get_holds.
Qed.

Lemma apply_resolved_spec ctx x tok res w S o w' :
  extractBearerToken ctx = Ok (Some tok) → isReferenceToken tok = true → resolver_gave ctx tok res →
  rep (w_principal w) S → apply_resolved ctx (cacheKey tok) res w = (o, w') →
  outcome_spec ctx (mkWorld (w_principal w) (w_bag w) x) S o w'.
Proof using HL.
  intros He Hi Hg Hr. unfold apply_resolved. destruct (Z.eqb_spec (rs_Kind res) ResolvedKindJWT) as [Hk|].
  - destruct (capTTLToJWTExpiry _ (rs_RawJWT res) (w_ext w)) as [x1 [ttl cacheable]]. intros [= <- <-].
    exists tok, res. split_and!; try done. destruct cacheable; auto.
  - destruct (Z.eqb_spec (rs_Kind res) ResolvedKindClaimsPrincipal) as [Hk|]; [|by intros [= <- <-]].
    intros [= <- <-]. exists tok. eexists. split_and!; try done.
    + apply WithoutReserved_unreserved.
    + right. exists res. split; done.
    + set (cs := WithoutReservedMTLSClaims _).
      assert (Hp : rep (AddClaim (w_principal w) cs) (S ∪ typed cs)) by (by apply law_AddClaim).
      destruct cs; [exact Hp|]. destruct (cf_Cache config); exact Hp.
Qed.

(** With the request scope in place [resolve] never panics, and: *)
Lemma resolve_spec ctx w S c :
  GetRequestContainer ctx = Some c → has_principal c = true → rep (w_principal w) S →
  ∃ o w', resolve ctx w = Some (o, w') ∧ outcome_spec ctx w S o w'.
Proof using HC HL.
  intros Hc Hp Hr. unfold resolve. destruct (extractBearerToken ctx) as [[tok|]|e] eqn:He.
  2: by exists outcomePassThrough, w.
  2: by exists (outcomeError e), w.
  case_decide as Htok; [by exists outcomePassThrough, w|].
  destruct (isReferenceToken tok) eqn:Hi; [|by exists outcomePassThrough, w]. cbn [negb]. rewrite Hc, Hp. cbn [negb].
  destruct (lookup_cached (cacheKey tok) (w_ext w)) as [x hit] eqn:El. destruct hit as [claims|].
  - eexists _, _. split; [done|]. exists tok. eexists. split_and!; try done.
    + apply WithoutReserved_unreserved.
    + left. exists claims. split; [by eapply lookup_cached_holds|done].
    + by apply law_AddClaim.
  - destruct (resolveViaResolvers resolvers ctx tok (w_ext (with_ext w x))) as [x1 r] eqn:Ev.
    destruct r as [[res|]|e]; [|by eexists _, _|by eexists _, _].
    apply resolveViaResolvers_gave in Ev.
    destruct (apply_resolved ctx (cacheKey tok) res (with_ext (with_ext w x) x1)) as [o w'] eqn:Ea.
    exists o, w'. split; [done|]. destruct w as [p b y].
    by apply (apply_resolved_spec ctx y tok res (mkWorld p b x1) S o w').
Qed.
End spec.
End reftoken.

(** ** Properties *)
Section properties.
Context `{UT : UnicodeTables}.
Context {Ctx P X R F : Type} `{GrpcContext Ctx} `{HG : !GrpcContextLaws Ctx} `{IClaimsPrincipal P} `{ICache X}.
Context (fmt_float : F → string) (Sum256 : list N → list N) (clock : X → Z * X).
Context (parse_exp : string → option (option Z)) (config : Config).
Context (resolvers : list (Ctx → string → X → X * (bool * option (Resolved F) * option error))).
Abbreviation resolve_ := (resolve fmt_float Sum256 clock parse_exp config resolvers).
Abbreviation unary := (UnaryServerInterceptor (R := R) fmt_float Sum256 clock parse_exp config resolvers).
Abbreviation stream := (StreamServerInterceptor (R := R) fmt_float Sum256 clock parse_exp config resolvers).

(** what a reference token leads to, for both interceptors.  With the
    request scope in place nothing panics, and a call is either passed to the JWT
    interceptor unchanged; or refused without touching the principal; or run
    directly with claims from the cache or from a resolver, none of them reserved
    whatever the cache or the resolver returned, and with the authorization header
    removed; or given to the JWT interceptor with the header replaced by the JWT a
    resolver returned, and when that refuses, nothing is run or cached.  The
    opaque token is visible to nothing downstream. *)
Theorem reftoken_interceptors_spec {rep} `{!ClaimsLaws P rep} {holds} `{!CacheLaws X holds}
    (next : tail Ctx P X R) m handler ctx w S c :
  GetRequestContainer ctx = Some c → has_principal c = true → rep (w_principal w) S →
  ∃ o w', resolve_ ctx w = Some (o, w') ∧
    outcome_spec (rep := rep) (holds := holds) fmt_float Sum256 config resolvers ctx w S o w' ∧
    match o with
    | outcomePassThrough =>
        unary next m handler ctx w = interceptor next m handler ctx w ∧
        stream next m handler ctx w = interceptor next m handler ctx w
    | outcomeError e => unary next m handler ctx w = (Fail e, w') ∧ stream next m handler ctx w = (Fail e, w')
    | outcomeDirect ctx' =>
        unary next m handler ctx w = handler ctx' w' ∧ stream next m handler ctx w = handler ctx' w' ∧
        ∃ md, FromIncomingContext ctx' = Some md ∧ md !! MetadataKeyAuthorization = None
    | outcomeDelegateToJWT ctx' key ttl before =>
        (∃ md jwt, FromIncomingContext ctx' = Some md ∧
           md !! MetadataKeyAuthorization = Some [AuthSchemeBearerPrefix +:+ jwt]) ∧
        ∀ out w2, next ctx' w' = Stop out w2 →
          unary next m handler ctx w = (out, w2) ∧ stream next m handler ctx w = (out, w2)
    end.
Proof using HG.
  intros Hc Hp Hr. unfold UnaryServerInterceptor, StreamServerInterceptor.
  destruct (resolve_spec fmt_float Sum256 clock parse_exp config resolvers (holds := holds) ctx w S c Hc Hp Hr)
    as (o & w' & E & Ho). exists o, w'. split; [done|]. split; [done|]. rewrite E.
  destruct o as [|ctx' key ttl before|ctx'|e]; cbn [outcome_spec] in Ho.
  - by rewrite Ho.
  - destruct Ho as (tok & res & _ & _ & _ & _ & -> & _). split.
    + unfold rewriteAuthorizationToJWT. rewrite incoming_set. eexists _, _. split; [done|]. apply lookup_insert_eq.
    + intros out w2 ->. done.
  - destruct Ho as (tok & claims & _ & _ & -> & _). split_and!; [done|done|].
    unfold stripAuthorization. rewrite incoming_del. eexists. split; [done|]. apply lookup_delete_eq.
  - done.
Qed.

(** the TTL of a resolution to a JWT is capped to the JWT's remaining
    life at the moment of resolution.  It is never longer than asked for; with a
    readable expiry it is at most the time left, a JWT that has expired is not
    cached at all, and without a readable expiry the TTL is kept. *)
Theorem capTTLToJWTExpiry_spec ttl rawJWT x :
  let '(x', (capped, cacheable)) := capTTLToJWTExpiry clock parse_exp ttl rawJWT x in
  let now := (clock x).1 in
  ((0 < ttl)%Z → (capped <= ttl)%Z) ∧
  (∀ exp, parse_exp rawJWT = Some (Some exp) → exp ≠ zero_time →
     (cacheable = true ↔ (now < exp)%Z) ∧ (cacheable = true → (now + capped <= exp)%Z)) ∧
  (match parse_exp rawJWT with Some (Some exp) => exp = zero_time | _ => True end →
     capped = ttl ∧ cacheable = true ∧ x' = x).
Proof.
  unfold capTTLToJWTExpiry. destruct (parse_exp rawJWT) as [[exp|]|]; [|by split_and!|by split_and!].
  destruct (Z.eqb_spec exp zero_time) as [->|Hne]; [split_and!; [done|naive_solver|done]|].
  destruct (clock x) as [now x']. cbn [fst].
  destruct (Z.leb_spec (exp - now) 0), (Z.ltb_spec (exp - now) ttl);
    (split_and!; [lia| |done]); intros exp' [= <-] _; split; try lia; split; (done || lia).
Qed.

(** The cache holds no reserved claims. *)
Definition cache_clean (holds : X → string → list Claim → Prop) (x : X) : Prop :=
  ∀ k l, holds x k l → unreserved l.

Section clean.
Context {holds : X → string → list Claim → Prop} `{HC : !CacheLaws X holds}.

Lemma clean_set k l ttl x : unreserved l → cache_clean holds x → cache_clean holds (cache_SetWithTTL k l ttl x).
Proof using HC. intros Hl Hx k' l' [[-> ->]|?]%cache_set_holds; eauto. Qed.

Lemma clean_get k x : cache_clean holds x → cache_clean holds (cache_Get k x).1.
Proof using HC. intros Hx k' l' ?%cache_get_keeps. eauto. Qed.

Lemma clean_cacheResolved key claims ttl x :
  unreserved claims → cache_clean holds x → cache_clean holds (cacheResolvedClaims config key claims ttl x).
Proof using HC. intros Hl Hx. unfold cacheResolvedClaims. case_match; [done|]. by apply clean_set. Qed.

Context (clock_clean : ∀ x, cache_clean holds x → cache_clean holds (clock x).2).
Context (resolvers_clean : ∀ r ctx tok x, r ∈ resolvers → cache_clean holds x → cache_clean holds (r ctx tok x).1).

Lemma clean_resolvers l ctx tok x :
  (∀ r, r ∈ l → r ∈ resolvers) → cache_clean holds x → cache_clean holds (resolveViaResolvers l ctx tok x).1.
Proof using resolvers_clean.
  revert x. induction l as [|r l IH]; intros x Hl Hx; simpl; [done|].
  pose proof (resolvers_clean r ctx tok x (Hl r (list_elem_of_here _ _)) Hx) as H1'.
  destruct (r ctx tok x) as [x1 [[handled resolved] err]]. cbn [fst] in H1'. destruct err; [done|].
  destruct handled; [done|]. apply IH; [|done]. intros r' Hr'. apply Hl. by right.
Qed.

Lemma clean_capTTL ttl jwt x : cache_clean holds x → cache_clean holds (capTTLToJWTExpiry clock parse_exp ttl jwt x).1.
Proof using clock_clean.
  intros Hx. unfold capTTLToJWTExpiry. pose proof (clock_clean x Hx) as Hc.
  destruct (parse_exp jwt) as [[exp|]|]; [|done|done]. destruct (exp =? zero_time)%Z; [done|].
  destruct (clock x). cbn [snd] in Hc. by repeat case_match.
Qed.

Lemma clean_apply ctx key res w o w' :
  cache_clean holds (w_ext w) → apply_resolved fmt_float clock parse_exp config ctx key res w = (o, w') →
  cache_clean holds (w_ext w').
Proof using clock_clean HC.
  intros Hx. unfold apply_resolved. destruct (_ =? ResolvedKindJWT)%Z.
  - pose proof (clean_capTTL (if (rs_TTL res <=? 0)%Z then DefaultTTL config else rs_TTL res) (rs_RawJWT res) _ Hx) as Hc.
    destruct (capTTLToJWTExpiry _ _ _ _ _) as [x1 [? ?]]. by intros [= <- <-].
  - destruct (_ =? ResolvedKindClaimsPrincipal)%Z; [|by intros [= <- <-]].
    set (cs := WithoutReservedMTLSClaims _). assert (Hcs : unreserved cs) by apply WithoutReserved_unreserved.
    clearbody cs. intros [= <- <-]. destruct cs as [|a cs]; [done|].
    destruct (cf_Cache config); [|done]. by apply clean_set.
Qed.

Lemma clean_resolve ctx w o w' :
  cache_clean holds (w_ext w) → resolve_ ctx w = Some (o, w') → cache_clean holds (w_ext w').
Proof using clock_clean resolvers_clean HC.
  intros Hx. unfold resolve. destruct (extractBearerToken ctx) as [[tok|]|e]; try (by intros [= <- <-]).
  case_decide; [by intros [= <- <-]|]. destruct (isReferenceToken config tok); [|by intros [= <- <-]]. cbn [negb].
  destruct (GetRequestContainer ctx) as [c|]; [|by intros [= <- <-]]. destruct (has_principal c); [|done]. cbn [negb].
  assert (Hl : cache_clean holds (lookup_cached config (cacheKey Sum256 config tok) (w_ext w)).1).
  { unfold lookup_cached. destruct (cf_Cache config); [|done]. pose proof (clean_get (cacheKey Sum256 config tok) _ Hx).
    destruct (cache_Get _ _) as [x1 [[|]|]]; done. }
  destruct (lookup_cached _ _ _) as [x hit]. cbn [fst] in Hl. destruct hit as [claims|]; [by intros [= <- <-]|].
  pose proof (clean_resolvers resolvers ctx tok x (fun _ h => h) Hl) as Hv. cbn [with_ext w_ext].
  destruct (resolveViaResolvers resolvers ctx tok x) as [x1 [[res|]|e]]; try (by intros [= <- <-]).
  intros [= Ha]. by eapply clean_apply in Ha.
Qed.
End clean.

(** reserved claims never enter the cache.  If the cache holds none, it
    holds none after any call through either interceptor, whatever the token, the
    resolution and the claims of the connection (such as [mtls_verified]), as long
    as the other code that can reach it (clock, resolvers, the JWT interceptor, the
    handler) does not put them there itself. *)
Theorem reftoken_cache_stays_clean {holds} `{!CacheLaws X holds} (next : tail Ctx P X R) m handler ctx w :
  (∀ x, cache_clean holds x → cache_clean holds (clock x).2) →
  (∀ r ctx tok x, r ∈ resolvers → cache_clean holds x → cache_clean holds (r ctx tok x).1) →
  (∀ ctx w, cache_clean holds (w_ext w) →
     match next ctx w with Proceed _ w' | Stop _ w' => cache_clean holds (w_ext w') end) →
  (∀ ctx w, cache_clean holds (w_ext w) → cache_clean holds (w_ext (handler ctx w).2)) →
  cache_clean holds (w_ext w) →
  cache_clean holds (w_ext (unary next m handler ctx w).2) ∧
  cache_clean holds (w_ext (stream next m handler ctx w).2).
Proof.
  intros Hclk Hres Hnext Hh Hx. unfold UnaryServerInterceptor, StreamServerInterceptor.
  destruct (resolve_ ctx w) as [[o w1]|] eqn:E; [|done].
  pose proof (clean_resolve Hclk Hres ctx w o w1 Hx E) as H1'.
  destruct o as [|ctx1 key ttl before|ctx1|e]; cbn [snd]; [| |auto|done].
  - unfold interceptor. specialize (Hnext ctx w1 H1'). destruct (next ctx w1); cbn [snd]; auto.
  - specialize (Hnext ctx1 w1 H1'). destruct (next ctx1 w1) as [ctx2 w2|out w2]; [|done]. split.
    + specialize (Hh ctx2 w2 Hnext). destruct (handler ctx2 w2) as [[r|e|] w3]; cbn [snd] in *; [simpl..|done];
      (apply clean_cacheResolved; [apply WithoutReserved_unreserved|done]).
    + apply Hh. simpl. apply clean_cacheResolved; [apply WithoutReserved_unreserved|done].
Qed.

(** a cache hit reproduces the validated token and nothing else.  What
    is cached for a JWT are exactly the unreserved claims its validation added to
    the principal (not those already there, not what the handler adds later);
    loading the entry onto another request's principal adds exactly these. *)
Theorem cache_replays_token_claims {rep} `{!ClaimsLaws P rep} (p0 p1 p2 : P) S0 S1 S2 :
  rep p0 S0 → rep p1 S1 → rep p2 S2 →
  let stored := claimsToCache (GetClaims p0) (GetClaims p1) in
  (∀ c, c ∈ stored ↔ c ∈ S1 ∧ (c ∉ S0) ∧ reserved c = false) ∧
  ∃ S', rep (AddClaim p2 (WithoutReservedMTLSClaims stored)) S' ∧
    ∀ c, c ∈ S' ↔ c ∈ S2 ∨ (c ∈ S1 ∧ (c ∉ S0) ∧ reserved c = false ∧ cl_Type c ≠ "").
Proof.
  intros H0' H1' H2' stored.
  assert (Hs : ∀ c, c ∈ stored ↔ c ∈ S1 ∧ (c ∉ S0) ∧ reserved c = false).
  { intros c. unfold stored, claimsToCache. rewrite elem_of_WithoutReserved, elem_of_ClaimsAddedSince.
    rewrite (proj2 (law_GetClaims p0 S0 H0')), (proj2 (law_GetClaims p1 S1 H1')). tauto. }
  split; [done|]. eexists. split; [by apply law_AddClaim|]. intros c.
  rewrite elem_of_union, elem_of_typed, elem_of_WithoutReserved, Hs. tauto.
Qed.
End properties.

(** ** A concrete cache (no expiry) and resolver *)
#[local] Instance toy_icache : ICache (gmap string (list Claim)) := {|
  cache_Get := fun k x => (x, CachedClaims <$> x !! k);
  cache_SetWithTTL := fun k l _ x => <[k := l]> x |}.

Definition toy_holds (x : gmap string (list Claim)) (k : string) (l : list Claim) : Prop := x !! k = Some l.

#[local] Instance toy_cache_laws : CacheLaws (gmap string (list Claim)) toy_holds.
Proof.
  split; unfold toy_holds; simpl.
  - intros k x x' l [= <- (l' & ? & [= ->])%fmap_Some]. done.
  - done.
  - intros k l _ x k' l' [[<- <-]|[_ ?]]%lookup_insert_Some; [by left|by right].
Qed.

(** Resolves ["pat_1"] to claims, one of them reserved. *)
Definition toy_resolver : stdctx → string → gmap string (list Claim) →
    gmap string (list Claim) * (bool * option (Resolved Z) * option error) := fun _ tok x =>
  if decide (tok = "pat_1")
  then (x, (true, Some (mkResolved ResolvedKindClaimsPrincipal ""
             (<["role" := CVString "dev"]> {["mtls_verified" := CVBool true]}) 60), None))
  else (x, (false, None, None)).

Section witnesses.
#[local] Existing Instance latin1_tables.

Definition toy_config : Config := newConfig [WithCache; WithKnownPrefixes ["pat_"]].

Definition toy_next : tail stdctx Principal.claimsPrincipal (gmap string (list Claim)) (list Claim) :=
  fun _ w => Stop (Fail (StatusErr Unauthenticated "no jwt here")) w.

Definition toy_ref_handler : Handler stdctx Principal.claimsPrincipal (gmap string (list Claim)) (list Claim) :=
  fun _ w => (Reply (GetClaims (w_principal w)), w).

Definition toy_ref (tok : string) (x : gmap string (list Claim)) :=
  UnaryServerInterceptor (fun _ : Z => "1") (fun b => b) (fun x => (0%Z, x)) (fun _ => None) toy_config [toy_resolver]
    toy_next "m" toy_ref_handler
    (mkCtx (Some {[MetadataKeyAuthorization := ["Bearer " +:+ tok]]}) None (Some (ContainerValue (mkContainer true true))))
    (mkWorld Principal.NewIClaimsPrincipal ∅ x).

(** Resolved, cached and served again from the cache. *)
Example toy_ref_twice :
  (toy_ref "pat_1" ∅).1 = Reply [mkClaim "role" "dev"] ∧
  (toy_ref "pat_1" (w_ext (toy_ref "pat_1" ∅).2)).1 = Reply [mkClaim "role" "dev"] ∧
  (toy_ref "pat_2" ∅).1 = Fail (StatusErr Unauthenticated "unrecognized reference token") ∧
  (toy_ref "a.b.c" ∅).1 = Fail (StatusErr Unauthenticated "no jwt here").
Proof. vm_compute. done. Qed.

Lemma reftoken_interceptors_spec_witness :
  let ctx := mkCtx (Some {[MetadataKeyAuthorization := ["Bearer pat_1"]]}) None (Some (ContainerValue (mkContainer true true))) in
  let w : World Principal.claimsPrincipal (gmap string (list Claim)) := mkWorld Principal.NewIClaimsPrincipal ∅ ∅ in
  ∃ o w', resolve (fun _ : Z => "1") (fun b => b) (fun x => (0%Z, x)) (fun _ => None) toy_config [toy_resolver] ctx w = Some (o, w') ∧
    outcome_spec (rep := Principal.principal_rep) (holds := toy_holds) (fun _ : Z => "1") (fun b => b) toy_config
      [toy_resolver] ctx w ∅ o w'.
Proof.
  intros ctx w.
  destruct (reftoken_interceptors_spec (R := list Claim) (rep := Principal.principal_rep) (holds := toy_holds)
    (fun _ : Z => "1") (fun b => b) (fun x => (0%Z, x)) (fun _ => None) toy_config [toy_resolver] toy_next "m"
    toy_ref_handler ctx w ∅ (mkContainer true true)) as (o & w' & E & Ho & _).
  - reflexivity.
  - reflexivity.
  - exact Principal.principal_rep_new.
  - exists o, w'. split; [exact E|exact Ho].
Defined.

Lemma capTTLToJWTExpiry_spec_witness :
  capTTLToJWTExpiry (fun x : unit => (100, x)%Z) (fun _ => Some (Some 130%Z)) 60 "jwt" () = ((), (30, true))%Z ∧
  (100 + 30 <= 130)%Z.
Proof.
  split; [vm_compute; reflexivity|].
  pose proof (capTTLToJWTExpiry_spec (fun x : unit => (100, x)%Z) (fun _ => Some (Some 130%Z)) 60 "jwt" ()) as [_ [He _]].
  destruct (He 130%Z eq_refl) as [_ Hc]; [vm_compute; discriminate|]. apply Hc. reflexivity.
Defined.

Lemma reftoken_cache_stays_clean_witness :
  cache_clean toy_holds (w_ext (toy_ref "pat_1" ∅).2) ∧ w_ext (toy_ref "pat_1" ∅).2 ≠ ∅.
Proof.
  split; [|vm_compute; discriminate].
  apply (reftoken_cache_stays_clean (R := list Claim) (holds := toy_holds) (fun _ : Z => "1") (fun b => b) (fun x => (0%Z, x))
    (fun _ => None) toy_config [toy_resolver] toy_next "m" toy_ref_handler).
  - intros x Hx. exact Hx.
  - intros r ctx tok x Hr Hx. apply list_elem_of_singleton in Hr. rewrite Hr. unfold toy_resolver.
    destruct (decide (tok = "pat_1")); exact Hx.
  - intros ctx w Hx. exact Hx.
  - intros ctx w Hx. exact Hx.
  - intros k l Hl. unfold toy_holds in Hl. simpl in Hl. rewrite lookup_empty in Hl. discriminate Hl.
Defined.

Lemma cache_replays_token_claims_witness :
  let verified := mkClaim "mtls_verified" "true" in let role := mkClaim "role" "dev" in
  let p0 := AddClaim Principal.NewIClaimsPrincipal [verified] in
  let p1 := AddClaim p0 [role] in
  claimsToCache (GetClaims p0) (GetClaims p1) = [role] ∧
  (role ∈ claimsToCache (GetClaims p0) (GetClaims p1) ↔
   role ∈ ∅ ∪ typed [verified] ∪ typed [role] ∧ (role ∉ ∅ ∪ typed [verified]) ∧ reserved role = false).
Proof.
  intros verified role p0 p1. split; [vm_compute; reflexivity|].
  pose proof (Principal.principal_rep_new) as H0.
  apply (cache_replays_token_claims p0 p1 Principal.NewIClaimsPrincipal (∅ ∪ typed [verified])
    (∅ ∪ typed [verified] ∪ typed [role]) ∅).
  - apply law_AddClaim, H0.
  - apply law_AddClaim, law_AddClaim, H0.
  - exact H0.
Defined.

(** *** The unary interceptor stores the entry after the handler

    With a clock in the state and absolute expiry times, the capped TTL of a JWT
    that expires at 60 is counted from the end of a handler that takes 100: the
    entry lives until 160, while the stream interceptor's ends at 60. *)
Definition timed : Type := Z * gmap string (list Claim * Z).

Definition timed_cache : ICache timed := {|
  cache_Get := fun k '(t, m) =>
    ((t, m), match m !! k with Some (l, e) => if (t <? e)%Z then Some (CachedClaims l) else None | None => None end);
  cache_SetWithTTL := fun k l ttl '(t, m) => (t, <[k := (l, (t + ttl)%Z)]> m) |}.
#[local] Existing Instance timed_cache.

Definition jwt_resolver : stdctx → string → timed → timed * (bool * option (Resolved Z) * option error) :=
  fun _ _ x => (x, (true, Some (mkResolved ResolvedKindJWT "a.b.c" ∅ 300), None)).

Definition timed_next : tail stdctx Principal.claimsPrincipal timed unit := fun ctx w =>
  Proceed ctx (with_principal w (AddClaim (w_principal w) [mkClaim "role" "dev"])).

Definition slow_handler : Handler stdctx Principal.claimsPrincipal timed unit := fun _ w =>
  (Reply (), with_ext w ((w_ext w).1 + 100, (w_ext w).2)%Z).

Definition timed_args (i : tail stdctx Principal.claimsPrincipal timed unit → Interceptor stdctx Principal.claimsPrincipal timed unit) :=
  (w_ext (i timed_next "m" slow_handler
     (mkCtx (Some {[MetadataKeyAuthorization := ["Bearer pat_1"]]}) None (Some (ContainerValue (mkContainer true true))))
     (mkWorld Principal.NewIClaimsPrincipal ∅ (0%Z, ∅))).2).2.

Example unary_entry_outlives_jwt :
  (snd <$> (map_to_list (timed_args (UnaryServerInterceptor (fun _ : Z => "1") (fun b => b) (fun x => (x.1, x))
     (fun _ => Some (Some 60%Z)) toy_config [jwt_resolver])))).*2 = [160%Z] ∧
  (snd <$> (map_to_list (timed_args (StreamServerInterceptor (fun _ : Z => "1") (fun b => b) (fun x => (x.1, x))
     (fun _ => Some (Some 60%Z)) toy_config [jwt_resolver])))).*2 = [60%Z].
Proof. vm_compute. done. Qed.
End witnesses.
