(* ===== verification/Cache.v ===== *)
(** * The in-memory cache ([services/common/cache/inmemory.go])

    A thin service over [jellydator/ttlcache] that makes TTLs absolute and keeps
    an expired item from taking a fresh one with it.  The library is the class
    [TTLCache]; [TTLCacheLaws] states what it documents, and what the comment of
    [dropExpired] says about its expiry queue, over two ghost views: the item
    stored under a key with its expiry ([entry]), and the keys for which the queue
    still holds a replaced item ([stale]), whose eviction deletes by key.
    Every library call reads the clock: the [n]-th reading of a run is [now n]. *)
From S2P Require Import Prelude Claims Request RefToken.
From stdpp Require Import options.

Inductive cerr := ErrNotFound | ErrClosed | AdderErr (msg : string).

Class TTLCache (T V : Type) := {
  tc_NewCache : T;
  tc_SkipTTLExtensionOnHit : bool → T → T;
  tc_SetTTL : Z → T → T * option cerr;
  tc_Get : string → Z → T → T * result cerr V;
  tc_GetWithTTL : string → Z → T → T * result cerr (V * Z);
  tc_Set : string → V → Z → T → T * option cerr;
  tc_SetWithTTL : string → V → Z → Z → T → T * option cerr;
  tc_Remove : string → T → T * option cerr;
  tc_Purge : T → T * option cerr;
  tc_Close : T → T * option cerr;
  tc_clean : Z → T → T → Prop }.        (* one round of the library's cleaner at a time *)

(** ** The service *)
Section service.
Context {T V : Type} `{TC : TTLCache T V}.
Context (now : nat → Z) (is_nil : V → bool).

(** The library's state and the number of clock readings so far. *)
Record cache := mkCache { c_ttl : T; c_read : nat }.

Definition Forever : Z := 0.

Definition NewMemoryCache (n : nat) : cache :=
  mkCache (tc_SetTTL Forever (tc_SkipTTLExtensionOnHit true tc_NewCache)).1 n.

(** A library call that reads the clock, and one that does not. *)
Definition timed_call {A} (f : Z → T → T * A) (s : cache) : cache * A :=
  let '(t, a) := f (now (c_read s)) (c_ttl s) in (mkCache t (S (c_read s)), a).
Definition call {A} (f : T → T * A) (s : cache) : cache * A :=
  let '(t, a) := f (c_ttl s) in (mkCache t (c_read s), a).

Definition mc_Get (key : string) : cache → cache * result cerr V := timed_call (tc_Get key).
Definition mc_GetWithTTL (key : string) : cache → cache * result cerr (V * Z) := timed_call (tc_GetWithTTL key).
Definition mc_Remove (key : string) : cache → cache * option cerr := call (tc_Remove key).
Definition mc_SetTTL (ttl : Z) : cache → cache * option cerr := call (tc_SetTTL ttl).
Definition mc_Close : cache → cache * option cerr := call tc_Close.
Definition mc_Purge : cache → cache * option cerr := call tc_Purge.

Definition dropExpired (key : string) (s : cache) : cache :=
  let '(s', r) := mc_Get key s in
  match r with Ok _ => s' | Err _ => (mc_Remove key s').1 end.

Definition mc_Set (key : string) (data : V) (s : cache) : cache * option cerr :=
  timed_call (tc_Set key data) (dropExpired key s).

Definition mc_SetWithTTL (key : string) (data : V) (ttl : Z) (s : cache) : cache * option cerr :=
  timed_call (tc_SetWithTTL key data ttl) (dropExpired key s).

(** [if result, err := s.Get(k); err == nil && result != nil]. *)
Definition usable (r : result cerr V) : option V :=
  match r with Ok v => if is_nil v then None else Some v | Err _ => None end.

(** The function passed to [inflight.Do]; [adder] may itself take time and
    change anything. *)
Definition insert_flight (k : string) (adder : cache → cache * result cerr (V * Z)) (s : cache)
  : cache * result cerr V :=
  let '(s1, r) := mc_Get k s in
  match usable r with
  | Some v => (s1, Ok v)
  | None =>
      match adder s1 with
      | (s2, Err e) => (s2, Err e)
      | (s2, Ok (obj, ttl)) =>
          match mc_SetWithTTL k obj ttl s2 with
          | (s3, Some e) => (s3, Err e)
          | (s3, None) => (s3, Ok obj)
          end
      end
  end.

(** [Do] is [singleflight.Group.Do]. *)
Definition GetOrInsertE (Do : string → (cache → cache * result cerr V) → cache → cache * result cerr V)
    (k : string) (adder : cache → cache * result cerr (V * Z)) (s : cache) : cache * result cerr V :=
  let '(s1, r) := mc_Get k s in
  match usable r with
  | Some v => (s1, Ok v)
  | None => Do k (insert_flight k adder) s1
  end.

Definition GetOrInsert Do k adder (s : cache) : cache * option V :=
  let '(s', r) := GetOrInsertE Do k adder s in (s', match r with Ok v => Some v | Err _ => None end).
End service.
Arguments cache T : clear implicits.

(** ** What the library documents *)

(** The item under a key: its value and expiry time ([None]: never). *)
Abbreviation item V := (V * option Z)%type.

Definition fresh {V} (z : Z) (i : item V) : Prop := match i.2 with None => True | Some x => (z < x)%Z end.
Definition overdue {V} (z : Z) (i : item V) : Prop := match i.2 with None => False | Some x => (x <= z)%Z end.

Class TTLCacheLaws {T V : Type} `{TTLCache T V} (entry : T → string → option (item V)) (stale : T → string → bool)
    (skips opened : T → bool) (global_ttl : T → Z) := {
  (* construction *)
  tl_new : (∀ k, entry tc_NewCache k = None ∧ stale tc_NewCache k = false) ∧ opened tc_NewCache = true;
  tl_skip b t : let t' := tc_SkipTTLExtensionOnHit b t in
    skips t' = b ∧ opened t' = opened t ∧ ∀ k, entry t' k = entry t k ∧ stale t' k = stale t k;
  tl_setttl z t : let t' := (tc_SetTTL z t).1 in
    (opened t = true → global_ttl t' = z) ∧ skips t' = skips t ∧ opened t' = opened t ∧
    ∀ k, entry t' k = entry t k ∧ stale t' k = stale t k;
  (* a hit is an item that has not expired; a fresh item is a hit *)
  tl_get_ok k z t t' v : tc_Get k z t = (t', Ok v) → ∃ x, entry t k = Some (v, x) ∧ (∀ y, x = Some y → (z <= y)%Z);
  tl_get_fresh k z t i : opened t = true → entry t k = Some i → fresh z i → ∃ t', tc_Get k z t = (t', Ok i.1);
  (* with the extension on hit skipped, reading changes nothing *)
  tl_get_frame k z t t' r : tc_Get k z t = (t', r) → skips t = true →
    skips t' = true ∧ opened t' = opened t ∧ global_ttl t' = global_ttl t ∧
    ∀ k', entry t' k' = entry t k' ∧ stale t' k' = stale t k';
  (* reading may at most move an expiry *)
  tl_get_values k z t t' r k' v x : tc_Get k z t = (t', r) → entry t' k' = Some (v, x) → ∃ y, entry t k' = Some (v, y);
  (* writing an item over an expired one leaves the old one in the queue *)
  tl_set k v ttl z t t' e : tc_SetWithTTL k v ttl z t = (t', e) → opened t = true → (0 < ttl)%Z →
    e = None ∧ entry t' k = Some (v, Some (z + ttl)%Z) ∧
    (stale t' k = true → stale t k = true ∨ ∃ i, entry t k = Some i ∧ overdue z i);
  tl_set_global k v z t t' e : tc_Set k v z t = (t', e) → opened t = true → global_ttl t = 0%Z →
    e = None ∧ entry t' k = Some (v, None) ∧
    (stale t' k = true → stale t k = true ∨ ∃ i, entry t k = Some i ∧ overdue z i);
  tl_set_frame k v ttl z t : let t' := (tc_SetWithTTL k v ttl z t).1 in
    skips t' = skips t ∧ opened t' = opened t ∧ global_ttl t' = global_ttl t ∧
    (∀ k', k' ≠ k → entry t' k' = entry t k' ∧ stale t' k' = stale t k') ∧
    (∀ i, entry t' k = Some i → i.1 = v ∨ entry t k = Some i);
  tl_setg_frame k v z t : let t' := (tc_Set k v z t).1 in
    skips t' = skips t ∧ opened t' = opened t ∧ global_ttl t' = global_ttl t ∧
    (∀ k', k' ≠ k → entry t' k' = entry t k' ∧ stale t' k' = stale t k') ∧
    (∀ i, entry t' k = Some i → i.1 = v ∨ entry t k = Some i);
  tl_remove k t : let t' := (tc_Remove k t).1 in
    (opened t = true → entry t' k = None) ∧ (stale t' k = true → stale t k = true) ∧
    (∀ i, entry t' k = Some i → entry t k = Some i) ∧
    skips t' = skips t ∧ opened t' = opened t ∧ global_ttl t' = global_ttl t ∧
    ∀ k', k' ≠ k → entry t' k' = entry t k' ∧ stale t' k' = stale t k';
  (* the cleaner evicts expired items, and by key what a stale one names *)
  tl_clean z t t' : tc_clean z t t' →
    skips t' = skips t ∧ opened t' = opened t ∧ global_ttl t' = global_ttl t ∧
    ∀ k, (stale t' k = true → stale t k = true) ∧
         (entry t' k = entry t k ∨
          entry t' k = None ∧ (stale t k = true ∨ ∃ i, entry t k = Some i ∧ overdue z i)) }.

(** ** Correctness *)
Section laws.
Context {T V : Type} {entry : T → string → option (item V)} {stale : T → string → bool}
  {skips opened : T → bool} {global_ttl : T → Z} `{TL : TTLCacheLaws T V entry stale skips opened global_ttl}.
Context (now : nat → Z) (Hnow : ∀ n, (now n <= now (S n))%Z) (is_nil : V → bool).

(** The service's cache: no sliding expiry, nothing stale. *)
Record cache_ok (s : cache T) : Prop := {
  ok_skips : skips (c_ttl s) = true;
  ok_opened : opened (c_ttl s) = true;
  ok_global : global_ttl (c_ttl s) = Forever;
  ok_stale k : stale (c_ttl s) k = false }.

Lemma NewMemoryCache_ok n : cache_ok (NewMemoryCache n) ∧ ∀ k, entry (c_ttl (NewMemoryCache n)) k = None.
Proof using TL.
  unfold NewMemoryCache. destruct tl_new as [Hn Ho].
  destruct (tl_skip true tc_NewCache) as (Hs & Hos & Hes).
  destruct (tl_setttl Forever (tc_SkipTTLExtensionOnHit true tc_NewCache)) as (Hg & Hs' & Hos' & Hes').
  split; [split|]; simpl.
  - congruence.
  - congruence.
  - apply Hg. congruence.
  - intros k. destruct (Hes' k) as [_ ->], (Hes k) as [_ ->]. apply Hn.
  - intros k. destruct (Hes' k) as [-> _], (Hes k) as [-> _]. apply Hn.
Qed.

Lemma mc_Get_frame k s s' r :
  mc_Get now k s = (s', r) → cache_ok s →
  cache_ok s' ∧ c_read s' = S (c_read s) ∧ ∀ k', entry (c_ttl s') k' = entry (c_ttl s) k'.
Proof using TL.
  unfold mc_Get, timed_call. destruct (tc_Get _ _ _) as [t a] eqn:Hg. intros [= <- <-] [H1 H2 H3 H4].
  destruct (tl_get_frame _ _ _ _ _ Hg H1) as (Hs & Ho & Hgl & Hf). split_and!; [split; simpl|done|].
  - done.
  - congruence.
  - congruence.
  - intros k'. destruct (Hf k') as [_ ->]. apply H4.
  - intros k'. apply Hf.
Qed.

(** [dropExpired] leaves a fresh item alone and nothing expired in place. *)
Lemma dropExpired_spec k s :
  cache_ok s →
  let s' := dropExpired now k s in
  cache_ok s' ∧ c_read s' = S (c_read s) ∧
  (∀ k', k' ≠ k → entry (c_ttl s') k' = entry (c_ttl s) k') ∧
  (entry (c_ttl s') k = entry (c_ttl s) k ∨ entry (c_ttl s') k = None) ∧
  (∀ i, entry (c_ttl s) k = Some i → fresh (now (c_read s)) i → entry (c_ttl s') k = Some i) ∧
  (∀ v x, entry (c_ttl s') k = Some (v, Some x) → (now (c_read s) <= x)%Z).
Proof using TL.
  intros Hok. unfold dropExpired. destruct (mc_Get now k s) as [s1 r] eqn:Hg.
  destruct (mc_Get_frame _ _ _ _ Hg Hok) as (Hok1 & Hr1 & He1).
  unfold mc_Get, timed_call in Hg. destruct (tc_Get _ _ _) as [t a] eqn:Hgt. injection Hg as <- <-.
  destruct a as [v|e]; cbv zeta.
  - split_and!; [done|done|intros k' _; apply He1|left; apply He1|by intros i Hi _; rewrite He1|].
    intros v' x. rewrite He1. destruct (tl_get_ok _ _ _ _ _ Hgt) as (y & -> & Hy). intros [= -> ->]. by apply Hy.
  - unfold mc_Remove, call. destruct (tc_Remove k (c_ttl _)) as [t2 e2] eqn:Hrm. simpl in *.
    pose proof (tl_remove k t) as Hl. rewrite Hrm in Hl. simpl in Hl.
    destruct Hl as (Hn & Hst & _ & Hs & Ho & Hgl & Hf). destruct Hok1 as [P1 P2 P3 P4]; simpl in *.
    specialize (Hn P2). split_and!.
    + split; simpl; [congruence|congruence|congruence|]. intros k'. destruct (decide (k' = k)) as [->|Hk].
      * destruct (stale t2 k) eqn:E2; [|done]. by rewrite <- (P4 k), Hst.
      * destruct (Hf k' Hk) as [_ ->]. apply P4.
    + done.
    + intros k' Hk. destruct (Hf k' Hk) as [-> _]. apply He1.
    + by right.
    + intros i Hi Hfr. exfalso. destruct Hok as [_ Q2 _ _].
      destruct (tl_get_fresh k (now (c_read s)) (c_ttl s) i Q2 Hi Hfr) as [t' Hc]. congruence.
    + intros v x. by rewrite Hn.
Qed.

(** The item under [k] does not expire between the two clock readings of a
    write: [dropExpired] and the write are not one atomic step. *)
Definition quiet (k : string) (s : cache T) : Prop :=
  ∀ v x, entry (c_ttl s) k = Some (v, Some x) → (now (c_read s) <= x)%Z → (now (S (c_read s)) < x)%Z.

(** Nothing expired is overwritten. *)
Lemma quiet_no_overdue k s :
  cache_ok s → quiet k s →
  ¬ ∃ i, entry (c_ttl (dropExpired now k s)) k = Some i ∧ overdue (now (S (c_read s))) i.
Proof using TL.
  intros Hok Hq ([v [x|]] & Hi & Hov); [|done]. unfold overdue in Hov. simpl in Hov.
  destruct (dropExpired_spec k s Hok) as (_ & _ & _ & Hor & _ & Hx). specialize (Hx _ _ Hi).
  destruct Hor as [Heq|Heq]; rewrite Heq in Hi; [|done]. specialize (Hq _ _ Hi Hx). lia.
Qed.

(** Writes of the library keep the service's invariant when nothing expired
    is overwritten. *)
Lemma write_ok (t t' : T) k n m :
  cache_ok (mkCache t n) → skips t' = skips t → opened t' = opened t → global_ttl t' = global_ttl t →
  (∀ k', k' ≠ k → entry t' k' = entry t k' ∧ stale t' k' = stale t k') → (stale t' k = true → stale t k = true) →
  cache_ok (mkCache t' m).
Proof using Type.
  intros [H1 H2 H3 H4] Hs Ho Hg Hf Hst; simpl in *. split; simpl; [congruence..|].
  intros k'. destruct (decide (k' = k)) as [->|Hk].
  - destruct (stale t' k) eqn:E; [|done]. by rewrite <- (H4 k), Hst.
  - destruct (Hf k' Hk) as [_ ->]. apply H4.
Qed.

Lemma mc_SetWithTTL_spec k v ttl s s' e :
  mc_SetWithTTL now k v ttl s = (s', e) → cache_ok s → quiet k s → (0 < ttl)%Z →
  e = None ∧ cache_ok s' ∧ c_read s' = S (S (c_read s)) ∧
  entry (c_ttl s') k = Some (v, Some (now (S (c_read s)) + ttl)%Z) ∧
  ∀ k', k' ≠ k → entry (c_ttl s') k' = entry (c_ttl s) k'.
Proof using TL.
  unfold mc_SetWithTTL, timed_call. intros Hs Hok Hq Httl. pose proof (quiet_no_overdue k s Hok Hq) as Hno.
  destruct (dropExpired_spec k s Hok) as (Hok1 & Hr & Ho & _). destruct (dropExpired now k s) as [t1 n1]. simpl in *.
  subst n1. destruct (tc_SetWithTTL k v ttl _ t1) as [t2 e2] eqn:Hset. injection Hs as <- <-.
  destruct (tl_set _ _ _ _ _ _ _ Hset (ok_opened _ Hok1) Httl) as (-> & Hent & Hst).
  pose proof (tl_set_frame k v ttl (now (S (c_read s))) t1) as Hfr. rewrite Hset in Hfr. simpl in Hfr.
  destruct Hfr as (F1 & F2 & F3 & F4 & _). split_and!; [done| |done|done|].
  - refine (write_ok t1 t2 k _ _ Hok1 F1 F2 F3 F4 _). intros [?|?]%Hst; [done|]. by destruct Hno.
  - intros k' Hk. simpl. destruct (F4 k' Hk) as [-> _]. by apply Ho.
Qed.

Lemma mc_Set_spec k v s s' e :
  mc_Set now k v s = (s', e) → cache_ok s → quiet k s →
  e = None ∧ cache_ok s' ∧ c_read s' = S (S (c_read s)) ∧ entry (c_ttl s') k = Some (v, None) ∧
  ∀ k', k' ≠ k → entry (c_ttl s') k' = entry (c_ttl s) k'.
Proof using TL.
  unfold mc_Set, timed_call. intros Hs Hok Hq. pose proof (quiet_no_overdue k s Hok Hq) as Hno.
  destruct (dropExpired_spec k s Hok) as (Hok1 & Hr & Ho & _). destruct (dropExpired now k s) as [t1 n1]. simpl in *.
  subst n1. destruct (tc_Set k v _ t1) as [t2 e2] eqn:Hset. injection Hs as <- <-.
  destruct (tl_set_global _ _ _ _ _ _ Hset (ok_opened _ Hok1) (ok_global _ Hok1)) as (-> & Hent & Hst).
  pose proof (tl_setg_frame k v (now (S (c_read s))) t1) as Hfr. rewrite Hset in Hfr. simpl in Hfr.
  destruct Hfr as (F1 & F2 & F3 & F4 & _). split_and!; [done| |done|done|].
  - refine (write_ok t1 t2 k _ _ Hok1 F1 F2 F3 F4 _). intros [?|?]%Hst; [done|]. by destruct Hno.
  - intros k' Hk. simpl. destruct (F4 k' Hk) as [-> _]. by apply Ho.
Qed.

(** *** Runs: calls of the service, time passing and the library's cleaner.
    The label is the key a step writes. *)
Inductive cache_step : option string → cache T → cache T → Prop :=
| step_wait s : cache_step None s (mkCache (c_ttl s) (S (c_read s)))
| step_clean s t' : tc_clean (now (c_read s)) (c_ttl s) t' → cache_step None s (mkCache t' (S (c_read s)))
| step_get k s : cache_step None s (mc_Get now k s).1
| step_set k v ttl s : (0 < ttl)%Z → quiet k s → cache_step (Some k) s (mc_SetWithTTL now k v ttl s).1
| step_set_forever k v s : quiet k s → cache_step (Some k) s (mc_Set now k v s).1
| step_remove k s : cache_step (Some k) s (mc_Remove k s).1.

Definition any_step (s s' : cache T) : Prop := ∃ l, cache_step l s s'.
Definition step_not_writing (k : string) (s s' : cache T) : Prop := ∃ l, cache_step l s s' ∧ l ≠ Some k.

Lemma cache_step_ok l s s' :
  cache_step l s s' → cache_ok s →
  cache_ok s' ∧ c_read s ≤ c_read s' ∧
  ∀ k, l ≠ Some k → entry (c_ttl s') k = entry (c_ttl s) k ∨
    (entry (c_ttl s') k = None ∧ ∃ i, entry (c_ttl s) k = Some i ∧ overdue (now (c_read s)) i).
Proof using TL.
  intros Hst Hok. destruct Hst as [s|s t' Hc|k s|k v ttl s Httl Hq|k v s Hq|k s].
  - split_and!; [by destruct Hok|simpl; lia|by left].
  - destruct (tl_clean _ _ _ Hc) as (F1 & F2 & F3 & F4). destruct Hok as [H1 H2 H3 H4]. split_and!; [|simpl; lia|].
    + split; simpl; [congruence..|]. intros k. destruct (stale t' k) eqn:E; [|done]. by rewrite <- (H4 k), (proj1 (F4 k)).
    + intros k _. destruct (proj2 (F4 k)) as [?|(? & [?|?])]; [by left|congruence|by right].
  - destruct (mc_Get now k s) as [s' r] eqn:Hg. destruct (mc_Get_frame _ _ _ _ Hg Hok) as (Hok' & Hr & He). simpl.
    split_and!; [done|lia|intros k' _; by left].
  - destruct (mc_SetWithTTL now k v ttl s) as [s' e] eqn:Hs.
    destruct (mc_SetWithTTL_spec _ _ _ _ _ _ Hs Hok Hq Httl) as (_ & Hok' & Hr & _ & Hf). simpl.
    split_and!; [done|lia|]. intros k' Hk. left. apply Hf. congruence.
  - destruct (mc_Set now k v s) as [s' e] eqn:Hs.
    destruct (mc_Set_spec _ _ _ _ _ Hs Hok Hq) as (_ & Hok' & Hr & _ & Hf). simpl.
    split_and!; [done|lia|]. intros k' Hk. left. apply Hf. congruence.
  - unfold mc_Remove, call. pose proof (tl_remove k (c_ttl s)) as Hl. destruct (tc_Remove k (c_ttl s)) as [t2 e2]. simpl in *.
    destruct Hl as (_ & Hstl & _ & F1 & F2 & F3 & F4). destruct s as [t n]; simpl in *.
    split_and!; [by apply (write_ok t t2 k n)|lia|]. intros k' Hk. left. apply F4. congruence.
Qed.

Lemma now_mono n m : n ≤ m → (now n <= now m)%Z.
Proof using Hnow. induction 1; [lia|]. specialize (Hnow m). lia. Qed.

(** The value set under [k], expiring at [x], as long as nobody writes [k]. *)
Definition retained (k : string) (v : V) (x : Z) (s : cache T) : Prop :=
  cache_ok s ∧ (entry (c_ttl s) k = Some (v, Some x) ∨ entry (c_ttl s) k = None ∧ (x <= now (c_read s))%Z).

Lemma retained_step k v x s s' : step_not_writing k s s' → retained k v x s → retained k v x s'.
Proof using TL Hnow.
  intros (l & Hst & Hl) [Hok He]. destruct (cache_step_ok _ _ _ Hst Hok) as (Hok' & Hr & Hf).
  pose proof (now_mono _ _ Hr). split; [done|].
  destruct (Hf k Hl) as [->|[-> (i & Hi & Hov)]]; [destruct He as [?|[? ?]]; [by left|right; split; [done|lia]]|].
  right. split; [done|]. destruct He as [He|[He _]]; rewrite He in Hi; simplify_eq. unfold overdue in Hov. simpl in Hov. lia.
Qed.

(** TTLs are absolute.  In any run of the service from [NewMemoryCache],
    with reads and writes of any keys, time passing and rounds of the library's
    cleaner in between: a value stored with a TTL is returned by every [Get] until
    the TTL has elapsed, however late the cleaner runs, and by none after it,
    however often it is read, as long as nobody else writes its key (and no item
    expires in the instant between the two steps of a write). *)
Theorem memory_cache_ttl_absolute n0 s k v ttl s1 e s2 :
  rtc any_step (NewMemoryCache n0) s → quiet k s → (0 < ttl)%Z →
  mc_SetWithTTL now k v ttl s = (s1, e) → rtc (step_not_writing k) s1 s2 →
  let x := (now (S (c_read s)) + ttl)%Z in
  e = None ∧
  ((now (c_read s2) < x)%Z → (mc_Get now k s2).2 = Ok v) ∧
  ((x < now (c_read s2))%Z → ∀ v', (mc_Get now k s2).2 ≠ Ok v').
Proof using TL Hnow.
  intros Hrun Hq Httl Hset Hrun2 x. assert (cache_ok s) as Hok.
  { clear -Hrun TL. remember (NewMemoryCache n0) as s0. assert (cache_ok s0) as H0 by (subst; apply NewMemoryCache_ok).
    clear Heqs0. induction Hrun as [|a b c [l Hl] _ IH]; [done|]. by apply IH, (cache_step_ok _ _ _ Hl H0). }
  destruct (mc_SetWithTTL_spec _ _ _ _ _ _ Hset Hok Hq Httl) as (-> & Hok1 & _ & He & _). split; [done|].
  assert (retained k v x s2) as [Hok2 Hret].
  { assert (retained k v x s1) as H1 by (split; [done|by left]). clear Hset He.
    induction Hrun2 as [|a b c Hst _ IH]; [done|]. apply IH; [by eapply retained_step|by eapply retained_step]. }
  unfold mc_Get, timed_call. destruct (tc_Get k _ (c_ttl s2)) as [t r] eqn:Hg. simpl. split.
  - intros Hlt. destruct Hret as [Hret|[_ Hx]]; [|lia].
    destruct (tl_get_fresh k (now (c_read s2)) (c_ttl s2) _ (ok_opened _ Hok2) Hret) as [t' Hg']; [exact Hlt|].
    simpl in Hg'. congruence.
  - intros Hgt v' ->. destruct (tl_get_ok _ _ _ _ _ Hg) as (y & Hy & Hle).
    destruct Hret as [Hret|[Hret _]]; rewrite Hret in Hy; simplify_eq. specialize (Hle x eq_refl). lia.
Qed.

(** *** [GetOrInsertE] with no other call in flight for the key *)
Context (Do : string → (cache T → cache T * result cerr V) → cache T → cache T * result cerr V)
  (HDo : ∀ k f s, Do k f s = f s).

Lemma GetOrInsertE_hit k adder s v x :
  retained k v x s → (now (c_read s) < x)%Z → is_nil v = false → (GetOrInsertE now is_nil Do k adder s).2 = Ok v.
Proof using TL.
  intros [Hok [He|[_ ?]]] Hx Hn; [|lia]. unfold GetOrInsertE, mc_Get, timed_call.
  destruct (tl_get_fresh k (now (c_read s)) (c_ttl s) _ (ok_opened _ Hok) He) as [t ->]; [exact Hx|].
  simpl. by rewrite Hn.
Qed.

(** [GetOrInsertE] on every path.  A usable cached value is returned and the
    adder not run; otherwise, if the second look inside the flight finds one, that;
    otherwise the adder's error is returned unchanged, or its value is returned
    and stored, so that until the TTL it gave has elapsed later calls return that
    value without running their adder. *)
Theorem GetOrInsertE_spec k adder s :
  let '(s1, r1) := mc_Get now k s in
  let '(s2, r2) := mc_Get now k s1 in
  match usable is_nil r1, usable is_nil r2, adder s2 with
  | Some v, _, _ => GetOrInsertE now is_nil Do k adder s = (s1, Ok v)
  | None, Some v, _ => GetOrInsertE now is_nil Do k adder s = (s2, Ok v)
  | None, None, (s3, Err e) => GetOrInsertE now is_nil Do k adder s = (s3, Err e)
  | None, None, (s3, Ok (v, ttl)) =>
      cache_ok s3 → quiet k s3 → (0 < ttl)%Z →
      ∃ s4, GetOrInsertE now is_nil Do k adder s = (s4, Ok v) ∧ cache_ok s4 ∧
        ((now (c_read s4) < now (S (c_read s3)) + ttl)%Z → is_nil v = false →
         ∀ adder', (GetOrInsertE now is_nil Do k adder' s4).2 = Ok v)
  end.
Proof using TL HDo.
  destruct (mc_Get now k s) as [s1 r1] eqn:G1. destruct (mc_Get now k s1) as [s2 r2] eqn:G2.
  assert (usable is_nil r1 = None → GetOrInsertE now is_nil Do k adder s = insert_flight now is_nil k adder s1) as Hf.
  { intros Hu. unfold GetOrInsertE. by rewrite G1, Hu, HDo. }
  destruct (usable is_nil r1) as [v|] eqn:U1; [unfold GetOrInsertE; by rewrite G1, U1|]. specialize (Hf eq_refl).
  destruct (usable is_nil r2) as [v|] eqn:U2; [rewrite Hf; unfold insert_flight; by rewrite G2, U2|].
  destruct (adder s2) as [s3 [[v ttl]|e]] eqn:Ha; [|rewrite Hf; unfold insert_flight; by rewrite G2, U2, Ha].
  intros Hok3 Hq Httl. destruct (mc_SetWithTTL now k v ttl s3) as [s4 e4] eqn:Hset.
  destruct (mc_SetWithTTL_spec _ _ _ _ _ _ Hset Hok3 Hq Httl) as (-> & Hok4 & _ & He & _). exists s4.
  split; [rewrite Hf; unfold insert_flight; by rewrite G2, U2, Ha, Hset|]. split; [done|].
  intros Hx Hn adder'. eapply GetOrInsertE_hit; [|exact Hx|done]. split; [done|by left].
Qed.
End laws.

(** ** The reference-token cache contract

    [ISingletonMemoryCache] is one implementation of [referencetoken.ICache]. *)
Section icache.
Context {T : Type} {entry : T → string → option (item cached)} {stale : T → string → bool}
  {skips opened : T → bool} {global_ttl : T → Z} `{TL : TTLCacheLaws T cached entry stale skips opened global_ttl}.
Context (now : nat → Z).

Definition memory_ICache : ICache (cache T) := {|
  cache_Get k s := let '(s', r) := mc_Get now k s in (s', match r with Ok v => Some v | Err _ => None end);
  cache_SetWithTTL k l ttl s := (mc_SetWithTTL now k (CachedClaims l) ttl s).1 |}.

(** What a [Get] may return. *)
Definition memory_holds (s : cache T) (k : string) (l : list Claim) : Prop :=
  ∃ x, entry (c_ttl s) k = Some (CachedClaims l, x).

Lemma mc_Get_holds k s k' l : memory_holds (mc_Get now k s).1 k' l → memory_holds s k' l.
Proof using TL.
  unfold mc_Get, timed_call, memory_holds. destruct (tc_Get _ _ _) as [t r] eqn:Hg. simpl.
  intros [x Hx]. by eapply tl_get_values.
Qed.

Lemma dropExpired_holds k s k' l : memory_holds (dropExpired now k s) k' l → memory_holds s k' l.
Proof using TL.
  unfold dropExpired. destruct (mc_Get now k s) as [s1 r] eqn:Hg.
  assert (memory_holds s1 k' l → memory_holds s k' l) as H1.
  { intros Hm. apply (mc_Get_holds k). by rewrite Hg. }
  destruct r as [v|e]; [exact H1|]. intros Hm. apply H1. clear H1 Hg.
  unfold memory_holds, mc_Remove, call in *. pose proof (tl_remove k (c_ttl s1)) as Hl.
  destruct (tc_Remove k (c_ttl s1)) as [t e']. simpl in *. destruct Hm as [x Hx].
  destruct Hl as (_ & _ & Hin & _ & _ & _ & Hf). exists x.
  destruct (decide (k' = k)) as [->|Hk]; [by apply Hin|]. destruct (Hf k' Hk) as [<- _]. done.
Qed.

(** the in-memory cache meets the contract the reference-token middleware
    relies on: a [Get] returns only what was stored under that very key and not
    what another key holds, and neither a read nor a write changes what the other
    keys hold. *)
Theorem memory_cache_is_ICache : CacheLaws (H := memory_ICache) (cache T) memory_holds.
Proof using TL.
  split.
  - intros k s s' l. simpl. unfold mc_Get, timed_call. destruct (tc_Get _ _ _) as [t [v|e]] eqn:Hg; [|done].
    intros [= <- ->]. destruct (tl_get_ok _ _ _ _ _ Hg) as (x & Hx & _). by exists x.
  - intros k s k' l. simpl. pose proof (mc_Get_holds k s k' l) as Hm. by destruct (mc_Get now k s) as [s1 r].
  - intros k l ttl s k' l'. simpl. unfold mc_SetWithTTL, timed_call.
    pose proof (dropExpired_holds k s k' l') as Hd. destruct (dropExpired now k s) as [t n]. simpl.
    pose proof (tl_set_frame k (CachedClaims l) ttl (now n) t) as Hf.
    destruct (tc_SetWithTTL _ _ _ _ _) as [t' e]. simpl in *. destruct Hf as (_ & _ & _ & Ho & Hv).
    intros [x Hx]. simpl in Hx. destruct (decide (k' = k)) as [->|Hk].
    + destruct (Hv _ Hx) as [Heq|Heq]; [simpl in Heq; simplify_eq; by left|right]. apply Hd. by exists x.
    + right. apply Hd. exists x. simpl. destruct (Ho k' Hk) as [<- _]. done.
Qed.
End icache.

(** ** A TTL cache in memory, and what [dropExpired] is for *)
Record ttl_mem (V : Type) := mkTtl {
  tm_items : gmap string (item V); tm_stale : gset string; tm_skip : bool; tm_open : bool; tm_global : Z }.
Arguments mkTtl {V}. Arguments tm_items {V}. Arguments tm_stale {V}. Arguments tm_skip {V}. Arguments tm_open {V}.
Arguments tm_global {V}.

Definition overdueb {V} (z : Z) (i : item V) : bool := match i.2 with None => false | Some x => (x <=? z)%Z end.

(** A write over an expired item leaves that item in the queue. *)
Definition tm_put {V} (k : string) (i : item V) (z : Z) (t : ttl_mem V) : ttl_mem V :=
  mkTtl (<[k := i]> (tm_items t))
    (match tm_items t !! k with Some old => if overdueb z old then {[k]} ∪ tm_stale t else tm_stale t | None => tm_stale t end)
    (tm_skip t) (tm_open t) (tm_global t).

#[local] Instance ttl_memory {V} : TTLCache (ttl_mem V) V := {|
  tc_NewCache := mkTtl ∅ ∅ false true 0;
  tc_SkipTTLExtensionOnHit b t := mkTtl (tm_items t) (tm_stale t) b (tm_open t) (tm_global t);
  tc_SetTTL z t := (mkTtl (tm_items t) (tm_stale t) (tm_skip t) (tm_open t) z, None);
  tc_Get k z t :=
    (t, if tm_open t then
          match tm_items t !! k with Some i => if overdueb z i then Err ErrNotFound else Ok i.1 | None => Err ErrNotFound end
        else Err ErrClosed);
  tc_GetWithTTL k z t :=
    (t, match tm_items t !! k with Some (v, Some x) => Ok (v, (x - z)%Z) | _ => Err ErrNotFound end);
  tc_Set k v z t :=
    if tm_open t then (tm_put k (v, if (tm_global t =? 0)%Z then None else Some (z + tm_global t)%Z) z t, None)
    else (t, Some ErrClosed);
  tc_SetWithTTL k v ttl z t :=
    if tm_open t then (tm_put k (v, Some (z + ttl)%Z) z t, None) else (t, Some ErrClosed);
  tc_Remove k t :=
    if tm_open t then (mkTtl (delete k (tm_items t)) (tm_stale t) (tm_skip t) (tm_open t) (tm_global t), None)
    else (t, Some ErrClosed);
  tc_Purge t := (mkTtl ∅ ∅ (tm_skip t) (tm_open t) (tm_global t), None);
  tc_Close t := (mkTtl (tm_items t) (tm_stale t) (tm_skip t) false (tm_global t), None);
  tc_clean z t t' :=
    t' = mkTtl (filter (fun kv => overdueb z kv.2 = false ∧ kv.1 ∉ tm_stale t) (tm_items t)) ∅
           (tm_skip t) (tm_open t) (tm_global t) |}.

Lemma overdueb_spec {V} z (i : item V) : overdueb z i = true ↔ overdue z i.
Proof. unfold overdueb, overdue. destruct i.2; [|done]. by rewrite Z.leb_le. Qed.

Lemma tm_put_spec {V} k (i : item V) z t :
  tm_items (tm_put k i z t) !! k = Some i ∧
  (bool_decide (k ∈ tm_stale (tm_put k i z t)) = true →
   bool_decide (k ∈ tm_stale t) = true ∨ ∃ old, tm_items t !! k = Some old ∧ overdue z old) ∧
  ∀ k', k' ≠ k → tm_items (tm_put k i z t) !! k' = tm_items t !! k' ∧
    bool_decide (k' ∈ tm_stale (tm_put k i z t)) = bool_decide (k' ∈ tm_stale t).
Proof.
  unfold tm_put. simpl. split; [by simplify_map_eq|]. split.
  - destruct (tm_items t !! k) as [old|]; [|by left]. destruct (overdueb z old) eqn:Ho; [|by left].
    intros _. right. exists old. split; [done|]. by apply overdueb_spec.
  - intros k' Hk. split; [by simplify_map_eq|]. apply bool_decide_ext.
    destruct (tm_items t !! k) as [old|]; [|done]. destruct (overdueb z old); [|done]. set_solver.
Qed.

Lemma ttl_memory_laws {V} : TTLCacheLaws (H := ttl_memory (V := V)) (fun t k => tm_items t !! k)
  (fun t k => bool_decide (k ∈ tm_stale t)) tm_skip tm_open tm_global.
Proof.
  split.
  - split; [|done]. intros k. simpl. split; [apply lookup_empty|]. by apply bool_decide_eq_false.
  - done.
  - done.
  - intros k z t t' v. simpl. intros [= <- Hr]. destruct (tm_open t); [|done].
    destruct (tm_items t !! k) as [[v0 x]|]; [|done]. destruct (overdueb z (v0, x)) eqn:Ho; simplify_eq/=.
    exists x. split; [done|]. intros y ->. unfold overdueb in Ho. simpl in Ho. lia.
  - intros k z t i Ho Hi Hf. simpl in *. rewrite Ho, Hi. destruct (overdueb z i) eqn:E; [|by eexists].
    apply overdueb_spec in E. unfold fresh, overdue in *. destruct i.2; [lia|done].
  - intros k z t t' r [= <- _]. done.
  - intros k z t t' r k' v x [= <- _]. eauto.
  - intros k v ttl z t t' e. simpl. intros Hs Ho _. rewrite Ho in Hs. injection Hs as <- <-.
    destruct (tm_put_spec k (v, Some (z + ttl)%Z) z t) as (? & ? & _). done.
  - intros k v z t t' e. simpl. intros Hs Ho Hg. rewrite Ho, Hg in Hs. injection Hs as <- <-.
    destruct (tm_put_spec k (v, None) z t) as (? & ? & _). done.
  - intros k v ttl z t. simpl. destruct (tm_open t) eqn:Ho; [|simpl; by eauto 10].
    destruct (tm_put_spec k (v, Some (z + ttl)%Z) z t) as (Hp & _ & Hf). simpl. split_and!; try done.
    intros i Hi. left. change (tm_items (tm_put k (v, Some (z + ttl)%Z) z t) !! k = Some i) in Hi. rewrite Hp in Hi. by injection Hi as <-.
  - intros k v z t. simpl. destruct (tm_open t) eqn:Ho; [|simpl; by eauto 10].
    set (i0 := (v, _)). destruct (tm_put_spec k i0 z t) as (Hp & _ & Hf). simpl. split_and!; try done.
    intros i Hi. left. change (tm_items (tm_put k i0 z t) !! k = Some i) in Hi. rewrite Hp in Hi. by injection Hi as <-.
  - intros k t. simpl. destruct (tm_open t) eqn:Ho; simpl; [|by split_and!].
    split_and!; try done; [by simplify_map_eq|by intros i; simplify_map_eq|].
    intros k' Hk. by simplify_map_eq.
  - intros z t t' ->. simpl. split_and!; try done. intros k. split; [by rewrite bool_decide_eq_true|].
    destruct (tm_items t !! k) as [i|] eqn:Hi; cycle 1.
    { left. apply map_lookup_filter_None. by left. }
    destruct (overdueb z i) eqn:Hov; [|destruct (decide (k ∈ tm_stale t)) as [Hs|Hs]].
    + right. split; [|right; exists i; split; [done|by apply overdueb_spec]].
      apply map_lookup_filter_None. right. intros j Hj [??]. simpl in *. congruence.
    + right. split; [|left; by apply bool_decide_eq_true].
      apply map_lookup_filter_None. right. intros j Hj [??]. done.
    + left. by apply map_lookup_filter_Some.
Qed.

(** ** Examples: one clock reading per time unit *)
Definition unit_clock (n : nat) : Z := Z.of_nat n.
Definition wait {T} (s : cache T) : cache T := mkCache (c_ttl s) (S (c_read s)).
Definition swept {V} (s : cache (ttl_mem V)) : cache (ttl_mem V) :=
  let t := c_ttl s in
  mkCache (mkTtl (filter (fun kv => overdueb (unit_clock (c_read s)) kv.2 = false ∧ kv.1 ∉ tm_stale t) (tm_items t)) ∅
            (tm_skip t) (tm_open t) (tm_global t)) (S (c_read s)).

(** "old" is stored with TTL 2 and expires before the cleaner runs. *)
Definition expired_run : cache (ttl_mem string) :=
  wait (wait (mc_SetWithTTL unit_clock "k" "old" 2 (NewMemoryCache 0)).1).

Lemma expired_reach : rtc (any_step (entry := fun t k => tm_items t !! k) unit_clock) (NewMemoryCache 0) expired_run.
Proof.
  eapply rtc_l; [exists (Some "k"); apply (step_set unit_clock "k" "old" 2); [lia|by intros v x ?]|].
  eapply rtc_l; [exists None; apply step_wait|]. eapply rtc_l; [exists None; apply step_wait|]. apply rtc_refl.
Qed.

Lemma expired_quiet : quiet (entry := fun t k => tm_items t !! k) unit_clock "k" expired_run.
Proof. intros v x Hx Hle. vm_compute in Hx. injection Hx as <- <-. vm_compute in Hle. by destruct Hle. Qed.

Lemma memory_cache_ttl_absolute_witness :
  let s1 := (mc_SetWithTTL unit_clock "k" "new" 10 expired_run).1 in
  (mc_Get unit_clock "k" expired_run).2 = Err ErrNotFound ∧
  (mc_Get unit_clock "k" (swept s1)).2 = Ok "new".
Proof.
  intros s1. split; [reflexivity|].
  destruct (memory_cache_ttl_absolute (TL := ttl_memory_laws) unit_clock (fun n => ltac:(unfold unit_clock; lia))
    0 expired_run "k" "new" 10 s1 None (swept s1) expired_reach expired_quiet eq_refl eq_refl) as (_ & Hget & _).
  - eapply rtc_l; [exists None; split; [apply step_clean; reflexivity|done]|apply rtc_refl].
  - apply Hget. reflexivity.
Defined.

Lemma GetOrInsertE_spec_witness :
  let Do := fun (_ : string) f (s : cache (ttl_mem string)) => f s in
  let s4 := (GetOrInsertE unit_clock (fun v => bool_decide (v = "")) Do "k" (fun s => (s, Ok ("v", 10%Z))) (NewMemoryCache 0)).1 in
  (GetOrInsertE unit_clock (fun v => bool_decide (v = "")) Do "k" (fun s => (s, Err (AdderErr "not run"))) s4).2 = Ok "v".
Proof.
  intros Do s4.
  pose proof (GetOrInsertE_spec (TL := ttl_memory_laws) unit_clock (fun v => bool_decide (v = "")) Do (fun _ _ _ => eq_refl)
    "k" (fun s => (s, Ok ("v", 10%Z))) (NewMemoryCache 0)) as Hspec.
  cbn in Hspec. destruct Hspec as (s & Hs & _ & Hlater).
  - split; [reflexivity|reflexivity|reflexivity|]. intros k. by apply bool_decide_eq_false.
  - intros v x Hx. vm_compute in Hx. discriminate Hx.
  - lia.
  - assert (s = s4) as -> by (symmetry; exact (f_equal fst Hs)).
    exact (Hlater eq_refl eq_refl (fun s => (s, Err (AdderErr "not run")))).
Defined.

(** Writing over an expired item without [dropExpired]: the cleaner evicts the
    fresh item. *)
Example without_dropExpired :
  let s1 := (timed_call unit_clock (tc_SetWithTTL "k" "new" 10) expired_run).1 in
  (mc_Get unit_clock "k" s1).2 = Ok "new" ∧ (mc_Get unit_clock "k" (swept s1)).2 = Err ErrNotFound.
Proof. by vm_compute. Qed.

(** The same loss when the old item expires between [dropExpired] and the
    write: the two calls are not atomic. *)
Example expiry_between_drop_and_set :
  let s0 := (mc_SetWithTTL unit_clock "k" "old" 2 (NewMemoryCache 0)).1 in
  let s1 := (mc_SetWithTTL unit_clock "k" "new" 10 s0).1 in
  (mc_Get unit_clock "k" s0).2 = Ok "old" ∧
  (mc_Get unit_clock "k" s1).2 = Ok "new" ∧ (mc_Get unit_clock "k" (swept s1)).2 = Err ErrNotFound.
Proof. by vm_compute. Qed.

Lemma memory_cache_is_ICache_witness :
  CacheLaws (H := memory_ICache unit_clock) (cache (ttl_mem cached)) (memory_holds (entry := fun t k => tm_items t !! k)) ∧
  (cache_Get (ICache := memory_ICache unit_clock) "k"
    (cache_SetWithTTL (ICache := memory_ICache unit_clock) "k" [mkClaim "sub" "a"] 10 (NewMemoryCache 0))).2
  = Some (CachedClaims [mkClaim "sub" "a"]).
Proof. split; [exact (memory_cache_is_ICache (TL := ttl_memory_laws) unit_clock)|reflexivity]. Defined.
