(* ===== verification/Pipeline.v ===== *)
(** * The request pipeline ([runtime/otel/otel-fluffycore-startup.go])

    The interceptors in the order [ConfigureServerOpts] chains them: panic
    recovery, the request scope, mTLS claims, JWT authentication (or the
    reference-token interceptor wrapped around it), the zero-trust gate.  What an
    interceptor guarantees is stated as the set of states it may call its handler
    in ([only_calls]): two handlers that agree on those states are
    indistinguishable behind it.  Such statements compose along a chain. *)
From S2P Require Import Prelude GoText Claims ClaimsAST Request AuthGate Mtls Jwks Jwt RefToken.
From stdpp Require Import options.
Import Tail.

(** ** Panic recovery *)
Definition recovery {Ctx P X R} : Interceptor Ctx P X R := fun _ handler ctx w =>
  match handler ctx w with
  | (Panicked, w') => (Fail (StatusErr Internal "internal error"), w')
  | r => r
  end.

(** ** The states an interceptor calls its handler in *)
Definition only_calls {Ctx P X R} (I : Handler Ctx P X R → Handler Ctx P X R) (Pre Post : Ctx → World P X → Prop) : Prop :=
  ∀ ctx w, Pre ctx w → ∀ h1 h2, (∀ c v, Post c v → h1 c v = h2 c v) → I h1 ctx w = I h2 ctx w.

Section compose.
Context {Ctx P X R : Type}.
Implicit Types I : Handler Ctx P X R → Handler Ctx P X R.

Lemma only_calls_compose I1 I2 Pre Mid Post :
  only_calls I1 Pre Mid → only_calls I2 Mid Post → only_calls (fun h => I1 (I2 h)) Pre Post.
Proof. intros H1 H2 ctx w Hp h1 h2 Hh. apply H1; [done|]. intros c v Hm. by apply H2. Qed.

Lemma only_calls_weaken I Pre Pre' Post Post' :
  only_calls I Pre Post → (∀ c v, Pre' c v → Pre c v) → (∀ c v, Post c v → Post' c v) → only_calls I Pre' Post'.
Proof. intros H Hp Hq ctx w Hw h1 h2 Hh. apply H; auto. Qed.

Lemma only_calls_recovery m (Pre : Ctx → World P X → Prop) : only_calls (recovery (R := R) m) Pre Pre.
Proof. intros ctx w Hp h1 h2 Hh. unfold recovery. by rewrite (Hh _ _ Hp). Qed.

(** The handler is never called. *)
Lemma only_calls_never I Pre : only_calls I Pre (fun _ _ => False) → ∀ ctx w h1 h2, Pre ctx w → I h1 ctx w = I h2 ctx w.
Proof. intros H ctx w h1 h2 Hp. by apply H. Qed.
End compose.

Section pipeline.
Context `{UT : UnicodeTables}.
Context {Message Token C KeySet F : Type} `{JWX Message Token KeySet F} `{JwkCache C KeySet}.
Context {Ctx P Y R : Type} `{GrpcContext Ctx} `{HG : !GrpcContextLaws Ctx} `{IClaimsPrincipal P}.
Context {rep : P → gset Claim → Prop} `{HL : !ClaimsLaws P rep}.
Context (new_principal : P) (Hnew : rep new_principal ∅).
Context (Sum256 : list N → list N) (fmt_float : F → string) (now : nat → Z) (reg : registration) (Hreg : reg_ok reg).
Context (cfg : gmap string (option EntryPointConfig)).
Abbreviation X := (jwks (C := C) * Y)%type.

(** ** [ConfigureServerOpts] *)
Definition unary_pipeline (prop : gmap string string) : list (Interceptor Ctx P X R) :=
  [ recovery;
    ScopedContextServerInterceptor (mkContainer true true) new_principal;
    mtls_UnaryServerInterceptor Sum256;
    jwt_UnaryServerInterceptor fmt_float now reg false prop;
    FinalAuthVerificationMiddlewareUsingClaimsMapWithZeroTrustV2 new_principal cfg ].

Definition stream_pipeline : list (Interceptor Ctx P X R) :=
  [ recovery;
    ScopedContextServerInterceptor (mkContainer true true) new_principal;
    mtls_StreamServerInterceptor Sum256;
    jwt_StreamServerInterceptor fmt_float now reg false;
    FinalAuthVerificationStreamMiddlewareUsingClaimsMapWithZeroTrustV2 new_principal cfg ].

Abbreviation calls := (only_calls (Ctx := Ctx) (P := P) (X := X) (R := R)).

(** ** Each stage *)

(** In the scope of a request whose connection is that of [ctx0], with a
    principal whose claims, and the key sets, satisfy [Q]. *)
Definition in_conn (K : Ctx → Prop) (ctx0 : Ctx) (Q : X → gset Claim → Prop) (c : Ctx) (v : World P X) : Prop :=
  GetRequestContainer c = Some (mkContainer true true) ∧ peer_AuthInfo c = peer_AuthInfo ctx0 ∧
  K c ∧ ∃ S, rep (w_principal v) S ∧ Q (w_ext v) S.

(** The same, with the metadata of [ctx0]. *)
Definition in_scope (ctx0 : Ctx) : (X → gset Claim → Prop) → Ctx → World P X → Prop :=
  in_conn (fun c => FromIncomingContext c = FromIncomingContext ctx0) ctx0.

Lemma scope_stage ctx0 x0 m :
  calls (ScopedContextServerInterceptor (mkContainer true true) new_principal m)
    (fun c v => c = ctx0 ∧ w_ext v = x0) (in_scope ctx0 (fun x S => x = x0 ∧ S = ∅)).
Proof using Hnew HG.
  intros ctx w [-> <-] h1 h2 Hh. unfold ScopedContextServerInterceptor. rewrite Hh; [done|]. split_and!.
  - apply container_SetRequestContainer.
  - apply peer_SetRequestContainer.
  - apply incoming_SetRequestContainer.
  - exists ∅. done.
Qed.

Lemma verified_peer c ctx0 : peer_AuthInfo c = peer_AuthInfo ctx0 → peer_claims Sum256 c = peer_claims Sum256 ctx0.
Proof. unfold peer_claims, verifiedClientCert. by intros ->. Qed.

Lemma mtls_stage ctx0 x0 m :
  calls (mtls_UnaryServerInterceptor Sum256 m) (in_scope ctx0 (fun x S => x = x0 ∧ S = ∅))
    (in_scope ctx0 (fun x S => x = x0 ∧ S = typed (peer_claims Sum256 ctx0))).
Proof using HL.
  intros ctx w (Hc & Hpeer & Hmd & S & Hr & <- & ->) h1 h2 Hh.
  unfold mtls_UnaryServerInterceptor, addPeerCertClaims. rewrite Hc. cbn [has_principal].
  pose proof (verified_peer ctx ctx0 Hpeer) as Hpc. unfold peer_claims in Hpc at 1.
  destruct (verifiedClientCert ctx) as [cert|] eqn:Ev; apply Hh; split_and!; try done; eexists; (split; [|done]).
  - rewrite <- Hpc. pose proof (rep_add_cert_claims Sum256 (w_principal w) ∅ cert Hr) as Hp.
    by rewrite (left_id_L ∅ (∪)) in Hp.
  - rewrite <- Hpc. by replace (typed []) with (∅ : gset Claim) by (unfold typed; set_solver).
Qed.

(** What a request's claims may be once it is authenticated: those of its
    connection, with [sub=anonymous] when it carries no token, or with the claims of
    the presented token, which a validator vouched for with the key sets and the
    clock as they were between the request's arrival ([x0]) and now ([x]). *)
Definition authenticated (ctx0 : Ctx) (x0 x : X) (S : gset Claim) : Prop :=
  (getTokenFromAuthorizationHeader ctx0 = Ok None ∧ S = typed (peer_claims Sum256 ctx0) ∪ typed [anonymous_claim]) ∨
  (∃ rt s, presented (Message := Message) ctx0 rt ∧ s ∈ rg_validators reg ∧
     (sv_nilValidator s = true ∨ trusted (Message := Message) (KeySet := KeySet) now reg s rt x0.1 x.1) ∧
     ∀ c, c ∈ S ↔ c ∈ typed (peer_claims Sum256 ctx0) ∨ token_claim fmt_float (pt_Token rt) c).

Lemma header_same c ctx0 :
  FromIncomingContext c = FromIncomingContext ctx0 → getTokenFromAuthorizationHeader c = getTokenFromAuthorizationHeader ctx0.
Proof. unfold getTokenFromAuthorizationHeader. by intros ->. Qed.

(** Both JWT interceptors are determined by [_validate]; one argument serves both. *)
Lemma jwt_stage_core ctx0 x0 m (I : Interceptor Ctx P X R) :
  (∀ ctx w r x, GetRequestContainer ctx = Some (mkContainer true true) →
     _validate now reg ctx (w_ext w) = Some (x, r) →
     ∃ w', w_ext w' = x ∧ w_principal w' = match r with
                            | Ok rt => transfer_claims fmt_float (w_principal w) rt
                            | Err _ => AddClaim (w_principal w) [anonymous_claim] end ∧
     ∀ h, I m h ctx w = match r with
                        | Err e => if is_NotFound e then h ctx w' else (Fail e, with_ext w x)
                        | Ok rt => h ctx w' end) →
  calls (I m) (in_scope ctx0 (fun x S => x = x0 ∧ S = typed (peer_claims Sum256 ctx0))) (in_scope ctx0 (authenticated ctx0 x0)).
Proof using Hreg HL.
  intros HI ctx w (Hc & Hpeer & Hmd & S & Hr & <- & ->) h1 h2 Hh.
  destruct (validate_spec now reg ctx (w_ext w) Hreg) as (x & r & Ev & Hv).
  destruct (HI ctx w r x Hc Ev) as (w' & Hx & Hp & Hi). rewrite !Hi. unfold presented in Hv. rewrite (header_same ctx ctx0 Hmd) in Hv.
  destruct r as [rt|e].
  - apply Hh. split_and!; try done. destruct Hv as [Hg (s & Hs & Ht)].
    destruct (rep_transfer fmt_float (w_principal w) _ rt Hr) as (S' & Hr' & HS'). exists S'. rewrite Hp.
    split; [done|]. right. exists rt, s. by rewrite Hx.
  - destruct (is_NotFound e) eqn:He; [|done]. apply Hh. split_and!; try done.
    eexists. rewrite Hp. split; [by apply law_AddClaim|]. left. split; [by apply Hv|done].
Qed.

Lemma jwt_stage ctx0 x0 prop m :
  calls (jwt_UnaryServerInterceptor fmt_float now reg false prop m)
    (in_scope ctx0 (fun x S => x = x0 ∧ S = typed (peer_claims Sum256 ctx0))) (in_scope ctx0 (authenticated ctx0 x0)).
Proof using Hreg HL.
  apply jwt_stage_core. intros ctx w r x Hc Ev. unfold jwt_UnaryServerInterceptor. rewrite Hc, Ev.
  destruct r as [rt|e]; eexists; (split; [|split; [|intros h; reflexivity]]); done.
Qed.

Lemma jwt_stream_stage ctx0 x0 m :
  calls (jwt_StreamServerInterceptor fmt_float now reg false m)
    (in_scope ctx0 (fun x S => x = x0 ∧ S = typed (peer_claims Sum256 ctx0))) (in_scope ctx0 (authenticated ctx0 x0)).
Proof using Hreg HL.
  apply jwt_stage_core. intros ctx w r x Hc Ev. unfold jwt_StreamServerInterceptor. rewrite Hc, Ev.
  destruct r as [rt|e]; eexists; (split; [|split; [|intros h; reflexivity]]); done.
Qed.

(** The requirement of a method holds of the set [S] of claims. *)
Definition permits (m : string) (S : gset Claim) : Prop :=
  match cfg !! m with
  | None => False
  | Some None => True
  | Some (Some e) => ∃ p, rep p S ∧ AST_Validate p (epc_ClaimsAST e) = Some true
  end.

Lemma gate_stage K ctx0 Q m :
  calls (FinalAuthVerificationMiddlewareUsingClaimsMapWithZeroTrustV2 new_principal cfg m)
    (in_conn K ctx0 Q) (in_conn K ctx0 (fun x S => Q x S ∧ permits m S)).
Proof using HL.
  intros ctx w (Hc & Hpeer & Hmd & S & Hr & HQ) h1 h2 Hh.
  unfold FinalAuthVerificationMiddlewareUsingClaimsMapWithZeroTrustV2. rewrite !gate_eq.
  assert (gate_principal new_principal ctx w = w_principal w) as -> by (unfold gate_principal; by rewrite Hc).
  destruct (allowed cfg true m (w_principal w)) eqn:Ha; [|done]. apply Hh. split_and!; try done.
  exists S. split; [done|]. split; [done|]. unfold permits. unfold allowed in Ha.
  destruct (cfg !! m) as [[e|]|]; [|done|done]. exists (w_principal w).
  split; [done|]. unfold AST_Validate. by rewrite (validate_denote _ _ None None eq_refl), Ha.
Qed.

Lemma unary_pipeline_calls ctx0 x0 prop m :
  calls (fun h => chain (unary_pipeline prop) m h) (fun c v => c = ctx0 ∧ w_ext v = x0)
    (in_scope ctx0 (fun x S => authenticated ctx0 x0 x S ∧ permits m S)).
Proof using Hreg Hnew HL HG.
  unfold chain, unary_pipeline. cbn [foldr].
  eapply (only_calls_compose (recovery m)); [apply only_calls_recovery|].
  eapply (only_calls_compose (ScopedContextServerInterceptor _ _ m)); [apply scope_stage|].
  eapply (only_calls_compose (mtls_UnaryServerInterceptor Sum256 m)); [apply mtls_stage|].
  eapply (only_calls_compose (jwt_UnaryServerInterceptor _ _ _ _ _ m)); [apply jwt_stage|]. apply gate_stage.
Qed.

Lemma stream_pipeline_calls ctx0 x0 m :
  calls (fun h => chain stream_pipeline m h) (fun c v => c = ctx0 ∧ w_ext v = x0)
    (in_scope ctx0 (fun x S => authenticated ctx0 x0 x S ∧ permits m S)).
Proof using Hreg Hnew HL HG.
  unfold chain, stream_pipeline. cbn [foldr].
  eapply (only_calls_compose (recovery m)); [apply only_calls_recovery|].
  eapply (only_calls_compose (ScopedContextServerInterceptor _ _ m)); [apply scope_stage|].
  eapply (only_calls_compose (mtls_StreamServerInterceptor Sum256 m)); [apply mtls_stage|].
  eapply (only_calls_compose (jwt_StreamServerInterceptor _ _ _ _ m)); [apply jwt_stream_stage|]. apply gate_stage.
Qed.

(** ** With reference tokens: the interceptor wrapped around the JWT one *)

(** [jwt_UnaryServerInterceptor] in tail form. *)
Definition jwt_tail (anon : bool) (prop : gmap string string) : tail Ctx P X R := fun ctx w =>
  match GetRequestContainer ctx with
  | Some (mkContainer true true) =>
    match _validate now reg ctx (w_ext w) with
    | None => Stop Panicked w
    | Some (x, r) =>
      let w := with_ext w x in
      let anonymous :=
        Proceed ctx (with_bag (with_principal w (AddClaim (w_principal w) [anonymous_claim]))
                              (bag_Set (w_bag w) ClaimTypeSub (BagString AnonymousSubject))) in
      match r with
      | Err err => if anon then anonymous else if is_NotFound err then anonymous else Stop (Fail err) w
      | Ok rt =>
        let p := transfer_claims fmt_float (w_principal w) rt in
        Proceed ctx (with_bag (with_principal w p) (foldl (propagate_claim p) (w_bag w) (map_to_list prop)))
      end
    end
  | _ => Stop Panicked w
  end.

Lemma jwt_tail_interceptor anon prop m h ctx w :
  interceptor (jwt_tail anon prop) m h ctx w = jwt_UnaryServerInterceptor fmt_float now reg anon prop m h ctx w.
Proof.
  unfold interceptor, jwt_tail, jwt_UnaryServerInterceptor.
  destruct (GetRequestContainer ctx) as [[[] []]|]; try done. destruct (_validate now reg ctx (w_ext w)) as [[x [rt|e]]|]; try done.
  destruct anon; [done|]. by destruct (is_NotFound e).
Qed.

(** Reserved claims come from [S] only. *)
Definition reserved_within (S : gset Claim) (S' : gset Claim) : Prop :=
  ∀ c, c ∈ S' → reserved c = true → c ∈ S.

Lemma jwt_tail_reserved anon prop ctx w S :
  GetRequestContainer ctx = Some (mkContainer true true) → rep (w_principal w) S →
  match jwt_tail anon prop ctx w with
  | Proceed ctx' w' => ctx' = ctx ∧ ∃ S', rep (w_principal w') S' ∧ reserved_within S S'
  | Stop _ _ => True
  end.
Proof using Hreg HL.
  intros Hc Hr. unfold jwt_tail. rewrite Hc. destruct (validate_spec now reg ctx (w_ext w) Hreg) as (x & r & -> & _).
  assert (Hanon : rep (AddClaim (w_principal w) [anonymous_claim]) (S ∪ typed [anonymous_claim]) ∧
    reserved_within S (S ∪ typed [anonymous_claim])).
  { split; [by apply law_AddClaim|]. intros c. rewrite elem_of_union, elem_of_typed, list_elem_of_singleton.
    intros [?|[-> _]]; done. }
  destruct r as [rt|e].
  - split; [done|]. destruct (rep_transfer fmt_float (w_principal w) S rt Hr) as (S' & Hr' & HS'). exists S'.
    split; [done|]. intros c [?|Ht]%HS' Hres; [done|]. apply token_claim_not_reserved in Ht. congruence.
  - destruct anon; [|destruct (is_NotFound e); [|done]]; (split; [done|]; eauto).
Qed.

Section reference_tokens.
Context `{HI : ICache X} {holds : X → string → list Claim → Prop} `{HC : !CacheLaws X holds}.
Context (clock : X → Z * X) (parse_exp : string → option (option Z)) (config : Config).
Context (resolvers : list (Ctx → string → X → X * (bool * option (Resolved F) * option error))).

Definition reference_pipeline (prop : gmap string string) : list (Interceptor Ctx P X R) :=
  [ recovery;
    ScopedContextServerInterceptor (mkContainer true true) new_principal;
    mtls_UnaryServerInterceptor Sum256;
    UnaryServerInterceptor fmt_float Sum256 clock parse_exp config resolvers (jwt_tail false prop);
    FinalAuthVerificationMiddlewareUsingClaimsMapWithZeroTrustV2 new_principal cfg ].

Lemma reference_stage ctx0 x0 prop m S :
  calls (UnaryServerInterceptor fmt_float Sum256 clock parse_exp config resolvers (jwt_tail false prop) m)
    (in_scope ctx0 (fun x S' => x = x0 ∧ S' = S)) (in_conn (fun _ => True) ctx0 (fun _ => reserved_within S)).
Proof using Hreg HL HG HC.
  intros ctx w (Hc & Hpeer & _ & S' & Hr & _ & ->) h1 h2 Hh. unfold UnaryServerInterceptor.
  destruct (resolve_spec fmt_float Sum256 clock parse_exp config resolvers (holds := holds) ctx w S _ Hc eq_refl Hr)
    as (o & w' & -> & Ho).
  destruct o as [|ctx' key ttl before|ctx'|e]; cbn [outcome_spec] in Ho; [| | |done].
  - subst w'. unfold interceptor. pose proof (jwt_tail_reserved false prop ctx w S Hc Hr) as Hj.
    destruct (jwt_tail false prop ctx w) as [c' w'|]; [|done]. destruct Hj as [-> (S' & Hr' & HS')].
    apply Hh. split_and!; try done. eauto.
  - destruct Ho as (tok & res & _ & _ & _ & _ & -> & _ & _ & Hp).
    assert (Hc' : GetRequestContainer (rewriteAuthorizationToJWT ctx (rs_RawJWT res)) = Some (mkContainer true true)).
    { unfold rewriteAuthorizationToJWT. by rewrite container_set. }
    rewrite <- Hp in Hr. pose proof (jwt_tail_reserved false prop _ w' S Hc' Hr) as Hj.
    destruct (jwt_tail false prop _ w') as [c' w2|]; [|done]. destruct Hj as [-> (S' & Hr' & HS')].
    rewrite (Hh _ w2); [done|]. split_and!; [done| |done|eauto].
    unfold rewriteAuthorizationToJWT. by rewrite peer_set.
  - destruct Ho as (tok & claims & _ & _ & -> & Hu & _ & Hr'). apply Hh. unfold stripAuthorization. split_and!; [..|done|].
    + by rewrite container_del.
    + by rewrite peer_del.
    + eexists. split; [done|]. intros c. rewrite elem_of_union, elem_of_typed. intros [?|[Hin _]] Hres; [done|].
      apply Hu in Hin. congruence.
Qed.

Lemma reference_pipeline_calls ctx0 x0 prop m :
  only_calls (fun h => chain (reference_pipeline prop) m h) (fun c v => c = ctx0 ∧ w_ext v = x0)
    (in_conn (fun _ => True) ctx0 (fun _ S => reserved_within (typed (peer_claims Sum256 ctx0)) S ∧ permits m S)).
Proof using Hreg Hnew HL HG HC.
  unfold chain, reference_pipeline. cbn [foldr].
  eapply (only_calls_compose (recovery m)); [apply only_calls_recovery|].
  eapply (only_calls_compose (ScopedContextServerInterceptor _ _ m)); [apply scope_stage|].
  eapply (only_calls_compose (mtls_UnaryServerInterceptor Sum256 m)); [apply mtls_stage|].
  eapply (only_calls_compose (UnaryServerInterceptor _ _ _ _ _ _ _ m)); [apply reference_stage|]. apply gate_stage.
Qed.
End reference_tokens.

Lemma authenticated_reserved ctx0 x0 x S :
  authenticated ctx0 x0 x S → reserved_within (typed (peer_claims Sum256 ctx0)) S.
Proof.
  intros [[_ ->]|(rt & s & _ & _ & _ & HS)] c Hc Hres.
  - apply elem_of_union in Hc as [?|Hc]; [done|]. apply elem_of_typed in Hc as [->%list_elem_of_singleton _]. done.
  - apply HS in Hc as [?|Ht%token_claim_not_reserved]; [done|congruence].
Qed.

(** A method that cannot be entered without the claim [c]. *)
Definition requires (m : string) (c : Claim) : Prop := ∀ S, permits m S → c ∈ S.

Lemma never_without K ctx0 Q m c :
  requires m c → reserved c = true → c ∉ peer_claims Sum256 ctx0 →
  (∀ x S, Q x S → reserved_within (typed (peer_claims Sum256 ctx0)) S) →
  ∀ ctx w, ~ in_conn K ctx0 (fun x S => Q x S ∧ permits m S) ctx w.
Proof.
  intros Hreq Hres Hnot HQ ctx w (_ & _ & _ & S & _ & HS & Hm).
  apply Hnot. specialize (HQ _ S HS c (Hreq S Hm) Hres). by apply elem_of_typed in HQ as [? _].
Qed.

(** ** Properties *)

(** C1: end to end, a handler is only ever entered by an authorized
    request.  Behind the unary and the stream pipelines two handlers that agree on
    the authorized states cannot be told apart: the states in the request's own
    scope, on its own connection and metadata, whose claims are exactly those of
    the connection's verified certificate plus either [sub=anonymous] (only
    without an authorization header) or the claims of the token that the presented
    bytes parse to, vouched for by a registered validator during this request (its
    signature under keys the cache served for the issuer's JWKS URL, its expiry at
    a clock reading of this request), and satisfy the method's configured
    requirement.  A method that is not listed is never entered. *)
Theorem pipeline_runs_only_authorized prop m ctx w h1 h2 :
  (∀ c v, in_scope ctx (fun x S => authenticated ctx (w_ext w) x S ∧ permits m S) c v → h1 c v = h2 c v) →
  chain (unary_pipeline prop) m h1 ctx w = chain (unary_pipeline prop) m h2 ctx w ∧
  chain stream_pipeline m h1 ctx w = chain stream_pipeline m h2 ctx w.
Proof using Hreg Hnew HL HG.
  intros Hh. split.
  - by apply (unary_pipeline_calls ctx (w_ext w) prop m ctx w (conj eq_refl eq_refl)).
  - by apply (stream_pipeline_calls ctx (w_ext w) m ctx w (conj eq_refl eq_refl)).
Qed.

(** C2: an mTLS requirement cannot be forged.  If a method's requirement
    cannot be met without a reserved ([mtls_*]) claim, and the connection's verified
    certificate (if there is one) does not carry that claim, then the outcome of a
    call does not depend on the handler at all: no token, no reference-token
    resolution and no cached entry, whatever it asserts, gets the call through. *)
Theorem mtls_requirement_not_forgeable
    `{ICache X} {holds : X → string → list Claim → Prop} `{!CacheLaws X holds} clock parse_exp config resolvers
    prop m c ctx w h1 h2 :
  requires m c → reserved c = true → c ∉ peer_claims Sum256 ctx →
  chain (unary_pipeline prop) m h1 ctx w = chain (unary_pipeline prop) m h2 ctx w ∧
  chain stream_pipeline m h1 ctx w = chain stream_pipeline m h2 ctx w ∧
  chain (reference_pipeline clock parse_exp config resolvers prop) m h1 ctx w
  = chain (reference_pipeline clock parse_exp config resolvers prop) m h2 ctx w.
Proof using Hreg Hnew HL HG.
  intros Hreq Hres Hnot. split_and!.
  - apply (unary_pipeline_calls ctx (w_ext w) prop m ctx w (conj eq_refl eq_refl)). intros c' v Hs.
    destruct (never_without _ ctx _ m c Hreq Hres Hnot (authenticated_reserved ctx (w_ext w)) c' v Hs).
  - apply (stream_pipeline_calls ctx (w_ext w) m ctx w (conj eq_refl eq_refl)). intros c' v Hs.
    destruct (never_without _ ctx _ m c Hreq Hres Hnot (authenticated_reserved ctx (w_ext w)) c' v Hs).
  - apply (reference_pipeline_calls (holds := holds) clock parse_exp config resolvers ctx (w_ext w) prop m ctx w (conj eq_refl eq_refl)).
    intros c' v Hs. destruct (never_without _ ctx _ m c Hreq Hres Hnot (fun _ _ h => h) c' v Hs).
Qed.
End pipeline.

(** ** A concrete server: an open method, one for administrators, one that
    needs a client certificate *)
Definition toy_cfg : gmap string (option EntryPointConfig) :=
  <["/s/Open" := Some (mkEPC "/s/Open" (mkAST [] [] [] []))]>
  (<["/s/Admin" := Some (mkEPC "/s/Admin" (mkAST [NewClaimFact (mkClaim "role" "admin")] [] [] []))]>
   {["/s/Cert" := Some (mkEPC "/s/Cert" (mkAST [NewClaimFact (mkClaim "mtls_verified" "true")] [] [] []))]}).

Section witnesses.
#[local] Existing Instance latin1_tables.
#[local] Existing Instance toy_jwx.
#[local] Existing Instance toy_keys.

Abbreviation toyX := (jwks (C := gmap string (list string)) * gmap string (list Claim))%type.

Definition toy_unary : list (Interceptor stdctx Principal.claimsPrincipal toyX (list Claim)) :=
  unary_pipeline Principal.NewIClaimsPrincipal (fun b => b) (fun _ : Z => "1") toy_now toy_reg toy_cfg ∅.

Definition toy_call (m header : string) (peer : option AuthInfo) (h : Handler stdctx Principal.claimsPrincipal toyX (list Claim)) :=
  (chain toy_unary m h
    (mkCtx (Some (if decide (header = "") then ∅ else {[MetadataKeyAuthorization := [header]]})) peer None)
    (mkWorld Principal.NewIClaimsPrincipal ∅ (toy_state, ∅))).1.

(** The reference-token cache beside the key sets. *)
Definition lift_icache : ICache toyX := {|
  cache_Get := fun k x => (x, CachedClaims <$> x.2 !! k);
  cache_SetWithTTL := fun k l _ x => (x.1, <[k := l]> x.2) |}.

Definition lift_holds (x : toyX) (k : string) (l : list Claim) : Prop := x.2 !! k = Some l.

#[local] Instance lift_laws : @CacheLaws toyX lift_icache lift_holds.
Proof.
  split; unfold lift_holds; simpl.
  - intros k x x' l [= <- (l' & ? & [= ->])%fmap_Some]. done.
  - done.
  - intros k l _ x k' l' [[<- <-]|[_ ?]]%lookup_insert_Some; [by left|by right].
Qed.

(** The requirement and the cases of the pipeline on concrete requests. *)
Example toy_calls :
  toy_call "/s/Open" "" None toy_handler = Reply [mkClaim "sub" "anonymous"] ∧
  toy_call "/s/Admin" "" None toy_handler = Fail (StatusErr PermissionDenied "permission denied") ∧
  toy_call "/s/Admin" "Bearer good" None toy_handler = Reply [mkClaim "sub" "alice"; mkClaim "role" "admin"] ∧
  toy_call "/s/Admin" "Bearer forged" None toy_handler = Fail (StatusErr Unauthenticated "token signature not valid") ∧
  toy_call "/s/Cert" "Bearer good" None toy_handler = Fail (StatusErr PermissionDenied "permission denied") ∧
  toy_call "/s/Unlisted" "Bearer good" None toy_handler = Fail (StatusErr PermissionDenied "permission denied").
Proof. vm_compute. done. Qed.

Lemma toy_requires :
  requires (rep := Principal.principal_rep) toy_cfg "/s/Cert" (mkClaim "mtls_verified" "true").
Proof.
  intros S. unfold permits. replace (toy_cfg !! "/s/Cert")
    with (Some (Some (mkEPC "/s/Cert" (mkAST [NewClaimFact (mkClaim "mtls_verified" "true")] [] [] [])))) by (vm_compute; reflexivity).
  intros (p & Hp & Hv). apply (law_HasClaim p S _ Hp). unfold AST_Validate in Hv.
  rewrite (validate_denote p _ None None eq_refl) in Hv. apply (inj Some) in Hv. simpl in Hv.
  by rewrite andb_true_r in Hv.
Qed.

(** A token that asserts [mtls_verified] does not open the method. *)
Lemma mtls_requirement_not_forgeable_witness :
  toy_call "/s/Cert" "Bearer good" None toy_handler = toy_call "/s/Cert" "Bearer good" None (fun _ w => (Panicked, w)) ∧
  toy_call "/s/Cert" "Bearer good" (Some (TLSInfo [[mkCert "" [] []]])) (fun _ w => (Reply [], w)) = Reply [].
Proof.
  split; [|vm_compute; reflexivity]. unfold toy_call, toy_unary. apply (f_equal fst).
  set (ctx := mkCtx _ None None).
  destruct (mtls_requirement_not_forgeable (R := list Claim) Principal.NewIClaimsPrincipal Principal.principal_rep_new (fun b => b)
    (fun _ : Z => "1") toy_now toy_reg toy_reg_ok toy_cfg (H3 := lift_icache) (holds := lift_holds) (fun x => (0%Z, x))
    (fun _ => None) toy_config [] ∅ "/s/Cert" (mkClaim "mtls_verified" "true") ctx
    (mkWorld Principal.NewIClaimsPrincipal ∅ (toy_state, ∅)) toy_handler (fun _ w => (Panicked, w))) as [Hu _].
  - exact toy_requires.
  - reflexivity.
  - intros Hin. inversion Hin.
  - exact Hu.
Defined.

Lemma pipeline_runs_only_authorized_witness :
  toy_call "/s/Unlisted" "Bearer good" None toy_handler
  = toy_call "/s/Unlisted" "Bearer good" None (fun _ w => (Panicked, w)).
Proof.
  unfold toy_call, toy_unary. apply (f_equal fst). set (ctx := mkCtx _ None None).
  destruct (pipeline_runs_only_authorized (Y := gmap string (list Claim)) (R := list Claim) Principal.NewIClaimsPrincipal Principal.principal_rep_new (fun b => b)
    (fun _ : Z => "1") toy_now toy_reg toy_reg_ok toy_cfg ∅ "/s/Unlisted" ctx
    (mkWorld Principal.NewIClaimsPrincipal ∅ (toy_state, ∅)) toy_handler (fun _ w => (Panicked, w))) as [Hu _].
  - intros c v (_ & _ & _ & S & _ & _ & Hm). unfold permits in Hm.
    replace (toy_cfg !! "/s/Unlisted") with (None : option (option EntryPointConfig)) in Hm by (vm_compute; reflexivity).
    destruct Hm.
  - exact Hu.
Defined.
End witnesses.
