(* ===== verification/MongoStore.v ===== *)
(** * Filters kept in MongoDB ([cloudevent/cefilter/mongostore/{doc,store}.go])

    [FilterStore] is a thin layer of commands over a collection.  The driver and
    the server are outside the repository: they are the class [Collection], and
    [CollectionLaws] says what their documentation promises of the commands used
    here.  The laws are stated over a ghost [history]: the writes to the
    collection in the order the server applied them, other clients' included, so
    that nothing is assumed about who else writes meanwhile. *)
From S2P Require Import Prelude GoText.
From stdpp Require Import sorting.
From stdpp Require Import options.

(** ** Documents *)
Inductive bval := BNull | BString (s : string) | BTime (ms : Z) | BMap (m : gmap string string).

#[global] Instance bval_eq_dec : EqDecision bval.
Proof. solve_decision. Defined.

Abbreviation bdoc := (gmap string bval).

(** [Metadata] is a Go map ([None] is nil), [DeletedAt] a pointer. *)
Record FilterDocument := mkDoc {
  doc_Name : string; doc_Hint : string; doc_Metadata : option (gmap string string); doc_Expr : string;
  doc_CreatedAt : Z; doc_UpdatedAt : Z; doc_DeletedAt : option Z }.

#[global] Instance FilterDocument_eq_dec : EqDecision FilterDocument.
Proof. solve_decision. Defined.

(** Driver errors, as far as the package looks into them: a server error with
    its codes, and [%w] wrapping. *)
Inductive merr :=
| ServerError (codes : list Z) | ErrNoDocuments | CtxErr (msg : string) | OtherErr (msg : string)
| Wrapf (msg : string) (e : merr).

(** What the struct tags of [FilterDocument] make of a document: a nil map or
    pointer may be stored as null or left out. *)
Definition null_field (d : bdoc) (k : string) : Prop := d !! k = None ∨ d !! k = Some BNull.

Record encodes (d : bdoc) (doc : FilterDocument) : Prop := {
  enc_id : d !! "_id" = Some (BString (doc_Name doc));
  enc_hint : d !! "hint" = Some (BString (doc_Hint doc));
  enc_expr : d !! "expr" = Some (BString (doc_Expr doc));
  enc_created : d !! "createdAt" = Some (BTime (doc_CreatedAt doc));
  enc_updated : d !! "updatedAt" = Some (BTime (doc_UpdatedAt doc));
  enc_metadata : match doc_Metadata doc with Some m => d !! "metadata" = Some (BMap m)
                 | None => null_field d "metadata" end;
  enc_deleted : match doc_DeletedAt doc with Some t => d !! "deletedAt" = Some (BTime t)
                | None => null_field d "deletedAt" end }.

Class Bson := { Unmarshal : bdoc → option FilterDocument }.
Class BsonLaws `{Bson} := { Unmarshal_encodes d doc : encodes d doc → Unmarshal d = Some doc }.

(** ** The collection *)

(** A write as the oplog records it: the key and the document it leaves. *)
Inductive cwrite :=
| WInsert (n : string) (d : bdoc) | WReplace (n : string) (d : bdoc) | WUpdate (n : string) (d : bdoc)
| WDelete (n : string) | WDrop.

Definition wstep (m : gmap string bdoc) (w : cwrite) : gmap string bdoc :=
  match w with
  | WInsert n d | WReplace n d | WUpdate n d => <[n := d]> m
  | WDelete n => delete n m
  | WDrop => ∅
  end.

Definition replay (h : list cwrite) : gmap string bdoc := foldl wstep ∅ h.

Definition touches (n : string) (w : cwrite) : Prop :=
  match w with
  | WInsert k _ | WReplace k _ | WUpdate k _ | WDelete k => k = n
  | WDrop => True
  end.

(** Equality matching of a query document; a null matches a missing field. *)
Definition q_matches (q d : bdoc) : Prop :=
  map_Forall (fun k v => d !! k = Some v ∨ (v = BNull ∧ d !! k = None)) q.

#[global] Instance q_matches_dec q d : Decision (q_matches q d).
Proof. unfold q_matches. apply _. Defined.

Class Collection (E : Type) := {
  UpdateOne : E → bdoc → bdoc → bdoc → bool → E * option merr;   (* filter, $set, $setOnInsert, upsert *)
  DeleteOne : E → bdoc → E * option merr;
  FindOne : E → bdoc → E * result merr bdoc;
  Find : E → bdoc → E * result merr (list bdoc) }.               (* sorted by _id *)

(** ** The operations of [FilterStore] *)
Section store.
Context `{BS : Bson} {E : Type} `{DB : Collection E}.

Definition by_id (name : string) : bdoc := {["_id" := BString name]}.

(** [now] is [time.Now().UTC()] as the database keeps it. *)
Definition Upsert (now : Z) (doc : FilterDocument) (e : E) : E * option merr :=
  UpdateOne e (by_id (doc_Name doc))
    (<["hint" := BString (doc_Hint doc)]>
     (<["metadata" := match doc_Metadata doc with Some m => BMap m | None => BNull end]>
     (<["expr" := BString (doc_Expr doc)]>
     (<["updatedAt" := BTime now]>
     {["deletedAt" := BNull]}))))
    {["createdAt" := BTime now]} true.

Definition SoftDelete (now : Z) (name : string) (e : E) : E * option merr :=
  UpdateOne e (<["deletedAt" := BNull]> (by_id name))
    (<["deletedAt" := BTime now]> {["updatedAt" := BTime now]}) ∅ false.

Definition HardDelete (name : string) (e : E) : E * option merr := DeleteOne e (by_id name).

Definition store_Get (name : string) (e : E) : E * result merr (option FilterDocument) :=
  let '(e', r) := FindOne e (by_id name) in
  (e', match r with
       | Ok d => match Unmarshal d with Some doc => Ok (Some doc) | None => Err (OtherErr "decode") end
       | Err ErrNoDocuments => Ok None
       | Err err => Err err
       end).

(** [cursor.All] decodes every document or fails. *)
Definition decode_all (ds : list bdoc) : result merr (list FilterDocument) :=
  match mapM Unmarshal ds with Some docs => Ok docs | None => Err (OtherErr "decode") end.

Definition ListActive (e : E) : E * result merr (list FilterDocument) :=
  let '(e', r) := Find e {["deletedAt" := BNull]} in (e', ds ← r; decode_all ds).
End store.

(** ** What the server documents

    A command that succeeds takes effect at one point of the history; before
    and after it, other clients may have written.  Failed commands may have been
    applied or not: nothing is said of them except that history only grows. *)
Definition update_effect (m : gmap string bdoc) (q set ins : bdoc) (upsert : bool) (n : string) : list cwrite :=
  match m !! n with
  | Some d => if decide (q_matches q d) then [WUpdate n (set ∪ d)] else []
  | None => if upsert then [WInsert n (set ∪ ins ∪ q)] else []
  end.

(** An update that changes nothing is not logged. *)
Definition applies (h ws own : list cwrite) : Prop :=
  own = ws ∨ (own = [] ∧ replay (h ++ ws) = replay h).

(** No write to [n] from position [p] on. *)
Definition untouched (n : string) (p : nat) (h : list cwrite) : Prop :=
  Forall (fun w => ¬ touches n w) (drop p h).

Class CollectionLaws (E : Type) `{Collection E} (history : E → list cwrite) := {
  UpdateOne_mono e q set ins up e' err : UpdateOne e q set ins up = (e', err) → history e `prefix_of` history e';
  DeleteOne_mono e q e' err : DeleteOne e q = (e', err) → history e `prefix_of` history e';
  FindOne_mono e q e' r : FindOne e q = (e', r) → history e `prefix_of` history e';
  Find_mono e q e' r : Find e q = (e', r) → history e `prefix_of` history e';
  UpdateOne_law e q set ins up e' n :
    q !! "_id" = Some (BString n) → set !! "_id" = None → UpdateOne e q set ins up = (e', None) →
    ∃ before own after, let h := history e ++ before in
      history e' = h ++ own ++ after ∧ applies h (update_effect (replay h) q set ins up n) own;
  DeleteOne_law e n e' :
    DeleteOne e {["_id" := BString n]} = (e', None) →
    ∃ before after, let h := history e ++ before in
      history e' = h ++ (if decide (n ∈ dom (replay h)) then [WDelete n] else []) ++ after;
  FindOne_law e n e' r :
    FindOne e {["_id" := BString n]} = (e', r) →
    match r with
    | Ok d => ∃ before after, history e' = history e ++ before ++ after ∧
                              replay (history e ++ before) !! n = Some d
    | Err ErrNoDocuments => ∃ before after, history e' = history e ++ before ++ after ∧
                              replay (history e ++ before) !! n = None
    | Err _ => True
    end;
  (** A scan is not a snapshot: it returns documents as they were at some
      moment, and is only exact for the keys nobody writes meanwhile. *)
  Find_versions e q e' ds d :
    Find e q = (e', Ok ds) → d ∈ ds →
    ∃ n j, j ≤ length (history e') ∧ replay (take j (history e')) !! n = Some d ∧ q_matches q d;
  Find_exact e q e' ds n d :
    Find e q = (e', Ok ds) → untouched n (length (history e)) (history e') →
    (d ∈ ds ∧ d !! "_id" = Some (BString n)) ↔ (replay (history e') !! n = Some d ∧ q_matches q d);
  Find_sorted e q e' ds :
    Find e q = (e', Ok ds) → ∃ ns, (fun d : bdoc => d !! "_id") <$> ds = (Some ∘ BString) <$> ns ∧
                                   StronglySorted (fun a b => String.ltb a b = true) ns }.

(** ** Correctness *)

(** Every document of the history reads back as a [FilterDocument] under its key. *)
Definition good_write (w : cwrite) : Prop :=
  match w with
  | WInsert n d | WReplace n d | WUpdate n d => ∃ doc, encodes d doc ∧ doc_Name doc = n
  | WDelete _ | WDrop => True
  end.

Abbreviation good_history := (Forall good_write).

Definition well_stored (m : gmap string bdoc) : Prop :=
  map_Forall (fun n d => ∃ doc, encodes d doc ∧ doc_Name doc = n) m.

Lemma replay_app h1 h2 : replay (h1 ++ h2) = foldl wstep (replay h1) h2.
Proof. apply foldl_app. Qed.

Lemma replay_snoc h w : replay (h ++ [w]) = wstep (replay h) w.
Proof. by rewrite replay_app. Qed.

Lemma well_stored_replay h : good_history h → well_stored (replay h).
Proof.
  induction h as [|w h IH] using rev_ind; intros Hg; [apply map_Forall_empty|].
  apply Forall_app in Hg as [Hg [Hw _]%Forall_cons]. rewrite replay_snoc. specialize (IH Hg).
  destruct w as [n d|n d|n d|n|]; simpl in *;
    [by apply map_Forall_insert_2..|by apply map_Forall_delete|apply map_Forall_empty].
Qed.

Section decoding.
Context `{BL : BsonLaws}.

(** The collection as Go sees it. *)
Definition decoded (m : gmap string bdoc) : gmap string FilterDocument := omap Unmarshal m.

(** The filters in force. *)
Definition active (m : gmap string bdoc) : gmap string FilterDocument :=
  filter (fun kv => doc_DeletedAt kv.2 = None) (decoded m).

Lemma decoded_lookup m n :
  well_stored m → match m !! n with
                  | Some d => ∃ doc, encodes d doc ∧ doc_Name doc = n ∧ decoded m !! n = Some doc
                  | None => decoded m !! n = None end.
Proof using BL.
  intros Hm. unfold decoded. rewrite lookup_omap. destruct (m !! n) as [d|] eqn:E; [|done].
  destruct (Hm _ _ E) as (doc & He & <-). exists doc. split_and!; [done..|]. simpl. by apply Unmarshal_encodes.
Qed.

Lemma decoded_insert m n d doc : encodes d doc → decoded (<[n := d]> m) = <[n := doc]> (decoded m).
Proof using BL.
  intros He. unfold decoded. apply map_eq. intros k. rewrite lookup_omap.
  destruct (decide (k = n)) as [->|Hk]; [|by rewrite !lookup_insert_ne, lookup_omap by done].
  rewrite !lookup_insert_eq. simpl. by apply Unmarshal_encodes.
Qed.

Lemma decoded_delete m n : decoded (delete n m) = delete n (decoded m).
Proof using Type. unfold decoded. by rewrite omap_delete. Qed.
End decoding.

(** *** The commands as atomic updates of the decoded collection *)
Inductive store_op :=
| OUpsert (doc : FilterDocument) | OSoftDelete (name : string) | OHardDelete (name : string).

Definition op_name (o : store_op) : string :=
  match o with OUpsert doc => doc_Name doc | OSoftDelete n | OHardDelete n => n end.

Definition store_run `{Collection E} (now : Z) (o : store_op) : E → E * option merr :=
  match o with
  | OUpsert doc => Upsert now doc | OSoftDelete n => SoftDelete now n | OHardDelete n => HardDelete n
  end.

(** The contract of the comments: an upsert keeps [CreatedAt] of an existing
    filter and re-activates it, a soft delete marks an active filter only. *)
Definition store_spec (now : Z) (o : store_op) (m : gmap string FilterDocument) : gmap string FilterDocument :=
  match o with
  | OUpsert doc =>
      <[doc_Name doc := mkDoc (doc_Name doc) (doc_Hint doc) (doc_Metadata doc) (doc_Expr doc)
          (match m !! doc_Name doc with Some old => doc_CreatedAt old | None => now end) now None]> m
  | OSoftDelete n =>
      match m !! n with
      | Some (mkDoc nm h md ex c _ None) => <[n := mkDoc nm h md ex c now (Some now)]> m
      | _ => m
      end
  | OHardDelete n => delete n m
  end.

Section commands.
Context `{BL : BsonLaws} {E : Type} {history : E → list cwrite} `{DL : CollectionLaws E history}.

Lemma q_matches_id d n : d !! "_id" = Some (BString n) → q_matches (by_id n) d.
Proof using Type. intros Hd k v. unfold by_id. intros [<- <-]%lookup_singleton_Some. by left. Qed.

(** A command's effect refines its specification. *)
Definition refines (now : Z) (o : store_op) (h own : list cwrite) : Prop :=
  good_history h → good_history own ∧ decoded (replay (h ++ own)) = store_spec now o (decoded (replay h)).

Lemma refines_applies now o h ws own : refines now o h ws → applies h ws own → refines now o h own.
Proof using Type.
  intros Hr [->|[-> Hh]] Hg; [by apply Hr|]. destruct (Hr Hg) as [_ <-]. split; [constructor|].
  by rewrite app_nil_r, Hh.
Qed.

Lemma upsert_encodes now doc d : d = 
    (<["hint" := BString (doc_Hint doc)]>
     (<["metadata" := match doc_Metadata doc with Some m => BMap m | None => BNull end]>
     (<["expr" := BString (doc_Expr doc)]>
     (<["updatedAt" := BTime now]>
     {["deletedAt" := BNull]})))) → ∀ d0 c,
  d0 !! "_id" = Some (BString (doc_Name doc)) → d0 !! "createdAt" = Some (BTime c) →
  encodes (d ∪ d0) (mkDoc (doc_Name doc) (doc_Hint doc) (doc_Metadata doc) (doc_Expr doc) c now None).
Proof using Type.
  intros -> d0 c Hid Hc.
  split; simpl; rewrite ?lookup_union_r by (by simplify_map_eq); try done;
    try (apply lookup_union_Some_l; by simplify_map_eq).
  - destruct (doc_Metadata doc); [|right]; apply lookup_union_Some_l; by simplify_map_eq.
  - right. apply lookup_union_Some_l. by simplify_map_eq.
Qed.

Lemma Upsert_refines now doc e e' :
  Upsert now doc e = (e', None) →
  ∃ before own after, history e' = (history e ++ before) ++ own ++ after ∧
    refines now (OUpsert doc) (history e ++ before) own.
Proof using BL DL.
  intros Hu. apply (UpdateOne_law _ _ _ _ _ _ (doc_Name doc)) in Hu as (before & own & after & Hh & Hown);
    [|by simplify_map_eq..].
  exists before, own, after. split; [done|]. eapply refines_applies; [|exact Hown].
  intros Hg. pose proof (decoded_lookup _ (doc_Name doc) (well_stored_replay _ Hg)) as Hd.
  unfold update_effect, store_spec. destruct (replay _ !! doc_Name doc) as [d|] eqn:El.
  - destruct Hd as (old & He & Hn & ->). destruct He as [Hid _ _ Hc _ _ _]. rewrite Hn in Hid.
    rewrite decide_True by (by apply q_matches_id).
    pose proof (upsert_encodes now doc _ eq_refl d _ Hid Hc) as Hen.
    split; [constructor; [by eexists|constructor]|]. rewrite replay_snoc. by apply decoded_insert.
  - rewrite Hd. rewrite <- (assoc_L (∪)).
    pose proof (upsert_encodes now doc _ eq_refl ({["createdAt" := BTime now]} ∪ by_id (doc_Name doc)) now) as Hen.
    split; [constructor; [eexists; split; [apply Hen; by simplify_map_eq|done]|constructor]|].
    rewrite replay_snoc. apply decoded_insert, Hen; by simplify_map_eq.
Qed.

Lemma SoftDelete_refines now n e e' :
  SoftDelete now n e = (e', None) →
  ∃ before own after, history e' = (history e ++ before) ++ own ++ after ∧
    refines now (OSoftDelete n) (history e ++ before) own.
Proof using BL DL.
  intros Hu. apply (UpdateOne_law _ _ _ _ _ _ n) in Hu as (before & own & after & Hh & Hown);
    [|by simplify_map_eq..].
  exists before, own, after. split; [done|]. eapply refines_applies; [|exact Hown].
  intros Hg. pose proof (decoded_lookup _ n (well_stored_replay _ Hg)) as Hd.
  unfold update_effect, store_spec. destruct (replay _ !! n) as [d|] eqn:El; cycle 1.
  { rewrite Hd, app_nil_r. split; [constructor|done]. }
  destruct Hd as ([nm hi md ex c u del] & [Hid Hhi Hex Hc Hu Hmd Hdel] & Hn & ->). simpl in *. subst nm.
  destruct del as [t|].
  - rewrite decide_False, app_nil_r; [split; [constructor|done]|].
    intros Hq. destruct (Hq "deletedAt" BNull) as [?|[_ ?]]; [by simplify_map_eq|congruence..].
  - rewrite decide_True; cycle 1.
    { intros k v. unfold by_id. intros [[<- <-]|[? [<- <-]%lookup_singleton_Some]]%lookup_insert_Some; [|by left].
      destruct Hdel; [by right|by left]. }
    assert (encodes (<["deletedAt" := BTime now]> {["updatedAt" := BTime now]} ∪ d) (mkDoc n hi md ex c now (Some now))) as Hen.
    { split; simpl; rewrite ?lookup_union_r by (by simplify_map_eq); try done;
        try (apply lookup_union_Some_l; by simplify_map_eq).
      destruct md; [done|]. unfold null_field. by rewrite lookup_union_r by (by simplify_map_eq). }
    split; [constructor; [by eexists|constructor]|]. rewrite replay_snoc. by apply decoded_insert.
Qed.

Lemma HardDelete_refines now n e e' :
  HardDelete n e = (e', None) →
  ∃ before own after, history e' = (history e ++ before) ++ own ++ after ∧
    refines now (OHardDelete n) (history e ++ before) own.
Proof using BL DL.
  intros (before & after & Hh)%DeleteOne_law. eexists before, _, after. split; [exact Hh|].
  intros Hg. simpl. rewrite <- decoded_delete. case_decide as Hin.
  - split; [by repeat constructor|]. by rewrite replay_snoc.
  - split; [constructor|]. rewrite app_nil_r, delete_id; [done|]. by apply not_elem_of_dom.
Qed.

(** *** Reads *)
Lemma good_history_prefix h1 h2 : h1 `prefix_of` h2 → good_history h2 → good_history h1.
Proof using Type. intros [k ->] [? _]%Forall_app. done. Qed.

Lemma Find_decodes e q e' ds :
  good_history (history e') → Find e q = (e', Ok ds) → ∃ docs, mapM Unmarshal ds = Some docs ∧ Forall2 encodes ds docs.
Proof using BL DL.
  intros Hg Hf. assert (∀ d, d ∈ ds → ∃ doc, encodes d doc) as Hd.
  { intros d Hin. destruct (Find_versions _ _ _ _ _ Hf Hin) as (n & j & _ & Hj & _).
    assert (good_history (take j (history e'))) as Hgj by (by eapply Forall_take).
    destruct (well_stored_replay _ Hgj _ _ Hj) as (doc & ? & _). by exists doc. }
  clear Hf. induction ds as [|d ds IH]; simpl; [by exists []|].
  destruct IH as (docs & -> & Hds); [set_solver|]. destruct (Hd d) as [doc He]; [set_solver|].
  exists (doc :: docs). rewrite (Unmarshal_encodes d doc He). simpl. split; [done|by constructor].
Qed.

Lemma encodes_active d doc : encodes d doc → q_matches {["deletedAt" := BNull]} d ↔ doc_DeletedAt doc = None.
Proof using Type.
  intros [_ _ _ _ _ _ Hdel]. unfold q_matches. rewrite map_Forall_singleton.
  destruct (doc_DeletedAt doc); unfold null_field in Hdel; naive_solver.
Qed.

Lemma active_lookup m n doc :
  well_stored m → active m !! n = Some doc ↔
  ∃ d, m !! n = Some d ∧ encodes d doc ∧ q_matches {["deletedAt" := BNull]} d.
Proof using BL.
  intros Hm. unfold active. rewrite map_lookup_filter_Some. simpl.
  pose proof (decoded_lookup m n Hm) as Hd. destruct (m !! n) as [d|] eqn:El; [|naive_solver congruence].
  destruct Hd as (doc' & He & _ & ->). split.
  - intros [[= ->] Hdel]. exists d. by rewrite encodes_active.
  - intros (? & [= <-] & He' & Hq). apply (encodes_active _ _ He') in Hq.
    apply Unmarshal_encodes in He, He'. by simplify_eq.
Qed.

Lemma ListActive_spec e e' docs :
  good_history (history e') → ListActive e = (e', Ok docs) →
  StronglySorted (fun a b => String.ltb a b = true) (doc_Name <$> docs) ∧
  ∀ n doc, untouched n (length (history e)) (history e') →
    (doc ∈ docs ∧ doc_Name doc = n) ↔ active (replay (history e')) !! n = Some doc.
Proof using BL DL.
  intros Hg. unfold ListActive. destruct (Find e _) as [e1 [ds|err]] eqn:Hf; [|done].
  intros [= <- Hds]. destruct (Find_decodes _ _ _ _ Hg Hf) as (docs' & Hm & Hen).
  unfold decode_all in Hds. rewrite Hm in Hds. simplify_eq. split.
  - destruct (Find_sorted _ _ _ _ Hf) as (ns & Hns & Hs). enough (doc_Name <$> docs = ns) as -> by done.
    clear -Hen Hns. revert ns Hns. induction Hen as [|d doc ds docs [Hid] _ IH]; intros [|n ns]; simpl; try done.
    intros [= Hn Hns]. rewrite Hid in Hn. simplify_eq. f_equal. by apply IH.
  - intros n doc Hu. rewrite (active_lookup _ _ _ (well_stored_replay _ Hg)). split.
    + intros [[i Hi]%list_elem_of_lookup <-]. destruct (Forall2_lookup_r _ _ _ _ _ Hen Hi) as (d & Hd & He).
      exists d. pose proof (Find_exact _ _ _ _ _ d Hf Hu) as Hex. destruct Hex as [Hex _].
      destruct Hex as [? ?]; [split; [by eapply list_elem_of_lookup_2|by destruct He]|done].
    + intros (d & Hl & He & Hq). pose proof (Find_exact _ _ _ _ _ d Hf Hu) as [_ Hex].
      destruct Hex as [[i Hi]%list_elem_of_lookup Hid]; [done|].
      destruct (Forall2_lookup_l _ _ _ _ _ Hen Hi) as (doc' & Hd & He').
      pose proof (Unmarshal_encodes _ _ He) as Hu1. pose proof (Unmarshal_encodes _ _ He') as Hu2. simplify_eq.
      split; [by eapply list_elem_of_lookup_2|]. destruct He as [Hid' _]. congruence.
Qed.

(** reading the store.  [Get] returns the document under the name at one
    moment of the call, deleted or not, and nil only when there is none.
    [ListActive] fails only if the query does, lists names in strictly increasing
    order, and for every filter that is not written meanwhile lists it exactly
    when it is active, as stored. *)
Theorem FilterStore_reads e :
  (∀ n e' r, store_Get n e = (e', Ok r) → good_history (history e') →
     ∃ before after, history e' = history e ++ before ++ after ∧ decoded (replay (history e ++ before)) !! n = r) ∧
  (∀ e' ds, Find e {["deletedAt" := BNull]} = (e', Ok ds) → good_history (history e') →
     ∃ docs, ListActive e = (e', Ok docs)) ∧
  (∀ e' docs, ListActive e = (e', Ok docs) → good_history (history e') →
     StronglySorted (fun a b => String.ltb a b = true) (doc_Name <$> docs) ∧
     ∀ n doc, untouched n (length (history e)) (history e') →
       (doc ∈ docs ∧ doc_Name doc = n) ↔ active (replay (history e')) !! n = Some doc).
Proof using BL DL.
  split_and!.
  - intros n e' r. unfold store_Get. destruct (FindOne e _) as [e1 rd] eqn:Hf. intros [= -> Hr] Hg.
    pose proof (FindOne_law _ _ _ _ Hf) as Hl. destruct rd as [d|err].
    + destruct Hl as (before & after & Hh & Hn). exists before, after. split; [done|].
      unfold decoded. rewrite lookup_omap, Hn. simpl. destruct (Unmarshal d); by simplify_eq.
    + destruct err; simplify_eq. destruct Hl as (before & after & Hh & Hn). exists before, after.
      split; [done|]. unfold decoded. by rewrite lookup_omap, Hn.
  - intros e' ds Hf Hg. destruct (Find_decodes _ _ _ _ Hg Hf) as (docs & Hm & _). exists docs.
    unfold ListActive, decode_all. rewrite Hf. simpl. by rewrite Hm.
  - intros e' docs Hl Hg. by apply ListActive_spec.
Qed.

(** every successful command of [FilterStore] takes effect atomically, at
    one point between the writes of other clients, exactly as documented:
    [Upsert] stores the given definition, re-activates a soft-deleted filter,
    stamps [UpdatedAt] and preserves [CreatedAt] of an existing one; [SoftDelete]
    marks the filter only if it is active; [HardDelete] removes it; no other
    filter changes, and the collection stays readable. *)
Theorem FilterStore_commands_atomic now o e e' :
  store_run now o e = (e', None) →
  ∃ before own after, history e' = (history e ++ before) ++ own ++ after ∧
    (good_history (history e ++ before) →
     good_history own ∧
     decoded (replay (history e ++ before ++ own)) = store_spec now o (decoded (replay (history e ++ before)))).
Proof using BL DL.
  intros Hr. enough (∃ before own after, history e' = (history e ++ before) ++ own ++ after ∧
    refines now o (history e ++ before) own) as (before & own & after & Hh & Href).
  { exists before, own, after. rewrite (assoc_L (++) (history e) before own). done. }
  destruct o; [eapply Upsert_refines|eapply SoftDelete_refines|eapply HardDelete_refines]; exact Hr.
Qed.
End commands.

(** ** A collection in memory

    An instance of the interfaces that meets their laws, for evaluation: the
    state carries the writes so far, batches of writes other clients will make
    ([m_pending]), the oldest position that can still be followed and whether the
    caller's context is cancelled. *)
Record mem := mkMem {
  m_history : list cwrite; m_pending : list (list cwrite); m_oldest : nat; m_cancelled : bool }.

Definition null_or {A} (f : bval → option A) (v : option bval) : option (option A) :=
  match v with
  | None | Some BNull => Some None
  | Some b => Some <$> f b
  end.

#[local] Instance mem_bson : Bson := {|
  Unmarshal d :=
    match d !! "_id", d !! "hint", d !! "expr", d !! "createdAt", d !! "updatedAt" with
    | Some (BString n), Some (BString h), Some (BString x), Some (BTime c), Some (BTime u) =>
        md ← null_or (fun b => match b with BMap m => Some m | _ => None end) (d !! "metadata");
        del ← null_or (fun b => match b with BTime t => Some t | _ => None end) (d !! "deletedAt");
        Some (mkDoc n h md x c u del)
    | _, _, _, _, _ => None
    end |}.

Lemma mem_bson_laws : BsonLaws (H := mem_bson).
Proof.
  split. intros d [n h md x c u del] [H1 H2 H3 H4 H5 H6 H7]; simpl in *. rewrite H1, H2, H3, H4, H5.
  assert (null_or (fun b => match b with BMap m => Some m | _ => None end) (d !! "metadata") = Some md) as ->
    by (destruct md; [by rewrite H6|by destruct H6 as [->| ->]]).
  assert (null_or (fun b => match b with BTime t => Some t | _ => None end) (d !! "deletedAt") = Some del) as ->
    by (destruct del; [by rewrite H7|by destruct H7 as [->| ->]]).
  done.
Qed.

Definition mem_write (e : mem) (ws : list cwrite) : mem :=
  mkMem (m_history e ++ ws) (m_pending e) (m_oldest e) (m_cancelled e).

Definition id_of (q : bdoc) : option string := match q !! "_id" with Some (BString n) => Some n | _ => None end.

(** Scans refuse a collection with a document filed under another key. *)
Definition keyed (m : gmap string bdoc) : Prop := map_Forall (fun n d => d !! "_id" = Some (BString n)) m.
#[global] Instance keyed_dec m : Decision (keyed m).
Proof. unfold keyed. apply _. Defined.

Definition sorted_keys (m : gmap string bdoc) : list string := merge_sort String.le (elements (dom m)).

#[local] Instance mem_collection : Collection mem := {|
  UpdateOne e q set ins up :=
    match id_of q with
    | Some n => (mem_write e (update_effect (replay (m_history e)) q set ins up n), None)
    | None => (e, Some (OtherErr "no _id"))
    end;
  DeleteOne e q :=
    match id_of q with
    | Some n => (mem_write e (if decide (n ∈ dom (replay (m_history e))) then [WDelete n] else []), None)
    | None => (e, Some (OtherErr "no _id"))
    end;
  FindOne e q :=
    match id_of q with
    | Some n => (e, match replay (m_history e) !! n with Some d => Ok d | None => Err ErrNoDocuments end)
    | None => (e, Err (OtherErr "no _id"))
    end;
  Find e q :=
    (e, if decide (keyed (replay (m_history e))) then
          Ok (omap (fun n => replay (m_history e) !! n)
                (sorted_keys (filter (fun kv => q_matches q kv.2) (replay (m_history e)))))
        else Err (OtherErr "corrupt")) |}.

Lemma sorted_keys_spec m : StronglySorted (fun a b => String.ltb a b = true) (sorted_keys m) ∧
  ∀ n, n ∈ sorted_keys m ↔ n ∈ dom m.
Proof.
  unfold sorted_keys. pose proof (merge_sort_Permutation String.le (elements (dom m))) as Hp.
  assert (NoDup (merge_sort String.le (elements (dom m)))) as Hnd by (rewrite Hp; apply NoDup_elements).
  split; [|intros n; by rewrite Hp, elem_of_elements].
  pose proof (StronglySorted_merge_sort String.le (elements (dom m))) as Hs. clear Hp.
  induction Hs as [|a l Hs IH Ha]; [constructor|]. apply NoDup_cons in Hnd as [Hn Hnd].
  constructor; [by apply IH|]. rewrite Forall_forall in Ha |- *. intros b Hb. specialize (Ha b Hb).
  assert (a ≠ b) as Hab by congruence. revert Ha. unfold String.le, String.leb, String.ltb.
  destruct (String.compare a b) eqn:Ec; [|done|done]. by apply String.compare_eq_iff in Ec.
Qed.

Definition mem_found (m : gmap string bdoc) (q : bdoc) : list bdoc :=
  omap (fun n => m !! n) (sorted_keys (filter (fun kv => q_matches q kv.2) m)).

Lemma mem_found_elem m q d : d ∈ mem_found m q ↔ ∃ n, m !! n = Some d ∧ q_matches q d.
Proof.
  unfold mem_found. rewrite list_elem_of_omap. setoid_rewrite (proj2 (sorted_keys_spec _)).
  setoid_rewrite elem_of_dom. split.
  - intros (n & [d' Hd] & Hm). apply map_lookup_filter_Some in Hd as [Hd Hq]. simpl in Hq. simplify_eq. by exists n.
  - intros (n & Hm & Hq). exists n. split; [|done]. exists d. by apply map_lookup_filter_Some.
Qed.

Lemma mem_found_ids m q :
  keyed m → (fun d : bdoc => d !! "_id") <$> mem_found m q
            = (Some ∘ BString) <$> sorted_keys (filter (fun kv => q_matches q kv.2) m).
Proof.
  intros Hk. unfold mem_found.
  assert (∀ n, n ∈ sorted_keys (filter (fun kv => q_matches q kv.2) m) → is_Some (m !! n)) as Hin.
  { intros n. rewrite (proj2 (sorted_keys_spec _)), elem_of_dom. intros [d Hd]. apply map_lookup_filter_Some in Hd as [? _].
    by exists d. }
  induction (sorted_keys _) as [|n ns IH]; [done|]. simpl. destruct (Hin n) as [d Hd]; [by left|].
  rewrite Hd. simpl. f_equal; [by apply Hk|]. apply IH. intros k Hkn. apply Hin. by right.
Qed.

Lemma mem_find_inv e q e' r :
  Find e q = (e', r) → e' = e ∧
  match r with Ok ds => keyed (replay (m_history e)) ∧ ds = mem_found (replay (m_history e)) q | Err _ => True end.
Proof. simpl. intros Hf. injection Hf as <- <-. split; [done|]. by case_decide. Qed.

Lemma mem_collection_laws : CollectionLaws mem m_history.
Proof.
  split.
  - intros e q set ins up e' err. simpl. destruct (id_of q); intros [= <- _]; [by apply prefix_app_r|done].
  - intros e q e' err. simpl. destruct (id_of q); intros [= <- _]; [by apply prefix_app_r|done].
  - intros e q e' r. simpl. by destruct (id_of q); intros [= <- _].
  - intros e q e' r [-> _]%mem_find_inv. done.
  - intros e q set ins up e' n Hq _. simpl. unfold id_of. rewrite Hq. intros [= <-].
    exists [], (update_effect (replay (m_history e)) q set ins up n), []. simpl. rewrite !app_nil_r. split; [done|by left].
  - intros e n e'. simpl. unfold id_of. rewrite lookup_singleton_eq. intros [= <-].
    exists [], []. simpl. by rewrite !app_nil_r.
  - intros e n e' r. simpl. unfold id_of. rewrite lookup_singleton_eq. intros [= <- <-].
    destruct (replay (m_history e) !! n) eqn:Hn; exists [], []; by rewrite !app_nil_r.
  - intros e q e' ds d [-> [_ ->]]%mem_find_inv. rewrite mem_found_elem. intros (n & Hn & Hq).
    exists n, (length (m_history e)). by rewrite firstn_all.
  - intros e q e' ds n d [-> [Hk ->]]%mem_find_inv _. rewrite mem_found_elem. split.
    + intros [(k & Hd & Hq) Hid]. pose proof (Hk k d Hd) as Hk'. simpl in Hk'. by simplify_eq.
    + intros [Hd Hq]. split; [by exists n|]. by apply Hk.
  - intros e q e' ds [-> [Hk ->]]%mem_find_inv. eexists. split; [by apply mem_found_ids|]. apply sorted_keys_spec.
Qed.

(** ** Examples *)
Definition doc_v1 : FilterDocument := mkDoc "orders" "nats.orders" None "type = 'order'" 0 0 None.
Definition doc_v2 : FilterDocument := mkDoc "orders" "nats.orders" (Some {["team" := "a"]}) "type LIKE 'order.*'" 0 0 None.
Definition doc_b : FilterDocument := mkDoc "audit" "nats.audit" None "EXISTS source" 0 0 None.

Definition mem_empty : mem := mkMem [] [] 0 false.
Definition mem_two : mem := (Upsert 20 doc_b (Upsert 10 doc_v1 mem_empty).1).1.

Lemma FilterStore_commands_atomic_witness :
  store_run 30 (OUpsert doc_v2) mem_two = (mem_write mem_two (drop 2 (m_history (Upsert 30 doc_v2 mem_two).1)), None) ∧
  ∃ before own after, m_history (Upsert 30 doc_v2 mem_two).1 = (m_history mem_two ++ before) ++ own ++ after ∧
    (good_history (m_history mem_two ++ before) →
     good_history own ∧
     decoded (replay (m_history mem_two ++ before ++ own))
     = store_spec 30 (OUpsert doc_v2) (decoded (replay (m_history mem_two ++ before)))).
Proof.
  split; [reflexivity|].
  apply (FilterStore_commands_atomic (BL := mem_bson_laws) (DL := mem_collection_laws) 30 (OUpsert doc_v2) mem_two
           (Upsert 30 doc_v2 mem_two).1).
  reflexivity.
Defined.

(** [CreatedAt] survives an update, a soft delete hides the filter and keeps the
    document, a new upsert brings it back. *)
Example store_life :
  let e1 := (Upsert 30 doc_v2 mem_two).1 in
  let e2 := (SoftDelete 40 "orders" e1).1 in
  (store_Get "orders" e1).2 = Ok (Some (mkDoc "orders" "nats.orders" (Some {["team" := "a"]}) "type LIKE 'order.*'" 10 30 None)) ∧
  match (ListActive e2).2 with Ok docs => doc_Name <$> docs | Err _ => [] end = ["audit"] ∧
  match (ListActive (Upsert 50 doc_v1 e2).1).2 with Ok docs => (fun d => (doc_Name d, doc_CreatedAt d)) <$> docs | Err _ => [] end
    = [("audit", 20%Z); ("orders", 10%Z)] ∧
  (store_Get "orders" (HardDelete "orders" e2).1).2 = Ok None.
Proof. vm_compute. done. Qed.

Lemma mem_two_good : good_history (m_history mem_two).
Proof.
  apply Forall_cons. split; [|apply Forall_cons; split; [|constructor]].
  - exists (mkDoc "orders" "nats.orders" None "type = 'order'" 10 10 None). split; [|done]. split; vm_compute; auto.
  - exists (mkDoc "audit" "nats.audit" None "EXISTS source" 20 20 None). split; [|done]. split; vm_compute; auto.
Qed.

Lemma FilterStore_reads_witness :
  match (ListActive mem_two).2 with Ok docs => doc_Name <$> docs | Err _ => [] end = ["audit"; "orders"] ∧
  ∃ docs, ListActive mem_two = (mem_two, Ok docs) ∧
    ∀ doc, (doc ∈ docs ∧ doc_Name doc = "orders") ↔ active (replay (m_history mem_two)) !! "orders" = Some doc.
Proof.
  split; [reflexivity|].
  destruct (FilterStore_reads (BL := mem_bson_laws) (DL := mem_collection_laws) mem_two) as (_ & Hok & Hex).
  destruct (Find mem_two {["deletedAt" := BNull]}) as [e [ds|]] eqn:Hf; [|vm_compute in Hf; discriminate Hf].
  assert (e = mem_two) as -> by (by apply mem_find_inv in Hf as [-> _]).
  destruct (Hok _ _ eq_refl mem_two_good) as [docs Hl]. exists docs. split; [exact Hl|]. intros doc.
  apply (Hex _ _ Hl mem_two_good). unfold untouched. rewrite drop_all. constructor.
Defined.
