(* ===== verification/Cdc.v ===== *)
(** * Following the filter collection ([cloudevent/cefilter/mongostore/cdc.go])

    [FilterCDC.Run] keeps a local filter set equal to the active filters of the
    collection: a snapshot, then the change stream, across reconnects, lost
    resume positions, cancellations and invalidated streams.  Every call to the
    driver, the context and the channel is an operation of the class [ChangeFeed]
    on an environment [E] that may change in any way between two calls (other
    clients write, the context is cancelled, the stream breaks). *)
From S2P Require Import Prelude GoText Filter Lexer Parser FilterSet Index MongoStore.
From stdpp Require Import sorting.
From stdpp Require Import options.

Inductive ChangeOp := ChangeOpUpsert | ChangeOpDelete | ChangeOpReady.

Record FilterChange := mkChange { ch_Op : ChangeOp; ch_Name : string; ch_Doc : option FilterDocument }.

(** A change stream document, as far as [decodeEvent] looks into it:
    [ev_full] is the [fullDocument] field when it is a document. *)
Record bson_event := mkEvent { ev_operationType : string; ev_full : option bdoc; ev_key : string }.

(** Where a stream starts. *)
Inductive start_at (Token Time : Type) := ResumeAfter (t : Token) | StartAtOperationTime (t : Time).
Arguments ResumeAfter {Token Time} t.
Arguments StartAtOperationTime {Token Time} t.

Class ChangeFeed (E Stream Token Time : Type) := {
  RunHello : E → E * result merr (option Time);            (* operationTime of the hello reply *)
  Watch : E → start_at Token Time → E * result merr Stream;
  Next : E → Stream → E * Stream * option bson_event;      (* None: Next returned false *)
  cs_Err : Stream → option merr;
  ResumeToken : Stream → option Token;
  ctx_Err : E → option merr;
  chan_select : E → FilterChange → E * bool }.             (* true: the send case was taken *)

Section cdc.
Context `{BS : Bson} {E Stream Token Time : Type} `{DB : Collection E} `{CF : ChangeFeed E Stream Token Time}.

(** The order in which a Go map is ranged over. *)
Context (range : gset string → list string).

Record FilterCDC := mkCDC {
  running : bool; resumeToken : option Token; resumeTime : option Time; live : gset string }.

Definition newCDC : FilterCDC := mkCDC false None None ∅.

(** The state of a program that uses one [FilterCDC]: its fields, what has been
    received on the channel, and the environment. *)
Record cstate := mkSt { s_cdc : FilterCDC; s_sent : list FilterChange; s_env : E }.

Definition with_cdc (s : cstate) (c : FilterCDC) : cstate := mkSt c (s_sent s) (s_env s).
Definition with_env (s : cstate) (e : E) : cstate := mkSt (s_cdc s) (s_sent s) e.

Definition set_running (b : bool) (c : FilterCDC) : FilterCDC := mkCDC b (resumeToken c) (resumeTime c) (live c).
Definition set_resumeTime (t : Time) (c : FilterCDC) : FilterCDC := mkCDC (running c) (resumeToken c) (Some t) (live c).

Definition chanSend (change : FilterChange) (s : cstate) : cstate * option merr :=
  let '(e, sent) := chan_select (s_env s) change in
  if sent then (mkSt (s_cdc s) (s_sent s ++ [change]) e, None) else (with_env s e, ctx_Err e).

Definition track (change : FilterChange) (c : FilterCDC) : FilterCDC :=
  match ch_Op change with
  | ChangeOpUpsert => mkCDC (running c) (resumeToken c) (resumeTime c) ({[ch_Name change]} ∪ live c)
  | ChangeOpDelete => mkCDC (running c) (resumeToken c) (resumeTime c) (live c ∖ {[ch_Name change]})
  | ChangeOpReady => c
  end.

Definition forgetPosition (c : FilterCDC) : FilterCDC := mkCDC (running c) None None (live c).

Definition rememberPosition (cs : Stream) (c : FilterCDC) : FilterCDC :=
  match ResumeToken cs with
  | Some token => mkCDC (running c) (Some token) (resumeTime c) (live c)
  | None => c
  end.

Definition resumeLostCodes : list Z := [136; 260; 280; 286]%Z.

(** [errors.As(err, &se)] with a [mongo.ServerError]. *)
Fixpoint as_ServerError (e : merr) : option (list Z) :=
  match e with ServerError codes => Some codes | Wrapf _ e' => as_ServerError e' | _ => None end.

Definition isResumeLost (err : option merr) : bool :=
  match err ≫= as_ServerError with
  | Some codes => existsb (fun code => bool_decide (code ∈ codes)) resumeLostCodes
  | None => false
  end.

(** [Err]: the event cannot be decoded; [Ok None]: not an operation to act on. *)
Definition decodeEvent (raw : bson_event) : result merr (option FilterChange) :=
  if decide (ev_operationType raw ∈ ["insert"; "update"; "replace"]) then
    match ev_full raw with
    | None => Err (OtherErr "fullDocument missing or not a document")
    | Some d =>
        match Unmarshal d with
        | None => Err (OtherErr "unmarshal fullDocument")
        | Some doc =>
            Ok (Some (if decide (doc_DeletedAt doc = None)
                      then mkChange ChangeOpUpsert (doc_Name doc) (Some doc)
                      else mkChange ChangeOpDelete (doc_Name doc) None))
        end
    end
  else if decide (ev_operationType raw = "delete") then
    if decide (ev_key raw = "") then Err (OtherErr "documentKey._id empty in delete event")
    else Ok (Some (mkChange ChangeOpDelete (ev_key raw) None))
  else Ok None.

Definition currentOpTime (e : E) : E * result merr Time :=
  let '(e', r) := RunHello e in
  (e', t ← r; match t with Some t => Ok t | None => Err (OtherErr "operationTime absent from hello response") end).

(** Send a change and record it as reported. *)
Definition report (change : FilterChange) (s : cstate) : cstate * option merr :=
  match chanSend change s with
  | (s', None) => (with_cdc s' (track change (s_cdc s')), None)
  | r => r
  end.

Fixpoint report_all (changes : list FilterChange) (s : cstate) : cstate * option merr :=
  match changes with
  | [] => (s, None)
  | change :: rest => match report change s with (s', None) => report_all rest s' | r => r end
  end.

Definition staleNames (liveNames activeNames : gset string) : list string :=
  filter (fun name => name ∉ activeNames) (range liveNames).

Definition upsert_of (doc : FilterDocument) : FilterChange := mkChange ChangeOpUpsert (doc_Name doc) (Some doc).
Definition delete_of (name : string) : FilterChange := mkChange ChangeOpDelete name None.

Definition snapshot (s : cstate) : cstate * option merr :=
  let '(e, r) := ListActive (s_env s) in
  match r with
  | Err err => (with_env s e, Some (Wrapf "cefilter cdc: full sync" err))
  | Ok docs =>
      match report_all (upsert_of <$> docs) (with_env s e) with
      | (s1, None) =>
          report_all (delete_of <$> staleNames (live (s_cdc s1)) (list_to_set (doc_Name <$> docs))) s1
      | r => r
      end
  end.

(** A call that has not returned is still following the stream. *)
Inductive run_result := Returned (err : option merr) | Running (cs : Stream).

(** [for cs.Next(ctx)]: one unit of fuel per call of [Next]. *)
Fixpoint tail_stream (fuel : nat) (cs : Stream) (s : cstate) : cstate * run_result :=
  match fuel with
  | O => (s, Running cs)
  | S fuel' =>
      match Next (s_env s) cs with
      | (e, cs', Some raw) =>
          match (match decodeEvent raw with
                 | Ok (Some change) => report change (with_env s e)
                 | _ => (with_env s e, None)
                 end) with
          | (s', None) => tail_stream fuel' cs' (with_cdc s' (rememberPosition cs' (s_cdc s')))
          | (s', Some err) => (s', Returned (Some err))
          end
      | (e, cs', None) =>
          match cs_Err cs' with
          | Some err => (with_env s e, Returned (Some (Wrapf "cefilter cdc: stream" err)))
          | None =>
              match ctx_Err e with
              | Some err => (with_env s e, Returned (Some err))
              | None =>
                  (with_cdc (with_env s e) (forgetPosition (s_cdc s)),
                   Returned (Some (OtherErr "cefilter cdc: change stream invalidated (collection dropped or renamed)")))
              end
          end
      end
  end.

(** The part of [runOnce] after the start position is known. *)
Definition follow (fuel : nat) (start : start_at Token Time) (s : cstate) : cstate * run_result :=
  let '(e, r) := Watch (s_env s) start in
  match r with
  | Err err => (with_env s e, Returned (Some (Wrapf "cefilter cdc: watch" err)))
  | Ok cs =>
      let s1 := with_cdc (with_env s e) (rememberPosition cs (s_cdc s)) in
      match chanSend (mkChange ChangeOpReady "" None) s1 with
      | (s2, Some err) => (s2, Returned (Some err))
      | (s2, None) => tail_stream fuel cs s2
      end
  end.

Definition runOnce (fuel : nat) (s : cstate) : cstate * run_result :=
  match resumeToken (s_cdc s), resumeTime (s_cdc s) with
  | Some token, _ => follow fuel (ResumeAfter token) s
  | None, Some t => follow fuel (StartAtOperationTime t) s
  | None, None =>
      let '(e, r) := currentOpTime (s_env s) in
      match r with
      | Err err => (with_env s e, Returned (Some (Wrapf "cefilter cdc: get optime" err)))
      | Ok startTime =>
          match snapshot (with_env s e) with
          | (s1, Some err) => (s1, Returned (Some err))
          | (s1, None) =>
              follow fuel (StartAtOperationTime startTime) (with_cdc s1 (set_resumeTime startTime (s_cdc s1)))
          end
      end
  end.

Definition Run (fuel : nat) (s : cstate) : cstate * run_result :=
  if running (s_cdc s)
  then (s, Returned (Some (OtherErr "cefilter cdc: Run is already running on this FilterCDC")))
  else
    let stop r :=
      match r with
      | (s', Returned err) => (with_cdc s' (set_running false (s_cdc s')), Returned err)
      | _ => r
      end in
    match runOnce fuel (with_cdc s (set_running true (s_cdc s))) with
    | (s1, Returned err) =>
        if isResumeLost err && bool_decide (ctx_Err (s_env s1) = None)
        then stop (runOnce fuel (with_cdc s1 (forgetPosition (s_cdc s1))))
        else stop (s1, Returned err)
    | r => r
    end.
End cdc.
Arguments FilterCDC Token Time : clear implicits.
Arguments cstate E Token Time : clear implicits.

(** ** What the driver documents

    Positions are counted in writes to the collection.  A stream delivers every
    write from its start position on, once and in order, and its token marks the
    writes delivered so far; an update event carries the document as it is at
    some later moment ([UpdateLookup]), or none if it is gone by then; a dropped
    collection ends the stream. *)
Definition event_for (w : cwrite) (raw : bson_event) (p : nat) (h : list cwrite) : Prop :=
  match w with
  | WInsert _ d => ev_operationType raw = "insert" ∧ ev_full raw = Some d
  | WReplace _ d => ev_operationType raw = "replace" ∧ ev_full raw = Some d
  | WUpdate n _ => ev_operationType raw = "update" ∧
      ∃ j, p ≤ j ≤ length h ∧ ev_full raw = replay (take j h) !! n
  | WDelete n => ev_operationType raw = "delete" ∧ ev_key raw = n
  | WDrop => False
  end.

Class ChangeFeedLaws (E Stream Token Time : Type) `{ChangeFeed E Stream Token Time}
    (history : E → list cwrite) (stream_pos : Stream → nat) (tok_pos : Token → nat) (time_pos : Time → nat) := {
  RunHello_mono e e' r : RunHello e = (e', r) → history e `prefix_of` history e';
  Watch_mono e st e' r : Watch e st = (e', r) → history e `prefix_of` history e';
  Next_mono e cs e' cs' r : Next e cs = (e', cs', r) → history e `prefix_of` history e';
  chan_mono e c e' b : chan_select e c = (e', b) → history e `prefix_of` history e';
  RunHello_pos e e' t : RunHello e = (e', Ok (Some t)) → time_pos t ≤ length (history e');
  Watch_pos e st e' cs :
    Watch e st = (e', Ok cs) →
    stream_pos cs = match st with ResumeAfter t => tok_pos t | StartAtOperationTime t => time_pos t end;
  ResumeToken_pos cs t : ResumeToken cs = Some t → tok_pos t = stream_pos cs;
  Next_event e cs e' cs' raw :
    Next e cs = (e', cs', Some raw) →
    stream_pos cs' = S (stream_pos cs) ∧
    ∃ w, history e' !! stream_pos cs = Some w ∧ event_for w raw (S (stream_pos cs)) (history e');
  chan_done e c e' : chan_select e c = (e', false) → ctx_Err e' ≠ None }.

(** ** The caller's set *)
Definition apply_change (v : gmap string FilterDocument) (c : FilterChange) : gmap string FilterDocument :=
  match ch_Op c, ch_Doc c with
  | ChangeOpUpsert, Some doc => <[ch_Name c := doc]> v
  | ChangeOpDelete, _ => delete (ch_Name c) v
  | _, _ => v
  end.

Definition view (sent : list FilterChange) : gmap string FilterDocument := foldl apply_change ∅ sent.

Lemma view_snoc sent c : view (sent ++ [c]) = apply_change (view sent) c.
Proof. unfold view. by rewrite foldl_app. Qed.

(** [v] is right about every filter not written from position [p] on. *)
Definition agrees `{Bson} (p : nat) (v : gmap string FilterDocument) (h : list cwrite) : Prop :=
  p ≤ length h ∧ ∀ n, untouched n p h → v !! n = active (replay h) !! n.

(** *** The history *)
Section history.
Context `{BL : BsonLaws}.

Lemma active_pointwise m1 m2 n : m1 !! n = m2 !! n → active m1 !! n = active m2 !! n.
Proof using Type.
  intros Hn. unfold active, decoded. rewrite !map_lookup_filter, !lookup_omap. by rewrite Hn.
Qed.

Lemma wstep_untouched m w n : ¬ touches n w → wstep m w !! n = m !! n.
Proof using Type. destruct w; simpl; intros Ht; [by rewrite lookup_insert_ne..|by rewrite lookup_delete_ne|done]. Qed.

Lemma foldl_untouched ws m n : Forall (fun w => ¬ touches n w) ws → foldl wstep m ws !! n = m !! n.
Proof using Type.
  intros Hws. revert m. induction Hws as [|w ws Hw _ IH]; intros m; simpl; [done|].
  by rewrite IH, wstep_untouched.
Qed.

Lemma replay_untouched n p h : untouched n p h → replay h !! n = replay (take p h) !! n.
Proof using Type.
  intros Hu. rewrite <- (take_drop p h) at 1. rewrite replay_app. by apply foldl_untouched.
Qed.

Lemma untouched_later n p p' h : p ≤ p' → untouched n p h → untouched n p' h.
Proof using Type.
  unfold untouched. intros Hp Hu. replace p' with (p + (p' - p)) by lia. rewrite <- drop_drop. by apply Forall_drop.
Qed.

Lemma untouched_prefix n p h h' : h `prefix_of` h' → untouched n p h' → untouched n p h.
Proof using Type. unfold untouched. intros [k ->]. rewrite drop_app. by intros [? _]%Forall_app. Qed.

Lemma agrees_earlier p p' v h : p ≤ p' → agrees p' v h → agrees p v h.
Proof using Type. intros Hp [Hl Ha]. split; [lia|]. intros n Hu. apply Ha. by eapply untouched_later. Qed.

Lemma agrees_extend p v h h' : h `prefix_of` h' → agrees p v h → agrees p v h'.
Proof using Type.
  intros Hh [Hl Ha]. pose proof (prefix_length _ _ Hh). split; [lia|]. intros n Hu.
  rewrite (Ha n (untouched_prefix _ _ _ _ Hh Hu)). apply active_pointwise. symmetry.
  apply (untouched_later _ _ (length h)) in Hu; [|done]. rewrite (replay_untouched _ _ _ Hu).
  destruct Hh as [k ->]. by rewrite take_app_length.
Qed.

(** Caught up means exact. *)
Lemma agrees_exact v h : agrees (length h) v h → v = active (replay h).
Proof using Type.
  intros [_ Ha]. apply map_eq. intros n. apply Ha. unfold untouched. by rewrite drop_all.
Qed.
End history.

(** *** One event of the stream *)
Definition named (h : list cwrite) : Prop := good_history h ∧ WDelete "" ∉ h.

Lemma named_prefix h h' : h `prefix_of` h' → named h' → named h.
Proof.
  intros Hp [Hg Hd]. split; [by eapply good_history_prefix|]. destruct Hp as [k ->]. set_solver.
Qed.

(** A change that [track] and the caller understand the same way. *)
Definition proper_change (c : FilterChange) : Prop :=
  match ch_Op c with ChangeOpUpsert => ∃ doc, ch_Doc c = Some doc ∧ doc_Name doc = ch_Name c | _ => True end.

Definition event_view `{Bson} (v : gmap string FilterDocument) (raw : bson_event) : gmap string FilterDocument :=
  match decodeEvent raw with Ok (Some c) => apply_change v c | _ => v end.

Section events.
Context `{BL : BsonLaws}.

Definition in_force (doc : FilterDocument) : option FilterDocument :=
  if decide (doc_DeletedAt doc = None) then Some doc else None.

Lemma active_stored m n d doc : m !! n = Some d → encodes d doc → active m !! n = in_force doc.
Proof using BL.
  intros Hm He. unfold active, decoded, in_force. rewrite map_lookup_filter, lookup_omap, Hm. simpl.
  rewrite (Unmarshal_encodes _ _ He). simpl. unfold guard. by destruct (decide (doc_DeletedAt doc = None)).
Qed.

Lemma active_absent m n : m !! n = None → active m !! n = None.
Proof using Type. intros Hm. unfold active, decoded. by rewrite map_lookup_filter, lookup_omap, Hm. Qed.

Lemma event_view_put v raw d doc k :
  ev_operationType raw ∈ ["insert"; "update"; "replace"] → ev_full raw = Some d → encodes d doc →
  event_view v raw !! k = if decide (k = doc_Name doc) then in_force doc else v !! k.
Proof using BL.
  intros Ho Hf He. unfold event_view, decodeEvent. rewrite (decide_True _ _ Ho), Hf, (Unmarshal_encodes _ _ He).
  unfold in_force. simpl. destruct (decide (doc_DeletedAt doc = None)); unfold apply_change; simpl;
    case_decide as Hk; subst; by simplify_map_eq.
Qed.

(** The document an event carries is that of a moment not before the event. *)
Lemma event_view_update v raw n d p h k :
  good_history h → event_for (WUpdate n d) raw p h →
  (event_view v raw !! k = v !! k ∨ k = n) ∧
  (untouched n p h → ∀ doc, replay h !! n = Some d → encodes d doc → event_view v raw !! n = in_force doc).
Proof using BL.
  intros Hg [Ho (j & [Hj _] & Hf)]. destruct (replay (take j h) !! n) as [d'|] eqn:Hl; cycle 1.
  - assert (event_view v raw = v) as ->.
    { unfold event_view, decodeEvent. by rewrite Ho, Hf. }
    split; [by left|]. intros Hu doc Hr _.
    rewrite (replay_untouched n j) in Hr by (by eapply untouched_later). congruence.
  - assert (good_history (take j h)) as Hgj by (by eapply Forall_take).
    destruct (well_stored_replay _ Hgj _ _ Hl) as (doc' & He & Hn).
    assert (ev_operationType raw ∈ ["insert"; "update"; "replace"]) as Hin by (rewrite Ho; set_solver).
    split.
    + rewrite (event_view_put _ _ _ _ _ Hin Hf He), Hn. case_decide; [by right|by left].
    + intros Hu doc Hr He2. rewrite (replay_untouched n j) in Hr by (by eapply untouched_later).
      rewrite (event_view_put _ _ _ _ _ Hin Hf He), Hn, decide_True by done. f_equal.
      assert (d = d') as -> by congruence. apply Unmarshal_encodes in He, He2. congruence.
Qed.

Lemma replay_at h p w : h !! p = Some w → replay (take (S p) h) = wstep (replay (take p h)) w.
Proof using Type. intros Hw. by rewrite (take_S_r _ _ _ Hw), replay_snoc. Qed.

(** Delivering the write at [p] moves the agreement past it. *)
Lemma event_agrees p v w raw h :
  named h → h !! p = Some w → event_for w raw (S p) h → agrees p v h → agrees (S p) (event_view v raw) h.
Proof using BL.
  intros [Hg Hnd] Hw Hev [Hl Ha]. pose proof (lookup_lt_Some _ _ _ Hw) as Hlt. split; [lia|].
  intros n Hu. pose proof (replay_untouched _ _ _ Hu) as Hr. rewrite (replay_at _ _ _ Hw) in Hr.
  pose proof (Forall_lookup_1 _ _ _ _ Hg Hw) as Hgw.
  assert (¬ touches n w → event_view v raw !! n = v !! n → event_view v raw !! n = active (replay h) !! n) as Hother.
  { intros Ht ->. apply Ha. unfold untouched. rewrite (drop_S _ _ _ Hw). by constructor. }
  assert (∀ k d doc, ev_operationType raw ∈ ["insert"; "update"; "replace"] → ev_full raw = Some d →
    wstep (replay (take p h)) w !! k = Some d → (n ≠ k → ¬ touches n w) → encodes d doc → doc_Name doc = k →
    event_view v raw !! n = active (replay h) !! n) as Hput.
  { intros k d doc Ho Hf Hk Ht He Hn. pose proof (event_view_put v raw d doc n Ho Hf He) as Hv.
    rewrite Hn in Hv. case_decide as Hd.
    - subst n. rewrite Hv. symmetry. eapply active_stored; [|exact He]. by rewrite Hr.
    - apply Hother; [by apply Ht|exact Hv]. }
  destruct w as [k d|k d|k d|k|]; simpl in Hgw, Hev.
  1, 2: destruct Hev as [Ho Hf], Hgw as (doc & He & Hn); eapply (Hput k d doc); simpl;
    [rewrite Ho; set_solver|done|by simplify_map_eq|congruence|done|done].
  - destruct (event_view_update v raw k d (S p) h n Hg Hev) as [Hv Hsame]. destruct Hgw as (doc & He & Hn).
    destruct (decide (n = k)) as [->|Hk].
    + simpl in Hr. rewrite lookup_insert_eq in Hr. rewrite (Hsame Hu doc Hr He). symmetry. by eapply active_stored.
    + apply Hother; [simpl; congruence|]. destruct Hv; done.
  - destruct Hev as [Ho Hk]. assert (k ≠ "") as Hne by (intros ->; apply Hnd; by eapply list_elem_of_lookup_2).
    assert (event_view v raw = delete k v) as Hv.
    { unfold event_view, decodeEvent. rewrite Ho. simpl. rewrite Hk, decide_False by done. done. }
    destruct (decide (n = k)) as [->|Hk'].
    + rewrite Hv, lookup_delete_eq. symmetry. apply active_absent. rewrite Hr. simpl. apply lookup_delete_eq.
    + apply Hother; [simpl; congruence|]. rewrite Hv. by apply lookup_delete_ne.
  - done.
Qed.

Lemma decodeEvent_proper raw c : decodeEvent raw = Ok (Some c) → proper_change c.
Proof using Type.
  unfold decodeEvent, proper_change. intros Hd. split_match; eauto.
Qed.
End events.

(** ** The wiring to a filter set that the package documents

    An upsert is an [Add], a deletion a [Remove]. *)
Definition entry_of (doc : FilterDocument) : FilterEntry :=
  mkEntry (doc_Name doc) (doc_Hint doc) (default ∅ (doc_Metadata doc)).

Definition gate_ops (c : FilterChange) : list fop :=
  match ch_Op c, ch_Doc c with
  | ChangeOpUpsert, Some doc => [OpAdd (entry_of doc) (doc_Expr doc)]
  | ChangeOpDelete, _ => [OpRemove (ch_Name c)]
  | _, _ => []
  end.

Section wiring.
Context `{UT : UnicodeTables}.

Definition parses (c : FilterChange) : Prop :=
  match ch_Doc c with Some doc => ∃ p, Parse (doc_Expr doc) = Ok p | None => True end.

Definition registry_of (v : gmap string FilterDocument) : registry :=
  omap (fun doc => match Parse (doc_Expr doc) with Ok p => Some (entry_of doc, p) | Err _ => None end) v.

(** The filter [doc] is one of [v] and its expression accepts the event. *)
Definition accepts (v : gmap string FilterDocument) (a : Attrs) (doc : FilterDocument) : Prop :=
  ∃ n p, v !! n = Some doc ∧ Parse (doc_Expr doc) = Ok p ∧ Predicate_Match p a = true.

Lemma registry_of_sent sent :
  Forall proper_change sent → Forall parses sent → foldl reg_step ∅ (sent ≫= gate_ops) = registry_of (view sent).
Proof using Type.
  induction sent as [|c sent IH] using rev_ind; [intros _ _; unfold registry_of, view; simpl; by rewrite omap_empty|].
  intros [H1 [Hp _]%Forall_cons]%Forall_app [H2 [Hs _]%Forall_cons]%Forall_app. specialize (IH H1 H2).
  rewrite bind_app, foldl_app, IH, view_snoc. unfold gate_ops, apply_change. simpl. rewrite app_nil_r.
  unfold proper_change, parses in *. destruct c as [[] n doc]; simpl in *.
  - destruct Hp as (d & -> & <-). destruct Hs as (p & Hs). unfold registry_of. simpl. rewrite Hs.
    by rewrite (omap_insert_Some _ _ _ _ (entry_of d, p)) by (by rewrite Hs).
  - destruct doc; simpl; unfold registry_of; by rewrite omap_delete.
  - by destruct doc.
Qed.

Lemma reg_matches_of v a e : reg_matches (registry_of v) a e ↔ ∃ doc, accepts v a doc ∧ e = entry_of doc.
Proof using Type.
  unfold reg_matches, registry_of, accepts. split.
  - intros (n & p & Hl & Hm). rewrite lookup_omap in Hl. destruct (v !! n) as [doc|] eqn:Ev; [|done]. simpl in Hl.
    destruct (Parse (doc_Expr doc)) eqn:Ep; simplify_eq. eauto 10.
  - intros (doc & (n & p & Ev & Ep & Hm) & ->). exists n, p. rewrite lookup_omap, Ev. simpl. by rewrite Ep.
Qed.

Lemma enumerates_iff {A} max (P Q : A → Prop) l : (∀ x, P x ↔ Q x) → enumerates max P l → enumerates max Q l.
Proof using Type. unfold enumerates. intros HPQ. setoid_rewrite HPQ. done. Qed.
End wiring.

(** *** The operations *)
Section tracking.
Context `{BL : BsonLaws} {E Stream Token Time : Type} {history : E → list cwrite}
  {stream_pos : Stream → nat} {tok_pos : Token → nat} {time_pos : Time → nat}
  `{DL : CollectionLaws E history} `{CF : ChangeFeed E Stream Token Time}
  {FL : ChangeFeedLaws E Stream Token Time history stream_pos tok_pos time_pos}.
Context (range : gset string → list string) (Hrange : ∀ X, range X ≡ₚ elements X).

Implicit Types (s : cstate E Token Time) (c : FilterCDC Token Time).

Abbreviation hist s := (history (s_env s)).
Abbreviation vw s := (view (s_sent s)).

(** What every operation keeps: history only grows, and what is recorded as
    reported is what the caller has. *)
Definition tracked s : Prop := live (s_cdc s) = dom (vw s) ∧ Forall proper_change (s_sent s).

Definition position c : option nat :=
  match resumeToken c, resumeTime c with
  | Some t, _ => Some (tok_pos t) | None, Some t => Some (time_pos t) | None, None => None end.

(** The invariant between calls of [Run]: from the resume position on, the
    stream will report everything the caller's set is missing. *)
Definition cdc_inv s : Prop :=
  tracked s ∧ ∀ p, position (s_cdc s) = Some p → agrees p (vw s) (hist s).

Lemma chanSend_spec ch s s' err :
  chanSend ch s = (s', err) →
  hist s `prefix_of` hist s' ∧ s_cdc s' = s_cdc s ∧
  s_sent s' = match err with None => s_sent s ++ [ch] | Some _ => s_sent s end.
Proof using FL.
  unfold chanSend. destruct (chan_select _ _) as [e b] eqn:Hc. pose proof (chan_mono _ _ _ _ Hc) as Hm.
  destruct b; intros [= <- <-]; simpl; [done|]. apply chan_done in Hc. by destruct (ctx_Err e).
Qed.

Lemma track_live ch c v :
  proper_change ch → live c = dom v → live (track ch c) = dom (apply_change v ch).
Proof using Type.
  unfold track, apply_change, proper_change. intros Hp Hl. destruct ch as [[] n doc]; simpl in *;
    [|rewrite dom_delete_L; by rewrite Hl|done].
  destruct Hp as (d & -> & _). rewrite dom_insert_L. by rewrite Hl.
Qed.

Lemma track_position ch c : position (track ch c) = position c ∧ running (track ch c) = running c.
Proof using Type. unfold track, position. by destruct (ch_Op ch). Qed.

Lemma report_mono ch s s' err : report ch s = (s', err) → hist s `prefix_of` hist s'.
Proof using FL.
  unfold report. destruct (chanSend ch s) as [s1 [x|]] eqn:Hs; apply chanSend_spec in Hs as (Hh & _);
    by intros [= <- _].
Qed.

Lemma report_all_mono chs s s' err : report_all chs s = (s', err) → hist s `prefix_of` hist s'.
Proof using FL.
  revert s. induction chs as [|ch chs IH]; intros s; simpl; [by intros [= <- _]|].
  destruct (report ch s) as [s1 [x|]] eqn:Hr; apply report_mono in Hr; [by intros [= <- _]|].
  intros ?%IH. by etrans.
Qed.

Lemma ListActive_mono (e e' : E) r : ListActive e = (e', r) → history e `prefix_of` history e'.
Proof using DL.
  unfold ListActive. destruct (Find e _) as [e1 r1] eqn:Hf. intros [= <- _]. by eapply Find_mono.
Qed.

Lemma snapshot_mono s s' err : snapshot range s = (s', err) → hist s `prefix_of` hist s'.
Proof using DL FL.
  unfold snapshot. destruct (ListActive (s_env s)) as [e [docs|x]] eqn:Hl; apply ListActive_mono in Hl;
    [|by intros [= <- _]].
  destruct (report_all _ _) as [s1 [x|]] eqn:Hr; apply report_all_mono in Hr; simpl in Hr;
    [intros [= <- _]; by etrans|]. intros Hr2%report_all_mono. by repeat (etrans; [eassumption|]).
Qed.

Lemma report_spec ch s s' err :
  report ch s = (s', err) → proper_change ch → tracked s →
  hist s `prefix_of` hist s' ∧ position (s_cdc s') = position (s_cdc s) ∧ tracked s' ∧
  s_sent s' = match err with None => s_sent s ++ [ch] | Some _ => s_sent s end.
Proof using FL.
  unfold report. destruct (chanSend ch s) as [s1 err1] eqn:Hs. apply chanSend_spec in Hs as (Hh & Hc & Hv).
  intros Hr Hp Ht. destruct err1 as [x|]; simplify_eq; simpl.
  - split_and!; [done|by rewrite Hc|unfold tracked; by rewrite Hc, Hv|done].
  - destruct (track_position ch (s_cdc s1)) as [-> _]. destruct Ht as [Ht Hall].
    split_and!; [done|by rewrite Hc| |done]. unfold tracked. simpl. rewrite Hv, view_snoc.
    split; [|by apply Forall_app; split; [|apply Forall_singleton]]. apply track_live; [done|]. by rewrite Hc.
Qed.

Lemma report_all_spec chs s s' err :
  report_all chs s = (s', err) → Forall proper_change chs → tracked s →
  hist s `prefix_of` hist s' ∧ position (s_cdc s') = position (s_cdc s) ∧ tracked s' ∧
  ∃ k, s_sent s' = s_sent s ++ take k chs ∧ (err = None → k = length chs).
Proof using FL.
  intros Hr Hp. revert s Hr. induction Hp as [|ch chs Hch _ IH]; simpl; intros s Hr Ht.
  { simplify_eq. split_and!; [done..|]. exists 0. by rewrite app_nil_r. }
  destruct (report ch s) as [s1 [x|]] eqn:E1; apply report_spec in E1 as (Hh & Hpos & Ht1 & Hs1); try done.
  { simplify_eq. split_and!; [done..|]. exists 0. by rewrite app_nil_r. }
  destruct (IH _ Hr Ht1) as (Hh2 & Hp2 & Ht2 & k & Hs2 & Hk). split_and!; [by etrans|congruence|done|].
  exists (S k). rewrite Hs2, Hs1. simpl. split; [by rewrite <- (assoc_L (++))|]. intros ?. f_equal. auto.
Qed.

(** *** The snapshot *)
Lemma view_upserts docs v n :
  foldl apply_change v (upsert_of <$> docs) !! n = v !! n ∨ (∃ doc, doc ∈ docs ∧ doc_Name doc = n).
Proof using Type.
  revert v. induction docs as [|doc docs IH]; intros v; [by left|].
  rewrite fmap_cons. cbn [foldl]. destruct (IH (apply_change v (upsert_of doc))) as [->|(x & ? & ?)]; [|right; exists x; by split; [right|]].
  unfold apply_change. simpl. destruct (decide (doc_Name doc = n)) as [<-|]; [right; exists doc; by split; [left|]|left].
  by apply lookup_insert_ne.
Qed.

Lemma view_upserts_in docs v doc :
  NoDup (doc_Name <$> docs) → doc ∈ docs → foldl apply_change v (upsert_of <$> docs) !! doc_Name doc = Some doc.
Proof using Type.
  revert v. induction docs as [|x docs IH]; intros v; [by intros _ ?%elem_of_nil|].
  rewrite !fmap_cons. cbn [foldl].
  intros [Hx Hn]%NoDup_cons [->|Hd]%elem_of_cons; [|by apply IH].
  destruct (view_upserts docs (apply_change v (upsert_of x)) (doc_Name x)) as [->|(y & Hy & Hyx)].
  - unfold apply_change. simpl. apply lookup_insert_eq.
  - destruct Hx. rewrite <- Hyx. by apply list_elem_of_fmap_2.
Qed.

Lemma view_deletes ns v n :
  foldl apply_change v (delete_of <$> ns) !! n = if decide (n ∈ ns) then None else v !! n.
Proof using Type.
  revert v. induction ns as [|k ns IH]; intros v; simpl; [done|]. rewrite IH. unfold apply_change. simpl.
  destruct (decide (n = k)) as [->|Hk].
  - rewrite lookup_delete_eq, (decide_True (P := k ∈ k :: ns)) by (by left). by case_decide.
  - rewrite lookup_delete_ne by done. destruct (decide (n ∈ ns)) as [Hin|Hin].
    + by rewrite decide_True by (by right).
    + by rewrite decide_False by (by intros [?|?]%elem_of_cons).
Qed.

Lemma string_compare_refl (n : string) : String.compare n n = Eq.
Proof using Type. induction n as [|c n IH]; simpl; [done|]. unfold Ascii.compare. by rewrite N.compare_refl. Qed.

Lemma sorted_NoDup ns : StronglySorted (fun a b => String.ltb a b = true) ns → NoDup ns.
Proof using Type.
  induction 1 as [|n ns _ IH Hn]; constructor; [|done]. intros Hin. apply (proj1 (Forall_forall _ _) Hn) in Hin.
  unfold String.ltb in Hin. by rewrite string_compare_refl in Hin.
Qed.

(** Upserting the documents found and deleting the names that are stale leaves
    exactly the documents found. *)
Lemma snapshot_view docs stale v n doc :
  let v1 := foldl apply_change v (upsert_of <$> docs) in
  NoDup (doc_Name <$> docs) → (∀ k, k ∈ stale ↔ (k ∉ (doc_Name <$> docs)) ∧ k ∈ dom v1) →
  foldl apply_change v1 (delete_of <$> stale) !! n = Some doc ↔ doc ∈ docs ∧ doc_Name doc = n.
Proof using Type.
  intros v1 Hnd Hst. rewrite view_deletes. split.
  - case_decide as Hd; [done|]. intros Hv. rewrite Hst, elem_of_dom in Hd.
    destruct (decide (n ∈ (doc_Name <$> docs))) as [(x & -> & Hx)%list_elem_of_fmap|Hn].
    + unfold v1 in Hv. rewrite (view_upserts_in _ _ _ Hnd Hx) in Hv. by simplify_eq.
    + destruct Hd. by split; [|eexists].
  - intros [Hin <-]. rewrite decide_False; [by apply view_upserts_in|].
    rewrite Hst. intros [Hn _]. by apply Hn, list_elem_of_fmap_2.
Qed.

(** A complete snapshot leaves the caller with the active filters, except
    those written while it was taken. *)
Lemma snapshot_spec s s' err :
  snapshot range s = (s', err) → tracked s →
  hist s `prefix_of` hist s' ∧ position (s_cdc s') = position (s_cdc s) ∧ tracked s' ∧
  (∃ new, s_sent s' = s_sent s ++ new ∧ Forall (fun ch => ch_Op ch ≠ ChangeOpReady) new) ∧
  (err = None → named (hist s') → agrees (length (hist s)) (vw s') (hist s')).
Proof using BL DL FL Hrange.
  unfold snapshot. destruct (ListActive (s_env s)) as [e [docs|x]] eqn:Hl; cycle 1.
  { intros [= <- <-] Ht. apply ListActive_mono in Hl. split_and!; [done..| |done]. exists []. by rewrite app_nil_r. }
  pose proof (ListActive_mono _ _ _ Hl) as He.
  assert (Forall proper_change (upsert_of <$> docs)) as Hp1 by (apply Forall_fmap, Forall_true; intros x; by exists x).
  assert (Forall (fun ch => ch_Op ch ≠ ChangeOpReady) (upsert_of <$> docs)) as Hr1 by (by apply Forall_fmap, Forall_true).
  destruct (report_all (upsert_of <$> docs) (with_env s e)) as [s1 err1] eqn:R1.
  intros Hr Ht. apply report_all_spec in R1 as (Hh1 & Hpos1 & Ht1 & k1 & Hs1 & Hk1); [|done..].
  destruct err1 as [x|]; simplify_eq.
  { split_and!; [by etrans|done|done| |done]. eexists. split; [exact Hs1|]. by apply Forall_take. }
  specialize (Hk1 eq_refl) as ->. rewrite firstn_all in Hs1. simpl in Hs1, Hh1.
  set (stale := staleNames range (live (s_cdc s1)) (list_to_set (doc_Name <$> docs))) in Hr.
  assert (Forall proper_change (delete_of <$> stale)) as Hp2 by (by apply Forall_fmap, Forall_true).
  assert (Forall (fun ch => ch_Op ch ≠ ChangeOpReady) (delete_of <$> stale)) as Hr2 by (by apply Forall_fmap, Forall_true).
  apply report_all_spec in Hr as (Hh2 & Hpos2 & Ht2 & k2 & Hs2 & Hk2); [|done..].
  split_and!; [by etrans; [exact He|]; etrans|by rewrite Hpos2, Hpos1|done| |].
  { eexists. rewrite Hs2, Hs1, <- (assoc_L (++)). split; [done|]. apply Forall_app. split; [done|]. by apply Forall_take. }
  intros -> Hnm. specialize (Hk2 eq_refl) as ->. rewrite firstn_all in Hs2.
  apply (agrees_extend _ _ (history e)); [by etrans|].
  assert (named (history e)) as [Hg _] by (eapply named_prefix; [|exact Hnm]; by etrans).
  destruct (ListActive_spec _ _ _ Hg Hl) as [Hsort Hex]. apply sorted_NoDup in Hsort.
  split; [by apply prefix_length|]. intros n Hu.
  destruct Ht1 as [Ht1 _]. rewrite Hs2, Hs1. rewrite Hs1 in Ht1. unfold view in Ht1 |- *. rewrite !foldl_app in *.
  apply option_eq. intros doc. rewrite <- (Hex n doc Hu). apply snapshot_view; [done|].
  intros k. unfold stale, staleNames. by rewrite list_elem_of_filter, Hrange, elem_of_elements, elem_of_list_to_set, Ht1.
Qed.

(** *** Following the stream *)
Lemma rememberPosition_spec cs c p :
  (∀ q, position c = Some q → q ≤ p) → stream_pos cs = p →
  live (rememberPosition cs c) = live c ∧ ∀ q, position (rememberPosition cs c) = Some q → q ≤ p.
Proof using FL.
  intros Hc Hp. unfold rememberPosition. destruct (ResumeToken cs) as [t|] eqn:Et; [|done].
  apply ResumeToken_pos in Et. split; [done|]. unfold position. simpl. intros q [= <-]. lia.
Qed.

(** While a stream is open: the caller agrees up to the stream's position, and
    the resume position is not ahead of it. *)
Definition following (cs : Stream) s : Prop :=
  tracked s ∧ agrees (stream_pos cs) (vw s) (hist s) ∧
  ∀ q, position (s_cdc s) = Some q → q ≤ stream_pos cs.

Lemma following_inv cs s : following cs s → cdc_inv s.
Proof using Type. intros (Ht & Ha & Hq). split; [done|]. intros p ?%Hq. by eapply agrees_earlier. Qed.

Definition run_ok s' (r : run_result (Stream := Stream)) : Prop :=
  match r with Running cs => following cs s' | Returned _ => cdc_inv s' end.

Lemma report_event_mono raw s s' err :
  (match decodeEvent raw with Ok (Some ch) => report ch s | _ => (s, None) end) = (s', err) →
  hist s `prefix_of` hist s'.
Proof using FL.
  destruct (decodeEvent raw) as [[ch|]|]; intros Hr; simplify_eq; try done.
  by eapply report_mono.
Qed.

Lemma tail_mono fuel cs s s' r : tail_stream fuel cs s = (s', r) → hist s `prefix_of` hist s'.
Proof using FL.
  revert cs s. induction fuel as [|fuel IH]; intros cs s; simpl; [by intros [= <- _]|].
  destruct (Next (s_env s) cs) as [[e cs'] [raw|]] eqn:Hn; apply Next_mono in Hn.
  - destruct (match decodeEvent raw with Ok (Some _) => _ | _ => _ end) as [s1 [x|]] eqn:Hr;
      apply report_event_mono in Hr; simpl in Hr.
    + intros [= <- _]. by etrans.
    + intros Ht%IH. simpl in Ht. by repeat (etrans; [eassumption|]).
  - destruct (cs_Err cs'); [by intros [= <- _]|]. by destruct (ctx_Err e); intros [= <- _].
Qed.

(** One event is reported and remembered, or the call returns with nothing lost. *)
Lemma report_event_spec raw e cs cs' s s' err :
  Next (s_env s) cs = (e, cs', Some raw) →
  (match decodeEvent raw with Ok (Some ch) => report ch (with_env s e) | _ => (with_env s e, None) end) = (s', err) →
  named (hist s') → following cs s →
  match err with
  | None => following cs' (with_cdc s' (rememberPosition cs' (s_cdc s')))
  | Some _ => following cs s'
  end.
Proof using BL FL.
  intros Hn Hr Hnm (Ht & Ha & Hq). pose proof (report_event_mono _ _ _ _ Hr) as Hm. simpl in Hm.
  pose proof (Next_mono _ _ _ _ _ Hn) as He. destruct (Next_event _ _ _ _ _ Hn) as (Hcs & w & Hw & Hev).
  assert (named (history e)) as Hne by (by eapply named_prefix).
  apply (agrees_extend _ _ _ _ He) in Ha.
  pose proof (event_agrees _ _ _ _ _ Hne Hw Hev Ha) as Ha'. rewrite <- Hcs in Ha'.
  assert (tracked (with_env s e)) as Hte by done.
  assert (tracked s' ∧ position (s_cdc s') = position (s_cdc s) ∧
    match err with None => vw s' = event_view (vw s) raw | Some _ => vw s' = vw s end) as (Ht' & Hp' & Hv).
  { unfold event_view. destruct (decodeEvent raw) as [[ch|]|] eqn:Hd; simplify_eq; try done.
    apply report_spec in Hr as (_ & Hp & Ht' & Hs); [|by eapply decodeEvent_proper|done].
    rewrite Hs. split_and!; [done..|]. destruct err; [done|]. by rewrite view_snoc. }
  destruct err as [x|].
  - split_and!; [done| |by rewrite Hp']. rewrite Hv. by eapply agrees_extend.
  - destruct (rememberPosition_spec cs' (s_cdc s') (stream_pos cs')) as [Hl Hq']; [|done|].
    { intros q Hs. rewrite Hp' in Hs. apply Hq in Hs. lia. }
    split_and!; [unfold tracked in *; simpl; by rewrite Hl| |exact Hq']. simpl. rewrite Hv. by eapply agrees_extend.
Qed.

Lemma tail_spec fuel cs s s' r :
  tail_stream fuel cs s = (s', r) → named (hist s') → following cs s → run_ok s' r.
Proof using BL FL.
  revert cs s. induction fuel as [|fuel IH]; intros cs s; simpl; [by intros [= <- <-]|].
  destruct (Next (s_env s) cs) as [[e cs'] [raw|]] eqn:Hn.
  - destruct (match decodeEvent raw with Ok (Some _) => _ | _ => _ end) as [s1 [x|]] eqn:Hr; intros Hs Hnm Hf.
    + simplify_eq. eapply following_inv. by apply (report_event_spec _ _ _ _ _ _ _ Hn Hr).
    + eapply IH; [exact Hs|done|]. apply (report_event_spec _ _ _ _ _ _ _ Hn Hr); [|done].
      eapply named_prefix; [|exact Hnm]. by apply tail_mono in Hs.
  - apply Next_mono in Hn. intros Hs Hnm [Hfi Hfa]%following_inv.
    assert (cdc_inv (with_env s e)) as Hi.
    { split; [done|]. intros p Hp. eapply agrees_extend; [exact Hn|]. by apply Hfa. }
    destruct (cs_Err cs'); [by simplify_eq|]. destruct (ctx_Err e); simplify_eq; [done|]. split; [done|by intros p].
Qed.

(** *** [Run] *)
Lemma follow_mono fuel st s s' r : follow fuel st s = (s', r) → hist s `prefix_of` hist s'.
Proof using FL.
  unfold follow. destruct (Watch (s_env s) st) as [e [cs|x]] eqn:Hw; apply Watch_mono in Hw; [|by intros [= <- _]].
  destruct (chanSend _ _) as [s1 [x|]] eqn:Hs; apply chanSend_spec in Hs as (Hh & _ & _); simpl in Hh.
  - intros [= <- _]. by etrans.
  - intros Ht%tail_mono. by repeat (etrans; [eassumption|]).
Qed.

Lemma follow_spec fuel st s s' r :
  position (s_cdc s) = Some (match st with ResumeAfter t => tok_pos t | StartAtOperationTime t => time_pos t end) →
  follow fuel st s = (s', r) → named (hist s') → cdc_inv s → run_ok s' r.
Proof using BL FL.
  intros Hpos Hf Hnm [Ht Ha]. unfold follow in Hf. destruct (Watch (s_env s) st) as [e [cs|x]] eqn:Hw; cycle 1.
  { simplify_eq. apply Watch_mono in Hw. split; [done|]. intros p Hp. by eapply agrees_extend, Ha. }
  pose proof (Watch_pos _ _ _ _ Hw) as Hcs. apply Watch_mono in Hw. rewrite <- Hcs in Hpos.
  destruct (rememberPosition_spec cs (s_cdc s) (stream_pos cs)) as [Hl Hq]; [intros q Hq; by simplify_eq|done|].
  destruct (chanSend _ _) as [s1 err] eqn:Hs. apply chanSend_spec in Hs as (Hh & Hc & Hv). simpl in Hh, Hc, Hv.
  assert (vw s1 = vw s) as Hvw by (destruct err; rewrite Hv; [done|by rewrite view_snoc]).
  assert (following cs s1) as Hfol.
  { assert (Forall proper_change (s_sent s1)) as Hall.
    { destruct Ht as [_ Ht]. rewrite Hv. destruct err; [done|]. apply Forall_app. by split; [|apply Forall_singleton]. }
    split_and!; [split; [rewrite Hc, Hl, Hvw; by destruct Ht|done]| |by rewrite Hc]. rewrite Hvw.
    eapply agrees_extend; [|by apply Ha]. by etrans. }
  destruct err; simplify_eq; [by eapply following_inv|]. by eapply tail_spec.
Qed.

(** The steps of [runOnce] that take a snapshot first. *)
Lemma currentOpTime_spec e e' r :
  currentOpTime e = (e', r) → history e `prefix_of` history e' ∧
  match r with Ok t => time_pos t ≤ length (history e') | Err _ => True end.
Proof using FL.
  unfold currentOpTime. destruct (RunHello e) as [e1 [[t|]|x]] eqn:Hh; intros [= <- <-];
    pose proof (RunHello_mono _ _ _ Hh); split; try done. by apply RunHello_pos in Hh.
Qed.

Lemma runOnce_mono fuel s s' r : runOnce range fuel s = (s', r) → hist s `prefix_of` hist s'.
Proof using DL FL.
  unfold runOnce. intros Hr. destruct (resumeToken _); [by eapply follow_mono|].
  destruct (resumeTime _); [by eapply follow_mono|].
  destruct (currentOpTime _) as [e [t|x]] eqn:Hc; apply currentOpTime_spec in Hc as [Hc _]; [|by simplify_eq].
  destruct (snapshot range _) as [s1 [x|]] eqn:Hs; apply snapshot_mono in Hs as Hh; simpl in Hh.
  - simplify_eq. by etrans.
  - apply follow_mono in Hr. by repeat (etrans; [eassumption|]).
Qed.

Lemma runOnce_spec fuel s s' r :
  runOnce range fuel s = (s', r) → named (hist s') → cdc_inv s → run_ok s' r.
Proof using BL DL FL Hrange.
  unfold runOnce. intros Hr Hnm [Ht Ha].
  destruct (resumeToken (s_cdc s)) as [tok|] eqn:Etok.
  { eapply follow_spec; [|exact Hr|done|done]. unfold position. by rewrite Etok. }
  destruct (resumeTime (s_cdc s)) as [tm|] eqn:Etm.
  { eapply follow_spec; [|exact Hr|done|done]. unfold position. by rewrite Etok, Etm. }
  assert (position (s_cdc s) = None) as Hnone by (unfold position; by rewrite Etok, Etm).
  destruct (currentOpTime _) as [e [t|x]] eqn:Hc; apply currentOpTime_spec in Hc as [Hc Htm]; cycle 1.
  { simplify_eq. split; [done|]. simpl. intros p. by rewrite Hnone. }
  destruct (snapshot range _) as [s1 err] eqn:Hs. apply snapshot_spec in Hs as (Hh & Hp1 & Ht1 & _ & Hsn); [|done].
  simpl in *. destruct err as [x|].
  { simplify_eq. split; [done|]. intros p. by rewrite Hp1, Hnone. }
  assert (resumeToken (s_cdc s1) = None) as Htok1.
  { unfold position in Hp1, Hnone. rewrite Etok, Etm in Hp1. by destruct (resumeToken (s_cdc s1)). }
  assert (position (set_resumeTime t (s_cdc s1)) = Some (time_pos t)) as Hpt by (unfold position; simpl; by rewrite Htok1).
  refine (follow_spec _ (StartAtOperationTime t) (with_cdc s1 (set_resumeTime t (s_cdc s1))) _ _ Hpt Hr Hnm _). split; [done|]. cbn [s_cdc with_cdc]. rewrite Hpt. intros p [= <-].
  eapply agrees_earlier; [exact Htm|]. apply Hsn; [done|]. apply follow_mono in Hr. by eapply named_prefix.
Qed.

(** [Run] is one [runOnce], or two when the position was lost. *)
Lemma Run_cases fuel s s' r :
  Run range fuel s = (s', r) →
  (s' = s ∧ ∃ err, r = Returned err) ∨
  let s0 := with_cdc s (set_running true (s_cdc s)) in
  ∃ s1 r1, runOnce range fuel s0 = (s1, r1) ∧
    ((s_sent s' = s_sent s1 ∧ s_env s' = s_env s1 ∧ position (s_cdc s') = position (s_cdc s1) ∧
      live (s_cdc s') = live (s_cdc s1) ∧ r = r1) ∨
     ∃ s2, runOnce range fuel (with_cdc s1 (forgetPosition (s_cdc s1))) = (s2, r) ∧ (∃ err, r1 = Returned err) ∧
       s_sent s' = s_sent s2 ∧ s_env s' = s_env s2 ∧ position (s_cdc s') = position (s_cdc s2) ∧
       live (s_cdc s') = live (s_cdc s2)).
Proof using Type.
  unfold Run. destruct (running (s_cdc s)); [intros [= <- <-]; left; by eauto|]. intros Hr. right. cbv zeta in *.
  destruct (runOnce range fuel _) as [s1 [err|cs]] eqn:H1.
  - exists s1, (Returned err). split; [done|]. destruct (isResumeLost err && _).
    + right. destruct (runOnce range fuel (with_cdc s1 _)) as [s2 [err2|cs2]] eqn:H2; simplify_eq;
        eexists; split; try done; split; eauto.
    + left. by simplify_eq.
  - exists s1, (Running cs). split; [done|]. left. by simplify_eq.
Qed.

Lemma Run_mono fuel s s' r : Run range fuel s = (s', r) → hist s `prefix_of` hist s'.
Proof using DL FL.
  intros [[-> _]|(s1 & r1 & H1 & Hc)]%Run_cases; [done|]. apply runOnce_mono in H1. simpl in H1.
  destruct Hc as [(_ & -> & _)|(s2 & H2 & _ & _ & -> & _)]; [done|]. apply runOnce_mono in H2. by etrans.
Qed.

Lemma run_ok_same s s' r :
  s_sent s' = s_sent s → s_env s' = s_env s → position (s_cdc s') = position (s_cdc s) →
  live (s_cdc s') = live (s_cdc s) → run_ok s r → run_ok s' r.
Proof using Type.
  intros Hs He Hp Hl. unfold run_ok, following, cdc_inv, tracked. by rewrite Hs, He, Hp, Hl.
Qed.

Lemma Run_spec fuel s s' r : Run range fuel s = (s', r) → named (hist s') → cdc_inv s → cdc_inv s' ∧ run_ok s' r.
Proof using BL DL FL Hrange.
  intros Hr Hnm Hi. enough (run_ok s' r) as Hok.
  { split; [|done]. destruct r; [done|by eapply following_inv]. }
  apply Run_cases in Hr as [[-> [? ->]]|(s1 & r1 & H1 & Hc)]; [done|].
  destruct Hc as [(Hs & He & Hp & Hl & ->)|(s2 & H2 & [err ->] & Hs & He & Hp & Hl)].
  - eapply run_ok_same; [done..|]. eapply runOnce_spec; [exact H1|by rewrite <- He|exact Hi].
  - eapply run_ok_same; [done..|]. rewrite He in Hnm. eapply runOnce_spec; [exact H2|done|].
    assert (run_ok s1 (Returned err)) as [Ht1 _].
    { eapply runOnce_spec; [exact H1| |exact Hi]. apply runOnce_mono in H2. by eapply named_prefix. }
    split; [exact Ht1|by intros p].
Qed.

(** A program that calls [Run] on one [FilterCDC], again after each return,
    while anything else happens to the collection in between. *)
Inductive cdc_reach : cstate E Token Time → Prop :=
| reach_new e : cdc_reach (mkSt newCDC [] e)
| reach_idle s e : cdc_reach s → hist s `prefix_of` history e → cdc_reach (with_env s e)
| reach_run s fuel s' err : cdc_reach s → Run range fuel s = (s', Returned err) → cdc_reach s'.

Lemma cdc_reach_inv s : cdc_reach s → named (hist s) → cdc_inv s.
Proof using BL DL FL Hrange.
  induction 1 as [e|s e _ IH Hm|s fuel s' err _ IH Hr]; intros Hnm.
  - split; [split; [unfold view; simpl; by rewrite dom_empty_L|constructor]|by intros p].
  - destruct IH as [Ht Ha]; [by eapply named_prefix|]. split; [done|]. intros p Hp.
    eapply agrees_extend; [exact Hm|]. by apply Ha.
  - apply (Run_spec _ _ _ _ Hr Hnm), IH. apply Run_mono in Hr. by eapply named_prefix.
Qed.

(** C4: the caller's set stays exact.  For any sequence of [Run]s on one
    [FilterCDC], with cancellations, stream errors, lost resume positions and
    invalidated streams at any point, and any writes by other clients meanwhile:
    the filters recorded as live are those the caller has; for every filter not
    written after the resume position the caller has exactly the active document;
    while [Run] follows the stream the same holds for its current position, and
    once the stream has delivered every write the caller's set is exactly the
    active filters of the collection. *)
Theorem cdc_keeps_set_exact s fuel s' r :
  cdc_reach s → Run range fuel s = (s', r) → named (hist s') →
  live (s_cdc s') = dom (vw s') ∧
  (∀ p n, position (s_cdc s') = Some p → untouched n p (hist s') → vw s' !! n = active (replay (hist s')) !! n) ∧
  (∀ cs n, r = Running cs → untouched n (stream_pos cs) (hist s') → vw s' !! n = active (replay (hist s')) !! n) ∧
  (∀ cs, r = Running cs → stream_pos cs = length (hist s') → vw s' = active (replay (hist s'))).
Proof using BL DL FL Hrange.
  intros Hs Hr Hnm. assert (cdc_inv s) as Hi.
  { apply cdc_reach_inv; [done|]. apply Run_mono in Hr. by eapply named_prefix. }
  destruct (Run_spec _ _ _ _ Hr Hnm Hi) as [[[Ht _] Ha] Hok]. split_and!; [done| | |].
  - intros p n Hp. by apply Ha.
  - intros cs n ->. by apply Hok.
  - intros cs -> Hend. destruct Hok as (_ & Hag & _). rewrite Hend in Hag. by apply agrees_exact.
Qed.

(** *** What precedes [ChangeOpReady] *)
Definition not_ready (ch : FilterChange) : Prop := ch_Op ch ≠ ChangeOpReady.
Definition ready : FilterChange := mkChange ChangeOpReady "" None.

Lemma first_ready pre1 post1 pre2 post2 :
  pre1 ++ ready :: post1 = pre2 ++ ready :: post2 → Forall not_ready pre1 → Forall not_ready pre2 → pre1 = pre2.
Proof using Type.
  revert pre2. induction pre1 as [|c pre1 IH]; intros [|c2 pre2] Heq H1 H2; simplify_list_eq; [done| | |].
  - by apply Forall_cons in H2 as [[] _].
  - by apply Forall_cons in H1 as [[] _].
  - apply Forall_cons in H1 as [_ H1], H2 as [_ H2]. f_equal. by eapply IH.
Qed.

Lemma chanSend_sent ch s s' err : chanSend ch s = (s', err) → s_sent s `prefix_of` s_sent s'.
Proof using FL. intros (_ & _ & ->)%chanSend_spec. destruct err; [done|by apply prefix_app_r]. Qed.

Lemma report_sent ch s s' err : report ch s = (s', err) → s_sent s `prefix_of` s_sent s'.
Proof using FL.
  unfold report. destruct (chanSend ch s) as [s1 [x|]] eqn:Hs; apply chanSend_sent in Hs; by intros [= <- _].
Qed.

Lemma tail_sent fuel cs s s' r : tail_stream fuel cs s = (s', r) → s_sent s `prefix_of` s_sent s'.
Proof using FL.
  revert cs s. induction fuel as [|fuel IH]; intros cs s; simpl; [by intros [= <- _]|].
  destruct (Next (s_env s) cs) as [[e cs'] [raw|]].
  - destruct (match decodeEvent raw with Ok (Some _) => _ | _ => _ end) as [s1 err] eqn:Hr.
    assert (s_sent s `prefix_of` s_sent s1) as Hp.
    { destruct (decodeEvent raw) as [[ch|]|]; simplify_eq; try done. by apply report_sent in Hr. }
    destruct err; [by intros [= <- _]|]. intros Ht%IH. by etrans.
  - destruct (cs_Err cs'); [by intros [= <- _]|]. by destruct (ctx_Err e); intros [= <- _].
Qed.

(** [follow] sends nothing, or [ChangeOpReady] first. *)
Lemma follow_sent fuel st s s' r :
  follow fuel st s = (s', r) → s_sent s' = s_sent s ∨ ∃ post, s_sent s' = s_sent s ++ ready :: post.
Proof using FL.
  unfold follow. destruct (Watch (s_env s) st) as [e [cs|x]]; [|by intros [= <- _]; left].
  destruct (chanSend _ _) as [s1 [x|]] eqn:Hs; apply chanSend_spec in Hs as (_ & _ & Hv); simpl in Hv.
  - intros [= <- _]. by left.
  - intros [post Hp]%tail_sent. right. exists post. by rewrite Hp, Hv, <- (assoc_L (++)).
Qed.

(** What a call sent before the first [ChangeOpReady], if there was one. *)
Definition ready_report s s' : Prop :=
  (∃ new, s_sent s' = s_sent s ++ new ∧ Forall not_ready new) ∨
  (∃ new post h0, s_sent s' = s_sent s ++ new ++ ready :: post ∧ Forall not_ready new ∧
     hist s `prefix_of` h0 ∧ h0 `prefix_of` hist s' ∧ (named h0 → agrees (length (hist s)) (view (s_sent s ++ new)) h0)).

Lemma runOnce_ready fuel s s' r :
  runOnce range fuel s = (s', r) → tracked s → resumeToken (s_cdc s) = None → resumeTime (s_cdc s) = None →
  ready_report s s'.
Proof using BL DL FL Hrange.
  unfold runOnce. intros Hr Ht Etok Etm. rewrite Etok, Etm in Hr.
  assert (∃ new, s_sent s = s_sent s ++ new ∧ Forall not_ready new) as Hnil by (exists []; by rewrite app_nil_r).
  destruct (currentOpTime _) as [e [t|x]] eqn:Hc; apply currentOpTime_spec in Hc as [Hc _];
    [|simplify_eq; by left].
  destruct (snapshot range _) as [s1 err] eqn:Hs. apply snapshot_spec in Hs as (Hh & _ & _ & (new & Hn & Hnr) & Hsn); [|done].
  simpl in *. destruct err as [x|]; [simplify_eq; left; by exists new|].
  pose proof (follow_mono _ _ _ _ _ Hr) as Hm. apply follow_sent in Hr as [Hr|[post Hr]]; simpl in Hr, Hm.
  - left. exists new. by rewrite Hr.
  - right. exists new, post, (hist s1). rewrite Hr, Hn, <- (assoc_L (++)). split_and!; [done|done|by etrans|done|].
    intros Hnm. rewrite <- Hn. eapply agrees_earlier; [by apply prefix_length|]. by apply Hsn.
Qed.

Lemma runOnce_sent fuel s s' r : runOnce range fuel s = (s', r) → tracked s → s_sent s `prefix_of` s_sent s'.
Proof using BL DL FL Hrange.
  intros Hr Ht. destruct (resumeToken (s_cdc s)) as [tok|] eqn:Etok; [|destruct (resumeTime (s_cdc s)) as [tm|] eqn:Etm].
  3: { destruct (runOnce_ready _ _ _ _ Hr Ht Etok Etm) as [(new & -> & _)|(new & post & h0 & -> & _)]; by apply prefix_app_r. }
  all: unfold runOnce in Hr; rewrite Etok, ?Etm in Hr; apply follow_sent in Hr as [->|[post ->]];
    [done|by apply prefix_app_r].
Qed.

Lemma ready_report_trans s s1 s2 :
  hist s `prefix_of` hist s1 → hist s1 `prefix_of` hist s2 → s_sent s1 `prefix_of` s_sent s2 →
  ready_report s s1 → ready_report s1 s2 → ready_report s s2.
Proof using Type.
  intros Hh1 Hh2 [k Hk] [(new & Hs & Hn)|(new & post & h0 & Hs & Hn & Ha & Hb & Hag)] H2; cycle 1.
  { right. exists new, (post ++ k), h0. rewrite Hk, Hs, <- !(assoc_L (++)). split_and!; try done. by etrans. }
  destruct H2 as [(new2 & Hs2 & Hn2)|(new2 & post & h0 & Hs2 & Hn2 & Ha & Hb & Hag)].
  - left. exists (new ++ new2). rewrite Hs2, Hs, <- (assoc_L (++)). split; [done|by apply Forall_app].
  - right. exists (new ++ new2), post, h0. rewrite Hs2, Hs, <- !(assoc_L (++)).
    split_and!; [done|by apply Forall_app|by etrans|done|].
    intros Hnm. eapply agrees_earlier; [by apply prefix_length|]. rewrite (assoc_L (++)), <- Hs. by apply Hag.
Qed.

Lemma Run_ready fuel s s' r :
  Run range fuel s = (s', r) → cdc_inv s → position (s_cdc s) = None → named (hist s') → ready_report s s'.
Proof using BL DL FL Hrange.
  intros Hr Hi Hpos Hnm.
  assert (resumeToken (s_cdc s) = None ∧ resumeTime (s_cdc s) = None) as [Etok Etm].
  { unfold position in Hpos. destruct (resumeToken _), (resumeTime _); done. }
  apply Run_cases in Hr as [[-> _]|(s1 & r1 & H1 & Hc)].
  { left. exists []. by rewrite app_nil_r. }
  pose proof (runOnce_ready _ _ _ _ H1 (proj1 Hi) Etok Etm) as R1.
  destruct Hc as [(Hs & He & _)|(s2 & H2 & [err ->] & Hs & He & _)]; unfold ready_report; rewrite Hs, He; [exact R1|].
  rewrite He in Hnm. pose proof (runOnce_mono _ _ _ _ H2) as Hm2. simpl in Hm2.
  assert (run_ok s1 (Returned err)) as [Ht1 _].
  { eapply runOnce_spec; [exact H1| |exact Hi]. by eapply named_prefix. }
  refine (ready_report_trans s s1 s2 (runOnce_mono _ _ _ _ H1) Hm2 _ R1 _).
  - by apply (runOnce_sent _ _ _ _ H2).
  - exact (runOnce_ready _ _ _ _ H2 Ht1 eq_refl eq_refl).
Qed.

(** when a call of [Run] that has no position to resume from first tells
    the caller [ChangeOpReady], the caller's set is populated: there is a moment
    during the call at which, for every filter not written since the call
    started, the caller has exactly the active document, and nothing for a filter
    that is deleted or absent. *)
Theorem cdc_ready_after_snapshot s fuel s' r pre post :
  cdc_reach s → position (s_cdc s) = None → Run range fuel s = (s', r) → named (hist s') →
  s_sent s' = s_sent s ++ pre ++ ready :: post → Forall not_ready pre →
  ∃ h0, hist s `prefix_of` h0 ∧ h0 `prefix_of` hist s' ∧
    ∀ n, untouched n (length (hist s)) h0 → view (s_sent s ++ pre) !! n = active (replay h0) !! n.
Proof using BL DL FL Hrange.
  intros Hs Hpos Hr Hnm Hsent Hpre. assert (cdc_inv s) as Hi.
  { apply cdc_reach_inv; [done|]. apply Run_mono in Hr. by eapply named_prefix. }
  destruct (Run_ready _ _ _ _ Hr Hi Hpos Hnm) as [(new & Hn & Hnr)|(new & post' & h0 & Hn & Hnr & Ha & Hb & Hag)];
    rewrite Hn in Hsent; apply app_inv_head in Hsent.
  - subst new. apply Forall_app in Hnr as [_ [[] _]%Forall_cons]. done.
  - apply first_ready in Hsent as ->; [|done..]. exists h0. split_and!; [done..|].
    apply Hag. by eapply named_prefix.
Qed.

(** C5: routing follows the database.  An [IndexedFilterSet] fed with the
    changes a [FilterCDC] reports ([Add] on upsert, [Remove] on delete), whose
    expressions all parsed, routes by the collection once the stream has delivered
    every write: an event is let through exactly when an active filter document
    accepts it, and the endpoints are the hints of the accepting documents. *)
Theorem routing_follows_collection `{UT : UnicodeTables} s fuel s' cs max cb a :
  cdc_reach s → Run range fuel s = (s', Running cs) → named (hist s') → stream_pos cs = length (hist s') →
  Forall parses (s_sent s') →
  let gate := foldl if_step (empty_index max cb) (s_sent s' ≫= gate_ops) in
  let docs := active (replay (hist s')) in
  (Indexed_MatchAny gate a = true ↔ ∃ doc, accepts docs a doc) ∧
  enumerates max (fun h => h ≠ "" ∧ ∃ doc, accepts docs a doc ∧ doc_Hint doc = h) (Indexed_MatchEndpoints gate a).1.
Proof using BL DL FL Hrange.
  intros Hs Hr Hnm Hend Hp gate docs. assert (cdc_inv s) as Hi.
  { apply cdc_reach_inv; [done|]. apply Run_mono in Hr. by eapply named_prefix. }
  destruct (Run_spec _ _ _ _ Hr Hnm Hi) as [[[_ Hall] _] (_ & Hag & _)]. rewrite Hend in Hag.
  apply agrees_exact in Hag. fold docs in Hag.
  destruct (index_rep_steps _ _ (s_sent s' ≫= gate_ops) (index_rep_empty max cb)) as [Hrep Hm].
  rewrite (registry_of_sent _ Hall Hp), Hag in Hrep. fold gate in Hrep, Hm. simpl in Hm.
  split.
  - rewrite (index_any_iff Hrep a). setoid_rewrite reg_matches_of. naive_solver.
  - pose proof (index_endpoints_enumerates Hrep a) as He. rewrite Hm in He. eapply enumerates_iff; [|exact He].
    intros h. unfold reg_endpoint. setoid_rewrite reg_matches_of. naive_solver.
Qed.
End tracking.

(** ** A change feed in memory *)
#[local] Existing Instance mem_bson.
#[local] Existing Instance mem_collection.
#[local] Existing Instance latin1_tables.

Definition mem_event (h : list cwrite) (w : cwrite) : bson_event :=
  match w with
  | WInsert n d => mkEvent "insert" (Some d) n
  | WReplace n d => mkEvent "replace" (Some d) n
  | WUpdate n _ => mkEvent "update" (replay h !! n) n
  | WDelete n => mkEvent "delete" None n
  | WDrop => mkEvent "drop" None ""
  end.

(** At the end of the history, let the other clients write their next batch. *)
Definition mem_poll (e : mem) (p : nat) : mem :=
  match m_history e !! p, m_pending e with
  | None, ws :: rest => mkMem (m_history e ++ ws) rest (m_oldest e) (m_cancelled e)
  | _, _ => e
  end.

Definition mem_cancel (e : mem) : mem := mkMem (m_history e) (m_pending e) (m_oldest e) true.

#[local] Instance mem_feed : ChangeFeed mem nat nat nat := {|
  RunHello e := (e, Ok (Some (length (m_history e))));
  Watch e st :=
    let p := match st with ResumeAfter t => t | StartAtOperationTime t => t end in
    (e, if decide (m_oldest e ≤ p) then Ok p else Err (ServerError [286%Z]));
  Next e p :=
    let e' := mem_poll e p in
    match m_history e' !! p with
    | Some WDrop => (e', p, None)
    | Some w => (e', S p, Some (mem_event (m_history e') w))
    | None => (mem_cancel e', p, None)
    end;
  cs_Err _ := None;
  ResumeToken p := Some p;
  ctx_Err e := if m_cancelled e then Some (CtxErr "context canceled") else None;
  chan_select e _ := (e, negb (m_cancelled e)) |}.

Lemma mem_poll_mono e p : m_history e `prefix_of` m_history (mem_poll e p).
Proof. unfold mem_poll. destruct (_ !! _), (m_pending e); try done. by apply prefix_app_r. Qed.

Lemma mem_event_for h p w : h !! p = Some w → w ≠ WDrop → event_for w (mem_event h w) (S p) h.
Proof.
  intros Hw Hd. apply lookup_lt_Some in Hw. destruct w; simpl; try done. split; [done|].
  exists (length h). split; [lia|]. by rewrite firstn_all.
Qed.

Lemma mem_feed_laws : ChangeFeedLaws mem nat nat nat m_history id id id.
Proof.
  split.
  - intros e e' r [= <- _]. done.
  - intros e st e' r [= <- _]. done.
  - intros e p e' p' r. simpl. pose proof (mem_poll_mono e p) as Hm.
    destruct (m_history (mem_poll e p) !! p) as [[]|]; intros [= <- _ _]; done.
  - intros e c e' b [= <- _]. done.
  - intros e e' t [= <- <-]. done.
  - intros e st e' p [= _ Hp]. case_decide; simplify_eq. by destruct st.
  - intros p t [= ->]. done.
  - intros e p e' p' raw. simpl. destruct (m_history (mem_poll e p) !! p) as [w|] eqn:Hw; [|done].
    intros Hn. assert (w ≠ WDrop) as Hd by (by intros ->).
    assert (e' = mem_poll e p ∧ p' = S p ∧ raw = mem_event (m_history (mem_poll e p)) w) as (-> & -> & ->)
      by (destruct w; by simplify_eq). split; [done|]. exists w. split; [done|]. by apply mem_event_for.
  - intros e c e' [= -> Hc]. simpl. by destruct (m_cancelled e').
Qed.

(** Two filters in the collection; while the stream is followed one is
    soft-deleted, one hard-deleted and a third inserted. *)
Definition feed_env : mem :=
  let e := mem_two in
  let e1 := (Upsert 50 doc_v2 (HardDelete "audit" (SoftDelete 40 "orders" e).1).1).1 in
  mkMem (m_history e) [drop 2 (m_history e1)] 0 false.

Definition feed_start : cstate mem nat nat := mkSt newCDC [] feed_env.
Definition feed_run : cstate mem nat nat * run_result := Run elements 3 feed_start.

Example feed_changes :
  (fun c => (ch_Op c, ch_Name c)) <$> s_sent feed_run.1 =
  [(ChangeOpUpsert, "audit"); (ChangeOpUpsert, "orders"); (ChangeOpReady, "");
   (ChangeOpUpsert, "orders"); (ChangeOpDelete, "audit"); (ChangeOpUpsert, "orders")].
Proof. vm_compute. reflexivity. Qed.

Lemma feed_reach : cdc_reach (history := m_history) elements feed_start.
Proof. constructor. Qed.

Lemma feed_run_eq : Run elements 3 feed_start = (feed_run.1, feed_run.2).
Proof. apply surjective_pairing. Qed.

Lemma feed_run_end : feed_run.2 = Running 5.
Proof. vm_compute. reflexivity. Qed.

Lemma feed_run_length : length (m_history (s_env feed_run.1)) = 5.
Proof. vm_compute. reflexivity. Qed.

Lemma feed_range (X : gset string) : elements X ≡ₚ elements X.
Proof. done. Qed.

Lemma feed_named : named (m_history (s_env feed_run.1)).
Proof.
  split; [|vm_compute; intros Hin; by repeat (apply elem_of_cons in Hin as [?|Hin]; [done|]); apply elem_of_nil in Hin].
  change (good_history (m_history mem_two ++ drop 2 (m_history (s_env feed_run.1)))).
  apply Forall_app. split; [exact mem_two_good|].
  apply Forall_cons. split; [|apply Forall_cons; split; [done|apply Forall_cons; split; [|constructor]]].
  - exists (mkDoc "orders" "nats.orders" None "type = 'order'" 10 40 (Some 40%Z)). split; [|done]. split; vm_compute; auto.
  - exists (mkDoc "orders" "nats.orders" (Some {["team" := "a"]}) "type LIKE 'order.*'" 10 50 None).
    split; [|done]. split; vm_compute; auto.
Qed.

Lemma cdc_keeps_set_exact_witness :
  feed_run.2 = Running 5 ∧ length (m_history (s_env feed_run.1)) = 5 ∧
  view (s_sent feed_run.1) = active (replay (m_history (s_env feed_run.1))).
Proof.
  split; [exact feed_run_end|]. split; [exact feed_run_length|].
  destruct (cdc_keeps_set_exact (BL := mem_bson_laws) (DL := mem_collection_laws) (FL := mem_feed_laws) elements feed_range
    feed_start 3 feed_run.1 feed_run.2 feed_reach feed_run_eq feed_named) as (_ & _ & _ & Hexact).
  apply (Hexact 5 feed_run_end). symmetry. exact feed_run_length.
Defined.

Lemma feed_pre_sent : s_sent feed_run.1 = take 2 (s_sent feed_run.1) ++ ready :: drop 3 (s_sent feed_run.1).
Proof. vm_compute. reflexivity. Qed.

Lemma feed_pre_not_ready : Forall not_ready (take 2 (s_sent feed_run.1)).
Proof. vm_compute. by repeat constructor. Qed.

Lemma cdc_ready_after_snapshot_witness :
  s_sent feed_run.1 = take 2 (s_sent feed_run.1) ++ ready :: drop 3 (s_sent feed_run.1) ∧
  ∃ h0, m_history feed_env `prefix_of` h0 ∧ h0 `prefix_of` m_history (s_env feed_run.1) ∧
    ∀ n, untouched n (length (m_history feed_env)) h0 →
         view ([] ++ take 2 (s_sent feed_run.1)) !! n = active (replay h0) !! n.
Proof.
  split; [exact feed_pre_sent|].
  exact (cdc_ready_after_snapshot (BL := mem_bson_laws) (DL := mem_collection_laws) (FL := mem_feed_laws) elements feed_range
    feed_start 3 feed_run.1 feed_run.2 (take 2 (s_sent feed_run.1)) (drop 3 (s_sent feed_run.1))
    feed_reach eq_refl feed_run_eq feed_named feed_pre_sent feed_pre_not_ready).
Defined.

Lemma feed_parses : Forall parses (s_sent feed_run.1).
Proof.
  assert (forallb (fun c => match ch_Doc c with Some doc => match Parse (doc_Expr doc) with Ok _ => true | Err _ => false end
    | None => true end) (s_sent feed_run.1) = true) as Hb by (vm_compute; reflexivity).
  apply forallb_Forall in Hb. eapply Forall_impl; [exact Hb|]. intros c Hc. cbv beta in Hc. unfold parses.
  destruct (ch_Doc c) as [doc|]; [|done]. destruct (Parse (doc_Expr doc)) as [p|] eqn:E; [by exists p|discriminate Hc].
Qed.

Lemma routing_follows_collection_witness :
  let gate := foldl if_step (empty_index 0 false) (s_sent feed_run.1 ≫= gate_ops) in
  (Indexed_MatchEndpoints gate {["type" := "order.created"]}).1 = ["nats.orders"] ∧
  (Indexed_MatchAny gate {["type" := "order.created"]} = true ↔
   ∃ doc, accepts (active (replay (m_history (s_env feed_run.1)))) {["type" := "order.created"]} doc).
Proof.
  intros gate. split; [vm_compute; reflexivity|].
  assert (Run elements 3 feed_start = (feed_run.1, Running 5)) as Hr by (rewrite <- feed_run_end; exact feed_run_eq).
  assert (id 5 = length (m_history (s_env feed_run.1))) as Hend by (symmetry; exact feed_run_length).
  destruct (routing_follows_collection (BL := mem_bson_laws) (DL := mem_collection_laws) (FL := mem_feed_laws) elements
    feed_range feed_start 3 feed_run.1 5 0 false {["type" := "order.created"]} feed_reach Hr feed_named Hend feed_parses)
    as [Hany _].
  exact Hany.
Defined.

(** A reconnect whose position fell off the oplog: the next [Run] takes a new
    snapshot and takes back the filter that was deleted meanwhile. *)
Example lost_position_reconciles :
  let s1 := (Run elements 10 feed_start).1 in
  let e2 := (HardDelete "orders" (s_env s1)).1 in
  let s2 := (Run elements 0 (with_env s1 (mkMem (m_history e2) [] 6 false))).1 in
  running (s_cdc s1) = false ∧
  (fun c => (ch_Op c, ch_Name c)) <$> drop 6 (s_sent s2) = [(ChangeOpDelete, "orders"); (ChangeOpReady, "")] ∧
  live (s_cdc s2) = ∅.
Proof. vm_compute. done. Qed.

(** A hard delete of the filter with the empty name is taken for a broken event
    and skipped: the caller keeps the filter ([named] excludes it). *)
Example empty_name_delete_skipped :
  decodeEvent (mem_event [] (WDelete "")) = Err (OtherErr "documentKey._id empty in delete event").
Proof. reflexivity. Qed.
