(* ===== verification/KeyCrypt.v ===== *)
(** * Encrypted private keys ([utils/pkcs8enc], [utils/ecdsa],
      [services/keymaterial]'s [DecryptPEM])

    Private keys are kept in PEM files, encrypted as PKCS#8 (PBES2) or in OpenSSL's
    legacy PEM form; both encrypt with AES-256 in CBC mode and PKCS#7 padding.
    Slicing, indexing and the CBC code panic on what they do not accept, so a
    computation is an [outcome]: a value, an error, or a panic.

    The AES block transformation, MD5, PBKDF2, ASN.1, PEM armor and [crypto/x509]
    are parameters, each a class with its documented laws; CBC chaining, padding,
    hexadecimal and all checks are written out.  Bytes are numbers, and
    [byte_list] says they are below 256.  [rand_Read n] is the result of the
    [n]-th call of [rand.Read], as an unbounded supply of bytes. *)
From Stdlib Require Import Ascii.
From stdpp Require Import pretty.
From S2P Require Import Prelude GoText Claims Request.
From stdpp Require Import options.

Abbreviation bytes := (list N).
Definition byte_list (bs : bytes) : Prop := Forall (fun b => b < 256)%N bs.

(** ** Slices: Go's bounds checks. *)
Definition go_index {A} (l : list A) (i : Z) : outcome A :=
  if decide (0 <= i)%Z then match l !! Z.to_nat i with Some x => Reply x | None => Panicked end else Panicked.

(** [l[i:]] and [l[:i]]. *)
Definition slice_from {A} (l : list A) (i : Z) : outcome (list A) :=
  if decide (0 <= i <= Z.of_nat (length l))%Z then Reply (drop (Z.to_nat i) l) else Panicked.
Definition slice_to {A} (l : list A) (i : Z) : outcome (list A) :=
  if decide (0 <= i <= Z.of_nat (length l))%Z then Reply (take (Z.to_nat i) l) else Panicked.

Definition Zlen {A} (l : list A) : Z := Z.of_nat (length l).

(** ** PEM blocks *)
Record Block := mkBlock { b_Type : string; b_Headers : gmap string string; b_Bytes : bytes }.

Class Pem := {
  pem_Decode : bytes → option (Block * bytes);
  pem_Encode : Block → option bytes }.      (* [None]: a header key contains a colon *)

(** [pem.EncodeToMemory]: nil when the block cannot be encoded. *)
Definition EncodeToMemory `{Pem} (b : Block) : bytes := default [] (pem_Encode b).

(** Types and headers that armor carries unchanged. *)
Definition armor_char (c : ascii) : bool :=
  let n := N_of_ascii c in
  between 65 90 n || between 97 122 n || between 48 57 n || (n =? 45)%N || (n =? 44)%N.
Definition type_char (c : ascii) : bool := let n := N_of_ascii c in between 65 90 n || between 48 57 n || (n =? 32)%N.
Fixpoint all_chars (f : ascii → bool) (s : string) : bool :=
  match s with EmptyString => true | String c s' => f c && all_chars f s' end.
Definition armored (b : Block) : Prop :=
  all_chars type_char (b_Type b) = true ∧ b_Type b ≠ "" ∧ byte_list (b_Bytes b) ∧
  ∀ k v, b_Headers b !! k = Some v → all_chars armor_char k = true ∧ all_chars armor_char v = true ∧ k ≠ "".

Class PemLaws `{Pem} := {
  pem_roundtrip b : armored b → ∃ out, pem_Encode b = Some out ∧ byte_list out ∧ pem_Decode out = Some (b, []) }.

(** ** AES in CBC mode *)
Definition BlockSize : nat := 16.

Class Aes := { aes_encrypt : bytes → bytes → bytes; aes_decrypt : bytes → bytes → bytes }.

Class AesLaws `{Aes} := {
  aes_inverse key b : length b = BlockSize → byte_list b → aes_decrypt key (aes_encrypt key b) = b;
  aes_encrypt_block key b : length b = BlockSize → byte_list b →
    length (aes_encrypt key b) = BlockSize ∧ byte_list (aes_encrypt key b);
  aes_decrypt_block key b : length b = BlockSize → length (aes_decrypt key b) = BlockSize }.

(** [aes.NewCipher]. *)
Definition NewCipher (key : bytes) : outcome bytes :=
  if decide (length key ∈ [16; 24; 32]) then Reply key
  else Fail (PlainErr ("crypto/aes: invalid key size " +:+ pretty (N.of_nat (length key)))).

Definition xor_bytes (a b : bytes) : bytes := zip_with N.lxor a b.

Section cbc.
Context `{Aes}.

Fixpoint cbc_encrypt (n : nat) (key iv src : bytes) : bytes :=
  match n with
  | O => []
  | S n' => let c := aes_encrypt key (xor_bytes (take BlockSize src) iv) in
            c ++ cbc_encrypt n' key c (drop BlockSize src)
  end.

Fixpoint cbc_decrypt (n : nat) (key iv src : bytes) : bytes :=
  match n with
  | O => []
  | S n' => let c := take BlockSize src in
            xor_bytes (aes_decrypt key c) iv ++ cbc_decrypt n' key c (drop BlockSize src)
  end.

(** [cipher.NewCBCEncrypter(c, iv).CryptBlocks(dst, src)]: panics on a wrong IV
    length and on an input that is not whole blocks. *)
Definition CryptBlocks (blocks : nat → bytes → bytes → bytes → bytes) (key iv src : bytes) : outcome bytes :=
  if decide (length iv = BlockSize ∧ length src `mod` BlockSize = 0)
  then Reply (blocks (length src `div` BlockSize) key iv src) else Panicked.
End cbc.

(** [bytes.Repeat([]byte{byte(n)}, n)]. *)
Definition Repeat_byte (n : nat) : bytes := replicate n (N.of_nat n `mod` 256)%N.

(** ** Hexadecimal *)
Inductive hex_err := InvalidByteError (b : N) | ErrLength.

Fixpoint hex_Decode (s : string) : result hex_err bytes :=
  match s with
  | EmptyString => Ok []
  | String a EmptyString =>
      match fromHexChar (N_of_ascii a) with None => Err (InvalidByteError (N_of_ascii a)) | Some _ => Err ErrLength end
  | String a (String b s') =>
      match fromHexChar (N_of_ascii a), fromHexChar (N_of_ascii b) with
      | None, _ => Err (InvalidByteError (N_of_ascii a))
      | _, None => Err (InvalidByteError (N_of_ascii b))
      | Some x, Some y => bs ← hex_Decode s'; Ok ((16 * x + y)%N :: bs)
      end
  end.

(** [fmt]'s [%#U] on a byte. *)
Definition fmt_U `{UnicodeTables} (b : N) : string :=
  "U+00" +:+ string_of_runes [upper_hex (b / 16); upper_hex (b mod 16)]%N +:+
  (if IsPrint b then " " +:+ string_of_runes [rApostrophe; b; rApostrophe] else "").

Definition hex_err_Error `{UnicodeTables} (e : hex_err) : string :=
  match e with
  | InvalidByteError b => "encoding/hex: invalid byte: " +:+ fmt_U b
  | ErrLength => "encoding/hex: odd length hex string"
  end.

Definition hex_DecodeString `{UnicodeTables} (s : string) : outcome bytes :=
  match hex_Decode s with Ok bs => Reply bs | Err e => Fail (PlainErr (hex_err_Error e)) end.

(** ** ASN.1: the [Parameters] of an algorithm are kept in encoded form. *)
Class Asn1 (A : Type) := {
  asn1_Marshal : A → result error bytes;
  asn1_Unmarshal : bytes → result error (A * bytes) }.

(** [der]: one complete encoded element; [ok]: what the type can carry. *)
Class Asn1Laws (der : bytes → Prop) (A : Type) `{Asn1 A} (ok : A → Prop) :=
  asn1_roundtrip a b : ok a → asn1_Marshal a = Ok b → der b ∧ byte_list b ∧ asn1_Unmarshal b = Ok (a, []).

Abbreviation ObjectIdentifier := (list N).
Record AlgorithmIdentifier := mkAlg { Algorithm : ObjectIdentifier; Parameters : bytes }.

Definition NullRawValue : bytes := [5; 0]%N.

(** What [asn1.Marshal] accepts as an object identifier. *)
Definition valid_oid (oid : ObjectIdentifier) : bool :=
  match oid with
  | a :: b :: _ => (a <=? 2)%N && ((a =? 2)%N || (b <? 40)%N)
  | _ => false
  end.

(** ** [utils/pkcs8enc/pkcs8enc.go] *)
Definition PEMType : string := "ENCRYPTED PRIVATE KEY".
Definition Iterations : Z := 600000.
Definition maxIterations : Z := 10000000.

Definition oidPBES2 : ObjectIdentifier := [1; 2; 840; 113549; 1; 5; 13]%N.
Definition oidPBKDF2 : ObjectIdentifier := [1; 2; 840; 113549; 1; 5; 12]%N.
Definition oidHMACSHA256 : ObjectIdentifier := [1; 2; 840; 113549; 2; 9]%N.
Definition oidAES256CBC : ObjectIdentifier := [2; 16; 840; 1; 101; 3; 4; 1; 42]%N.

Record encryptedPrivateKeyInfo := mkInfo { info_Algorithm : AlgorithmIdentifier; EncryptedData : bytes }.
Record pbes2Params := mkPbes2 { KeyDerivationFunc : AlgorithmIdentifier; EncryptionScheme : AlgorithmIdentifier }.
Record pbkdf2Params := mkPbkdf2 { Salt : bytes; IterationCount : Z; KeyLength : Z; PRF : AlgorithmIdentifier }.

Inductive hash_func := SHA1 | SHA256.

(** [pbkdf2.Key(hash, password, salt, iterations, keyLength)]. *)
Class Pbkdf2 := pbkdf2_Key : hash_func → string → bytes → Z → nat → result error bytes.
Class Pbkdf2Laws `{Pbkdf2} :=
  pbkdf2_length h pw salt n k key : pbkdf2_Key h pw salt n k = Ok key → length key = k.

Section pkcs8enc.
Context `{UT : UnicodeTables} `{HAes : Aes} `{HKdf : Pbkdf2}.
Context `{A1 : Asn1 encryptedPrivateKeyInfo} `{A2 : Asn1 pbes2Params} `{A3 : Asn1 pbkdf2Params} `{A4 : Asn1 bytes}.

(** A buffer of [len] random bytes. *)
Definition read_rand (r : option (nat → ascii)) (len : nat) : outcome bytes :=
  match r with
  | Some f => Reply ((fun i => N_of_ascii (f i)) <$> seq 0 len)
  | None => Fail (PlainErr "rand: read failed")
  end.

Definition pkcs7_pad (data : bytes) : bytes :=
  let padLen := BlockSize - length data `mod` BlockSize in
  data ++ Repeat_byte padLen.

Definition pkcs8_Encrypt (rand_Read : nat → option (nat → ascii)) (pkcs8DER : bytes) (password : string) : outcome Block :=
  if decide (password = "") then Fail (PlainErr "pkcs8enc: empty password")
  else
    salt ← read_rand (rand_Read 0) 16;
    iv ← read_rand (rand_Read 1) BlockSize;
    key ← of_result (pbkdf2_Key SHA256 password salt Iterations 32);
    let padded := pkcs7_pad pkcs8DER in
    blockCipher ← NewCipher key;
    encrypted ← CryptBlocks cbc_encrypt blockCipher iv padded;
    kdfParams ← of_result (asn1_Marshal (mkPbkdf2 salt Iterations 0 (mkAlg oidHMACSHA256 NullRawValue)));
    ivParam ← of_result (asn1_Marshal iv);
    schemeParams ← of_result (asn1_Marshal (mkPbes2 (mkAlg oidPBKDF2 kdfParams) (mkAlg oidAES256CBC ivParam)));
    der ← of_result (asn1_Marshal (mkInfo (mkAlg oidPBES2 schemeParams) encrypted));
    Reply (mkBlock PEMType ∅ der).

(** [%v] of an object identifier. *)
Definition oid_String (oid : ObjectIdentifier) : string := strings_Join ((fun n => pretty n) <$> oid) ".".

(** The last [if] of [Decrypt]; the slice is taken only when the first two tests fail. *)
Definition pkcs8_unpad (decrypted : bytes) : outcome bytes :=
  let failed := Fail (PlainErr "pkcs8enc: decryption failed (wrong password?)") in
  last ← go_index decrypted (Zlen decrypted - 1);
  let padLen := N.to_nat last in
  if decide (padLen = 0) then failed
  else if decide (BlockSize < padLen) then failed
  else
    tail ← slice_from decrypted (Zlen decrypted - Z.of_nat padLen);
    if decide (tail ≠ Repeat_byte padLen) then failed
    else slice_to decrypted (Zlen decrypted - Z.of_nat padLen).

Definition pkcs8_Decrypt (block : Block) (password : string) : outcome bytes :=
  if decide (b_Type block ≠ PEMType) then
    Fail (PlainErr ("pkcs8enc: PEM type " +:+ Quote (b_Type block) +:+ ", want " +:+ Quote PEMType))
  else
  match asn1_Unmarshal (A := encryptedPrivateKeyInfo) (b_Bytes block) with
  | Ok (info, []) =>
    if decide (Algorithm (info_Algorithm info) ≠ oidPBES2) then
      Fail (PlainErr ("pkcs8enc: unsupported encryption algorithm " +:+ oid_String (Algorithm (info_Algorithm info))))
    else
    match asn1_Unmarshal (A := pbes2Params) (Parameters (info_Algorithm info)) with
    | Err _ => Fail (PlainErr "pkcs8enc: malformed PBES2 parameters")
    | Ok (scheme, _) =>
      if decide (Algorithm (KeyDerivationFunc scheme) ≠ oidPBKDF2) then
        Fail (PlainErr ("pkcs8enc: unsupported key derivation " +:+ oid_String (Algorithm (KeyDerivationFunc scheme))))
      else
      match asn1_Unmarshal (A := pbkdf2Params) (Parameters (KeyDerivationFunc scheme)) with
      | Err _ => Fail (PlainErr "pkcs8enc: malformed PBKDF2 parameters")
      | Ok (kdf, _) =>
        if decide (IterationCount kdf < 1 ∨ maxIterations < IterationCount kdf)%Z then
          Fail (PlainErr ("pkcs8enc: PBKDF2 iteration count " +:+ pretty (IterationCount kdf) +:+ " out of range"))
        else if decide (Algorithm (EncryptionScheme scheme) ≠ oidAES256CBC) then
          Fail (PlainErr ("pkcs8enc: unsupported cipher " +:+ oid_String (Algorithm (EncryptionScheme scheme))))
        else
        iv ← match asn1_Unmarshal (A := bytes) (Parameters (EncryptionScheme scheme)) with
             | Ok (iv, _) => if decide (length iv = BlockSize) then Reply iv
                             else Fail (PlainErr "pkcs8enc: malformed AES-256-CBC IV")
             | Err _ => Fail (PlainErr "pkcs8enc: malformed AES-256-CBC IV")
             end;
        if decide (length (EncryptedData info) = 0 ∨ length (EncryptedData info) `mod` BlockSize ≠ 0) then
          Fail (PlainErr "pkcs8enc: encrypted data is not a whole number of AES blocks")
        else
        key ← (if decide (Algorithm (PRF kdf) = []) then
                 of_result (pbkdf2_Key SHA1 password (Salt kdf) (IterationCount kdf) 32)
               else if decide (Algorithm (PRF kdf) = oidHMACSHA256) then
                 of_result (pbkdf2_Key SHA256 password (Salt kdf) (IterationCount kdf) 32)
               else Fail (PlainErr ("pkcs8enc: unsupported PBKDF2 PRF " +:+ oid_String (Algorithm (PRF kdf)))));
        blockCipher ← NewCipher key;
        decrypted ← CryptBlocks cbc_decrypt blockCipher iv (EncryptedData info);
        pkcs8_unpad decrypted
      end
    end
  | _ => Fail (PlainErr "pkcs8enc: malformed EncryptedPrivateKeyInfo")
  end.
End pkcs8enc.

(** ** OpenSSL's legacy PEM encryption *)
Class Md5 := md5_Sum : bytes → bytes.
Class Md5Laws `{Md5} := md5_length bs : length (md5_Sum bs) = 16.

Section legacy.
Context `{UT : UnicodeTables} `{HAes : Aes} `{HMd5 : Md5} `{HPem : Pem}.

(** The [for len(result) < keyLen] loop; [keyLen] iterations are enough, each
    adding the bytes of a digest (see [generateKeyFromPassword_EVP]). *)
Fixpoint evp_loop (fuel : nat) (password salt : bytes) (keyLen : nat) (result : bytes) : bytes :=
  match fuel with
  | O => result
  | S fuel' =>
    if decide (length result < keyLen)
    then evp_loop fuel' password salt keyLen (result ++ md5_Sum (result ++ password ++ salt))
    else result
  end.

Definition generateKeyFromPassword (password salt : bytes) (keyLen : nat) : outcome bytes :=
  slice_to (evp_loop keyLen password salt keyLen (md5_Sum (password ++ salt))) (Z.of_nat keyLen).

(** [for i := 0; i < paddingLen; i++] over the bytes from the end. *)
Fixpoint check_padding (n i : nat) (decrypted : bytes) (paddingLen : nat) : outcome unit :=
  match n with
  | O => Reply tt
  | S n' =>
    b ← go_index decrypted (Zlen decrypted - 1 - Z.of_nat i);
    if decide (b ≠ N.of_nat paddingLen `mod` 256)%N
    then Fail (PlainErr ("invalid PKCS7 padding at byte " +:+ pretty (N.of_nat i)))
    else check_padding n' (S i) decrypted paddingLen
  end.

(** The padding removal of [DecryptPEM] and [DecryptPemBlock]. *)
Definition legacy_unpad (decrypted : bytes) : outcome bytes :=
  if decide (length decrypted = 0) then Fail (PlainErr "decrypted data is empty")
  else
    last ← go_index decrypted (Zlen decrypted - 1);
    let paddingLen := N.to_nat last in
    if decide (paddingLen = 0 ∨ BlockSize < paddingLen ∨ length decrypted < paddingLen) then
      Fail (PlainErr ("invalid PKCS7 padding length: " +:+ pretty (N.of_nat paddingLen)))
    else
      _ ← check_padding paddingLen 0 decrypted paddingLen;
      slice_to decrypted (Zlen decrypted - Z.of_nat paddingLen).

Definition cComma : ascii := ascii_of_N 44.

Definition header (b : Block) (k : string) : string := default "" (b_Headers b !! k).

(** [services/keymaterial/key-material.go], [DecryptPEM] after the PKCS#8 case. *)
Definition decrypt_legacy (encryptedPEM : bytes) (block : Block) (password : bytes) : outcome bytes :=
  if decide (header block "Proc-Type" ≠ "4,ENCRYPTED") then Reply encryptedPEM
  else
    match split_char cComma (header block "DEK-Info") with
    | [cipherType; ivHex] =>
      if decide (cipherType ≠ "AES-256-CBC") then Fail (PlainErr ("unsupported cipher: " +:+ cipherType))
      else
      iv ← wrap_error "invalid IV: " (hex_DecodeString ivHex);
      if decide (length iv ≠ BlockSize) then
        Fail (PlainErr ("invalid IV length: expected 16, got " +:+ pretty (N.of_nat (length iv))))
      else if decide (length (b_Bytes block) = 0 ∨ length (b_Bytes block) `mod` BlockSize ≠ 0) then
        Fail (PlainErr ("encrypted data length (" +:+ pretty (N.of_nat (length (b_Bytes block))) +:+
                        ") is not a multiple of AES block size (16)"))
      else
      salt ← slice_to iv 8;
      key ← generateKeyFromPassword password salt 32;
      block_cipher ← wrap_error "failed to create cipher: " (NewCipher key);
      decrypted ← CryptBlocks cbc_decrypt block_cipher iv (b_Bytes block);
      decrypted ← legacy_unpad decrypted;
      match pem_Encode (mkBlock (b_Type block) ∅ decrypted) with
      | Some out => Reply out
      | None => Fail (PlainErr "failed to encode decrypted key: pem: cannot encode a header key that contains a colon")
      end
    | _ => Fail (PlainErr "malformed DEK-Info header")
    end.

(** [utils/ecdsa/edcsa.go]. *)
Definition isEncryptedPEMBlock (b : Block) : bool :=
  match b_Headers b !! "Proc-Type" with
  | None => false
  | Some procType => strings_Contains procType "ENCRYPTED"
  end.

Definition EncryptPemBlock (rand : option (nat → ascii)) (block : Block) (password : string) : outcome Block :=
  if decide (password = "") then Reply block
  else
    iv ← wrap_error "failed to generate IV: " (read_rand rand BlockSize);
    salt ← slice_to iv 8;
    key ← generateKeyFromPassword (bytes_of_string password) salt 32;
    let padded := pkcs7_pad (b_Bytes block) in
    blockCipher ← wrap_error "failed to create cipher: " (NewCipher key);
    encrypted ← CryptBlocks cbc_encrypt blockCipher iv padded;
    Reply (mkBlock (b_Type block)
             (<["DEK-Info" := "AES-256-CBC," +:+ strings_ToUpper (hex_EncodeToString iv)]>
               (<["Proc-Type" := "4,ENCRYPTED"]> (b_Headers block)))
             encrypted).

Definition DecryptPemBlock (block : Block) (password : string) : outcome Block :=
  if isEncryptedPEMBlock block then
    match b_Headers block !! "DEK-Info" with
    | None => Fail (PlainErr "encrypted PEM block missing DEK-Info header")
    | Some dekInfo =>
      match splitn2_char cComma dekInfo with
      | [cipherName; ivHex] =>
        if decide (cipherName ≠ "AES-256-CBC") then Fail (PlainErr ("unsupported cipher: " +:+ cipherName))
        else
        iv ← wrap_error "invalid IV in DEK-Info: " (hex_DecodeString ivHex);
        if decide (length iv ≠ BlockSize) then
          Fail (PlainErr ("invalid IV length: expected 16, got " +:+ pretty (N.of_nat (length iv))))
        else if decide (length (b_Bytes block) = 0 ∨ length (b_Bytes block) `mod` BlockSize ≠ 0) then
          Fail (PlainErr ("encrypted data length " +:+ pretty (N.of_nat (length (b_Bytes block))) +:+
                          " is not a multiple of the AES block size"))
        else
        salt ← slice_to iv 8;
        key ← generateKeyFromPassword (bytes_of_string password) salt 32;
        blockCipher ← wrap_error "failed to create cipher: " (NewCipher key);
        decrypted ← CryptBlocks cbc_decrypt blockCipher iv (b_Bytes block);
        decrypted ← legacy_unpad decrypted;
        Reply (mkBlock (b_Type block) (delete "DEK-Info" (delete "Proc-Type" (b_Headers block))) decrypted)
      | _ => Fail (PlainErr "malformed DEK-Info header")
      end
    end
  else Reply block.
End legacy.

(** What [x509.ParsePKCS8PrivateKey] and [ParsePKIXPublicKey] return, by dynamic type. *)
Inductive any_key (K : Type) := EcdsaKey (k : K) | OtherKey (go_type : string).
Arguments EcdsaKey {K}. Arguments OtherKey {K}.

Class X509 (Priv Pub : Type) := {
  PublicKey : Priv → Pub;
  MarshalPKCS8PrivateKey : Priv → result error bytes;
  ParsePKCS8PrivateKey : bytes → result error (any_key Priv);
  MarshalECPrivateKey : Priv → result error bytes;
  ParseECPrivateKey : bytes → result error Priv;
  MarshalPKIXPublicKey : Pub → result error bytes;
  ParsePKIXPublicKey : bytes → result error (any_key Pub) }.

Class X509Laws (Priv Pub : Type) `{X509 Priv Pub} := {
  pkcs8_roundtrip k der : MarshalPKCS8PrivateKey k = Ok der →
    byte_list der ∧ ParsePKCS8PrivateKey der = Ok (EcdsaKey k);
  ec_roundtrip k der : MarshalECPrivateKey k = Ok der → byte_list der ∧ ParseECPrivateKey der = Ok k;
  pkix_roundtrip p der : MarshalPKIXPublicKey p = Ok der → byte_list der ∧ ParsePKIXPublicKey der = Ok (EcdsaKey p) }.

Section keys.
Context `{UT : UnicodeTables} `{HAes : Aes} `{HKdf : Pbkdf2} `{HMd5 : Md5} `{HPem : Pem}.
Context `{A1 : Asn1 encryptedPrivateKeyInfo} `{A2 : Asn1 pbes2Params} `{A3 : Asn1 pbkdf2Params} `{A4 : Asn1 bytes}.
Context {Priv Pub : Type} `{HX : X509 Priv Pub}.

(** [services/keymaterial/key-material.go]. *)
Definition DecryptPEM (encryptedPEM password : bytes) : outcome bytes :=
  match pem_Decode encryptedPEM with
  | None => Fail (PlainErr "failed to decode PEM block")
  | Some (block, _) =>
    if decide (b_Type block = PEMType) then
      der ← wrap_error "failed to decrypt signing key: " (pkcs8_Decrypt block (string_of_bytes password));
      Reply (EncodeToMemory (mkBlock "PRIVATE KEY" ∅ der))
    else decrypt_legacy encryptedPEM block password
  end.

(** [utils/ecdsa/edcsa.go]. *)
Definition parsePrivateBlock (block : Block) (password : string) : outcome Priv :=
  if decide (b_Type block = PEMType) then
    der ← wrap_error "ecdsa: " (pkcs8_Decrypt block password);
    key ← wrap_error "ecdsa: failed to parse PKCS#8 private key: " (of_result (ParsePKCS8PrivateKey der));
    match key with
    | EcdsaKey ecKey => Reply ecKey
    | OtherKey T => Fail (PlainErr ("ecdsa: private key is " +:+ T +:+ ", not ECDSA"))
    end
  else
    block ← (if decide (password = "") then Reply block else DecryptPemBlock block password);
    wrap_error "ecdsa: failed to parse EC private key: " (of_result (ParseECPrivateKey (b_Bytes block))).

Definition DecodePrivatePem (password pemEncoded : string) : outcome (Priv * Pub) :=
  match pem_Decode (bytes_of_string pemEncoded) with
  | None => Fail (PlainErr "ecdsa: failed to decode PEM block")
  | Some (block, _) => privateKey ← parsePrivateBlock block password; Reply (privateKey, PublicKey privateKey)
  end.

Definition ecdsa_decode (password pemEncoded pemEncodedPub : string) : outcome (Priv * Pub) :=
  match pem_Decode (bytes_of_string pemEncoded) with
  | None => Fail (PlainErr "ecdsa: failed to decode private PEM block")
  | Some (block, _) =>
    privateKey ← parsePrivateBlock block password;
    match pem_Decode (bytes_of_string pemEncodedPub) with
    | None => Fail (PlainErr "ecdsa: failed to decode public PEM block")
    | Some (blockPub, _) =>
      genericPublicKey ← wrap_error "ecdsa: failed to parse public key: " (of_result (ParsePKIXPublicKey (b_Bytes blockPub)));
      match genericPublicKey with
      | EcdsaKey publicKey => Reply (privateKey, publicKey)
      | OtherKey _ => Fail (PlainErr "ecdsa: public key is not an ECDSA key")
      end
    end
  end.

Definition ecdsa_Encode (rand_Read : nat → option (nat → ascii)) (password : string) (privateKey : Priv) (publicKey : Pub)
  : outcome (string * string) :=
  block ← (if decide (password = "") then
             x509Encoded ← of_result (MarshalECPrivateKey privateKey);
             Reply (mkBlock "EC PRIVATE KEY" ∅ x509Encoded)
           else
             pkcs8DER ← of_result (MarshalPKCS8PrivateKey privateKey);
             pkcs8_Encrypt rand_Read pkcs8DER password);
  let pemEncoded := EncodeToMemory block in
  x509EncodedPub ← of_result (MarshalPKIXPublicKey publicKey);
  let pemEncodedPub := EncodeToMemory (mkBlock "EC  PUBLIC KEY" ∅ x509EncodedPub) in
  Reply (string_of_bytes pemEncoded, string_of_bytes pemEncodedPub).

(** [GenerateKey] is [ecdsa.GenerateKey] on P-256. *)
Definition GenerateECDSAPublicPrivateKeySet (GenerateKey : result error Priv)
    (rand_Read : nat → option (nat → ascii)) (password : string) : outcome (Priv * string * string) :=
  privateKey ← of_result GenerateKey;
  '(privateEncoded, publicEncoded) ← ecdsa_Encode rand_Read password privateKey (PublicKey privateKey);
  Reply (privateKey, privateEncoded, publicEncoded).
End keys.

(** ** CBC and padding *)

Lemma Zlen_app {A} (l l' : list A) : Zlen (l ++ l') = (Zlen l + Zlen l')%Z.
Proof. unfold Zlen. rewrite length_app. lia. Qed.

Lemma lxor_byte a b : (a < 256 → b < 256 → N.lxor a b < 256)%N.
Proof.
  intros Ha Hb. destruct (decide (N.lxor a b = 0%N)) as [->|Hn]; [lia|].
  change 256%N with (2 ^ 8)%N. apply N.log2_lt_pow2; [lia|].
  assert (Hlog : ∀ x, (x < 256)%N → (N.log2 x < 8)%N).
  { intros x Hx. destruct (decide (x = 0%N)) as [->|]; [done|]. apply N.log2_lt_pow2; [lia|]. exact Hx. }
  pose proof (N.log2_lxor a b). pose proof (Hlog a Ha). pose proof (Hlog b Hb). lia.
Qed.

Lemma xor_bytes_length a b : length b = length a → length (xor_bytes a b) = length a.
Proof. intros Hl. unfold xor_bytes. rewrite length_zip_with. lia. Qed.

Lemma xor_bytes_byte a b : byte_list a → byte_list b → byte_list (xor_bytes a b).
Proof.
  intros Ha. revert b. induction Ha as [|x a Hx Ha IH]; intros [|y b] Hb; try constructor.
  - apply Forall_cons in Hb as [Hy _]. by apply lxor_byte.
  - apply Forall_cons in Hb as [_ Hb]. by apply IH.
Qed.

Lemma xor_bytes_cancel a b : length b = length a → xor_bytes (xor_bytes a b) b = a.
Proof.
  revert b. induction a as [|x a IH]; intros [|y b] Hl; simpl in *; try done.
  unfold xor_bytes in *. simpl. rewrite N.lxor_assoc, N.lxor_nilpotent, N.lxor_0_r. f_equal. apply IH. lia.
Qed.

Lemma byte_take n l : byte_list l → byte_list (take n l).
Proof. apply Forall_take. Qed.
Lemma byte_drop n l : byte_list l → byte_list (drop n l).
Proof. apply Forall_drop. Qed.
#[export] Hint Resolve byte_take byte_drop xor_bytes_byte : fluffy.

Section cbc_laws.
Context `{HA : AesLaws}.

Lemma cbc_encrypt_length n key iv src :
  length iv = BlockSize → byte_list iv → byte_list src → length src = n * BlockSize →
  length (cbc_encrypt n key iv src) = n * BlockSize.
Proof using HA.
  revert iv src. induction n as [|n IH]; intros iv src Hiv Hbi Hbs Hl; simpl; [done|].
  assert (Ht : length (take BlockSize src) = BlockSize) by (rewrite length_take; lia).
  destruct (aes_encrypt_block key (xor_bytes (take BlockSize src) iv)) as [Hc Hcb].
  { by rewrite xor_bytes_length, Ht; [|rewrite Ht]. } { auto with fluffy. }
  rewrite length_app, IH, Hc; auto with fluffy. rewrite length_drop. lia.
Qed.

Lemma cbc_encrypt_byte n key iv src :
  length iv = BlockSize → byte_list iv → byte_list src → length src = n * BlockSize →
  byte_list (cbc_encrypt n key iv src).
Proof using HA.
  revert iv src. induction n as [|n IH]; intros iv src Hiv Hbi Hbs Hl; simpl; [constructor|].
  assert (Ht : length (take BlockSize src) = BlockSize) by (rewrite length_take; lia).
  destruct (aes_encrypt_block key (xor_bytes (take BlockSize src) iv)) as [Hc Hcb].
  { by rewrite xor_bytes_length, Ht; [|rewrite Ht]. } { auto with fluffy. }
  apply Forall_app_2; [done|]. apply IH; auto with fluffy. rewrite length_drop. lia.
Qed.

(** Decryption undoes encryption, block by block. *)
Lemma cbc_inverse n key iv src :
  length iv = BlockSize → byte_list iv → byte_list src → length src = n * BlockSize →
  cbc_decrypt n key iv (cbc_encrypt n key iv src) = src.
Proof using HA.
  revert iv src. induction n as [|n IH]; intros iv src Hiv Hbi Hbs Hl.
  { destruct src; [done|simpl in Hl; lia]. }
  cbn [cbc_encrypt cbc_decrypt].
  assert (Ht : length (take BlockSize src) = BlockSize) by (rewrite length_take; lia).
  set (x := xor_bytes (take BlockSize src) iv).
  assert (Hx : length x = BlockSize) by (unfold x; by rewrite xor_bytes_length, Ht; [|rewrite Ht]).
  assert (Hxb : byte_list x) by (unfold x; auto with fluffy).
  destruct (aes_encrypt_block key x Hx Hxb) as [Hc Hcb].
  rewrite take_app_length', drop_app_length' by done.
  rewrite aes_inverse by done. unfold x at 1. rewrite xor_bytes_cancel by lia.
  rewrite IH; [by rewrite take_drop|done|done|auto with fluffy|rewrite length_drop; lia].
Qed.

Lemma cbc_decrypt_length n key iv src :
  length iv = BlockSize → length src = n * BlockSize → length (cbc_decrypt n key iv src) = n * BlockSize.
Proof using HA.
  revert iv src. induction n as [|n IH]; intros iv src Hiv Hl; simpl; [done|].
  assert (Ht : length (take BlockSize src) = BlockSize) by (rewrite length_take; lia).
  rewrite length_app, IH by (rewrite ?length_drop; lia).
  by rewrite xor_bytes_length; rewrite aes_decrypt_block.
Qed.
End cbc_laws.

Lemma CryptBlocks_Reply f key iv src out :
  CryptBlocks f key iv src = Reply out ↔
  length iv = BlockSize ∧ length src `mod` BlockSize = 0 ∧ out = f (length src `div` BlockSize) key iv src.
Proof. unfold CryptBlocks. case_decide; naive_solver. Qed.

Lemma whole_blocks (n : nat) : n `mod` BlockSize = 0 → n = n `div` BlockSize * BlockSize.
Proof. intros Hm. pose proof (Nat.div_mod_eq n BlockSize). lia. Qed.

Definition padding (n : nat) : nat := BlockSize - n `mod` BlockSize.

Lemma padding_bounds n : 1 <= padding n <= BlockSize.
Proof. unfold padding, BlockSize. pose proof (Nat.mod_upper_bound n 16). lia. Qed.

Lemma Repeat_byte_small n : n <= BlockSize → Repeat_byte n = replicate n (N.of_nat n).
Proof. intros Hn. unfold Repeat_byte. rewrite N.mod_small; [done|]. unfold BlockSize in Hn. lia. Qed.

Lemma pkcs7_pad_eq data : pkcs7_pad data = data ++ replicate (padding (length data)) (N.of_nat (padding (length data))).
Proof. unfold pkcs7_pad. fold (padding (length data)). rewrite Repeat_byte_small; [done|]. apply padding_bounds. Qed.

Lemma pkcs7_pad_length data : length (pkcs7_pad data) = S (length data `div` BlockSize) * BlockSize.
Proof.
  rewrite pkcs7_pad_eq, length_app, length_replicate. unfold padding.
  pose proof (Nat.div_mod_eq (length data) BlockSize). pose proof (Nat.mod_upper_bound (length data) BlockSize).
  unfold BlockSize in *. lia.
Qed.

Lemma pkcs7_pad_byte data : byte_list data → byte_list (pkcs7_pad data).
Proof.
  intros Hd. rewrite pkcs7_pad_eq. apply Forall_app_2; [done|]. apply Forall_replicate.
  pose proof (padding_bounds (length data)). unfold BlockSize in *. lia.
Qed.

Lemma go_index_lookup {A} (l : list A) i x : l !! i = Some x → go_index l (Z.of_nat i) = Reply x.
Proof. intros Hl. unfold go_index. rewrite decide_True by lia. by rewrite Nat2Z.id, Hl. Qed.

(** The [i]-th byte from the end of a padded text. *)
Lemma go_index_pad {A} (data : list A) p (x : A) i :
  i < p → go_index (data ++ replicate p x) (Zlen (data ++ replicate p x) - 1 - Z.of_nat i) = Reply x.
Proof.
  intros Hi. rewrite Zlen_app. unfold Zlen. rewrite length_replicate.
  replace (_ - 1 - _)%Z with (Z.of_nat (length data + (p - 1 - i))) by lia.
  apply go_index_lookup. rewrite lookup_app_r by lia. apply lookup_replicate. split; [done|lia].
Qed.

Lemma go_index_last {A} (data : list A) p (x : A) :
  0 < p → go_index (data ++ replicate p x) (Zlen (data ++ replicate p x) - 1) = Reply x.
Proof. intros Hp. rewrite <- (go_index_pad data p x 0 Hp). f_equal. lia. Qed.

Lemma slice_pad {A} (data : list A) p (x : A) :
  slice_from (data ++ replicate p x) (Zlen (data ++ replicate p x) - Z.of_nat p) = Reply (replicate p x) ∧
  slice_to (data ++ replicate p x) (Zlen (data ++ replicate p x) - Z.of_nat p) = Reply data.
Proof.
  assert (Hz : (Zlen (data ++ replicate p x) - Z.of_nat p)%Z = Z.of_nat (length data)).
  { rewrite Zlen_app. unfold Zlen. rewrite length_replicate. lia. }
  rewrite Hz. unfold slice_from, slice_to. rewrite !decide_True by (rewrite length_app; lia).
  rewrite Nat2Z.id. by rewrite drop_app_length, take_app_length.
Qed.

Lemma pkcs8_unpad_pad data : pkcs8_unpad (pkcs7_pad data) = Reply data.
Proof.
  rewrite pkcs7_pad_eq. pose proof (padding_bounds (length data)) as Hp.
  set (p := padding (length data)) in *. destruct (slice_pad data p (N.of_nat p)) as [Hf Ht].
  unfold pkcs8_unpad. rewrite go_index_last by lia. cbn [mbind outcome_bind]. rewrite Nat2N.id.
  rewrite !decide_False by lia. rewrite Hf. cbn [mbind outcome_bind]. rewrite Repeat_byte_small by lia.
  by rewrite decide_False by (intros Hn; by apply Hn).
Qed.

Lemma check_padding_pad (data : bytes) p n i :
  p <= BlockSize → i + n <= p → check_padding n i (data ++ replicate p (N.of_nat p)) p = Reply tt.
Proof.
  intros Hp. revert i. induction n as [|n IH]; intros i Hi; simpl; [done|].
  rewrite go_index_pad by lia. cbn [mbind outcome_bind].
  rewrite N.mod_small by (unfold BlockSize in Hp; lia). rewrite decide_False by (intros Hn; by apply Hn).
  apply IH. lia.
Qed.

Lemma legacy_unpad_pad data : legacy_unpad (pkcs7_pad data) = Reply data.
Proof.
  rewrite pkcs7_pad_eq. pose proof (padding_bounds (length data)) as Hp.
  set (p := padding (length data)) in *. destruct (slice_pad data p (N.of_nat p)) as [_ Ht].
  unfold legacy_unpad. rewrite decide_False by (rewrite length_app, length_replicate; lia).
  rewrite go_index_last by lia. cbn [mbind outcome_bind]. rewrite Nat2N.id.
  rewrite decide_False by (rewrite length_app, length_replicate; lia).
  rewrite check_padding_pad by lia. done.
Qed.

(** Encrypting a padded text and decrypting it. *)
Lemma crypt_roundtrip `{HA : AesLaws} key iv data out :
  byte_list iv → byte_list data → CryptBlocks cbc_encrypt key iv (pkcs7_pad data) = Reply out →
  length out ≠ 0 ∧ length out `mod` BlockSize = 0 ∧ byte_list out ∧ CryptBlocks cbc_decrypt key iv out = Reply (pkcs7_pad data).
Proof.
  intros Hi Hd (Hiv & Hm & ->)%CryptBlocks_Reply. pose proof (whole_blocks _ Hm) as Hw.
  pose proof (pkcs7_pad_byte _ Hd) as Hb.
  assert (Hl : length (cbc_encrypt (length (pkcs7_pad data) `div` BlockSize) key iv (pkcs7_pad data)) = length (pkcs7_pad data)).
  { by rewrite cbc_encrypt_length. }
  split_and!.
  - rewrite Hl, pkcs7_pad_length. unfold BlockSize. lia.
  - by rewrite Hl.
  - by apply cbc_encrypt_byte.
  - apply CryptBlocks_Reply. split_and!; [done|by rewrite Hl|]. rewrite Hl. by rewrite cbc_inverse.
Qed.

(** ** No panics *)
Definition no_panic {A} (m : outcome A) : Prop := m ≠ Panicked.

Lemma no_panic_bind {A B} (m : outcome A) (f : A → outcome B) :
  no_panic m → (∀ a, m = Reply a → no_panic (f a)) → no_panic (m ≫= f).
Proof. intros Hm Hf. destruct m; simpl; [by apply Hf|done|done]. Qed.
Lemma no_panic_wrap {A} p (m : outcome A) : no_panic m → no_panic (wrap_error p m).
Proof. by destruct m. Qed.
Lemma no_panic_of_result {A} (r : result error A) : no_panic (of_result r).
Proof. by destruct r. Qed.
Lemma no_panic_NewCipher key : no_panic (NewCipher key).
Proof. unfold NewCipher. by case_decide. Qed.
Lemma no_panic_hex `{UnicodeTables} s : no_panic (hex_DecodeString s).
Proof. unfold hex_DecodeString. by destruct (hex_Decode s). Qed.
Lemma no_panic_read r n : no_panic (read_rand r n).
Proof. by destruct r. Qed.
Lemma no_panic_Crypt f key iv src :
  length iv = BlockSize → length src `mod` BlockSize = 0 → no_panic (CryptBlocks f key iv src).
Proof. intros Hi Hs. unfold CryptBlocks. by rewrite decide_True. Qed.
Lemma no_panic_index {A} (l : list A) i : (0 <= i < Zlen l)%Z → no_panic (go_index l i).
Proof.
  intros Hi. unfold go_index. rewrite decide_True by lia.
  destruct (lookup_lt_is_Some_2 l (Z.to_nat i)) as [x ->]; [unfold Zlen in *; lia|done].
Qed.
Lemma no_panic_slice_from {A} (l : list A) i : (0 <= i <= Zlen l)%Z → no_panic (slice_from l i).
Proof. intros Hi. unfold slice_from. by rewrite decide_True. Qed.
Lemma no_panic_slice_to {A} (l : list A) i : (0 <= i <= Zlen l)%Z → no_panic (slice_to l i).
Proof. intros Hi. unfold slice_to. by rewrite decide_True. Qed.
#[export] Hint Resolve no_panic_wrap no_panic_of_result no_panic_NewCipher no_panic_hex no_panic_read : fluffy.

(** Step over one call that cannot panic. *)
Ltac panic_step := apply no_panic_bind; [auto with fluffy|].

Lemma no_panic_pkcs8_unpad d : BlockSize <= length d → no_panic (pkcs8_unpad d).
Proof.
  intros Hd. unfold BlockSize in Hd. unfold pkcs8_unpad. apply no_panic_bind; [apply no_panic_index; unfold Zlen; lia|].
  intros last _. case_decide; [done|]. case_decide as Hp; [done|]. unfold BlockSize in Hp.
  apply no_panic_bind; [apply no_panic_slice_from; unfold Zlen; lia|]. intros tail _.
  case_decide; [done|]. apply no_panic_slice_to. unfold Zlen. lia.
Qed.

Lemma no_panic_check n i d p : i + n <= length d → no_panic (check_padding n i d p).
Proof.
  revert i. induction n as [|n IH]; intros i Hi; simpl; [done|].
  apply no_panic_bind; [apply no_panic_index; unfold Zlen; lia|]. intros b _. case_decide; [done|]. apply IH. lia.
Qed.

Lemma no_panic_legacy_unpad d : no_panic (legacy_unpad d).
Proof.
  unfold legacy_unpad. case_decide; [done|]. apply no_panic_bind; [apply no_panic_index; unfold Zlen; lia|].
  intros last _. case_decide as Hp; [done|]. apply no_panic_bind; [apply no_panic_check; lia|].
  intros _ _. apply no_panic_slice_to. unfold Zlen. lia.
Qed.
#[export] Hint Resolve no_panic_legacy_unpad : fluffy.

(** ** Hexadecimal and headers *)
Section text.
Context `{UT : UnicodeTables}.

Lemma ToUpper_ascii c s :
  (N_of_ascii c < 128)%N →
  strings_ToUpper (String c s) = String (ascii_of_N (unicode_ToUpper (N_of_ascii c))) (strings_ToUpper s).
Proof.
  intros Hc. unfold strings_ToUpper, runes, chunks. cbn [bytes_of_string]. rewrite decode_1 by done.
  unfold string_of_runes. cbn [fmap list_fmap mbind list_bind chunk_rune]. fold (@mbind list _).
  assert (Hu : EncodeRune (unicode_ToUpper (N_of_ascii c)) = [unicode_ToUpper (N_of_ascii c)]).
  { unfold EncodeRune. destruct (N.leb_spec (unicode_ToUpper (N_of_ascii c)) 0x7F) as [|Hgt]; [done|].
    exfalso. revert Hgt. unfold unicode_ToUpper. destruct (N.leb_spec (N_of_ascii c) 0x7F); [|lia].
    destruct (between _ _ _); lia. }
  rewrite Hu. done.
Qed.

(** The digits as [strings.ToUpper] leaves them. *)
Lemma upper_hex_char n :
  (n < 16)%N → let c := ascii_of_N (unicode_ToUpper (N_of_ascii (hex_char n))) in
  (N_of_ascii (hex_char n) < 128)%N ∧ fromHexChar (N_of_ascii c) = Some n ∧ armor_char c = true ∧ Ascii.eqb c cComma = false.
Proof.
  intros Hn. assert (H16 : Forall (fun n => let c := ascii_of_N (unicode_ToUpper (N_of_ascii (hex_char n))) in
    (N_of_ascii (hex_char n) < 128)%N ∧ fromHexChar (N_of_ascii c) = Some n ∧ armor_char c = true ∧ Ascii.eqb c cComma = false)
    [0; 1; 2; 3; 4; 5; 6; 7; 8; 9; 10; 11; 12; 13; 14; 15]%N).
  { repeat constructor. }
  rewrite Forall_forall in H16. apply H16. repeat rewrite elem_of_cons. lia.
Qed.

Lemma nibbles b : (b < 256)%N → (N.shiftr b 4 < 16)%N ∧ (N.land b 15 < 16)%N ∧ (16 * N.shiftr b 4 + N.land b 15 = b)%N.
Proof.
  intros Hb. rewrite N.shiftr_div_pow2. change 15%N with (N.ones 4). rewrite N.land_ones. change (2 ^ 4)%N with 16%N.
  split_and!; [apply N.Div0.div_lt_upper_bound; lia|by apply N.mod_lt|]. symmetry. apply N.div_mod. lia.
Qed.

Lemma hex_upper_roundtrip bs :
  byte_list bs → let h := strings_ToUpper (hex_EncodeToString bs) in
  hex_Decode h = Ok bs ∧ all_chars armor_char h = true ∧ count_char cComma h = 0.
Proof.
  induction 1 as [|b bs Hb Hbs IH]; [done|]. destruct (nibbles b Hb) as (H1 & H2 & Hsum).
  destruct (upper_hex_char _ H1) as (A1 & B1 & C1 & D1), (upper_hex_char _ H2) as (A2 & B2 & C2 & D2).
  cbn [hex_EncodeToString]. rewrite !ToUpper_ascii by done. cbv zeta in *. destruct IH as (I1 & I2 & I3).
  cbn [hex_Decode all_chars count_char]. rewrite B1, B2, I1, C1, C2, I2, D1, D2, I3. simpl. by rewrite Hsum.
Qed.

Lemma hex_DecodeString_upper bs : byte_list bs → hex_DecodeString (strings_ToUpper (hex_EncodeToString bs)) = Reply bs.
Proof. intros Hb. unfold hex_DecodeString. by destruct (hex_upper_roundtrip bs Hb) as (-> & _). Qed.

(** Both ways of splitting the header give the cipher and the IV. *)
Lemma dek_split h : count_char cComma h = 0 →
  split_char cComma ("AES-256-CBC," +:+ h) = ["AES-256-CBC"; h] ∧
  splitn2_char cComma ("AES-256-CBC," +:+ h) = ["AES-256-CBC"; h].
Proof. intros Hc. simpl. rewrite split_char_none by done. done. Qed.

Lemma read_rand_bytes r n bs : read_rand r n = Reply bs → length bs = n ∧ byte_list bs.
Proof.
  destruct r as [f|]; [|done]. intros [= <-]. split; [by rewrite length_fmap, length_seq|].
  apply Forall_fmap. apply Forall_true. intros i. apply N_ascii_bounded.
Qed.
End text.

(** ** Key derivation *)

(** OpenSSL's [EVP_BytesToKey] with MD5 and one iteration: each digest is over
    the previous one, the password and the salt. *)
Fixpoint EVP_digest `{Md5} (password salt : bytes) (i : nat) : bytes :=
  match i with
  | O => md5_Sum (password ++ salt)
  | S i' => md5_Sum (EVP_digest password salt i' ++ password ++ salt)
  end.

Fixpoint EVP_BytesToKey `{Md5} (password salt : bytes) (blocks : nat) : bytes :=
  match blocks with
  | O => []
  | S n => EVP_BytesToKey password salt n ++ EVP_digest password salt n
  end.

Section derivation.
Context `{HM : Md5Laws}.

Lemma evp_loop_length fuel password salt keyLen r :
  keyLen <= length r + 16 * fuel → keyLen <= length (evp_loop fuel password salt keyLen r).
Proof using HM.
  revert r. induction fuel as [|fuel IH]; intros r Hr; simpl; [lia|].
  case_decide; [|lia]. apply IH. rewrite length_app, md5_length. lia.
Qed.

Lemma generateKey_Reply password salt keyLen :
  ∃ key, generateKeyFromPassword password salt keyLen = Reply key ∧ length key = keyLen.
Proof using HM.
  pose proof (evp_loop_length keyLen password salt keyLen (md5_Sum (password ++ salt))) as Hl.
  rewrite md5_length in Hl. unfold generateKeyFromPassword, slice_to. rewrite decide_True by lia.
  eexists; split; [done|]. rewrite Nat2Z.id, length_take. lia.
Qed.

(** [generateKeyFromPassword] always returns a key of the requested length, and
    for keys of up to two digests (32 bytes, as both callers ask for) it is OpenSSL's
    [EVP_BytesToKey], although the loop hashes everything produced so far and not
    only the last digest. *)
Theorem generateKeyFromPassword_EVP password salt keyLen :
  (∃ key, generateKeyFromPassword password salt keyLen = Reply key ∧ length key = keyLen) ∧
  (keyLen <= 32 → generateKeyFromPassword password salt keyLen = Reply (take keyLen (EVP_BytesToKey password salt 2))).
Proof using HM.
  split; [apply generateKey_Reply|]. intros Hk.
  pose proof (evp_loop_length keyLen password salt keyLen (md5_Sum (password ++ salt))) as Hl.
  rewrite md5_length in Hl. unfold generateKeyFromPassword, slice_to. rewrite decide_True by lia.
  rewrite Nat2Z.id. f_equal. simpl. destruct keyLen as [|k]; [done|]. cbn [evp_loop].
  set (d0 := md5_Sum (password ++ salt)) in *. set (d1 := md5_Sum (d0 ++ password ++ salt)).
  assert (Hd0 : length d0 = 16) by apply md5_length. assert (Hd1 : length d1 = 16) by apply md5_length.
  case_decide as H1.
  - destruct k as [|k]; [simpl in H1; lia|]. cbn [evp_loop]. rewrite decide_False by (rewrite length_app; lia). done.
  - rewrite take_app_le; [done|lia].
Qed.
End derivation.

(** ** Round trips *)
Section roundtrip.
Context `{UT : UnicodeTables} `{HA : AesLaws} `{HK : Pbkdf2Laws} `{HM : Md5Laws} `{HP : PemLaws}.
Context (der : bytes → Prop).
Context `{A1 : Asn1 encryptedPrivateKeyInfo} `{A2 : Asn1 pbes2Params} `{A3 : Asn1 pbkdf2Params} `{A4 : Asn1 bytes}.
Definition alg_ok (a : AlgorithmIdentifier) : Prop := valid_oid (Algorithm a) = true ∧ der (Parameters a).
Context `{L1 : !Asn1Laws der encryptedPrivateKeyInfo (fun i => alg_ok (info_Algorithm i))}.
Context `{L2 : !Asn1Laws der pbes2Params (fun p => alg_ok (KeyDerivationFunc p) ∧ alg_ok (EncryptionScheme p))}.
Context `{L3 : !Asn1Laws der pbkdf2Params (fun p => alg_ok (PRF p) ∧ (0 <= IterationCount p)%Z)}.
Context `{L4 : !Asn1Laws der bytes byte_list}.
Context (Hnull : der NullRawValue).
Context {Priv Pub : Type} `{HX : X509Laws Priv Pub}.

Lemma of_result_Reply {A} (r : result error A) a : of_result r = Reply a ↔ r = Ok a.
Proof. destruct r; naive_solver. Qed.

Lemma pkcs8_roundtrip_lemma rand data pw block :
  byte_list data → pkcs8_Encrypt rand data pw = Reply block →
  b_Type block = PEMType ∧ b_Headers block = ∅ ∧ byte_list (b_Bytes block) ∧ pkcs8_Decrypt block pw = Reply data.
Proof using HA L1 L2 L3 L4 Hnull.
  intros Hd. unfold pkcs8_Encrypt. case_decide as Hpw; [done|].
  intros (salt & Hsalt & Hr)%outcome_bind_Reply.
  apply outcome_bind_Reply in Hr as (iv & Hiv & Hr). apply outcome_bind_Reply in Hr as (key & Hkey%of_result_Reply & Hr).
  apply outcome_bind_Reply in Hr as (ci & Hci & Hr). apply outcome_bind_Reply in Hr as (enc & Henc & Hr).
  apply outcome_bind_Reply in Hr as (kp & Hkp%of_result_Reply & Hr).
  apply outcome_bind_Reply in Hr as (ip & Hip%of_result_Reply & Hr).
  apply outcome_bind_Reply in Hr as (sp & Hsp%of_result_Reply & Hr).
  apply outcome_bind_Reply in Hr as (d & Hder%of_result_Reply & [= <-]).
  apply read_rand_bytes in Hsalt as [_ Hsb]. apply read_rand_bytes in Hiv as [Hil Hib].
  assert (Hci' : ci = key) by (unfold NewCipher in Hci; case_decide; congruence). subst ci.
  destruct (crypt_roundtrip _ _ _ _ Hib Hd Henc) as (Hn0 & Hmod & Henb & Hdec).
  apply L3 in Hkp as (Dk & _ & Uk); [|by split_and!]. apply L4 in Hip as (Di & _ & Ui); [|done].
  apply L2 in Hsp as (Ds & _ & Us); [|by split_and!]. apply L1 in Hder as (Dd & Bd & Ud); [|by split_and!].
  split_and!; [done|done|done|]. unfold pkcs8_Decrypt. cbn [b_Type b_Bytes].
  rewrite decide_False by (by intros []). rewrite Ud. cbn [info_Algorithm Algorithm Parameters EncryptedData].
  rewrite decide_False by (by intros []). rewrite Us. cbn [KeyDerivationFunc EncryptionScheme Algorithm Parameters].
  rewrite decide_False by (by intros []). rewrite Uk. cbn [IterationCount PRF Salt Algorithm].
  rewrite decide_False by (unfold Iterations, maxIterations; lia). rewrite decide_False by (by intros []).
  rewrite Ui, (decide_True (P := length iv = BlockSize)) by done. cbn [mbind outcome_bind]. rewrite decide_False by lia.
  rewrite decide_False by done. rewrite decide_True by done. rewrite Hkey. cbn [of_result mbind outcome_bind].
  rewrite Hci. cbn [mbind outcome_bind]. rewrite Hdec. cbn [mbind outcome_bind]. apply pkcs8_unpad_pad.
Qed.

(** What [EncryptPemBlock] writes. *)
Lemma EncryptPemBlock_inv rand block pw block' :
  pw ≠ "" → EncryptPemBlock rand block pw = Reply block' →
  ∃ iv h salt key, length iv = BlockSize ∧ byte_list iv ∧
    hex_DecodeString h = Reply iv ∧ all_chars armor_char h = true ∧
    split_char cComma ("AES-256-CBC," +:+ h) = ["AES-256-CBC"; h] ∧
    splitn2_char cComma ("AES-256-CBC," +:+ h) = ["AES-256-CBC"; h] ∧
    slice_to iv 8 = Reply salt ∧
    generateKeyFromPassword (bytes_of_string pw) salt 32 = Reply key ∧ NewCipher key = Reply key ∧
    CryptBlocks cbc_encrypt key iv (pkcs7_pad (b_Bytes block)) = Reply (b_Bytes block') ∧
    b_Type block' = b_Type block ∧
    b_Headers block' = <["DEK-Info" := "AES-256-CBC," +:+ h]> (<["Proc-Type" := "4,ENCRYPTED"]> (b_Headers block)).
Proof.
  intros Hpw. unfold EncryptPemBlock. rewrite decide_False by done.
  intros (iv & [Hil Hib]%wrap_error_Reply%read_rand_bytes & Hr)%outcome_bind_Reply.
  apply outcome_bind_Reply in Hr as (salt & Hsalt & Hr). apply outcome_bind_Reply in Hr as (key & Hkey & Hr).
  apply outcome_bind_Reply in Hr as (ci & Hci%wrap_error_Reply & Hr).
  apply outcome_bind_Reply in Hr as (enc & Henc & [= <-]).
  assert (Hci' : ci = key) by (unfold NewCipher in Hci; case_decide; congruence). subst ci.
  destruct (hex_upper_roundtrip iv Hib) as (_ & Ha & Hc). pose proof (hex_DecodeString_upper iv Hib) as Hx.
  destruct (dek_split _ Hc) as [Hs1 Hs2].
  exists iv, (strings_ToUpper (hex_EncodeToString iv)), salt, key. split_and!; done.
Qed.

(** The decryption both readers of the legacy format end with. *)
Lemma legacy_tail {B} iv salt key pw data enc msg (k : bytes → outcome B) :
  slice_to iv 8 = Reply salt → generateKeyFromPassword pw salt 32 = Reply key → NewCipher key = Reply key →
  CryptBlocks cbc_decrypt key iv enc = Reply (pkcs7_pad data) →
  (salt ← slice_to iv 8; key ← generateKeyFromPassword pw salt 32; ci ← wrap_error msg (NewCipher key);
   d ← CryptBlocks cbc_decrypt ci iv enc; d ← legacy_unpad d; k d) = k data.
Proof.
  intros Hs Hk Hc Hd. by rewrite Hs, Reply_bind, Hk, Reply_bind, Hc, wrap_Reply, Reply_bind, Hd, Reply_bind,
    legacy_unpad_pad, Reply_bind.
Qed.

Lemma DecryptPemBlock_roundtrip rand block pw block' :
  pw ≠ "" → byte_list (b_Bytes block) → EncryptPemBlock rand block pw = Reply block' →
  DecryptPemBlock block' pw =
    Reply (mkBlock (b_Type block) (delete "DEK-Info" (delete "Proc-Type" (b_Headers block))) (b_Bytes block)).
Proof using HA.
  intros Hpw Hb He. destruct (EncryptPemBlock_inv _ _ _ _ Hpw He) as
    (iv & h & salt & key & Hil & Hib & Hx & _ & Hs1 & Hs2 & Hsalt & Hkey & Hci & Henc & Ht & Hh).
  destruct (crypt_roundtrip _ _ _ _ Hib Hb Henc) as (Hn0 & Hmod & Henb & Hdec).
  unfold DecryptPemBlock, isEncryptedPEMBlock. rewrite Hh, lookup_insert_ne, lookup_insert_eq by done.
  change (strings_Contains "4,ENCRYPTED" "ENCRYPTED") with true. cbv iota.
  rewrite lookup_insert_eq, Hs2, decide_False by (by intros []). rewrite Hx, wrap_Reply, Reply_bind.
  rewrite decide_False by lia. rewrite decide_False by lia. erewrite legacy_tail by done.
  rewrite Ht. do 2 f_equal. apply map_eq. intros k.
  destruct (decide (k = "DEK-Info")) as [->|]; [by simplify_map_eq|].
  destruct (decide (k = "Proc-Type")) as [->|]; by simplify_map_eq.
Qed.

Lemma decrypt_legacy_roundtrip rand block pw block' armor :
  pw ≠ "" → byte_list (b_Bytes block) → EncryptPemBlock rand block pw = Reply block' →
  decrypt_legacy armor block' (bytes_of_string pw) =
    match pem_Encode (mkBlock (b_Type block) ∅ (b_Bytes block)) with
    | Some out => Reply out
    | None => Fail (PlainErr "failed to encode decrypted key: pem: cannot encode a header key that contains a colon")
    end.
Proof using HA.
  intros Hpw Hb He. destruct (EncryptPemBlock_inv _ _ _ _ Hpw He) as
    (iv & h & salt & key & Hil & Hib & Hx & _ & Hs1 & Hs2 & Hsalt & Hkey & Hci & Henc & Ht & Hh).
  destruct (crypt_roundtrip _ _ _ _ Hib Hb Henc) as (Hn0 & Hmod & Henb & Hdec).
  unfold decrypt_legacy, header. rewrite Hh, lookup_insert_ne, lookup_insert_eq by done. cbn [default id].
  rewrite decide_False by (by intros []). rewrite lookup_insert_eq. cbn [default id].
  rewrite Hs1, decide_False by (by intros []). rewrite Hx, wrap_Reply, Reply_bind.
  rewrite decide_False by lia. rewrite decide_False by lia. erewrite legacy_tail by done. by rewrite Ht.
Qed.

Lemma armored_plain t data : all_chars type_char t = true → t ≠ "" → byte_list data → armored (mkBlock t ∅ data).
Proof. intros Ht Hn Hb. split_and!; [done|done|done|]. intros k v. simpl. by rewrite lookup_empty. Qed.

Lemma all_chars_app f s t : all_chars f (s +:+ t) = all_chars f s && all_chars f t.
Proof. induction s as [|c s IH]; simpl; [done|]. by rewrite IH, andb_assoc. Qed.

Lemma armored_legacy rand block pw block' :
  pw ≠ "" → armored block → EncryptPemBlock rand block pw = Reply block' → armored block'.
Proof using HA.
  intros Hpw (Ht & Hn & Hb & Hh) He. destruct (EncryptPemBlock_inv _ _ _ _ Hpw He) as
    (iv & h & salt & key & _ & Hib & _ & Ha & _ & _ & _ & _ & _ & Henc & Et & Eh).
  destruct (crypt_roundtrip _ _ _ _ Hib Hb Henc) as (_ & _ & Henb & _).
  split_and!; [by rewrite Et|by rewrite Et|done|]. intros k v. rewrite Eh.
  intros [(<- & <-)|(? & [(<- & <-)|(? & Hk)]%lookup_insert_Some)]%lookup_insert_Some; [| |by apply Hh].
  - rewrite all_chars_app, Ha. split_and!; done.
  - split_and!; done.
Qed.

(** What [pkcs8enc.Encrypt] wrote, [Decrypt] reads back with the same password;
    what the legacy [EncryptPemBlock] wrote, both [DecryptPemBlock] and (from the
    armored file) [DecryptPEM] read back. *)
Theorem encrypted_keys_roundtrip rand pw block block' :
  pw ≠ "" → armored block →
  (pkcs8_Encrypt rand (b_Bytes block) pw = Reply block' → pkcs8_Decrypt block' pw = Reply (b_Bytes block)) ∧
  (EncryptPemBlock (rand 0) block pw = Reply block' → b_Headers block = ∅ → b_Type block ≠ PEMType →
   DecryptPemBlock block' pw = Reply block ∧
   ∃ armor plain, pem_Encode block' = Some armor ∧ pem_Encode block = Some plain ∧
     DecryptPEM armor (bytes_of_string pw) = Reply plain).
Proof using HA HP L1 L2 L3 L4 Hnull.
  intros Hpw Har. assert (Hb : byte_list (b_Bytes block)) by apply Har. split; [by intros (_ & _ & _ & ?)%pkcs8_roundtrip_lemma|]. intros He Hh Ht.
  pose proof (DecryptPemBlock_roundtrip _ _ _ _ Hpw Hb He) as Hd.
  destruct (pem_roundtrip _ (armored_legacy _ _ _ _ Hpw Har He)) as (armor & Ea & _ & Da).
  destruct (pem_roundtrip _ Har) as (plain & Ep & _ & _).
  assert (Hbl : mkBlock (b_Type block) ∅ (b_Bytes block) = block) by (destruct block; simpl in *; by subst).
  rewrite Hh, !delete_empty, Hbl in Hd. split; [done|]. exists armor, plain. split_and!; [done|done|].
  unfold DecryptPEM. rewrite Da. destruct (EncryptPemBlock_inv _ _ _ _ Hpw He) as
    (? & ? & ? & ? & _ & _ & _ & _ & _ & _ & _ & _ & _ & _ & Et & _).
  rewrite Et, decide_False by done. erewrite decrypt_legacy_roundtrip by done. by rewrite Hbl, Ep.
Qed.

Lemma armor_string b out : byte_list out → pem_Decode out = Some (b, []) → pem_Decode (bytes_of_string (string_of_bytes out)) = Some (b, []).
Proof. intros Hb Hd. by rewrite bytes_of_string_of_bytes. Qed.

(** Key files.  A key pair written by [Encode], with a password or without, is
    read back by [DecodePrivatePem] and by [decode]; and [DecryptPEM], which the key
    material uses, turns the private file into the unencrypted PKCS#8 file of the
    key, or leaves an unencrypted file alone. *)
Theorem key_files_roundtrip rand pw (k : Priv) priv pub :
  ecdsa_Encode rand pw k (PublicKey k) = Reply (priv, pub) →
  DecodePrivatePem pw priv = Reply (k, PublicKey k) ∧
  ecdsa_decode pw priv pub = Reply (k, PublicKey k) ∧
  (pw ≠ "" → ∃ data out, MarshalPKCS8PrivateKey k = Ok data ∧ pem_Encode (mkBlock "PRIVATE KEY" ∅ data) = Some out ∧
     DecryptPEM (bytes_of_string priv) (bytes_of_string pw) = Reply out) ∧
  (pw = "" → ∀ other, DecryptPEM (bytes_of_string priv) other = Reply (bytes_of_string priv)).
Proof using HA HP L1 L2 L3 L4 Hnull HX.
  unfold ecdsa_Encode. intros (block & Hblock & Hr)%outcome_bind_Reply.
  apply outcome_bind_Reply in Hr as (pubder & Hpub%of_result_Reply & [= <- <-]).
  destruct (pem_roundtrip (mkBlock "EC  PUBLIC KEY" ∅ pubder)) as (pubout & Epub & Bpub & Dpub).
  { apply armored_plain; [done|done|]. by apply pkix_roundtrip in Hpub as []. }
  assert (Hpriv : armored block ∧ parsePrivateBlock block pw = Reply k ∧
    (pw ≠ "" → ∃ data, MarshalPKCS8PrivateKey k = Ok data ∧ b_Type block = PEMType ∧ pkcs8_Decrypt block pw = Reply data) ∧
    (pw = "" → b_Type block ≠ PEMType ∧ b_Headers block = ∅)).
  { case_decide as Hpw.
    - apply outcome_bind_Reply in Hblock as (x & Hx%of_result_Reply & [= <-]).
      destruct (ec_roundtrip _ _ Hx) as [Hxb Hxp]. split_and!; [by apply armored_plain| |done|done].
      unfold parsePrivateBlock. rewrite decide_False by discriminate. rewrite decide_True by done. rewrite Reply_bind.
      cbn [b_Bytes]. by rewrite Hxp.
    - apply outcome_bind_Reply in Hblock as (x & Hx%of_result_Reply & Hb).
      destruct (pkcs8_roundtrip _ _ Hx) as [Hxb Hxp].
      destruct (pkcs8_roundtrip_lemma _ _ _ _ Hxb Hb) as (Ht & Hh & Hbb & Hd). split_and!; [| |by eauto 8|done].
      + destruct block; simpl in *; subst. by apply armored_plain.
      + unfold parsePrivateBlock. rewrite decide_True by done. by rewrite Hd, wrap_Reply, Reply_bind, Hxp. }
  destruct Hpriv as (Har & Hparse & Henc & Hplain). destruct (pem_roundtrip _ Har) as (out & Eout & Bout & Dout).
  unfold EncodeToMemory. rewrite Eout, Epub. cbn [default id].
  pose proof (armor_string _ _ Bout Dout) as Do. pose proof (armor_string _ _ Bpub Dpub) as Dp. split_and!.
  - unfold DecodePrivatePem. by rewrite Do, Hparse.
  - unfold ecdsa_decode. rewrite Do, Hparse, Reply_bind, Dp. cbn [b_Bytes]. by destruct (pkix_roundtrip _ _ Hpub) as [_ ->].
  - intros (data & Hm & Ht & Hd)%Henc.
    destruct (pem_roundtrip (mkBlock "PRIVATE KEY" ∅ data)) as (o & Eo & _ & _).
    { apply armored_plain; [done|done|]. by apply pkcs8_roundtrip in Hm as []. }
    exists data, o. split_and!; [done|done|]. unfold DecryptPEM, EncodeToMemory. rewrite Do, decide_True by done.
    rewrite string_of_bytes_of_string, Hd, wrap_Reply, Reply_bind. by rewrite Eo.
  - intros [Ht Hh]%Hplain other. unfold DecryptPEM. rewrite Do, decide_False by done.
    unfold decrypt_legacy, header. rewrite Hh, lookup_empty. cbn [default]. by rewrite decide_True by discriminate.
Qed.
End roundtrip.

(** ** Hostile input *)
Section hostile.
Context `{UT : UnicodeTables} `{HA : AesLaws} `{HK : Pbkdf2} `{HM : Md5Laws} `{HP : Pem}.
Context `{A1 : Asn1 encryptedPrivateKeyInfo} `{A2 : Asn1 pbes2Params} `{A3 : Asn1 pbkdf2Params} `{A4 : Asn1 bytes}.
Context {Priv Pub : Type} `{HX : X509 Priv Pub}.

Lemma NewCipher_Reply key ci : NewCipher key = Reply ci → ci = key.
Proof. unfold NewCipher. case_decide; congruence. Qed.

Lemma no_panic_generateKey pw salt n : no_panic (generateKeyFromPassword pw salt n).
Proof using HM. by destruct (generateKey_Reply pw salt n) as (key & -> & _). Qed.

(** The decryption with a key of any origin. *)
Lemma crypt_hostile key iv src :
  length iv = BlockSize → length src ≠ 0 → length src `mod` BlockSize = 0 →
  no_panic (CryptBlocks cbc_decrypt key iv src) ∧
  ∀ d, CryptBlocks cbc_decrypt key iv src = Reply d → BlockSize <= length d.
Proof using HA.
  intros Hi Hz Hm. split; [by apply no_panic_Crypt|]. intros d (_ & _ & ->)%CryptBlocks_Reply.
  rewrite cbc_decrypt_length; [|done|by apply whole_blocks]. rewrite <- whole_blocks by done.
  pose proof (whole_blocks _ Hm). destruct (length src `div` BlockSize) eqn:E; lia.
Qed.

Lemma no_panic_pkcs8_Decrypt block pw : no_panic (pkcs8_Decrypt block pw).
Proof using HA.
  unfold pkcs8_Decrypt. case_decide; [done|]. destruct (asn1_Unmarshal _) as [[info [|]]|]; try done.
  case_decide; [done|]. destruct (asn1_Unmarshal _) as [[scheme ?]|]; [|done].
  case_decide; [done|]. destruct (asn1_Unmarshal _) as [[kdf ?]|]; [|done]. do 2 (case_decide; [done|]).
  apply no_panic_bind; [repeat case_match; done|]. intros iv Hiv.
  assert (Hl : length iv = BlockSize) by (repeat case_match; naive_solver). clear Hiv.
  case_decide as Hd; [done|]. apply no_panic_bind; [repeat case_decide; auto with fluffy; done|]. intros key _.
  panic_step. intros ci _. destruct (crypt_hostile ci iv (EncryptedData info)) as [Hn Hr]; [done|lia|lia|].
  apply no_panic_bind; [done|]. intros d Hd'. by apply no_panic_pkcs8_unpad, Hr.
Qed.

Lemma no_panic_legacy_tail {B} iv pw enc msg (k : bytes → outcome B) :
  length iv = BlockSize → length enc ≠ 0 → length enc `mod` BlockSize = 0 → (∀ d, no_panic (k d)) →
  no_panic (salt ← slice_to iv 8; key ← generateKeyFromPassword pw salt 32; ci ← wrap_error msg (NewCipher key);
   d ← CryptBlocks cbc_decrypt ci iv enc; d ← legacy_unpad d; k d).
Proof using HA HM.
  intros Hi Hz Hm Hk. apply no_panic_bind; [apply no_panic_slice_to; unfold Zlen; rewrite Hi; unfold BlockSize; lia|].
  intros salt _. apply no_panic_bind; [apply no_panic_generateKey|]. intros key _. panic_step. intros ci _.
  apply no_panic_bind; [by apply no_panic_Crypt|]. intros d _. panic_step. intros d' _. apply Hk.
Qed.

Lemma no_panic_DecryptPemBlock block pw : no_panic (DecryptPemBlock block pw).
Proof using HA HM.
  unfold DecryptPemBlock. destruct (isEncryptedPEMBlock block); [|done]. destruct (b_Headers block !! _); [|done].
  destruct (splitn2_char _ _) as [|c [|ivHex [|]]]; try done. case_decide; [done|]. panic_step. intros iv _.
  case_decide; [done|]. case_decide; [done|]. apply no_panic_legacy_tail; [lia|lia|lia|done].
Qed.

Lemma no_panic_decrypt_legacy armor block pw : no_panic (decrypt_legacy armor block pw).
Proof using HA HM.
  unfold decrypt_legacy. case_decide; [done|]. destruct (split_char _ _) as [|c [|ivHex [|]]]; try done.
  case_decide; [done|]. panic_step. intros iv _. case_decide; [done|]. case_decide; [done|].
  apply no_panic_legacy_tail; [lia|lia|lia|]. intros d. by destruct (pem_Encode _).
Qed.

Lemma no_panic_parsePrivateBlock block pw : no_panic (parsePrivateBlock block pw : outcome Priv).
Proof using HA HM.
  unfold parsePrivateBlock. case_decide.
  - apply no_panic_bind; [apply no_panic_wrap, no_panic_pkcs8_Decrypt|]. intros d _. panic_step. by intros [] _.
  - apply no_panic_bind; [|auto with fluffy]. case_decide; [done|apply no_panic_DecryptPemBlock].
Qed.

(** C38: Malformed input is an error, never a panic: no PEM text, block or password
    makes the readers of private keys slice or index out of range or hand the CBC
    code a wrong IV length or a partial block. *)
Theorem key_readers_never_panic (block : Block) (armor pwb : bytes) (pem pemPub pw : string) :
  pkcs8_Decrypt block pw ≠ Panicked ∧ DecryptPemBlock block pw ≠ Panicked ∧
  DecryptPEM armor pwb ≠ Panicked ∧
  (DecodePrivatePem pw pem : outcome (Priv * Pub)) ≠ Panicked ∧
  (ecdsa_decode pw pem pemPub : outcome (Priv * Pub)) ≠ Panicked.
Proof using HA HM.
  split_and!; [apply no_panic_pkcs8_Decrypt|apply no_panic_DecryptPemBlock| | |].
  - unfold DecryptPEM. destruct (pem_Decode armor) as [[b ?]|]; [|done]. case_decide; [|apply no_panic_decrypt_legacy].
    apply no_panic_bind; [apply no_panic_wrap, no_panic_pkcs8_Decrypt|done].
  - unfold DecodePrivatePem. destruct (pem_Decode _) as [[b ?]|]; [|done].
    apply no_panic_bind; [apply no_panic_parsePrivateBlock|done].
  - unfold ecdsa_decode. destruct (pem_Decode _) as [[b ?]|]; [|done].
    apply no_panic_bind; [apply no_panic_parsePrivateBlock|]. intros k _.
    destruct (pem_Decode _) as [[b' ?]|]; [|done]. panic_step. by intros [] _.
Qed.
End hostile.

(** ** A stand-in for the libraries

    Self-delimiting encodings, an XOR block cipher and truncating digests: they
    satisfy the laws and evaluate. *)
Module Standin.
#[local] Existing Instance latin1_tables.
#[local] Unset Program Cases.

Class Codec (A : Type) := {
  enc : A → bytes;
  dec : bytes → option (A * bytes);
  dec_enc a r : dec (enc a ++ r) = Some (a, r);
  enc_byte a : byte_list (enc a) }.

Fixpoint enc_pos (p : positive) : bytes :=
  match p with xH => [2]%N | xO p => 0%N :: enc_pos p | xI p => 1%N :: enc_pos p end.
Fixpoint dec_pos (bs : bytes) : option (positive * bytes) :=
  match bs with
  | 2%N :: r => Some (xH, r)
  | 0%N :: r => '(p, r') ← dec_pos r; Some (xO p, r')
  | 1%N :: r => '(p, r') ← dec_pos r; Some (xI p, r')
  | _ => None
  end.

Lemma dec_enc_pos p r : dec_pos (enc_pos p ++ r) = Some (p, r).
Proof. induction p as [p IH|p IH|]; simpl; [by rewrite IH|by rewrite IH|done]. Qed.
Lemma enc_pos_byte p : byte_list (enc_pos p).
Proof. induction p; repeat constructor; done. Qed.

#[export] Program Instance codec_N : Codec N := {|
  enc n := match n with N0 => [3]%N | Npos p => enc_pos p end;
  dec bs := match bs with 3%N :: r => Some (0%N, r) | _ => '(p, r) ← dec_pos bs; Some (Npos p, r) end |}.
Next Obligation.
  intros [|p] r; [done|]. pose proof (dec_enc_pos p r) as Hp. destruct p as [p|p|]; simpl in *; [| |done].
  - destruct (dec_pos (enc_pos p ++ r)) as [[]|]; simpl in *; by simplify_eq.
  - destruct (dec_pos (enc_pos p ++ r)) as [[]|]; simpl in *; by simplify_eq.
Qed.
Next Obligation. intros [|p]; [by repeat constructor|]. apply enc_pos_byte. Qed.

#[export] Program Instance codec_Z : Codec Z := {|
  enc z := enc (match z with Z0 => 0 | Zpos p => 2 * Npos p | Zneg p => 2 * Npos p + 1 end)%N;
  dec bs := '(n, r) ← dec bs;
    Some ((if N.even n then Z.of_N (N.div2 n) else - Z.of_N (N.div2 n))%Z, r) |}.
Next Obligation. intros [|p|p] r; rewrite dec_enc; reflexivity. Qed.
Next Obligation. intros z. apply enc_byte. Qed.

#[export] Program Instance codec_prod A B `{Codec A, Codec B} : Codec (A * B) := {|
  enc p := enc p.1 ++ enc p.2;
  dec bs := '(a, r) ← dec bs; '(b, r) ← dec r; Some ((a, b), r) |}.
Next Obligation. intros A B ?? [a b] r. simpl. rewrite <- app_assoc, dec_enc. simpl. by rewrite dec_enc. Qed.
Next Obligation. intros A B ?? [a b]. apply Forall_app_2; apply enc_byte. Qed.

Fixpoint dec_n {A} `{Codec A} (n : nat) (bs : bytes) : option (list A * bytes) :=
  match n with
  | O => Some ([], bs)
  | S n => '(a, r) ← dec bs; '(l, r) ← dec_n n r; Some (a :: l, r)
  end.

Lemma dec_n_enc {A} `{Codec A} (l : list A) r : dec_n (length l) ((l ≫= enc) ++ r) = Some (l, r).
Proof.
  induction l as [|a l IH]; [done|]. rewrite bind_cons, <- app_assoc. cbn [length dec_n].
  rewrite dec_enc. cbn [mbind option_bind]. by rewrite IH.
Qed.

#[export] Program Instance codec_list A `{Codec A} : Codec (list A) := {|
  enc l := enc (N.of_nat (length l)) ++ (l ≫= enc);
  dec bs := '(n, r) ← dec (A := N) bs; dec_n (N.to_nat n) r |}.
Next Obligation. intros A ? l r. cbv beta. rewrite <- app_assoc, (dec_enc (A := N)). cbn [mbind option_bind]. by rewrite Nat2N.id, dec_n_enc. Qed.
Next Obligation.
  intros A ? l. apply Forall_app_2; [apply (enc_byte (A := N))|]. induction l; simpl; [constructor|].
  apply Forall_app_2; [apply enc_byte|done].
Qed.

#[export] Program Instance codec_string : Codec string := {|
  enc s := enc (bytes_of_string s); dec bs := '(b, r) ← dec (A := bytes) bs; Some (string_of_bytes b, r) |}.
Next Obligation. intros s r. cbv beta. rewrite (dec_enc (A := bytes)). cbn [mbind option_bind]. by rewrite string_of_bytes_of_string. Qed.
Next Obligation. intros s. apply (enc_byte (A := bytes)). Qed.

(** A codec through an injection. *)
Program Definition codec_via {A B} `{Codec B} (f : A → B) (g : B → A) (Hgf : ∀ a, g (f a) = a) : Codec A := {|
  enc a := enc (f a); dec bs := '(b, r) ← dec (A := B) bs; Some (g b, r) |}.
Next Obligation. intros A B ? f g Hgf a r. simpl. rewrite dec_enc. simpl. by rewrite Hgf. Qed.
Next Obligation. intros A B ? f g Hgf a. apply enc_byte. Qed.

#[export] Instance codec_alg : Codec AlgorithmIdentifier.
Proof. refine (codec_via (fun a => (Algorithm a, Parameters a)) (fun p => mkAlg p.1 p.2) _). by intros []. Defined.
#[export] Instance codec_info : Codec encryptedPrivateKeyInfo.
Proof. refine (codec_via (fun a => (info_Algorithm a, EncryptedData a)) (fun p => mkInfo p.1 p.2) _). by intros []. Defined.
#[export] Instance codec_pbes2 : Codec pbes2Params.
Proof. refine (codec_via (fun a => (KeyDerivationFunc a, EncryptionScheme a)) (fun p => mkPbes2 p.1 p.2) _). by intros []. Defined.
#[export] Instance codec_pbkdf2 : Codec pbkdf2Params.
Proof.
  refine (codec_via (fun a => (Salt a, IterationCount a, KeyLength a, PRF a)) (fun '(s, i, k, p) => mkPbkdf2 s i k p) _).
  by intros [].
Defined.
#[export] Instance codec_block : Codec Block.
Proof.
  refine (codec_via (B := string * list (string * string) * bytes) (fun b => (b_Type b, map_to_list (b_Headers b), b_Bytes b))
                    (fun '(t, h, bs) => mkBlock t (list_to_map h) bs) _).
  intros []. simpl. by rewrite list_to_map_to_list.
Defined.

#[export] Instance asn1_codec A `{Codec A} : Asn1 A := {|
  asn1_Marshal a := Ok (enc a);
  asn1_Unmarshal bs := match dec bs with Some p => Ok p | None => Err (PlainErr "asn1: syntax error") end |}.
#[export] Instance asn1_codec_laws A `{Codec A} ok : Asn1Laws byte_list A ok.
Proof.
  intros a b _ [= <-]. split_and!; [apply enc_byte|apply enc_byte|].
  unfold asn1_Unmarshal. simpl. pose proof (dec_enc a []) as Hd. rewrite app_nil_r in Hd. by rewrite Hd.
Qed.

#[export] Instance pem : Pem := {| pem_Decode := dec; pem_Encode b := Some (enc b) |}.
#[export] Instance pem_laws : PemLaws.
Proof.
  split. intros b _. exists (enc b). split_and!; [done|apply enc_byte|].
  pose proof (dec_enc b []) as Hd. by rewrite app_nil_r in Hd.
Qed.

(** [n] bytes made from a seed. *)
Definition fit (n : nat) (seed : bytes) : bytes := (fun i => (nth i seed 7) mod 256)%N <$> seq 0 n.
Lemma fit_length n seed : length (fit n seed) = n.
Proof. unfold fit. by rewrite length_fmap, length_seq. Qed.
Lemma fit_byte n seed : byte_list (fit n seed).
Proof. apply Forall_fmap, Forall_true. intros i. by apply N.mod_lt. Qed.

#[export] Instance aes : Aes := {|
  aes_encrypt key b := xor_bytes b (fit BlockSize key); aes_decrypt key b := xor_bytes b (fit BlockSize key) |}.
#[export] Instance aes_laws : AesLaws.
Proof.
  split; simpl; intros key b Hl.
  - intros _. apply xor_bytes_cancel. by rewrite fit_length.
  - intros Hb. split; [by rewrite xor_bytes_length; rewrite ?fit_length|]. apply xor_bytes_byte; [done|apply fit_byte].
  - by rewrite xor_bytes_length; rewrite ?fit_length.
Qed.
#[export] Instance md5 : Md5 := fit 16.
#[export] Instance md5_laws : Md5Laws.
Proof. intros bs. apply fit_length. Qed.
#[export] Instance pbkdf2 : Pbkdf2 := fun _ pw salt _ k => Ok (fit k (bytes_of_string pw ++ salt)).
#[export] Instance pbkdf2_laws : Pbkdf2Laws.
Proof. intros h pw salt n k key [= <-]. apply fit_length. Qed.

(** A private key is a number, its public key the same number. *)
#[export] Instance x509 : X509 N N := {|
  PublicKey k := k;
  MarshalPKCS8PrivateKey k := Ok (enc k);
  ParsePKCS8PrivateKey bs := match dec bs with Some (k, _) => Ok (EcdsaKey k) | None => Err (PlainErr "x509") end;
  MarshalECPrivateKey k := Ok (enc k);
  ParseECPrivateKey bs := match dec bs with Some (k, _) => Ok k | None => Err (PlainErr "x509") end;
  MarshalPKIXPublicKey k := Ok (enc k);
  ParsePKIXPublicKey bs := match dec bs with Some (k, _) => Ok (EcdsaKey k) | None => Err (PlainErr "x509") end |}.
#[export] Instance x509_laws : X509Laws N N.
Proof.
  assert (Hd : ∀ k : N, dec (enc k) = Some (k, [])) by (intros k; rewrite <- (app_nil_r (enc k)); apply dec_enc).
  split; cbn [MarshalPKCS8PrivateKey MarshalECPrivateKey MarshalPKIXPublicKey x509];
    intros k der [= <-]; (split; [exact (enc_byte (A := N) k)|]);
    [change (match dec (A := N) (enc k) with Some (k, _) => Ok (EcdsaKey k) | None => Err (PlainErr "x509") end = Ok (EcdsaKey k))
    |change (match dec (A := N) (enc k) with Some (k, _) => Ok k | None => Err (PlainErr "x509") end = Ok k)
    |change (match dec (A := N) (enc k) with Some (k, _) => Ok (EcdsaKey k) | None => Err (PlainErr "x509") end = Ok (EcdsaKey k))];
    by rewrite Hd.
Qed.

Definition rand : nat → option (nat → ascii) := fun n => Some (fun i => ascii_of_nat (n + 3 * i)).
Definition key_block : Block := mkBlock "EC PRIVATE KEY" ∅ [48; 119; 2; 1; 1]%N.
Definition files (pw : string) : string * string :=
  match ecdsa_Encode (Priv := N) (Pub := N) rand pw 77%N 77%N with Reply p => p | _ => ("", "") end.
End Standin.

Section witnesses.
Import Standin.
Existing Instance latin1_tables.

Lemma generateKeyFromPassword_EVP_witness :
  generateKeyFromPassword [1; 2]%N [3]%N 20 = Reply (take 20 (EVP_BytesToKey [1; 2]%N [3]%N 2)).
Proof. apply (generateKeyFromPassword_EVP [1; 2]%N [3]%N 20). lia. Defined.

Lemma encrypted_keys_roundtrip_witness :
  let block8 := match pkcs8_Encrypt rand (b_Bytes key_block) "pw" with Reply b => b | _ => key_block end in
  let blockl := match EncryptPemBlock (rand 0) key_block "pw" with Reply b => b | _ => key_block end in
  pkcs8_Decrypt block8 "pw" = Reply (b_Bytes key_block) ∧ DecryptPemBlock blockl "pw" = Reply key_block.
Proof.
  assert (Ha : armored key_block).
  { split_and!; [done|done|by repeat constructor|]. intros k v Hk. cbn [key_block b_Headers] in Hk. by apply lookup_empty_Some in Hk. }
  assert (Hn : byte_list NullRawValue) by (by repeat constructor).
  intros block8 blockl. split.
  - apply (encrypted_keys_roundtrip byte_list Hn rand "pw" key_block block8); [done|done|].
    vm_compute. reflexivity.
  - apply (encrypted_keys_roundtrip byte_list Hn rand "pw" key_block blockl); [done|done| |done|done].
    vm_compute. reflexivity.
Defined.

Lemma key_files_roundtrip_witness :
  DecodePrivatePem "pw" (files "pw").1 = Reply (77%N, PublicKey 77%N) ∧
  DecodePrivatePem "" (files "").1 = Reply (77%N, PublicKey 77%N).
Proof.
  assert (Hn : byte_list NullRawValue) by (by repeat constructor). split.
  - apply (key_files_roundtrip byte_list Hn (Priv := N) (Pub := N) rand "pw" 77%N (files "pw").1 (files "pw").2).
    vm_compute. reflexivity.
  - apply (key_files_roundtrip byte_list Hn (Priv := N) (Pub := N) rand "" 77%N (files "").1 (files "").2).
    vm_compute. reflexivity.
Defined.

Lemma key_readers_never_panic_witness :
  DecryptPemBlock (mkBlock "EC PRIVATE KEY" {["Proc-Type" := "4,ENCRYPTED"; "DEK-Info" := "AES-256-CBC,00"]} [1]%N) "pw" ≠ Panicked.
Proof.
  apply (key_readers_never_panic (Priv := N) (Pub := N)
    (mkBlock "EC PRIVATE KEY" {["Proc-Type" := "4,ENCRYPTED"; "DEK-Info" := "AES-256-CBC,00"]} [1]%N) [] [] "" "" "pw").
Defined.

(** A flipped padding byte, a short IV and a wrong cipher name are the errors the
    code spells out. *)
Example legacy_errors :
  legacy_unpad [1; 2; 5; 3; 3]%N = Fail (PlainErr "invalid PKCS7 padding at byte 2") ∧
  legacy_unpad [1; 17]%N = Fail (PlainErr "invalid PKCS7 padding length: 17") ∧
  DecryptPemBlock (mkBlock "K" {["Proc-Type" := "4,ENCRYPTED"; "DEK-Info" := "AES-256-CBC,00"]} [1]%N) "pw" =
    Fail (PlainErr "invalid IV length: expected 16, got 1") ∧
  DecryptPemBlock (mkBlock "K" {["Proc-Type" := "4,ENCRYPTED"; "DEK-Info" := "AES-256-CBC,0g"]} [1]%N) "pw" =
    Fail (PlainErr "invalid IV in DEK-Info: encoding/hex: invalid byte: U+0067 'g'") ∧
  DecryptPemBlock (mkBlock "K" {["Proc-Type" := "4,ENCRYPTED"; "DEK-Info" := "DES,00"]} [1]%N) "pw" =
    Fail (PlainErr "unsupported cipher: DES").
Proof. repeat split; vm_compute; reflexivity. Qed.
End witnesses.
