(* ===== verification/KeyMaterial.v ===== *)
(** * Signing keys, minting and validating tokens ([services/keymaterial],
      [services/jwtminter], [services/jwtminter/KeyMaterialValidator])

    The key material holds signing keys with validity windows and keeps the active
    one decrypted until the next window boundary; the minter signs with it and
    keeps the parsed key; the validator accepts tokens signed by any configured
    key, if the key was valid when the token was issued.

    Times are nanoseconds ([Z]).  Concurrent calls of the key material are threads:
    a step is the reading of the clock or one section under the lock.  Signing,
    JWK handling and token parsing are library code, behind classes with laws. *)
From Stdlib Require Import Ascii.
From S2P Require Import Prelude GoText Claims Request KeyCrypt.
From stdpp Require Import options.

(** ** [contracts/jwtminter] *)
Record PublicJwk := mkPublicJwk {
  pub_Alg : string; pub_Crv : string; pub_Kid : string; pub_Kty : string; pub_Use : string;
  pub_X : string; pub_Y : string; pub_E : string; pub_N : string }.

Record PrivateJwk := mkPrivateJwk {
  prv_Alg : string; prv_Crv : string; prv_D : string; prv_Kid : string; prv_Kty : string; prv_Use : string;
  prv_X : string; prv_Y : string; prv_E : string; prv_N : string; prv_P : string; prv_Q : string;
  prv_Dp : string; prv_Dq : string; prv_Qi : string }.

Record SigningKey := mkKey {
  PrivateKey : string; DecryptedPrivateKey : string; sk_PublicKey : string;
  NotBefore : Z; NotAfter : Z; Password : string; Kid : string;
  sk_PublicJwk : PublicJwk; sk_PrivateJwk : PrivateJwk }.

(** What the key material promises its clients, per call at a clock reading. *)
Class IKeyMaterial (M KeySet : Type) := {
  GetSigningKey : Z → M → M * outcome (option SigningKey);
  GetSigningKeys : Z → M → M * outcome (list SigningKey);
  GetPublicWebKeys : Z → M → M * outcome (list PublicJwk);
  CreateKeySet : Z → M → M * outcome KeySet }.

(** ** [services/keymaterial/key-material.go] *)
Section keymaterial.
(** [DecryptPEM], of [KeyCrypt.v], with the libraries it uses. *)
Context (decrypt : bytes → bytes → outcome bytes).

Record kmservice := mkKM {
  keyMaterial : list SigningKey;
  nextFetchTime : Z;
  signingKey : option SigningKey;
  jwks : list PublicJwk }.

(** [time.Time{}], the first of January of year 1. *)
Definition zero_time : Z := -62135596800000000000.

Definition km_Ctor (keys : list SigningKey) : kmservice := mkKM keys zero_time None [].

Definition isActive (key : SigningKey) (now : Z) : bool := (NotBefore key <? now)%Z && (now <? NotAfter key)%Z.

(** [time.Unix(1<<62, 0)]. *)
Definition max_time : Z := 2 ^ 62 * 1000000000.

Definition boundary_step (now next t : Z) : Z := if negb (t <? now)%Z && (t <? next)%Z then t else next.

Definition nextKeyBoundary (keys : list SigningKey) (now : Z) : Z :=
  foldl (fun next key => foldl (boundary_step now) next [NotBefore key; NotAfter key]) max_time keys.

Definition reloadDue (s : kmservice) (now : Z) : bool :=
  match signingKey s with None => true | Some _ => (nextFetchTime s <? now)%Z end.

(** The loop over the configured keys: the last active one, and the public keys of all of them. *)
Definition active_step (now : Z) (acc : option SigningKey * list PublicJwk) (key : SigningKey)
  : option SigningKey * list PublicJwk :=
  if isActive key now then (Some key, acc.2 ++ [sk_PublicJwk key]) else acc.

Definition owned_copy (key : SigningKey) (decrypted : bytes) : SigningKey :=
  mkKey (PrivateKey key) (string_of_bytes decrypted) (sk_PublicKey key) (NotBefore key) (NotAfter key)
    (Password key) (Kid key) (sk_PublicJwk key) (sk_PrivateJwk key).

(** What a rebuild computes at [now]. *)
Definition rebuild (keys : list SigningKey) (now : Z) : outcome (SigningKey * list PublicJwk) :=
  let '(active, jwks) := foldl (active_step now) (None, []) keys in
  match active with
  | None => Fail (PlainErr "no valid signing keys found for current time")
  | Some key =>
    d ← wrap_error "failed to decrypt signing key: "
          (decrypt (bytes_of_string (PrivateKey key)) (bytes_of_string (Password key)));
    Reply (owned_copy key d, jwks)
  end.

(** [_reloadKeys] from [s.lock.Lock()] on. *)
Definition reload_section (s : kmservice) (now : Z) : kmservice * outcome unit :=
  if match signingKey s with Some _ => negb (nextFetchTime s <? now)%Z | None => false end then (s, Reply tt)
  else
    match rebuild (keyMaterial s) now with
    | Reply (owned, jw) => (mkKM (keyMaterial s) (nextKeyBoundary (keyMaterial s) now) (Some owned) jw, Reply tt)
    | Fail e => (s, Fail e)
    | Panicked => (s, Panicked)
    end.

Definition _reloadKeys (now : Z) (s : kmservice) : kmservice * outcome unit :=
  if reloadDue s now then reload_section s now else (s, Reply tt).

(** The getters: reload, then read under the lock. *)
Definition after_reload {A} (now : Z) (read : kmservice → A) (s : kmservice) : kmservice * outcome A :=
  let '(s', r) := _reloadKeys now s in
  (s', match r with Reply _ => Reply (read s') | Fail e => Fail e | Panicked => Panicked end).

Definition km_GetSigningKey (now : Z) : kmservice → kmservice * outcome (option SigningKey) := after_reload now signingKey.
Definition km_GetSigningKeys (now : Z) : kmservice → kmservice * outcome (list SigningKey) := after_reload now keyMaterial.
Definition km_GetPublicWebKeys (now : Z) : kmservice → kmservice * outcome (list PublicJwk) := after_reload now jwks.

(** ** Concurrent calls *)
Inductive getter := AskSigningKey | AskSigningKeys | AskPublicWebKeys.
Inductive answer := ASigningKey (k : option SigningKey) | ASigningKeys (l : list SigningKey) | AJwks (l : list PublicJwk).

Definition read_answer (g : getter) (s : kmservice) : answer :=
  match g with
  | AskSigningKey => ASigningKey (signingKey s)
  | AskSigningKeys => ASigningKeys (keyMaterial s)
  | AskPublicWebKeys => AJwks (jwks s)
  end.

(** Where a call is; [KDone] records the clock reading of the call and the time of its return. *)
Inductive kpc :=
| KStart
| KDue (now : Z)                     (* reloadDue, under the read lock *)
| KLock (now : Z)                    (* the section under the write lock *)
| KRead (now : Z)                    (* the read under the read lock *)
| KDone (now finish : Z) (r : outcome answer).

Definition kmstep (clock : Z) (g : getter) (p : kpc) (s : kmservice) : kmservice * kpc :=
  match p with
  | KStart => (s, KDue clock)
  | KDue now => (s, if reloadDue s now then KLock now else KRead now)
  | KLock now =>
      let '(s', r) := reload_section s now in
      (s', match r with
           | Reply _ => KRead now
           | Fail e => KDone now clock (Fail e)
           | Panicked => KDone now clock Panicked
           end)
  | KRead now => (s, KDone now clock (Reply (read_answer g s)))
  | KDone _ _ _ => (s, p)
  end.

Record kmsys := mkKMSys { ks_clock : Z; ks_svc : kmservice; ks_threads : list (getter * kpc) }.

Inductive kmsys_step : kmsys → kmsys → Prop :=
| kstep_tick c c' s ths : (c <= c' <= max_time)%Z → kmsys_step (mkKMSys c s ths) (mkKMSys c' s ths)
| kstep_call c s ths g : kmsys_step (mkKMSys c s ths) (mkKMSys c s (ths ++ [(g, KStart)]))
| kstep_thread c s ths i g p s' p' :
    ths !! i = Some (g, p) → kmstep c g p s = (s', p') →
    kmsys_step (mkKMSys c s ths) (mkKMSys c s' (<[i := (g, p')]> ths)).

Definition kmsys_init (c : Z) (keys : list SigningKey) : kmsys := mkKMSys c (km_Ctor keys) [].

(** ** Window boundaries *)
Lemma boundary_fold now ts next :
  let r := foldl (boundary_step now) next ts in
  (r <= next)%Z ∧ (∀ t, t ∈ ts → now <= t → r <= t)%Z ∧ (now <= next → now <= r)%Z.
Proof.
  revert next. induction ts as [|t ts IH]; intros next; cbn [foldl].
  { split_and!; [lia| |lia]. intros t Ht. by apply elem_of_nil in Ht. }
  destruct (IH (boundary_step now next t)) as (H1 & H2 & H3). cbv zeta in *.
  assert (Hs : (boundary_step now next t <= next)%Z ∧ (now <= t → boundary_step now next t <= t)%Z ∧
    (now <= next → now <= boundary_step now next t)%Z).
  { unfold boundary_step. destruct (Z.ltb_spec t now), (Z.ltb_spec t next); simpl; lia. }
  split_and!; [lia| |lia]. intros t' [->|Ht']%elem_of_cons; [lia|]. by apply H2.
Qed.

Definition boundaries (keys : list SigningKey) : list Z := keys ≫= fun k => [NotBefore k; NotAfter k].

Lemma nextKeyBoundary_fold keys now next :
  foldl (fun next key => foldl (boundary_step now) next [NotBefore key; NotAfter key]) next keys =
  foldl (boundary_step now) next (boundaries keys).
Proof. revert next. induction keys as [|k keys IH]; intros next; [done|]. simpl. by rewrite IH. Qed.

(** The next boundary: nothing changes before it, and it is not in the past. *)
Lemma nextKeyBoundary_spec keys now :
  (now <= max_time → now <= nextKeyBoundary keys now)%Z ∧
  ∀ k, k ∈ keys → (now <= NotBefore k → nextKeyBoundary keys now <= NotBefore k)%Z ∧
                   (now <= NotAfter k → nextKeyBoundary keys now <= NotAfter k)%Z.
Proof.
  unfold nextKeyBoundary. rewrite nextKeyBoundary_fold.
  destruct (boundary_fold now (boundaries keys) max_time) as (_ & Hle & Hge). split; [done|].
  intros k Hk. split; intros Hn; apply Hle; try done; apply list_elem_of_bind; exists k;
    (split; [|done]); repeat constructor.
Qed.

(** Between a rebuild and the next boundary the active keys stay the same, except
    that a key is still active at the instant of its [NotAfter]. *)
Lemma isActive_until keys t0 t k :
  (t0 <= t <= nextKeyBoundary keys t0)%Z → k ∈ keys →
  (isActive k t0 = true → NotBefore k < t <= NotAfter k)%Z ∧ (NotAfter k ≠ t → isActive k t = isActive k t0).
Proof.
  intros Ht Hk. destruct (nextKeyBoundary_spec keys t0) as [_ Hb]. destruct (Hb k Hk) as [Hnb Hna].
  unfold isActive. destruct (Z.ltb_spec (NotBefore k) t0), (Z.ltb_spec t0 (NotAfter k)),
    (Z.ltb_spec (NotBefore k) t), (Z.ltb_spec t (NotAfter k)); simpl; lia.
Qed.

Lemma active_step_ext t0 t keys acc :
  (∀ k, k ∈ keys → isActive k t = isActive k t0) → foldl (active_step t) acc keys = foldl (active_step t0) acc keys.
Proof.
  revert acc. induction keys as [|k keys IH]; intros acc Heq; [done|]. simpl. unfold active_step at 2 4.
  rewrite (Heq k) by left. apply IH. intros k' Hk'. apply Heq. by right.
Qed.

Lemma rebuild_ext keys t0 t :
  (∀ k, k ∈ keys → isActive k t = isActive k t0) → rebuild keys t = rebuild keys t0.
Proof. intros Heq. unfold rebuild. by rewrite (active_step_ext t0 t). Qed.

Lemma active_fold keys now acc k l :
  foldl (active_step now) acc keys = (Some k, l) → acc.1 = Some k ∨ (k ∈ keys ∧ isActive k now = true).
Proof.
  revert acc. induction keys as [|k' keys IH]; intros acc; simpl; [intros ->; by left|].
  intros [Ha|[Hk Ha]]%IH; [|right; split; [by right|done]].
  unfold active_step in Ha. destruct (isActive k' now) eqn:E; [|by left]. simplify_eq/=. right. split; [left|done].
Qed.

(** The key of a rebuild is a configured key, active at that time, decrypted. *)
Lemma rebuild_key keys now k jw :
  rebuild keys now = Reply (k, jw) →
  ∃ key d, key ∈ keys ∧ isActive key now = true ∧ k = owned_copy key d ∧
    decrypt (bytes_of_string (PrivateKey key)) (bytes_of_string (Password key)) = Reply d.
Proof.
  unfold rebuild. destruct (foldl _ _ keys) as [[key|] l] eqn:Hf; [|done].
  intros (d & Hd%wrap_error_Reply & [= <- _])%outcome_bind_Reply.
  apply active_fold in Hf as [|[Hk Ha]]; [done|]. by exists key, d.
Qed.

(** What may be served at [t]: what a rebuild at [t] gives; at the instant of a
    [NotAfter], the key that expires then may still be served. *)
Definition current (keys : list SigningKey) (t : Z) (k : SigningKey) (jw : list PublicJwk) : Prop :=
  (NotBefore k < t <= NotAfter k)%Z ∧ ((∀ k', k' ∈ keys → NotAfter k' ≠ t) → rebuild keys t = Reply (k, jw)).

Lemma current_until keys t0 t k jw :
  (t0 <= t <= nextKeyBoundary keys t0)%Z → rebuild keys t0 = Reply (k, jw) → current keys t k jw.
Proof.
  intros Ht Hr. split.
  - destruct (rebuild_key _ _ _ _ Hr) as (key & d & Hk & Ha & -> & _). by apply (isActive_until keys t0 t key Ht Hk).
  - intros Hna. rewrite (rebuild_ext keys t0 t); [done|]. intros k' Hk'. apply (isActive_until keys t0 t k' Ht Hk'). by apply Hna.
Qed.

(** ** The invariant of the service *)
Record svc_ok (keys : list SigningKey) (clock : Z) (s : kmservice) : Prop := {
  so_keys : keyMaterial s = keys;
  so_cache k : signingKey s = Some k →
    ∃ t0, (t0 <= clock)%Z ∧ rebuild keys t0 = Reply (k, jwks s) ∧ nextFetchTime s = nextKeyBoundary keys t0 }.

(** The service has a key that covers a call which read the clock at [now]. *)
Definition covers (s : kmservice) (now : Z) : Prop := is_Some (signingKey s) ∧ (now <= nextFetchTime s)%Z.

Lemma svc_ok_later keys c c' s : (c <= c')%Z → svc_ok keys c s → svc_ok keys c' s.
Proof. intros Hc [Hk Ha]. split; [done|]. intros k (t0 & ? & ? & ?)%Ha. exists t0. split_and!; [lia|done|done]. Qed.

Lemma reloadDue_false s now : reloadDue s now = false → covers s now.
Proof. unfold reloadDue, covers. destruct (signingKey s); [|done]. intros H%Z.ltb_ge. split; [done|lia]. Qed.

Lemma reload_section_spec keys clock s now s' r :
  svc_ok keys clock s → (now <= clock <= max_time)%Z → reload_section s now = (s', r) →
  svc_ok keys clock s' ∧ (∀ t, covers s t → covers s' t) ∧
  match r with
  | Reply _ => covers s' now
  | Fail e => rebuild keys now = Fail e
  | Panicked => rebuild keys now = Panicked
  end.
Proof.
  intros Hok Hnow. unfold reload_section. destruct (match signingKey s with Some _ => _ | None => false end) eqn:Hf.
  - intros [= <- <-]. split_and!; [done|done|]. destruct (signingKey s) eqn:Ek; [|done].
    apply negb_true_iff, Z.ltb_ge in Hf. split; [by rewrite Ek|lia].
  - rewrite (so_keys _ _ _ Hok). destruct (rebuild keys now) as [[owned jw]|e|] eqn:Hr; intros [= <- <-]; [|done|done].
    destruct (nextKeyBoundary_spec keys now) as [Hge _]. split_and!.
    + split; [done|]. simpl. intros k [= <-]. exists now. split_and!; [lia|done|done].
    + intros t [[k Hk] Ht]. split; [done|]. simpl. rewrite Hk in Hf. apply negb_false_iff, Z.ltb_lt in Hf. lia.
    + split; [done|]. simpl. lia.
Qed.

(** What a finished call may have answered. *)
Definition good_answer (keys : list SigningKey) (g : getter) (now finish : Z) (r : outcome answer) : Prop :=
  ∃ t, (now <= t <= finish)%Z ∧
  match r with
  | Reply a => ∃ k jw, current keys t k jw ∧
      a = match g with AskSigningKey => ASigningKey (Some k) | AskSigningKeys => ASigningKeys keys | AskPublicWebKeys => AJwks jw end
  | Fail e => rebuild keys t = Fail e
  | Panicked => rebuild keys t = Panicked
  end.

Definition thread_ok (keys : list SigningKey) (clock : Z) (s : kmservice) (th : getter * kpc) : Prop :=
  match th.2 with
  | KStart => True
  | KDue now | KLock now => (now <= clock)%Z
  | KRead now => (now <= clock)%Z ∧ covers s now
  | KDone now finish r => good_answer keys th.1 now finish r
  end.

(** A read at a moment when the service covers the call. *)
Lemma read_good keys clock s g now :
  svc_ok keys clock s → (now <= clock <= max_time)%Z → covers s now →
  good_answer keys g now clock (Reply (read_answer g s)).
Proof.
  intros Hok Hc [[k Hk] Hn]. destruct (so_cache _ _ _ Hok k Hk) as (t0 & Ht0 & Hr & Hnext).
  destruct (nextKeyBoundary_spec keys t0) as [Hge _]. exists (Z.max now t0). split; [lia|]. exists k, (jwks s). split.
  - apply (current_until keys t0); [lia|done].
  - destruct g; simpl; [by rewrite Hk|by rewrite (so_keys _ _ _ Hok)|done].
Qed.

Lemma kmstep_ok keys clock s g p s' p' :
  svc_ok keys clock s → (clock <= max_time)%Z → thread_ok keys clock s (g, p) → kmstep clock g p s = (s', p') →
  svc_ok keys clock s' ∧ (∀ t, covers s t → covers s' t) ∧ thread_ok keys clock s' (g, p').
Proof.
  intros Hok Hc Hth. destruct p as [|now|now|now|now fin r]; cbn [kmstep]; unfold thread_ok in *; simpl in Hth.
  - intros [= <- <-]. split_and!; [done|done|simpl; lia].
  - intros [= <- <-]. split_and!; [done|done|]. destruct (reloadDue s now) eqn:E; simpl; [done|].
    split; [done|]. by apply reloadDue_false.
  - destruct (reload_section s now) as [s1 r] eqn:Hr. intros [= <- <-].
    destruct (reload_section_spec _ _ _ _ _ _ Hok (conj Hth Hc) Hr) as (Hok' & Hcov & Hres).
    split_and!; [done|done|]. destruct r; simpl; [done|exists now; split; [lia|done]|exists now; split; [lia|done]].
  - intros [= <- <-]. destruct Hth as [Hn Hcov]. split_and!; [done|done|]. simpl. by apply read_good.
  - by intros [= <- <-].
Qed.

Record kmsys_ok (keys : list SigningKey) (y : kmsys) : Prop := {
  yo_clock : (ks_clock y <= max_time)%Z;
  yo_svc : svc_ok keys (ks_clock y) (ks_svc y);
  yo_threads : Forall (thread_ok keys (ks_clock y) (ks_svc y)) (ks_threads y) }.

Lemma thread_ok_mono keys c c' s s' th :
  (c <= c')%Z → (∀ t, covers s t → covers s' t) → thread_ok keys c s th → thread_ok keys c' s' th.
Proof. intros Hc Hcov. unfold thread_ok. destruct th as [g []]; simpl; naive_solver lia. Qed.

Lemma kmsys_step_ok keys y y' : kmsys_step y y' → kmsys_ok keys y → kmsys_ok keys y'.
Proof.
  intros Hstep [Hc Hs Ht]. destruct Hstep as [c c' s ths Hle|c s ths g|c s ths i g p s' p' Hi Hk]; simpl in *.
  - split; simpl; [lia|by eapply svc_ok_later; [|done]; lia|]. eapply Forall_impl; [done|].
    intros th. apply thread_ok_mono; [lia|done].
  - split; simpl; [done|done|]. apply Forall_app_2; [done|]. by constructor.
  - assert (Hth : thread_ok keys c s (g, p)) by (by eapply Forall_lookup_1).
    destruct (kmstep_ok _ _ _ _ _ _ _ Hs Hc Hth Hk) as (Hs' & Hcov & Hth'). split; simpl; [done|done|].
    apply Forall_insert; [|done]. eapply Forall_impl; [done|]. intros th. by apply thread_ok_mono.
Qed.

Lemma kmsys_init_ok c keys : (c <= max_time)%Z → kmsys_ok keys (kmsys_init c keys).
Proof. intros Hc. split; simpl; [done| |done]. split; [done|]. by intros k. Qed.

(** C30: Key rotation.  In every interleaving of concurrent calls with the clock, a
    call that returned has answered for an instant between its start and its
    return: with the signing key (and the published keys) a fresh rebuild at that
    instant gives, whose window contains the instant, or with the error of such a
    rebuild.  The cache never serves a key past its [NotAfter] and never keeps a
    call from seeing a key that became active.  (At the very instant of a
    [NotAfter] the expiring key may still be served.) *)
Theorem signing_key_never_stale c0 keys y i g now finish r :
  (c0 <= max_time)%Z → rtc kmsys_step (kmsys_init c0 keys) y →
  ks_threads y !! i = Some (g, KDone now finish r) →
  ∃ t, (now <= t <= finish)%Z ∧
  match r with
  | Reply a => ∃ k jw, (NotBefore k < t <= NotAfter k)%Z ∧
      ((∀ k', k' ∈ keys → NotAfter k' ≠ t) → rebuild keys t = Reply (k, jw)) ∧
      a = match g with AskSigningKey => ASigningKey (Some k) | AskSigningKeys => ASigningKeys keys | AskPublicWebKeys => AJwks jw end
  | Fail e => rebuild keys t = Fail e
  | Panicked => rebuild keys t = Panicked
  end.
Proof.
  intros Hc0 Hrtc Hi. assert (Hok : kmsys_ok keys y).
  { eapply (rtc_ind_r (kmsys_ok keys)); [by apply kmsys_init_ok| |done]. intros a b _ Hab Ha. by eapply kmsys_step_ok. }
  destruct (proj1 (Forall_lookup _ _) (yo_threads _ _ Hok) i _ Hi) as (t & Ht & Ha). exists t. split; [done|].
  destruct r; [|done|done]. destruct Ha as (k & jw & [Hw Hr] & ->). by exists k, jw.
Qed.

(** One call on its own takes the same steps as the sequential code. *)
Lemma calls_are_sequential clock g s :
  let '(s1, p1) := kmstep clock g KStart s in
  let '(s2, p2) := kmstep clock g p1 s1 in
  let '(s3, p3) := kmstep clock g p2 s2 in
  let '(s4, p4) := kmstep clock g p3 s3 in
  p4 = KDone clock clock (after_reload clock (read_answer g) s).2 ∧ s4 = (after_reload clock (read_answer g) s).1.
Proof.
  unfold after_reload, _reloadKeys. simpl. destruct (reloadDue s clock); simpl; [|done].
  destruct (reload_section s clock) as [s' []]; done.
Qed.
End keymaterial.
Arguments kmservice : clear implicits.

(** [CreateKeySet]: the public keys of every configured key, active or not. *)
Class JwkLib (K KeySet : Type) := {
  json_Marshal : PrivateJwk → result error bytes;
  jwk_ParseKey : bytes → result error K;
  jwk_PublicKeyOf : K → result error K;
  jwk_NewSet : KeySet;
  jwk_AddKey : KeySet → K → KeySet }.

Section keyset.
Context {K KeySet : Type} `{JwkLib K KeySet} (decrypt : bytes → bytes → outcome bytes).

Fixpoint add_public_keys (set : KeySet) (keys : list SigningKey) : outcome KeySet :=
  match keys with
  | [] => Reply set
  | key :: keys' =>
    keyB ← wrap_error "failed to marshal private JWK: " (of_result (json_Marshal (sk_PrivateJwk key)));
    privkey ← of_result (jwk_ParseKey keyB);
    pubkey ← of_result (jwk_PublicKeyOf privkey);
    add_public_keys (jwk_AddKey set pubkey) keys'
  end.

Definition km_CreateKeySet (now : Z) (s : kmservice) : kmservice * outcome KeySet :=
  let '(s', r) := km_GetSigningKeys decrypt now s in
  (s', keys ← r; add_public_keys jwk_NewSet keys).

#[export] Instance km_IKeyMaterial : IKeyMaterial kmservice KeySet := {|
  GetSigningKey := km_GetSigningKey decrypt;
  GetSigningKeys := km_GetSigningKeys decrypt;
  GetPublicWebKeys := km_GetPublicWebKeys decrypt;
  CreateKeySet := km_CreateKeySet |}.
End keyset.

(** ** [services/jwtminter/jwt-minter.go] *)
Inductive SigningMethod := RS256 | RS384 | RS512 | ES256 | ES384 | ES512 | EdDSA.

(** [golang-jwt/jwt]: [SignedString method kid claims key] is
    [NewWithClaims], [Header["kid"] = kid], [SignedString]. *)
Class JwtLib (Key Cl : Type) := {
  ParseEdPrivateKeyFromPEM : string → result error Key;
  ParseECPrivateKeyFromPEM : string → result error Key;
  ParseRSAPrivateKeyFromPEM : string → result error Key;
  SignedString : SigningMethod → string → Cl → Key → result error string }.

Record minter (Key : Type) := mkMinter { keyAlg : string; keyPEM : string; keyParsed : option Key }.
Arguments mkMinter {Key}. Arguments keyAlg {Key}. Arguments keyPEM {Key}. Arguments keyParsed {Key}.

Section minter.
Context {M KeySet Key Cl : Type} `{IKM : IKeyMaterial M KeySet} `{HJ : JwtLib Key Cl}.

Definition minter_Ctor : minter Key := mkMinter "" "" None.

Definition parsedKey (m : minter Key) (alg pem : string) (parse : result error Key) : minter Key * result error Key :=
  let miss := match parse with
              | Err e => (m, Err e)
              | Ok key => (mkMinter alg pem (Some key), Ok key)
              end in
  match keyParsed m with
  | Some key => if decide (keyAlg m = alg ∧ keyPEM m = pem) then (m, Ok key) else miss
  | None => miss
  end.

Definition signing_method (alg : string) : option SigningMethod :=
  if decide (alg = "RS256") then Some RS256
  else if decide (alg = "RS384") then Some RS384
  else if decide (alg = "RS512") then Some RS512
  else if decide (alg = "ES256") then Some ES256
  else if decide (alg = "ES384") then Some ES384
  else if decide (alg = "ES512") then Some ES512
  else if decide (alg = "EdDSA") then Some EdDSA
  else None.

Definition getKey (alg pem : string) : result error Key :=
  if strings_HasPrefix alg "Ed" then ParseEdPrivateKeyFromPEM pem
  else if strings_HasPrefix alg "ES" then ParseECPrivateKeyFromPEM pem
  else ParseRSAPrivateKeyFromPEM pem.

(** [MintToken] at a clock reading, over the key material and the minter's own state. *)
Definition MintToken (now : Z) (claims : Cl) (st : M * minter Key) : (M * minter Key) * outcome string :=
  let '(km, m) := st in
  let '(km, r) := GetSigningKey now km in
  match r with
  | Panicked => ((km, m), Panicked)
  | Fail e => ((km, m), Fail e)
  | Reply None => ((km, m), Panicked)
  | Reply (Some signingKey) =>
    let alg := prv_Alg (sk_PrivateJwk signingKey) in
    match signing_method alg with
    | None => ((km, m), Fail (StatusErr InvalidArgument ("unsupported signing method: " +:+ alg)))
    | Some method =>
      let '(m, key) := parsedKey m alg (DecryptedPrivateKey signingKey) (getKey alg (DecryptedPrivateKey signingKey)) in
      match key with
      | Err e => ((km, m), Fail e)
      | Ok key => ((km, m), of_result (SignedString method (Kid signingKey) claims key))
      end
    end
  end.

Definition PublicKeys (now : Z) (st : M * minter Key) : (M * minter Key) * outcome (list PublicJwk) :=
  let '(km, r) := GetPublicWebKeys now st.1 in ((km, st.2), r).

(** The same without the cache of the parsed key. *)
Definition mint_with (signingKey : SigningKey) (claims : Cl) : outcome string :=
  let alg := prv_Alg (sk_PrivateJwk signingKey) in
  match signing_method alg with
  | None => Fail (StatusErr InvalidArgument ("unsupported signing method: " +:+ alg))
  | Some method =>
    key ← of_result (getKey alg (DecryptedPrivateKey signingKey));
    of_result (SignedString method (Kid signingKey) claims key)
  end.

Definition mint_uncached (now : Z) (claims : Cl) (km : M) : M * outcome string :=
  let '(km, r) := GetSigningKey now km in
  (km, k ← r; match k with Some signingKey => mint_with signingKey claims | None => Panicked end).

Fixpoint mint_all (reqs : list (Z * Cl)) (st : M * minter Key) : list (outcome string) :=
  match reqs with
  | [] => []
  | (now, claims) :: reqs' => let '(st', r) := MintToken now claims st in r :: mint_all reqs' st'
  end.

Fixpoint mint_all_uncached (reqs : list (Z * Cl)) (km : M) : list (outcome string) :=
  match reqs with
  | [] => []
  | (now, claims) :: reqs' => let '(km', r) := mint_uncached now claims km in r :: mint_all_uncached reqs' km'
  end.

(** The cached key is the parse of what it is cached under. *)
Definition minter_ok (m : minter Key) : Prop :=
  ∀ key, keyParsed m = Some key → getKey (keyAlg m) (keyPEM m) = Ok key.

Lemma parsedKey_spec m alg pem :
  minter_ok m → (parsedKey m alg pem (getKey alg pem)).2 = getKey alg pem ∧ minter_ok (parsedKey m alg pem (getKey alg pem)).1.
Proof.
  intros Hm. unfold parsedKey.
  assert (Hmiss : let r := match getKey alg pem with Err e => (m, Err e) | Ok key => (mkMinter alg pem (Some key), Ok key) end in
    r.2 = getKey alg pem ∧ minter_ok r.1).
  { destruct (getKey alg pem) eqn:E; simpl; [|done]. split; [done|]. by intros k [= <-]. }
  destruct (keyParsed m) as [key|] eqn:Ek; [|done]. case_decide as Hd; [|done].
  destruct Hd as [<- <-]. simpl. by rewrite (Hm key Ek).
Qed.

Lemma MintToken_uncached now claims km m :
  minter_ok m → let '((km', m'), r) := MintToken now claims (km, m) in
  minter_ok m' ∧ mint_uncached now claims km = (km', r).
Proof.
  intros Hm. unfold MintToken, mint_uncached. destruct (GetSigningKey now km) as [km' [[k|]|e|]]; try done.
  cbn [mbind outcome_bind]. unfold mint_with. destruct (signing_method _) as [meth|]; [|done].
  destruct (parsedKey_spec m (prv_Alg (sk_PrivateJwk k)) (DecryptedPrivateKey k) Hm) as [H2 H1].
  destruct (parsedKey m _ _ _) as [m' key]. simpl in H1, H2. subst key.
  destruct (getKey _ _); done.
Qed.

(** The minter's cache of the parsed key is transparent: over any sequence of
    mints, with any key rotation in between, every call returns what parsing the
    current key afresh and signing with it returns, errors included. *)
Theorem minter_cache_transparent reqs (km : M) :
  mint_all reqs (km, minter_Ctor) = mint_all_uncached reqs km.
Proof.
  assert (Hgen : ∀ reqs km m, minter_ok m → mint_all reqs (km, m) = mint_all_uncached reqs km).
  { clear. induction reqs as [|[now claims] reqs IH]; intros km m Hm; [done|].
    cbn [mint_all mint_all_uncached]. pose proof (MintToken_uncached now claims km m Hm) as Hs.
    destruct (MintToken now claims (km, m)) as [[km' m'] r]. destruct Hs as [Hm' ->]. f_equal. by apply IH. }
  apply Hgen. by intros key.
Qed.
End minter.
Arguments minter_Ctor {Key}.

(** ** [services/jwtminter/KeyMaterialValidator] *)
Class JwtVerify (Token KeySet : Type) := {
  jwxt_ParseVerified : string → KeySet → result error Token;     (* ParseString, WithKeySet *)
  jwxt_ParseUnverified : string → result error Token;            (* ParseString, WithVerify(false) *)
  (* Validate at a clock reading, WithIssuer, WithAcceptableSkew, WithRequiredClaim(exp) *)
  jwxt_Validate : Z → option string → Z → Token → result error unit;
  tok_Issuer : Token → option string;
  tok_Expiration : Token → option Z;
  tok_IssuedAt : Token → option Z;
  jws_kids : string → result error (list (option string)) }.     (* jws.ParseString, KeyID of each signature *)

Class JwtVerifyLaws (Token KeySet : Type) `{JwtVerify Token KeySet} := {
  Validate_checks now iss skew tok : jwxt_Validate now iss skew tok = Ok tt →
    (∃ exp, tok_Expiration tok = Some exp ∧ (now <= exp + skew)%Z) ∧ ∀ i, iss = Some i → tok_Issuer tok = Some i }.

(** [contracts/middleware/auth/jwt], the fields that are read. *)
Record JWTValidatorOptions := mkOptions {
  ClockSkewMinutes : Z; ValidateSignature : option bool; ValidateIssuer : option bool; opt_Issuer : string }.

Record validator (KeySet : Type) := mkValidator {
  va_options : JWTValidatorOptions; va_keySet : KeySet; va_keysByKid : gmap string SigningKey }.
Arguments mkValidator {KeySet}. Arguments va_options {KeySet}. Arguments va_keySet {KeySet}. Arguments va_keysByKid {KeySet}.

Section validator.
Context `{UT : UnicodeTables} {M KeySet Token : Type} `{IKM : IKeyMaterial M KeySet} `{HV : JwtVerify Token KeySet}.
(** [t.UTC().Format(time.RFC3339)]. *)
Context (fmt_time : Z → string).

Definition keys_by_kid (keys : list SigningKey) : gmap string SigningKey := foldl (fun m k => <[Kid k := k]> m) ∅ keys.

Definition validator_Ctor (now1 now2 : Z) (options : JWTValidatorOptions) (km : M) : M * outcome (validator KeySet) :=
  let '(km, r) := CreateKeySet now1 km in
  match r with
  | Panicked => (km, Panicked)
  | Fail e => (km, Fail e)
  | Reply keySet =>
    let '(km, r) := GetSigningKeys now2 km in
    (km, keys ← r; Reply (mkValidator options keySet (keys_by_kid keys)))
  end.

Definition shouldValidateSignature (s : validator KeySet) : bool := default true (ValidateSignature (va_options s)).
Definition shouldValidateIssuer (s : validator KeySet) : bool := default true (ValidateIssuer (va_options s)).

(** [time.Minute * time.Duration(n)], on 64 bits. *)
Definition clockSkew (s : validator KeySet) : Z := wrap64 (60000000000 * ClockSkewMinutes (va_options s)).

Definition checkSigningKeyWindow (s : validator KeySet) (now : Z) (accessToken : string) (token : Token) : outcome unit :=
  kids ← of_result (jws_kids accessToken);
  match kids with
  | [] => Fail (PlainErr "token has no signature")
  | k :: _ =>
    let kid := default "" k in
    match va_keysByKid s !! kid with
    | None => Fail (PlainErr ("token signed with unknown key " +:+ Quote kid))
    | Some key =>
      let issued := default zero_time (tok_IssuedAt token) in
      let issued := if decide (issued = zero_time) then now else issued in
      let skew := clockSkew s in
      if decide (issued < NotBefore key + wrap64 (- skew) ∨ NotAfter key + skew < issued)%Z then
        Fail (PlainErr ("token issued at " +:+ fmt_time issued +:+ " outside signing key " +:+ Quote kid +:+
          " validity [" +:+ fmt_time (NotBefore key) +:+ ", " +:+ fmt_time (NotAfter key) +:+ "]"))
      else Reply tt
    end
  end.

(** [now1] is the reading of [jwxt.Validate], [now2] that of the window check. *)
Definition ParseAccessTokenRaw (s : validator KeySet) (now1 now2 : Z) (accessToken : string) : outcome Token :=
  token ← of_result (if shouldValidateSignature s then jwxt_ParseVerified accessToken (va_keySet s)
                     else jwxt_ParseUnverified accessToken);
  _ ← of_result (jwxt_Validate now1 (if shouldValidateIssuer s then Some (opt_Issuer (va_options s)) else None)
                   (clockSkew s) token);
  _ ← (if shouldValidateSignature s then checkSigningKeyWindow s now2 accessToken token else Reply tt);
  Reply token.

Definition kmv_ValidateAccessToken (s : validator KeySet) (now1 now2 : Z) (accessToken : string) : outcome bool :=
  _ ← ParseAccessTokenRaw s now1 now2 accessToken; Reply true.

Lemma keys_by_kid_sound keys kid key : keys_by_kid keys !! kid = Some key → key ∈ keys ∧ Kid key = kid.
Proof.
  unfold keys_by_kid. assert (Hgen : ∀ m : gmap string SigningKey, foldl (fun m k => <[Kid k := k]> m) m keys !! kid = Some key →
    m !! kid = Some key ∨ (key ∈ keys ∧ Kid key = kid)).
  { induction keys as [|k keys IH]; intros m; simpl; [by left|]. intros [Hm|[? ?]]%IH; [|right; split; [by right|done]].
    apply lookup_insert_Some in Hm as [[? ?]|[_ ?]]; [|by left]. subst. right. split; [left|done]. }
  intros [Hm|?]%Hgen; [|done]. by rewrite lookup_empty in Hm.
Qed.

Lemma keys_by_kid_complete keys key : NoDup (Kid <$> keys) → key ∈ keys → keys_by_kid keys !! Kid key = Some key.
Proof.
  unfold keys_by_kid. assert (Hgen : ∀ m : gmap string SigningKey, NoDup (Kid <$> keys) → (key ∈ keys ∨ (m !! Kid key = Some key ∧ (Kid key) ∉ (Kid <$> keys))) →
    foldl (fun m k => <[Kid k := k]> m) m keys !! Kid key = Some key).
  { induction keys as [|k keys IH]; intros m Hnd Hk; simpl; [by destruct Hk as [Hk%elem_of_nil|[? _]]|].
    apply NoDup_cons in Hnd as [Hni Hnd]. apply IH; [done|]. destruct Hk as [[->|Hk]%elem_of_cons|[Hm Hni']].
    - right. split; [by rewrite lookup_insert_eq|done].
    - by left.
    - right. rewrite fmap_cons, not_elem_of_cons in Hni'. destruct Hni'. by rewrite lookup_insert_ne. }
  intros Hnd Hk. apply Hgen; [done|by left].
Qed.

(** A token that passed the window check. *)
Definition in_window (s : validator KeySet) (now : Z) (raw : string) (tok : Token) : Prop :=
  ∃ kid rest key, jws_kids raw = Ok (kid :: rest) ∧ va_keysByKid s !! default "" kid = Some key ∧
    let iat := default zero_time (tok_IssuedAt tok) in
    let issued := if decide (iat = zero_time) then now else iat in
    (NotBefore key + wrap64 (- clockSkew s) <= issued <= NotAfter key + clockSkew s)%Z.

Lemma checkSigningKeyWindow_Reply s now raw tok :
  checkSigningKeyWindow s now raw tok = Reply tt ↔ in_window s now raw tok.
Proof.
  unfold checkSigningKeyWindow, in_window. split.
  - intros ([|kid rest] & Hk%of_result_Reply & Hr)%outcome_bind_Reply; [done|].
    destruct (va_keysByKid s !! default "" kid) as [key|] eqn:E; [|done].
    destruct (decide (_ ∨ _)) as [|Hw]; [done|]. exists kid, rest, key. split_and!; [done|done|lia|lia].
  - intros (kid & rest & key & -> & Hk & Hw). cbn [of_result]. rewrite Reply_bind, Hk. by rewrite decide_False by lia.
Qed.

(** C36: A token is accepted, with the signature checked, only if it verifies
    under the configured key set, its [exp] is present and not past, its issuer is
    the configured one (unless switched off), and the configured key its header
    names was in its validity window when the token was issued, the clock skew
    aside: a retired key cannot mint new tokens.  A token without [iat] needs a key
    that is valid now. *)
Theorem validator_accepts_only_vouched `{HL : !JwtVerifyLaws Token KeySet} s now1 now2 raw tok :
  (0 <= ClockSkewMinutes (va_options s) <= 153722867)%Z →
  shouldValidateSignature s = true → ParseAccessTokenRaw s now1 now2 raw = Reply tok →
  let skew := (60000000000 * ClockSkewMinutes (va_options s))%Z in
  jwxt_ParseVerified raw (va_keySet s) = Ok tok ∧
  (∃ exp, tok_Expiration tok = Some exp ∧ (now1 <= exp + skew)%Z) ∧
  (shouldValidateIssuer s = true → tok_Issuer tok = Some (opt_Issuer (va_options s))) ∧
  ∃ kid rest key, jws_kids raw = Ok (kid :: rest) ∧ va_keysByKid s !! default "" kid = Some key ∧
    (∀ iat, tok_IssuedAt tok = Some iat → iat ≠ zero_time → NotBefore key - skew <= iat <= NotAfter key + skew)%Z ∧
    (tok_IssuedAt tok = None → NotBefore key - skew <= now2 <= NotAfter key + skew)%Z.
Proof.
  intros Hsk Hsig. assert (Hc : clockSkew s = (60000000000 * ClockSkewMinutes (va_options s))%Z ∧
    wrap64 (- clockSkew s) = (- (60000000000 * ClockSkewMinutes (va_options s)))%Z).
  { unfold clockSkew. rewrite (wrap64_small (60000000000 * _)) by lia. split; [done|]. apply wrap64_small. lia. }
  destruct Hc as [Hc Hc']. unfold ParseAccessTokenRaw. rewrite Hsig.
  intros (tok' & Hp%of_result_Reply & Hr)%outcome_bind_Reply. apply outcome_bind_Reply in Hr as ([] & Hv%of_result_Reply & Hr).
  apply outcome_bind_Reply in Hr as ([] & (kid & rest & key & Hk & Hl & Hw)%checkSigningKeyWindow_Reply & [= ->]).
  rewrite Hc in Hv. apply Validate_checks in Hv as [He Hi]. split_and!; [done|done| |].
  - intros Hiss. rewrite Hiss in Hi. by apply Hi.
  - exists kid, rest, key. rewrite Hc', Hc in Hw. split_and!; [done|done| |].
    + intros iat Hiat Hnz. rewrite Hiat in Hw. cbn [default id] in Hw. rewrite decide_False in Hw by done. lia.
    + intros Hnone. rewrite Hnone in Hw. cbn [default id] in Hw. rewrite decide_True in Hw by done. lia.
Qed.
End validator.

(** ** Minting, then validating *)
Class TokenLaws {K KeySet Key Cl Token : Type} `{JwkLib K KeySet} `{JwtLib Key Cl} `{JwtVerify Token KeySet}
    (pair : SigningMethod → Key → K → Prop) (kid_of : K → string) (has : KeySet → K → Prop) (token_of : Cl → Token) := {
  set_new k : ¬ has jwk_NewSet k;
  set_add set k k' : has (jwk_AddKey set k) k' ↔ k' = k ∨ has set k';
  (* a signature verifies under a set whose only key of that name belongs to the signer *)
  sign_verify m kid claims key raw set pub :
    SignedString m kid claims key = Ok raw → has set pub → kid_of pub = kid → pair m key pub →
    (∀ k', has set k' → kid_of k' = kid → k' = pub) →
    jwxt_ParseVerified raw set = Ok (token_of claims) ∧ jws_kids raw = Ok [Some kid] }.

Section mint_validate.
Context `{UT : UnicodeTables} {K KeySet Key Cl Token : Type}
  `{HK : JwkLib K KeySet} `{HJ : JwtLib Key Cl} `{HV : JwtVerify Token KeySet}.
Context {pair : SigningMethod → Key → K → Prop} {kid_of : K → string} {has : KeySet → K → Prop} {token_of : Cl → Token}
  {TL : TokenLaws pair kid_of has token_of}.
Context (decrypt : bytes → bytes → outcome bytes) (fmt_time : Z → string).

Definition public_of (key : SigningKey) (pub : K) : Prop :=
  ∃ b priv, json_Marshal (sk_PrivateJwk key) = Ok b ∧ jwk_ParseKey b = Ok priv ∧ jwk_PublicKeyOf priv = Ok pub.

(** A configuration whose names are distinct and whose JWKs and PEM files belong together. *)
Record config_ok (keys : list SigningKey) : Prop := {
  co_distinct : NoDup (Kid <$> keys);
  co_kid key pub : key ∈ keys → public_of key pub → kid_of pub = Kid key;
  co_pair key pub d m k : key ∈ keys → public_of key pub →
    decrypt (bytes_of_string (PrivateKey key)) (bytes_of_string (Password key)) = Reply d →
    signing_method (prv_Alg (sk_PrivateJwk key)) = Some m →
    getKey (prv_Alg (sk_PrivateJwk key)) (string_of_bytes d) = Ok k → pair m k pub }.

Lemma add_public_keys_spec set keys set' :
  add_public_keys set keys = Reply set' →
  (∀ key, key ∈ keys → ∃ pub, public_of key pub ∧ has set' pub) ∧
  ∀ pub, has set' pub → has set pub ∨ ∃ key, key ∈ keys ∧ public_of key pub.
Proof using TL.
  assert (Hmono : ∀ keys set set', add_public_keys set keys = Reply set' → ∀ pub, has set pub → has set' pub).
  { clear keys set set'. induction keys as [|key keys IH]; intros set set'; simpl; [by intros [= <-]|].
    intros (b & _ & Hr)%outcome_bind_Reply. apply outcome_bind_Reply in Hr as (priv & _ & Hr).
    apply outcome_bind_Reply in Hr as (pub & _ & Hr). intros p Hp. eapply IH; [exact Hr|]. apply set_add. by right. }
  revert set. induction keys as [|key keys IH]; intros set; simpl.
  { intros [= <-]. split; [by intros key Hk%elem_of_nil|by left]. }
  intros (b & Hb%wrap_error_Reply%of_result_Reply & Hr)%outcome_bind_Reply.
  apply outcome_bind_Reply in Hr as (priv & Hp%of_result_Reply & Hr).
  apply outcome_bind_Reply in Hr as (pub & Hpub%of_result_Reply & Hr).
  assert (Hof : public_of key pub) by (by exists b, priv). destruct (IH _ Hr) as [IH1 IH2]. split.
  - intros k [->|Hk]%elem_of_cons; [|by apply IH1]. exists pub. split; [done|]. eapply Hmono; [done|]. apply set_add. by left.
  - intros p [Hset|(k & Hk & ?)]%IH2; [|right; exists k; split; [by right|done]].
    apply set_add in Hset as [->|]; [|by left]. right. exists key. split; [left|done].
Qed.

Lemma reload_keys now s : keyMaterial (_reloadKeys decrypt now s).1 = keyMaterial s.
Proof.
  unfold _reloadKeys, reload_section. destruct (reloadDue s now); [|done].
  destruct (match signingKey s with Some _ => _ | None => false end); [done|].
  destruct (rebuild decrypt (keyMaterial s) now) as [[]| |]; done.
Qed.

Lemma after_reload_Reply {A} now (read : kmservice → A) s s' a :
  after_reload decrypt now read s = (s', Reply a) → keyMaterial s' = keyMaterial s ∧ a = read s'.
Proof.
  unfold after_reload. pose proof (reload_keys now s) as Hk. destruct (_reloadKeys decrypt now s) as [s1 []]; simpl in *;
    intros [= <- <-]; done.
Qed.

Lemma validator_Ctor_Reply n1 n2 opts s s' v :
  validator_Ctor (M := kmservice) (IKM := km_IKeyMaterial decrypt) n1 n2 opts s = (s', Reply v) →
  va_options v = opts ∧ va_keysByKid v = keys_by_kid (keyMaterial s) ∧
  add_public_keys jwk_NewSet (keyMaterial s) = Reply (va_keySet v).
Proof.
  unfold validator_Ctor. simpl. unfold km_CreateKeySet, km_GetSigningKeys.
  destruct (after_reload decrypt n1 keyMaterial s) as [s1 r1] eqn:E1.
  destruct r1 as [keys| |]; try done. apply after_reload_Reply in E1 as [Hk1 ->]. rewrite Reply_bind, Hk1.
  destruct (add_public_keys jwk_NewSet (keyMaterial s)) as [set| |] eqn:Ea; try done.
  destruct (after_reload decrypt n2 keyMaterial s1) as [s2 r2] eqn:E2. destruct r2 as [keys| |]; try done.
  apply after_reload_Reply in E2 as [Hk2 ->]. rewrite Reply_bind. intros [= <- <-]. simpl. by rewrite Hk2, Hk1.
Qed.

(** The key a mint uses is a configured one, in its window. *)
Lemma minting_key keys clock s now s' k :
  svc_ok decrypt keys clock s → (now = clock)%Z → (clock <= max_time)%Z →
  km_GetSigningKey decrypt now s = (s', Reply (Some k)) →
  ∃ key d, key ∈ keys ∧ k = owned_copy key d ∧ (NotBefore key < now <= NotAfter key)%Z ∧
    decrypt (bytes_of_string (PrivateKey key)) (bytes_of_string (Password key)) = Reply d.
Proof.
  intros Hok -> Hc Hg. unfold km_GetSigningKey, after_reload, _reloadKeys in Hg.
  assert (Hcov : svc_ok decrypt keys clock s' ∧ covers s' clock ∧ signingKey s' = Some k).
  { destruct (reloadDue s clock) eqn:Ed.
    - destruct (reload_section decrypt s clock) as [s1 r] eqn:Er.
      destruct (reload_section_spec decrypt keys clock s clock s1 r Hok (conj (Z.le_refl _) Hc) Er) as (Hok1 & _ & Hcov).
      destruct r as [[]| |]; simplify_eq. done.
    - apply reloadDue_false in Ed. by simplify_eq. }
  destruct Hcov as (Hok' & [_ Hn] & Hk). destruct (so_cache _ _ _ _ Hok' k Hk) as (t0 & Ht0 & Hr & Hnx).
  destruct (rebuild_key _ _ _ _ _ Hr) as (key & d & Hin & Ha & -> & Hd). exists key, d.
  destruct (isActive_until keys t0 clock key) as [Hw _]; [lia|done|]. split_and!; [done|done| | |done]; apply Hw; done.
Qed.

(** The states of a minter and its key material after any operations of the
    minter, at clock readings that do not go back; [t] is the last one. *)
Inductive minter_history (keys : list SigningKey) : Z → kmservice * minter Key → Prop :=
| mh_start t : minter_history keys t (km_Ctor keys, minter_Ctor)
| mh_mint t t' st claims :
    minter_history keys t st → (t <= t' <= max_time)%Z →
    minter_history keys t' (MintToken (M := kmservice) (IKM := km_IKeyMaterial decrypt) t' claims st).1
| mh_public t t' st :
    minter_history keys t st → (t <= t' <= max_time)%Z →
    minter_history keys t' (PublicKeys (M := kmservice) (IKM := km_IKeyMaterial decrypt) t' st).1.

Lemma reload_svc_ok keys now s : svc_ok decrypt keys now s → (now <= max_time)%Z → svc_ok decrypt keys now (_reloadKeys decrypt now s).1.
Proof.
  intros Hok Hm. unfold _reloadKeys. destruct (reloadDue s now); [|done]. destruct (reload_section decrypt s now) as [s' r] eqn:Er.
  by destruct (reload_section_spec decrypt keys now s now s' r Hok (conj (Z.le_refl _) Hm) Er).
Qed.

Lemma minter_history_ok keys t st : minter_history keys t st → svc_ok decrypt keys t st.1 ∧ minter_ok st.2.
Proof.
  assert (Hreload : ∀ {A} t t' (read : kmservice → A) s, svc_ok decrypt keys t s → (t <= t' <= max_time)%Z →
    svc_ok decrypt keys t' (after_reload decrypt t' read s).1).
  { intros A t1 t' read s Hs Ht. unfold after_reload. pose proof (reload_svc_ok keys t' s) as Hr.
    destruct (_reloadKeys decrypt t' s) as [s' r]. apply Hr; [|lia]. eapply svc_ok_later; [|done]. lia. }
  induction 1 as [t|t t' [km m] claims _ [Hs Hm] Ht|t t' [km m] _ [Hs Hm] Ht].
  - split; [split; [done|by intros k]|by intros key].
  - pose proof (MintToken_uncached (M := kmservice) (IKM := km_IKeyMaterial decrypt) t' claims km m Hm) as Hmt.
    pose proof (Hreload _ t t' signingKey km Hs Ht) as Hk. unfold MintToken in *. cbn in *. unfold mint_uncached in Hmt. cbn in Hmt.
    fold (km_GetSigningKey decrypt t' km) in Hk. destruct (km_GetSigningKey decrypt t' km) as [km' r] eqn:Eg. cbn in *.
    destruct r as [[k|]|e|]; cbn in *; try done. destruct (signing_method _) as [meth|]; cbn in *; [|done].
    destruct (parsedKey m _ _ _) as [m' [key|e]]; cbn in *; split; (done || apply Hmt).
  - cbn. pose proof (Hreload _ t t' jwks km Hs Ht) as Hk. unfold PublicKeys. cbn. unfold km_GetPublicWebKeys.
    by destruct (after_reload decrypt t' jwks km) as [km' r].
Qed.

(** C32: Minting and validating fit together, across rotations: after any sequence of
    mints and other calls of the minter at earlier times (so with any key cached in
    its parsed form, and across any number of key windows), a token minted from key
    material with distinct key names, and issued at the time of the mint, is accepted
    by a validator built from the same material, before or after any rotation, for as
    long as the token's own claims are valid. *)
Theorem minted_tokens_validate keys t clock st claims st' raw s0 opts n1 n2 s1 v t1 t2 :
  config_ok keys → minter_history keys t st → (t <= clock)%Z → (0 < clock <= max_time)%Z →
  MintToken (M := kmservice) (IKM := km_IKeyMaterial decrypt) clock claims st = (st', Reply raw) →
  keyMaterial s0 = keys →
  validator_Ctor (M := kmservice) (IKM := km_IKeyMaterial decrypt) n1 n2 opts s0 = (s1, Reply v) →
  (0 <= ClockSkewMinutes opts <= 153722867)%Z → shouldValidateSignature v = true →
  tok_IssuedAt (token_of claims) = Some clock →
  jwxt_Validate t1 (if shouldValidateIssuer v then Some (opt_Issuer opts) else None) (clockSkew v) (token_of claims) = Ok tt →
  ParseAccessTokenRaw fmt_time v t1 t2 raw = Reply (token_of claims).
Proof using TL.
  intros Hcfg Hhist Hle Hclock Hmint Hs0 Hctor Hskew Hsig Hiat Hval. destruct st as [s mi].
  destruct (minter_history_ok _ _ _ Hhist) as [Hok%(svc_ok_later decrypt keys t clock s Hle) Hmi]. cbn [fst snd] in Hok, Hmi.
  destruct (validator_Ctor_Reply _ _ _ _ _ _ Hctor) as (Hopt & Hby & Hset). rewrite Hs0 in *.
  destruct (add_public_keys_spec _ _ _ Hset) as [Hall Honly].
  (* the mint, which gives what a fresh parse of the key gives *)
  pose proof (MintToken_uncached (M := kmservice) (IKM := km_IKeyMaterial decrypt) clock claims s mi Hmi) as Hun.
  rewrite Hmint in Hun. destruct st' as [km' mi']. destruct Hun as [_ Hun]. clear Hmint. rename Hun into Hmint.
  unfold mint_uncached in Hmint. simpl in Hmint. destruct (km_GetSigningKey decrypt clock s) as [s2 r] eqn:Eg.
  destruct r as [[k|]| |]; try done.
  destruct (minting_key keys clock s clock s2 k Hok eq_refl (proj2 Hclock) Eg) as (key & d & Hin & -> & Hw & Hd).
  cbn [mbind outcome_bind] in Hmint. unfold mint_with in Hmint. simpl in Hmint.
  destruct (signing_method (prv_Alg (sk_PrivateJwk key))) as [m|] eqn:Em; [|done].
  destruct (getKey (prv_Alg (sk_PrivateJwk key)) (string_of_bytes d)) as [pk|e] eqn:Ek; simpl in Hmint; [|done].
  injection Hmint as _ Hraw%of_result_Reply.
  (* the key set has the signer's key, and no other of that name *)
  destruct (Hall key Hin) as (pub & Hpub & Hhas). pose proof (co_kid _ Hcfg _ _ Hin Hpub) as Hkid.
  assert (Huniq : ∀ k', has (va_keySet v) k' → kid_of k' = Kid key → k' = pub).
  { intros k' [Hnew|(key' & Hin' & Hpub')]%Honly Hk'; [by destruct (set_new _ Hnew)|].
    rewrite (co_kid _ Hcfg _ _ Hin' Hpub') in Hk'.
    pose proof (keys_by_kid_complete _ _ (co_distinct _ Hcfg) Hin) as L1.
    pose proof (keys_by_kid_complete _ _ (co_distinct _ Hcfg) Hin') as L2. rewrite Hk' in L2.
    assert (key' = key) as -> by congruence. destruct Hpub as (? & ? & ? & ? & ?), Hpub' as (? & ? & ? & ? & ?). congruence. }
  destruct (sign_verify m (Kid key) claims pk raw (va_keySet v) pub) as [Hver Hkids]; [done|done|done| |done|].
  { by eapply co_pair. }
  unfold ParseAccessTokenRaw. rewrite Hsig, Hver. cbn [of_result]. rewrite Reply_bind, Hopt, Hval. cbn [of_result].
  rewrite Reply_bind. replace (checkSigningKeyWindow fmt_time v t2 raw (token_of claims)) with (Reply tt : outcome unit); [done|].
  symmetry. apply checkSigningKeyWindow_Reply. exists (Some (Kid key)), [], key. rewrite Hby, Hiat. cbn [default id].
  split_and!; [done|by apply keys_by_kid_complete; [apply Hcfg|]| |];
    (rewrite decide_False by (unfold zero_time; lia)); unfold clockSkew; rewrite Hopt, ?(wrap64_small (60000000000 * _)) by lia;
    rewrite ?(wrap64_small (- _)) by lia; lia.
Qed.
End mint_validate.

(** ** A stand-in for the token libraries

    A key is its name; a token is the encoding of its name, its key and its claims
    (issuer, time of issue, expiry). *)
Module Demo.
Import Standin.

Definition claims : Type := string * Z * Z.

#[export] Instance jwk : JwkLib string (list string) := {|
  json_Marshal j := Ok (bytes_of_string (prv_Kid j));
  jwk_ParseKey b := Ok (string_of_bytes b);
  jwk_PublicKeyOf k := Ok k;
  jwk_NewSet := [];
  jwk_AddKey set k := k :: set |}.

#[export] Instance jwt : JwtLib string claims := {|
  ParseEdPrivateKeyFromPEM p := Ok p; ParseECPrivateKeyFromPEM p := Ok p; ParseRSAPrivateKeyFromPEM p := Ok p;
  SignedString _ kid cl key := Ok (string_of_bytes (enc (A := string * string * claims) (kid, key, cl))) |}.

Definition decode (raw : string) : option (string * string * claims) :=
  fst <$> dec (A := string * string * claims) (bytes_of_string raw).

#[export] Instance verify : JwtVerify claims (list string) := {|
  jwxt_ParseVerified raw set :=
    match decode raw with
    | Some (kid, key, cl) => if decide (kid ∈ set ∧ key = kid) then Ok cl else Err (PlainErr "could not verify")
    | None => Err (PlainErr "invalid jwt")
    end;
  jwxt_ParseUnverified raw := match decode raw with Some (_, _, cl) => Ok cl | None => Err (PlainErr "invalid jwt") end;
  jwxt_Validate now iss skew tok :=
    if decide ((now <= tok.2 + skew)%Z ∧ default tok.1.1 iss = tok.1.1)
    then Ok tt else Err (PlainErr "invalid token");
  tok_Issuer tok := Some tok.1.1;
  tok_Expiration tok := Some tok.2;
  tok_IssuedAt tok := Some tok.1.2;
  jws_kids raw := match decode raw with Some (kid, _, _) => Ok [Some kid] | None => Err (PlainErr "invalid jws") end |}.

#[export] Instance verify_laws : JwtVerifyLaws claims (list string).
Proof.
  split. intros now iss skew tok. unfold jwxt_Validate. simpl. destruct (decide _) as [[Hn Hi]|]; [|done]. intros _.
  split; [by eexists|]. intros i ->. simpl in Hi. by rewrite Hi.
Qed.

Lemma decode_enc kid key cl :
  decode (string_of_bytes (enc (A := string * string * claims) (kid, key, cl))) = Some (kid, key, cl).
Proof.
  unfold decode. rewrite bytes_of_string_of_bytes by apply (enc_byte (A := string * string * claims)).
  rewrite <- (app_nil_r (enc _)). by rewrite (dec_enc (A := string * string * claims)).
Qed.

#[export] Instance token_laws :
  TokenLaws (K := string) (KeySet := list string) (Key := string) (Cl := claims) (Token := claims)
    (fun _ key pub => key = pub) (fun k => k) (fun set k => k ∈ set) (fun cl => cl).
Proof.
  split.
  - intros k. apply not_elem_of_nil.
  - intros set k k'. apply elem_of_cons.
  - intros m kid cl key raw set pub Hs Hhas Hkid Hpair _.
    assert (Hd : decode raw = Some (kid, key, cl)) by (cbn [SignedString jwt] in Hs; injection Hs as <-; apply decode_enc).
    cbn [jwxt_ParseVerified jws_kids verify]. rewrite Hd. subst. by rewrite decide_True.
Qed.

Definition pub_of (kid : string) : PublicJwk := mkPublicJwk "ES256" "" kid "EC" "sig" "" "" "" "".
Definition prv_of (kid : string) : PrivateJwk := mkPrivateJwk "ES256" "" "" kid "EC" "sig" "" "" "" "" "" "" "" "" "".
Definition key_of (kid : string) (nb na : Z) : SigningKey := mkKey kid "" "" nb na "" kid (pub_of kid) (prv_of kid).

(** Two keys, the second taking over before the first expires. *)
Definition keys : list SigningKey := [key_of "a" 0 100; key_of "b" 80 200].
Definition plain : bytes → bytes → outcome bytes := fun armor _ => Reply armor.
Definition opts : JWTValidatorOptions := mkOptions 5 None None "iss".
Definition raw_token : string := string_of_bytes (enc (A := string * string * claims) ("a", "a", ("iss", 90%Z, 500%Z))).
Definition material : IKeyMaterial kmservice (list string) := km_IKeyMaterial plain.
End Demo.

Section demo.
Import Demo.
#[local] Existing Instances latin1_tables Demo.material.

(** The last active key signs; a retired one is replaced at its boundary; outside
    every window there is no key. *)
Example rotation :
  let '(s1, r1) := km_GetSigningKey plain 50 (km_Ctor keys) in
  let '(s2, r2) := km_GetSigningKey plain 80 s1 in
  let '(s3, r3) := km_GetSigningKey plain 81 s2 in
  let '(s4, r4) := km_GetSigningKey plain 201 s3 in
  let name r := match r with Reply (Some k) => Kid k | _ => "none" end in
  (name r1, name r2, name r3, r4) = ("a", "a", "b", Fail (PlainErr "no valid signing keys found for current time")).
Proof. reflexivity. Qed.

(** At the instant of its [NotAfter] a key is no longer active, but the cached key
    is still served. *)
Example served_at_NotAfter :
  let s1 := (km_GetSigningKey plain 150 (km_Ctor keys)).1 in
  is_Some (signingKey s1) ∧ (km_GetSigningKey plain 200 s1).2 = Reply (signingKey s1) ∧
  rebuild plain keys 200 = Fail (PlainErr "no valid signing keys found for current time").
Proof. split; [by eexists|]. split; reflexivity. Qed.

Lemma signing_key_never_stale_witness :
  ∃ t, (90 <= t <= 90)%Z ∧ ∃ k jw, (NotBefore k < t <= NotAfter k)%Z ∧
    ((∀ k', k' ∈ keys → NotAfter k' ≠ t) → rebuild plain keys t = Reply (k, jw)) ∧
    ASigningKey (Some (owned_copy (key_of "b" 80 200) (bytes_of_string "b"))) = ASigningKey (Some k).
Proof.
  pose (s1 := (km_GetSigningKey plain 90 (km_Ctor keys)).1).
  apply (signing_key_never_stale plain 90 keys
    (mkKMSys 90 s1 [(AskSigningKey, KDone 90 90 (Reply (read_answer AskSigningKey s1)))])
    0 AskSigningKey 90 90 (Reply (read_answer AskSigningKey s1))); [unfold max_time; lia| |reflexivity].
  eapply rtc_l; [apply (kstep_call plain _ _ _ AskSigningKey)|].
  do 4 (eapply rtc_l; [eapply (kstep_thread plain _ _ _ 0); reflexivity|]). apply rtc_refl.
Defined.

Lemma validator_accepts_only_vouched_witness :
  let v := mkValidator opts ["a"; "b"] (keys_by_kid keys) in
  let raw := raw_token in
  ∃ kid rest key, jws_kids (JwtVerify := verify) raw = Ok (kid :: rest) ∧ va_keysByKid v !! default "" kid = Some key.
Proof.
  intros v raw. destruct (validator_accepts_only_vouched (fun _ => "") v 300 300 raw ("iss", 90%Z, 500%Z))
    as (_ & _ & _ & kid & rest & key & Hk & Hl & _); [simpl; lia|reflexivity|vm_compute; reflexivity|].
  by exists kid, rest, key.
Defined.

(** A mint with the first key at 50, then one with the second key at 90. *)
Lemma minted_tokens_validate_witness :
  let first := MintToken (KeySet := list string) 50 ("iss", 50%Z, 400%Z) (km_Ctor keys, minter_Ctor) in
  let mint := MintToken (KeySet := list string) 90 ("iss", 90%Z, 500%Z) first.1 in
  let raw := match mint.2 with Reply r => r | _ => "" end in
  let v := match (validator_Ctor 10 10 opts (km_Ctor keys)).2 with Reply v => v | _ => mkValidator opts [] ∅ end in
  keyPEM first.1.2 = "a" ∧ keyPEM mint.1.2 = "b" ∧
  ParseAccessTokenRaw (fun _ => "") v 300 300 raw = Reply ("iss", 90%Z, 500%Z).
Proof.
  intros first mint raw v. split; [vm_compute; reflexivity|]. split; [vm_compute; reflexivity|].
  apply (minted_tokens_validate (TL := token_laws) plain (fun _ => "") keys 50 90 first.1 ("iss", 90%Z, 500%Z) mint.1 raw (km_Ctor keys)
    opts 10 10 (validator_Ctor 10 10 opts (km_Ctor keys)).1 v 300 300).
  - split.
    + vm_compute. repeat constructor; set_solver.
    + intros key pub Hin (b & priv & [= <-] & [= <-] & [= <-]). rewrite string_of_bytes_of_string.
      by apply elem_of_cons in Hin as [->|[->|[]%not_elem_of_nil]%elem_of_cons].
    + intros key pub d m k Hin (b & priv & [= <-] & [= <-] & [= <-]) [= <-]. rewrite !string_of_bytes_of_string.
      apply elem_of_cons in Hin as [->|[->|[]%not_elem_of_nil]%elem_of_cons]; intros _ [= <-]; reflexivity.
  - apply (mh_mint plain keys 0 50 _ ("iss", 50%Z, 400%Z)); [constructor|unfold max_time; lia].
  - lia.
  - unfold max_time. lia.
  - vm_compute. reflexivity.
  - reflexivity.
  - vm_compute. reflexivity.
  - simpl. lia.
  - reflexivity.
  - reflexivity.
  - vm_compute. reflexivity.
Defined.
End demo.
