(* ===== verification/CacheFlight.v ===== *)
(** * Overlapping [GetOrInsertE] calls ([services/common/cache/inmemory.go])

    [Cache.v] models one call at a time; here calls overlap.  A call is a thread with
    a program counter; one step is one library call, the return of an adder, or one
    action of [singleflight.Group]: joining the flight of a key or becoming its
    leader, and publishing the leader's result.  Between steps anything may happen
    to the cache (other operations, the cleaner, time).  The adder is the caller's
    code: it may return anything, panic, or never come back (because it blocks, or
    because it calls [GetOrInsertE] itself: such a call is one more thread, and the
    adder's step is not taken before that thread has returned).

    [golang.org/x/sync/singleflight] is modelled by its documentation: one
    execution per key at a time; callers that come while it runs wait for it and get
    its result, or its panic; the key is forgotten when it is done. *)
From S2P Require Import Prelude Claims Request RefToken Cache.
From stdpp Require Import options.

Section flight.
Context {T V : Type} `{TC : TTLCache T V} (now : nat → Z) (is_nil : V → bool).

(** How an adder comes back, and how a call ends. *)
Inductive adder_end := AReturns (r : result cerr (V * Z)) | APanics.
Inductive call_end := Ret (r : result cerr V) | Panicking.

(** Where a call is; [f] is the flight it leads or waits for. *)
Inductive fpc :=
| FStart                                        (* the first Get *)
| FDo                                           (* inflight.Do: join or lead *)
| FLook (f : nat)                               (* the second Get *)
| FAdd (f : nat)                                (* the adder is running *)
| FDrop (f : nat) (v : V) (ttl : Z)             (* SetWithTTL: dropExpired's Get *)
| FRemove (f : nat) (v : V) (ttl : Z)           (* dropExpired's Remove *)
| FSet (f : nat) (v : V) (ttl : Z)              (* the library's SetWithTTL *)
| FFinish (f : nat) (r : call_end)              (* the flight's function has returned or panicked *)
| FWait (f : nat)
| FDone (o : option nat) (r : call_end).        (* returned; from flight [o] or from the cache *)

Record fsys := mkFsys {
  f_cache : cache T;
  f_group : gmap string nat;                                  (* the flight in progress, by key *)
  f_flights : list (string * nat * option call_end);          (* key, leader, published result *)
  f_starts : list nat;                                        (* the flights that started their adder *)
  f_threads : list (string * fpc) }.

Definition with_thread (y : fsys) (i : nat) (k : string) (p : fpc) (c : cache T) : fsys :=
  mkFsys c (f_group y) (f_flights y) (f_starts y) (<[i := (k, p)]> (f_threads y)).

(** One step of thread [i]; [a] is how its adder ends if that is the step.
    [None]: the thread has returned or is waiting. *)
Definition fstep (a : adder_end) (i : nat) (y : fsys) : option fsys :=
  '(k, p) ← f_threads y !! i;
  match p with
  | FStart =>
      let '(c, r) := mc_Get now k (f_cache y) in
      Some (with_thread y i k (match usable is_nil r with Some v => FDone None (Ret (Ok v)) | None => FDo end) c)
  | FDo =>
      match f_group y !! k with
      | Some f => Some (with_thread y i k (FWait f) (f_cache y))
      | None =>
          let f := length (f_flights y) in
          Some (mkFsys (f_cache y) (<[k := f]> (f_group y)) (f_flights y ++ [(k, i, None)]) (f_starts y)
                  (<[i := (k, FLook f)]> (f_threads y)))
      end
  | FLook f =>
      let '(c, r) := mc_Get now k (f_cache y) in
      match usable is_nil r with
      | Some v => Some (with_thread y i k (FFinish f (Ret (Ok v))) c)
      | None => Some (mkFsys c (f_group y) (f_flights y) (f_starts y ++ [f]) (<[i := (k, FAdd f)]> (f_threads y)))
      end
  | FAdd f =>
      Some (with_thread y i k (match a with
                               | AReturns (Ok (v, ttl)) => FDrop f v ttl
                               | AReturns (Err e) => FFinish f (Ret (Err e))
                               | APanics => FFinish f Panicking
                               end) (f_cache y))
  | FDrop f v ttl =>
      let '(c, r) := mc_Get now k (f_cache y) in
      Some (with_thread y i k (match r with Ok _ => FSet f v ttl | Err _ => FRemove f v ttl end) c)
  | FRemove f v ttl => Some (with_thread y i k (FSet f v ttl) (mc_Remove k (f_cache y)).1)
  | FSet f v ttl =>
      let '(c, e) := timed_call now (tc_SetWithTTL k v ttl) (f_cache y) in
      Some (with_thread y i k (FFinish f (Ret (match e with Some e => Err e | None => Ok v end))) c)
  | FFinish f r =>
      Some (mkFsys (f_cache y) (delete k (f_group y)) (<[f := (k, i, Some r)]> (f_flights y)) (f_starts y)
              (<[i := (k, FDone (Some f) r)]> (f_threads y)))
  | FWait f =>
      '(_, _, res) ← f_flights y !! f;
      r ← res;
      Some (with_thread y i k (FDone (Some f) r) (f_cache y))
  | FDone _ _ => None
  end.

(** A step of a call, and what happens around the calls. *)
Inductive call_step : fsys → fsys → Prop :=
| call_step_intro a i y y' : fstep a i y = Some y' → call_step y y'.

Inductive around : fsys → fsys → Prop :=
| around_cache y c : around y (mkFsys c (f_group y) (f_flights y) (f_starts y) (f_threads y))
| around_call y k :
    around y (mkFsys (f_cache y) (f_group y) (f_flights y) (f_starts y) (f_threads y ++ [(k, FStart)])).

Definition any_fstep (y y' : fsys) : Prop := call_step y y' ∨ around y y'.

Definition fsys_init (c : cache T) : fsys := mkFsys c ∅ [] [] [].

(** ** The invariant *)

(** The flight a thread leads. *)
Definition leads (p : fpc) : option nat :=
  match p with
  | FLook f | FAdd f | FDrop f _ _ | FRemove f _ _ | FSet f _ _ | FFinish f _ => Some f
  | _ => None
  end.

(** Past the point where the adder was started. *)
Definition started (p : fpc) : bool := match p with FLook _ => false | _ => true end.

Record flight_ok (y : fsys) : Prop := {
  fo_group k f : f_group y !! k = Some f ↔ ∃ i, f_flights y !! f = Some (k, i, None);
  fo_leader f k i : f_flights y !! f = Some (k, i, None) → ∃ p, f_threads y !! i = Some (k, p) ∧ leads p = Some f;
  fo_leads i k p f : f_threads y !! i = Some (k, p) → leads p = Some f → f_flights y !! f = Some (k, i, None);
  fo_wait i k f : f_threads y !! i = Some (k, FWait f) → ∃ j res, f_flights y !! f = Some (k, j, res);
  fo_done i k f r : f_threads y !! i = Some (k, FDone (Some f) r) → ∃ j, f_flights y !! f = Some (k, j, Some r);
  fo_starts : NoDup (f_starts y);
  fo_looking i k f : f_threads y !! i = Some (k, FLook f) → f ∉ f_starts y;
  fo_started f : f ∈ f_starts y → f < length (f_flights y) }.

Lemma thread_insert (l : list (string * fpc)) i j x y :
  <[i := x]> l !! j = Some y → (j = i ∧ y = x) ∨ (j ≠ i ∧ l !! j = Some y).
Proof. intros [(-> & -> & _)|[? ?]]%list_lookup_insert_Some; [by left|right; by split]. Qed.

Lemma thread_insert_same (l : list (string * fpc)) i x z : l !! i = Some z → <[i := x]> l !! i = Some x.
Proof. intros Hl. apply list_lookup_insert_eq. by eapply lookup_lt_Some. Qed.

(** A step that changes only the thread's counter and the cache. *)
Lemma move_ok y i k p p' c :
  flight_ok y → f_threads y !! i = Some (k, p) → leads p' = leads p → (∀ f, p' ≠ FLook f) →
  (∀ f, p' = FWait f → ∃ j res, f_flights y !! f = Some (k, j, res)) →
  (∀ f r, p' = FDone (Some f) r → ∃ j, f_flights y !! f = Some (k, j, Some r)) →
  flight_ok (with_thread y i k p' c).
Proof.
  intros Hok Hi Hl Hnl Hw Hd. split; simpl.
  - intros k' f. apply (fo_group _ Hok).
  - intros f k' j Hf. destruct (fo_leader _ Hok f k' j Hf) as (q & Hj & Hq).
    destruct (decide (j = i)) as [->|Hne].
    + exists p'. rewrite Hi in Hj. simplify_eq. split; [by eapply thread_insert_same|congruence].
    + exists q. by rewrite list_lookup_insert_ne.
  - intros j k' q f [(-> & [= -> ->])|[_ Hj]]%thread_insert Hq; [|by eapply fo_leads].
    apply (fo_leads _ Hok i k p f Hi). congruence.
  - intros j k' f [(-> & [= -> <-])|[_ Hj]]%thread_insert; [by apply Hw|by eapply fo_wait].
  - intros j k' f r [(-> & [= -> <-])|[_ Hj]]%thread_insert; [by apply Hd|by eapply fo_done].
  - apply (fo_starts _ Hok).
  - intros j k' f [(-> & [= -> Hp])|[_ Hj]]%thread_insert; [by destruct (Hnl f)|by eapply fo_looking].
  - apply (fo_started _ Hok).
Qed.

(** Becoming the leader of a new flight. *)
Lemma lead_ok y i k :
  flight_ok y → f_threads y !! i = Some (k, FDo) → f_group y !! k = None →
  let f := length (f_flights y) in
  flight_ok (mkFsys (f_cache y) (<[k := f]> (f_group y)) (f_flights y ++ [(k, i, None)]) (f_starts y)
               (<[i := (k, FLook f)]> (f_threads y))).
Proof.
  intros Hok Hi Hg f.
  assert (Hlk : ∀ g x, (f_flights y ++ [(k, i, None)]) !! g = Some x ↔ f_flights y !! g = Some x ∨ (g = f ∧ x = (k, i, None))).
  { intros g x. rewrite lookup_app_Some. split.
    - intros [?|[Hle Hx]]; [by left|right]. apply list_lookup_singleton_Some in Hx as [? <-]. split; [unfold f; lia|done].
    - intros [?|(-> & ->)]; [by left|right]. split; [done|]. by rewrite Nat.sub_diag. }
  assert (Hnew : ∀ g x, f_flights y !! g = Some x → g ≠ f).
  { intros g x Hx ->. apply lookup_lt_Some in Hx. unfold f in Hx. lia. }
  split; simpl.
  - intros k' g. setoid_rewrite Hlk. destruct (decide (k' = k)) as [->|Hk].
    + rewrite lookup_insert_eq. split; [intros [= <-]; exists i; by right|]. intros (j & [Hj|[-> _]]); [|done].
      assert (f_group y !! k = Some g) by (apply (fo_group _ Hok); by exists j). congruence.
    + rewrite lookup_insert_ne by done. rewrite (fo_group _ Hok). split; intros (j & Hj); [exists j; by left|].
      destruct Hj as [?|[_ ?]]; [by exists j|congruence].
  - intros g k' j [Hf|[-> [= -> ->]]]%Hlk.
    + destruct (fo_leader _ Hok g k' j Hf) as (q & Hj & Hq). exists q. split; [|done].
      rewrite list_lookup_insert_ne; [done|]. intros <-. by simplify_eq.
    + exists (FLook f). split; [by eapply thread_insert_same|done].
  - intros j k' q g [(-> & [= -> ->])|[_ Hj]]%thread_insert Hq; apply Hlk.
    + right. simpl in Hq. by simplify_eq.
    + left. by eapply fo_leads.
  - intros j k' g [(_ & [=])|[_ Hj]]%thread_insert. destruct (fo_wait _ Hok _ _ _ Hj) as (l & res & Hl).
    exists l, res. apply Hlk. by left.
  - intros j k' g r [(_ & [=])|[_ Hj]]%thread_insert. destruct (fo_done _ Hok _ _ _ _ Hj) as (l & Hl).
    exists l. apply Hlk. by left.
  - apply (fo_starts _ Hok).
  - intros j k' g [(_ & [= _ ->])|[_ Hj]]%thread_insert; [|by eapply fo_looking].
    intros Hs%(fo_started _ Hok). unfold f in Hs. lia.
  - intros g Hs%(fo_started _ Hok). rewrite length_app. lia.
Qed.

(** Starting the adder. *)
Lemma start_ok y i k f c :
  flight_ok y → f_threads y !! i = Some (k, FLook f) →
  flight_ok (mkFsys c (f_group y) (f_flights y) (f_starts y ++ [f]) (<[i := (k, FAdd f)]> (f_threads y))).
Proof.
  intros Hok Hi. assert (Hm : flight_ok (with_thread y i k (FAdd f) c)) by (by eapply move_ok).
  pose proof (fo_leads _ Hok i k _ f Hi eq_refl) as Hf. pose proof (fo_looking _ Hok _ _ _ Hi) as Hns.
  split; simpl; try apply Hm.
  - apply NoDup_app. split_and!; [apply Hok| |apply NoDup_singleton]. intros g Hg ->%list_elem_of_singleton. done.
  - intros j k' g [(_ & [=])|[Hne Hj]]%thread_insert. rewrite elem_of_app, list_elem_of_singleton.
    intros [Hg| ->]; [exact (fo_looking _ Hok _ _ _ Hj Hg)|].
    pose proof (fo_leads _ Hok j k' _ f Hj eq_refl). congruence.
  - intros g [Hg| ->%list_elem_of_singleton]%elem_of_app; [by apply (fo_started _ Hok)|]. by eapply lookup_lt_Some.
Qed.

(** Publishing the result. *)
Lemma finish_ok y i k f r :
  flight_ok y → f_threads y !! i = Some (k, FFinish f r) →
  flight_ok (mkFsys (f_cache y) (delete k (f_group y)) (<[f := (k, i, Some r)]> (f_flights y)) (f_starts y)
               (<[i := (k, FDone (Some f) r)]> (f_threads y))).
Proof.
  intros Hok Hi. pose proof (fo_leads _ Hok i k _ f Hi eq_refl) as Hf.
  assert (Hgk : f_group y !! k = Some f) by (apply (fo_group _ Hok); by exists i).
  assert (Hlk : ∀ g x, <[f := (k, i, Some r)]> (f_flights y) !! g = Some x ↔
    (g = f ∧ x = (k, i, Some r)) ∨ (g ≠ f ∧ f_flights y !! g = Some x)).
  { intros g x. rewrite list_lookup_insert_Some. split.
    - intros [(-> & <- & _)|[Hn Hx]]; [by left|right; split; [congruence|done]].
    - intros [(-> & ->)|[Hn Hx]]; [left|right; split; [congruence|done]].
      split_and!; [done|done|]. by eapply lookup_lt_Some. }
  split; simpl.
  - intros k' g. setoid_rewrite Hlk. destruct (decide (k' = k)) as [->|Hk].
    + rewrite lookup_delete_eq. split; [done|]. intros (j & [[_ ?]|[Hne Hj]]); [congruence|].
      assert (f_group y !! k = Some g) by (apply (fo_group _ Hok); by exists j). congruence.
    + rewrite lookup_delete_ne by done. rewrite (fo_group _ Hok). split; intros (j & Hj).
      * exists j. right. split; [|done]. intros ->. congruence.
      * destruct Hj as [[_ ?]|[_ ?]]; [congruence|by exists j].
  - intros g k' j [[_ ?]|[Hne Hg]]%Hlk; [congruence|]. destruct (fo_leader _ Hok g k' j Hg) as (q & Hj & Hq).
    exists q. split; [|done]. rewrite list_lookup_insert_ne; [done|]. intros <-. rewrite Hi in Hj. simplify_eq. by simplify_eq/=.
  - intros j k' q g [(_ & [= -> ->])|[Hne Hj]]%thread_insert Hq; [done|]. apply Hlk. right.
    pose proof (fo_leads _ Hok j k' q g Hj Hq) as Hg. split; [|done]. intros ->. congruence.
  - intros j k' g [(_ & [=])|[_ Hj]]%thread_insert. destruct (fo_wait _ Hok _ _ _ Hj) as (l & res & Hl).
    destruct (decide (g = f)) as [->|]; [|exists l, res; apply Hlk; by right].
    exists i, (Some r). apply Hlk. left. split; [done|]. congruence.
  - intros j k' g r' [(_ & [= -> -> ->])|[_ Hj]]%thread_insert; [exists i; apply Hlk; by left|].
    destruct (fo_done _ Hok _ _ _ _ Hj) as (l & Hl). exists l. apply Hlk. right. split; [|done]. intros ->. congruence.
  - apply (fo_starts _ Hok).
  - intros j k' g [(_ & [=])|[_ Hj]]%thread_insert. by eapply fo_looking.
  - intros g Hg%(fo_started _ Hok). by rewrite length_insert.
Qed.

Lemma fstep_ok a i y y' : flight_ok y → fstep a i y = Some y' → flight_ok y'.
Proof.
  intros Hok. unfold fstep. destruct (f_threads y !! i) as [[k p]|] eqn:Hi; [|done]. cbn [mbind option_bind].
  destruct p as [| |f|f|f v ttl|f v ttl|f v ttl|f r|f|o r].
  - destruct (mc_Get now k (f_cache y)) as [c r]. intros [= <-].
    destruct (usable is_nil r); by eapply move_ok.
  - destruct (f_group y !! k) as [f|] eqn:Hg; intros [= <-]; [|by apply lead_ok].
    eapply move_ok; [done|done|done|done| |done]. intros g [= <-]. apply (fo_group _ Hok) in Hg as [j Hj]. by exists j, None.
  - destruct (mc_Get now k (f_cache y)) as [c r]. destruct (usable is_nil r); intros [= <-]; [by eapply move_ok|by apply start_ok].
  - intros [= <-]. destruct a as [[[v ttl]|e]|]; by eapply move_ok.
  - destruct (mc_Get now k (f_cache y)) as [c r]. intros [= <-]. destruct r; by eapply move_ok.
  - intros [= <-]. by eapply move_ok.
  - destruct (timed_call now (tc_SetWithTTL k v ttl) (f_cache y)) as [c e]. intros [= <-]. by eapply move_ok.
  - intros [= <-]. by apply finish_ok.
  - destruct (f_flights y !! f) as [[[k' j] res]|] eqn:Hf; [|done]. destruct res as [r|]; [|done]. intros [= <-].
    eapply move_ok; [done|done|done|done|done|]. intros g r' [= <- <-].
    destruct (fo_wait _ Hok _ _ _ Hi) as (j' & res & Hf'). exists j'. congruence.
  - done.
Qed.

Lemma around_ok y y' : flight_ok y → around y y' → flight_ok y'.
Proof.
  intros Hok Hstep. destruct Hstep as [y c|y k]; [by destruct Hok; split|].
  assert (Hlk : ∀ i x, (f_threads y ++ [(k, FStart)]) !! i = Some x → f_threads y !! i = Some x ∨ x = (k, FStart)).
  { intros i x [?|[_ Hx]]%lookup_app_Some; [by left|right]. apply list_lookup_singleton_Some in Hx as [_ <-]. done. }
  split; simpl.
  - apply (fo_group _ Hok).
  - intros f k' i (p & Hp & Hl)%(fo_leader _ Hok). exists p. split; [|done]. by apply lookup_app_l_Some.
  - intros i k' p f [Hi|[= -> ->]]%Hlk Hl; [by eapply fo_leads|done].
  - intros i k' f [Hi|[=]]%Hlk. by eapply fo_wait.
  - intros i k' f r [Hi|[=]]%Hlk. by eapply fo_done.
  - apply (fo_starts _ Hok).
  - intros i k' f [Hi|[=]]%Hlk. by eapply fo_looking.
  - apply (fo_started _ Hok).
Qed.

Lemma reachable_ok c y : rtc any_fstep (fsys_init c) y → flight_ok y.
Proof.
  intros Hr. eapply (rtc_ind_r flight_ok (fsys_init c)); [| |exact Hr].
  - split; simpl; try done; [|apply NoDup_nil_2|by intros f Hf%elem_of_nil].
    intros k f. rewrite lookup_empty. split; [done|]. by intros [i Hi].
  - intros a b _ [[? ? ? ? Hab]|Hab] Ha; [by eapply fstep_ok|by eapply around_ok].
Qed.

(** C37: Concurrent misses are coalesced.  In every interleaving of overlapping
    [GetOrInsertE] calls, with anything happening to the cache in between: at most
    one adder is running per key; a flight runs its adder at most once; and all
    calls that joined a flight end the same way, with its leader's result or panic. *)
Theorem GetOrInsertE_single_flight c y :
  rtc any_fstep (fsys_init c) y →
  (∀ i j k f g, f_threads y !! i = Some (k, FAdd f) → f_threads y !! j = Some (k, FAdd g) → i = j) ∧
  NoDup (f_starts y) ∧
  (∀ i j k k' f r r', f_threads y !! i = Some (k, FDone (Some f) r) → f_threads y !! j = Some (k', FDone (Some f) r') →
     k = k' ∧ r = r').
Proof.
  intros Hok%reachable_ok. split_and!.
  - intros i j k f g Hi Hj. pose proof (fo_leads _ Hok i k _ f Hi eq_refl) as Hf.
    pose proof (fo_leads _ Hok j k _ g Hj eq_refl) as Hg.
    assert (f_group y !! k = Some f) by (apply (fo_group _ Hok); by exists i).
    assert (f_group y !! k = Some g) by (apply (fo_group _ Hok); by exists j). congruence.
  - apply (fo_starts _ Hok).
  - intros i j k k' f r r' (? & Hi)%(fo_done _ Hok) (? & Hj)%(fo_done _ Hok). rewrite Hi in Hj. by simplify_eq.
Qed.

(** ** Liveness *)
Definition remaining (p : fpc) : nat :=
  match p with
  | FStart => 9 | FDo => 8 | FLook _ => 7 | FAdd _ => 6 | FDrop _ _ _ => 5 | FRemove _ _ _ => 4 | FSet _ _ _ => 3
  | FFinish _ _ => 2 | FWait _ => 1 | FDone _ _ => 0
  end.

Definition work (y : fsys) : nat := sum_list ((fun t => remaining t.2) <$> f_threads y).

Definition all_returned (y : fsys) : Prop := ∀ i k p, f_threads y !! i = Some (k, p) → ∃ o r, p = FDone o r.

Lemma fstep_work a i y y' : fstep a i y = Some y' → work y' < work y.
Proof.
  unfold fstep. destruct (f_threads y !! i) as [[k p]|] eqn:Hi; [|done]. cbn [mbind option_bind].
  assert (Hw : ∀ p' c g fl st, remaining p' < remaining p →
    work (mkFsys c g fl st (<[i := (k, p')]> (f_threads y))) < work y).
  { intros p' c g fl st Hlt. unfold work. simpl. rewrite list_fmap_insert. simpl.
    pose proof (sum_list_insert ((fun t => remaining t.2) <$> f_threads y) i (remaining p) (remaining p')) as Hs.
    rewrite list_lookup_fmap, Hi in Hs. specialize (Hs eq_refl). lia. }
  destruct p; unfold with_thread; repeat case_match; intros; simplify_eq/=;
    try (apply Hw; simpl; lia); destruct (f_flights y !! f) as [[[? ?] [r|]]|]; simplify_eq/=; apply Hw; simpl; lia.
Qed.

(** Some call can move as long as one has not returned: a waiting call waits for a
    leader, and leaders do not wait. *)
Lemma fstep_progress y : flight_ok y → all_returned y ∨ ∃ y', call_step y y'.
Proof.
  intros Hok.
  assert (Hgo : ∀ i k p, f_threads y !! i = Some (k, p) → (∀ f, p ≠ FWait f) → (∀ o r, p ≠ FDone o r) → ∃ y', call_step y y').
  { intros i k p Hi Hnw Hnd. destruct (fstep APanics i y) as [y'|] eqn:E; [exists y'; by econstructor|].
    exfalso. unfold fstep in E. rewrite Hi in E. cbn [mbind option_bind] in E.
    destruct p as [| |f|f|f v ttl|f v ttl|f v ttl|f r|f|o r]; repeat case_match; try done; try (by eapply Hnw); by eapply Hnd. }
  destruct (decide (Forall (fun t : string * fpc => remaining t.2 = 0) (f_threads y))) as [Hall|Hnot].
  { left. intros i k p Hi. pose proof (proj1 (Forall_lookup _ _) Hall i _ Hi) as H0. simpl in H0.
    destruct p; try done. by eauto. }
  right. apply not_Forall_Exists in Hnot; [|apply _]. apply Exists_exists in Hnot as ([k p] & Hin & Hp).
  apply list_elem_of_lookup in Hin as [i Hi]. simpl in Hp. destruct p as [| |f|f|f v ttl|f v ttl|f v ttl|f r|f|o r];
    try (by eapply Hgo).
  destruct (fo_wait _ Hok _ _ _ Hi) as (j & [r|] & Hf).
  - exists (with_thread y i k (FDone (Some f) r) (f_cache y)). apply (call_step_intro APanics i).
    unfold fstep. rewrite Hi. cbn [mbind option_bind]. by rewrite Hf.
  - destruct (fo_leader _ Hok _ _ _ Hf) as (q & Hq & Hl). eapply (Hgo j k q Hq); by intros; intros ->.
Qed.

(** A step of some call, after anything has happened to the cache; and one that
    is not an adder coming back. *)
Definition busy_step (y y' : fsys) : Prop :=
  ∃ c, call_step (mkFsys c (f_group y) (f_flights y) (f_starts y) (f_threads y)) y'.
Definition running_adder (y : fsys) (i : nat) : Prop := ∃ k f, f_threads y !! i = Some (k, FAdd f).
Definition own_step (y y' : fsys) : Prop :=
  ∃ c a i, ¬ running_adder y i ∧ fstep a i (mkFsys c (f_group y) (f_flights y) (f_starts y) (f_threads y)) = Some y'.

(** Nothing is left to do but to wait for adders: every call has returned, runs
    its adder, or waits for a call of the same key that does; and only the keys of
    running adders are taken. *)
Definition settled (y : fsys) : Prop :=
  (∀ i k p, f_threads y !! i = Some (k, p) →
     match p with FDone _ _ | FAdd _ => True | FWait f => ∃ j, f_threads y !! j = Some (k, FAdd f) | _ => False end) ∧
  (∀ k f, f_group y !! k = Some f → ∃ i, f_threads y !! i = Some (k, FAdd f)).

Lemma own_step_possible y i k p :
  flight_ok y → f_threads y !! i = Some (k, p) → match p with FDone _ _ | FAdd _ | FWait _ => False | _ => True end → ∃ y', own_step y y'.
Proof.
  intros Hok Hi Hp. destruct (fstep APanics i y) as [y'|] eqn:E.
  - exists y', (f_cache y), APanics, i. split; [intros (k' & f & Hf); rewrite Hi in Hf; injection Hf as -> ->; done|]. by destruct y.
  - exfalso. unfold fstep in E. rewrite Hi in E. cbn [mbind option_bind] in E. destruct p; repeat case_match; done.
Qed.

Lemma own_progress y : flight_ok y → settled y ∨ ∃ y', own_step y y'.
Proof.
  intros Hok.
  set (idle := fun t : string * fpc => match t.2 with FDone _ _ | FAdd _ | FWait _ => True | _ => False end).
  assert (Hdec : ∀ t, Decision (idle t)) by (intros [k []]; apply _).
  destruct (decide (Forall idle (f_threads y))) as [Hall|Hsome].
  2: { right. apply not_Forall_Exists in Hsome; [|apply _]. apply Exists_exists in Hsome as ([k p] & Hin & Hp).
       apply list_elem_of_lookup in Hin as [i Hi]. eapply own_step_possible; [done|done|]. by destruct p; try destruct (Hp I). }
  assert (Hidle : ∀ i k p, f_threads y !! i = Some (k, p) → idle (k, p)) by (intros i k p; apply (proj1 (Forall_lookup _ _) Hall i)).
  assert (Hlead : ∀ f k j, f_flights y !! f = Some (k, j, None) → f_threads y !! j = Some (k, FAdd f)).
  { intros f k j (q & Hq & Hl)%(fo_leader _ Hok). pose proof (Hidle _ _ _ Hq) as Hi. by destruct q; simplify_eq/=. }
  set (landed := fun t : string * fpc => match t.2 with FWait f => is_Some ((f_flights y !! f) ≫= snd) | _ => False end).
  assert (Hdec' : ∀ t, Decision (landed t)) by (intros [k []]; unfold landed; cbn; apply _).
  destruct (decide (Exists landed (f_threads y))) as [Hsome|Hno].
  - right. apply Exists_exists in Hsome as ([k p] & Hin & Hw). apply list_elem_of_lookup in Hin as [i Hi]. destruct p as [| |f|f|f v ttl|f v ttl|f v ttl|f r|f|o r]; try done. cbn in Hw.
    destruct (f_flights y !! f) as [[[k' j] [r|]]|] eqn:Hf; cbn in Hw; try (by destruct Hw).
    exists (with_thread y i k (FDone (Some f) r) (f_cache y)), (f_cache y), APanics, i.
    split; [intros (? & ? & Hx); congruence|]. destruct y. unfold fstep. cbn in *. rewrite Hi. cbn. by rewrite Hf.
  - left. split.
    + intros i k p Hi. pose proof (Hidle _ _ _ Hi) as Hp. destruct p as [| |f|f|f v ttl|f v ttl|f v ttl|f r|f|o r]; try done.
      destruct (fo_wait _ Hok _ _ _ Hi) as (j & [r|] & Hf); [|by eauto]. destruct Hno. apply Exists_exists. exists (k, FWait f).
      split; [by eapply list_elem_of_lookup_2|]. cbn. by rewrite Hf.
    + intros k f [i Hi]%(fo_group _ Hok). eauto.
Qed.

Lemma all_returned_free y : flight_ok y → all_returned y → f_group y = ∅.
Proof.
  intros Hok Hall. apply map_eq. intros k. rewrite lookup_empty. destruct (f_group y !! k) as [f|] eqn:Hg; [|done]. exfalso.
  apply (fo_group _ Hok) in Hg as [i (p & Hp & Hl)%(fo_leader _ Hok)]. apply Hall in Hp as (o & r & ->). done.
Qed.

(** C31: A call waits for adders only.  From every reachable state, whatever the
    scheduler does and whatever happens to the cache: even if no adder ever comes
    back (because it blocks, or waits for another call), after finitely many steps
    every other call has returned or waits for a call of its key whose adder is
    running, and only keys with a running adder are taken; and if the adders do come
    back, with a value, an error or a panic, then all calls under way end after
    finitely many steps and every key is free again: no waiter is left behind, also
    when its leader's adder failed or panicked. *)
Theorem GetOrInsertE_waits_only_for_adders c y :
  rtc any_fstep (fsys_init c) y →
  eventually own_step settled y ∧ eventually busy_step (fun y' => all_returned y' ∧ f_group y' = ∅) y.
Proof.
  intros Hok%reachable_ok.
  assert (Hcache : ∀ s c', flight_ok s → flight_ok (mkFsys c' (f_group s) (f_flights s) (f_starts s) (f_threads s))).
  { intros s c' Hs. eapply around_ok; [exact Hs|]. apply around_cache. }
  split.
  - apply (eventually_measure own_step settled flight_ok work); [by apply own_progress| |done].
    intros s s' Hs (c' & a & i & _ & Hst). split; [by eapply fstep_ok; [apply Hcache|]|]. by apply fstep_work in Hst.
  - apply (eventually_measure busy_step _ flight_ok work); [| |done].
    + intros s Hs. destruct (fstep_progress s Hs) as [Ha|[s' Hs']]; [left; split; [done|by apply all_returned_free]|right].
      exists s', (f_cache s). by destruct s.
    + intros s s' Hs [c' Hstep]. inversion Hstep as [a i z z' Hst]; subst. split; [by eapply fstep_ok; [apply Hcache|]|].
      by apply fstep_work in Hst.
Qed.

(** A given schedule. *)
Fixpoint run_schedule (l : list (adder_end * nat)) (y : fsys) : option fsys :=
  match l with
  | [] => Some y
  | (a, i) :: l' => y' ← fstep a i y; run_schedule l' y'
  end.

Fixpoint add_calls (ks : list string) (y : fsys) : fsys :=
  match ks with
  | [] => y
  | k :: ks' => add_calls ks' (mkFsys (f_cache y) (f_group y) (f_flights y) (f_starts y) (f_threads y ++ [(k, FStart)]))
  end.

Lemma run_schedule_reach l y y' : run_schedule l y = Some y' → rtc any_fstep y y'.
Proof.
  revert y. induction l as [|[a i] l IH]; intros y; simpl; [by intros [= <-]|].
  destruct (fstep a i y) as [y1|] eqn:E; [|done]. simpl. intros Hr. eapply rtc_l; [left; by econstructor|]. by apply IH.
Qed.

Lemma add_calls_reach ks y : rtc any_fstep y (add_calls ks y).
Proof. revert y. induction ks as [|k ks IH]; intros y; simpl; [done|]. eapply rtc_l; [right; apply around_call|apply IH]. Qed.
End flight.

(** ** Two callers of one key *)
Section witnesses.
#[local] Existing Instance ttl_memory.

Definition two_calls : fsys (T := ttl_mem nat) (V := nat) := add_calls ["k"; "k"] (fsys_init (NewMemoryCache 0)).
Definition first_waits : list (adder_end (V := nat) * nat) :=
  (fun i => (AReturns (Err (AdderErr "down")), i)) <$> [0; 1; 0; 1; 0; 0; 0; 1].
Definition one_clock : nat → Z := Z.of_nat.

Definition after_waits := default two_calls (run_schedule one_clock (fun _ => false) first_waits two_calls).

(** The second caller joins the first one's flight; both return its error, and the
    adder ran once. *)
Example two_callers_one_adder :
  f_threads after_waits = [("k", FDone (Some 0) (Ret (Err (AdderErr "down")))); ("k", FDone (Some 0) (Ret (Err (AdderErr "down"))))] ∧
  f_starts after_waits = [0].
Proof. split; reflexivity. Qed.

Lemma after_waits_reach : rtc (any_fstep one_clock (fun _ => false)) (fsys_init (NewMemoryCache 0)) after_waits.
Proof. etrans; [apply (add_calls_reach _ _ ["k"; "k"])|]. apply (run_schedule_reach _ _ first_waits). reflexivity. Qed.

Lemma GetOrInsertE_single_flight_witness :
  NoDup (f_starts after_waits) ∧
  (∀ r r', f_threads after_waits !! 0 = Some ("k", FDone (Some 0) r) → f_threads after_waits !! 1 = Some ("k", FDone (Some 0) r') → r = r').
Proof.
  destruct (GetOrInsertE_single_flight one_clock (fun _ => false) _ _ after_waits_reach) as (_ & Hn & Hr).
  split; [exact Hn|]. intros r r' H0 H1. by destruct (Hr _ _ _ _ _ _ _ H0 H1).
Defined.

(** Two calls of one key whose leader's adder blocks. *)
Definition blocked_schedule : list (adder_end (V := nat) * nat) := (fun i => (APanics, i)) <$> [0; 1; 0; 1; 0].
Definition blocked := default two_calls (run_schedule one_clock (fun _ => false) blocked_schedule two_calls).

Lemma GetOrInsertE_waits_only_for_adders_witness :
  f_threads blocked = [("k", FAdd 0); ("k", FWait 0)] ∧
  eventually (own_step one_clock (fun _ => false)) settled blocked ∧
  eventually (busy_step one_clock (fun _ => false)) (fun y' => all_returned y' ∧ f_group y' = ∅) blocked.
Proof.
  split; [vm_compute; reflexivity|]. apply (GetOrInsertE_waits_only_for_adders one_clock (fun _ => false) (NewMemoryCache 0)).
  etrans; [apply (add_calls_reach _ _ ["k"; "k"])|]. apply (run_schedule_reach _ _ blocked_schedule). reflexivity.
Defined.
End witnesses.
