(* ===== verification/Nats.v ===== *)
(** * gRPC over NATS: statuses and subjects ([nats/nats_micro_service])

    [errors.go]: how a gRPC status travels in the headers of a reply.  And the
    subject templates of [nats_micro_service.go]: a template such as
    [org.${orgId}.age.${age}] is filled from the fields of a request by the client
    and taken apart by the service.

    The NATS libraries, JSON and JSONPath are parameters: [Micro] for the replies,
    [wire] for what a header looks like after transport, [JsonPath] for the fields
    of a message. *)
From Stdlib Require Import Ascii.
From stdpp Require Import pretty.
From S2P Require Import Prelude GoText Claims Request.
From stdpp Require Import options.

(** ** Headers ([nats.Header]: case-sensitive) *)
Abbreviation Header := (gmap string (list string)).

Definition hdr_Get (h : Header) (k : string) : string := match h !! k with Some (v :: _) => v | _ => "" end.
Definition hdr_Values (h : Header) (k : string) : list string := default [] (h !! k).

(** [micro]'s own headers. *)
Definition ErrorHeader : string := "Nats-Service-Error".
Definition ErrorCodeHeader : string := "Nats-Service-Error-Code".

Definition GRPCStatusHeader : string := "Grpc-Status".
Definition GRPCMessageHeader : string := "Grpc-Message".

(** [req.Error(code, description, nil, WithHeaders(h))]: the headers of the message
    it hands to the connection, or nothing when it refuses its arguments. *)
Class Micro := req_Error : string → string → Header → option Header.
Class MicroLaws `{Micro} :=
  req_Error_sends code desc h : code ≠ "" → desc ≠ "" →
    ∃ r, req_Error code desc h = Some r ∧ r !! ErrorHeader = Some [desc] ∧ r !! ErrorCodeHeader = Some [code] ∧
      ∀ k, k ≠ ErrorHeader → k ≠ ErrorCodeHeader → r !! k = h !! k.

(** ** Codes *)
Definition code_num (c : code) : Z :=
  match c with
  | OK => 0 | Canceled => 1 | Unknown => 2 | InvalidArgument => 3 | DeadlineExceeded => 4 | NotFound => 5
  | AlreadyExists => 6 | PermissionDenied => 7 | ResourceExhausted => 8 | FailedPrecondition => 9 | Aborted => 10
  | OutOfRange => 11 | Unimplemented => 12 | Internal => 13 | Unavailable => 14 | DataLoss => 15 | Unauthenticated => 16
  end.

Definition all_codes : list code :=
  [OK; Canceled; Unknown; InvalidArgument; DeadlineExceeded; NotFound; AlreadyExists; PermissionDenied;
   ResourceExhausted; FailedPrecondition; Aborted; OutOfRange; Unimplemented; Internal; Unavailable; DataLoss;
   Unauthenticated].

(** [codes.Code(n)] for [n] up to [Unauthenticated]. *)
Definition code_of (n : Z) : option code := all_codes !! Z.to_nat n.

Definition grpcToServiceCode (c : code) : string :=
  match c with
  | InvalidArgument | OutOfRange => "400"
  | Unauthenticated => "401"
  | PermissionDenied => "403"
  | NotFound => "404"
  | AlreadyExists | Aborted => "409"
  | FailedPrecondition => "412"
  | ResourceExhausted => "429"
  | Canceled => "499"
  | Unimplemented => "501"
  | Unavailable => "503"
  | DeadlineExceeded => "504"
  | _ => "500"
  end.

Definition serviceCodeToGRPC (s : string) : code :=
  if decide (s = "400") then InvalidArgument
  else if decide (s = "401") then Unauthenticated
  else if decide (s = "403") then PermissionDenied
  else if decide (s = "404") then NotFound
  else if decide (s = "409") then AlreadyExists
  else if decide (s = "412") then FailedPrecondition
  else if decide (s = "429") then ResourceExhausted
  else if decide (s = "499") then Canceled
  else if decide (s = "501") then Unimplemented
  else if decide (s = "503") then Unavailable
  else if decide (s = "504" ∨ s = "408") then DeadlineExceeded
  else Internal.

(** [strings.NewReplacer("\r", " ", "\n", " ").Replace]. *)
Definition line_break (c : ascii) : bool := let n := N_of_ascii c in (n =? 13)%N || (n =? 10)%N.
Fixpoint headerSafe (s : string) : string :=
  match s with EmptyString => "" | String c s' => String (if line_break c then cSpace else c) (headerSafe s') end.

(** [grpcstatus.Convert]: an error without a status is [Unknown]. *)
Definition status_Convert (e : error) : code * string :=
  match e with StatusErr c m => (c, m) | PlainErr m => (Unknown, m) end.

(** [strconv.ParseInt(s, 10, 64)], with its errors. *)
Definition ParseInt `{UnicodeTables} (s : string) : result error Z :=
  let failed why := Err (PlainErr ("strconv.ParseInt: parsing " +:+ Quote s +:+ ": " +:+ why)) in
  match signed_value s with
  | None => failed "invalid syntax"
  | Some z => if decide (wrap64 z = z) then Ok z else failed "value out of range"
  end.

Section errors.
Context `{HM : Micro}.

Definition respondError (err : error) : option Header :=
  let '(c, m) := status_Convert err in
  let msg := if decide (m = "") then code_String c else m in
  let msg := headerSafe msg in
  req_Error (grpcToServiceCode c) msg
    (<[GRPCStatusHeader := [pretty (code_num c)]]> {[GRPCMessageHeader := [msg]]}).

(** A reply; [msg.Header] may be nil. *)
Record Msg := mkMsg { m_Header : option Header; m_Data : list N }.

Definition statusFromNATSResponse (msg : option Msg) : option error :=
  msg ← msg;
  h ← m_Header msg;
  let description := strings_Join (hdr_Values h ErrorHeader) "; " in
  let serviceCode := hdr_Get h ErrorCodeHeader in
  let grpcCode := hdr_Get h GRPCStatusHeader in
  if decide (description = "" ∧ serviceCode = "" ∧ grpcCode = "") then None
  else
    let message := hdr_Get h GRPCMessageHeader in
    let description := if decide (message ≠ "") then message else description in
    match Atoi grpcCode with
    | Some n =>
        if decide (0 < n <= code_num Unauthenticated)%Z
        then c ← code_of n; Some (StatusErr c description)
        else Some (StatusErr (serviceCodeToGRPC serviceCode) description)
    | None => Some (StatusErr (serviceCodeToGRPC serviceCode) description)
    end.
End errors.

(** Transport errors, by the sentinel errors they wrap ([errors.Is]). *)
Inductive sentinel :=
| ErrNoResponders | CtxDeadlineExceeded | ErrTimeout | CtxCanceled | ErrConnectionClosed | ErrDisconnected.
#[global] Instance sentinel_eq_dec : EqDecision sentinel.
Proof. solve_decision. Defined.
Record terror := mkTerror { te_msg : string; te_wraps : list sentinel }.

Definition statusFromTransportError (err : terror) : error :=
  let errIs s := bool_decide (s ∈ te_wraps err) in
  let failed c := StatusErr c ("nats request failed: " +:+ te_msg err) in
  if errIs ErrNoResponders then failed Unavailable
  else if errIs CtxDeadlineExceeded || errIs ErrTimeout then failed DeadlineExceeded
  else if errIs CtxCanceled then failed Canceled
  else if errIs ErrConnectionClosed || errIs ErrDisconnected then failed Unavailable
  else failed Unknown.

(** *** The status arrives *)

(** A header value that transport leaves alone. *)
Definition blank (c : ascii) : bool := let n := N_of_ascii c in (n =? 32)%N || (n =? 9)%N.
Fixpoint no_char (f : ascii → bool) (s : string) : bool :=
  match s with EmptyString => true | String c s' => negb (f c) && no_char f s' end.
Fixpoint last_char (s : string) : option ascii :=
  match s with EmptyString => None | String c EmptyString => Some c | String _ s' => last_char s' end.
Definition trimmed (s : string) : bool :=
  match s with String c _ => negb (blank c) | _ => true end && match last_char s with Some c => negb (blank c) | None => true end.
Definition header_value (s : string) : bool := trimmed s && no_char line_break s.

Class Wire := wire : Header → Header.
Class WireLaws `{Wire} := {
  wire_keeps h k vs : h !! k = Some vs → Forall (fun v => header_value v = true) vs → wire h !! k = Some vs;
  wire_none h k : h !! k = None → wire h !! k = None }.

Lemma headerSafe_id s : no_char line_break s = true → headerSafe s = s.
Proof.
  induction s as [|c s IH]; simpl; [done|]. intros [Hc%negb_true_iff Hs]%andb_true_iff. by rewrite Hc, IH.
Qed.

Lemma headerSafe_safe s : no_char line_break (headerSafe s) = true.
Proof. induction s as [|c s IH]; simpl; [done|]. rewrite IH. destruct (line_break c) eqn:E; [done|]. by rewrite E. Qed.

Lemma headerSafe_empty s : headerSafe s = "" → s = "".
Proof. by destruct s. Qed.

Lemma grpcToServiceCode_value c : grpcToServiceCode c ≠ "" ∧ header_value (grpcToServiceCode c) = true.
Proof. by destruct c. Qed.

Lemma code_num_value c : header_value (pretty (code_num c)) = true ∧ pretty (code_num c) ≠ "" ∧
  Atoi (pretty (code_num c)) = Some (code_num c) ∧ code_of (code_num c) = Some c.
Proof. destruct c; vm_compute; split_and!; done. Qed.

Section status.
Context `{HML : MicroLaws} `{HW : WireLaws}.

Lemma hdr_Get_Some h k v vs : h !! k = Some (v :: vs) → hdr_Get h k = v.
Proof. unfold hdr_Get. by intros ->. Qed.

Lemma status_read err :
  let '(c, m) := status_Convert err in
  let msg := headerSafe (if decide (m = "") then code_String c else m) in
  c ≠ OK → trimmed msg = true →
  ∃ h, respondError err = Some h ∧
    ∀ data, statusFromNATSResponse (Some (mkMsg (Some (wire h)) data)) = Some (StatusErr c msg).
Proof using HML HW.
  destruct (status_Convert err) as [c m] eqn:Hc. intros msg Hok Htrim.
  assert (Hne : msg ≠ "").
  { intros He%headerSafe_empty. case_decide; [by destruct c|done]. }
  assert (Hval : header_value msg = true) by (unfold header_value; rewrite Htrim; apply headerSafe_safe).
  destruct (grpcToServiceCode_value c) as [Hsn Hsv]. destruct (code_num_value c) as (Hnv & Hnn & Hat & Hof).
  destruct (req_Error_sends (grpcToServiceCode c) msg
    (<[GRPCStatusHeader := [pretty (code_num c)]]> {[GRPCMessageHeader := [msg]]}) Hsn Hne) as (h & Hr & H1 & H2 & Hrest).
  exists h. split; [unfold respondError; by rewrite Hc|]. intros data.
  assert (Hs : wire h !! GRPCStatusHeader = Some [pretty (code_num c)]).
  { apply wire_keeps; [|by repeat constructor]. by rewrite Hrest, lookup_insert_eq. }
  assert (Hm : wire h !! GRPCMessageHeader = Some [msg]).
  { apply wire_keeps; [|by repeat constructor]. by rewrite Hrest, lookup_insert_ne, lookup_singleton_eq. }
  unfold statusFromNATSResponse. cbn [mbind option_bind m_Header]. erewrite (hdr_Get_Some _ GRPCStatusHeader) by exact Hs.
  erewrite (hdr_Get_Some _ GRPCMessageHeader) by exact Hm. rewrite decide_False by (by intros (_ & _ & ?)).
  rewrite (decide_True (P := msg ≠ "")) by done. rewrite Hat, decide_True by (by destruct c). by rewrite Hof.
Qed.

(** A gRPC status survives the transport: whatever error a service returns,
    [respondError] builds a reply, and from that reply [statusFromNATSResponse] on
    the client rebuilds the same code and message (the name of the code for an
    empty message, spaces for line breaks), if the message does not begin or end
    with a blank. *)
Theorem status_over_nats err :
  let '(c, m) := status_Convert err in
  let msg := headerSafe (if decide (m = "") then code_String c else m) in
  c ≠ OK → trimmed msg = true →
  ∃ h, respondError err = Some h ∧
    ∀ data, statusFromNATSResponse (Some (mkMsg (Some (wire h)) data)) = Some (StatusErr c msg).
Proof using HML HW. exact (status_read err). Qed.
End status.

(** Services that do not send [Grpc-Status] get the nearest code back. *)
Example service_codes : (fun c => serviceCodeToGRPC (grpcToServiceCode c)) <$> all_codes =
  [Internal; Canceled; Internal; InvalidArgument; DeadlineExceeded; NotFound; AlreadyExists; PermissionDenied;
   ResourceExhausted; FailedPrecondition; AlreadyExists; InvalidArgument; Unimplemented; Internal; Unavailable; Internal;
   Unauthenticated].
Proof. reflexivity. Qed.

(** ** Subjects *)
Definition is_word (c : ascii) : bool :=                  (* \w *)
  let n := N_of_ascii c in between 48 57 n || between 65 90 n || between 97 122 n || (n =? 95)%N.
Definition is_char (b : N) (c : ascii) : bool := (N_of_ascii c =? b)%N.

(** The longest prefix of characters that satisfy [f]. *)
Fixpoint span (f : ascii → bool) (s : string) : string * string :=
  match s with
  | EmptyString => ("", "")
  | String c s' => if f c then let '(a, b) := span f s' in (String c a, b) else ("", s)
  end.

(** A match of [\$\{([^}]+)\}] at the beginning of [s]: the name and the rest. *)
Definition param_at (s : string) : option (string * string) :=
  match s with
  | String d (String b t) =>
      if is_char 36 d && is_char 123 b then
        let '(name, rest) := span (fun c => negb (is_char 125 c)) t in
        match rest with
        | String _ rest' => if decide (name = "") then None else Some (name, rest')
        | EmptyString => None
        end
      else None
  | _ => None
  end.

Definition param_text (name : string) : string := "${" +:+ name +:+ "}".

(** [FindAllString] of [(\w+|\$\{[^}]+\})]; an iteration consumes a character. *)
Fixpoint scan_tokens (fuel : nat) (s : string) : list string :=
  match fuel, s with
  | S n, String c s' =>
      if is_word c then let '(w, rest) := span is_word s in w :: scan_tokens n rest
      else match param_at s with
           | Some (name, rest) => param_text name :: scan_tokens n rest
           | None => scan_tokens n s'
           end
  | _, _ => []
  end.

Definition parseTokens (expr : string) : list string := scan_tokens (String.length expr) expr.

(** The loop of [tokenizeRouteWithNesting]. *)
Fixpoint tokenize_loop (rs : list rune) (tokens : list string) (current : list rune) (depth : Z) : list string :=
  match rs with
  | [] => if decide (current = []) then tokens else tokens ++ [string_of_runes current]
  | r :: rs' =>
      if (r =? 46)%N && (depth =? 0)%Z then
        if decide (current = []) then tokenize_loop rs' tokens [] depth
        else tokenize_loop rs' (tokens ++ [string_of_runes current]) [] depth
      else if (r =? 123)%N then tokenize_loop rs' tokens (current ++ [r]) (depth + 1)
      else if (r =? 125)%N then tokenize_loop rs' tokens (current ++ [r]) (depth - 1)
      else tokenize_loop rs' tokens (current ++ [r]) depth
  end.

Definition tokenizeRouteWithNesting (route : string) : list string := tokenize_loop (runes route) [] [] 0.

Definition strings_HasSuffix (s suffix : string) : bool :=
  bool_decide (String.substring (String.length s - String.length suffix) (String.length suffix) s = suffix ∧
               String.length suffix <= String.length s).

Definition isParameterToken (token : string) : bool := strings_HasPrefix token "${" && strings_HasSuffix token "}".

(** [token[2 : len(token)-1]]. *)
Definition param_name (token : string) : string := String.substring 2 (String.length token - 3) token.

Fixpoint match_tokens (tokens routeTokens : list string) (params : gmap string string) : result error (gmap string string) :=
  match tokens, routeTokens with
  | token :: tokens', rt :: routeTokens' =>
      if isParameterToken token then match_tokens tokens' routeTokens' (<[param_name token := rt]> params)
      else if decide (token ≠ rt) then
        Err (StatusErr InvalidArgument ("route segment mismatch: expected " +:+ token +:+ ", got " +:+ rt))
      else match_tokens tokens' routeTokens' params
  | _, _ => Ok params
  end.

Definition ExtractRouteParams (route parameterizedRoute : string) : result error (gmap string string) :=
  let tokens := parseTokens parameterizedRoute in
  let routeTokens := tokenizeRouteWithNesting route in
  if decide (length routeTokens ≠ length tokens) then
    Err (StatusErr InvalidArgument ("token count mismatch: route has " +:+ pretty (N.of_nat (length routeTokens)) +:+
                                    ", parameterized route has " +:+ pretty (N.of_nat (length tokens))))
  else match_tokens tokens routeTokens ∅.

(** [FindAllStringSubmatch] of [\$\{([^}]+)\}]: the names. *)
Fixpoint scan_params (fuel : nat) (s : string) : list string :=
  match fuel, s with
  | S n, String _ s' =>
      match param_at s with
      | Some (name, rest) => name :: scan_params n rest
      | None => scan_params n s'
      end
  | _, _ => []
  end.

(** [%q] of a rune. *)
Definition quote_rune `{UnicodeTables} (r : rune) : string :=
  string_of_runes (rApostrophe :: (if (r =? rApostrophe)%N then [rBackslash; r] else if (r =? rQuote)%N then [r] else escaped_rune r)
                   ++ [rApostrophe]).

Definition bad_subject_rune (r : rune) : bool :=
  (r =? 46)%N || (r =? 42)%N || (r =? 62)%N || (r <=? 32)%N || (r =? 0x7F)%N.

Definition validateSubjectToken `{UnicodeTables} (name value : string) : option error :=
  if decide (value = "") then Some (StatusErr InvalidArgument ("subject token " +:+ Quote name +:+ " is empty"))
  else match list_find (fun r => bad_subject_rune r = true) (runes value) with
       | Some (_, r) => Some (StatusErr InvalidArgument ("subject token " +:+ Quote name +:+
                                " contains an invalid character " +:+ quote_rune r))
       | None => None
       end.

(** The value of a JSON field, by dynamic type: a string, a [float64], or
    something else with its [%v] text. *)
Inductive jval (F : Type) := JString (s : string) | JNumber (f : F) | JOther (text : string) | JInt (z : Z).
Arguments JString {F}. Arguments JNumber {F}. Arguments JOther {F}. Arguments JInt {F}.

(** [protojson.Marshal] followed by [json.Unmarshal], the reverse, and [jsonpath]. *)
Class JsonPath (PM J F : Type) := {
  to_payload : PM → result error J;
  from_payload : J → PM → result error PM;
  jsonpath_Get : J → string → result error (jval F);
  jsonpath_Set : J → string → jval F → J }.

Section replace.
Context `{UT : UnicodeTables} {PM J F : Type} `{HJ : JsonPath PM J F}.
(** [strconv.FormatFloat(v, 'f', -1, 64)]. *)
Context (format_float : F → string).

Definition value_text (v : jval F) : string :=
  match v with JString s => s | JNumber f => format_float f | JOther t => t | JInt z => pretty z end.

Fixpoint replace_params (names : list string) (payload : J) (s : string) : result error string :=
  match names with
  | [] => Ok s
  | name :: names' =>
      value ← jsonpath_Get payload name;
      let stringValue := value_text value in
      match validateSubjectToken name stringValue with
      | Some e => Err e
      | None => replace_params names' payload (strings_ReplaceAll s (param_text name) stringValue)
      end
  end.

Definition ReplaceTokens (parameterizedToken : string) (m : PM) : result error string :=
  payload ← to_payload m;
  replace_params (scan_params (String.length parameterizedToken) parameterizedToken) payload parameterizedToken.

(** [InjectParameterizedRoutesIntoProtoMessage]: the parameters of the subject, set
    in the message where it has a string or a number; [order] is the iteration
    order of the map. *)
Fixpoint inject_params (kvs : list (string * string)) (payload : J) : result error J :=
  match kvs with
  | [] => Ok payload
  | (k, v) :: kvs' =>
      value ← jsonpath_Get payload k;
      match value with
      | JString _ => inject_params kvs' (jsonpath_Set payload k (JString v))
      | JNumber _ =>
          i64 ← ParseInt v; inject_params kvs' (jsonpath_Set payload k (JInt i64))
      | _ => inject_params kvs' payload
      end
  end.

Definition InjectParameterizedRoutesIntoProtoMessage (order : gmap string string → list (string * string))
    (route parameterizedRoute : string) (m : PM) : result error PM :=
  payload ← to_payload m;
  pathMap ← ExtractRouteParams route parameterizedRoute;
  payload ← inject_params (order pathMap) payload;
  from_payload payload m.
End replace.

(** *** Scanning structured text *)

(** A template: static words and parameters, separated by dots. *)
Inductive seg := Static (w : string) | Param (name : string).
#[global] Instance seg_eq_dec : EqDecision seg.
Proof. solve_decision. Defined.

Definition seg_text (s : seg) : string := match s with Static w => w | Param n => param_text n end.
Definition render (segs : list seg) : string := strings_Join (seg_text <$> segs) ".".

Fixpoint all_char (f : ascii → bool) (s : string) : bool :=
  match s with EmptyString => true | String c s' => f c && all_char f s' end.

Definition plain_char (c : ascii) : bool := negb (is_char 36 c) && negb (is_char 123 c) && negb (is_char 125 c).

Definition seg_ok (s : seg) : Prop :=
  match s with
  | Static w => w ≠ "" ∧ all_char is_word w = true
  | Param n => n ≠ "" ∧ all_char plain_char n = true
  end.

Lemma all_char_impl (f g : ascii → bool) s : (∀ c, f c = true → g c = true) → all_char f s = true → all_char g s = true.
Proof. intros Hfg. induction s as [|c s IH]; simpl; [done|]. intros [Hc Hs]%andb_true_iff. by rewrite (Hfg c), IH. Qed.

Lemma span_app f a b :
  all_char f a = true → match b with String c _ => f c = false | EmptyString => True end → span f (a +:+ b) = (a, b).
Proof.
  intros Ha Hb. induction a as [|c a IH]; simpl in *.
  - destruct b as [|c b]; [done|]. simpl. by rewrite Hb.
  - apply andb_true_iff in Ha as [-> Ha]. by rewrite IH.
Qed.

Lemma word_plain c : is_word c = true → plain_char c = true ∧ is_char 46 c = false.
Proof.
  unfold is_word, plain_char, is_char, between. intros Hw.
  destruct (N.eqb_spec (N_of_ascii c) 36), (N.eqb_spec (N_of_ascii c) 123), (N.eqb_spec (N_of_ascii c) 125),
    (N.eqb_spec (N_of_ascii c) 46); simpl; try done; exfalso; revert Hw;
  match goal with H : N_of_ascii c = _ |- _ => rewrite H; done end.
Qed.

Lemma param_at_text n rest :
  n ≠ "" → all_char plain_char n = true → param_at (param_text n +:+ rest) = Some (n, rest).
Proof.
  intros Hn Hp. unfold param_text. rewrite <- !sapp_assoc, !(sapp_cons _ _ (n +:+ _)), sapp_nil_l. cbn [param_at].
  change (is_char 36 _ && is_char 123 _) with true. cbv iota.
  rewrite (span_app (fun c => negb (is_char 125 c)) n ("}" +:+ rest)); [rewrite sapp_cons; by rewrite decide_False| |done].
  eapply all_char_impl; [|done]. intros c. unfold plain_char. by intros [_ ?]%andb_true_iff.
Qed.

Lemma param_at_none c s : is_char 36 c = false → param_at (String c s) = None.
Proof. intros Hc. unfold param_at. destruct s; [done|]. by rewrite Hc. Qed.

(** What follows a segment. *)
Definition tail_text (segs : list seg) : string := match segs with [] => "" | _ => "." +:+ render segs end.

Lemma render_cons s segs : render (s :: segs) = seg_text s +:+ tail_text segs.
Proof. destruct segs as [|s' segs]; unfold render; simpl; [by rewrite sapp_nil_r|done]. Qed.

Lemma seg_text_length s : seg_ok s → 1 <= String.length (seg_text s).
Proof. destruct s as [w|n]; simpl; [intros [Hw _]; destruct w; [done|simpl; lia]|intros _; lia]. Qed.

Lemma tail_head segs (f : ascii → bool) :
  f (ascii_of_N 46) = false → match tail_text segs with String c _ => f c = false | EmptyString => True end.
Proof. by destruct segs. Qed.

Lemma scan_tokens_seg n s segs : seg_ok s → scan_tokens (S n) (seg_text s +:+ tail_text segs) = seg_text s :: scan_tokens n (tail_text segs).
Proof.
  destruct s as [w|p]; intros [Hne Hc]; simpl seg_text.
  - destruct w as [|c w]; [done|]. rewrite sapp_cons. cbn [scan_tokens]. pose proof Hc as Hc'. simpl in Hc.
    apply andb_true_iff in Hc as [-> _]. change (String c (w +:+ tail_text segs)) with (String c w +:+ tail_text segs).
    rewrite (span_app is_word (String c w) (tail_text segs)); [done|done|]. by apply tail_head.
  - pose proof (param_at_text p (tail_text segs) Hne Hc) as Hp. unfold param_text at 1 in Hp. unfold param_text at 1.
    rewrite <- !sapp_assoc, !(sapp_cons _ _ (p +:+ _)), sapp_nil_l in Hp |- *. cbn [scan_tokens].
    change (is_word _) with false. cbv iota. by rewrite Hp.
Qed.

Lemma scan_tokens_dot n t : scan_tokens (S n) ("." +:+ t) = scan_tokens n t.
Proof. rewrite sapp_cons, sapp_nil_l. cbn [scan_tokens]. by rewrite param_at_none. Qed.

(** The tokens of a template are its segments. *)
Lemma parseTokens_render segs : Forall seg_ok segs → parseTokens (render segs) = seg_text <$> segs.
Proof.
  intros Hok. unfold parseTokens. assert (Hgen : ∀ fuel, String.length (render segs) <= fuel → scan_tokens fuel (render segs) = seg_text <$> segs).
  { induction Hok as [|s segs Hs Hok IH]; intros fuel Hf; [by destruct fuel|].
    rewrite render_cons in *. rewrite slength_app in Hf. pose proof (seg_text_length s Hs).
    destruct fuel as [|fuel]; [lia|]. rewrite scan_tokens_seg by done. rewrite fmap_cons. f_equal.
    destruct segs as [|s' segs]; [by destruct fuel|]. unfold tail_text in *. rewrite slength_app in Hf. simpl in Hf.
    destruct fuel as [|fuel]; [lia|]. rewrite scan_tokens_dot. apply IH. lia. }
  apply Hgen. lia.
Qed.

(** *** Replacing parameters *)

(** Text with holes; literal text has no [$]. *)
Inductive piece := Lit (s : string) | Hole (name : string).
Definition piece_text (p : piece) : string := match p with Lit s => s | Hole n => param_text n end.
Fixpoint pieces_text (ps : list piece) : string := match ps with [] => "" | p :: ps' => piece_text p +:+ pieces_text ps' end.
Definition not_dollar (c : ascii) : bool := negb (is_char 36 c).
Definition piece_ok (p : piece) : Prop :=
  match p with Lit s => all_char not_dollar s = true | Hole n => n ≠ "" ∧ all_char plain_char n = true end.
Definition fill (name value : string) (p : piece) : piece :=
  match p with Hole n => if decide (n = name) then Lit value else p | Lit _ => p end.

Lemma prefix_dollar t c s : not_dollar c = true → String.prefix (String (ascii_of_N 36) t) (String c s) = false.
Proof.
  unfold not_dollar, is_char. intros Hc%negb_true_iff%N.eqb_neq. cbn [String.prefix].
  destruct (ascii_dec (ascii_of_N 36) c) as [<-|]; [done|done].
Qed.

Lemma prefix_cons c a b : String.prefix (String c a) (String c b) = String.prefix a b.
Proof. cbn [String.prefix]. by destruct (ascii_dec c c). Qed.

Lemma prefix_closed n m s :
  all_char plain_char n = true → all_char plain_char m = true →
  String.prefix (n +:+ "}") (m +:+ "}" +:+ s) = bool_decide (n = m).
Proof.
  revert m. assert (Hb : plain_char (ascii_of_N 125) = false) by done.
  induction n as [|c n IH]; intros [|d m] Hn Hm; rewrite ?sapp_nil_l, ?sapp_cons.
  - rewrite prefix_cons, bool_decide_eq_true_2 by done. by destruct s.
  - cbn [String.prefix]. destruct (ascii_dec _ d) as [<-|]; [by simpl in Hm|]. by rewrite bool_decide_eq_false_2.
  - cbn [String.prefix]. destruct (ascii_dec c _) as [->|]; [by simpl in Hn|]. by rewrite bool_decide_eq_false_2.
  - simpl in Hn, Hm. apply andb_true_iff in Hn as [_ Hn], Hm as [_ Hm]. cbn [String.prefix].
    destruct (ascii_dec c d) as [->|Hne].
    + rewrite IH by done. apply bool_decide_ext. split; [by intros ->|by intros [= ->]].
    + symmetry. apply bool_decide_eq_false_2. by intros [= -> _].
Qed.

Lemma param_text_app n s : param_text n +:+ s = String (ascii_of_N 36) (String (ascii_of_N 123) (n +:+ "}" +:+ s)).
Proof. unfold param_text. by rewrite <- !sapp_assoc. Qed.

Lemma param_text_eq n : param_text n = String (ascii_of_N 36) (String (ascii_of_N 123) (n +:+ "}")).
Proof. done. Qed.

Lemma prefix_param n m s :
  all_char plain_char n = true → all_char plain_char m = true →
  String.prefix (param_text n) (param_text m +:+ s) = bool_decide (n = m).
Proof. intros Hn Hm. rewrite param_text_app, param_text_eq, !prefix_cons. by apply prefix_closed. Qed.

Lemma replace_lit fuel s t old new :
  all_char not_dollar s = true → String.length s <= fuel →
  replace_all fuel (s +:+ t) (String (ascii_of_N 36) old) new = s +:+ replace_all (fuel - String.length s) t (String (ascii_of_N 36) old) new.
Proof.
  revert fuel. induction s as [|c s IH]; intros fuel Hs Hf.
  - rewrite !sapp_nil_l. simpl. by rewrite Nat.sub_0_r.
  - simpl in Hs. apply andb_true_iff in Hs as [Hc Hs]. simpl in Hf. destruct fuel as [|fuel]; [lia|].
    rewrite !sapp_cons. cbn [replace_all]. rewrite prefix_dollar by done. rewrite IH by (done || lia). done.
Qed.

Lemma plain_not_dollar n : all_char plain_char n = true → all_char not_dollar n = true.
Proof. apply all_char_impl. intros c. unfold plain_char, not_dollar. by intros [[? _]%andb_true_iff _]%andb_true_iff. Qed.

Lemma all_char_app f a b : all_char f (a +:+ b) = all_char f a && all_char f b.
Proof. induction a as [|c a IH]; [done|]. rewrite sapp_cons. simpl. by rewrite IH, andb_assoc. Qed.

(** [ReplaceAll] fills every hole of that name and changes nothing else. *)
Lemma replace_pieces name v ps fuel :
  all_char plain_char name = true → Forall piece_ok ps → String.length (pieces_text ps) <= fuel →
  replace_all fuel (pieces_text ps) (param_text name) v = pieces_text (fill name v <$> ps).
Proof.
  intros Hname Hok. revert fuel. induction Hok as [|p ps Hp Hok IH]; intros fuel Hf; [by destruct fuel|].
  cbn [pieces_text fmap list_fmap] in *. rewrite slength_app in Hf. destruct p as [s|m]; simpl in Hp, Hf.
  - rewrite param_text_eq. cbn [piece_text fill]. rewrite replace_lit by (done || lia). f_equal.
    rewrite <- param_text_eq. apply IH. lia.
  - destruct Hp as [_ Hm]. destruct fuel as [|fuel]; [lia|]. pose proof (prefix_param name m (pieces_text ps) Hname Hm) as Hpre.
    cbn [piece_text fill]. destruct (decide (m = name)) as [->|Hne].
    + rewrite bool_decide_eq_true_2 in Hpre by done. pose proof (substring_app (param_text name) (pieces_text ps)) as Hsub.
      rewrite param_text_app in Hpre, Hsub |- *. cbn [replace_all]. rewrite Hpre, Hsub. cbn [piece_text]. f_equal. apply IH. lia.
    + rewrite bool_decide_eq_false_2 in Hpre by congruence. rewrite param_text_app in Hpre |- *. cbn [replace_all]. rewrite Hpre.
      cbn [piece_text]. rewrite param_text_app. f_equal.
      change (String (ascii_of_N 123) (m +:+ "}" +:+ pieces_text ps)) with (String (ascii_of_N 123) m +:+ ("}" +:+ pieces_text ps)).
      rewrite !sapp_assoc. rewrite (param_text_eq name), replace_lit, <- param_text_eq.
      * rewrite IH, sapp_cons; [done|]. rewrite sapp_cons. cbn [String.length].
        rewrite sapp_nil_l, slength_app in Hf. rewrite slength_app. simpl in *. lia.
      * rewrite all_char_app. simpl. by rewrite plain_not_dollar.
      * rewrite sapp_nil_l, slength_app in Hf. rewrite sapp_cons. cbn [String.length]. rewrite slength_app. lia.
Qed.

(** *** Filling a template *)
Definition seg_piece (s : seg) : piece := match s with Static w => Lit w | Param n => Hole n end.
Fixpoint seg_pieces (segs : list seg) : list piece :=
  match segs with
  | [] => []
  | s :: segs' => seg_piece s :: match segs' with [] => [] | _ => Lit "." :: seg_pieces segs' end
  end.

Fixpoint holes (ps : list piece) : list string :=
  match ps with [] => [] | Hole n :: ps' => n :: holes ps' | Lit _ :: ps' => holes ps' end.

Lemma seg_pieces_text segs : pieces_text (seg_pieces segs) = render segs.
Proof.
  induction segs as [|s segs IH]; [done|]. rewrite render_cons. cbn [seg_pieces pieces_text].
  assert (Hs : piece_text (seg_piece s) = seg_text s) by (by destruct s). rewrite Hs. f_equal.
  destruct segs as [|s' segs]; [done|]. cbn [pieces_text]. by rewrite IH.
Qed.

Lemma word_not_dollar w : all_char is_word w = true → all_char not_dollar w = true.
Proof. intros Hw. apply plain_not_dollar. eapply all_char_impl; [|done]. by intros c [? _]%word_plain. Qed.

Lemma seg_pieces_ok segs : Forall seg_ok segs → Forall piece_ok (seg_pieces segs).
Proof.
  intros Hok. induction Hok as [|s segs Hs Hok IH]; [done|]. cbn [seg_pieces]. constructor.
  - destruct s as [w|n]; [|done]. destruct Hs. by apply word_not_dollar.
  - destruct segs; [done|]. by constructor.
Qed.

Lemma seg_pieces_holes segs : holes (seg_pieces segs) = omap (fun s => match s with Param n => Some n | Static _ => None end) segs.
Proof.
  induction segs as [|s segs IH]; [done|]. cbn [seg_pieces omap list_omap].
  assert (Ht : holes (match segs with [] => [] | _ => Lit "." :: seg_pieces segs end) = holes (seg_pieces segs)) by (by destruct segs).
  destruct s as [w|n]; simpl; rewrite Ht, IH; done.
Qed.

Lemma scan_params_lit fuel s t :
  all_char not_dollar s = true → String.length s <= fuel → scan_params fuel (s +:+ t) = scan_params (fuel - String.length s) t.
Proof.
  revert fuel. induction s as [|c s IH]; intros fuel Hs Hf; [rewrite sapp_nil_l; simpl; by rewrite Nat.sub_0_r|].
  simpl in Hs. apply andb_true_iff in Hs as [Hc Hs]. destruct fuel as [|fuel]; [simpl in Hf; lia|]. rewrite sapp_cons.
  cbn [scan_params String.length]. rewrite param_at_none by (by apply negb_true_iff). apply IH; [done|simpl in Hf; lia].
Qed.

Lemma scan_params_pieces ps fuel :
  Forall piece_ok ps → String.length (pieces_text ps) <= fuel → scan_params fuel (pieces_text ps) = holes ps.
Proof.
  intros Hok. revert fuel. induction Hok as [|p ps Hp Hok IH]; intros fuel Hf; [by destruct fuel|].
  cbn [pieces_text] in *. rewrite slength_app in Hf. destruct p as [s|n]; cbn [piece_text] in *.
  - rewrite scan_params_lit by (done || lia). apply IH. lia.
  - destruct Hp as [Hn Hp]. destruct fuel as [|fuel]; [rewrite param_text_eq in Hf; simpl in Hf; lia|].
    pose proof (param_at_text n (pieces_text ps) Hn Hp) as Hat. rewrite param_text_app in Hat |- *. cbn [scan_params].
    rewrite Hat. simpl. f_equal. apply IH. rewrite param_text_eq in Hf. simpl in Hf. lia.
Qed.

(** A value a parameter may carry: one printable ASCII subject token without [$], [{], [}]. *)
Definition value_char (c : ascii) : bool :=
  let n := N_of_ascii c in
  between 33 126 n && negb (n =? 46)%N && negb (n =? 42)%N && negb (n =? 62)%N && plain_char c.
Definition value_ok (v : string) : Prop := v ≠ "" ∧ all_char value_char v = true.

Lemma value_ascii v : all_char value_char v = true → Forall (fun b => b < 0x80 ∧ bad_subject_rune b = false ∧ (b =? 46) = false ∧
  (b =? 123) = false ∧ (b =? 125) = false)%N (bytes_of_string v).
Proof.
  induction v as [|c v IH]; [constructor|]. cbn [all_char bytes_of_string]. intros [Hc Hv]%andb_true_iff.
  constructor; [|by apply IH]. unfold value_char, plain_char, is_char, between in Hc. unfold bad_subject_rune.
  repeat (apply andb_true_iff in Hc as [Hc ?]). repeat match goal with H : negb _ = true |- _ => apply negb_true_iff in H end.
  repeat match goal with H : (_ && _)%bool = true |- _ => apply andb_true_iff in H as [? ?] end.
  repeat match goal with H : negb _ = true |- _ => apply negb_true_iff in H end.
  repeat match goal with H : (_ <=? _)%N = true |- _ => apply N.leb_le in H | H : (_ =? _)%N = false |- _ => rewrite ?H; apply N.eqb_neq in H end.
  split_and!; rewrite ?orb_false_iff; split_and?; try (apply N.eqb_neq; lia); try (apply N.leb_gt; lia); lia.
Qed.

Lemma validate_value_ok `{UnicodeTables} n v : value_ok v → validateSubjectToken n v = None.
Proof.
  intros [Hne Hv%value_ascii]. unfold validateSubjectToken. rewrite decide_False by done.
  rewrite runes_ascii by (eapply Forall_impl; [done|]; by intros b [? _]).
  destruct (list_find _ (bytes_of_string v)) as [[i r]|] eqn:E; [|done].
  apply list_find_Some in E as (Hi & Hb & _). apply (proj1 (Forall_lookup _ _) Hv) in Hi. destruct Hi as (_ & Hi & _). congruence.
Qed.

Section subjects.
Context `{UT : UnicodeTables} {PM J F : Type} `{HJ : JsonPath PM J F} (format_float : F → string).
Context (val : string → string).

Definition seg_value (s : seg) : string := match s with Static w => w | Param n => val n end.
Definition fill_all (ps : list piece) (names : list string) : list piece :=
  foldl (fun ps n => fill n (val n) <$> ps) ps names.

Lemma fill_ok n ps : value_ok (val n) → Forall piece_ok ps → Forall piece_ok (fill n (val n) <$> ps).
Proof.
  intros [_ Hv] Hok. apply Forall_fmap. eapply Forall_impl; [done|]. intros [s|m] Hp; [done|]. simpl.
  case_decide; [|done]. simpl. apply plain_not_dollar. eapply all_char_impl; [|done].
  intros c. unfold value_char. by intros [_ ?]%andb_true_iff.
Qed.

Lemma replace_params_pieces names payload ps :
  Forall piece_ok ps →
  Forall (fun n => all_char plain_char n = true ∧ value_ok (val n) ∧
                   ∃ v, jsonpath_Get payload n = Ok v ∧ value_text format_float v = val n) names →
  replace_params format_float names payload (pieces_text ps) = Ok (pieces_text (fill_all ps names)).
Proof.
  intros Hok Hn. revert ps Hok. induction Hn as [|n names (Hp & Hv & v & Hg & Ht) Hn IH]; intros ps Hok; [done|].
  cbn [replace_params]. rewrite Hg. cbn [mbind result_bind]. rewrite Ht, validate_value_ok by done.
  unfold strings_ReplaceAll. rewrite replace_pieces by done. rewrite IH by (by apply fill_ok). done.
Qed.

Lemma fill_all_spec names ps : (∀ n, n ∈ holes ps → n ∈ names) →
  fill_all ps names = (fun p => match p with Hole n => Lit (val n) | Lit s => Lit s end) <$> ps.
Proof.
  assert (Hgen : ∀ names ps, fill_all ps names =
    (fun p => match p with Hole n => if decide (n ∈ names) then Lit (val n) else p | Lit s => p end) <$> ps).
  { clear. induction names as [|n names IH]; intros ps.
    - unfold fill_all. simpl. rewrite <- (list_fmap_id ps) at 1. apply list_fmap_ext. by intros i [s|m] _.
    - unfold fill_all in *. cbn [foldl]. rewrite IH, <- list_fmap_compose. apply list_fmap_ext. intros i [s|m] _; [done|].
      unfold compose. cbn [fill]. destruct (decide (m ∈ n :: names)) as [Hin|Hin]; rewrite elem_of_cons in Hin;
        destruct (decide (m = n)) as [->|Hne]; [done| |by destruct Hin; left|].
      + cbv beta iota. rewrite decide_True; [done|]. by destruct Hin.
      + cbv beta iota. rewrite decide_False; [done|]. intros ?. apply Hin. by right. }
  intros Hall. rewrite Hgen. apply list_fmap_ext. intros i p Hp. destruct p as [s|m]; [done|].
  rewrite decide_True; [done|]. apply Hall. apply list_elem_of_lookup_2 in Hp. clear -Hp.
  induction ps as [|q ps IH]; [by apply elem_of_nil in Hp|]. apply elem_of_cons in Hp as [<-|Hp]; [left|].
  destruct q; simpl; [by apply IH|right; by apply IH].
Qed.

(** The filled template. *)
Definition subject_of (segs : list seg) : string := strings_Join (seg_value <$> segs) ".".

Lemma filled_text segs :
  pieces_text ((fun p => match p with Hole n => Lit (val n) | Lit s => Lit s end) <$> seg_pieces segs) = subject_of segs.
Proof.
  unfold subject_of. induction segs as [|s segs IH]; [done|]. cbn [seg_pieces]. rewrite fmap_cons.
  assert (Hs : (match seg_piece s with Lit s => Lit s | Hole n => Lit (val n) end) = Lit (seg_value s)) by (by destruct s).
  rewrite Hs. cbn [pieces_text piece_text]. destruct segs as [|s' segs]; [simpl; by rewrite sapp_nil_r|].
  rewrite fmap_cons. cbn [pieces_text piece_text]. rewrite IH. rewrite !fmap_cons. done.
Qed.

(** *** Taking the subject apart *)
Definition token_ok (v : string) : Prop := v ≠ "" ∧ Forall (fun b => b < 0x80 ∧ (b =? 46) = false ∧ (b =? 123) = false ∧ (b =? 125) = false)%N (bytes_of_string v).

Lemma tokenize_word bs rs tokens cur :
  Forall (fun b => b < 0x80 ∧ (b =? 46) = false ∧ (b =? 123) = false ∧ (b =? 125) = false)%N bs →
  tokenize_loop (bs ++ rs) tokens cur 0 = tokenize_loop rs tokens (cur ++ bs) 0.
Proof.
  intros Hb. revert cur. induction Hb as [|b bs (_ & H1 & H2 & H3) Hb IH]; intros cur; [by rewrite app_nil_r|].
  cbn [app tokenize_loop]. rewrite H1, H2, H3. cbn [andb]. rewrite IH. by rewrite <- app_assoc.
Qed.

Lemma ascii_of_token v : token_ok v → Forall (fun b => b < 0x80)%N (bytes_of_string v).
Proof. intros [_ Hv]. eapply Forall_impl; [done|]. by intros b [? _]. Qed.

Lemma token_text v : token_ok v → string_of_runes (bytes_of_string v) = v.
Proof. intros Hv. rewrite string_of_runes_ascii by (by apply ascii_of_token). apply string_of_bytes_of_string. Qed.

Lemma bytes_nonempty v : v ≠ "" → bytes_of_string v ≠ [].
Proof. by destruct v. Qed.

(** Tokens without dots and braces, joined by dots, are split again. *)
Lemma tokenize_join vs : Forall token_ok vs → tokenizeRouteWithNesting (strings_Join vs ".") = vs.
Proof.
  intros Hok. unfold tokenizeRouteWithNesting.
  assert (Ha : Forall (fun b => b < 0x80)%N (bytes_of_string (strings_Join vs "."))).
  { induction Hok as [|v vs Hv Hok IH]; [constructor|]. destruct vs as [|v' vs]; [by apply ascii_of_token|].
    cbn [strings_Join]. rewrite !bytes_of_string_app. apply Forall_app_2; [by apply ascii_of_token|].
    apply Forall_app_2; [by repeat constructor|done]. }
  rewrite runes_ascii by done. clear Ha.
  assert (Hgen : ∀ tokens, tokenize_loop (bytes_of_string (strings_Join vs ".")) tokens [] 0 = tokens ++ vs).
  { induction Hok as [|v vs Hv Hok IH]; intros tokens; [by rewrite app_nil_r|]. pose proof Hv as [Hne Hb].
    destruct vs as [|v' vs].
    - cbn [strings_Join]. rewrite <- (app_nil_r (bytes_of_string v)), tokenize_word by done. cbn [app tokenize_loop].
      rewrite decide_False by (by apply bytes_nonempty). by rewrite token_text.
    - cbn [strings_Join]. rewrite !bytes_of_string_app, tokenize_word by done. cbn [app].
      change (bytes_of_string ".") with [46%N]. cbn [app tokenize_loop]. change ((46 =? 46)%N && (0 =? 0)%Z) with true. cbv iota.
      rewrite decide_False by (by apply bytes_nonempty). rewrite token_text by done. rewrite IH. by rewrite <- app_assoc. }
  apply Hgen.
Qed.

Lemma seg_value_token s : seg_ok s → (∀ n, s = Param n → value_ok (val n)) → token_ok (seg_value s).
Proof.
  destruct s as [w|n]; simpl; intros [Hne Hc] Hv.
  - split; [done|]. clear Hne Hv. induction w as [|c w IH]; [constructor|]. simpl in Hc. apply andb_true_iff in Hc as [Hc Hw].
    cbn [bytes_of_string]. constructor; [|by apply IH]. destruct (word_plain c Hc) as [Hp Hd]. unfold plain_char, is_char in *.
    apply andb_true_iff in Hp as [[_ Hp1%negb_true_iff]%andb_true_iff Hp2%negb_true_iff].
    split_and!; try done. unfold is_word, between in Hc.
    destruct (N.lt_ge_cases (N_of_ascii c) 128) as [|Hge]; [done|]. exfalso.
    repeat (apply orb_true_iff in Hc as [Hc|Hc]); repeat (apply andb_true_iff in Hc as [? Hc]);
      try (apply N.leb_le in Hc; lia); apply N.eqb_eq in Hc; lia.
  - destruct (Hv n eq_refl) as [Hn Hb]. split; [done|]. apply value_ascii in Hb. eapply Forall_impl; [done|].
    intros b (? & _ & ? & ? & ?). done.
Qed.

Lemma substring_0_len a b : String.substring 0 (String.length a) (a +:+ b) = a.
Proof. induction a as [|c a IH]; [by destruct b|]. exact (f_equal (String c) IH). Qed.

Lemma param_token n : isParameterToken (param_text n) = true ∧ param_name (param_text n) = n.
Proof.
  assert (Hl : String.length (param_text n) = S (S (String.length n + 1))) by (rewrite param_text_eq; simpl; by rewrite slength_app).
  split.
  - unfold isParameterToken. apply andb_true_iff. split; [by rewrite param_text_eq; destruct n|].
    apply bool_decide_eq_true_2. rewrite Hl. cbn [String.length]. split; [|lia].
    replace (S (S (String.length n + 1)) - 1) with (S (S (String.length n))) by lia. rewrite param_text_eq.
    cbn [String.substring]. clear Hl. induction n as [|c n IH]; [done|exact IH].
  - unfold param_name. rewrite Hl, param_text_eq. replace (S (S (String.length n + 1)) - 3) with (String.length n) by lia.
    cbn [String.substring]. apply substring_0_len.
Qed.

Lemma word_token w : all_char is_word w = true → isParameterToken w = false.
Proof.
  intros Hw. unfold isParameterToken. destruct w as [|c w]; [done|]. simpl in Hw. apply andb_true_iff in Hw as [Hc _].
  unfold strings_HasPrefix. change ("${") with (String (ascii_of_N 36) "{"). rewrite prefix_dollar; [done|].
  destruct (word_plain c Hc) as [Hp _]. unfold plain_char in Hp. by apply andb_true_iff in Hp as [[? _]%andb_true_iff _].
Qed.

Lemma match_tokens_spec segs params :
  Forall seg_ok segs →
  match_tokens (seg_text <$> segs) (seg_value <$> segs) params =
    Ok (foldl (fun m s => match s with Param n => <[n := val n]> m | Static _ => m end) params segs).
Proof.
  intros Hok. revert params. induction Hok as [|s segs Hs Hok IH]; intros params; [done|].
  rewrite !fmap_cons. cbn [match_tokens foldl]. destruct s as [w|n]; cbn [seg_text seg_value].
  - destruct Hs as [_ Hw]. rewrite word_token by done. rewrite decide_False by (by intros []). apply IH.
  - destruct (param_token n) as [-> ->]. apply IH.
Qed.

Lemma params_lookup segs (params : gmap string string) n :
  foldl (fun m s => match s with Param n => <[n := val n]> m | Static _ => m end) params segs !! n =
    if decide (Param n ∈ segs) then Some (val n) else params !! n.
Proof.
  revert params. induction segs as [|s segs IH]; intros params; [by rewrite decide_False by apply not_elem_of_nil|].
  cbn [foldl]. rewrite IH. destruct (decide (Param n ∈ s :: segs)) as [Hin|Hin]; rewrite elem_of_cons in Hin;
    destruct (decide (Param n ∈ segs)) as [Hs|Hs]; try tauto.
  - destruct Hin as [<-|]; [|done]. by rewrite lookup_insert_eq.
  - destruct s as [w|m]; [done|]. rewrite lookup_insert_ne; [done|]. intros ->. tauto.
Qed.

Lemma subject_tokens segs :
  Forall seg_ok segs → (∀ n, Param n ∈ segs → value_ok (val n)) →
  tokenizeRouteWithNesting (subject_of segs) = seg_value <$> segs.
Proof.
  intros Hok Hval. apply tokenize_join. apply Forall_fmap, Forall_forall. intros s Hs. apply seg_value_token.
  - by apply (proj1 (Forall_forall _ _) Hok).
  - intros n ->. by apply Hval.
Qed.

Lemma subject_facts segs m payload :
  Forall seg_ok segs → to_payload m = Ok payload →
  (∀ n, Param n ∈ segs → value_ok (val n) ∧ ∃ v, jsonpath_Get payload n = Ok v ∧ value_text format_float v = val n) →
  ReplaceTokens format_float (render segs) m = Ok (subject_of segs) ∧
  ∃ params, ExtractRouteParams (subject_of segs) (render segs) = Ok params ∧
    ∀ n, params !! n = if decide (Param n ∈ segs) then Some (val n) else None.
Proof.
  intros Hok Hm Hval. pose proof (seg_pieces_ok segs Hok) as Hps.
  assert (Htok : tokenizeRouteWithNesting (subject_of segs) = seg_value <$> segs).
  { apply subject_tokens; [done|]. intros n Hn. by apply Hval. }
  split.
  - unfold ReplaceTokens. rewrite Hm. cbn [mbind result_bind]. rewrite <- seg_pieces_text.
    rewrite scan_params_pieces by done. rewrite replace_params_pieces; [|done|].
    + rewrite fill_all_spec by done. by rewrite filled_text.
    + rewrite seg_pieces_holes. apply Forall_forall. intros n (s & Hs & Hn)%list_elem_of_omap. destruct s as [w|n']; [done|].
      injection Hn as <-. pose proof (proj1 (Forall_forall _ _) Hok _ Hs) as [_ Hp]. destruct (Hval n' Hs). done.
  - unfold ExtractRouteParams. rewrite parseTokens_render, Htok by done. rewrite !length_fmap, decide_False by lia.
    rewrite match_tokens_spec by done. eexists. split; [done|]. intros n. rewrite params_lookup.
    case_decide; [done|]. apply lookup_empty.
Qed.

(** C35: Subjects carry the fields of a request faithfully.  For a template of
    static words and parameters, and fields whose values are printable ASCII
    subject tokens without [$], [{] and [}]: [ReplaceTokens] puts every value in its
    place, the subject has exactly the template's tokens (no value changes its
    structure), and the service's [ExtractRouteParams] recovers every value.  Both
    limits are needed: see [dashed_segment_never_matches] and
    [values_can_join_to_a_parameter] below. *)
Theorem subject_roundtrip segs m payload :
  Forall seg_ok segs → to_payload m = Ok payload →
  (∀ n, Param n ∈ segs → value_ok (val n) ∧ ∃ v, jsonpath_Get payload n = Ok v ∧ value_text format_float v = val n) →
  ReplaceTokens format_float (render segs) m = Ok (subject_of segs) ∧
  tokenizeRouteWithNesting (subject_of segs) = seg_value <$> segs ∧
  ∃ params, ExtractRouteParams (subject_of segs) (render segs) = Ok params ∧
    ∀ n, params !! n = if decide (Param n ∈ segs) then Some (val n) else None.
Proof.
  intros Hok Hm Hval. destruct (subject_facts segs m payload Hok Hm Hval) as [H1 H2]. split_and!; [done| |done].
  apply subject_tokens; [done|]. intros n Hn. by apply Hval.
Qed.
End subjects.

(** ** Concrete messages *)
#[export] Instance field_map : JsonPath (gmap string (jval Z)) (gmap string (jval Z)) Z := {|
  to_payload m := Ok m;
  from_payload j _ := Ok j;
  jsonpath_Get j k := match j !! k with Some v => Ok v | None => Err (PlainErr ("key not found: " +:+ k)) end;
  jsonpath_Set j k v := <[k := v]> j |}.

Section examples.
#[local] Existing Instance latin1_tables.

Definition org_template : list seg := [Static "org"; Param "nestedMessage.orgId"; Static "age"; Param "age"].
Definition org_fields : gmap string (jval Z) := {["nestedMessage.orgId" := JString "acme-1"; "age" := JNumber 42%Z]}.
Definition org_val (n : string) : string := if decide (n = "age") then "42" else "acme-1".

Lemma subject_roundtrip_witness :
  ReplaceTokens (fun z : Z => pretty z) "org.${nestedMessage.orgId}.age.${age}" org_fields = Ok "org.acme-1.age.42" ∧
  tokenizeRouteWithNesting "org.acme-1.age.42" = ["org"; "acme-1"; "age"; "42"].
Proof.
  destruct (subject_roundtrip (fun z : Z => pretty z) org_val org_template org_fields org_fields) as (H1 & H2 & _).
  - repeat constructor; done.
  - done.
  - intros n Hn. unfold org_template in Hn. rewrite !elem_of_cons, elem_of_nil in Hn.
    assert (n = "nestedMessage.orgId" ∨ n = "age") as [-> | ->] by naive_solver; (split; [split; [done|reflexivity]|]).
    + exists (JString "acme-1"). split; reflexivity.
    + exists (JNumber 42%Z). split; reflexivity.
  - split; [exact H1|exact H2].
Defined.

(** A static segment that is not one word is split by [parseTokens] but not by the
    route's tokenizer, so no subject matches such a template. *)
Example dashed_segment_never_matches :
  ExtractRouteParams "my-org.7" "my-org.${id}" =
    Err (StatusErr InvalidArgument "token count mismatch: route has 2, parameterized route has 3").
Proof. reflexivity. Qed.

(** [validateSubjectToken] lets [$], [{] and [}] through, so two values can join to a
    parameter of the template, and the subject loses a token. *)
Example values_can_join_to_a_parameter :
  ReplaceTokens (fun z : Z => pretty z) "x.${p}.${q}.${a.b}"
    {["p" := JString "${a"; "q" := JString "b}"; "a.b" := JString "v"]} = Ok "x.v.v".
Proof. vm_compute. reflexivity. Qed.

#[local] Instance micro_map : Micro := fun code desc h =>
  if decide (code = "" ∨ desc = "") then None else Some (<[ErrorHeader := [desc]]> (<[ErrorCodeHeader := [code]]> h)).
#[local] Instance micro_map_laws : MicroLaws.
Proof.
  intros code desc h Hc Hd. unfold req_Error, micro_map. rewrite decide_False by tauto. eexists. split; [done|].
  split_and!; [by rewrite lookup_insert_eq|by rewrite lookup_insert_ne, lookup_insert_eq|].
  intros k H1 H2. by rewrite !lookup_insert_ne.
Qed.
#[local] Instance wire_id : Wire := fun h => h.
#[local] Instance wire_id_laws : WireLaws.
Proof. split; done. Qed.

Lemma status_over_nats_witness :
  ∃ h, respondError (StatusErr NotFound "no such user") = Some h ∧
    ∀ data, statusFromNATSResponse (Some (mkMsg (Some (wire h)) data)) = Some (StatusErr NotFound "no such user").
Proof. apply (status_over_nats (StatusErr NotFound "no such user")); [done|reflexivity]. Defined.
End examples.
