(* ===== verification/NatsService.v ===== *)
(** * gRPC over NATS: services and clients ([nats/nats_micro_service], [nats/client])

    [HandleRequest] turns a NATS micro request into a call of a gRPC client and
    answers it; [HandleNATSClientRequest] is its counterpart, which sends a request
    and turns the reply into a response or an error; [RequestWithContext] builds the
    message.  A handler run is the list of the answers it tries to give, which the
    connection takes or not.  [proto.Marshal] and [proto.Unmarshal], metadata and the
    connection are parameters. *)
From Stdlib Require Import Ascii.
From stdpp Require Import pretty.
From S2P Require Import Prelude GoText Claims Request Nats.
From stdpp Require Import options.

(** ** The service side *)
Record NATSMicroHandlerInfo := mkHandlerInfo { WildcardToken : string; ParameterizedToken : string }.

(** A request as the handler reads it. *)
Record MicroRequest := mkRequest { rq_Subject : string; rq_Headers : Header; rq_Data : list N }.

(** [ConvertToStringMap]: the first value of each header. *)
Definition ConvertToStringMap (h : Header) : gmap string string :=
  omap (fun values => match values with v :: _ => Some v | [] => None end) h.

(** *** What a handler does to its request

    A handler answers through [req.Respond] and [req.Error].  Nothing makes it
    answer, and nothing stops it from answering twice: its effect is the list of
    the answers it tried to give.  An answer is a message which the connection took
    ([Published]) or refused ([Unsent]: larger than the server's maximum payload,
    the connection closed), or arguments which [micro] refused before it built a
    message ([Refused]). *)
Inductive attempt := Published (m : Msg) | Unsent (m : Msg) | Refused.

(** A handler runs on, returns, or panics. *)
Inductive hexit (A : Type) := Continues (a : A) | Returns | Panics.
Arguments Continues {_} _.
Arguments Returns {_}.
Arguments Panics {_}.
Definition handler (A : Type) : Type := list attempt → hexit A * list attempt.

#[export] Instance handler_ret : MRet handler := fun A a log => (Continues a, log).
#[export] Instance handler_bind : MBind handler := fun A B k m log =>
  match m log with (Continues a, log') => k a log' | (Returns, log') => (Returns, log') | (Panics, log') => (Panics, log') end.

(** A [return] statement; a call of the application's code, which may panic. *)
Definition return_ {A} : handler A := fun log => (Returns, log).
Definition call_app {A} (o : outcome A) : handler (result error A) := fun log =>
  match o with Reply a => (Continues (Ok a), log) | Fail e => (Continues (Err e), log) | Panicked => (Panics, log) end.

Section handle.
Context `{UT : UnicodeTables} `{HM : Micro} {PM J F Req Resp PB MD : Type} `{HJ : JsonPath PM J F}.
(** Whether the connection takes a message, after the answers already tried. *)
Context (accepts : list attempt → Msg → bool).
(** [metadata.New]; the iteration order of the parameter map; whether a response is
    a [proto.Message]; [proto.Marshal]. *)
Context (metadata_New : gmap string string → MD) (order : gmap string string → list (string * string)).
Context (as_proto : Resp → option PB) (proto_Marshal : PB → result error (list N)).

Definition attempted (log : list attempt) (m : Msg) : attempt := if accepts log m then Published m else Unsent m.

(** [req.Respond]; its error is what the code discards. *)
Definition Respond (data : list N) : handler (option terror) := fun log =>
  let m := mkMsg None data in
  (Continues (if accepts log m then None else Some (mkTerror "NATS error when sending response" [])), log ++ [attempted log m]).

(** The message that carries an error, and [respondError] as an effect. *)
Definition error_message (e : error) : option Msg := (fun h => mkMsg (Some h) []) <$> respondError e.
Definition respond_error (e : error) : handler unit := fun log =>
  (Continues tt, log ++ [match error_message e with Some m => attempted log m | None => Refused end]).

(** The body of [HandleRequest]. *)
Definition handle_body (req : MicroRequest) (groupName : string) (info : NATSMicroHandlerInfo)
    (unmarshaler : outcome Req) (protoRequestMessage : outcome PM)
    (protoMessageToRequest : PM → Req → outcome Req) (serviceMethod : MD → Req → outcome Resp) : handler unit :=
  let ctx := metadata_New (ConvertToStringMap (rq_Headers req)) in
  innerRequest ← call_app unmarshaler;
  match innerRequest with
  | Err err => _ ← respond_error (StatusErr InvalidArgument (error_Error err)); return_
  | Ok innerRequest =>
  pm ← call_app protoRequestMessage;
  match pm with
  | Err err => _ ← respond_error (StatusErr Internal (error_Error err)); return_
  | Ok pm =>
  let fixedParameterizedToken := if decide (groupName = "") then ParameterizedToken info
                                 else groupName +:+ "." +:+ ParameterizedToken info in
  match InjectParameterizedRoutesIntoProtoMessage order (rq_Subject req) fixedParameterizedToken pm with
  | Err err => _ ← respond_error (StatusErr InvalidArgument (error_Error err)); return_
  | Ok rr =>
  innerRequest ← call_app (protoMessageToRequest rr innerRequest);
  match innerRequest with
  | Err err => _ ← respond_error (StatusErr InvalidArgument (error_Error err)); return_
  | Ok innerRequest =>
  resp ← call_app (serviceMethod ctx innerRequest);
  match resp with
  | Err err => _ ← respond_error err; return_
  | Ok resp =>
  match as_proto resp with
  | None => _ ← respond_error (StatusErr Internal "response is not a proto.Message"); return_
  | Some respProto =>
  match proto_Marshal respProto with
  | Err err => _ ← respond_error (StatusErr Internal (error_Error err)); return_
  | Ok respBytes => _ ← Respond respBytes; mret tt
  end end end end end end end.

(** [HandleRequest]: the body, and the deferred [recover].  The result is what it
    did to the request. *)
Definition HandleRequest req groupName info unmarshaler protoRequestMessage protoMessageToRequest serviceMethod : list attempt :=
  match handle_body req groupName info unmarshaler protoRequestMessage protoMessageToRequest serviceMethod [] with
  | (Panics, log) => (respond_error (StatusErr Internal "internal error") log).2
  | (_, log) => log
  end.

(** *** What it has to do: the method's outcome as one answer *)

(** The outcome of a request: the marshalled response, the status of the step that
    failed, or a panic. *)
Definition with_code {A} (c : code) (o : outcome A) : outcome A :=
  match o with Fail e => Fail (StatusErr c (error_Error e)) | _ => o end.
Definition and_then {A B} (o : outcome A) (k : A → outcome B) : outcome B :=
  match o with Reply a => k a | Fail e => Fail e | Panicked => Panicked end.
Definition request_outcome (req : MicroRequest) (groupName : string) (info : NATSMicroHandlerInfo)
    (unm : outcome Req) (prm : outcome PM) (pm2r : PM → Req → outcome Req) (svc : MD → Req → outcome Resp) : outcome (list N) :=
  and_then (with_code InvalidArgument unm) (fun inner =>
  and_then (with_code Internal prm) (fun pm =>
  and_then (with_code InvalidArgument (of_result (InjectParameterizedRoutesIntoProtoMessage order (rq_Subject req)
    (if decide (groupName = "") then ParameterizedToken info else groupName +:+ "." +:+ ParameterizedToken info) pm))) (fun rr =>
  and_then (with_code InvalidArgument (pm2r rr inner)) (fun inner =>
  and_then (svc (metadata_New (ConvertToStringMap (rq_Headers req))) inner) (fun resp =>
  match as_proto resp with
  | None => Fail (StatusErr Internal "response is not a proto.Message")
  | Some m => with_code Internal (of_result (proto_Marshal m))
  end))))).

(** The message an outcome is answered with. *)
Definition answer (o : outcome (list N)) : option Msg :=
  match o with
  | Reply data => Some (mkMsg None data)
  | Fail e => error_message e
  | Panicked => error_message (StatusErr Internal "internal error")
  end.

Lemma error_message_built `{HML : !MicroLaws} e : ∃ m, error_message e = Some m.
Proof.
  unfold error_message, respondError. destruct (status_Convert e) as [c m].
  assert (Hne : headerSafe (if decide (m = "") then code_String c else m) ≠ "").
  { intros He%headerSafe_empty. case_decide; [by destruct c|done]. }
  destruct (grpcToServiceCode_value c) as [Hc _].
  match goal with |- context [req_Error ?a ?b ?h] => destruct (req_Error_sends a b h Hc Hne) as (r & -> & _) end.
  by eexists.
Qed.

Lemma answer_built `{HML : !MicroLaws} o : ∃ m, answer o = Some m.
Proof. destruct o; simpl; [by eexists|apply error_message_built..]. Qed.

(** The handler against its outcome, before anything is assumed of [micro]. *)
Lemma HandleRequest_attempts req groupName info unm prm pm2r svc :
  HandleRequest req groupName info unm prm pm2r svc =
    [match answer (request_outcome req groupName info unm prm pm2r svc) with Some m => attempted [] m | None => Refused end].
Proof.
  unfold HandleRequest, request_outcome, handle_body, call_app, respond_error, Respond, return_, with_code, and_then, of_result.
  unfold mbind, handler_bind, mret, handler_ret.
  destruct unm as [inner|e|]; [|done|done]. destruct prm as [pm|e|]; [|done|done]. cbv zeta.
  destruct (InjectParameterizedRoutesIntoProtoMessage _ _ _ _) as [rr|e]; [|done].
  destruct (pm2r rr inner) as [inner'|e|]; [|done|done]. destruct (svc _ inner') as [resp|e|]; [|done|done].
  destruct (as_proto resp) as [m|]; [|done]. by destruct (proto_Marshal m).
Qed.

(** C34: Every request gets exactly one answer, the right one, whatever it contains
    and however unmarshalling, routing, the service method or marshalling end,
    panics included: the handler tries to send one message, never none and never
    two; [micro] does not refuse it; the message is the marshalled response, or
    carries the status of the step that failed - the service's own for an error of
    the service, [Internal] for a panic.  The one thing that leaves the caller
    waiting for its timeout is a connection that does not take the message, since
    the handler then tries nothing else. *)
Theorem HandleRequest_answers_once `{HML : !MicroLaws} req groupName info unm prm pm2r svc :
  ∃ m, answer (request_outcome req groupName info unm prm pm2r svc) = Some m ∧
    HandleRequest req groupName info unm prm pm2r svc = [if accepts [] m then Published m else Unsent m].
Proof.
  destruct (answer_built (request_outcome req groupName info unm prm pm2r svc)) as [m Hm].
  exists m. split; [done|]. by rewrite HandleRequest_attempts, Hm.
Qed.
End handle.

(** ** The client side ([nats/client/client.go]) *)
Definition XCorrelationIDName : string := "x-correlation-id".
Definition XSpanName : string := "x-span".
Definition XParentName : string := "x-parent".
Definition HeaderAuthorization : string := "Authorization".

(** Outgoing metadata of a context: lower-case keys. *)
Abbreviation OutMD := (gmap string (list string)).

(** [EnsureOutboundSpanTracing]; [ids] are the unique identifiers it generates. *)
Definition EnsureOutboundSpanTracing (ids : string * string) (md : option OutMD) : OutMD :=
  let md := default ∅ md in
  let md := if decide (default [] (md !! XCorrelationIDName) = []) then <[XCorrelationIDName := [ids.1]]> md else md in
  let xData := default [] (md !! XSpanName) in
  let md := if decide (xData = []) then md
            else delete XSpanName (<[XParentName := xData]> (delete XParentName md)) in
  <[XSpanName := [ids.2]]> md.

Section client.
Context {Ctx : Type} (FromOutgoingContext : Ctx → option OutMD).

(** [CallOption]: what runs before and after a request. *)
Record CallOption := mkCallOption { before : Ctx → string → option terror; after : Ctx → string → option terror }.

(** [NATSClient]: the connection ([RequestMsgWithContext] under a context that ends
    after the timeout), the token source (if any), the timeout in nanoseconds, the
    context modifiers and the call options. *)
Record NATSClient := mkClient {
  cl_conn : Ctx → Z → MicroRequest → result terror Msg;
  cl_tokenSource : option (result terror string);
  cl_timeout : Z;
  cl_modifiers : list (Ctx → string → result terror Ctx);
  cl_callOptions : list CallOption }.

(** [NewNATSClient] and its options. *)
Definition NATSClientOption : Type := NATSClient → result terror NATSClient.
Definition WithNATSClientConn conn : NATSClientOption := fun c =>
  Ok (mkClient conn (cl_tokenSource c) (cl_timeout c) (cl_modifiers c) (cl_callOptions c)).
Definition WithCallOptions opts : NATSClientOption := fun c =>
  Ok (mkClient (cl_conn c) (cl_tokenSource c) (cl_timeout c) (cl_modifiers c) opts).
Definition WithContextModifiers mods : NATSClientOption := fun c =>
  Ok (mkClient (cl_conn c) (cl_tokenSource c) (cl_timeout c) mods (cl_callOptions c)).
Definition WithTimeout timeout : NATSClientOption := fun c =>
  Ok (mkClient (cl_conn c) (cl_tokenSource c) timeout (cl_modifiers c) (cl_callOptions c)).
Definition WithTokenSource source : NATSClientOption := fun c =>
  Ok (mkClient (cl_conn c) (Some source) (cl_timeout c) (cl_modifiers c) (cl_callOptions c)).

Fixpoint apply_options (opts : list NATSClientOption) (c : NATSClient) : result terror NATSClient :=
  match opts with [] => Ok c | opt :: opts' => c ← opt c; apply_options opts' c end.
(** [nil_conn]: what a nil connection does. *)
Definition NewNATSClient nil_conn (opts : list NATSClientOption) : result terror NATSClient :=
  apply_options opts (mkClient nil_conn None 5000000000 [] []).

Fixpoint run_modifiers (mods : list (Ctx → string → result terror Ctx)) (ctx : Ctx) : result terror Ctx :=
  match mods with [] => Ok ctx | m :: mods' => ctx ← m ctx ""; run_modifiers mods' ctx end.

Definition createNATSRequestHeaders (s : NATSClient) (ctx : Ctx) : result terror Header :=
  ctx ← run_modifiers (cl_modifiers s) ctx;
  let headers : Header := default ∅ (FromOutgoingContext ctx) in
  match cl_tokenSource s with
  | None => Ok headers
  | Some t => token ← t; Ok (<[HeaderAuthorization := [AuthSchemeBearerPrefix +:+ token]]> headers)
  end.

Fixpoint run_options (opts : list (Ctx → string → option terror)) (ctx : Ctx) (subject : string) : result terror unit :=
  match opts with
  | [] => Ok tt
  | o :: opts' => match o ctx subject with Some e => Err e | None => run_options opts' ctx subject end
  end.

Definition RequestWithContext (s : NATSClient) (ctx : Ctx) (subject : string) (msg : list N) : result terror Msg :=
  headers ← createNATSRequestHeaders s ctx;
  _ ← run_options (before <$> cl_callOptions s) ctx subject;
  natsResponse ← cl_conn s ctx (cl_timeout s) (mkRequest subject headers msg);
  _ ← run_options (after <$> cl_callOptions s) ctx subject;
  Ok natsResponse.

(** [HandleNATSClientRequest]. *)
Context `{UT : UnicodeTables} {PM J F Resp : Type} `{HJ : JsonPath PM J F} (format_float : F → string).
Context (proto_Marshal : PM → result error (list N)) (proto_Unmarshal : list N → result error Resp).

Definition HandleNATSClientRequest (client : NATSClient) (ctx : Ctx) (subject : string) (request : PM) : result error Resp :=
  match proto_Marshal request with
  | Err e => Err (PlainErr ("failed to marshal request: " +:+ error_Error e))
  | Ok msg =>
    subject ← ReplaceTokens format_float subject request;
    match RequestWithContext client ctx subject msg with
    | Err e => Err (statusFromTransportError e)
    | Ok natsResponse =>
      match statusFromNATSResponse (Some natsResponse) with
      | Some e => Err e
      | None =>
        match proto_Unmarshal (m_Data natsResponse) with
        | Err e => Err (PlainErr ("failed to unmarshal response: " +:+ error_Error e))
        | Ok response => Ok response
        end
      end
    end
  end.

(** [SendNATSRequestInterceptor]; [as_pm] says whether the request and the reply are proto messages. *)
Definition SendNATSRequestInterceptor {R} (client : NATSClient) (methodToSubject : string → option string)
    (as_pm : R → option PM) (reply_is_pm : bool) (ctx : Ctx) (method : string) (req : R) : result error Resp :=
  match methodToSubject method with
  | None => Err (StatusErr Internal "methodToSubject failed")
  | Some subject =>
    match as_pm req with
    | None => Err (StatusErr Internal "req is not a protoreflect.ProtoMessage")
    | Some reqProto =>
      if reply_is_pm then HandleNATSClientRequest client ctx subject reqProto
      else Err (StatusErr Internal "reply is not a protoreflect.ProtoMessage")
    end
  end.
End client.
Arguments NATSClient : clear implicits.
Arguments CallOption : clear implicits.

(** A client that has both a token source and authorization metadata sends two
    authorization headers, which differ only in case. *)
Example two_authorization_headers :
  createNATSRequestHeaders (fun md => Some md)
    (mkClient (fun _ _ _ => Err (mkTerror "" [])) (Some (Ok "service")) 0 [] [])
    {["authorization" := ["Bearer user"]]} =
  Ok {["authorization" := ["Bearer user"]; "Authorization" := ["Bearer service"]]}.
Proof. reflexivity. Qed.

(** A client made of a list of options has what the last option of each kind set. *)
Example client_defaults {Ctx} nil_conn conn source :
  NewNATSClient nil_conn [WithTimeout 7; WithNATSClientConn conn; WithTokenSource source] =
    Ok (mkClient (Ctx := Ctx) conn (Some source) 7 [] []).
Proof. reflexivity. Qed.

(** Tracing: the caller's span becomes the parent, and there is always a
    correlation id and a fresh span. *)
Lemma EnsureOutboundSpanTracing_spec ids md :
  let md' := EnsureOutboundSpanTracing ids md in
  md' !! XSpanName = Some [ids.2] ∧
  (∃ c, md' !! XCorrelationIDName = Some c ∧ c ≠ []) ∧
  (∀ c cs, default ∅ md !! XCorrelationIDName = Some (c :: cs) → md' !! XCorrelationIDName = Some (c :: cs)) ∧
  (∀ x xs, default ∅ md !! XSpanName = Some (x :: xs) → md' !! XParentName = Some (x :: xs)).
Proof.
  unfold EnsureOutboundSpanTracing. set (m0 := default ∅ md).
  set (m1 := if decide (default [] (m0 !! XCorrelationIDName) = []) then <[XCorrelationIDName := [ids.1]]> m0 else m0).
  assert (Hc : ∃ c, m1 !! XCorrelationIDName = Some c ∧ c ≠ [] ∧ (∀ x xs, m0 !! XCorrelationIDName = Some (x :: xs) → c = x :: xs)).
  { unfold m1. case_decide as Hd.
    - exists [ids.1]. rewrite lookup_insert_eq. split_and!; [done|done|]. intros x xs Hx. by rewrite Hx in Hd.
    - destruct (m0 !! XCorrelationIDName) as [c|]; [|done]. exists c. split_and!; [done|done|]. by intros x xs [= ->]. }
  assert (Hs : m1 !! XSpanName = m0 !! XSpanName) by (unfold m1; case_decide; [by rewrite lookup_insert_ne|done]).
  destruct Hc as (c & Hc & Hne & Hkeep). cbv zeta. split_and!.
  - by rewrite lookup_insert_eq.
  - exists c. split; [|done]. case_decide; by simplify_map_eq.
  - intros x xs Hx. rewrite <- (Hkeep x xs Hx). case_decide; by simplify_map_eq.
  - intros x xs Hx. rewrite Hs, Hx. cbn [default id]. rewrite decide_False by done. by simplify_map_eq.
Qed.

(** ** Client and service together *)
Section rpc.
Context `{UT : UnicodeTables} `{HML : MicroLaws} `{HW : WireLaws}.
Context {Ctx PM J F Resp MD : Type} `{HJ : JsonPath PM J F} (format_float : F → string).
Context (FromOutgoingContext : Ctx → option OutMD) (metadata_New : gmap string string → MD)
  (order : gmap string string → list (string * string)).
Context (marshal : PM → result error (list N)) (unmarshal : list N → result error PM)
  (marshal_resp : Resp → result error (list N)) (unmarshal_resp : list N → result error Resp).
(** What is relied on: a message that [protojson] prints is read back, and storing
    the value a field has changes nothing. *)
Context (Hset : ∀ j k (v : jval F), jsonpath_Get j k = Ok v → jsonpath_Set j k v = j)
  (Hjson : ∀ m j, to_payload m = Ok j → from_payload j m = Ok m)
  (Horder : ∀ p, order p ≡ₚ map_to_list p).

(** Whether the service's connection takes a message. *)
Context (accepts : list attempt → Msg → bool).

(** The generated handler of a method: it unmarshals the request's data into both messages. *)
Definition serve (groupName : string) (info : NATSMicroHandlerInfo) (svc : MD → PM → outcome Resp) (req : MicroRequest) : list attempt :=
  HandleRequest accepts metadata_New order Some marshal_resp req groupName info
    (of_result (unmarshal (rq_Data req))) (of_result (unmarshal (rq_Data req)))
    (fun pm _ => of_result (b ← marshal pm; unmarshal b)) svc.

(** A connection to that service: the first message published is the reply, and
    without one the caller's deadline ends the wait. *)
Definition published (a : attempt) : option Msg := match a with Published m => Some m | _ => None end.
Definition no_reply : terror := mkTerror "context deadline exceeded" [CtxDeadlineExceeded].
Definition deliver (groupName : string) (info : NATSMicroHandlerInfo) (svc : MD → PM → outcome Resp) (req : MicroRequest) : result terror Msg :=
  match omap published (serve groupName info svc (mkRequest (rq_Subject req) (wire (rq_Headers req)) (rq_Data req))) with
  | m :: _ => Ok (mkMsg (wire <$> m_Header m) (m_Data m))
  | [] => Err no_reply
  end.

Lemma inject_same kvs payload :
  (∀ k v, (k, v) ∈ kvs → jsonpath_Get payload k = Ok (JString v : jval F)) → inject_params kvs payload = Ok payload.
Proof using Hset.
  induction kvs as [|[k v] kvs IH]; intros Hk; [done|]. cbn [inject_params]. rewrite (Hk k v) by left. cbn [mbind result_bind].
  rewrite Hset by (apply Hk; left). apply IH. intros k' v' Hin. apply Hk. by right.
Qed.

(** What the caller of a method sees of the service's outcome. *)
Definition seen_by_caller (o : outcome Resp) : result error Resp :=
  match o with
  | Reply r => Ok r
  | Fail e => let '(c, m) := status_Convert e in Err (StatusErr c (headerSafe (if decide (m = "") then code_String c else m)))
  | Panicked => Err (StatusErr Internal "internal error")
  end.

Definition status_travels (o : outcome Resp) : Prop :=
  match o with
  | Fail e => let '(c, m) := status_Convert e in c ≠ OK ∧ trimmed (headerSafe (if decide (m = "") then code_String c else m)) = true
  | _ => True
  end.

(** The outcome in bytes, as [HandleRequest] answers it. *)
Definition encoded (o : outcome Resp) : outcome (list N) := and_then o (fun r => with_code Internal (of_result (marshal_resp r))).

(** An answer, read by the client. *)
Lemma error_message_read e m :
  (let '(c, msg) := status_Convert e in c ≠ OK ∧ trimmed (headerSafe (if decide (msg = "") then code_String c else msg)) = true) →
  error_message e = Some m →
  statusFromNATSResponse (Some (mkMsg (wire <$> m_Header m) (m_Data m))) =
    let '(c, msg) := status_Convert e in Some (StatusErr c (headerSafe (if decide (msg = "") then code_String c else msg))).
Proof using HML HW.
  pose proof (status_read e) as Hs. unfold error_message. destruct (status_Convert e) as [c msg]. intros [Hc Ht] Hm.
  destruct (Hs Hc Ht) as (h & Hr & Hread). rewrite Hr in Hm. injection Hm as <-. apply Hread.
Qed.

Lemma answer_read o m :
  (∀ r, o = Reply r → ∃ b, marshal_resp r = Ok b ∧ unmarshal_resp b = Ok r) → status_travels o → answer (encoded o) = Some m →
  match statusFromNATSResponse (Some (mkMsg (wire <$> m_Header m) (m_Data m))) with
  | Some e => Err e
  | None => match unmarshal_resp (m_Data m) with
            | Err e => Err (PlainErr ("failed to unmarshal response: " +:+ error_Error e))
            | Ok response => Ok response
            end
  end = seen_by_caller o.
Proof using HML HW.
  intros Hresp Htrav Hm. destruct o as [r|e|].
  - destruct (Hresp r eq_refl) as (d & Hd & Hu). unfold encoded, and_then in Hm. rewrite Hd in Hm. injection Hm as <-. simpl.
    by rewrite Hu.
  - simpl in Hm. rewrite (error_message_read e m Htrav Hm). simpl. by destruct (status_Convert e).
  - simpl in Hm. by rewrite (error_message_read (StatusErr Internal "internal error") m) by done.
Qed.

(** What the service makes of a request the client built. *)
Lemma serve_outcome segs groupName info svc request payload val headers b :
  Forall seg_ok segs → render segs = (if decide (groupName = "") then ParameterizedToken info else groupName +:+ "." +:+ ParameterizedToken info) →
  to_payload request = Ok payload →
  (∀ n, Param n ∈ segs → value_ok (val n) ∧ jsonpath_Get payload n = Ok (JString (val n))) →
  marshal request = Ok b → unmarshal b = Ok request →
  serve groupName info svc (mkRequest (subject_of val segs) headers b) =
    [match answer (encoded (svc (metadata_New (ConvertToStringMap headers)) request)) with
     | Some m => attempted accepts [] m
     | None => Refused
     end].
Proof using format_float Hset Hjson Horder.
  intros Hok Htok Hpay Hval Hmb Hub.
  destruct (subject_facts format_float val segs request payload Hok Hpay) as (_ & params & Hext & Hlk).
  { intros n Hn. destruct (Hval n Hn). split; [done|]. by eexists. }
  assert (Hinj : InjectParameterizedRoutesIntoProtoMessage order (subject_of val segs) (render segs) request = Ok request).
  { unfold InjectParameterizedRoutesIntoProtoMessage. rewrite Hpay, Hext. cbn [mbind result_bind].
    rewrite inject_same; [by apply Hjson|]. intros k v Hkv. rewrite Horder, elem_of_map_to_list, Hlk in Hkv.
    case_decide as Hp; [|done]. injection Hkv as <-. by apply Hval. }
  unfold serve. rewrite HandleRequest_attempts. unfold request_outcome. cbn [rq_Data rq_Subject rq_Headers]. rewrite Hub.
  cbn [of_result with_code and_then]. rewrite <- Htok, Hinj. cbn [of_result with_code and_then]. rewrite Hmb.
  cbn [mbind result_bind]. rewrite Hub. done.
Qed.

(** C33: A method called over NATS behaves as if called directly, within these
    limits: the template's static segments are single words ([\w+]; a dashed
    segment never matches, [Nats.dashed_segment_never_matches]); its parameters are
    string fields whose values are printable ASCII subject tokens without [$], [{]
    and [}] ([Nats.values_can_join_to_a_parameter] shows why); request and response
    survive [proto] and the request survives [protojson]; the client has no call
    options; the message of the service's status does not begin or end with a
    blank.  Then the client gets the service's response, or an error with the code
    of the service's own status and its message (on one line; the name of the code
    if empty), or [Internal] when the service panicked; the service saw the request
    as it was sent, with the first value of each of the caller's headers.  When the
    service's connection does not take the answer, the client gets
    [DeadlineExceeded]. *)
Theorem rpc_over_nats segs groupName info svc client ctx request payload val headers :
  Forall seg_ok segs → render segs = (if decide (groupName = "") then ParameterizedToken info else groupName +:+ "." +:+ ParameterizedToken info) →
  to_payload request = Ok payload →
  (∀ n, Param n ∈ segs → value_ok (val n) ∧ jsonpath_Get payload n = Ok (JString (val n))) →
  cl_callOptions client = [] → cl_conn client = (fun _ _ => deliver groupName info svc) →
  createNATSRequestHeaders FromOutgoingContext client ctx = Ok headers →
  (∃ b, marshal request = Ok b ∧ unmarshal b = Ok request) →
  (∀ r, svc (metadata_New (ConvertToStringMap (wire headers))) request = Reply r →
     ∃ b, marshal_resp r = Ok b ∧ unmarshal_resp b = Ok r) →
  status_travels (svc (metadata_New (ConvertToStringMap (wire headers))) request) →
  ∃ m, answer (encoded (svc (metadata_New (ConvertToStringMap (wire headers))) request)) = Some m ∧
  HandleNATSClientRequest FromOutgoingContext format_float marshal unmarshal_resp client ctx (render segs) request =
    (if accepts [] m then seen_by_caller (svc (metadata_New (ConvertToStringMap (wire headers))) request)
     else Err (StatusErr DeadlineExceeded "nats request failed: context deadline exceeded")).
Proof using HML HW Hset Hjson Horder.
  intros Hok Htok Hpay Hval Hopts Hsend Hhdr (b & Hmb & Hub) Hresp Htrav.
  destruct (subject_facts format_float val segs request payload Hok Hpay) as (Hrep & _).
  { intros n Hn. destruct (Hval n Hn). split; [done|]. by eexists. }
  set (o := svc (metadata_New (ConvertToStringMap (wire headers))) request) in *.
  destruct (answer_built (encoded o)) as [m Hm]. exists m. split; [done|].
  unfold HandleNATSClientRequest. rewrite Hmb, Hrep. cbn [mbind result_bind].
  unfold RequestWithContext. rewrite Hhdr, Hopts, Hsend. cbn [mbind result_bind run_options fmap list_fmap].
  unfold deliver. cbn [rq_Subject rq_Headers rq_Data].
  rewrite (serve_outcome segs groupName info svc request payload val (wire headers) b) by done. fold o. rewrite Hm.
  unfold attempted. destruct (accepts [] m); [|done]. exact (answer_read o m Hresp Htrav Hm).
Qed.
End rpc.

(** ** The services of a process ([NATSMicroServicesContainer]) *)
Section container.
Context {S : Type} (Stop : S → option error).

Record NATSMicroServicesContainer := mkContainer { natsMicroServices : list S; registered : bool }.
(** The world: the services that were started, those asked to stop, and how often
    the connection was closed. *)
Record broker := mkBroker { started : list S; stopped : list S; closed : nat }.

(** [RegisterFluffyCoreNATSHandler] of each registration: an error, or the service
    it started, if it has handlers. *)
Fixpoint register_loop (regs : list (result error (option S))) (ms : list S) (b : broker) : result error unit * list S * broker :=
  match regs with
  | [] => (Ok tt, ms, b)
  | Err e :: _ => (Err e, ms, b)
  | Ok None :: regs' => register_loop regs' ms b
  | Ok (Some m) :: regs' => register_loop regs' (ms ++ [m]) (mkBroker (started b ++ [m]) (stopped b) (closed b))
  end.

Definition Register (regs : list (result error (option S))) (s : NATSMicroServicesContainer) (b : broker) : result error unit * NATSMicroServicesContainer * broker :=
  if registered s then (Ok tt, s, b)
  else let '(r, ms, b') := register_loop regs (natsMicroServices s) b in
    (r, mkContainer ms (match r with Ok _ => true | Err _ => false end), b').

(** [errors.Join]. *)
Definition errors_Join (errs : list error) : error := PlainErr (strings_Join (error_Error <$> errs) (String "010" "")).

Definition stopNATSMicroServices (ms : list S) : option error :=
  match omap Stop ms with [] => None | errs => Some (errors_Join errs) end.

Definition Shutdown (s : NATSMicroServicesContainer) (b : broker) : option error * NATSMicroServicesContainer * broker :=
  if registered s then
    (stopNATSMicroServices (natsMicroServices s), s,
     mkBroker (started b) (stopped b ++ natsMicroServices s) (Datatypes.S (closed b)))
  else (None, s, b).

(** Calls of the container, in the order its mutex gives them. *)
Inductive call := CRegister (regs : list (result error (option S))) | CShutdown.
Definition step (c : call) (sb : NATSMicroServicesContainer * broker) : NATSMicroServicesContainer * broker :=
  match c with
  | CRegister regs => let '(_, s, b) := Register regs sb.1 sb.2 in (s, b)
  | CShutdown => let '(_, s, b) := Shutdown sb.1 sb.2 in (s, b)
  end.
Definition run (cs : list call) : NATSMicroServicesContainer * broker :=
  foldl (fun sb c => step c sb) (mkContainer [] false, mkBroker [] [] 0) cs.

Lemma register_loop_tracks regs ms b :
  let '(_, ms', b') := register_loop regs ms b in
  ∃ new, ms' = ms ++ new ∧ started b' = started b ++ new ∧ stopped b' = stopped b ∧ closed b' = closed b.
Proof.
  revert ms b. induction regs as [|[[m|]|e] regs IH]; intros ms b; cbn [register_loop].
  - exists []. by rewrite !app_nil_r.
  - specialize (IH (ms ++ [m]) (mkBroker (started b ++ [m]) (stopped b) (closed b))).
    destruct (register_loop _ _ _) as [[r ms'] b']. destruct IH as (new & -> & Hs & ? & ?). exists (m :: new).
    simpl in *. rewrite Hs, <- !app_assoc. done.
  - apply IH.
  - exists []. by rewrite !app_nil_r.
Qed.

(** Everything a process starts is in its container, whatever is called; and a
    [Shutdown] of a registered container asks every one of them to stop. *)
Lemma container_tracks cs :
  let '(s, b) := run cs in
  natsMicroServices s = started b ∧ (registered s = true → ∀ m, m ∈ started b → m ∈ stopped (step CShutdown (s, b)).2).
Proof.
  assert (Hinv : natsMicroServices (run cs).1 = started (run cs).2).
  { unfold run. assert (Hgen : ∀ sb, natsMicroServices sb.1 = started sb.2 →
      natsMicroServices (foldl (fun sb c => step c sb) sb cs).1 = started (foldl (fun sb c => step c sb) sb cs).2).
    { induction cs as [|[regs|] cs IH]; intros [s b] Hsb; [done| |]; cbn [foldl]; apply IH.
      - unfold step, Register. cbn [fst snd] in *. destruct (registered s); [done|].
        pose proof (register_loop_tracks regs (natsMicroServices s) b) as Ht.
        destruct (register_loop _ _ _) as [[r ms'] b']. destruct Ht as (new & -> & Hs & _). simpl. by rewrite Hs, Hsb.
      - unfold step, Shutdown. cbn [fst snd] in *. by destruct (registered s). }
    by apply Hgen. }
  destruct (run cs) as [s b]. cbn [fst snd] in Hinv. split; [done|]. intros Hr m Hm. unfold step, Shutdown.
  cbn [fst snd]. rewrite Hr. simpl. apply elem_of_app. right. by rewrite Hinv.
Qed.
End container.

(** A [Register] that fails half way leaves services running which [Shutdown] does
    not stop, and a second attempt starts them again. *)
Example failed_register_leaks :
  run (fun _ => None) [CRegister [Ok (Some "greeter"); Err (PlainErr "no connection")]; CShutdown] =
    (mkContainer ["greeter"] false, mkBroker ["greeter"] [] 0) ∧
  started (run (fun _ => None) [CRegister [Ok (Some "greeter"); Err (PlainErr "no connection")];
                CRegister [Ok (Some "greeter"); Ok (Some "users")]]).2 = ["greeter"; "greeter"; "users"].
Proof. split; reflexivity. Qed.

(** ** A concrete service: messages of one string field [id] *)
Section examples.
#[local] Existing Instance latin1_tables.
#[local] Existing Instance micro_map.
#[local] Existing Instance micro_map_laws.
#[local] Existing Instance wire_id.
#[local] Existing Instance wire_id_laws.

Definition id_field : JsonPath string string Z := {|
  to_payload m := Ok m;
  from_payload j _ := Ok j;
  jsonpath_Get j k := if decide (k = "id") then Ok (JString j) else Err (PlainErr ("unknown key " +:+ k));
  jsonpath_Set j k v := match v with JString s => if decide (k = "id") then s else j | _ => j end |}.
#[local] Existing Instance id_field.

Definition text_marshal (m : string) : result error (list N) := Ok (bytes_of_string m).
Definition text_unmarshal (b : list N) : result error string := Ok (string_of_bytes b).

Lemma text_roundtrip m : ∃ b, text_marshal m = Ok b ∧ text_unmarshal b = Ok m.
Proof. eexists. split; [done|]. unfold text_unmarshal. by rewrite string_of_bytes_of_string. Qed.

(** A greeter that knows everybody but [eve] and panics for [mallory]. *)
Definition greeter (_ : gmap string string) (m : string) : outcome string :=
  if decide (m = "eve") then Fail (StatusErr NotFound "no such user")
  else if decide (m = "mallory") then Panicked else Reply ("hello " +:+ m).
Definition greeter_info : NATSMicroHandlerInfo := mkHandlerInfo "users.*.hello" "users.${id}.hello".
(** A connection of a server that takes at most 16 bytes of data. *)
Definition max_payload (_ : list attempt) (m : Msg) : bool := length (m_Data m) <=? 16.
Definition greeter_client : NATSClient unit :=
  mkClient (fun _ _ => deliver (fun m => m) map_to_list text_marshal text_unmarshal text_marshal max_payload "fluffy" greeter_info greeter)
    (Some (Ok "t0ken")) 5000000000 [] [].
Definition greet (who : string) : result error string :=
  HandleNATSClientRequest (fun _ : unit => None) (fun z : Z => pretty z) text_marshal text_unmarshal greeter_client tt
    "fluffy.users.${id}.hello" who.

Lemma rpc_over_nats_witness :
  greet "alice" = Ok "hello alice" ∧
  greet "eve" = Err (StatusErr NotFound "no such user") ∧
  greet "mallory" = Err (StatusErr Internal "internal error") ∧
  greet "bartholomew" = Err (StatusErr DeadlineExceeded "nats request failed: context deadline exceeded").
Proof.
  assert (Hcall : ∀ who : string, who ∈ ["alice"; "eve"; "mallory"; "bartholomew"] →
    ∃ m, answer (encoded text_marshal (greeter {["Authorization" := "Bearer t0ken"]} who)) = Some m ∧
      greet who = if max_payload [] m then seen_by_caller (greeter {["Authorization" := "Bearer t0ken"]} who)
                  else Err (StatusErr DeadlineExceeded "nats request failed: context deadline exceeded")).
  { intros who Hwho.
    refine (rpc_over_nats (fun z : Z => pretty z) (fun _ => None) (fun m => m) map_to_list text_marshal text_unmarshal
      text_marshal text_unmarshal _ _ _ max_payload [Static "fluffy"; Static "users"; Param "id"; Static "hello"] "fluffy" greeter_info
      greeter greeter_client tt who who (fun _ => who) {["Authorization" := ["Bearer t0ken"]]} _ _ _ _ _ _ _ _ _ _).
    - intros j k v. unfold jsonpath_Get, jsonpath_Set, id_field. case_decide; [|done]. by intros [= <-].
    - intros m j. by intros [= ->].
    - done.
    - by repeat constructor.
    - reflexivity.
    - reflexivity.
    - intros n Hn. rewrite !elem_of_cons, elem_of_nil in Hn. assert (n = "id") as -> by naive_solver.
      rewrite !elem_of_cons, elem_of_nil in Hwho. by destruct Hwho as [->|[->|[->|[->|[]]]]].
    - reflexivity.
    - reflexivity.
    - reflexivity.
    - apply text_roundtrip.
    - intros r _. apply text_roundtrip.
    - rewrite !elem_of_cons, elem_of_nil in Hwho. by destruct Hwho as [->|[->|[->|[->|[]]]]]. }
  split_and!; [destruct (Hcall "alice") as (m & Hm & ->)|destruct (Hcall "eve") as (m & Hm & ->)
    |destruct (Hcall "mallory") as (m & Hm & ->)|destruct (Hcall "bartholomew") as (m & Hm & ->)];
    try (rewrite !elem_of_cons; tauto); vm_compute in Hm; injection Hm as <-; reflexivity.
Defined.

(** A handler run on a request for [who]. *)
Definition handle (who : string) : list attempt :=
  HandleRequest (PM := string) (F := Z) max_payload (fun m => m) map_to_list Some text_marshal
    (mkRequest ("fluffy.users." +:+ who +:+ ".hello") ∅ (bytes_of_string who)) "fluffy" greeter_info
    (Reply who) (Reply who) (fun pm _ => Reply pm) greeter.

Lemma HandleRequest_answers_once_witness :
  handle "alice" = [Published (mkMsg None (bytes_of_string "hello alice"))] ∧
  handle "bartholomew" = [Unsent (mkMsg None (bytes_of_string "hello bartholomew"))] ∧
  ∃ h, respondError (StatusErr NotFound "no such user") = Some h ∧ handle "eve" = [Published (mkMsg (Some h) [])].
Proof.
  assert (Hrun : ∀ who, ∃ m, answer (request_outcome (fun m => m) map_to_list Some text_marshal
      (mkRequest ("fluffy.users." +:+ who +:+ ".hello") ∅ (bytes_of_string who)) "fluffy" greeter_info
      (Reply who) (Reply who) (fun pm _ => Reply pm) greeter) = Some m ∧
    handle who = [if max_payload [] m then Published m else Unsent m]).
  { intros who. apply (HandleRequest_answers_once (PM := string) (F := Z) max_payload (fun m => m) map_to_list Some text_marshal
      (mkRequest ("fluffy.users." +:+ who +:+ ".hello") ∅ (bytes_of_string who)) "fluffy" greeter_info
      (Reply who) (Reply who) (fun pm _ => Reply pm) greeter). }
  split_and!.
  - destruct (Hrun "alice") as (m & Hm & ->). vm_compute in Hm. injection Hm as <-. reflexivity.
  - destruct (Hrun "bartholomew") as (m & Hm & ->). vm_compute in Hm. injection Hm as <-. reflexivity.
  - eexists. split; [reflexivity|]. destruct (Hrun "eve") as (m & Hm & ->). vm_compute in Hm. injection Hm as <-. reflexivity.
Defined.
End examples.
