(* ===== verification/Di.v ===== *)
(** * The dependency injection container: registrations and call sites

    The container that builds every service ([fluffy-dozm-di]): [descriptor.go],
    [builder.go] and the call site factory of [callsite.go].  A call site is a node of
    the graph the resolver walks; call sites are shared and mutable, so they live in
    a store and refer to each other by position.

    Code of the application (constructors and factories) is a program that may
    allocate objects, ask a container for a service, return or panic.  Mutexes are
    explicit: one goroutine that locks a mutex it holds is [Stuck] for ever. *)
From stdpp Require Import gmap strings.
From S2P Require Import Prelude GoText Claims Request.
From stdpp Require Import options.

(** ** Types ([reflect.Type]) *)
Inductive kind := Struct | Interface | Func | OtherKind.
Inductive rtype := Named (k : kind) (PkgPath Name : string) | Ptr (elem : rtype) | SliceOf (elem : rtype).

#[global] Instance kind_eq_dec : EqDecision kind.
Proof. solve_decision. Defined.
#[global] Instance rtype_eq_dec : EqDecision rtype.
Proof. solve_decision. Defined.

Section countable.
Definition kind_code (k : kind) : nat := match k with Struct => 0 | Interface => 1 | Func => 2 | OtherKind => 3 end.
Definition kind_decode (n : nat) : kind := match n with 0 => Struct | 1 => Interface | 2 => Func | _ => OtherKind end.
Fixpoint rtype_encode (t : rtype) : gen_tree (nat + string) :=
  match t with
  | Named k p n => GenNode 0 [GenLeaf (inl (kind_code k)); GenLeaf (inr p); GenLeaf (inr n)]
  | Ptr e => GenNode 1 [rtype_encode e]
  | SliceOf e => GenNode 2 [rtype_encode e]
  end.
Fixpoint rtype_decode (g : gen_tree (nat + string)) : rtype :=
  match g with
  | GenNode 0 [GenLeaf (inl k); GenLeaf (inr p); GenLeaf (inr n)] => Named (kind_decode k) p n
  | GenNode 1 [g'] => Ptr (rtype_decode g')
  | GenNode 2 [g'] => SliceOf (rtype_decode g')
  | _ => Named OtherKind "" ""
  end.
#[global] Program Instance rtype_countable : Countable rtype := inj_countable' rtype_encode rtype_decode _.
Next Obligation. intros t. induction t as [k p n|e IH|e IH]; simpl; [by destruct k|by rewrite IH|by rewrite IH]. Qed.
End countable.

Definition di_pkg : string := "github.com/fluffy-bunny/fluffy-dozm-di".
Definition ContainerType : rtype := Named Interface di_pkg "Container".
Definition ScopeFactoryType : rtype := Named Interface di_pkg "ScopeFactory".
Definition IsServiceType : rtype := Named Interface di_pkg "IsService".

(** The types of the program: what is assignable to what. *)
Class TypeSystem := { AssignableTo : rtype → rtype → bool; Implements : rtype → rtype → bool }.

(** ** Values, errors and programs *)
Inductive value :=
| VObj (t : rtype) (id : nat)                    (* an object, by its address *)
| VSlice (elem : rtype) (vs : list value)
| VScope (id : nat)                              (* a scope; the root scope is 0 *)
| VCallSiteFactory
| VNil.

Definition reflect_TypeOf (v : value) : option rtype :=
  match v with
  | VObj t _ => Some t
  | VSlice e _ => Some (SliceOf e)
  | VScope _ => Some (Ptr (Named Struct di_pkg "ContainerEngineScope"))
  | VCallSiteFactory => Some (Ptr (Named Struct di_pkg "CallSiteFactory"))
  | VNil => None
  end.

(** The errors of [errorx], those made with [fmt.Errorf], and the application's. *)
Inductive derror :=
| CircularDependencyError (t : rtype)
| ServiceNotFound (t : rtype)
| InvalidDescriptor (t : rtype)
| TypeIncompatibilityError (to : rtype) (from : option rtype)
| ObjectDisposedError
| ScopedServiceFromRootError (t : rtype) (scoped : rtype)
| AggregateError (errs : list derror)
| ContainerDisposed
| ScopeDisposed
| CannotConsumeScoped (scoped singleton : rtype)
| DiError (msg : string)
| AppError (e : error).

(** What the application's code does when the container runs it. *)
Inductive prog :=
| Return (v : value) (err : option derror)
| Throw (e : derror)
| New (t : rtype) (k : value → prog)
| GetFrom (c : value) (t : rtype) (k : value + derror → prog)
| GetKeyFrom (c : value) (t : rtype) (key : string) (k : value + derror → prog).

(** ** Descriptors ([descriptor.go]) *)
Inductive Lifetime := Lifetime_Singleton | Lifetime_Scoped | Lifetime_Transient.
#[global] Instance Lifetime_eq_dec : EqDecision Lifetime.
Proof. solve_decision. Defined.

Record ConstructorInfo := mkCtor { In : list rtype; Out : list rtype; Call : list value → prog }.

(** A [*Descriptor]; [d_ptr] is its address. *)
Record Descriptor := mkDescriptor {
  d_ptr : nat;
  ServiceType : rtype;
  d_Lifetime : Lifetime;
  d_Ctor : option ConstructorInfo;
  d_Instance : option value;
  d_Factory : option (value → prog);
  ImplementedInterfaceTypes : list rtype;
  LookupKeys : list string }.

Definition set_LookupKeys (ks : list string) (d : Descriptor) : Descriptor :=
  mkDescriptor (d_ptr d) (ServiceType d) (d_Lifetime d) (d_Ctor d) (d_Instance d) (d_Factory d) (ImplementedInterfaceTypes d) ks.

Definition Elem_of_ptr (t : rtype) : rtype := match t with Ptr e => e | _ => t end.

Section descriptors.
Context `{TS : TypeSystem}.

Fixpoint check_interfaces (serviceType : rtype) (ifaces : list rtype) : result derror unit :=
  match ifaces with
  | [] => Ok tt
  | t :: ifaces' =>
      match Elem_of_ptr t with
      | Named Interface _ _ =>
          if Implements serviceType (Elem_of_ptr t) then check_interfaces serviceType ifaces'
          else Err (DiError "the serviceType must implement the interface")
      | _ => Err (DiError "implementedInterfaceTypes must be interfaces. i.e. reflect.TypeOf((*ITime)(nil))")
      end
  end.

(** Errors here are panics. *)
Definition validateServiceType (serviceType : rtype) (ifaces : list rtype) : result derror unit :=
  match ifaces with
  | [] => Ok tt
  | _ =>
      match serviceType with
      | Ptr (Named Struct _ _) => check_interfaces serviceType ifaces
      | _ => Err (DiError "if implementedInterfaceTypes is passed then the serviceType MUST be a struct ptr.  i.e. *MyStruct")
      end
  end.

(** [instance] is nil only as an interface; its type is then a nil dereference. *)
Definition NewInstanceDescriptor (ptr : nat) (serviceType : rtype) (instance : value) (ifaces : list rtype) : result derror Descriptor :=
  match reflect_TypeOf instance with
  | None => Err (DiError "invalid memory address or nil pointer dereference")
  | Some t =>
    if AssignableTo t serviceType then
      _ ← validateServiceType serviceType ifaces;
      Ok (mkDescriptor ptr serviceType Lifetime_Singleton None (Some instance) None (Elem_of_ptr <$> ifaces) [])
    else Err (DiError "the instance can not assignable to type")
  end.

Definition error_type : rtype := Named Interface "" "error".

Definition checkConstructor (ctor : ConstructorInfo) (serviceType : rtype) : option derror :=
  let bad := Some (DiError "the constructor must returns a service and an optional error") in
  match Out ctor with
  | [o] => if AssignableTo o serviceType then None else bad
  | [o; e] => if AssignableTo o serviceType && AssignableTo e error_type then None else bad
  | _ => bad
  end.

Definition NewConstructorDescriptor (ptr : nat) (serviceType : rtype) (lifetime : Lifetime) (ctor : ConstructorInfo)
    (ifaces : list rtype) : result derror Descriptor :=
  match checkConstructor ctor serviceType with
  | Some e => Err e
  | None =>
    _ ← validateServiceType serviceType ifaces;
    Ok (mkDescriptor ptr serviceType lifetime (Some ctor) None None (Elem_of_ptr <$> ifaces) [])
  end.

Definition NewFactoryDescriptor (ptr : nat) (serviceType : rtype) (lifetime : Lifetime) (factory : value → prog) : Descriptor :=
  mkDescriptor ptr serviceType lifetime None None (Some factory) [] [].
End descriptors.

Definition type_name (t : rtype) : string := match t with Named _ _ n => n | _ => "" end.
Definition type_pkg (t : rtype) : string := match t with Named _ p _ => p | _ => "" end.
Definition hashTypeAndString (t : rtype) (s : string) : string :=
  type_pkg (Elem_of_ptr t) +:+ "/" +:+ type_name (Elem_of_ptr t) +:+ "-" +:+ s.

(** The keys that [Add...WithLookupKeys] gives a descriptor. *)
Definition with_lookup_keys (lookupKeys : list string) (ifaces : list rtype) (d : Descriptor) : Descriptor :=
  set_LookupKeys (lookupKeys ≫= fun key => hashTypeAndString (ServiceType d) key :: ((fun t => hashTypeAndString t key) <$> ifaces)) d.

(** ** The builder ([builder.go]) *)
Definition descriptorImplements (d : Descriptor) (t : rtype) : bool := bool_decide (t ∈ ImplementedInterfaceTypes d).
Definition describes (t : rtype) (d : Descriptor) : bool := bool_decide (ServiceType d = t) || descriptorImplements d t.

Definition Add (ds b : list Descriptor) : list Descriptor := b ++ ds.
Definition Remove (t : rtype) (b : list Descriptor) : list Descriptor := filter (fun d => describes t d = false) b.
Definition Contains (t : rtype) (b : list Descriptor) : bool := existsb (describes t) b.

(** *** The registration helpers; an error is a panic. *)
Section registration.
Context `{TS : TypeSystem}.
Context (ptr : nat) (t : rtype).

Definition Instance_ (instance : value) (ifaces : list rtype) : result derror Descriptor := NewInstanceDescriptor ptr t instance ifaces.
Definition Transient (ctor : ConstructorInfo) (ifaces : list rtype) : result derror Descriptor :=
  NewConstructorDescriptor ptr t Lifetime_Transient ctor ifaces.
Definition Scoped (ctor : ConstructorInfo) (ifaces : list rtype) : result derror Descriptor :=
  NewConstructorDescriptor ptr t Lifetime_Scoped ctor ifaces.
Definition Singleton_ (ctor : ConstructorInfo) (ifaces : list rtype) : result derror Descriptor :=
  NewConstructorDescriptor ptr t Lifetime_Singleton ctor ifaces.

Definition AddTransient (ctor : ConstructorInfo) (ifaces : list rtype) (cb : list Descriptor) : result derror (list Descriptor) :=
  d ← Transient ctor ifaces; Ok (Add [d] cb).
Definition AddScoped (ctor : ConstructorInfo) (ifaces : list rtype) (cb : list Descriptor) : result derror (list Descriptor) :=
  d ← Scoped ctor ifaces; Ok (Add [d] cb).
Definition AddSingleton (ctor : ConstructorInfo) (ifaces : list rtype) (cb : list Descriptor) : result derror (list Descriptor) :=
  d ← Singleton_ ctor ifaces; Ok (Add [d] cb).
Definition AddInstance (instance : value) (ifaces : list rtype) (cb : list Descriptor) : result derror (list Descriptor) :=
  d ← Instance_ instance ifaces; Ok (Add [d] cb).

Definition AddTransientWithLookupKeys (ctor : ConstructorInfo) (lookupKeys : list string) (ifaces : list rtype) (cb : list Descriptor) : result derror (list Descriptor) :=
  d ← Transient ctor ifaces; Ok (Add [with_lookup_keys lookupKeys ifaces d] cb).
Definition AddScopedWithLookupKeys (ctor : ConstructorInfo) (lookupKeys : list string) (ifaces : list rtype) (cb : list Descriptor) : result derror (list Descriptor) :=
  d ← Scoped ctor ifaces; Ok (Add [with_lookup_keys lookupKeys ifaces d] cb).
Definition AddSingletonWithLookupKeys (ctor : ConstructorInfo) (lookupKeys : list string) (ifaces : list rtype) (cb : list Descriptor) : result derror (list Descriptor) :=
  d ← Singleton_ ctor ifaces; Ok (Add [with_lookup_keys lookupKeys ifaces d] cb).
Definition AddInstanceWithLookupKeys (instance : value) (lookupKeys : list string) (ifaces : list rtype) (cb : list Descriptor) : result derror (list Descriptor) :=
  d ← Instance_ instance ifaces; Ok (Add [with_lookup_keys lookupKeys ifaces d] cb).
Definition AddFunc (ctor : ConstructorInfo) (cb : list Descriptor) : result derror (list Descriptor) := AddSingleton ctor [] cb.
Definition AddFuncWithLookupKeys (ctor : ConstructorInfo) (lookupKeys : list string) (cb : list Descriptor) : result derror (list Descriptor) :=
  AddSingletonWithLookupKeys ctor lookupKeys [] cb.

(** [Get[T]] as a program: the type assertion and the panics included. *)
Definition get_or_panic (container : value) : prog :=
  GetFrom container t (fun r =>
    match r with
    | inr e => Throw e
    | inl v =>
        match reflect_TypeOf v with
        | Some from => if AssignableTo from t then Return v None else Throw (TypeIncompatibilityError t (Some from))
        | None => Throw (TypeIncompatibilityError t None)
        end
    end).
(** The constructor of the [Add...FromContainer] helpers: ask the other container. *)
Definition from_container (container : value) : ConstructorInfo := mkCtor [] [t; error_type] (fun _ => get_or_panic container).
Definition AddTransientFromContainer (container : value) (cb : list Descriptor) : result derror (list Descriptor) := AddTransient (from_container container) [] cb.
Definition AddScopedFromContainer (container : value) (cb : list Descriptor) : result derror (list Descriptor) := AddScoped (from_container container) [] cb.
Definition AddSingletonFromContainer (container : value) (cb : list Descriptor) : result derror (list Descriptor) := AddSingleton (from_container container) [] cb.

Definition AddTransientFactory (factory : value → prog) (cb : list Descriptor) : list Descriptor := Add [NewFactoryDescriptor ptr t Lifetime_Transient factory] cb.
Definition AddScopedFactory (factory : value → prog) (cb : list Descriptor) : list Descriptor := Add [NewFactoryDescriptor ptr t Lifetime_Scoped factory] cb.
Definition AddSingletonFactory (factory : value → prog) (cb : list Descriptor) : list Descriptor := Add [NewFactoryDescriptor ptr t Lifetime_Singleton factory] cb.
End registration.

(** ** The descriptors of a type ([descriptorCacheItem]) *)
Record descriptorCacheItem := mkItem { item : option Descriptor; items : list Descriptor }.
Definition empty_item : descriptorCacheItem := mkItem None [].

Definition item_Add (dci : descriptorCacheItem) (d : Descriptor) : descriptorCacheItem :=
  match item dci with None => mkItem (Some d) [] | Some d0 => mkItem (Some d0) (items dci ++ [d]) end.
Definition item_Last (dci : descriptorCacheItem) : option Descriptor :=
  match last (items dci) with Some d => Some d | None => item dci end.
Definition item_Num (dci : descriptorCacheItem) : nat := match item dci with None => 0 | Some _ => S (length (items dci)) end.
(** [None]: the panics of [Get] and [GetSlot]. *)
Definition item_Get (dci : descriptorCacheItem) (i : nat) : option Descriptor :=
  if decide (item_Num dci <= i) then None else match i with 0 => item dci | S j => items dci !! j end.

Fixpoint index_of_ptr (p : nat) (ds : list Descriptor) : option nat :=
  match ds with [] => None | d :: ds' => if decide (d_ptr d = p) then Some 0 else S <$> index_of_ptr p ds' end.
Definition item_GetSlot (dci : descriptorCacheItem) (d : Descriptor) : option nat :=
  if decide (d_ptr <$> item dci = Some (d_ptr d)) then Some (item_Num dci - 1)
  else i ← index_of_ptr (d_ptr d) (items dci); Some (length (items dci) - (i + 1)).

(** ** Computations on shared state *)
Inductive fault :=
| Failed (e : derror)          (* an error is returned *)
| Panicking (e : derror)
| Stuck                        (* blocked for ever *)
| NoFuel.
Inductive res (A : Type) := Done (a : A) | Fault (x : fault).
Arguments Done {A}. Arguments Fault {A}.

Definition M (S A : Type) : Type := S → res A * S.
#[global] Instance M_ret {S} : MRet (M S) := fun A a s => (Done a, s).
#[global] Instance M_bind {S} : MBind (M S) := fun A B f m s =>
  match m s with (Done a, s') => f a s' | (Fault x, s') => (Fault x, s') end.

Section effects.
Context {S : Type}.
Definition fails {A} (e : derror) : M S A := fun s => (Fault (Failed e), s).
Definition panics {A} (e : derror) : M S A := fun s => (Fault (Panicking e), s).
Definition gets {A} (f : S → A) : M S A := fun s => (Done (f s), s).
Definition modify (f : S → S) : M S unit := fun s => (Done tt, f s).
(** [defer f()]: runs when the function returns or panics. *)
Definition deferred {A} (f : S → S) (m : M S A) : M S A := fun s =>
  match m s with
  | (Fault Stuck, s') => (Fault Stuck, s')
  | (Fault NoFuel, s') => (Fault NoFuel, s')
  | (r, s') => (r, f s')
  end.
Fixpoint mapM_ {A B} (f : A → M S B) (l : list A) : M S (list B) :=
  match l with [] => mret [] | a :: l' => b ← f a; bs ← mapM_ f l'; mret (b :: bs) end.
End effects.

(** ** Call sites ([callsite.go], [cache.go]) *)
Inductive CacheLocation := CacheLocation_Root | CacheLocation_Scope | CacheLocation_Dispose | CacheLocation_None.
#[global] Instance CacheLocation_eq_dec : EqDecision CacheLocation.
Proof. solve_decision. Defined.
Definition location_num (l : CacheLocation) : nat :=
  match l with CacheLocation_Root => 0 | CacheLocation_Scope => 1 | CacheLocation_Dispose => 2 | CacheLocation_None => 3 end.

(** The type and the reverse index of its registration. *)
Definition ServiceCacheKey : Type := rtype * nat.
Record ResultCache := mkCache { Location : CacheLocation; Key : option ServiceCacheKey }.
Definition NoneResultCache : ResultCache := mkCache CacheLocation_None None.
Definition newResultCacheWithLifetime (lifetime : Lifetime) (typ : rtype) (slot : nat) : ResultCache :=
  mkCache (match lifetime with
           | Lifetime_Singleton => CacheLocation_Root
           | Lifetime_Scoped => CacheLocation_Scope
           | Lifetime_Transient => CacheLocation_Dispose
           end) (Some (typ, slot)).

Definition getCommonCacheLocation (a b : CacheLocation) : CacheLocation := if decide (location_num b < location_num a) then a else b.

Abbreviation csid := nat (only parsing).
Inductive cskind :=
| FactoryCallSite (f : value → prog)
| ConstructorCallSite (ctor : ConstructorInfo) (Parameters : list csid)
| ConstantCallSite (defaultValue : value)
| SliceCallSite (elem : rtype) (CallSites : list csid)
| ContainerCallSite.

(** [cs_value]: the [atomic.Value] that caches a singleton. *)
Record CallSite := mkCallSite { cs_type : rtype; cs_kind : cskind; cs_cache : ResultCache; cs_value : option value }.

Definition DefaultSlot : nat := 0.

(** ** The call site factory *)
Record CallSiteFactory := mkCsf {
  descriptors : list Descriptor;
  descriptorLookup : gmap rtype descriptorCacheItem;
  descriptorKeyLookup : gmap string descriptorCacheItem }.

Definition add_to `{Countable K} (m : gmap K descriptorCacheItem) (k : K) (d : Descriptor) : gmap K descriptorCacheItem :=
  <[k := item_Add (default empty_item (m !! k)) d]> m.

Definition populate (ds : list Descriptor) : gmap rtype descriptorCacheItem * gmap string descriptorCacheItem :=
  foldl (fun m d =>
    (foldl (fun m t => add_to m t d) (add_to m.1 (ServiceType d) d) (ImplementedInterfaceTypes d),
     foldl (fun m k => add_to m k d) m.2 (LookupKeys d))) (∅, ∅) ds.

Definition newCallSiteFactory (ds : list Descriptor) : CallSiteFactory := mkCsf ds (populate ds).1 (populate ds).2.

(** Its mutable part: the store of call sites, the cache, the mutexes held by the
    goroutine, and the chain of the request. *)
Record fstate := mkF {
  callSites : list CallSite;
  callSiteCache : gmap ServiceCacheKey csid;
  typeLocks : gset rtype;
  chain : gset rtype }.

Definition set_chain (f : gset rtype → gset rtype) (s : fstate) : fstate := mkF (callSites s) (callSiteCache s) (typeLocks s) (f (chain s)).
Definition set_locks (f : gset rtype → gset rtype) (s : fstate) : fstate := mkF (callSites s) (callSiteCache s) (f (typeLocks s)) (chain s).
Definition store_key (k : ServiceCacheKey) (c : csid) (s : fstate) : fstate :=
  mkF (callSites s) (<[k := c]> (callSiteCache s)) (typeLocks s) (chain s).

Definition chain_Add (t : rtype) : M fstate unit := modify (set_chain (fun c => {[t]} ∪ c)).
Definition CheckCircularDependency (t : rtype) : M fstate unit :=
  c ← gets chain; if decide (t ∈ c) then fails (CircularDependencyError t) else mret tt.

(** [locker.Lock(); defer locker.Unlock()] of the mutex of a type. *)
Definition with_type_lock {A} (t : rtype) (m : M fstate A) : M fstate A := fun s =>
  if decide (t ∈ typeLocks s) then (Fault Stuck, s)
  else deferred (set_locks (fun l => l ∖ {[t]})) m (set_locks (fun l => {[t]} ∪ l) s).

(** [&CallSite{...}]. *)
Definition new_callsite (c : CallSite) : M fstate csid := fun s =>
  (Done (length (callSites s)), mkF (callSites s ++ [c]) (callSiteCache s) (typeLocks s) (chain s)).

Section factory.
Context (f : CallSiteFactory).
(** [GetCallSite] for the arguments of a constructor. *)
Context (rec : rtype → M fstate csid).

Definition createArgumentCallSites (ctor : ConstructorInfo) : M fstate (list csid) := mapM_ rec (In ctor).

Definition createConstructorCallSite (cache : ResultCache) (t : rtype) (ctor : ConstructorInfo) : M fstate CallSite :=
  _ ← chain_Add t;
  deferred (set_chain (fun c => c ∖ {[t]}))
    (if decide (In ctor = []) then mret (mkCallSite t (ConstructorCallSite ctor []) cache None)
     else params ← createArgumentCallSites ctor; mret (mkCallSite t (ConstructorCallSite ctor params) cache None)).

Definition new_exact (d : Descriptor) (slot : nat) : M fstate CallSite :=
  let cache := newResultCacheWithLifetime (d_Lifetime d) (ServiceType d) slot in
  match d_Instance d, d_Factory d, d_Ctor d with
  | Some v, _, _ => mret (mkCallSite (ServiceType d) (ConstantCallSite v) NoneResultCache None)
  | None, Some factory, _ => mret (mkCallSite (ServiceType d) (FactoryCallSite factory) cache None)
  | None, None, Some ctor => createConstructorCallSite cache (ServiceType d) ctor
  | None, None, None => fails (InvalidDescriptor (ServiceType d))
  end.

Definition tryCreateExact (d : Descriptor) (slot : nat) : M fstate csid :=
  let callSiteKey := (ServiceType d, slot) in
  cached ← gets (fun s => callSiteCache s !! callSiteKey);
  match cached with
  | Some c => mret c
  | None =>
      site ← new_exact d slot;
      c ← new_callsite site;
      _ ← modify (store_key callSiteKey c);
      mret c
  end.

(** The elements from index [i] on, with the location they have in common. *)
Fixpoint slice_loop (dci : descriptorCacheItem) (idxs : list nat) (loc : CacheLocation) : M fstate (CacheLocation * list csid) :=
  match idxs with
  | [] => mret (loc, [])
  | i :: idxs' =>
      match item_Get dci i with
      | None => panics (DiError "index out of range")
      | Some d =>
          c ← tryCreateExact d (item_Num dci - i - 1);
          l ← gets (fun s => match callSites s !! c with Some cs => Location (cs_cache cs) | None => CacheLocation_None end);
          r ← slice_loop dci idxs' (getCommonCacheLocation loc l);
          mret (r.1, c :: r.2)
      end
  end.

Definition createSlice (t : rtype) : M fstate csid :=
  match t with
  | SliceOf elementType =>
      let key := (t, DefaultSlot) in
      cached ← gets (fun s => callSiteCache s !! key);
      match cached with
      | Some c => mret c
      | None =>
          _ ← chain_Add t;
          deferred (set_chain (fun c => c ∖ {[t]}))
            (r ← match descriptorLookup f !! elementType with
                 | Some dci => slice_loop dci (seq 0 (item_Num dci)) CacheLocation_Root
                 | None => mret (CacheLocation_Root, [])
                 end;
             let resultCache := if decide (r.1 = CacheLocation_Scope ∨ r.1 = CacheLocation_Root)
                                then mkCache r.1 (Some key) else NoneResultCache in
             new_callsite (mkCallSite t (SliceCallSite elementType r.2) resultCache None))
      end
  | _ => fails (DiError "service type is not slice")
  end.

Definition createCallSite (t : rtype) : M fstate csid :=
  _ ← CheckCircularDependency t;
  with_type_lock t
    match descriptorLookup f !! t with
    | Some dci =>
        match item_Last dci with
        | Some d => tryCreateExact d DefaultSlot
        | None => panics (DiError "invalid memory address or nil pointer dereference")
        end
    | None =>
        match t with
        | SliceOf _ => createSlice t
        | _ => fails (ServiceNotFound t)
        end
    end.
End factory.

(** [GetCallSite]; the nesting of constructor arguments is bounded by the fuel. *)
Fixpoint GetCallSite (f : CallSiteFactory) (n : nat) (t : rtype) : M fstate csid :=
  match n with
  | 0 => fun s => (Fault NoFuel, s)
  | S n' =>
      cached ← gets (fun s => callSiteCache s !! (t, DefaultSlot));
      match cached with
      | Some c => mret c
      | None => createCallSite f (GetCallSite f n') t
      end
  end.

Definition GetCallSiteByDescriptor (f : CallSiteFactory) (n : nat) (d : Descriptor) : M fstate csid :=
  match descriptorLookup f !! ServiceType d with
  | Some dci =>
      match item_GetSlot dci d with
      | Some slot => tryCreateExact (GetCallSite f n) d slot
      | None => panics (DiError "descriptor not exist")
      end
  | None => fails (DiError "descriptorLookup didn't contain requested descriptor")
  end.

(** The factory of a new container: the built-in services. *)
Definition builtInServices : fstate :=
  mkF [mkCallSite ContainerType ContainerCallSite NoneResultCache None;
       mkCallSite ScopeFactoryType (ConstantCallSite (VScope 0)) NoneResultCache None;
       mkCallSite IsServiceType (ConstantCallSite VCallSiteFactory) NoneResultCache None]
      {[(ContainerType, DefaultSlot) := 0; (ScopeFactoryType, DefaultSlot) := 1; (IsServiceType, DefaultSlot) := 2]} ∅ ∅.

Definition IsService (f : CallSiteFactory) (t : rtype) : bool :=
  bool_decide (is_Some (descriptorLookup f !! t)) || match t with SliceOf _ => true | _ => false end ||
  bool_decide (t ∈ [ContainerType; ScopeFactoryType; IsServiceType]).

(** ** What a type is registered with *)

(** The registrations of a type, in order: as itself or as an interface. *)
Definition registered_as (t : rtype) (d : Descriptor) : nat :=
  (if decide (ServiceType d = t) then 1 else 0) + length (filter (fun u => u = t) (ImplementedInterfaceTypes d)).
Definition registrations (ds : list Descriptor) (t : rtype) : list Descriptor := ds ≫= fun d => replicate (registered_as t d) d.

Definition item_list (dci : descriptorCacheItem) : list Descriptor :=
  match item dci with None => [] | Some d => d :: items dci end.
Definition item_wf (dci : descriptorCacheItem) : Prop := item dci = None → items dci = [].

Lemma item_Add_list dci d : item_wf dci → item_list (item_Add dci d) = item_list dci ++ [d] ∧ item_wf (item_Add dci d).
Proof. unfold item_wf, item_list, item_Add. destruct dci as [[d0|] ds]; simpl; by split. Qed.

Lemma item_Last_list dci : item_wf dci → item_Last dci = last (item_list dci).
Proof.
  unfold item_wf, item_list, item_Last. destruct dci as [[d0|] ds]; simpl; intros Hw; [|by specialize (Hw eq_refl) as ->].
  destruct ds as [|d1 ds]; [done|]. rewrite last_cons_cons. destruct (last (d1 :: ds)) eqn:E; [done|].
  by apply last_None in E.
Qed.

Lemma item_Num_list dci : item_wf dci → item_Num dci = length (item_list dci).
Proof. unfold item_wf, item_list, item_Num. by destruct dci as [[d0|] ds]. Qed.

Lemma item_Get_list dci i : item_wf dci → item_Get dci i = item_list dci !! i.
Proof.
  intros Hw. unfold item_Get. rewrite item_Num_list by done. case_decide as Hi; [by rewrite lookup_ge_None_2|].
  unfold item_list in *. destruct dci as [[d0|] ds]; simpl in *; [by destruct i|lia].
Qed.

Definition lookup_list `{Countable K} (m : gmap K descriptorCacheItem) (k : K) : list Descriptor := item_list (default empty_item (m !! k)).
Definition lookup_wf `{Countable K} (m : gmap K descriptorCacheItem) : Prop :=
  ∀ k dci, m !! k = Some dci → item_wf dci ∧ item_list dci ≠ [].

Lemma add_to_spec `{Countable K} (m : gmap K descriptorCacheItem) k d :
  lookup_wf m → lookup_wf (add_to m k d) ∧
  ∀ k', lookup_list (add_to m k d) k' = lookup_list m k' ++ (if decide (k = k') then [d] else []).
Proof.
  intros Hw. unfold add_to, lookup_list.
  assert (Hwk : item_wf (default empty_item (m !! k))) by (destruct (m !! k) eqn:E; [by apply Hw in E as [? _]|done]).
  destruct (item_Add_list _ d Hwk) as [Hl Hw']. split.
  - intros k' dci [[<- <-]|[Hne Hk']]%lookup_insert_Some; [|by apply (Hw k')]. split; [done|]. rewrite Hl. intros [_ He]%app_eq_nil. done.
  - intros k'. case_decide as Hd; [subst; by rewrite lookup_insert_eq|]. by rewrite lookup_insert_ne, app_nil_r.
Qed.

Lemma add_all_spec (ts : list rtype) d (m : gmap rtype descriptorCacheItem) :
  lookup_wf m → lookup_wf (foldl (fun m t => add_to m t d) m ts) ∧
  ∀ t, lookup_list (foldl (fun m t => add_to m t d) m ts) t = lookup_list m t ++ replicate (length (filter (fun u => u = t) ts)) d.
Proof.
  revert m. induction ts as [|u ts IH]; intros m Hw; cbn [foldl]; [split; [done|]; intros; by rewrite app_nil_r|].
  destruct (add_to_spec m u d Hw) as [Hw' Hl]. destruct (IH _ Hw') as [Hw'' Hl'']. split; [done|]. intros t.
  rewrite Hl'', Hl, filter_cons. case_decide; [|by rewrite app_nil_r]. rewrite <- app_assoc. done.
Qed.

Lemma populate_wf ds : lookup_wf (populate ds).1 ∧ ∀ t, lookup_list (populate ds).1 t = registrations ds t.
Proof.
  unfold populate, registrations.
  set (g := fun m d => (_, _)).
  assert (Hgen : ∀ m, lookup_wf m.1 → lookup_wf (foldl g m ds).1 ∧
    ∀ t, lookup_list (foldl g m ds).1 t = lookup_list m.1 t ++ (ds ≫= fun d => replicate (registered_as t d) d)).
  { induction ds as [|d ds IH]; intros m Hw; cbn [foldl]; [split; [done|]; intros; by rewrite app_nil_r|].
    destruct (add_to_spec m.1 (ServiceType d) d Hw) as [Hw1 Hl1].
    destruct (add_all_spec (ImplementedInterfaceTypes d) d _ Hw1) as [Hw2 Hl2].
    destruct (IH (g m d)) as [Hw3 Hl3]; [exact Hw2|]. split; [done|]. intros t. rewrite Hl3. unfold g. cbn [fst].
    rewrite Hl2, Hl1, bind_cons, !app_assoc. f_equal. rewrite <- app_assoc. f_equal. unfold registered_as.
    case_decide; [|done]. by rewrite replicate_add. }
  destruct (Hgen (∅, ∅)) as [Hw Hl]; [intros k dci Hk; cbn [fst] in Hk; by rewrite lookup_empty in Hk|]. split; [done|]. intros t. by rewrite Hl.
Qed.

Lemma add_to_in (m : gmap string descriptorCacheItem) k d (P : Descriptor → Prop) :
  P d → (∀ k dci, m !! k = Some dci → Forall P (item_list dci)) → ∀ k' dci, add_to m k d !! k' = Some dci → Forall P (item_list dci).
Proof.
  intros Hd Hm k' dci. unfold add_to. intros [[<- <-]|[_ Hk]]%lookup_insert_Some; [|by eapply Hm].
  unfold item_Add. destruct (m !! k) as [[[d0|] l]|] eqn:E; cbn; [|by repeat constructor|by repeat constructor].
  specialize (Hm k _ E). cbn in Hm. inversion Hm; subst. constructor; [done|]. apply Forall_app. split; [done|by repeat constructor].
Qed.

Lemma populate_keys ds k dci : (populate ds).2 !! k = Some dci → Forall (fun d => d ∈ ds) (item_list dci).
Proof.
  unfold populate. set (g := fun m d => (_, _)).
  enough (Hgen : ∀ l (m : gmap rtype descriptorCacheItem * gmap string descriptorCacheItem), (∀ d, d ∈ l → d ∈ ds) →
    (∀ k dci, m.2 !! k = Some dci → Forall (fun d => d ∈ ds) (item_list dci)) →
    ∀ k dci, (foldl g m l).2 !! k = Some dci → Forall (fun d => d ∈ ds) (item_list dci)).
  { intros Hk. apply (Hgen ds (∅, ∅)) in Hk; [done|done|]. intros k' dci'. cbn. by rewrite lookup_empty. }
  induction l as [|d l IH]; intros m Hl Hm; cbn [foldl]; [done|]. apply IH; [intros d' Hd'; apply Hl; by right|].
  unfold g. cbn [snd]. clear IH. assert (Hd : d ∈ ds) by (apply Hl; left). revert Hm. generalize m.2. clear Hl m.
  induction (LookupKeys d) as [|key keys IHk]; intros m Hm; cbn [foldl]; [done|]. apply IHk. by apply add_to_in.
Qed.

Section lookup.
Context (ds : list Descriptor).
Let f := newCallSiteFactory ds.

Lemma descriptorLookup_None t : descriptorLookup f !! t = None ↔ registrations ds t = [].
Proof.
  destruct (populate_wf ds) as [Hw Hl]. rewrite <- Hl. unfold f, newCallSiteFactory, lookup_list. cbn [descriptorLookup].
  destruct ((populate ds).1 !! t) as [dci|] eqn:E; [|done]. apply Hw in E as [_ Hne]. cbn [default]. split; [done|].
  intros He. by destruct (Hne He).
Qed.

Lemma descriptorLookup_Some t dci : descriptorLookup f !! t = Some dci →
  item_list dci = registrations ds t ∧ item_wf dci ∧ registrations ds t ≠ [].
Proof.
  destruct (populate_wf ds) as [Hw Hl]. intros E. specialize (Hl t). unfold lookup_list in Hl. cbn in E. rewrite E in Hl.
  cbn in Hl. apply Hw in E as [? Hne]. rewrite <- Hl. done.
Qed.

Lemma registrations_elem t d : d ∈ registrations ds t → d ∈ ds ∧ (ServiceType d = t ∨ t ∈ ImplementedInterfaceTypes d).
Proof.
  unfold registrations. rewrite list_elem_of_bind. intros (d' & Hd & Hin). apply elem_of_replicate in Hd as [-> Hn]. split; [done|].
  unfold registered_as in Hn. destruct (decide (ServiceType d' = t)); [by left|]. right. simpl in Hn.
  destruct (filter (fun u => u = t) (ImplementedInterfaceTypes d')) as [|u us] eqn:E; [done|].
  assert (Hu : u ∈ filter (fun u => u = t) (ImplementedInterfaceTypes d')) by (rewrite E; left).
  apply list_elem_of_filter in Hu as [-> ?]. done.
Qed.
End lookup.

(** ** Reasoning about computations *)
Section logic.
Context {S : Type}.

(** From [s], [m] ends with a result as [Q] says or a fault as [E] says. *)
Definition post {A} (m : M S A) (s : S) (Q : A → S → Prop) (E : fault → S → Prop) : Prop :=
  match m s with (Done a, s') => Q a s' | (Fault x, s') => E x s' end.

Lemma post_ret {A} (a : A) s (Q : A → S → Prop) E : Q a s → post (mret a) s Q E.
Proof. done. Qed.
Lemma post_gets {A} (g : S → A) s (Q : A → S → Prop) E : Q (g s) s → post (gets g) s Q E.
Proof. done. Qed.
Lemma post_modify (g : S → S) s (Q : unit → S → Prop) E : Q tt (g s) → post (modify g) s Q E.
Proof. done. Qed.

Lemma post_bind {A B} (m : M S A) (k : A → M S B) s Q E :
  post m s (fun a s' => post (k a) s' Q E) E → post (m ≫= k) s Q E.
Proof. unfold post, mbind, M_bind. by destruct (m s) as [[a|x] s']. Qed.

Lemma post_weaken {A} (m : M S A) s (Q Q' : A → S → Prop) (E E' : fault → S → Prop) :
  post m s Q E → (∀ a s', Q a s' → Q' a s') → (∀ x s', E x s' → E' x s') → post m s Q' E'.
Proof. unfold post. destruct (m s) as [[a|x] s']; eauto. Qed.

Lemma post_deferred {A} (g : S → S) (m : M S A) s Q E :
  post m s (fun a s' => Q a (g s')) (fun x s' => match x with Stuck | NoFuel => E x s' | _ => E x (g s') end) →
  post (deferred g m) s Q E.
Proof. unfold post, deferred. by destruct (m s) as [[a|[]] s']. Qed.

(** Elements in sequence, when the state they need is kept. *)
Lemma post_mapM {A B} (g : A → M S B) l s (I : S → Prop) (R : A → B → Prop) E :
  I s → (∀ a s', a ∈ l → I s' → post (g a) s' (fun b s'' => I s'' ∧ R a b) E) →
  post (mapM_ g l) s (fun bs s' => I s' ∧ Forall2 R l bs) E.
Proof.
  intros Hs Hg. revert s Hs. induction l as [|a l IH]; intros s Hs; [by apply post_ret|]. cbn [mapM_].
  apply post_bind. eapply post_weaken; [apply Hg; [left|done]| |done]. intros b s' [Hs' Hb].
  apply post_bind. eapply post_weaken; [apply IH; [|done]| |done].
  - intros a' s'' Ha'. apply Hg. by right.
  - intros bs s'' [? ?]. apply post_ret. split; [done|by constructor].
Qed.

(** The same with what the elements yield depending on the state, as long as later
    elements keep it. *)
Lemma post_mapM_stable {A B} (g : A → M S B) l s (I : S → Prop) (T : S → S → Prop) `{!PreOrder T} (R : S → A → B → Prop) E :
  (∀ s s' a b, T s s' → R s a b → R s' a b) →
  I s → (∀ a s', a ∈ l → I s' → T s s' → post (g a) s' (fun b s'' => I s'' ∧ T s' s'' ∧ R s'' a b) E) →
  post (mapM_ g l) s (fun bs s' => I s' ∧ T s s' ∧ Forall2 (R s') l bs) E.
Proof.
  intros Hst Hs Hg. enough (Hgen : ∀ s1, I s1 → T s s1 →
    post (mapM_ g l) s1 (fun bs s' => I s' ∧ T s1 s' ∧ Forall2 (R s') l bs) E) by (by apply Hgen).
  induction l as [|a l IH]; intros s1 Hs1 HT1; [apply post_ret; split_and!; [done|done|constructor]|]. cbn [mapM_].
  apply post_bind. eapply post_weaken; [apply Hg; [left|done|done]| |done]. intros b s2 (Hs2 & HT2 & Hb).
  apply post_bind. eapply post_weaken; [apply IH; [|done|by etrans]| |done].
  - intros a' s'' Ha'. apply Hg. by right.
  - intros bs s3 (Hs3 & HT3 & Hbs). apply post_ret. split_and!; [done|by etrans|]. constructor; [by apply (Hst s2)|done].
Qed.
End logic.

(** ** Call sites of acyclic registrations *)

(** What a call of the factory leaves as it was. *)
Definition frame (s s' : fstate) : Prop :=
  typeLocks s' = typeLocks s ∧ chain s' = chain s ∧
  (∀ k, is_Some (callSiteCache s !! k) → is_Some (callSiteCache s' !! k)).

#[export] Instance frame_preorder : PreOrder frame.
Proof.
  split; [by intros s|]. intros s1 s2 s3 (H1 & H2 & H3) (H4 & H5 & H6). split_and!; [congruence|congruence|eauto].
Qed.

Lemma frame_new c s : frame s (mkF (callSites s ++ [c]) (callSiteCache s) (typeLocks s) (chain s)).
Proof. done. Qed.
Lemma post_new c s Q E :
  Q (length (callSites s)) (mkF (callSites s ++ [c]) (callSiteCache s) (typeLocks s) (chain s)) → post (new_callsite c) s Q E.
Proof. done. Qed.
Lemma frame_store k c s : frame s (store_key k c s).
Proof. split_and!; [done|done|]. intros k' Hk. cbn. destruct (decide (k = k')) as [->|?]; [by rewrite lookup_insert_eq; eauto|by rewrite lookup_insert_ne]. Qed.

Lemma post_type_lock {A} t (m : M fstate A) s Q E :
  t ∉ typeLocks s →
  post (deferred (set_locks (fun l => l ∖ {[t]})) m) (set_locks (fun l => {[t]} ∪ l) s) Q E → post (with_type_lock t m) s Q E.
Proof. intros Ht. unfold post, with_type_lock. by rewrite decide_False. Qed.

(** Adding to the chain, or locking, and undoing it. *)
Lemma frame_chain t s s' : t ∉ chain s →
  frame (set_chain (fun c => {[t]} ∪ c) s) s' → frame s (set_chain (fun c => c ∖ {[t]}) s').
Proof. intros Ht (H1 & H2 & H3). split_and!; [done| |done]. cbn in *. rewrite H2. set_solver. Qed.
Lemma frame_lock t s s' : t ∉ typeLocks s →
  frame (set_locks (fun c => {[t]} ∪ c) s) s' → frame s (set_locks (fun c => c ∖ {[t]}) s').
Proof. intros Ht (H1 & H2 & H3). split_and!; [|done|done]. cbn in *. rewrite H1. set_solver. Qed.

(** The types a request for [t0] can be sent on to. *)
Definition needed (ds : list Descriptor) (t0 t : rtype) : Prop :=
  t = t0 ∨ ∃ d ctor, d ∈ ds ∧ d_Ctor d = Some ctor ∧ t ∈ In ctor.

Definition not_found (ds : list Descriptor) (t0 : rtype) (x : fault) : Prop :=
  ∃ t, x = Failed (ServiceNotFound t) ∧ needed ds t0 t ∧ IsService (newCallSiteFactory ds) t = false.

Definition built_in (t : rtype) : Prop := t ∈ [ContainerType; ScopeFactoryType; IsServiceType].
Definition has_built_ins (s : fstate) : Prop := ∀ t, built_in t → is_Some (callSiteCache s !! (t, DefaultSlot)).

Lemma frame_built_ins s s' : frame s s' → has_built_ins s → has_built_ins s'.
Proof. intros (_ & _ & Hf) Hs t Ht. by apply Hf, Hs. Qed.

Definition valid_descriptor (d : Descriptor) : Prop := is_Some (d_Instance d) ∨ is_Some (d_Factory d) ∨ is_Some (d_Ctor d).

(** No service needs itself: a rank that drops along constructor arguments, from
    an interface to its implementations and from a slice to its elements. *)
Record acyclic (ds : list Descriptor) (rank : rtype → nat) : Prop := {
  acyclic_ctor d ctor t : d ∈ ds → d_Ctor d = Some ctor → t ∈ In ctor → rank t < rank (ServiceType d);
  acyclic_iface d t : d ∈ ds → t ∈ ImplementedInterfaceTypes d → rank (ServiceType d) < rank t;
  acyclic_slice t : rank t < rank (SliceOf t) }.

Section acyclic.
Context (ds : list Descriptor) (rank : rtype → nat) (Hac : acyclic ds rank) (Hval : ∀ d, d ∈ ds → valid_descriptor d).
Let f := newCallSiteFactory ds.

(** Everything held is above [t]. *)
Definition above (t : rtype) (l : gset rtype) : Prop := ∀ x, x ∈ l → rank t < rank x.

Definition good_call (m : M fstate csid) (t0 : rtype) (s : fstate) : Prop :=
  post m s (fun _ s' => frame s s') (fun x s' => not_found ds t0 x ∧ frame s s').

Section step.
Context (n : nat) (IH : ∀ t s, rank t < n → above t (chain s) → above t (typeLocks s) → has_built_ins s → good_call (GetCallSite f n t) t s).

Lemma tryCreateExact_acyclic d slot t0 s :
  d ∈ ds → rank (ServiceType d) <= n → above (ServiceType d) (chain s) →
  (∀ x, x ∈ typeLocks s → rank (ServiceType d) <= rank x) → has_built_ins s →
  good_call (tryCreateExact (GetCallSite f n) d slot) t0 s.
Proof using IH Hac Hval.
  intros Hd Hn Hc Hl Hb. unfold tryCreateExact. apply post_bind, post_gets.
  destruct (callSiteCache s !! _) as [c|]; [by apply post_ret|]. apply post_bind.
  assert (Hnew : post (new_exact (GetCallSite f n) d slot) s (fun _ s' => frame s s') (fun x s' => not_found ds t0 x ∧ frame s s')).
  { unfold new_exact. destruct (d_Instance d) as [v|] eqn:Ei; [by apply post_ret|].
    destruct (d_Factory d) as [fac|] eqn:Ef; [by apply post_ret|].
    destruct (d_Ctor d) as [ctor|] eqn:Ec; [|destruct (Hval d Hd) as [[? ?]|[[? ?]|[? ?]]]; congruence].
    unfold createConstructorCallSite. apply post_bind, post_modify, post_deferred.
    assert (Ht : ServiceType d ∉ chain s) by (intros Ht; specialize (Hc _ Ht); lia).
    destruct (decide (In ctor = [])); [apply post_ret; by apply frame_chain|].
    set (s1 := set_chain _ s). apply post_bind.
    eapply post_weaken; [apply (post_mapM _ _ _ (frame s1) (fun _ _ => True)
      (fun x s' => not_found ds t0 x ∧ frame s1 s')); [done|]| |].
    - intros a s2 Ha Hs2. pose proof (acyclic_ctor _ _ Hac _ _ _ Hd Ec Ha) as Hr. pose proof Hs2 as (Hl2 & Hc2 & _).
      eapply post_weaken; [apply IH| |].
      + lia.
      + rewrite Hc2. intros x. unfold s1. cbn. rewrite elem_of_union, elem_of_singleton. intros [-> |Hx]; [lia|]. specialize (Hc _ Hx). lia.
      + rewrite Hl2. intros x Hx. specialize (Hl _ Hx). lia.
      + by apply (frame_built_ins s1).
      + intros c s3 Hs3. split; [|done]. by etrans.
      + intros x s3 [(t & -> & Hneed & Hno) Hs3]. split; [|by etrans]. exists t. split_and!; [done| |done].
        right. destruct Hneed as [-> |Hneed]; [|done]. by exists d, ctor.
    - intros ps s2 [Hs2 _]. apply post_ret. by apply frame_chain.
    - intros x s2 [Hx Hs2]. pose proof (frame_chain _ _ _ Ht Hs2). destruct Hx as (t & -> & Hx). split; [by exists t|done]. }
  eapply post_weaken; [apply Hnew| |done]. intros site s1 Hs1. apply post_bind, post_new, post_bind, post_modify, post_ret.
  etrans; [exact Hs1|]. etrans; [apply (frame_new site)|]. apply frame_store.
Qed.

Lemma slice_loop_acyclic elem dci idxs loc t0 s :
  descriptorLookup f !! elem = Some dci → (∀ i, i ∈ idxs → i < item_Num dci) → rank elem <= n → above elem (chain s) →
  (∀ x, x ∈ typeLocks s → rank elem <= rank x) → has_built_ins s →
  post (slice_loop (GetCallSite f n) dci idxs loc) s (fun _ s' => frame s s') (fun x s' => not_found ds t0 x ∧ frame s s').
Proof using IH Hac Hval.
  intros Hlk. destruct (descriptorLookup_Some ds _ _ Hlk) as (Hlist & Hwf & _). revert loc s.
  induction idxs as [|i idxs IHi]; intros loc s Hi Hn Hc Hl Hb; [by apply post_ret|]. cbn [slice_loop].
  rewrite item_Get_list by done. destruct (item_list dci !! i) as [d|] eqn:Ed.
  - rewrite Hlist in Ed. destruct (registrations_elem ds elem d (list_elem_of_lookup_2 _ _ _ Ed)) as [Hd Has].
    assert (Hr : rank (ServiceType d) <= rank elem).
    { destruct Has as [-> |Has]; [done|]. pose proof (acyclic_iface _ _ Hac _ _ Hd Has). lia. }
    apply post_bind. eapply post_weaken; [apply (tryCreateExact_acyclic d _ t0); [done|lia| | |done]| |].
    + intros x Hx. specialize (Hc x Hx). lia.
    + intros x Hx. specialize (Hl x Hx). lia.
    + intros c s1 Hs1. apply post_bind, post_gets, post_bind. pose proof Hs1 as (Hl1 & Hc1 & _).
      eapply post_weaken; [apply IHi| |].
      * intros j Hj. apply Hi. by right.
      * done.
      * by rewrite Hc1.
      * by rewrite Hl1.
      * apply (frame_built_ins s); [exact Hs1|done].
      * intros r s2 Hs2. apply post_ret. etrans; [exact Hs1|exact Hs2].
      * intros x s2 [Hx Hs2]. split; [done|etrans; [exact Hs1|exact Hs2]].
    + done.
  - apply lookup_ge_None in Ed. assert (Hlt : i < item_Num dci) by (apply Hi; left). rewrite item_Num_list in Hlt by done. lia.
Qed.

Lemma createCallSite_acyclic t s :
  rank t <= n → above t (chain s) → above t (typeLocks s) → has_built_ins s → callSiteCache s !! (t, DefaultSlot) = None →
  good_call (createCallSite f (GetCallSite f n) t) t s.
Proof using IH Hac Hval.
  intros Hn Hc Hl Hb Hcache. unfold createCallSite, CheckCircularDependency. apply post_bind, post_bind, post_gets.
  assert (Hnc : t ∉ chain s) by (intros Ht; specialize (Hc _ Ht); lia).
  assert (Hnl : t ∉ typeLocks s) by (intros Ht; specialize (Hl _ Ht); lia).
  rewrite decide_False by done. apply post_ret, post_type_lock; [done|].
  set (s1 := set_locks _ s).
  enough (Hin : good_call (match descriptorLookup f !! t with
    | Some dci => match item_Last dci with Some d => tryCreateExact (GetCallSite f n) d DefaultSlot
                  | None => panics (DiError "invalid memory address or nil pointer dereference") end
    | None => match t with SliceOf _ => createSlice f (GetCallSite f n) t | _ => fails (ServiceNotFound t) end end) t s1).
  { apply post_deferred. eapply post_weaken; [exact Hin| |].
    - intros c s2 Hs2. by apply frame_lock.
    - intros x s2 [(u & -> & Hx) Hs2]. split; [by exists u|by apply frame_lock]. }
  assert (Hl1 : ∀ x, x ∈ typeLocks s1 → rank t <= rank x).
  { intros x. unfold s1. cbn. rewrite elem_of_union, elem_of_singleton. intros [-> |Hx]; [done|]. specialize (Hl _ Hx). lia. }
  destruct (descriptorLookup f !! t) as [dci|] eqn:Elk.
  - destruct (descriptorLookup_Some ds _ _ Elk) as (Hlist & Hwf & Hne). rewrite item_Last_list, Hlist by done.
    destruct (last (registrations ds t)) as [d|] eqn:Ed; [|by apply last_None in Ed].
    apply last_Some_elem_of in Ed. destruct (registrations_elem ds t d Ed) as [Hd Has].
    assert (Hr : rank (ServiceType d) <= rank t).
    { destruct Has as [-> |Has]; [done|]. pose proof (acyclic_iface _ _ Hac _ _ Hd Has). lia. }
    apply tryCreateExact_acyclic; [done|lia| | |done].
    + intros x Hx. specialize (Hc x Hx). lia.
    + intros x Hx. specialize (Hl1 x Hx). lia.
  - destruct t as [k p nm|e|e]; [| |].
    3: { unfold createSlice. apply post_bind, post_gets. cbn. rewrite Hcache. apply post_bind, post_modify, post_deferred.
         set (s2 := set_chain _ s1). pose proof (acyclic_slice _ _ Hac e) as Hrs. apply post_bind.
         assert (Hloop : post (match descriptorLookup f !! e with
             | Some dci => slice_loop (GetCallSite f n) dci (seq 0 (item_Num dci)) CacheLocation_Root
             | None => mret (CacheLocation_Root, []) end) s2 (fun _ s' => frame s2 s')
             (fun x s' => not_found ds (SliceOf e) x ∧ frame s2 s')).
         { destruct (descriptorLookup f !! e) as [dci|] eqn:Ee; [|by apply post_ret].
           eapply slice_loop_acyclic; [done| |lia| | |done].
           - intros i Hi. apply elem_of_seq in Hi. lia.
           - intros x. unfold s2, s1. cbn. rewrite elem_of_union, elem_of_singleton. intros [-> |Hx]; [done|].
             specialize (Hc _ Hx). lia.
           - intros x Hx. specialize (Hl1 x Hx). lia. }
         eapply post_weaken; [exact Hloop| |].
         - intros r s3 Hs3. apply post_new. apply (frame_chain (SliceOf e) s1); [done|]. fold s2.
           etrans; [exact Hs3|]. apply frame_new.
         - intros x s3 [(u & -> & Hx) Hs3]. split; [by exists u|]. by apply frame_chain. }
    all: unfold fails, good_call, post; split; [|done]; eexists; split_and!; [done|by left|]; unfold IsService; fold f; rewrite Elk;
      rewrite bool_decide_eq_false_2 by (by intros []); cbn; apply bool_decide_eq_false_2; intros Hbi; specialize (Hb _ Hbi);
      rewrite Hcache in Hb; by destruct Hb.
Qed.
End step.

Lemma GetCallSite_acyclic n t s :
  rank t < n → above t (chain s) → above t (typeLocks s) → has_built_ins s → good_call (GetCallSite f n t) t s.
Proof using Hac Hval.
  revert t s. induction n as [|n IH]; intros t s Hn Hc Hl Hb; [lia|]. cbn [GetCallSite]. apply post_bind, post_gets.
  destruct (callSiteCache s !! (t, DefaultSlot)) as [c|] eqn:E; [by apply post_ret|].
  apply createCallSite_acyclic; try done. lia.
Qed.
End acyclic.

(** ** Mutexes are given back *)
Definition gives_back {A} (m : M fstate A) (s : fstate) : Prop :=
  post m s (fun _ s' => typeLocks s' = typeLocks s) (fun x s' => match x with Stuck | NoFuel => True | _ => typeLocks s' = typeLocks s end).

Lemma gives_back_bind {A B} (m : M fstate A) (k : A → M fstate B) s :
  gives_back m s → (∀ a s', gives_back (k a) s') → gives_back (m ≫= k) s.
Proof.
  intros Hm Hk. apply post_bind. eapply post_weaken; [exact Hm| |done]. intros a s' Hs'. eapply post_weaken; [apply Hk| |].
  - intros b s'' Hs''. congruence.
  - intros x s'' Hx. destruct x; congruence.
Qed.

Lemma gives_back_deferred {A} g (m : M fstate A) s : (∀ s, typeLocks (g s) = typeLocks s) → gives_back m s → gives_back (deferred g m) s.
Proof.
  intros Hg Hm. apply post_deferred. eapply post_weaken; [exact Hm| |].
  - intros a s' Hs'. by rewrite Hg.
  - intros x s' Hx. destruct x; try done; by rewrite Hg.
Qed.

Lemma gives_back_mapM {A B} (g : A → M fstate B) l s : (∀ a s, gives_back (g a) s) → gives_back (mapM_ g l) s.
Proof.
  intros Hg. revert s. induction l as [|a l IH]; intros s; cbn [mapM_]; [done|].
  apply gives_back_bind; [apply Hg|]. intros b s'. apply gives_back_bind; [apply IH|]. done.
Qed.

Section gives_back.
Context (f : CallSiteFactory) (rec : rtype → M fstate csid) (Hrec : ∀ t s, gives_back (rec t) s).

Lemma tryCreateExact_gives_back d slot s : gives_back (tryCreateExact rec d slot) s.
Proof using Hrec.
  unfold tryCreateExact. apply gives_back_bind; [done|]. intros o s1. destruct o as [c|]; [done|].
  apply gives_back_bind; [|intros site s2; apply gives_back_bind; [done|]; intros c s3; by apply gives_back_bind].
  unfold new_exact. destruct (d_Instance d); [done|]. destruct (d_Factory d); [done|]. destruct (d_Ctor d) as [ctor|]; [|done].
  unfold createConstructorCallSite. apply gives_back_bind; [done|]. intros ? s2. apply gives_back_deferred; [done|].
  destruct (decide _); [done|]. apply gives_back_bind; [by apply gives_back_mapM|done].
Qed.

Lemma slice_loop_gives_back dci l loc s : gives_back (slice_loop rec dci l loc) s.
Proof using Hrec.
  revert loc s. induction l as [|i l IH]; intros loc s; cbn [slice_loop]; [done|].
  destruct (item_Get dci i) as [d|]; [|done]. apply gives_back_bind; [apply tryCreateExact_gives_back|]. intros c s5.
  apply gives_back_bind; [done|]. intros l' s6. by apply gives_back_bind; [apply IH|].
Qed.

Lemma createCallSite_gives_back t s : gives_back (createCallSite f rec t) s.
Proof using Hrec.
  unfold createCallSite. apply gives_back_bind; [unfold CheckCircularDependency; apply gives_back_bind; [done|]; intros c s1; by destruct (decide _)|].
  intros ? s1. destruct (decide (t ∈ typeLocks s1)) as [Hin|Hin]; [unfold gives_back, post, with_type_lock; by rewrite decide_True|].
  apply post_type_lock; [done|]. set (s2 := set_locks _ s1). apply post_deferred.
  assert (Hback : ∀ s3, typeLocks s3 = typeLocks s2 → typeLocks (set_locks (fun l => l ∖ {[t]}) s3) = typeLocks s1).
  { intros s3 Hs3. cbn. rewrite Hs3. cbn. clear -Hin. set_solver. }
  match goal with |- post ?m _ _ _ => assert (Hm : gives_back m s2) end.
  { destruct (descriptorLookup f !! t) as [dci|]; [destruct (item_Last dci); [apply tryCreateExact_gives_back|done]|].
    destruct t as [| |e]; [done|done|]. unfold createSlice. apply gives_back_bind; [done|]. intros o s3. destruct o; [done|].
    apply gives_back_bind; [done|]. intros ? s4. apply gives_back_deferred; [done|]. apply gives_back_bind; [|done].
    destruct (descriptorLookup f !! e) as [dci|]; [apply slice_loop_gives_back|done]. }
  eapply post_weaken; [exact Hm| |].
  - intros c s3 Hs3. by apply Hback.
  - intros x s3 Hx. destruct x; try done; by apply Hback.
Qed.
End gives_back.

Lemma GetCallSite_gives_back f n t s : gives_back (GetCallSite f n t) s.
Proof.
  revert t s. induction n as [|n IH]; intros t s; [done|]. cbn [GetCallSite]. apply gives_back_bind; [done|]. intros o s1.
  destruct o; [done|]. by apply createCallSite_gives_back.
Qed.

Lemma GetCallSiteByDescriptor_gives_back f n d s : gives_back (GetCallSiteByDescriptor f n d) s.
Proof.
  unfold GetCallSiteByDescriptor. destruct (descriptorLookup f !! _) as [dci|]; [|done]. destruct (item_GetSlot dci d); [|done].
  apply tryCreateExact_gives_back, GetCallSite_gives_back.
Qed.

(** The factory after some requests. *)
Definition requests (f : CallSiteFactory) (n : nat) (ts : list rtype) : fstate :=
  foldl (fun s t => (GetCallSite f n t s).2) builtInServices ts.

Lemma has_built_ins_init : has_built_ins builtInServices.
Proof.
  intros t Ht. unfold built_in in Ht. rewrite !elem_of_cons, elem_of_nil in Ht.
  destruct Ht as [-> |[-> |[-> |[]]]]; by eexists.
Qed.

Lemma requests_invariant f n (I : fstate → Prop) (ok : rtype → Prop) ts :
  I builtInServices → (∀ t s, ok t → I s → I (GetCallSite f n t s).2) → Forall ok ts → I (requests f n ts).
Proof.
  intros H0 Hstep. unfold requests. generalize builtInServices H0. clear H0. induction ts as [|t ts IH]; intros s Hs Hts; [done|].
  inversion Hts; subst. cbn [foldl]. apply IH; [by apply Hstep|done].
Qed.

(** Registrations without a cycle always resolve: for every type and after
    any earlier requests, [GetCallSite] returns a call site or the error that a
    type it needs is not registered, and if none is missing it returns a call site;
    it never reports a cycle, panics or locks a mutex twice, and fuel above the
    depth of the type is enough. *)
Theorem acyclic_registrations_resolve ds rank n ts t :
  acyclic ds rank → (∀ d, d ∈ ds → valid_descriptor d) → Forall (fun u => rank u < n) ts → rank t < n →
  let f := newCallSiteFactory ds in
  let r := (GetCallSite f n t (requests f n ts)).1 in
  match r with Done _ => True | Fault x => not_found ds t x end ∧
  ((∀ u, needed ds t u → IsService f u = true) → ∃ c, r = Done c).
Proof.
  intros Hac Hval Hts Ht f. cbv zeta.
  set (Q := fun s => chain s = ∅ ∧ typeLocks s = ∅ ∧ has_built_ins s).
  assert (Hcall : ∀ u s, rank u < n → Q s → good_call ds (GetCallSite f n u) u s).
  { intros u s Hu (Hc & Hl & Hb). apply (GetCallSite_acyclic ds rank Hac Hval); [done| | |done].
    - intros x. rewrite Hc. by intros ?%elem_of_empty.
    - intros x. rewrite Hl. by intros ?%elem_of_empty. }
  assert (HQ : Q (requests f n ts)).
  { apply (requests_invariant f n Q (fun u => rank u < n)); [by split_and!; [| |apply has_built_ins_init]| |done].
    intros u s Hu HQ. pose proof (Hcall u s Hu HQ) as Hp. destruct HQ as (Hc & Hl & Hb). unfold good_call, post in Hp.
    destruct (GetCallSite f n u s) as [[c|x] s']; cbn [snd].
    - pose proof Hp as (H1 & H2 & _). unfold Q. split_and!; [by rewrite H2|by rewrite H1|by apply (frame_built_ins s)].
    - destruct Hp as [_ Hp]. pose proof Hp as (H1 & H2 & _). unfold Q. split_and!; [by rewrite H2|by rewrite H1|by apply (frame_built_ins s)]. }
  pose proof (Hcall t _ Ht HQ) as Hp. unfold good_call, post in Hp.
  destruct (GetCallSite f n t (requests f n ts)) as [[c|x] s']; cbn [fst]; [by split; eauto|]. destruct Hp as [Hx _].
  split; [done|]. intros Hcomplete. destruct Hx as (u & -> & Hneed & Hno). fold f in Hno. by rewrite (Hcomplete u Hneed) in Hno.
Qed.

(** ** Cycles are found *)

(** What the default registration of a type asks for. *)
Definition dep (ds : list Descriptor) (a b : rtype) : Prop :=
  ¬ built_in a ∧ ∃ d ctor, last (registrations ds a) = Some d ∧ d_Instance d = None ∧ d_Factory d = None ∧
    d_Ctor d = Some ctor ∧ b ∈ In ctor.

(** A type that is not an implicit slice. *)
Definition exact (ds : list Descriptor) (t : rtype) : Prop := match t with SliceOf _ => registrations ds t ≠ [] | _ => True end.

(** Registrations without implemented interfaces and implicit slices. *)
Definition plain (ds : list Descriptor) : Prop :=
  ∀ d, d ∈ ds → ImplementedInterfaceTypes d = [] ∧ valid_descriptor d ∧
    ∀ ctor t, d_Ctor d = Some ctor → t ∈ In ctor → exact ds t.

Section cycles.
Context (ds : list Descriptor) (Hplain : plain ds).
Let f := newCallSiteFactory ds.
Let U : gset rtype := list_to_set (ServiceType <$> ds).
Abbreviation no_cycle := (Acc (fun b a => dep ds a b)).

Definition cache_acyclic (s : fstate) : Prop := ∀ t, is_Some (callSiteCache s !! (t, DefaultSlot)) → no_cycle t.

Record factory_ok (n : nat) (t : rtype) (s : fstate) : Prop := {
  ok_exact : exact ds t;
  ok_fuel : size (U ∖ chain s) < n;
  ok_locks : typeLocks s ⊆ chain s;
  ok_path x : x ∈ chain s → tc (dep ds) x t;
  ok_cache : cache_acyclic s;
  ok_built_ins : has_built_ins s }.

Definition cycle_or_missing (t : rtype) (x : fault) : Prop :=
  (∃ u, x = Failed (CircularDependencyError u) ∧ tc (dep ds) u u) ∨ not_found ds t x.

Definition detects (n : nat) : Prop := ∀ t s, factory_ok n t s →
  post (GetCallSite f n t) s (fun _ s' => frame s s' ∧ cache_acyclic s' ∧ no_cycle t)
    (fun x s' => frame s s' ∧ cache_acyclic s' ∧ cycle_or_missing t x).

Lemma plain_registration t d : last (registrations ds t) = Some d → d ∈ ds ∧ ServiceType d = t.
Proof using Hplain.
  intros Hd%last_Some_elem_of. destruct (registrations_elem ds t d Hd) as [Hin [Ht|Ht]]; [done|].
  destruct (Hplain d Hin) as [He _]. rewrite He in Ht. by apply elem_of_nil in Ht.
Qed.

Lemma cache_acyclic_new s c : cache_acyclic s → cache_acyclic (mkF (callSites s ++ [c]) (callSiteCache s) (typeLocks s) (chain s)).
Proof. done. Qed.

Lemma cache_acyclic_store s t c : cache_acyclic s → no_cycle t → cache_acyclic (store_key (t, DefaultSlot) c s).
Proof.
  intros Hs Ht u. cbn. destruct (decide (u = t)) as [-> |Hne]; [done|]. rewrite lookup_insert_ne by congruence. apply Hs.
Qed.

(** Building the call site of a type that is not being built. *)
Lemma create_plain n t d s :
  detects n → factory_ok (S n) t s → t ∉ chain s → callSiteCache s !! (t, DefaultSlot) = None →
  last (registrations ds t) = Some d →
  let s1 := set_locks (fun l => {[t]} ∪ l) s in
  post (tryCreateExact (GetCallSite f n) d DefaultSlot) s1
    (fun _ s' => frame s1 s' ∧ cache_acyclic s' ∧ no_cycle t)
    (fun x s' => frame s1 s' ∧ cache_acyclic s' ∧ cycle_or_missing t x).
Proof using Hplain.
  intros IH Hok Hnc Hcache Hlast s1. destruct (plain_registration t d Hlast) as [Hd Ht]. destruct Hok as [_ Hfuel Hlk Hpath Hca Hbi].
  destruct (Hplain d Hd) as (_ & Hval & Hexact).
  unfold tryCreateExact. apply post_bind, post_gets. cbn. rewrite Ht, Hcache. apply post_bind.
  assert (Hnb : ¬ built_in t) by (intros Hb; destruct (Hbi t Hb) as [c Hc]; congruence).
  assert (Hnew : post (new_exact (GetCallSite f n) d DefaultSlot) s1
    (fun _ s' => frame s1 s' ∧ cache_acyclic s' ∧ no_cycle t)
    (fun x s' => frame s1 s' ∧ cache_acyclic s' ∧ cycle_or_missing t x)).
  { assert (Hleaf : is_Some (d_Instance d) ∨ is_Some (d_Factory d) → no_cycle t).
    { intros Hl. constructor. intros b (_ & d' & ctor & Hd' & Hi & Hf & _). assert (d' = d) as -> by congruence.
      destruct Hl as [[? ?]|[? ?]]; congruence. }
    unfold new_exact. destruct (d_Instance d) as [v|] eqn:Ei; [apply post_ret; split_and!; [done|done|by apply Hleaf; eauto]|].
    destruct (d_Factory d) as [fac|] eqn:Ef; [apply post_ret; split_and!; [done|done|by apply Hleaf; eauto]|].
    destruct (d_Ctor d) as [ctor|] eqn:Ec; [|destruct Hval as [[? ?]|[[? ?]|[? ?]]]; congruence].
    unfold createConstructorCallSite. rewrite Ht. apply post_bind, post_modify, post_deferred.
    assert (Hdep : ∀ b, b ∈ In ctor → dep ds t b) by (intros b Hb; split; [done|]; by exists d, ctor).
    destruct (decide (In ctor = [])) as [He|He].
    { apply post_ret. split_and!; [by apply frame_chain|done|]. constructor. intros b (_ & d' & ctor' & Hd' & _ & _ & Hc' & Hb).
      assert (d' = d) as -> by congruence. assert (ctor' = ctor) as -> by congruence. rewrite He in Hb. by apply elem_of_nil in Hb. }
    set (s2 := set_chain _ s1). apply post_bind.
    eapply post_weaken; [apply (post_mapM _ _ _ (fun s' => frame s2 s' ∧ cache_acyclic s') (fun a _ => no_cycle a)
      (fun x s' => frame s2 s' ∧ cache_acyclic s' ∧ cycle_or_missing t x)); [done|]| |].
    - intros a s3 Ha [Hs3 Hca3]. pose proof Hs3 as (Hl3 & Hc3 & _). eapply post_weaken; [apply IH; split| |].
      + by apply (Hexact ctor).
      + rewrite Hc3. unfold s2, s1. cbn. assert (Hin : t ∈ U ∖ chain s).
        { apply elem_of_difference. split; [|done]. unfold U. apply elem_of_list_to_set, list_elem_of_fmap. by exists d. }
        replace (U ∖ ({[t]} ∪ chain s)) with ((U ∖ chain s) ∖ {[t]}) by set_solver.
        rewrite size_difference by set_solver. rewrite size_singleton.
        assert (size (U ∖ chain s) ≠ 0) by (rewrite size_non_empty_iff; set_solver). lia.
      + rewrite Hl3, Hc3. unfold s2, s1. cbn. set_solver.
      + intros x. rewrite Hc3. unfold s2, s1. cbn. rewrite elem_of_union, elem_of_singleton. intros [-> |Hx]; [by apply tc_once, Hdep|].
        eapply tc_r; [by apply Hpath|by apply Hdep].
      + done.
      + by apply (frame_built_ins s2).
      + intros c s4 (Hs4 & Hca4 & Hacc). split_and!; [by etrans|done|done].
      + intros x s4 (Hs4 & Hca4 & Hx). split_and!; [by etrans|done|]. destruct Hx as [Hx|(u & -> & Hneed & Hno)]; [by left|]. right.
        exists u. split_and!; [done| |done]. destruct Hneed as [-> |Hneed]; [|by right]. right. by exists d, ctor.
    - intros ps s3 [[Hs3 Hca3] Hall]. apply post_ret. split_and!; [by apply frame_chain|done|].
      constructor. intros b (_ & d' & ctor' & Hd' & _ & _ & Hc' & Hb).
      assert (d' = d) as -> by congruence. assert (ctor' = ctor) as -> by congruence.
      apply list_elem_of_lookup in Hb as [i Hb]. by destruct (Forall2_lookup_l _ _ _ _ _ Hall Hb) as (? & _ & ?).
    - intros x s3 (Hs3 & Hca3 & Hx). assert (Hfr : frame s1 (set_chain (fun c => c ∖ {[t]}) s3)) by (by apply frame_chain).
      destruct Hx as [(u & -> & Hx)|(u & -> & Hx)]; (split_and!; [exact Hfr|exact Hca3|]); [left|right]; by exists u. }
  eapply post_weaken; [apply Hnew| |done]. intros site s3 (Hs3 & Hca3 & Hacc). apply post_bind, post_new, post_bind, post_modify, post_ret.
  split_and!; [|apply cache_acyclic_store; [by apply cache_acyclic_new|done]|done].
  etrans; [exact Hs3|]. etrans; [apply (frame_new site)|]. apply frame_store.
Qed.

Lemma cycles_detected n : detects n.
Proof using Hplain.
  induction n as [|n IH]; intros t s Hok; [pose proof (ok_fuel _ _ _ Hok); lia|]. cbn [GetCallSite]. apply post_bind, post_gets.
  pose proof Hok as [Hex Hfuel Hlk Hpath Hca Hbi].
  destruct (callSiteCache s !! (t, DefaultSlot)) as [c|] eqn:E; [apply post_ret; split_and!; [done|done|apply Hca; rewrite E; eauto]|].
  unfold createCallSite, CheckCircularDependency. apply post_bind, post_bind, post_gets.
  destruct (decide (t ∈ chain s)) as [Hin|Hnc].
  { unfold fails, post. split_and!; [done|done|]. left. exists t. split; [done|by apply Hpath]. }
  apply post_ret, post_type_lock; [set_solver|]. set (s1 := set_locks _ s). assert (Hnl : t ∉ typeLocks s) by set_solver.
  apply post_deferred. fold f. destruct (descriptorLookup f !! t) as [dci|] eqn:Elk.
  - destruct (descriptorLookup_Some ds _ _ Elk) as (Hlist & Hwf & Hne). rewrite item_Last_list, Hlist by done.
    destruct (last (registrations ds t)) as [d|] eqn:Ed; [|by apply last_None in Ed].
    eapply post_weaken; [by apply create_plain| |].
    + intros c s2 (Hs2 & ? & ?). split_and!; [by apply frame_lock|done|done].
    + intros x s2 (Hs2 & Hca2 & Hx). pose proof (frame_lock _ _ _ Hnl Hs2) as Hfr.
      destruct Hx as [(u & -> & Hx)|(u & -> & Hx)]; (split_and!; [exact Hfr|exact Hca2|]); [left|right]; by exists u.
  - assert (Hr : registrations ds t = []) by (by apply descriptorLookup_None).
    assert (Hno : IsService f t = false).
    { unfold IsService. rewrite Elk. rewrite bool_decide_eq_false_2 by (by intros []).
      assert (Hnb : ¬ built_in t) by (intros Hb; destruct (Hbi t Hb) as [c Hc]; congruence).
      destruct t as [k p nm|e|e]; cbn; [by apply bool_decide_eq_false_2|by apply bool_decide_eq_false_2|done]. }
    destruct t as [k p nm|e|e]; [| |done]; unfold fails, post; (split_and!; [by apply frame_lock|done|]); right; eexists;
      (split_and!; [done|by left|done]).
Qed.
End cycles.

Lemma size_list_to_set_le `{Countable K} (l : list K) : size (list_to_set l : gset K) <= length l.
Proof.
  induction l as [|x l IH]; [done|]. cbn [list_to_set length]. rewrite size_union_alt, size_singleton.
  assert (size ((list_to_set l : gset K) ∖ {[x]}) <= size (list_to_set l : gset K)) by (apply subseteq_size; set_solver). lia.
Qed.

Lemma no_cycle_reachable {A} (R : A → A → Prop) (t u : A) : Acc (fun b a => R a b) t → rtc R t u → ¬ tc R u u.
Proof.
  intros Hacc Hrtc. assert (Hu : Acc (fun b a => R a b) u).
  { induction Hrtc as [|x y z Hxy _ IH]; [done|]. apply IH. by apply Hacc. }
  clear Hrtc Hacc t. induction Hu as [u _ IH]. intros Hc.
  assert (Hback : ∃ y, R u y ∧ rtc R y u) by (inversion Hc; subst; [eexists; split; [done|constructor]|eexists; split; [done|by apply tc_rtc]]).
  destruct Hback as (y & Hy & Hyu). apply (IH y Hy). eapply tc_rtc_l; [exact Hyu|]. by apply tc_once.
Qed.


(** ** Examples *)
Module Examples.
Definition app (n : string) : rtype := Named Struct "app" n.
Definition iface (n : string) : rtype := Named Interface "app" n.
(** A constructor that makes an object of the type from its arguments. *)
Definition makes (t : rtype) (args : list rtype) : ConstructorInfo := mkCtor args [t] (fun _ => New t (fun v => Return v None)).
Definition service (ptr : nat) (t : rtype) (l : Lifetime) (args : list rtype) (ifaces : list rtype) : Descriptor :=
  mkDescriptor ptr t l (Some (makes t args)) None None ifaces [].
Definition call (ds : list Descriptor) (t : rtype) : res csid := (GetCallSite (newCallSiteFactory ds) 10 t builtInServices).1.

Definition A := Ptr (app "A").
Definition B := Ptr (app "B").
Definition C := Ptr (app "C").
Definition I := iface "I".

(** A needs B and the container; B needs C; C needs nothing. *)
Definition layered : list Descriptor :=
  [service 1 A Lifetime_Scoped [B; ContainerType] []; service 2 B Lifetime_Singleton [C] []; service 3 C Lifetime_Transient [] []].
Fixpoint layered_rank (t : rtype) : nat :=
  match t with
  | SliceOf e => S (layered_rank e)
  | Ptr (Named _ _ n) => if decide (n = "A") then 3 else if decide (n = "B") then 2 else 1
  | _ => 1
  end.

Lemma layered_acyclic : acyclic layered layered_rank.
Proof.
  split.
  - intros d ctor t Hd. unfold layered in Hd. rewrite !elem_of_cons, elem_of_nil in Hd.
    destruct Hd as [-> |[-> |[-> |[]]]]; intros [= <-]; cbn [In makes]; rewrite ?elem_of_cons, elem_of_nil.
    + intros [-> |[-> |[]]]; vm_compute; lia.
    + intros [-> |[]]; vm_compute; lia.
    + by intros [].
  - intros d t Hd. unfold layered in Hd. rewrite !elem_of_cons, elem_of_nil in Hd.
    by destruct Hd as [-> |[-> |[-> |[]]]]; intros ?%elem_of_nil.
  - intros t. cbn. lia.
Qed.

Lemma acyclic_registrations_resolve_witness :
  ∃ c, (GetCallSite (newCallSiteFactory layered) 5 A (requests (newCallSiteFactory layered) 5 [C])).1 = Done c.
Proof.
  destruct (acyclic_registrations_resolve layered layered_rank 5 [C] A) as [_ H].
  - apply layered_acyclic.
  - intros d Hd. unfold layered in Hd. rewrite !elem_of_cons, elem_of_nil in Hd.
    destruct Hd as [-> |[-> |[-> |[]]]]; right; right; by eexists.
  - repeat constructor; vm_compute; lia.
  - vm_compute. lia.
  - apply H. intros u [-> |(d & ctor & Hd & Hc & Hu)]; [reflexivity|].
    unfold layered in Hd. rewrite !elem_of_cons, elem_of_nil in Hd.
    destruct Hd as [-> |[-> |[-> |[]]]]; injection Hc as <-; cbn [In makes] in Hu; rewrite ?elem_of_cons, elem_of_nil in Hu;
      repeat (destruct Hu as [-> |Hu]; [reflexivity|]); done.
Defined.

(** A and B need each other; C needs A. *)
Definition circular : list Descriptor :=
  [service 1 A Lifetime_Singleton [B] []; service 2 B Lifetime_Transient [A] []; service 3 C Lifetime_Scoped [A] []].


(** A circular dependency through an implemented interface is not found: the
    chain has the implementation's type, the mutex is the interface's, and the
    second request for it blocks for ever. *)
Example interface_cycle_deadlocks : call [service 1 A Lifetime_Singleton [I] [I]] A = Fault Stuck.
Proof. reflexivity. Qed.
End Examples.
