(* ===== verification/DiStore.v ===== *)
(** * The dependency injection container: what the call sites say

    For registrations without implemented interfaces and without cycles: the call
    site cached for a type and a slot is made from the registration that the slot
    counts, its parameters are the default call sites of the constructor's argument
    types, and neither ever changes. *)
From stdpp Require Import gmap strings.
From S2P Require Import Prelude GoText Claims Request Di.
From stdpp Require Import options.

(** Same call site, apart from its cached value. *)
Definition same_site (a b : CallSite) : Prop := cs_type b = cs_type a ∧ cs_kind b = cs_kind a ∧ cs_cache b = cs_cache a.

#[export] Instance same_site_preorder : PreOrder same_site.
Proof. split; [by intros a|]. intros a b c (H1 & H2 & H3) (H4 & H5 & H6). unfold same_site. by rewrite H4, H5, H6. Qed.

(** The factory only gets more call sites. *)
Definition extends (s s' : fstate) : Prop :=
  callSiteCache s ⊆ callSiteCache s' ∧
  ∀ c cs, callSites s !! c = Some cs → ∃ cs', callSites s' !! c = Some cs' ∧ same_site cs cs'.

#[export] Instance extends_preorder : PreOrder extends.
Proof.
  split.
  - intros s. split; [done|]. intros c cs Hc. by exists cs.
  - intros s1 s2 s3 [H1 H2] [H3 H4]. split; [by etrans|]. intros c cs Hc. destruct (H2 c cs Hc) as (cs' & Hc' & Hs).
    destruct (H4 c cs' Hc') as (cs'' & Hc'' & Hs'). exists cs''. split; [done|by etrans].
Qed.

(** Registrations that name no implemented interfaces and have no cycle. *)
Record simple (ds : list Descriptor) (rank : rtype → nat) : Prop := {
  simple_acyclic : acyclic ds rank;
  simple_ifaces d : d ∈ ds → ImplementedInterfaceTypes d = [];
  simple_ptr d d' : d ∈ ds → d' ∈ ds → d_ptr d = d_ptr d' → d = d' }.

Section store.
Context (ds : list Descriptor) (rank : rtype → nat) (Hsim : simple ds rank).
Let f := newCallSiteFactory ds.

(** The registration a slot counts: the last one has slot 0. *)
Definition nth_registration (t : rtype) (slot : nat) : option Descriptor := reverse (registrations ds t) !! slot.

Definition slice_site (s : fstate) (e : rtype) (cs : CallSite) : Prop :=
  cs_type cs = SliceOf e ∧ registrations ds (SliceOf e) = [] ∧
  (∃ css, cs_kind cs = SliceCallSite e css ∧
     Forall2 (fun slot c => callSiteCache s !! (e, slot) = Some c) (reverse (seq 0 (length (registrations ds e)))) css) ∧
  (cs_cache cs = NoneResultCache ∨
   ∃ loc, (loc = CacheLocation_Root ∨ loc = CacheLocation_Scope) ∧ cs_cache cs = mkCache loc (Some (SliceOf e, DefaultSlot))).

(** The call site for an argument of type [t]. *)
Definition arg_site (s : fstate) (t : rtype) (c : csid) : Prop :=
  callSiteCache s !! (t, DefaultSlot) = Some c ∨
  ∃ e cs, t = SliceOf e ∧ callSites s !! c = Some cs ∧ slice_site s e cs.

Definition made_from (s : fstate) (d : Descriptor) (slot : nat) (cs : CallSite) : Prop :=
  let cache := newResultCacheWithLifetime (d_Lifetime d) (ServiceType d) slot in
  cs_type cs = ServiceType d ∧
  match d_Instance d, d_Factory d, d_Ctor d with
  | Some v, _, _ => cs_kind cs = ConstantCallSite v ∧ cs_cache cs = NoneResultCache
  | None, Some factory, _ => cs_kind cs = FactoryCallSite factory ∧ cs_cache cs = cache
  | None, None, Some ctor => cs_cache cs = cache ∧ ∃ params, cs_kind cs = ConstructorCallSite ctor params ∧ Forall2 (arg_site s) (In ctor) params
  | None, None, None => False
  end.

Definition built_in_site (t : rtype) (slot : nat) (cs : CallSite) : Prop :=
  built_in t ∧ slot = DefaultSlot ∧ cs_type cs = t ∧ cs_cache cs = NoneResultCache ∧
  (cs_kind cs = ContainerCallSite ∨ ∃ v, cs_kind cs = ConstantCallSite v).

Definition registered_site (s : fstate) (t : rtype) (slot : nat) (cs : CallSite) : Prop :=
  built_in_site t slot cs ∨ ∃ d, nth_registration t slot = Some d ∧ made_from s d slot cs.

(** The call sites that a call site visits. *)
Definition children (cs : CallSite) : list csid :=
  match cs_kind cs with ConstructorCallSite _ params => params | SliceCallSite _ css => css | _ => [] end.

Record store_ok (s : fstate) : Prop := {
  ok_cached t slot c : callSiteCache s !! (t, slot) = Some c → ∃ cs, callSites s !! c = Some cs ∧ registered_site s t slot cs;
  ok_sites c cs : callSites s !! c = Some cs → (∃ t slot, registered_site s t slot cs) ∨ ∃ e, slice_site s e cs;
  ok_values c cs v : callSites s !! c = Some cs → cs_value cs = Some v →
    Location (cs_cache cs) = CacheLocation_Root ∨ Location (cs_cache cs) = CacheLocation_Scope;
  ok_order c cs p : callSites s !! c = Some cs → p ∈ children cs → p < c;
  ok_built_in : has_built_ins s }.

Lemma registration_facts t slot d : nth_registration t slot = Some d → d ∈ ds ∧ ServiceType d = t.
Proof using Hsim.
  intros Hd%list_elem_of_lookup_2. rewrite elem_of_reverse in Hd. destruct (registrations_elem ds t d Hd) as [Hin [Ht|Ht]]; [done|].
  rewrite (simple_ifaces _ _ Hsim d Hin) in Ht. by apply elem_of_nil in Ht.
Qed.

Lemma slice_site_extends s s' e cs cs' : extends s s' → same_site cs cs' → slice_site s e cs → slice_site s' e cs'.
Proof.
  intros [Hc _] (H1 & H2 & H3) (Ht & Hr & (css & Hk & Hall) & Hcache). unfold slice_site. rewrite H1, H2, H3. split_and!; [done|done| |done].
  exists css. split; [done|]. eapply Forall2_impl; [done|]. intros slot c Hs. exact (lookup_weaken _ _ _ _ Hs Hc).
Qed.

Lemma arg_site_extends s s' t c : extends s s' → arg_site s t c → arg_site s' t c.
Proof.
  intros Hext [Ha|(e & cs & -> & Hc & Hs)].
  - left. eapply lookup_weaken; [done|by apply Hext].
  - right. destruct (proj2 Hext c cs Hc) as (cs' & Hc' & Hss). exists e, cs'. split_and!; [done|done|]. by eapply slice_site_extends.
Qed.

Lemma made_from_extends s s' d slot cs cs' : extends s s' → same_site cs cs' → made_from s d slot cs → made_from s' d slot cs'.
Proof.
  intros Hext (H1 & H2 & H3) [Ht Hm]. unfold made_from. rewrite H1, H2, H3. split; [done|].
  destruct (d_Instance d) as [?|], (d_Factory d) as [?|], (d_Ctor d) as [ctor|]; try done. destruct Hm as (Hc & params & Hk & Hall). split; [done|].
  exists params. split; [done|]. eapply Forall2_impl; [done|]. intros t0 c0. by apply arg_site_extends.
Qed.

Lemma registered_site_extends s s' t slot cs cs' : extends s s' → same_site cs cs' → registered_site s t slot cs → registered_site s' t slot cs'.
Proof.
  intros Hext Hss [Hb|(d & Hd & Hm)]; [left|right].
  - destruct Hss as (H1 & H2 & H3). unfold built_in_site in *. by rewrite H1, H2, H3.
  - exists d. split; [done|]. by eapply made_from_extends.
Qed.

(** Of the values cached in call sites, only where they are cached matters. *)
Lemma store_ok_values s s' :
  store_ok s → extends s s' → callSiteCache s' = callSiteCache s → length (callSites s') = length (callSites s) →
  (∀ c cs v, callSites s' !! c = Some cs → cs_value cs = Some v →
     Location (cs_cache cs) = CacheLocation_Root ∨ Location (cs_cache cs) = CacheLocation_Scope) → store_ok s'.
Proof.
  intros Hs Hext Hc Hl Hv. split.
  - intros t slot c Hk. rewrite Hc in Hk. destruct (ok_cached s Hs _ _ _ Hk) as (cs & Hcs & Hr).
    destruct (proj2 Hext c cs Hcs) as (cs' & Hcs' & Hss). exists cs'. split; [done|]. by eapply registered_site_extends.
  - intros c cs' Hcs'. assert (Hlt : c < length (callSites s)) by (rewrite <- Hl; by eapply lookup_lt_Some).
    destruct (lookup_lt_is_Some_2 _ _ Hlt) as [cs Hcs]. destruct (proj2 Hext c cs Hcs) as (cs'' & Hcs'' & Hss). rewrite Hcs' in Hcs''.
    injection Hcs'' as <-. destruct (ok_sites s Hs c cs Hcs) as [(t & slot & Hr)|(e & He)].
    + left. exists t, slot. by eapply registered_site_extends.
    + right. exists e. by eapply slice_site_extends.
  - exact Hv.
  - intros c cs' p Hcs'. assert (Hlt : c < length (callSites s)) by (rewrite <- Hl; by eapply lookup_lt_Some).
    destruct (lookup_lt_is_Some_2 _ _ Hlt) as [cs Hcs]. destruct (proj2 Hext c cs Hcs) as (cs'' & Hcs'' & _ & Hk & _). rewrite Hcs' in Hcs''.
    injection Hcs'' as <-. unfold children. rewrite Hk. apply (ok_order s Hs c cs p Hcs).
  - intros t Ht. rewrite Hc. by apply (ok_built_in s Hs).
Qed.

Lemma extends_new s c : extends s (mkF (callSites s ++ [c]) (callSiteCache s) (typeLocks s) (chain s)).
Proof. split; [done|]. intros c' cs Hc. exists cs. split; [|done]. by apply lookup_app_l_Some. Qed.

Lemma extends_store s k c : callSiteCache s !! k = None → extends s (store_key k c s).
Proof. intros Hk. split; [by apply insert_subseteq|]. intros c' cs Hc. by exists cs. Qed.

Lemma extends_control s g h : extends s (mkF (callSites s) (callSiteCache s) g h).
Proof. split; [done|]. intros c cs Hc. by exists cs. Qed.

Lemma store_ok_control s g h : store_ok s → store_ok (mkF (callSites s) (callSiteCache s) g h).
Proof. intros Hs. apply (store_ok_values s); [done|apply extends_control|done|done|apply (ok_values s Hs)]. Qed.

Lemma children_exist s cs p :
  store_ok s → ((∃ t slot, registered_site s t slot cs) ∨ ∃ e, slice_site s e cs) → p ∈ children cs → is_Some (callSites s !! p).
Proof.
  assert (Hcached : store_ok s → ∀ t slot c, callSiteCache s !! (t, slot) = Some c → is_Some (callSites s !! c)).
  { intros Hs t slot c Hc. destruct (ok_cached s Hs _ _ _ Hc) as (cs' & ? & _). by exists cs'. }
  intros Hs Hcs Hp. unfold children in Hp. destruct Hcs as [(t & slot & [Hb|(d & _ & _ & Hm)])|(e & _ & _ & (css & Hk & Hall) & _)].
  - destruct Hb as (_ & _ & _ & _ & [Hk|[v Hk]]); rewrite Hk in Hp; by apply elem_of_nil in Hp.
  - destruct (d_Instance d) as [v|]; [destruct Hm as [Hk _]; rewrite Hk in Hp; by apply elem_of_nil in Hp|].
    destruct (d_Factory d) as [fac|]; [destruct Hm as [Hk _]; rewrite Hk in Hp; by apply elem_of_nil in Hp|].
    destruct (d_Ctor d) as [ctor|]; [|done]. destruct Hm as (_ & params & Hk & Hall). rewrite Hk in Hp.
    apply list_elem_of_lookup in Hp as [i Hp]. destruct (Forall2_lookup_r _ _ _ _ _ Hall Hp) as (u & _ & [Ha|(e & cs' & _ & Hc' & _)]).
    + by eapply Hcached.
    + by exists cs'.
  - rewrite Hk in Hp. apply list_elem_of_lookup in Hp as [i Hp]. destruct (Forall2_lookup_r _ _ _ _ _ Hall Hp) as (slot & _ & Hc). by eapply Hcached.
Qed.

(** A new call site, by what it is. *)
Lemma store_ok_new s cs :
  store_ok s → cs_value cs = None → ((∃ t slot, registered_site s t slot cs) ∨ ∃ e, slice_site s e cs) →
  store_ok (mkF (callSites s ++ [cs]) (callSiteCache s) (typeLocks s) (chain s)).
Proof.
  intros Hs Hnv Hcs. pose proof (extends_new s cs) as Hext. split.
  - intros t slot c Hk. destruct (ok_cached s Hs _ _ _ Hk) as (cs' & Hc' & Hr). exists cs'. split; [by apply lookup_app_l_Some|].
    by eapply registered_site_extends.
  - intros c cs' Hc'. assert (Hor : (∃ t slot, registered_site s t slot cs') ∨ ∃ e, slice_site s e cs').
    { apply lookup_app_Some in Hc' as [Hc'|[_ Hc']]; [by eapply ok_sites|]. apply list_lookup_singleton_Some in Hc' as [_ <-]. done. }
    destruct Hor as [(t & slot & Hr)|(e & He)]; [left; exists t, slot|right; exists e].
    + by eapply registered_site_extends.
    + by eapply slice_site_extends.
  - intros c cs' v [Hc'|[_ Hc']]%lookup_app_Some Hv; [by eapply (ok_values s Hs)|].
    apply list_lookup_singleton_Some in Hc' as [_ <-]. congruence.
  - intros c cs' p [Hc'|[Hge Hc']]%lookup_app_Some Hp; [by eapply (ok_order s Hs)|].
    apply list_lookup_singleton_Some in Hc' as [_ <-]. pose proof (children_exist s cs p Hs Hcs Hp) as [x Hx]. apply lookup_lt_Some in Hx. lia.
  - apply (ok_built_in s Hs).
Qed.

Lemma store_ok_store s t slot c cs :
  store_ok s → callSiteCache s !! (t, slot) = None → callSites s !! c = Some cs → registered_site s t slot cs →
  store_ok (store_key (t, slot) c s).
Proof.
  intros Hs Hk Hc Hr. pose proof (extends_store s (t, slot) c Hk) as Hext. split.
  - intros t' slot' c'. cbn. intros [[He <-]|[Hne Hl]]%lookup_insert_Some.
    + injection He as <- <-. exists cs. split; [done|]. by eapply registered_site_extends.
    + destruct (ok_cached s Hs _ _ _ Hl) as (cs' & Hc' & Hr'). exists cs'. split; [done|]. by eapply registered_site_extends.
  - intros c' cs' Hc'. destruct (ok_sites s Hs c' cs' Hc') as [(t' & slot' & Hr')|(e & He)]; [left; exists t', slot'|right; exists e].
    + by eapply registered_site_extends.
    + by eapply slice_site_extends.
  - apply (ok_values s Hs).
  - apply (ok_order s Hs).
  - intros u Hu. destruct (ok_built_in s Hs u Hu) as [c' Hc']. exists c'. eapply lookup_weaken; [done|]. apply Hext.
Qed.

(** *** The factory keeps the store so *)

(** More call sites, and new keys only for types below [r]. *)
Definition grown (r : nat) (s s' : fstate) : Prop :=
  callSites s `prefix_of` callSites s' ∧ callSiteCache s ⊆ callSiteCache s' ∧
  ∀ k, callSiteCache s !! k = None → is_Some (callSiteCache s' !! k) → rank k.1 < r.

#[local] Instance grown_preorder r : PreOrder (grown r).
Proof.
  split; [intros s; split_and!; [done|done|]; intros k -> []; done|]. intros s1 s2 s3 (H1 & H2 & H3) (H4 & H5 & H6).
  split_and!; [by etrans|by etrans|]. intros k Hk Hs. destruct (callSiteCache s2 !! k) as [c|] eqn:E; [|by apply H6].
  apply H3; [done|by rewrite E].
Qed.

Lemma grown_mono r r' s s' : grown r s s' → r <= r' → grown r' s s'.
Proof. intros (H1 & H2 & H3) Hr. split_and!; [done|done|]. intros k Hk Hs. specialize (H3 k Hk Hs). lia. Qed.

Lemma grown_extends r s s' : grown r s s' → extends s s'.
Proof. intros (H1 & H2 & _). split; [done|]. intros c cs Hc. exists cs. split; [by eapply prefix_lookup_Some|done]. Qed.

Lemma grown_control r s s' g h : grown r s s' → grown r s (mkF (callSites s') (callSiteCache s') g h).
Proof. done. Qed.

Lemma grown_self r s g h : grown r s (mkF (callSites s) (callSiteCache s) g h).
Proof. apply grown_control. reflexivity. Qed.

Lemma grown_new r s c : grown r s (mkF (callSites s ++ [c]) (callSiteCache s) (typeLocks s) (chain s)).
Proof. split_and!; [by apply prefix_app_r|done|]. cbn. intros k -> []; done. Qed.

Lemma grown_store r s k c : callSiteCache s !! k = None → rank k.1 < r → grown r s (store_key k c s).
Proof.
  intros Hk Hr. split_and!; [done|by apply insert_subseteq|]. cbn. intros k' Hk' [c' Hs].
  apply lookup_insert_Some in Hs as [[<- _]|[_ Hs]]; [done|congruence].
Qed.

Definition store_call (r : nat) (t : rtype) (m : M fstate csid) (s : fstate) : Prop :=
  post m s (fun c s' => store_ok s' ∧ grown r s s' ∧ arg_site s' t c) (fun _ s' => store_ok s' ∧ grown r s s').

Section step.
Context (n : nat) (IH : ∀ t s, store_ok s → store_call (S (rank t)) t (GetCallSite f n t) s).

Lemma new_exact_store d slot s :
  d ∈ ds → store_ok s →
  post (new_exact (GetCallSite f n) d slot) s
    (fun cs s' => store_ok s' ∧ grown (rank (ServiceType d)) s s' ∧ cs_value cs = None ∧ made_from s' d slot cs)
    (fun _ s' => store_ok s' ∧ grown (rank (ServiceType d)) s s').
Proof using IH Hsim.
  intros Hd Hs. unfold new_exact, made_from. destruct (d_Instance d) as [v|]; [by apply post_ret|].
  destruct (d_Factory d) as [fac|]; [by apply post_ret|]. destruct (d_Ctor d) as [ctor|] eqn:Ec; [|done].
  unfold createConstructorCallSite. apply post_bind, post_modify, post_deferred.
  destruct (decide (In ctor = [])) as [He|He].
  { apply post_ret. split_and!; [exact (store_ok_control s _ _ Hs)|exact (grown_self _ s _ _)|done|done|done|]. exists []. rewrite He. by split. }
  set (s1 := set_chain _ s). apply post_bind. eapply post_weaken;
    [apply (post_mapM_stable _ _ s1 store_ok (grown (rank (ServiceType d))) arg_site
      (fun _ s' => store_ok s' ∧ grown (rank (ServiceType d)) s s'))| |].
  - intros s2 s3 a c Hg. apply arg_site_extends. by eapply grown_extends.
  - exact (store_ok_control s _ _ Hs).
  - intros a s2 Ha Hs2 Hg2. pose proof (acyclic_ctor _ _ (simple_acyclic _ _ Hsim) _ _ _ Hd Ec Ha) as Hr.
    eapply post_weaken; [by apply IH| |].
    + intros c s3 (Hs3 & Hg3 & Ha3). split_and!; [done|by eapply grown_mono|done].
    + intros x s3 (Hs3 & Hg3). split; [done|]. etrans; [exact Hg2|]. by eapply grown_mono.
  - intros ps s2 (Hs2 & Hg2 & Hall). apply post_ret. split_and!; [exact (store_ok_control s2 _ _ Hs2)|done|done|done|done|].
    exists ps. split; [done|]. eapply Forall2_impl; [done|]. intros t c. apply arg_site_extends, extends_control.
  - intros x s2 (Hs2 & Hg2). pose proof (store_ok_control s2 (typeLocks s2) (chain s2 ∖ {[ServiceType d]}) Hs2). by destruct x.
Qed.

Lemma tryCreateExact_store d slot s :
  nth_registration (ServiceType d) slot = Some d → store_ok s →
  post (tryCreateExact (GetCallSite f n) d slot) s
    (fun c s' => store_ok s' ∧ grown (S (rank (ServiceType d))) s s' ∧ callSiteCache s' !! (ServiceType d, slot) = Some c)
    (fun _ s' => store_ok s' ∧ grown (S (rank (ServiceType d))) s s').
Proof using IH Hsim.
  intros Hd Hs. destruct (registration_facts _ _ _ Hd) as [Hin _]. unfold tryCreateExact. apply post_bind, post_gets.
  destruct (callSiteCache s !! _) as [c|] eqn:E; [by apply post_ret|]. apply post_bind.
  eapply post_weaken; [by apply (new_exact_store d slot)| |].
  - intros cs s1 (Hs1 & Hg1 & Hnv & Hm). apply post_bind, post_new, post_bind, post_modify, post_ret.
    assert (Hnone : callSiteCache s1 !! (ServiceType d, slot) = None).
    { destruct (callSiteCache s1 !! (ServiceType d, slot)) eqn:E1; [|done]. destruct Hg1 as (_ & _ & Hb).
      specialize (Hb (ServiceType d, slot) E ltac:(rewrite E1; eauto)). simpl in Hb. lia. }
    assert (Hreg : registered_site s1 (ServiceType d) slot cs) by (right; by exists d).
    split_and!.
    + eapply store_ok_store; [apply store_ok_new; [done|done|left; by exists (ServiceType d), slot]|done| |].
      * cbn. by rewrite lookup_app_r, Nat.sub_diag by done.
      * eapply registered_site_extends; [apply extends_new|done|done].
    + etrans; [eapply grown_mono; [exact Hg1|lia]|]. etrans; [apply (grown_new _ _ cs)|]. apply grown_store; [done|simpl; lia].
    + cbn. by rewrite lookup_insert_eq.
  - intros x s1 (Hs1 & Hg1). split; [done|]. eapply grown_mono; [done|lia].
Qed.

Lemma slice_loop_store e dci i loc s :
  descriptorLookup f !! e = Some dci → store_ok s → i <= length (registrations ds e) →
  post (slice_loop (GetCallSite f n) dci (seq i (length (registrations ds e) - i)) loc) s
    (fun r s' => store_ok s' ∧ grown (S (rank e)) s s' ∧
       Forall2 (fun slot c => callSiteCache s' !! (e, slot) = Some c) (reverse (seq 0 (length (registrations ds e) - i))) r.2)
    (fun _ s' => store_ok s' ∧ grown (S (rank e)) s s').
Proof using IH Hsim.
  intros Hlk. destruct (descriptorLookup_Some ds _ _ Hlk) as (Hlist & Hwf & _). set (num := length (registrations ds e)).
  remember (num - i) as k eqn:Hk. revert i loc s Hk. induction k as [|k IHk]; intros i loc s Hk Hs Hi.
  { apply post_ret. split_and!; [done|done|constructor]. }
  change (seq i (S k)) with (i :: seq (S i) k). cbn [slice_loop]. rewrite item_Get_list by done. rewrite Hlist.
  destruct (lookup_lt_is_Some_2 (registrations ds e) i) as [d Hd]; [unfold num in *; lia|]. rewrite Hd.
  rewrite item_Num_list, Hlist by done. fold num.
  assert (Hnth : nth_registration e (num - i - 1) = Some d).
  { unfold nth_registration. rewrite reverse_lookup_Some. replace (length (registrations ds e) - S (num - i - 1)) with i by (unfold num in *; lia).
    split; [done|unfold num; lia]. }
  destruct (registration_facts _ _ _ Hnth) as [_ Ht]. subst e.
  apply post_bind. eapply post_weaken; [by apply (tryCreateExact_store d (num - i - 1))| |done].
  intros c s1 (Hs1 & Hg1 & Hc1). apply post_bind, post_gets, post_bind.
  eapply post_weaken; [apply (IHk (S i)); [lia|done|unfold num in *; lia]| |].
  - intros r s2 (Hs2 & Hg2 & Hall). apply post_ret. split_and!; [done|by etrans|]. cbn [snd].
    replace (seq 0 (S k)) with (seq 0 k ++ [k]) by (by rewrite <- (Nat.add_1_r k), seq_app). rewrite reverse_snoc. constructor; [|done].
    replace (num - i - 1) with k in Hc1 by lia. eapply lookup_weaken; [done|by apply Hg2].
  - intros x s2 (Hs2 & Hg2). split; [done|by etrans].
Qed.

Lemma createCallSite_store t s :
  store_ok s → callSiteCache s !! (t, DefaultSlot) = None → store_call (S (rank t)) t (createCallSite f (GetCallSite f n) t) s.
Proof using IH Hsim.
  intros Hs Hnone. unfold createCallSite, CheckCircularDependency. apply post_bind, post_bind, post_gets.
  case_decide; [done|]. apply post_ret. destruct (decide (t ∈ typeLocks s)) as [Hl|Hl].
  { unfold store_call, post, with_type_lock. by rewrite decide_True. }
  apply post_type_lock; [done|]. set (s1 := set_locks _ s). assert (Hs1 : store_ok s1) by exact (store_ok_control s _ _ Hs).
  apply post_deferred.
  enough (Hin : store_call (S (rank t)) t (match descriptorLookup f !! t with
    | Some dci => match item_Last dci with Some d => tryCreateExact (GetCallSite f n) d DefaultSlot
                  | None => panics (DiError "invalid memory address or nil pointer dereference") end
    | None => match t with SliceOf _ => createSlice f (GetCallSite f n) t | _ => fails (ServiceNotFound t) end end) s1).
  { eapply post_weaken; [exact Hin| |].
    - intros c s2 (Hs2 & Hg2 & Ha2). split_and!; [exact (store_ok_control s2 _ _ Hs2)|done|]. eapply arg_site_extends; [apply extends_control|done].
    - intros x s2 (Hs2 & Hg2). pose proof (store_ok_control s2 (typeLocks s2 ∖ {[t]}) (chain s2) Hs2). by destruct x. }
  destruct (descriptorLookup f !! t) as [dci|] eqn:Elk.
  - destruct (descriptorLookup_Some ds _ _ Elk) as (Hlist & Hwf & Hne). rewrite item_Last_list, Hlist by done.
    destruct (last (registrations ds t)) as [d|] eqn:Ed; [|by apply last_None in Ed].
    assert (Hnth : nth_registration t DefaultSlot = Some d) by (unfold nth_registration, DefaultSlot; by rewrite <- head_lookup, head_reverse).
    destruct (registration_facts _ _ _ Hnth) as [_ Ht]. subst t.
    eapply post_weaken; [by apply (tryCreateExact_store d)| |done]. intros c s2 (Hs2 & Hg2 & Hc). split_and!; [done|done|by left].
  - assert (Hr0 : registrations ds t = []) by (by apply descriptorLookup_None).
    destruct t as [k p nm|e|e]; [done|done|]. unfold createSlice. apply post_bind, post_gets. cbn. rewrite Hnone.
    apply post_bind, post_modify, post_deferred. set (s2 := set_chain _ s1).
    assert (Hs2 : store_ok s2) by exact (store_ok_control s1 _ _ Hs1). apply post_bind.
    pose proof (acyclic_slice _ _ (simple_acyclic _ _ Hsim) e) as Hrs.
    assert (Hloop : post (match descriptorLookup f !! e with
        | Some dci => slice_loop (GetCallSite f n) dci (seq 0 (item_Num dci)) CacheLocation_Root
        | None => mret (CacheLocation_Root, []) end) s2
      (fun r s' => store_ok s' ∧ grown (S (rank e)) s2 s' ∧
         Forall2 (fun slot c => callSiteCache s' !! (e, slot) = Some c) (reverse (seq 0 (length (registrations ds e)))) r.2)
      (fun _ s' => store_ok s' ∧ grown (S (rank e)) s2 s')).
    { destruct (descriptorLookup f !! e) as [dci|] eqn:Ee.
      - destruct (descriptorLookup_Some ds _ _ Ee) as (Hlist & Hwf & _). rewrite item_Num_list, Hlist by done.
        pose proof (slice_loop_store e dci 0 CacheLocation_Root s2 Ee Hs2 (Nat.le_0_l _)) as Hl0. by rewrite Nat.sub_0_r in Hl0.
      - apply post_ret. assert (Hr1 : registrations ds e = []) by (by apply descriptorLookup_None). rewrite Hr1.
        split_and!; [done|done|constructor]. }
    eapply post_weaken; [exact Hloop| |].
    + intros r s3 (Hs3 & Hg3 & Hall). apply post_new.
      match goal with |- context [mkCallSite (SliceOf e) (SliceCallSite e r.2) ?rc None] => set (cs := mkCallSite (SliceOf e) (SliceCallSite e r.2) rc None) end.
      assert (Hcs : slice_site s3 e cs).
      { unfold slice_site, cs. cbn. split_and!; [done|done|by exists r.2|]. case_decide as Hd; [right; exists r.1; split; [|done]; tauto|by left]. }
      pose proof (store_ok_new s3 cs Hs3 eq_refl (or_intror (ex_intro _ e Hcs))) as Hs4. split_and!.
      * exact (store_ok_control _ _ _ Hs4).
      * etrans; [eapply grown_mono; [exact Hg3|lia]|]. apply grown_control. apply (grown_new _ s3 cs).
      * right. exists e, cs. split_and!; [done| |].
        -- cbn. by rewrite lookup_app_r, Nat.sub_diag by done.
        -- eapply slice_site_extends; [|done|exact Hcs]. etrans; [apply (extends_new s3 cs)|]. apply extends_control.
    + intros x s3 (Hs3 & Hg3). pose proof (store_ok_control s3 (typeLocks s3) (chain s3 ∖ {[SliceOf e]}) Hs3) as Hs4.
      assert (Hg4 : grown (S (rank (SliceOf e))) s1 s3) by (eapply grown_mono; [exact Hg3|lia]). by destruct x.
Qed.
End step.

Lemma GetCallSite_store n t s : store_ok s → store_call (S (rank t)) t (GetCallSite f n t) s.
Proof using Hsim.
  revert t s. induction n as [|n IH]; intros t s Hs; [done|]. cbn [GetCallSite]. apply post_bind, post_gets.
  destruct (callSiteCache s !! (t, DefaultSlot)) as [c|] eqn:E; [apply post_ret; split_and!; [done|done|by left]|].
  by apply createCallSite_store.
Qed.

(** The type of an argument's call site. *)
Lemma arg_site_type s t c : store_ok s → arg_site s t c → ∃ cs, callSites s !! c = Some cs ∧ cs_type cs = t.
Proof using Hsim.
  intros Hs [Hc|(e & cs & -> & Hc & Ht & _)]; [|by exists cs].
  destruct (ok_cached s Hs _ _ _ Hc) as (cs & Hcs & [(_ & _ & Ht & _)|(d & Hd & Hm)]); exists cs; (split; [done|]); [done|].
  destruct (registration_facts _ _ _ Hd) as [_ <-]. apply Hm.
Qed.

Lemma cached_type s t slot c : store_ok s → callSiteCache s !! (t, slot) = Some c → ∃ cs, callSites s !! c = Some cs ∧ cs_type cs = t.
Proof using Hsim.
  intros Hs Hc. destruct (ok_cached s Hs _ _ _ Hc) as (cs & Hcs & [(_ & _ & Ht & _)|(d & Hd & Hm)]); exists cs; (split; [done|]); [done|].
  destruct (registration_facts _ _ _ Hd) as [_ <-]. apply Hm.
Qed.

(** What a call site visits is below it. *)
Lemma site_children s c cs :
  store_ok s → callSites s !! c = Some cs →
  match cs_kind cs with
  | ConstructorCallSite ctor params => Forall2 (arg_site s) (In ctor) params ∧ ∀ t, t ∈ In ctor → rank t < rank (cs_type cs)
  | SliceCallSite e css => rank e < rank (cs_type cs) ∧ ∀ p, p ∈ css → ∃ slot, callSiteCache s !! (e, slot) = Some p
  | _ => True
  end.
Proof using Hsim.
  intros Hs Hc. destruct (ok_sites s Hs c cs Hc) as [(t & slot & [Hb|(d & Hd & Ht & Hm)])|(e & Ht & _ & (css & Hk & Hall) & _)].
  - destruct Hb as (_ & _ & _ & _ & [-> |[v ->]]); done.
  - destruct (registration_facts _ _ _ Hd) as [Hin _]. rewrite Ht.
    destruct (d_Instance d) as [v|]; [by destruct Hm as [-> _]|]. destruct (d_Factory d) as [fac|]; [by destruct Hm as [-> _]|].
    destruct (d_Ctor d) as [ctor|] eqn:Ec; [|done]. destruct Hm as (_ & params & -> & Hall). split; [done|].
    intros t' Ht'. by eapply (acyclic_ctor _ _ (simple_acyclic _ _ Hsim)).
  - rewrite Hk, Ht. split; [apply (acyclic_slice _ _ (simple_acyclic _ _ Hsim))|]. intros p [i Hp]%list_elem_of_lookup.
    destruct (Forall2_lookup_r _ _ _ _ _ Hall Hp) as (slot & _ & Hs'). by exists slot.
Qed.

(** Scoped and singleton call sites are cached under their own type. *)
Lemma site_key s c cs :
  store_ok s → callSites s !! c = Some cs → Location (cs_cache cs) ≠ CacheLocation_None →
  ∃ slot, Key (cs_cache cs) = Some (cs_type cs, slot).
Proof using Hsim.
  intros Hs Hc Hl. destruct (ok_sites s Hs c cs Hc) as [(t & slot & [Hb|(d & Hd & Ht & Hm)])|(e & Ht & _ & _ & [He|(loc & _ & He)])].
  - destruct Hb as (_ & _ & _ & He & _). by rewrite He in Hl.
  - rewrite Ht. destruct (d_Instance d) as [v|]; [destruct Hm as [_ He]; by rewrite He in Hl|].
    destruct (d_Factory d) as [fac|]; [destruct Hm as [_ ->]; by exists slot|].
    destruct (d_Ctor d) as [ctor|]; [|done]. destruct Hm as [-> _]. by exists slot.
  - by rewrite He in Hl.
  - rewrite He, Ht. by exists DefaultSlot.
Qed.

(** The default call site of a registered type. *)
Lemma default_site s t c cs d :
  store_ok s → ¬ built_in t → nth_registration t DefaultSlot = Some d → arg_site s t c → callSites s !! c = Some cs →
  callSiteCache s !! (t, DefaultSlot) = Some c ∧ made_from s d DefaultSlot cs.
Proof using Hsim.
  intros Hs Hnb Hd Ha Hc. assert (Hcache : callSiteCache s !! (t, DefaultSlot) = Some c).
  { destruct Ha as [Ha|(e & cs' & -> & _ & _ & Hr & _)]; [done|]. unfold nth_registration in Hd. rewrite Hr in Hd. done. }
  split; [done|]. destruct (ok_cached s Hs _ _ _ Hcache) as (cs' & Hc' & Hr). rewrite Hc in Hc'. injection Hc' as <-.
  destruct Hr as [Hb|(d' & Hd' & Hm)]; [by destruct Hb|]. rewrite Hd in Hd'. by injection Hd' as <-.
Qed.

Lemma store_ok_init : store_ok builtInServices.
Proof using ds.
  assert (Hsite : ∀ c cs, callSites builtInServices !! c = Some cs → built_in_site (cs_type cs) DefaultSlot cs ∧
    callSiteCache builtInServices !! (cs_type cs, DefaultSlot) = Some c).
  { intros [|[|[|c]]] cs Hc; simpl in Hc; simplify_eq; 
      (split; [split_and!; [unfold built_in; rewrite !elem_of_cons; tauto|done|done|done|]; simpl|reflexivity]);
      [by left|right; by eexists|right; by eexists]. }
  split.
  - intros t slot c Hc. assert (Hcs : ∃ cs, callSites builtInServices !! c = Some cs ∧ cs_type cs = t ∧ slot = DefaultSlot).
    { cbn in Hc. repeat (apply lookup_insert_Some in Hc as [[? <-]|[_ Hc]]; [simplify_eq; eexists; by split_and!|]).
      apply lookup_singleton_Some in Hc as [? <-]. simplify_eq. eexists; by split_and!. }
    destruct Hcs as (cs & Hcs & <- & ->). exists cs. split; [done|]. left. by apply (Hsite c).
  - intros c cs Hc. left. exists (cs_type cs), DefaultSlot. left. by apply (Hsite c).
  - intros [|[|[|c]]] cs v Hc; simpl in Hc; by simplify_eq.
  - intros [|[|[|c]]] cs p Hc; simpl in Hc; simplify_eq; by intros ?%elem_of_nil.
  - apply has_built_ins_init.
Qed.

Lemma index_of_ptr_Some p l i : index_of_ptr p l = Some i → ∃ d, l !! i = Some d ∧ d_ptr d = p.
Proof.
  revert i. induction l as [|d l IH]; intros i; cbn [index_of_ptr]; [done|]. case_decide as Hd; [intros [= <-]; by exists d|].
  destruct (index_of_ptr p l) as [j|] eqn:E; [|done]. intros [= <-]. by destruct (IH j eq_refl) as (d' & ? & ?); exists d'.
Qed.

Lemma GetSlot_registration d dci slot :
  d ∈ ds → descriptorLookup f !! ServiceType d = Some dci → item_GetSlot dci d = Some slot → nth_registration (ServiceType d) slot = Some d.
Proof using Hsim.
  intros Hd Hlk. destruct (descriptorLookup_Some ds _ _ Hlk) as (Hlist & Hwf & Hne). unfold item_GetSlot.
  assert (Hsame : ∀ i d', registrations ds (ServiceType d) !! i = Some d' → d_ptr d' = d_ptr d → d' = d).
  { intros i d' Hi Hp. apply list_elem_of_lookup_2 in Hi. destruct (registrations_elem ds _ _ Hi) as [Hin _].
    by apply (simple_ptr _ _ Hsim). }
  unfold item_list in Hlist. destruct (item dci) as [d0|] eqn:E0; [|by rewrite <- Hlist in Hne].
  unfold nth_registration. rewrite <- Hlist. case_decide as Hp; intros Hs.
  - injection Hs as <-. unfold item_Num. rewrite E0. rewrite reverse_lookup_Some. cbn [length]. split; [|lia].
    replace (S (length (items dci)) - S (S (length (items dci)) - 1)) with 0 by lia. cbn. f_equal. injection Hp as Hp.
    apply (Hsame 0); [by rewrite <- Hlist|done].
  - destruct (index_of_ptr (d_ptr d) (items dci)) as [i|] eqn:Ei; [|done]. injection Hs as <-.
    destruct (index_of_ptr_Some _ _ _ Ei) as (d' & Hi & Hp'). pose proof (lookup_lt_Some _ _ _ Hi) as Hlt.
    rewrite reverse_lookup_Some. cbn [length]. split; [|lia].
    replace (S (length (items dci)) - S (length (items dci) - (i + 1))) with (S i) by lia. change ((d0 :: items dci) !! S i) with (items dci !! i). rewrite Hi. f_equal.
    apply (Hsame (S i)); [by rewrite <- Hlist|done].
Qed.

Lemma GetCallSiteByDescriptor_store n d s :
  d ∈ ds → store_ok s →
  post (GetCallSiteByDescriptor f n d) s
    (fun c s' => store_ok s' ∧ grown (S (rank (ServiceType d))) s s' ∧ is_Some (callSites s' !! c))
    (fun _ s' => store_ok s' ∧ grown (S (rank (ServiceType d))) s s').
Proof using Hsim.
  intros Hd Hs. unfold GetCallSiteByDescriptor. destruct (descriptorLookup f !! ServiceType d) as [dci|] eqn:Elk; [|done].
  destruct (item_GetSlot dci d) as [slot|] eqn:Es; [|done]. pose proof (GetSlot_registration d dci slot Hd Elk Es) as Hnth.
  eapply post_weaken; [apply (tryCreateExact_store n (fun t s => GetCallSite_store n t s) d slot); done| |done].
  intros c s' (Hs' & Hg & Hc). split_and!; [done|done|]. destruct (cached_type _ _ _ _ Hs' Hc) as (cs & -> & _). by eexists.
Qed.
End store.
