(* ===== verification/DiResolve.v ===== *)
(** * The dependency injection container: resolution, scopes and disposal

    [resolver.go], [scope.go], [container.go], [engine.go] and [validator.go] over the call
    sites of [Di]: singletons are cached in their call site, scoped services in their
    scope, transients not at all; disposable services are captured by the scope that
    made them.  The mutexes a goroutine holds are part of the state, so that a
    goroutine that locks one twice is [Stuck]. *)
From stdpp Require Import gmap strings.
From S2P Require Import Prelude GoText Claims Request Di.
From stdpp Require Import options.

(** ** State *)
(** A [ContainerEngineScope]; scope 0 is the root.  [ResolvedServices] is nil after
    disposal; [s_locked]: the goroutine holds [Locker]. *)
Record scope := mkScope {
  ResolvedServices : option (gmap ServiceCacheKey value);
  s_locked : bool;
  s_disposed : bool;
  disposables : list value }.
Definition newEngineScope : scope := mkScope (Some ∅) false false [].

(** A [ServiceAccessor]: the value of a singleton, or resolve the call site. *)
Inductive accessor := AccessValue (v : value) | AccessSite (c : csid).

Record world := mkW {
  w_f : fstate;
  siteLocks : gset csid;
  scopes : list scope;
  c_disposed : bool;
  realizedServices : gmap rtype accessor;
  realizedLookupKeyServices : gmap string accessor;
  scopedServices : gmap rtype rtype;
  next_id : nat;                                 (* addresses of new objects *)
  disposed_log : list value;                     (* the objects disposed of, in order *)
  ctor_log : list (rtype * list rtype * list value) }.   (* the constructor calls, with their arguments *)

Definition set_f (g : fstate → fstate) (w : world) : world :=
  mkW (g (w_f w)) (siteLocks w) (scopes w) (c_disposed w) (realizedServices w) (realizedLookupKeyServices w) (scopedServices w) (next_id w) (disposed_log w) (ctor_log w).
Definition set_siteLocks (g : gset csid → gset csid) (w : world) : world :=
  mkW (w_f w) (g (siteLocks w)) (scopes w) (c_disposed w) (realizedServices w) (realizedLookupKeyServices w) (scopedServices w) (next_id w) (disposed_log w) (ctor_log w).
Definition set_scopes (g : list scope → list scope) (w : world) : world :=
  mkW (w_f w) (siteLocks w) (g (scopes w)) (c_disposed w) (realizedServices w) (realizedLookupKeyServices w) (scopedServices w) (next_id w) (disposed_log w) (ctor_log w).
Definition set_realized (g : gmap rtype accessor → gmap rtype accessor) (w : world) : world :=
  mkW (w_f w) (siteLocks w) (scopes w) (c_disposed w) (g (realizedServices w)) (realizedLookupKeyServices w) (scopedServices w) (next_id w) (disposed_log w) (ctor_log w).
Definition set_realizedKeys (g : gmap string accessor → gmap string accessor) (w : world) : world :=
  mkW (w_f w) (siteLocks w) (scopes w) (c_disposed w) (realizedServices w) (g (realizedLookupKeyServices w)) (scopedServices w) (next_id w) (disposed_log w) (ctor_log w).
Definition set_scoped (g : gmap rtype rtype → gmap rtype rtype) (w : world) : world :=
  mkW (w_f w) (siteLocks w) (scopes w) (c_disposed w) (realizedServices w) (realizedLookupKeyServices w) (g (scopedServices w)) (next_id w) (disposed_log w) (ctor_log w).
Definition set_c_disposed (w : world) : world :=
  mkW (w_f w) (siteLocks w) (scopes w) true (realizedServices w) (realizedLookupKeyServices w) (scopedServices w) (next_id w) (disposed_log w) (ctor_log w).
Definition log_dispose (v : value) (w : world) : world :=
  mkW (w_f w) (siteLocks w) (scopes w) (c_disposed w) (realizedServices w) (realizedLookupKeyServices w) (scopedServices w) (next_id w) (disposed_log w ++ [v]) (ctor_log w).
Definition alloc (t : rtype) : M world value := fun w =>
  (Done (VObj t (next_id w)),
   mkW (w_f w) (siteLocks w) (scopes w) (c_disposed w) (realizedServices w) (realizedLookupKeyServices w) (scopedServices w) (S (next_id w)) (disposed_log w) (ctor_log w)).
Definition log_call (t : rtype) (ts : list rtype) (vs : list value) (w : world) : world :=
  mkW (w_f w) (siteLocks w) (scopes w) (c_disposed w) (realizedServices w) (realizedLookupKeyServices w) (scopedServices w) (next_id w) (disposed_log w)
    (ctor_log w ++ [(t, ts, vs)]).

Definition update_scope (sid : nat) (g : scope → scope) (w : world) : world := set_scopes (fun l => alter g sid l) w.
Definition get_site (c : csid) : M world CallSite := fun w =>
  match callSites (w_f w) !! c with
  | Some cs => (Done cs, w)
  | None => (Fault (Panicking (DiError "invalid memory address or nil pointer dereference")), w)
  end.
Definition get_scope (sid : nat) : M world scope := fun w =>
  match scopes w !! sid with
  | Some s => (Done s, w)
  | None => (Fault (Panicking (DiError "invalid memory address or nil pointer dereference")), w)
  end.

(** A call of the factory, with a new chain. *)
Definition in_factory {A} (m : M fstate A) : M world A := fun w =>
  let '(r, s') := m (mkF (callSites (w_f w)) (callSiteCache (w_f w)) (typeLocks (w_f w)) ∅) in (r, set_f (fun _ => s') w).

(** ** Mutexes *)
Definition set_locked (b : bool) (s : scope) : scope := mkScope (ResolvedServices s) b (s_disposed s) (disposables s).
(** [scope.Locker.Lock(); defer scope.Locker.Unlock()]. *)
Definition with_scope_lock {A} (sid : nat) (m : M world A) : M world A := fun w =>
  match scopes w !! sid with
  | None => (Fault (Panicking (DiError "invalid memory address or nil pointer dereference")), w)
  | Some s =>
      if s_locked s then (Fault Stuck, w)
      else deferred (update_scope sid (set_locked false)) m (update_scope sid (set_locked true) w)
  end.
Definition with_site_lock {A} (c : csid) (m : M world A) : M world A := fun w =>
  if decide (c ∈ siteLocks w) then (Fault Stuck, w)
  else deferred (set_siteLocks (fun l => l ∖ {[c]})) m (set_siteLocks (fun l => {[c]} ∪ l) w).

(** [SetValue]: an [atomic.Value] does not take nil. *)
Definition SetValue (c : csid) (v : value) : M world unit :=
  match v with
  | VNil => panics (DiError "sync/atomic: store of nil value into Value")
  | _ => modify (set_f (fun s => mkF (alter (fun cs => mkCallSite (cs_type cs) (cs_kind cs) (cs_cache cs) (Some v)) c (callSites s))
                                  (callSiteCache s) (typeLocks s) (chain s)))
  end.

(** ** Disposal ([scope.go]) *)
Definition DisposableType : rtype := Named Interface di_pkg "Disposable".

Section resolve.
Context `{TS : TypeSystem}.

Definition is_disposable (v : value) : bool := match reflect_TypeOf v with Some t => Implements t DisposableType | None => false end.

Definition is_scope (sid : nat) (v : value) : bool := match v with VScope s => bool_decide (s = sid) | _ => false end.

Definition capture (v : value) (s : scope) : scope := mkScope (ResolvedServices s) (s_locked s) (s_disposed s) (disposables s ++ [v]).

Definition CaptureDisposableWithoutLock (sid : nat) (v : value) : M world unit :=
  if is_disposable v && negb (is_scope sid v) then
    s ← get_scope sid;
    if s_disposed s then
      _ ← modify (log_dispose v);
      fails ScopeDisposed
    else modify (update_scope sid (capture v))
  else mret tt.

Definition CaptureDisposable (sid : nat) (v : value) : M world unit :=
  if is_disposable v && negb (is_scope sid v) then
    disposed ← with_scope_lock sid
      (s ← get_scope sid;
       if s_disposed s then mret true
       else _ ← modify (update_scope sid (capture v)); mret false);
    if (disposed : bool) then
      _ ← modify (log_dispose v);
      fails ScopeDisposed
    else mret tt
  else mret tt.

(** ** The resolver ([resolver.go]) *)
Record resolverContext := mkRC { rc_Scope : nat; Acquired_Scope : bool; Acquired_Root : bool }.

Section visits.
Context (visit : csid → resolverContext → M world value) (get : nat → rtype → M world value) (get_key : nat → rtype → string → M world value).

(** What the application sees of [container.Get]. *)
Definition observed (m : M world value) : M world (value + derror) := fun w =>
  match m w with
  | (Done v, w') => (Done (inl v), w')
  | (Fault (Failed e), w') => (Done (inr e), w')
  | (Fault x, w') => (Fault x, w')
  end.

(** The application's code. *)
Fixpoint run_prog (p : prog) : M world (value * option derror) :=
  match p with
  | Return v err => mret (v, err)
  | Throw e => panics e
  | New t k => v ← alloc t; run_prog (k v)
  | GetFrom c t k =>
      match c with
      | VScope sid => r ← observed (get sid t); run_prog (k r)
      | _ => panics (DiError "invalid memory address or nil pointer dereference")
      end
  | GetKeyFrom c t key k =>
      match c with
      | VScope sid => r ← observed (get_key sid t key); run_prog (k r)
      | _ => panics (DiError "invalid memory address or nil pointer dereference")
      end
  end.

Definition visitFactory (factory : value → prog) (ctx : resolverContext) : M world value :=
  r ← run_prog (factory (VScope (rc_Scope ctx))); mret r.1.

(** [reflect.Value.Call] panics for an argument of the wrong type; nil becomes the
    zero value of the parameter's call site. *)
Definition check_argument (p : csid) (t : rtype) (v : value) : M world unit :=
  cs ← get_site p;
  if AssignableTo (default (cs_type cs) (reflect_TypeOf v)) t then mret tt else panics (DiError "reflect: Call using a value as another type").

Fixpoint visit_parameters (ctx : resolverContext) (ps : list csid) : M world (list value) :=
  match ps with [] => mret [] | p :: ps' => v ← visit p ctx; vs ← visit_parameters ctx ps'; mret (v :: vs) end.

Fixpoint check_arguments (ps : list csid) (ts : list rtype) (vs : list value) : M world unit :=
  match ps, ts, vs with
  | p :: ps', t :: ts', v :: vs' => _ ← check_argument p t v; check_arguments ps' ts' vs'
  | [], [], [] => mret tt
  | _, _, _ => panics (DiError "reflect: Call with too few input arguments")
  end.

Definition visitConstructor (t : rtype) (ctor : ConstructorInfo) (Parameters : list csid) (ctx : resolverContext) : M world value :=
  inValues ← visit_parameters ctx Parameters;
  _ ← check_arguments Parameters (In ctor) inValues;
  _ ← modify (log_call t (In ctor) inValues);
  outValues ← run_prog (Call ctor inValues);
  match length (Out ctor) with
  | 1 => mret outValues.1
  | 2 => match outValues.2 with None => mret outValues.1 | Some err => fails err end
  | _ => fails (DiError "unexpected output parameters")
  end.

Fixpoint visit_elements (ctx : resolverContext) (elem : rtype) (cs : list csid) : M world (list value) :=
  match cs with
  | [] => mret []
  | c :: cs' =>
      v ← visit c ctx;
      match reflect_TypeOf v with
      | None => panics (DiError "reflect: call of reflect.Value.Set on zero Value")
      | Some t =>
          if AssignableTo t elem then vs ← visit_elements ctx elem cs'; mret (v :: vs)
          else panics (DiError "reflect.Set: value is not assignable")
      end
  end.

Definition visitSlice (elem : rtype) (CallSites : list csid) (ctx : resolverContext) : M world value :=
  vs ← visit_elements ctx elem CallSites; mret (VSlice elem vs).

Definition visitCallSiteMain (cs : CallSite) (ctx : resolverContext) : M world value :=
  match cs_kind cs with
  | FactoryCallSite factory => visitFactory factory ctx
  | SliceCallSite elem css => visitSlice elem css ctx
  | ConstructorCallSite ctor params => visitConstructor (cs_type cs) ctor params ctx
  | ConstantCallSite v => mret v
  | ContainerCallSite => mret (VScope (rc_Scope ctx))
  end.

Definition visitRootCache (c : csid) (ctx : resolverContext) : M world value :=
  cs ← get_site c;
  match cs_value cs with
  | Some v => mret v
  | None =>
      with_site_lock c
        (cs ← get_site c;
         match cs_value cs with
         | Some v => mret v
         | None =>
             resolved ← visitCallSiteMain cs (mkRC 0 (Acquired_Scope ctx) true);
             _ ← CaptureDisposable 0 resolved;
             _ ← SetValue c resolved;
             mret resolved
         end)
  end.

(** Writing to the map of a disposed scope panics. *)
Definition store_resolved (sid : nat) (k : option ServiceCacheKey) (v : value) : M world unit :=
  s ← get_scope sid;
  match ResolvedServices s, k with
  | Some m, Some k => modify (update_scope sid (fun s => mkScope (Some (<[k := v]> m)) (s_locked s) (s_disposed s) (disposables s)))
  | _, _ => panics (DiError "assignment to entry in nil map")
  end.

Definition lookup_resolved (s : scope) (k : option ServiceCacheKey) : option value := m ← ResolvedServices s; k ← k; m !! k.

Definition visit_scope_body (cs : CallSite) (ctx : resolverContext) : M world value :=
  s ← get_scope (rc_Scope ctx);
  match lookup_resolved s (Key (cs_cache cs)) with
  | Some resolved => mret resolved
  | None =>
      resolved ← visitCallSiteMain cs (mkRC (rc_Scope ctx) true (Acquired_Root ctx));
      _ ← CaptureDisposableWithoutLock (rc_Scope ctx) resolved;
      _ ← store_resolved (rc_Scope ctx) (Key (cs_cache cs)) resolved;
      mret resolved
  end.

Definition visitScopeCache (c : csid) (ctx : resolverContext) : M world value :=
  if decide (rc_Scope ctx = 0) then visitRootCache c ctx
  else
    cs ← get_site c;
    if Acquired_Scope ctx then visit_scope_body cs ctx
    else with_scope_lock (rc_Scope ctx) (visit_scope_body cs ctx).

Definition visitDisposeCache (cs : CallSite) (ctx : resolverContext) : M world value :=
  v ← visitCallSiteMain cs ctx;
  _ ← CaptureDisposable (rc_Scope ctx) v;
  mret v.

Definition visitCallSite (c : csid) (ctx : resolverContext) : M world value :=
  cs ← get_site c;
  match Location (cs_cache cs) with
  | CacheLocation_Root => visitRootCache c ctx
  | CacheLocation_Scope => visitScopeCache c ctx
  | CacheLocation_Dispose => visitDisposeCache cs ctx
  | CacheLocation_None => visitCallSiteMain cs ctx
  end.

Definition Resolve (c : csid) (sid : nat) : M world value :=
  cs ← get_site c;
  match cs_value cs with
  | Some cached => if decide (sid = 0) then mret cached else visit c (mkRC sid false false)
  | None => visit c (mkRC sid false false)
  end.
End visits.

(** ** Scope validation ([validator.go]) *)

(** The first scoped service among some call sites; an error ends the loop. *)
Fixpoint visit_first (visit : csid → res (option rtype)) (l : list csid) (result : option rtype) : res (option rtype) :=
  match l with
  | [] => Done result
  | c :: l' =>
      match visit c with
      | Done scoped => visit_first visit l' (match result with None => scoped | Some _ => result end)
      | Fault x => Fault x
      end
  end.

(** [visitCallSiteMain] of the validator. *)
Definition validator_main (visit : option rtype → csid → res (option rtype)) (cs : CallSite) (state : option rtype) : res (option rtype) :=
  match cs_kind cs with
  | FactoryCallSite _ | ConstantCallSite _ | ContainerCallSite => Done None
  | SliceCallSite _ css => visit_first (visit state) css None
  | ConstructorCallSite _ params => visit_first (visit state) params None
  end.

(** The first scoped service a call site needs, or the error that a singleton
    needs one; [singleton] is the singleton being visited. *)
Fixpoint validator_visit (store : list CallSite) (n : nat) (singleton : option rtype) (c : csid) : res (option rtype) :=
  match n with
  | 0 => Fault NoFuel
  | S n' =>
      match store !! c with
      | None => Fault (Panicking (DiError "invalid memory address or nil pointer dereference"))
      | Some cs =>
          let main := validator_main (validator_visit store n') cs in
          match Location (cs_cache cs) with
          | CacheLocation_Root => main (Some (cs_type cs))
          | CacheLocation_Scope =>
              if decide (cs_type cs = ScopeFactoryType) then Done None
              else
                match singleton with
                | Some s => Fault (Failed (CannotConsumeScoped (cs_type cs) s))
                | None => match main None with Done _ => Done (Some (cs_type cs)) | Fault x => Fault x end
                end
          | CacheLocation_Dispose | CacheLocation_None => main singleton
          end
      end
  end.

(** Parameters are older than their call site, so its index bounds the depth. *)
Definition ValidateCallSite (c : csid) : M world unit := fun w =>
  match validator_visit (callSites (w_f w)) (S (length (callSites (w_f w)))) None c with
  | Fault x => (Fault x, w)
  | Done None => (Done tt, w)
  | Done (Some scoped) =>
      (Done tt, match callSites (w_f w) !! c with Some cs => set_scoped (fun m => <[cs_type cs := scoped]> m) w | None => w end)
  end.

Definition ValidateResolution (t : rtype) (sid : nat) : M world unit :=
  m ← gets scopedServices;
  if decide (sid = 0) then
    match m !! t with Some scoped => fails (ScopedServiceFromRootError t scoped) | None => mret tt end
  else mret tt.

(** ** The container ([container.go]) *)
Section container.
Context (f : CallSiteFactory) (validate : bool).
Context (fuel : nat) (visit : csid → resolverContext → M world value).

Definition realize (c : csid) : M world accessor :=
  _ ← (if validate then ValidateCallSite c else mret tt);
  cs ← get_site c;
  if decide (Location (cs_cache cs) = CacheLocation_Root) then v ← Resolve visit c 0; mret (AccessValue v)
  else mret (AccessSite c).

Definition createServiceAccessor (t : rtype) : M world accessor := c ← in_factory (GetCallSite f fuel t); realize c.

Definition createServiceLookupKeyAccessor (key : string) : M world accessor :=
  match descriptorKeyLookup f !! key with
  | Some (mkItem (Some d) ds) =>
      c ← in_factory (GetCallSiteByDescriptor f fuel (default d (last ds))); realize c
  | _ => fails (DiError "no service registered for lookup key")
  end.

Definition access (a : accessor) (sid : nat) : M world value :=
  match a with AccessValue v => mret v | AccessSite c => Resolve visit c sid end.

(** The deferred [recover]. *)
Definition recovered {A} (m : M world A) : M world A := fun w =>
  match m w with (Fault (Panicking e), w') => (Fault (Failed e), w') | r => r end.

Definition GetWithScope (t : rtype) (sid : nat) : M world value :=
  disposed ← gets c_disposed;
  if (disposed : bool) then fails ContainerDisposed
  else recovered
    (loaded ← gets (fun w => realizedServices w !! t);
     a ← match loaded with
         | Some a => mret a
         | None =>
             a ← createServiceAccessor t;
             stored ← gets (fun w => realizedServices w !! t);
             match stored with Some a' => mret a' | None => _ ← modify (set_realized (fun m => <[t := a]> m)); mret a end
         end;
     _ ← (if validate then ValidateResolution t sid else mret tt);
     access a sid).

Definition GetWithScopeWithLookupKey (t : rtype) (key : string) (sid : nat) : M world value :=
  disposed ← gets c_disposed;
  if (disposed : bool) then fails ContainerDisposed
  else recovered
    (let hashKey := hashTypeAndString t key in
     loaded ← gets (fun w => realizedLookupKeyServices w !! hashKey);
     a ← match loaded with
         | Some a => mret a
         | None =>
             a ← createServiceLookupKeyAccessor hashKey;
             stored ← gets (fun w => realizedLookupKeyServices w !! hashKey);
             match stored with Some a' => mret a' | None => _ ← modify (set_realizedKeys (fun m => <[hashKey := a]> m)); mret a end
         end;
     _ ← (if validate then ValidateResolution t sid else mret tt);
     access a sid).

(** The container itself answers from its root scope. *)
Definition container_Get (t : rtype) : M world value := GetWithScope t 0.
Definition container_GetByLookupKey (t : rtype) (key : string) : M world value := GetWithScopeWithLookupKey t key 0.

Definition scope_Get (sid : nat) (t : rtype) : M world value :=
  s ← get_scope sid; if s_disposed s then fails ObjectDisposedError else GetWithScope t sid.
Definition scope_GetByLookupKey (sid : nat) (t : rtype) (key : string) : M world value :=
  s ← get_scope sid; if s_disposed s then fails ObjectDisposedError else GetWithScopeWithLookupKey t key sid.
End container.

(** The recursion of the container: visits run application code, which may ask the
    container again. *)
Inductive op := Visit (c : csid) (ctx : resolverContext) | Get (sid : nat) (t : rtype) | GetByLookupKey (sid : nat) (t : rtype) (key : string).

Fixpoint exec (f : CallSiteFactory) (validate : bool) (n : nat) (o : op) : M world value :=
  match n with
  | 0 => fun w => (Fault NoFuel, w)
  | S n' =>
      let visit c ctx := exec f validate n' (Visit c ctx) in
      match o with
      | Visit c ctx => visitCallSite visit (fun sid t => exec f validate n' (Get sid t)) (fun sid t k => exec f validate n' (GetByLookupKey sid t k)) c ctx
      | Get sid t => scope_Get f validate n' visit sid t
      | GetByLookupKey sid t key => scope_GetByLookupKey f validate n' visit sid t key
      end
  end.

Definition CreateScope : M world nat := fun w =>
  if c_disposed w then (Fault (Panicking ContainerDisposed), w)
  else (Done (length (scopes w)), set_scopes (fun l => l ++ [newEngineScope]) w).

(** *** Disposal *)
Definition begin_dispose (s : scope) : scope := mkScope None (s_locked s) true [].

(** [Dispose]: marks the scope (for the root: the container too), takes its
    disposables and disposes of them, last first; a captured scope is disposed the
    same way. *)
Fixpoint Dispose (n : nat) (sid : nat) : M world unit :=
  match n with
  | 0 => fun w => (Fault NoFuel, w)
  | S n' =>
      s ← get_scope sid;
      if s_disposed s then mret tt
      else
        _ ← modify (update_scope sid (fun s => mkScope (ResolvedServices s) (s_locked s) true (disposables s)));
        _ ← modify (fun w => if decide (sid = 0) then set_c_disposed w else w);
        ds ← with_scope_lock sid
          (s ← get_scope sid;
           _ ← modify (update_scope sid begin_dispose);
           mret (disposables s));
        (fix dispose_all (l : list value) : M world unit :=
           match l with
           | [] => mret tt
           | v :: l' =>
               _ ← match v with VScope sid' => Dispose n' sid' | _ => modify (log_dispose v) end;
               dispose_all l'
           end) (reverse ds)
  end.

(** [container.Dispose]. *)
Definition container_Dispose (n : nat) : M world unit := _ ← modify set_c_disposed; Dispose n 0.

(** ** [Build] *)
Record Options := mkOptions { ValidateScopes : bool; ValidateOnBuild : bool; DetectLifetimeConflicts : bool }.
Definition DefaultOptions : Options := mkOptions false false false.

Definition lifetimes (ds : list Descriptor) (t : rtype) : list Lifetime :=
  remove_dups (d_Lifetime <$> filter (fun d => ServiceType d = t) ds).
(** The types registered with several lifetimes. *)
Definition conflicts (ds : list Descriptor) : list rtype :=
  filter (fun t => 1 < length (lifetimes ds t)) (remove_dups (ServiceType <$> ds)).
Definition detectLifetimeConflicts (ds : list Descriptor) : option derror :=
  match conflicts ds with
  | [] => None
  | ts => Some (AggregateError ((fun _ => DiError "service type is registered with conflicting lifetimes") <$> ts))
  end.

Definition validateService (f : CallSiteFactory) (validate : bool) (n : nat) (d : Descriptor) : M world unit :=
  c ← in_factory (GetCallSiteByDescriptor f n d);
  if validate then ValidateCallSite c else mret tt.

(** The errors of all descriptors. *)
Fixpoint validate_all (f : CallSiteFactory) (validate : bool) (n : nat) (ds : list Descriptor) : M world (list derror) :=
  match ds with
  | [] => mret []
  | d :: ds' => fun w =>
      match validateService f validate n d w with
      | (Done _, w') => validate_all f validate n ds' w'
      | (Fault (Failed e), w') => (es ← validate_all f validate n ds'; mret (e :: es)) w'
      | (Fault x, w') => (Fault x, w')
      end
  end.

Definition new_world : world := mkW builtInServices ∅ [newEngineScope] false ∅ ∅ ∅ 0 [] [].

Definition Build (options : Options) (ds : list Descriptor) (n : nat) : res world :=
  let f := newCallSiteFactory ds in
  match (if DetectLifetimeConflicts options then detectLifetimeConflicts ds else None) with
  | Some e => Fault (Panicking e)
  | None =>
      if ValidateOnBuild options then
        match validate_all f (ValidateScopes options) n ds new_world with
        | (Done [], w) => Done w
        | (Done es, _) => Fault (Panicking (AggregateError es))
        | (Fault x, _) => Fault x
        end
      else Done new_world
  end.

(** ** The typed interface ([di.go]) *)
Section typed.
Context (f : CallSiteFactory) (validate : bool) (n : nat).

(** [v.(T)]. *)
Definition type_assertion (t : rtype) (v : value) : M world value :=
  match reflect_TypeOf v with
  | Some from => if AssignableTo from t then mret v else fails (TypeIncompatibilityError t (Some from))
  | None => fails (TypeIncompatibilityError t None)
  end.
Definition TryGet (sid : nat) (t : rtype) : M world value := v ← exec f validate n (Get sid t); type_assertion t v.
Definition TryGetByLookupKey (sid : nat) (t : rtype) (key : string) : M world value :=
  v ← exec f validate n (GetByLookupKey sid t key); type_assertion t v.

(** [if err != nil { panic(err) }]. *)
Definition must (m : M world value) : M world value := fun w =>
  match m w with (Fault (Failed e), w') => (Fault (Panicking e), w') | r => r end.
Definition Get_T (sid : nat) (t : rtype) : M world value := must (TryGet sid t).
Definition GetByLookupKey_T (sid : nat) (t : rtype) (key : string) : M world value := must (TryGetByLookupKey sid t key).

(** [Invoke] of a function with parameters [In fn]; nil inputs are zero Values,
    which [Call] panics for. *)
Fixpoint invoke_inputs (sid : nat) (ts : list rtype) : M world (list value) :=
  match ts with [] => mret [] | t :: ts' => v ← exec f validate n (Get sid t); vs ← invoke_inputs sid ts'; mret (v :: vs) end.
Fixpoint call_check (ts : list rtype) (vs : list value) : M world unit :=
  match ts, vs with
  | t :: ts', v :: vs' =>
      match reflect_TypeOf v with
      | Some from => if AssignableTo from t then call_check ts' vs' else panics (DiError "reflect: Call using a value as another type")
      | None => panics (DiError "reflect: Call using zero Value argument")
      end
  | [], [] => mret tt
  | _, _ => panics (DiError "reflect: Call with too few input arguments")
  end.
Definition Invoke (sid : nat) (fn : ConstructorInfo) : M world (value * option derror) :=
  inputs ← invoke_inputs sid (In fn);
  _ ← call_check (In fn) inputs;
  run_prog (fun sid t => exec f validate n (Get sid t)) (fun sid t k => exec f validate n (GetByLookupKey sid t k)) (Call fn inputs).
End typed.
End resolve.

(** ** Examples *)
Module Scenarios.
Import Di.Examples.

(** Types whose name starts with D are disposable; A, B and D implement I. *)
#[export] Instance app_types : TypeSystem := {|
  AssignableTo t u := bool_decide (t = u) || bool_decide (u = I) || bool_decide (u = ContainerType);
  Implements t u := match t with Ptr (Named _ _ n) => bool_decide (u = DisposableType ∧ n = "D") | _ => false end |}.
Definition D := Ptr (app "D").

(** Some calls in order, on a container with scopes 1 and 2. *)
Fixpoint calls (f : CallSiteFactory) (os : list op) (w : world) : list (res value) :=
  match os with [] => [] | o :: os' => let '(r, w') := exec f false 20 o w in r :: calls f os' w' end.
Definition two_scopes : world := set_scopes (fun l => l ++ [newEngineScope; newEngineScope]) new_world.
Definition session (ds : list Descriptor) (os : list op) : list (res value) := calls (newCallSiteFactory ds) os two_scopes.

(** A scoped, B a singleton, C transient. *)
Example lifetimes_at_work : session layered [Get 1 A; Get 2 A; Get 1 A; Get 1 B; Get 2 B; Get 1 C; Get 1 C] =
  [Done (VObj A 2); Done (VObj A 3); Done (VObj A 2); Done (VObj B 1); Done (VObj B 1); Done (VObj C 4); Done (VObj C 5)].
Proof. vm_compute. reflexivity. Qed.

(** A scoped service that needs a disposable transient blocks: capturing the
    transient locks the mutex of the scope, which is held while the scoped service
    is built. *)
Example disposable_transient_deadlocks :
  session [service 1 A Lifetime_Scoped [D] []; service 2 D Lifetime_Transient [] []] [Get 1 A] = [Fault Stuck].
Proof. vm_compute. reflexivity. Qed.

(** A factory that asks its scope for another scoped service blocks too. *)
Example scoped_factory_deadlocks :
  session [NewFactoryDescriptor 1 A Lifetime_Scoped (fun c => GetFrom c B (fun r => match r with inl v => Return v None | inr e => Throw e end));
           service 2 B Lifetime_Scoped [] []] [Get 1 A] = [Fault Stuck].
Proof. vm_compute. reflexivity. Qed.

(** A singleton that two interfaces' implementations share a slice with exists
    twice: the slot of a slice element is counted among the implementations of the
    interface, but the cache key has the implementation's own type. *)
Example singleton_built_twice :
  session [service 1 A Lifetime_Singleton [] [I]; service 2 B Lifetime_Singleton [] [I]] [Get 1 A; Get 1 (SliceOf I); Get 1 I] =
  [Done (VObj A 0); Done (VSlice I [VObj A 1; VObj B 2]); Done (VObj B 2)].
Proof. vm_compute. reflexivity. Qed.

(** And a registration can answer for another one of the same type. *)
Example wrong_registration :
  let ds := [service 1 A Lifetime_Transient [] [I]; mkDescriptor 2 A Lifetime_Singleton None (Some (VObj A 100)) None [] []] in
  session ds [Get 1 I] = [Done (VObj A 0)] ∧ session ds [Get 1 A; Get 1 I] = [Done (VObj A 100); Done (VObj A 100)].
Proof. vm_compute. split; reflexivity. Qed.
End Scenarios.
