(* ===== verification/DiLifetimes.v ===== *)
(** * The dependency injection container: lifetimes

    For registrations without implemented interfaces and cycles (module [DiStore]):
    a singleton has one instance for the whole container, whoever asks and however it
    is reached; a scoped service has one instance per scope and no instance in common
    with another scope; a transient is new every time.  Application code is arbitrary,
    and so are the calls between two requests. *)
From stdpp Require Import gmap strings.
From S2P Require Import Prelude GoText Claims Request Di DiStore DiResolve.
From stdpp Require Import options.

Section lifetimes.
Context `{TS : TypeSystem} (ds : list Descriptor) (rank : rtype → nat) (Hsim : simple ds rank) (validate : bool).
Let f := newCallSiteFactory ds.

(** A constructor that allocates what it returns, and types that only such
    constructors are registered for. *)
Definition fresh_ctor (ctor : ConstructorInfo) : Prop := ∀ args, ∃ t, Call ctor args = New t (fun v => Return v None).
Definition fresh_type (t : rtype) : Prop :=
  (∃ d, d ∈ ds ∧ ServiceType d = t) ∧
  ∀ d, d ∈ ds → ServiceType d = t → d_Instance d = None ∧ d_Factory d = None ∧ ∃ ctor, d_Ctor d = Some ctor ∧ fresh_ctor ctor.
Definition fresh_site (cs : CallSite) : Prop := ∃ ctor params, cs_kind cs = ConstructorCallSite ctor params ∧ fresh_ctor ctor.

Abbreviation sites w := (callSites (w_f w)).

(** What scope [sid] has cached for a key. *)
Definition entry (w : world) (sid : nat) (k : ServiceCacheKey) : option value := s ← scopes w !! sid; m ← ResolvedServices s; m !! k.

(** How a computation may change the world: caches only grow, the mutexes are as
    before, a locked call site keeps its value and a locked scope only gets the keys
    that [B] allows. *)
Record evolves (B : nat → ServiceCacheKey → Prop) (w w' : world) : Prop := {
  ev_cache : callSiteCache (w_f w) ⊆ callSiteCache (w_f w');
  ev_site c cs : sites w !! c = Some cs → ∃ cs', sites w' !! c = Some cs' ∧ same_site cs cs' ∧
    (∀ v, cs_value cs = Some v → cs_value cs' = Some v) ∧ (c ∈ siteLocks w → cs_value cs' = cs_value cs);
  ev_locks : siteLocks w' = siteLocks w;
  ev_tlocks : typeLocks (w_f w') = typeLocks (w_f w);
  ev_scope sid : (fun s => (s_locked s, s_disposed s)) <$> scopes w' !! sid = (fun s => (s_locked s, s_disposed s)) <$> scopes w !! sid;
  ev_entry sid k v : entry w sid k = Some v → entry w' sid k = Some v;
  ev_fresh sid k v : entry w sid k = None → entry w' sid k = Some v → fresh_type k.1 → ∃ t id, v = VObj t id ∧ next_id w <= id;
  ev_bound sid k s : scopes w !! sid = Some s → s_locked s = true → entry w sid k = None → is_Some (entry w' sid k) → B sid k;
  ev_realized : realizedServices w ⊆ realizedServices w';
  ev_keys : realizedLookupKeyServices w ⊆ realizedLookupKeyServices w';
  ev_next : next_id w <= next_id w';
  ev_disposed : c_disposed w' = c_disposed w;
  ev_calls : ctor_log w `prefix_of` ctor_log w' }.

#[local] Instance evolves_preorder B : PreOrder (evolves B).
Proof.
  split.
  - intros w. split; try done.
    + intros c cs Hc. by exists cs.
    + intros sid k v -> [=].
    + intros sid k s _ _ -> [? [=]].
  - intros w1 w2 w3 H1 H2. split.
    + etrans; [apply H1|apply H2].
    + intros c cs Hc. destruct (ev_site _ _ _ H1 c cs Hc) as (cs' & Hc' & Hs & Hv & Hl).
      destruct (ev_site _ _ _ H2 c cs' Hc') as (cs'' & Hc'' & Hs' & Hv' & Hl'). exists cs''. split_and!; [done|by etrans|by eauto|].
      intros Hin. rewrite Hl', Hl; [done|done|]. by rewrite (ev_locks _ _ _ H1).
    + by rewrite (ev_locks _ _ _ H2), (ev_locks _ _ _ H1).
    + by rewrite (ev_tlocks _ _ _ H2), (ev_tlocks _ _ _ H1).
    + intros sid. by rewrite (ev_scope _ _ _ H2), (ev_scope _ _ _ H1).
    + intros sid k v Hv. by apply (ev_entry _ _ _ H2), (ev_entry _ _ _ H1).
    + intros sid k v Hn Hv Hf. destruct (entry w2 sid k) as [v2|] eqn:E.
      * apply (ev_entry _ _ _ H2) in E as Hv2. rewrite Hv in Hv2. injection Hv2 as <-. by apply (ev_fresh _ _ _ H1 sid k).
      * destruct (ev_fresh _ _ _ H2 sid k v E Hv Hf) as (t & id & -> & Hid). exists t, id. split; [done|].
        pose proof (ev_next _ _ _ H1). lia.
    + intros sid k s Hs Hl Hn Hv. destruct (entry w2 sid k) as [v2|] eqn:E.
      * eapply (ev_bound _ _ _ H1); [done|done|done|by rewrite E].
      * pose proof (ev_scope _ _ _ H1 sid) as Hsc. rewrite Hs in Hsc. destruct (scopes w2 !! sid) as [s2|] eqn:E2; [|done].
        cbn in Hsc. injection Hsc as Hl2 _. eapply (ev_bound _ _ _ H2); [done|congruence|done|done].
    + etrans; [apply H1|apply H2].
    + etrans; [apply H1|apply H2].
    + etrans; [apply H1|apply H2].
    + by rewrite (ev_disposed _ _ _ H2), (ev_disposed _ _ _ H1).
    + etrans; [apply H1|apply H2].
Qed.

Lemma evolves_mono (B B' : nat → ServiceCacheKey → Prop) w w' : (∀ sid k, B sid k → B' sid k) → evolves B w w' → evolves B' w w'.
Proof. intros HB Hev. destruct Hev. split; try done. intros sid k s Hs Hl Hn Hv. eauto. Qed.

(** *** Well-formed worlds *)
Definition realized_ok (w : world) (t : rtype) (a : accessor) : Prop :=
  ∃ c cs, arg_site ds (w_f w) t c ∧ sites w !! c = Some cs ∧
    match a with
    | AccessValue v => Location (cs_cache cs) = CacheLocation_Root ∧ cs_value cs = Some v
    | AccessSite c' => c' = c ∧ Location (cs_cache cs) ≠ CacheLocation_Root
    end.

(** The value given to a constructor for an argument of type [t]. *)
Definition arg_value (w : world) (t : rtype) (v : value) : Prop :=
  ∃ c cs, arg_site ds (w_f w) t c ∧ sites w !! c = Some cs ∧ (Location (cs_cache cs) = CacheLocation_Root → cs_value cs = Some v).

Record world_ok (w : world) : Prop := {
  wo_store : store_ok ds (w_f w);
  wo_realized t a : realizedServices w !! t = Some a → realized_ok w t a;
  wo_keys k c : realizedLookupKeyServices w !! k = Some (AccessSite c) → is_Some (sites w !! c);
  wo_args t ts vs : (t, ts, vs) ∈ ctor_log w → Forall2 (arg_value w) ts vs;
  wo_ids sid k v : entry w sid k = Some v → fresh_type k.1 → ∃ t id, v = VObj t id ∧ id < next_id w;
  wo_distinct sid sid' k v : entry w sid k = Some v → entry w sid' k = Some v → fresh_type k.1 → sid = sid' }.

Lemma evolves_extends B w w' : evolves B w w' → extends (w_f w) (w_f w').
Proof.
  intros Hev. split; [apply Hev|]. intros c cs Hc. destruct (ev_site _ _ _ Hev c cs Hc) as (cs' & ? & ? & _). by exists cs'.
Qed.

Lemma arg_value_evolves B w w' t v : evolves B w w' → arg_value w t v → arg_value w' t v.
Proof.
  intros Hev (c & cs & Ha & Hc & Hv). destruct (ev_site _ _ _ Hev c cs Hc) as (cs' & Hc' & Hss & Hval & _). exists c, cs'. split_and!.
  - eapply arg_site_extends; [by eapply evolves_extends|done].
  - done.
  - intros Hl. destruct Hss as (_ & _ & Hcache). rewrite Hcache in Hl. by apply Hval, Hv.
Qed.

Lemma realized_ok_evolves B w w' t a : evolves B w w' → realized_ok w t a → realized_ok w' t a.
Proof.
  intros Hev (c & cs & Ha & Hc & Hm). destruct (ev_site _ _ _ Hev c cs Hc) as (cs' & Hc' & (_ & _ & Hcache) & Hval & _). exists c, cs'. split_and!.
  - eapply arg_site_extends; [by eapply evolves_extends|done].
  - done.
  - destruct a as [v|c0]; rewrite Hcache; destruct Hm; split; eauto.
Qed.

(** Worlds that agree on what [world_ok] is about. *)
Record agree (w w' : world) : Prop := {
  ag_f : w_f w' = w_f w;
  ag_entry sid k : entry w' sid k = entry w sid k;
  ag_realized : realizedServices w' = realizedServices w;
  ag_keys : realizedLookupKeyServices w' = realizedLookupKeyServices w;
  ag_next : next_id w <= next_id w';
  ag_calls : ctor_log w' = ctor_log w }.

Lemma world_ok_agree w w' : agree w w' → world_ok w → world_ok w'.
Proof.
  intros Ha Hw. destruct Ha as [Hf He Hr Hk Hn Hc]. split.
  - rewrite Hf. apply Hw.
  - intros t a. rewrite Hr. intros Ht. destruct (wo_realized w Hw t a Ht) as (c & cs & ? & ? & ?). exists c, cs. by rewrite Hf.
  - intros k c. rewrite Hk, Hf. apply (wo_keys w Hw).
  - intros t ts vs. rewrite Hc. intros Ht. eapply Forall2_impl; [by eapply wo_args|]. intros u v (c & cs & ? & ? & ?).
    exists c, cs. by rewrite Hf.
  - intros sid k v. rewrite He. intros Hv Hfr. destruct (wo_ids w Hw sid k v Hv Hfr) as (t & id & -> & ?). exists t, id. split; [done|lia].
  - intros sid sid' k v. rewrite !He. apply (wo_distinct w Hw).
Qed.

Lemma evolves_agree B w w' :
  agree w w' → siteLocks w' = siteLocks w → c_disposed w' = c_disposed w →
  (∀ sid, (fun s => (s_locked s, s_disposed s)) <$> scopes w' !! sid = (fun s => (s_locked s, s_disposed s)) <$> scopes w !! sid) →
  evolves B w w'.
Proof.
  intros Ha Hl Hd Hs. destruct Ha as [Hf He Hr Hk Hn Hc]. split; try done.
  - by rewrite Hf.
  - intros c cs. rewrite Hf. intros Hcs. by exists cs.
  - by rewrite Hf.
  - intros sid k v. by rewrite He.
  - intros sid k v Hx. rewrite He, Hx. done.
  - intros sid k s _ _ Hx. rewrite He, Hx. by intros [].
  - by rewrite Hr.
  - by rewrite Hk.
  - by rewrite Hc.
Qed.

Lemma scopes_update sid sid' g w : scopes (update_scope sid g w) !! sid' = if decide (sid = sid') then g <$> scopes w !! sid else scopes w !! sid'.
Proof. cbn. case_decide as Hd; [subst; by rewrite list_lookup_alter_eq|by rewrite list_lookup_alter_ne]. Qed.

Lemma agree_update sid g w : (∀ s, ResolvedServices (g s) = ResolvedServices s) → agree w (update_scope sid g w).
Proof.
  intros Hg. split; try done. intros sid' k. unfold entry. rewrite scopes_update. case_decide as Hd; [subst|done].
  destruct (scopes w !! sid') as [s|]; [|done]. cbn. by rewrite Hg.
Qed.

(** *** Computations that keep the world well-formed *)
Definition runs (B : nat → ServiceCacheKey → Prop) {A} (m : M world A) (w : world) (Q : A → world → Prop) : Prop :=
  post m w (fun a w' => world_ok w' ∧ evolves B w w' ∧ Q a w')
    (fun x w' => match x with Stuck | NoFuel => True | _ => world_ok w' ∧ evolves B w w' end).

Lemma runs_weaken (B B' : nat → ServiceCacheKey → Prop) {A} (m : M world A) w (Q Q' : A → world → Prop) :
  runs B m w Q → (∀ sid k, B sid k → B' sid k) → (∀ a w', world_ok w' → evolves B w w' → Q a w' → Q' a w') → runs B' m w Q'.
Proof.
  intros Hr HB HQ. eapply post_weaken; [exact Hr| |].
  - intros a w' (Hw & Hev & Hq). split_and!; [done|by eapply evolves_mono|by apply HQ].
  - intros x w' Hx. destruct x; try done; destruct Hx; (split; [done|by eapply evolves_mono]).
Qed.

Lemma runs_ret B {A} (a : A) w (Q : A → world → Prop) : world_ok w → Q a w → runs B (mret a) w Q.
Proof. intros Hw HQ. apply post_ret. by split_and!. Qed.

Lemma runs_fault B {A} x w (Q : A → world → Prop) : world_ok w → runs B (fun w => (Fault x, w)) w Q.
Proof. intros Hw. unfold runs, post. by destruct x. Qed.

Lemma runs_gets B {A} (g : world → A) w (Q : A → world → Prop) : world_ok w → Q (g w) w → runs B (gets g) w Q.
Proof. intros Hw HQ. apply post_gets. by split_and!. Qed.

Lemma runs_modify B g w (Q : unit → world → Prop) : world_ok (g w) → evolves B w (g w) → Q tt (g w) → runs B (modify g) w Q.
Proof. intros Hw Hev HQ. apply post_modify. by split_and!. Qed.

Lemma runs_bind B {A A'} (m : M world A) (k : A → M world A') w Q Q' :
  runs B m w Q → (∀ a w', world_ok w' → evolves B w w' → Q a w' → runs B (k a) w' Q') → runs B (m ≫= k) w Q'.
Proof.
  intros Hm Hk. apply post_bind. eapply post_weaken; [exact Hm| |done]. intros a w' (Hw & Hev & HQ).
  eapply post_weaken; [by apply Hk| |].
  - intros b w'' (Hw' & Hev' & HQ'). split_and!; [done|by etrans|done].
  - intros x w'' Hx. destruct x; try done; destruct Hx; (split; [done|by etrans]).
Qed.

Lemma runs_get_site B c w : world_ok w → runs B (get_site c) w (fun cs w' => w' = w ∧ sites w !! c = Some cs).
Proof. intros Hw. unfold runs, post, get_site. by destruct (sites w !! c). Qed.

Lemma runs_get_scope B sid w : world_ok w → runs B (get_scope sid) w (fun s w' => w' = w ∧ scopes w !! sid = Some s).
Proof. intros Hw. unfold runs, post, get_scope. by destruct (scopes w !! sid). Qed.

(** Under the mutex of a scope, its entries may change freely. *)
Lemma evolves_unlock B sid s w w' :
  scopes w !! sid = Some s → s_locked s = false →
  evolves (fun sid' k => sid' = sid ∨ B sid' k) (update_scope sid (set_locked true) w) w' →
  evolves B w (update_scope sid (set_locked false) w').
Proof.
  intros Hs Hl Hev. assert (He : ∀ sid' k, entry (update_scope sid (set_locked true) w) sid' k = entry w sid' k) by (by apply agree_update).
  assert (He' : ∀ sid' k, entry (update_scope sid (set_locked false) w') sid' k = entry w' sid' k) by (by apply agree_update).
  pose proof (ev_scope _ _ _ Hev) as Hsc. split; try apply Hev.
  - intros sid'. specialize (Hsc sid'). rewrite scopes_update in *. case_decide as Hd; [subst sid'|done].
    rewrite Hs in *. destruct (scopes w' !! sid) as [s'|]; [|done]. cbn in *. injection Hsc as _ Hd'. by rewrite Hl, Hd'.
  - intros sid' k v. rewrite He', <- He. apply Hev.
  - intros sid' k v. rewrite He', <- He. apply (ev_fresh _ _ _ Hev).
  - intros sid' k s' Hs' Hl' Hn Hx. rewrite He' in Hx. rewrite <- He in Hn.
    assert (Hne : sid ≠ sid') by congruence.
    destruct (ev_bound _ _ _ Hev sid' k s') as [He''|?]; try done. rewrite scopes_update, decide_False by done. done.
Qed.

Lemma runs_scope_lock B {A} sid (m : M world A) w Q :
  world_ok w →
  (∀ s, scopes w !! sid = Some s → s_locked s = false →
     let w1 := update_scope sid (set_locked true) w in
     world_ok w1 →
     runs (fun sid' k => sid' = sid ∨ B sid' k) m w1 (fun a w' => Q a (update_scope sid (set_locked false) w'))) →
  runs B (with_scope_lock sid m) w Q.
Proof.
  intros Hw Hm. unfold with_scope_lock. destruct (scopes w !! sid) as [s|] eqn:Hs; [|by unfold runs, post; rewrite Hs].
  destruct (s_locked s) eqn:Hl; [by unfold runs, post; rewrite Hs, Hl|].
  assert (Hw1 : world_ok (update_scope sid (set_locked true) w)) by (eapply world_ok_agree; [by apply agree_update|done]).
  specialize (Hm s eq_refl Hl Hw1). unfold runs, post. rewrite Hs, Hl. fold (deferred (S := world) (A := A)).
  change (post (deferred (update_scope sid (set_locked false)) m) (update_scope sid (set_locked true) w)
    (fun a w' => world_ok w' ∧ evolves B w w' ∧ Q a w') (fun x w' => match x with Stuck | NoFuel => True | _ => world_ok w' ∧ evolves B w w' end)).
  apply post_deferred. eapply post_weaken; [exact Hm| |].
  - intros a w' (Hw' & Hev & HQ). split_and!; [eapply world_ok_agree; [by apply agree_update|done]|by eapply evolves_unlock|done].
  - intros x w' Hx. destruct x; try done; destruct Hx; (split; [eapply world_ok_agree; [by apply agree_update|done]|by eapply evolves_unlock]).
Qed.

(** *** Disposables *)
Lemma evolves_capture B sid v w : evolves B w (update_scope sid (capture v) w).
Proof.
  apply evolves_agree; [by apply agree_update|done|done|]. intros sid'. rewrite scopes_update. case_decide; [subst|done].
  by destruct (scopes w !! sid').
Qed.
Lemma world_ok_capture sid v w : world_ok w → world_ok (update_scope sid (capture v) w).
Proof. apply world_ok_agree. by apply agree_update. Qed.
Lemma evolves_log B v w : evolves B w (log_dispose v w).
Proof. by apply evolves_agree. Qed.
Lemma world_ok_log v w : world_ok w → world_ok (log_dispose v w).
Proof. by apply world_ok_agree. Qed.

Lemma runs_CaptureWithoutLock B sid v w : world_ok w → runs B (CaptureDisposableWithoutLock sid v) w (fun _ w' => ∀ sid k, entry w' sid k = entry w sid k).
Proof.
  intros Hw. unfold CaptureDisposableWithoutLock. destruct (_ && _); [|by apply runs_ret].
  eapply runs_bind; [by apply runs_get_scope|]. intros s w' Hw' _ [-> _]. destruct (s_disposed s).
  - eapply runs_bind; [apply (runs_modify _ _ _ (fun _ _ => True)); [by apply world_ok_log|apply evolves_log|done]|].
    intros ? w'' Hw'' _ _. by apply runs_fault.
  - apply runs_modify; [by apply world_ok_capture|apply evolves_capture|]. intros sid' k. by apply agree_update.
Qed.

Lemma runs_Capture B sid v w : world_ok w → runs B (CaptureDisposable sid v) w (fun _ _ => True).
Proof.
  intros Hw. unfold CaptureDisposable. destruct (_ && _); [|by apply runs_ret].
  eapply runs_bind; [apply (runs_scope_lock B sid _ w (fun _ _ => True)); [done|]|].
  - intros s Hs Hl w1 Hw1. eapply runs_bind; [by apply runs_get_scope|]. intros s' w' Hw' _ [-> _].
    destruct (s_disposed s'); [by apply runs_ret|].
    eapply runs_bind; [apply (runs_modify _ _ _ (fun _ _ => True)); [by apply world_ok_capture|apply evolves_capture|done]|].
    intros ? w'' Hw'' _ _. by apply runs_ret.
  - intros disposed w' Hw' _ _. destruct disposed; [|by apply runs_ret].
    eapply runs_bind; [apply (runs_modify _ _ _ (fun _ _ => True)); [by apply world_ok_log|apply evolves_log|done]|].
    intros ? w'' Hw'' _ _. by apply runs_fault.
Qed.

(** *** Application code *)

(** A new object that no scope has cached. *)
Definition brand_new (w : world) (v : value) (w' : world) : Prop :=
  ∃ t id, v = VObj t id ∧ next_id w <= id ∧ id < next_id w' ∧ ∀ sid k, fresh_type k.1 → entry w' sid k ≠ Some v.
Abbreviation nothing := (fun (_ : nat) (_ : ServiceCacheKey) => False).

Lemma alloc_runs B t w : world_ok w → runs B (alloc t) w (fun v w' => v = VObj t (next_id w) ∧ next_id w' = S (next_id w) ∧ ∀ sid k, entry w' sid k = entry w sid k).
Proof.
  intros Hw. unfold runs, post, alloc. match goal with |- world_ok ?w' ∧ _ => assert (Ha : agree w w') by (split; try done; cbn; lia) end.
  split_and!; [by eapply world_ok_agree|by apply evolves_agree|done|done|done].
Qed.

Lemma runs_observed B (m : M world value) w : runs B m w (fun _ _ => True) → runs B (observed m) w (fun _ _ => True).
Proof. unfold runs, post, observed. destruct (m w) as [[v|[]] w']; naive_solver. Qed.

Section visits.
Context (visit : csid → resolverContext → M world value) (get : nat → rtype → M world value) (get_key : nat → rtype → string → M world value).
Context (Hget : ∀ sid t w, world_ok w → runs nothing (get sid t) w (fun _ _ => True)).
Context (Hkey : ∀ sid t k w, world_ok w → runs nothing (get_key sid t k) w (fun _ _ => True)).

Lemma run_prog_runs p w : world_ok w → runs nothing (run_prog get get_key p) w (fun _ _ => True).
Proof using Hget Hkey.
  revert w. induction p as [v err|e|t k IH|c t k IH|c t key k IH]; intros w Hw; cbn [run_prog].
  - by apply runs_ret.
  - by apply runs_fault.
  - eapply runs_bind; [by apply alloc_runs|]. intros v w' Hw' _ _. by apply IH.
  - destruct c; try by apply runs_fault. eapply runs_bind; [by apply runs_observed, Hget|]. intros r w' Hw' _ _. by apply IH.
  - destruct c; try by apply runs_fault. eapply runs_bind; [by apply runs_observed, Hkey|]. intros r w' Hw' _ _. by apply IH.
Qed.

Lemma run_fresh B ctor args w :
  fresh_ctor ctor → world_ok w →
  runs B (run_prog get get_key (Call ctor args)) w (fun r w' => r.2 = None ∧ brand_new w r.1 w').
Proof.
  intros Hf Hw. destruct (Hf args) as [t ->]. cbn [run_prog]. eapply runs_bind; [by apply alloc_runs|].
  intros v w' Hw' _ (-> & Hn & He). apply runs_ret; [done|]. split; [done|]. exists t, (next_id w). split_and!; [done|lia|lia|].
  intros sid k Hk Hx. rewrite He in Hx. destruct (wo_ids w Hw sid k _ Hx Hk) as (? & ? & [= <- <-] & ?). lia.
Qed.

(** *** Visits *)

(** The keys a visit under [ctx] may add to its locked scope. *)
Definition below (ctx : resolverContext) (r : nat) (sid : nat) (k : ServiceCacheKey) : Prop :=
  rc_Scope ctx ≠ 0 ∧ Acquired_Scope ctx = true ∧ sid = rc_Scope ctx ∧ rank k.1 < r.

Lemma below_mono ctx r r' sid k : r <= r' → below ctx r sid k → below ctx r' sid k.
Proof. intros Hr (? & ? & ? & ?). split_and!; try done. lia. Qed.

(** A context that says so holds the mutex of its scope. *)
Definition ctx_ok (ctx : resolverContext) (w : world) : Prop :=
  Acquired_Scope ctx = true → rc_Scope ctx ≠ 0 → ∃ s, scopes w !! rc_Scope ctx = Some s ∧ s_locked s = true.

Lemma ctx_ok_evolves B ctx w w' : evolves B w w' → ctx_ok ctx w → ctx_ok ctx w'.
Proof.
  intros Hev Hok Ha Hn. destruct (Hok Ha Hn) as (s & Hs & Hl). pose proof (ev_scope _ _ _ Hev (rc_Scope ctx)) as Hsc. rewrite Hs in Hsc.
  destruct (scopes w' !! rc_Scope ctx) as [s'|]; [|done]. exists s'. injection Hsc as Hl' _. split; [done|congruence].
Qed.

(** What a visit of [c] that returned [v] left behind. *)
Definition visited (c : csid) (ctx : resolverContext) (w : world) (v : value) (w' : world) : Prop :=
  ∃ cs, sites w' !! c = Some cs ∧
    (Location (cs_cache cs) = CacheLocation_Root → cs_value cs = Some v) ∧
    (Location (cs_cache cs) = CacheLocation_Scope → rc_Scope ctx ≠ 0 → ∃ k, Key (cs_cache cs) = Some k ∧ entry w' (rc_Scope ctx) k = Some v) ∧
    (Location (cs_cache cs) = CacheLocation_Dispose → fresh_site cs → ∃ t id, v = VObj t id ∧ next_id w <= id < next_id w').

Context (Hvisit : ∀ c ctx w cs, world_ok w → ctx_ok ctx w → sites w !! c = Some cs →
  runs (below ctx (S (rank (cs_type cs)))) (visit c ctx) w (visited c ctx w)).

Lemma visit_parameters_runs ctx r ts ps w :
  world_ok w → ctx_ok ctx w → Forall2 (arg_site ds (w_f w)) ts ps → (∀ t, t ∈ ts → rank t < r) →
  runs (below ctx r) (visit_parameters visit ctx ps) w (fun vs w' => Forall2 (arg_value w') ts vs).
Proof using Hvisit Hsim.
  revert ts w. induction ps as [|p ps IH]; intros ts w Hw Hctx Hall Hr; cbn [visit_parameters].
  { apply Forall2_nil_inv_r in Hall as ->. apply runs_ret; [done|constructor]. }
  apply Forall2_cons_inv_r in Hall as (t & ts' & Ha & Hall & ->).
  destruct (arg_site_type ds rank Hsim _ _ _ (wo_store w Hw) Ha) as (cs & Hc & Ht).
  eapply runs_bind.
  - eapply runs_weaken; [by apply (Hvisit p ctx w cs)| |].
    + intros sid k. apply below_mono. rewrite Ht. apply Hr. left.
    + intros v w' Hw' Hev Hv. exact Hv.
  - intros v w1 Hw1 Hev1 (cs1 & Hc1 & Hroot & _ & _). pose proof (evolves_extends _ _ _ Hev1) as Hext.
    assert (Hav : arg_value w1 t v) by (exists p, cs1; split_and!; [by eapply arg_site_extends|done|done]).
    eapply runs_bind; [apply (IH ts'); [done|by eapply ctx_ok_evolves| |]|].
    + eapply Forall2_impl; [done|]. intros u c. by apply arg_site_extends.
    + intros u Hu. apply Hr. by right.
    + intros vs w2 Hw2 Hev2 Hvs. apply runs_ret; [done|]. constructor; [by eapply arg_value_evolves|done].
Qed.

Lemma check_arguments_runs B ps ts vs w : world_ok w → runs B (check_arguments ps ts vs) w (fun _ _ => True).
Proof.
  revert ts vs w. induction ps as [|p ps IH]; intros [|t ts] [|v vs] w Hw; cbn [check_arguments];
    try (by apply runs_fault); [by apply runs_ret|].
  eapply runs_bind; [|intros ? w' Hw' _ _; by apply IH]. unfold check_argument. eapply runs_bind; [by apply runs_get_site|].
  intros cs w' Hw' _ _. instantiate (1 := fun _ _ => True). destruct (AssignableTo _ _); [by apply runs_ret|by apply runs_fault].
Qed.

Lemma log_call_runs B t ts vs w :
  world_ok w → Forall2 (arg_value w) ts vs → runs B (modify (log_call t ts vs)) w (fun _ w' => next_id w' = next_id w).
Proof.
  intros Hw Hall. assert (Hev : evolves B w (log_call t ts vs w)).
  { split; try done.
    - intros c cs Hc. by exists cs.
    - intros sid k v Hx Hy. change (entry w sid k = Some v) in Hy. congruence.
    - intros sid k s _ _ Hx [v Hy]. change (entry w sid k = Some v) in Hy. congruence.
    - by apply prefix_app_r. }
  apply runs_modify; [|done|done]. split; try apply Hw.
  intros t' ts' vs' Hin. cbn in Hin. apply elem_of_app in Hin as [Hin|Hin].
  - eapply Forall2_impl; [by eapply wo_args|]. intros u v. exact (arg_value_evolves B w _ u v Hev).
  - apply list_elem_of_singleton in Hin as [= -> -> ->]. eapply Forall2_impl; [exact Hall|].
    intros u v. exact (arg_value_evolves B w _ u v Hev).
Qed.

Lemma visitConstructor_runs ctx r ctor params t w :
  world_ok w → ctx_ok ctx w → Forall2 (arg_site ds (w_f w)) (In ctor) params → (∀ u, u ∈ In ctor → rank u < r) →
  runs (below ctx r) (visitConstructor visit get get_key t ctor params ctx) w
    (fun v w' => fresh_ctor ctor → brand_new w v w').
Proof using Hvisit Hsim Hget Hkey.
  intros Hw Hctx Hall Hr. unfold visitConstructor. eapply runs_bind; [by apply (visit_parameters_runs ctx r (In ctor))|].
  intros vs w1 Hw1 Hev1 Hvs. eapply runs_bind; [by apply check_arguments_runs|]. intros ? w2 Hw2 Hev2 _.
  eapply runs_bind; [apply log_call_runs; [done|]; eapply Forall2_impl; [exact Hvs|]; intros u v; by apply (arg_value_evolves _ _ _ _ _ Hev2)|].
  intros ? w3 Hw3 Hev3 Hn3.
  assert (Hrun : runs (below ctx r) (run_prog get get_key (Call ctor vs)) w3
    (fun o w' => fresh_ctor ctor → o.2 = None ∧ brand_new w3 o.1 w')).
  { pose proof (run_prog_runs (Call ctor vs) w3 Hw3) as Hp. unfold runs, post in *.
    destruct (run_prog get get_key (Call ctor vs) w3) as [[o|x] w4] eqn:E.
    - destruct Hp as (Hw4 & Hev4 & _). split_and!; [done|by eapply evolves_mono; [|done]|]. intros Hf.
      pose proof (run_fresh nothing ctor vs w3 Hf Hw3) as Hfr. unfold runs, post in Hfr. rewrite E in Hfr. by destruct Hfr as (_ & _ & ?).
    - destruct x; try done; destruct Hp; (split; [done|by eapply evolves_mono; [|done]]). }
  eapply runs_bind; [exact Hrun|]. intros [v err] w4 Hw4 Hev4 Hf.
  pose proof (ev_next _ _ _ Hev1). pose proof (ev_next _ _ _ Hev2).
  assert (Hret : runs (below ctx r) (mret v) w4 (fun v w' => fresh_ctor ctor → brand_new w v w')).
  { apply runs_ret; [done|]. intros Hfr. destruct (Hf Hfr) as (_ & u & id & Hv & Hid & Hid' & Hno). cbn in Hv. subst v. exists u, id. cbv beta in Hn3. split_and!; [done|lia|lia|done]. }
  destruct (length (Out ctor)) as [|[|[|]]]; cbn [fst snd]; try (by apply runs_fault); [done|]. destruct err; [by apply runs_fault|done].
Qed.

Lemma visit_elements_runs ctx r elem css w :
  world_ok w → ctx_ok ctx w → (∀ p, p ∈ css → ∃ cs, sites w !! p = Some cs ∧ rank (cs_type cs) < r) →
  runs (below ctx r) (visit_elements visit ctx elem css) w (fun _ _ => True).
Proof using Hvisit.
  revert w. induction css as [|c css IH]; intros w Hw Hctx Hr; cbn [visit_elements]; [by apply runs_ret|].
  destruct (Hr c) as (cs & Hc & Hlt); [left|]. eapply runs_bind.
  - eapply runs_weaken; [by apply (Hvisit c ctx w cs)| |by intros v w' _ _ Hv; exact Hv]. intros sid k. apply below_mono. lia.
  - intros v w1 Hw1 Hev1 _. destruct (reflect_TypeOf v); [|by apply runs_fault]. destruct (AssignableTo _ _); [|by apply runs_fault].
    eapply runs_bind; [apply IH; [done|by eapply ctx_ok_evolves|]|intros vs w2 Hw2 _ _; by apply runs_ret].
    intros p Hp. destruct (Hr p) as (cs' & Hc' & Hlt'); [by right|].
    destruct (ev_site _ _ _ Hev1 p cs' Hc') as (cs'' & Hc'' & (Ht & _) & _). exists cs''. by rewrite Ht.
Qed.

Lemma visitCallSiteMain_runs c cs ctx w :
  world_ok w → ctx_ok ctx w → sites w !! c = Some cs →
  runs (below ctx (rank (cs_type cs))) (visitCallSiteMain visit get get_key cs ctx) w
    (fun v w' => fresh_site cs → brand_new w v w').
Proof using Hvisit Hsim Hget Hkey.
  intros Hw Hctx Hc. pose proof (site_children ds rank Hsim (w_f w) c cs (wo_store w Hw) Hc) as Hch. unfold visitCallSiteMain, fresh_site.
  destruct (cs_kind cs) as [fac|ctor params|v|e css|] eqn:Ek.
  - unfold visitFactory. eapply runs_bind.
    + eapply runs_weaken; [by apply run_prog_runs|done|]. intros ????. done.
    + intros r w' Hw' _ _. apply runs_ret; [done|]. by intros (? & ? & ? & _).
  - destruct Hch as [Hall Hr]. eapply runs_weaken; [by apply (visitConstructor_runs ctx (rank (cs_type cs)))|done|].
    intros v w' _ _ Hv (ctor' & params' & [= <- <-] & Hf). by apply Hv.
  - apply runs_ret; [done|]. by intros (? & ? & ? & _).
  - destruct Hch as [Hr Hel]. unfold visitSlice. eapply runs_bind; [apply (visit_elements_runs ctx (rank (cs_type cs))); [done|done|]|].
    + intros p Hp. destruct (Hel p Hp) as [slot Hs]. destruct (cached_type ds rank Hsim _ _ _ _ (wo_store w Hw) Hs) as (cs' & Hc' & Ht).
      exists cs'. by rewrite Ht.
    + intros vs w' Hw' _ _. apply runs_ret; [done|]. by intros (? & ? & ? & _).
  - apply runs_ret; [done|]. by intros (? & ? & ? & _).
Qed.

(** *** Singletons *)
Definition set_value (c : csid) (v : value) (w : world) : world :=
  set_f (fun s => mkF (alter (fun cs => mkCallSite (cs_type cs) (cs_kind cs) (cs_cache cs) (Some v)) c (callSites s))
                      (callSiteCache s) (typeLocks s) (chain s)) w.

Lemma sites_set_value c v w c' :
  sites (set_value c v w) !! c' =
    if decide (c = c') then (fun cs => mkCallSite (cs_type cs) (cs_kind cs) (cs_cache cs) (Some v)) <$> sites w !! c else sites w !! c'.
Proof. cbn. case_decide as Hd; [subst; by rewrite list_lookup_alter_eq|by rewrite list_lookup_alter_ne]. Qed.

Lemma evolves_set_value B c cs v w : sites w !! c = Some cs → cs_value cs = None → c ∉ siteLocks w → evolves B w (set_value c v w).
Proof.
  intros Hc Hn Hl. split; try done.
  - intros c' cs' Hc'. rewrite sites_set_value. case_decide as Hd; [|by exists cs']. assert (cs' = cs) as -> by congruence. rewrite Hc.
    eexists. split; [done|]. split_and!; [done|by rewrite Hn|intros Hin; by subst c'].
  - intros sid k v' Hx Hy. change (entry w sid k = Some v') in Hy. congruence.
  - intros sid k s _ _ Hx [v' Hy]. change (entry w sid k = Some v') in Hy. congruence.
Qed.

Lemma world_ok_set_value c cs v w :
  world_ok w → sites w !! c = Some cs → cs_value cs = None →
  Location (cs_cache cs) = CacheLocation_Root ∨ Location (cs_cache cs) = CacheLocation_Scope →
  c ∉ siteLocks w → world_ok (set_value c v w).
Proof.
  intros Hw Hc Hn Hloc Hl. pose proof (evolves_set_value nothing c cs v w Hc Hn Hl) as Hev. split.
  - apply (store_ok_values ds (w_f w)); [apply Hw|by eapply evolves_extends|done|cbn; by rewrite length_alter|].
    intros c' cs' v'. rewrite sites_set_value. case_decide as Hd; [subst c'; rewrite Hc; cbn; by intros [= <-]|]. apply (ok_values ds _ (wo_store w Hw)).
  - intros t a Ht. eapply realized_ok_evolves; [done|by apply (wo_realized w Hw)].
  - intros k c' Hk. destruct (wo_keys w Hw k c' Hk) as [cs' Hc']. destruct (ev_site _ _ _ Hev c' cs' Hc') as (cs'' & -> & _). by eexists.
  - intros t ts vs Hin. eapply Forall2_impl; [by apply (wo_args w Hw t)|]. intros u x. exact (arg_value_evolves nothing w _ u x Hev).
  - apply (wo_ids w Hw).
  - apply (wo_distinct w Hw).
Qed.

Lemma evolves_site_unlock B c w w' :
  c ∉ siteLocks w → evolves B (set_siteLocks (fun l => {[c]} ∪ l) w) w' → evolves B w (set_siteLocks (fun l => l ∖ {[c]}) w').
Proof.
  intros Hc Hev. split; try apply Hev.
  - intros c' cs Hcs. destruct (ev_site _ _ _ Hev c' cs Hcs) as (cs' & ? & ? & ? & Hl). exists cs'. split_and!; [done|done|done|].
    intros Hin. apply Hl. cbn. apply elem_of_union. by right.
  - cbn. rewrite (ev_locks _ _ _ Hev). cbn. clear -Hc. set_solver.
Qed.

Lemma visitRootCache_runs c ctx w cs :
  world_ok w → sites w !! c = Some cs →
  Location (cs_cache cs) = CacheLocation_Root ∨ Location (cs_cache cs) = CacheLocation_Scope →
  runs nothing (visitRootCache visit get get_key c ctx) w (fun v w' => ∃ cs', sites w' !! c = Some cs' ∧ same_site cs cs' ∧ cs_value cs' = Some v).
Proof using Hvisit Hsim Hget Hkey.
  intros Hw Hc Hloc. unfold visitRootCache. eapply runs_bind; [by apply runs_get_site|]. intros cs0 w0 Hw0 _ [-> Hc0].
  rewrite Hc in Hc0. injection Hc0 as <-. destruct (cs_value cs) as [v|] eqn:Ev; [apply runs_ret; [done|by exists cs]|].
  unfold with_site_lock, runs, post. destruct (decide (c ∈ siteLocks w)) as [Hl|Hl]; [done|].
  set (w1 := set_siteLocks (fun l => {[c]} ∪ l) w).
  set (E := fun (x : fault) (w' : world) => match x with Stuck | NoFuel => True | _ => world_ok w' ∧ evolves nothing w w' end).
  set (unlock := set_siteLocks (fun l : gset csid => l ∖ {[c]})).
  match goal with |- match deferred _ ?m _ with _ => _ end => change (post (deferred unlock m) w1 (fun v w' => world_ok w' ∧ evolves nothing w w' ∧
    ∃ cs', sites w' !! c = Some cs' ∧ same_site cs cs' ∧ cs_value cs' = Some v) E) end.
  apply post_deferred.
  assert (Hw1 : world_ok w1) by (by apply (world_ok_agree w)).
  assert (Hfault : ∀ x w', (match x with Stuck | NoFuel => True | _ => world_ok w' ∧ evolves nothing w1 w' end) →
    match x with Stuck | NoFuel => E x w' | _ => E x (unlock w') end).
  { intros x w' Hx. destruct x; try done; destruct Hx as [Hx1 Hx2]; (split; [by apply (world_ok_agree w')|by apply evolves_site_unlock]). }
  apply post_bind. eapply post_weaken; [by apply (runs_get_site nothing c w1)| |exact Hfault].
  intros cs1 w1' (_ & _ & -> & Hc1). change (sites w1) with (sites w) in Hc1. rewrite Hc in Hc1. injection Hc1 as <-. rewrite Ev.
  apply post_bind. eapply post_weaken; [apply (visitCallSiteMain_runs c cs (mkRC 0 (Acquired_Scope ctx) true) w1); [done|by intros _ []|done]| |].
  2: { intros x w' Hx. apply Hfault. destruct x; try done; destruct Hx as [Hx1 Hx2]; (split; [done|]); (eapply evolves_mono; [|done]); by intros ? ? ([] & _). }
  intros v w2 (Hw2 & Hev2 & _). assert (Hev2' : evolves nothing w1 w2) by (eapply evolves_mono; [|done]; by intros ? ? ([] & _)).
  apply post_bind. eapply post_weaken; [by apply (runs_Capture nothing 0 v w2)| |].
  2: { intros x w' Hx. apply Hfault. destruct x; try done; destruct Hx as [Hx1 Hx2]; (split; [done|by etrans]). }
  intros ? w3 (Hw3 & Hev3 & _). assert (Hev3' : evolves nothing w1 w3) by (by etrans).
  destruct (ev_site _ _ _ Hev3' c cs Hc) as (cs3 & Hc3 & Hss & _ & Hkeep). rewrite Ev in Hkeep.
  assert (Hnone : cs_value cs3 = None) by (apply Hkeep; cbn; set_solver).
  assert (Hwu : world_ok (unlock w3)) by (by apply (world_ok_agree w3)).
  assert (Hevu : evolves nothing w (unlock w3)) by (by apply evolves_site_unlock).
  assert (Hlu : c ∉ siteLocks (unlock w3)) by (cbn; set_solver).
  assert (Hloc3 : Location (cs_cache cs3) = CacheLocation_Root ∨ Location (cs_cache cs3) = CacheLocation_Scope) by (by destruct Hss as (_ & _ & ->)).
  assert (Hdone : ∀ v', let w4 := set_value c v' (unlock w3) in
    world_ok w4 ∧ evolves nothing w w4 ∧ ∃ cs', sites w4 !! c = Some cs' ∧ same_site cs cs' ∧ cs_value cs' = Some v').
  { intros v'. split_and!; [by apply (world_ok_set_value c cs3)|etrans; [exact Hevu|]; by apply (evolves_set_value nothing c cs3)|].
    rewrite sites_set_value, decide_True by done. change (sites (unlock w3)) with (sites w3). rewrite Hc3. by eexists. }
  apply post_bind. unfold SetValue. destruct v; [..|exact (conj Hwu Hevu)]; apply post_modify, post_ret; exact (Hdone _).
Qed.

(** *** Scoped services *)
Lemma fresh_type_site s c cs :
  store_ok ds s → callSites s !! c = Some cs → Location (cs_cache cs) ≠ CacheLocation_None → fresh_type (cs_type cs) → fresh_site cs.
Proof using Hsim.
  intros Hs Hc Hl [(d0 & Hd0 & Ht0) Hall].
  destruct (ok_sites ds s Hs c cs Hc) as [(t & slot & [Hb|(d & Hd & Ht & Hm)])|(e & Ht & Hr & _)].
  - destruct Hb as (_ & _ & _ & He & _). by rewrite He in Hl.
  - destruct (registration_facts ds rank Hsim _ _ _ Hd) as [Hin _]. destruct (Hall d Hin) as (Hi & Hf & ctor & Hctor & Hfr); [by rewrite Ht|].
    rewrite Hi, Hf, Hctor in Hm. destruct Hm as (_ & params & Hk & _). by exists ctor, params.
  - exfalso. rewrite Ht in Ht0. assert (Hin : d0 ∈ registrations ds (SliceOf e)).
    { unfold registrations. apply list_elem_of_bind. exists d0. split; [|done]. apply elem_of_replicate. split; [done|].
      unfold registered_as. rewrite decide_True by done. done. }
    rewrite Hr in Hin. by apply elem_of_nil in Hin.
Qed.

Definition put_entry (sid : nat) (m : gmap ServiceCacheKey value) (k : ServiceCacheKey) (v : value) (w : world) : world :=
  update_scope sid (fun s => mkScope (Some (<[k := v]> m)) (s_locked s) (s_disposed s) (disposables s)) w.

Lemma entry_put sid m k v w s sid' k' :
  scopes w !! sid = Some s → ResolvedServices s = Some m →
  entry (put_entry sid m k v w) sid' k' = if decide (sid = sid' ∧ k = k') then Some v else entry w sid' k'.
Proof.
  intros Hs Hm. unfold entry, put_entry. rewrite scopes_update. destruct (decide (sid = sid')) as [<-|Hne].
  - rewrite Hs. cbn. rewrite Hm. cbn. destruct (decide (k = k')) as [<-|Hk]; [by rewrite lookup_insert_eq, decide_True|].
    rewrite lookup_insert_ne, decide_False by (by intros [? ?] || done). done.
  - by rewrite decide_False by (by intros [? _]).
Qed.

Lemma evolves_put B sid m k v w w' s :
  evolves B w w' → scopes w' !! sid = Some s → ResolvedServices s = Some m → entry w sid k = None → entry w' sid k = None → B sid k →
  (fresh_type k.1 → ∃ t id, v = VObj t id ∧ next_id w <= id) → evolves B w (put_entry sid m k v w').
Proof.
  intros Hev Hs Hm Hn Hn' HB Hf. split; try apply Hev.
  - intros sid'. rewrite <- (ev_scope _ _ _ Hev). unfold put_entry. rewrite scopes_update. case_decide as Hd; [subst|done].
    by destruct (scopes w' !! sid').
  - intros sid' k' v' Hx. rewrite (entry_put _ _ _ _ _ _ _ _ Hs Hm). case_decide as Hd; [|by apply Hev].
    destruct Hd as [<- <-]. congruence.
  - intros sid' k' v' Hx. rewrite (entry_put _ _ _ _ _ _ _ _ Hs Hm). case_decide as Hd; [|by apply Hev].
    destruct Hd as [<- <-]. intros [= <-]. done.
  - intros sid' k' s' Hs' Hl Hx. rewrite (entry_put _ _ _ _ _ _ _ _ Hs Hm). case_decide as Hd; [by destruct Hd as [<- <-]|].
    by eapply (ev_bound _ _ _ Hev).
Qed.

Lemma world_ok_put sid m k v w s :
  world_ok w → scopes w !! sid = Some s → ResolvedServices s = Some m →
  (fresh_type k.1 → (∃ t id, v = VObj t id ∧ id < next_id w) ∧ ∀ sid' k', fresh_type k'.1 → entry w sid' k' ≠ Some v) →
  world_ok (put_entry sid m k v w).
Proof.
  intros Hw Hs Hm Hf. pose proof (entry_put sid m k v w s) as He. split; try apply Hw.
  - intros sid' k' v'. rewrite (He sid' k' Hs Hm). case_decide as Hd; [destruct Hd as [<- <-]; intros [= <-] Hfr; by apply Hf|].
    apply (wo_ids w Hw).
  - intros s1 s2 k' v'. rewrite (He s1 k' Hs Hm), (He s2 k' Hs Hm).
    case_decide as H1; case_decide as H2; intros Hx Hy Hfr.
    + destruct H1, H2. congruence.
    + assert (v' = v) as -> by congruence. destruct H1 as [_ <-]. destruct (Hf Hfr) as [_ Hno]. by destruct (Hno s2 k Hfr).
    + assert (v' = v) as -> by congruence. destruct H2 as [_ <-]. destruct (Hf Hfr) as [_ Hno]. by destruct (Hno s1 k Hfr).
    + by eapply (wo_distinct w Hw).
Qed.

Lemma visit_scope_body_runs (B : nat → ServiceCacheKey → Prop) c cs ctx w s :
  world_ok w → sites w !! c = Some cs → Location (cs_cache cs) = CacheLocation_Scope → rc_Scope ctx ≠ 0 →
  scopes w !! rc_Scope ctx = Some s → s_locked s = true → (∀ k, rank k.1 < S (rank (cs_type cs)) → B (rc_Scope ctx) k) →
  runs B (visit_scope_body visit get get_key cs ctx) w (fun v w' => ∃ k, Key (cs_cache cs) = Some k ∧ entry w' (rc_Scope ctx) k = Some v).
Proof using Hvisit Hsim Hget Hkey.
  intros Hw Hc Hloc Hne Hs Hl HB. destruct (site_key ds rank Hsim _ _ _ (wo_store w Hw) Hc) as [slot Hk]; [congruence|].
  set (k := (cs_type cs, slot)) in *. set (sid := rc_Scope ctx) in *. unfold visit_scope_body. fold sid.
  eapply runs_bind; [by apply runs_get_scope|]. intros s0 w0 Hw0 _ [-> Hs0]. rewrite Hs in Hs0. injection Hs0 as <-.
  assert (Hent : entry w sid k = lookup_resolved s (Key (cs_cache cs))) by (unfold entry; by rewrite Hs, Hk).
  destruct (lookup_resolved s (Key (cs_cache cs))) as [v|] eqn:Elk; [apply runs_ret; [done|by exists k]|].
  set (ctx' := mkRC sid true (Acquired_Root ctx)).
  assert (HBelow : ∀ sid' k', below ctx' (rank (cs_type cs)) sid' k' → B sid' k').
  { intros sid' k' (_ & _ & -> & Hr). apply HB. lia. }
  apply post_bind. eapply post_weaken; [apply (visitCallSiteMain_runs c cs ctx' w); [done|by intros _ _; exists s|done]| |].
  2: { intros x w' Hx. destruct x; try done; destruct Hx; (split; [done|by eapply evolves_mono]). }
  intros v w1 (Hw1 & Hev1 & Hnew).
  assert (Hn1 : entry w1 sid k = None).
  { destruct (entry w1 sid k) eqn:E1; [|done]. pose proof (ev_bound _ _ _ Hev1 sid k s Hs Hl Hent ltac:(by rewrite E1)) as (_ & _ & _ & Hr).
    simpl in Hr. lia. }
  apply post_bind. eapply post_weaken; [by apply (runs_CaptureWithoutLock B sid v w1)| |].
  2: { intros x w' Hx. destruct x; try done; destruct Hx; (split; [done|]); (etrans; [by eapply evolves_mono|done]). }
  intros ? w2 (Hw2 & Hev2 & He2). assert (Hev2' : evolves B w w2) by (etrans; [by eapply evolves_mono|done]).
  apply post_bind. unfold store_resolved. apply post_bind. eapply post_weaken; [by apply (runs_get_scope B sid w2)| |].
  2: { intros x w' Hx. destruct x; try done; destruct Hx; (split; [done|by etrans]). }
  intros s2 w2' (_ & _ & -> & Hs2). rewrite Hk. destruct (ResolvedServices s2) as [m|] eqn:Em; [|by split].
  assert (Hfresh : fresh_type k.1 → brand_new w v w1).
  { intros Hf. apply Hnew. eapply fresh_type_site; [apply (wo_store w Hw)|done|congruence|done]. }
  apply post_modify, post_ret. fold (put_entry sid m k v w2). split_and!.
  - eapply world_ok_put; [done|done|done|]. intros Hf. destruct (Hfresh Hf) as (t & id & -> & _ & Hid & Hno). split.
    + exists t, id. split; [done|]. pose proof (ev_next _ _ _ Hev2). lia.
    + intros sid' k' Hf'. rewrite He2. by apply Hno.
  - eapply evolves_put; [done|done|done|done|by rewrite He2|apply HB; simpl; lia|].
    intros Hf. destruct (Hfresh Hf) as (t & id & -> & Hid & _). by exists t, id.
  - exists k. split; [done|]. rewrite (entry_put _ _ _ _ _ _ _ _ Hs2 Em). by rewrite decide_True.
Qed.

Lemma visitScopeCache_runs c ctx w cs :
  world_ok w → ctx_ok ctx w → sites w !! c = Some cs → Location (cs_cache cs) = CacheLocation_Scope →
  runs (below ctx (S (rank (cs_type cs)))) (visitScopeCache visit get get_key c ctx) w
    (fun v w' => rc_Scope ctx ≠ 0 → ∃ k, Key (cs_cache cs) = Some k ∧ entry w' (rc_Scope ctx) k = Some v).
Proof using Hvisit Hsim Hget Hkey.
  intros Hw Hctx Hc Hloc. unfold visitScopeCache. case_decide as Hz.
  - eapply runs_weaken; [apply (visitRootCache_runs c ctx w cs); [done|done|by right]|done|]. done.
  - eapply runs_bind; [by apply runs_get_site|]. intros cs0 w0 Hw0 _ [-> Hc0]. rewrite Hc in Hc0. injection Hc0 as <-.
    destruct (Acquired_Scope ctx) eqn:Ea.
    + destruct (Hctx Ea Hz) as (s & Hs & Hl). eapply runs_weaken; [eapply (visit_scope_body_runs _ c cs ctx w s); try done|done|].
      * intros k Hr. by split_and!.
      * intros v w' _ _ Hv _. exact Hv.
    + eapply (runs_scope_lock _ (rc_Scope ctx)); [done|]. intros s Hs Hl w1 Hw1.
      eapply runs_weaken; [eapply (visit_scope_body_runs (fun sid' k => sid' = rc_Scope ctx ∨ _) c cs ctx w1 (set_locked true s)); try done| |].
      * unfold w1. rewrite scopes_update, decide_True by done. by rewrite Hs.
      * by left.
      * intros sid' k [-> |Hx]; [by left|exact (or_intror Hx)].
      * intros v w' _ _ (k & Hk & Hv) _. exists k. split; [done|]. rewrite <- Hv. by apply agree_update.
Qed.

Lemma visitCallSite_runs c ctx w cs :
  world_ok w → ctx_ok ctx w → sites w !! c = Some cs →
  runs (below ctx (S (rank (cs_type cs)))) (visitCallSite visit get get_key c ctx) w (visited c ctx w).
Proof using Hvisit Hsim Hget Hkey.
  intros Hw Hctx Hc. unfold visitCallSite. eapply runs_bind; [by apply runs_get_site|]. intros cs0 w0 Hw0 _ [-> Hc0].
  rewrite Hc in Hc0. injection Hc0 as <-.
  assert (Hlater : ∀ w', evolves (below ctx (S (rank (cs_type cs)))) w w' → ∃ cs', sites w' !! c = Some cs' ∧ same_site cs cs').
  { intros w' Hev. destruct (ev_site _ _ _ Hev c cs Hc) as (cs' & ? & ? & _). by exists cs'. }
  assert (Hmain : runs (below ctx (S (rank (cs_type cs)))) (visitCallSiteMain visit get get_key cs ctx) w (fun v w' => fresh_site cs → brand_new w v w')).
  { eapply runs_weaken; [by apply (visitCallSiteMain_runs c)| |done]. intros sid k. apply below_mono. lia. }
  destruct (Location (cs_cache cs)) eqn:El.
  - eapply runs_weaken; [apply (visitRootCache_runs c ctx w cs); [done|done|by left]|done|].
    intros v w' _ _ (cs' & Hc' & (_ & _ & Hcache) & Hv). exists cs'. rewrite Hcache, El. by split_and!.
  - eapply runs_weaken; [by apply (visitScopeCache_runs c ctx w cs)|done|]. intros v w' _ Hev Hv.
    destruct (Hlater w' Hev) as (cs' & Hc' & (_ & _ & Hcache)). exists cs'. rewrite Hcache, El. split_and!; [done|done| |done]. intros _. exact Hv.
  - unfold visitDisposeCache. eapply runs_bind; [exact Hmain|]. intros v w1 Hw1 Hev1 Hnew.
    eapply runs_bind; [by apply runs_Capture|]. intros ? w2 Hw2 Hev2 _. apply runs_ret; [done|].
    destruct (Hlater w2 ltac:(by etrans)) as (cs' & Hc' & Hss). exists cs'. pose proof Hss as (_ & Hkind & Hcache). rewrite Hcache, El.
    split_and!; [done|done|done|]. intros _ Hf. destruct Hnew as (t & id & -> & Hlo & Hhi & _).
    { unfold fresh_site in *. by rewrite Hkind in Hf. }
    exists t, id. split_and!; [done|done|]. pose proof (ev_next _ _ _ Hev2). lia.
  - eapply runs_weaken; [exact Hmain|done|]. intros v w' _ Hev _. destruct (Hlater w' Hev) as (cs' & Hc' & (_ & _ & Hcache)).
    exists cs'. rewrite Hcache, El. by split_and!.
Qed.
End visits.

(** *** The container *)
Lemma in_factory_runs B {A} (m : M fstate A) r w (Q : A → fstate → Prop) :
  world_ok w →
  (∀ s, store_ok ds s → post m s (fun a s' => store_ok ds s' ∧ grown rank r s s' ∧ Q a s') (fun _ s' => store_ok ds s' ∧ grown rank r s s')) →
  (∀ s, gives_back m s) → runs B (in_factory m) w (fun a w' => Q a (w_f w')).
Proof.
  intros Hw Hm Hgb. set (s0 := mkF (callSites (w_f w)) (callSiteCache (w_f w)) (typeLocks (w_f w)) ∅).
  assert (Hs0 : store_ok ds s0) by (apply store_ok_control, Hw). specialize (Hm s0 Hs0). specialize (Hgb s0).
  assert (Hkeep : ∀ s', store_ok ds s' → grown rank r s0 s' → typeLocks s' = typeLocks s0 → world_ok (set_f (fun _ => s') w) ∧ evolves B w (set_f (fun _ => s') w)).
  { intros s' Hs' (Hpre & Hsub & _) Htl. assert (Hev : ∀ B, evolves B w (set_f (fun _ => s') w)).
    { intros B'. split; try done.
      - intros c cs Hc. exists cs. split_and!; [by eapply prefix_lookup_Some|done|done|done].
      - intros sid k v Hx Hy. change (entry w sid k = Some v) in Hy. congruence.
      - intros sid k s _ _ Hx [v Hy]. change (entry w sid k = Some v) in Hy. congruence. }
    split; [|apply Hev]. split.
    - done.
    - intros t a Ht. eapply (realized_ok_evolves nothing); [apply Hev|by apply (wo_realized w Hw)].
    - intros k c Hk. destruct (wo_keys w Hw k c Hk) as [cs Hc]. exists cs. by eapply prefix_lookup_Some.
    - intros t ts vs Hin. eapply Forall2_impl; [by apply (wo_args w Hw t)|]. intros u x. exact (arg_value_evolves nothing w _ u x (Hev nothing)).
    - apply (wo_ids w Hw).
    - apply (wo_distinct w Hw). }
  unfold runs, gives_back, post, in_factory in *. fold s0. destruct (m s0) as [[a|x] s'].
  - destruct Hm as (Hs' & Hg & HQ). destruct (Hkeep s' Hs' Hg Hgb). by split_and!.
  - destruct Hm as [Hs' Hg]. destruct x; try done; by apply Hkeep.
Qed.

Lemma runs_recovered B {A} (m : M world A) w Q : runs B m w Q → runs B (recovered m) w Q.
Proof. unfold runs, post, recovered. by destruct (m w) as [[a|[]] w']. Qed.

Lemma ValidateCallSite_runs B c w : world_ok w → runs B (ValidateCallSite c) w (fun _ w' => w_f w' = w_f w).
Proof.
  intros Hw. unfold runs, post, ValidateCallSite. destruct (validator_visit _ _ _ _) as [[t|]|x]; [|by split_and!|by destruct x].
  destruct (sites w !! c); [|by split_and!]. split_and!; [by apply (world_ok_agree w)|by apply evolves_agree|done].
Qed.

Section container.
Context (n : nat) (visit : csid → resolverContext → M world value).
Context (Hvisit : ∀ c ctx w cs, world_ok w → ctx_ok ctx w → sites w !! c = Some cs →
  runs (below ctx (S (rank (cs_type cs)))) (visit c ctx) w (visited c ctx w)).

Lemma Resolve_runs c sid w cs :
  world_ok w → sites w !! c = Some cs → runs nothing (Resolve visit c sid) w (visited c (mkRC sid false false) w).
Proof using Hvisit.
  intros Hw Hc. unfold Resolve. eapply runs_bind; [by apply runs_get_site|]. intros cs0 w0 _ _ [-> Hc0]. rewrite Hc in Hc0. injection Hc0 as <-.
  assert (Hv : runs nothing (visit c (mkRC sid false false)) w (visited c (mkRC sid false false) w)).
  { eapply runs_weaken; [by apply (Hvisit c _ w cs)| |done]. by intros sid' k (_ & [=] & _). }
  destruct (cs_value cs) as [v|] eqn:Ev; [|done]. case_decide as Hz; [|done]. subst sid. apply runs_ret; [done|].
  exists cs. split_and!; [done|done|by intros _ []|]. intros Hl. destruct (ok_values ds _ (wo_store w Hw) c cs v Hc Ev); congruence.
Qed.

Definition made_for (w : world) (c : csid) (a : accessor) : Prop :=
  ∃ cs, sites w !! c = Some cs ∧
    match a with
    | AccessValue v => Location (cs_cache cs) = CacheLocation_Root ∧ cs_value cs = Some v
    | AccessSite c' => c' = c ∧ Location (cs_cache cs) ≠ CacheLocation_Root
    end.

Lemma realize_runs c w : world_ok w → runs nothing (realize validate visit c) w (fun a w' => made_for w' c a).
Proof using Hvisit.
  intros Hw. unfold realize. eapply (runs_bind _ _ _ _ (fun _ _ => True)).
  { destruct validate; [|by apply runs_ret]. eapply runs_weaken; [by apply (ValidateCallSite_runs nothing)|done|by intros]. }
  intros ? w1 Hw1 _ _. eapply runs_bind; [by apply runs_get_site|]. intros cs w2 Hw2 _ [-> Hc]. case_decide as Hl.
  - eapply runs_bind; [by apply (Resolve_runs c 0 w1 cs)|]. intros v w3 Hw3 Hev3 (cs3 & Hc3 & Hroot & _). apply runs_ret; [done|].
    destruct (ev_site _ _ _ Hev3 c cs Hc) as (cs' & Hc' & (_ & _ & Hcache) & _). assert (cs3 = cs') as -> by congruence.
    exists cs'. rewrite Hcache in *. split_and!; [done|done|by apply Hroot].
  - apply runs_ret; [done|]. exists cs. by split_and!.
Qed.

Lemma createServiceAccessor_runs t w : world_ok w → runs nothing (createServiceAccessor f validate n visit t) w (fun a w' => realized_ok w' t a).
Proof using Hvisit Hsim.
  intros Hw. unfold createServiceAccessor. eapply runs_bind.
  - apply (in_factory_runs nothing (GetCallSite f n t) (S (rank t)) w (fun c s' => arg_site ds s' t c)); [done| |].
    + intros s Hs. exact (GetCallSite_store ds rank Hsim n t s Hs).
    + intros s. apply GetCallSite_gives_back.
  - intros c w1 Hw1 _ Ha. eapply runs_weaken; [by apply realize_runs|done|]. intros a w2 _ Hev2 (cs & Hc & Hm). exists c, cs.
    split_and!; [|done|done]. eapply arg_site_extends; [by eapply evolves_extends|exact Ha].
Qed.

Lemma createServiceLookupKeyAccessor_runs key w :
  world_ok w → runs nothing (createServiceLookupKeyAccessor f validate n visit key) w (fun a w' => ∃ c, made_for w' c a).
Proof using Hvisit Hsim.
  intros Hw. unfold createServiceLookupKeyAccessor. destruct (descriptorKeyLookup f !! key) as [[[d|] l]|] eqn:Ek;
    [|by apply runs_fault|by apply runs_fault].
  pose proof (populate_keys ds key _ Ek) as Hall. cbn in Hall.
  assert (Hd : default d (last l) ∈ ds).
  { inversion Hall as [|? ? Hd Hl]; subst. destruct (last l) as [d'|] eqn:El; [|done]. apply last_Some_elem_of in El.
    by apply (proj1 (Forall_forall _ _) Hl). }
  eapply runs_bind.
  - apply (in_factory_runs nothing (GetCallSiteByDescriptor f n (default d (last l))) (S (rank (ServiceType (default d (last l))))) w
      (fun c s' => is_Some (callSites s' !! c))); [done| |].
    + intros s Hs. by apply (GetCallSiteByDescriptor_store ds rank Hsim).
    + intros s. apply GetCallSiteByDescriptor_gives_back.
  - intros c w1 Hw1 _ _. eapply runs_weaken; [by apply realize_runs|done|]. intros a w2 _ _ Ha. by exists c.
Qed.

(** What [Get] left behind. *)
Definition got (sid : nat) (t : rtype) (w : world) (v : value) (w' : world) : Prop :=
  ∃ a, realizedServices w' !! t = Some a ∧
    match a with AccessValue v' => v = v' | AccessSite c => visited c (mkRC sid false false) w v w' end.

Lemma visited_earlier c ctx w w0 v w' : next_id w0 <= next_id w → visited c ctx w v w' → visited c ctx w0 v w'.
Proof.
  intros Hn (cs & Hc & Hr & Hs & Hd). exists cs. split_and!; [done|done|done|]. intros Hl Hf.
  destruct (Hd Hl Hf) as (t & id & -> & ? & ?). exists t, id. split_and!; [done|lia|done].
Qed.

Lemma ValidateResolution_runs B t sid w : world_ok w → runs B (if validate then ValidateResolution t sid else mret tt) w (fun _ w' => w' = w).
Proof.
  intros Hw. destruct validate; [|by apply runs_ret]. unfold ValidateResolution. eapply (runs_bind _ _ _ _ (fun _ w' => w' = w)); [by apply runs_gets|].
  intros m w' _ _ ->. case_decide; [|by apply runs_ret]. destruct (m !! t); [by apply runs_fault|by apply runs_ret].
Qed.

Lemma access_runs a sid w t :
  world_ok w → realized_ok w t a →
  runs nothing (access visit a sid) w (fun v w' => match a with AccessValue v' => v = v' | AccessSite c => visited c (mkRC sid false false) w v w' end).
Proof using Hvisit.
  intros Hw (c & cs & _ & Hc & Ha). destruct a as [v|c']; cbn [access]; [by apply runs_ret|]. destruct Ha as [-> _]. by apply (Resolve_runs c sid w cs).
Qed.

(** The accessor of a type, made at the first request. *)
Lemma realized_or_created t w :
  world_ok w →
  runs nothing (match realizedServices w !! t with
    | Some a => mret a
    | None =>
        a ← createServiceAccessor f validate n visit t;
        stored ← gets (fun w => realizedServices w !! t);
        match stored with Some a' => mret a' | None => _ ← modify (set_realized (fun m => <[t := a]> m)); mret a end
    end) w (fun a w' => realizedServices w' !! t = Some a).
Proof using Hvisit Hsim.
  intros Hw. destruct (realizedServices w !! t) as [a|] eqn:E; [by apply runs_ret|]. eapply runs_bind; [by apply createServiceAccessor_runs|].
  intros a w1 Hw1 _ Ha. eapply (runs_bind _ _ _ _ (fun o w' => w' = w1 ∧ o = realizedServices w1 !! t)); [by apply runs_gets|].
  intros o w2 _ _ [-> ->]. destruct (realizedServices w1 !! t) as [a'|] eqn:E1; [by apply runs_ret|].
  assert (Hev : ∀ B, evolves B w1 (set_realized (fun m => <[t := a]> m) w1)).
  { intros B. split; try done.
    - intros c cs Hc. by exists cs.
    - intros s k v Hx Hy. change (entry w1 s k = Some v) in Hy. congruence.
    - intros s k s' _ _ Hx [v Hy]. change (entry w1 s k = Some v) in Hy. congruence.
    - by apply insert_subseteq. }
  eapply (runs_bind _ _ _ _ (fun _ w' => realizedServices w' !! t = Some a)); [apply runs_modify; [|apply Hev|cbn; by rewrite lookup_insert_eq]|].
  - split; try apply Hw1. intros t' a'. cbn. intros [[<- <-]|[_ Ht']]%lookup_insert_Some; [exact Ha|by apply (wo_realized w1 Hw1)].
  - intros ? w3 Hw3 _ Hr. by apply runs_ret.
Qed.

Lemma GetWithScope_runs t sid w : world_ok w → runs nothing (GetWithScope f validate n visit t sid) w (got sid t w).
Proof using Hvisit Hsim.
  intros Hw. unfold GetWithScope. eapply (runs_bind _ _ _ _ (fun _ w' => w' = w)); [by apply runs_gets|]. intros d w0 _ _ ->.
  destruct d; [by apply runs_fault|]. apply runs_recovered.
  eapply (runs_bind _ _ _ _ (fun o w' => w' = w ∧ o = realizedServices w !! t)); [by apply runs_gets|]. intros o w0 _ _ [-> ->].
  eapply runs_bind; [by apply realized_or_created|].
  intros a w1 Hw1 Hev1 Ha. eapply runs_bind; [by apply ValidateResolution_runs|]. intros ? w2 _ _ ->.
  eapply runs_weaken; [apply (access_runs a sid w1 t); [done|by apply (wo_realized w1 Hw1)]|done|].
  intros v w2 _ Hev2 Hv. exists a. split; [eapply lookup_weaken; [exact Ha|apply Hev2]|]. destruct a; [done|].
  eapply visited_earlier; [apply (ev_next _ _ _ Hev1)|done].
Qed.

Lemma GetWithScopeWithLookupKey_runs t key sid w :
  world_ok w → runs nothing (GetWithScopeWithLookupKey f validate n visit t key sid) w (fun _ _ => True).
Proof using Hvisit Hsim.
  intros Hw. unfold GetWithScopeWithLookupKey. eapply (runs_bind _ _ _ _ (fun _ w' => w' = w)); [by apply runs_gets|]. intros d w0 _ _ ->.
  destruct d; [by apply runs_fault|]. apply runs_recovered. set (hk := hashTypeAndString t key).
  eapply (runs_bind _ _ _ _ (fun o w' => w' = w ∧ o = realizedLookupKeyServices w !! hk)); [by apply runs_gets|]. intros o w0 _ _ [-> ->].
  eapply (runs_bind _ _ _ _ (fun a w' => ∀ c, a = AccessSite c → is_Some (sites w' !! c))).
  { destruct (realizedLookupKeyServices w !! hk) as [a|] eqn:E; [apply runs_ret; [done|]; intros c ->; by apply (wo_keys w Hw hk)|].
    eapply runs_bind; [by apply createServiceLookupKeyAccessor_runs|].
    intros a w1 Hw1 _ (c & cs & Hc & Ha). assert (Hsite : ∀ c', a = AccessSite c' → is_Some (sites w1 !! c')).
    { intros c' ->. destruct Ha as [-> _]. by exists cs. }
    eapply (runs_bind _ _ _ _ (fun o w' => w' = w1 ∧ o = realizedLookupKeyServices w1 !! hk)); [by apply runs_gets|].
    intros o w2 _ _ [-> ->]. destruct (realizedLookupKeyServices w1 !! hk) as [a'|] eqn:E1.
    { apply runs_ret; [done|]. intros c' ->. by apply (wo_keys w1 Hw1 hk). }
    eapply (runs_bind _ _ _ _ (fun _ w' => ∀ c', a = AccessSite c' → is_Some (sites w' !! c'))); [|intros ? w3 Hw3 _ Hr; by apply runs_ret].
    apply runs_modify; [| |done].
    - split; try apply Hw1. intros k c'. cbn. intros [[_ Hx]|[_ Hk]]%lookup_insert_Some; [by apply Hsite|by apply (wo_keys w1 Hw1 k)].
    - split; try done.
      + intros c' cs' Hc'. by exists cs'.
      + intros s k v Hx Hy. change (entry w1 s k = Some v) in Hy. congruence.
      + intros s k s' _ _ Hx [v Hy]. change (entry w1 s k = Some v) in Hy. congruence.
      + by apply insert_subseteq. }
  intros a w1 Hw1 _ Ha. eapply runs_bind; [by apply ValidateResolution_runs|]. intros ? w2 _ _ ->.
  destruct a as [v|c]; cbn [access]; [by apply runs_ret|]. destruct (Ha c eq_refl) as [cs Hc].
  eapply runs_weaken; [by apply (Resolve_runs c sid w1 cs)|done|done].
Qed.
End container.

(** Every call keeps the container well-formed and leaves what it found. *)
Lemma exec_runs n :
  (∀ sid t w, world_ok w → runs nothing (exec f validate n (Get sid t)) w (got sid t w)) ∧
  (∀ sid t k w, world_ok w → runs nothing (exec f validate n (GetByLookupKey sid t k)) w (fun _ _ => True)) ∧
  (∀ c ctx w cs, world_ok w → ctx_ok ctx w → sites w !! c = Some cs →
     runs (below ctx (S (rank (cs_type cs)))) (exec f validate n (Visit c ctx)) w (visited c ctx w)).
Proof using Hsim.
  induction n as [|n (IHg & IHk & IHv)]; [split_and!; intros; by apply runs_fault|].
  assert (Hget : ∀ sid t w, world_ok w → runs nothing (exec f validate n (Get sid t)) w (fun _ _ => True)).
  { intros sid t w Hw. eapply runs_weaken; [by apply IHg|done|done]. }
  split_and!; cbn [exec].
  - intros sid t w Hw. unfold scope_Get. eapply runs_bind; [by apply runs_get_scope|]. intros s w0 _ _ [-> _].
    destruct (s_disposed s); [by apply runs_fault|]. by apply GetWithScope_runs.
  - intros sid t k w Hw. unfold scope_GetByLookupKey. eapply runs_bind; [by apply runs_get_scope|]. intros s w0 _ _ [-> _].
    destruct (s_disposed s); [by apply runs_fault|]. by apply GetWithScopeWithLookupKey_runs.
  - intros c ctx w cs Hw Hctx Hc. by apply (visitCallSite_runs _ _ _ Hget IHk IHv).
Qed.

(** ** Clients *)

(** What survives any client call: caches grow, except those of disposed scopes. *)
Definition is_disposed (w : world) (sid : nat) : Prop := ∃ s, scopes w !! sid = Some s ∧ s_disposed s = true.
Record later (w w' : world) : Prop := {
  lt_cache : callSiteCache (w_f w) ⊆ callSiteCache (w_f w');
  lt_site c cs : sites w !! c = Some cs → ∃ cs', sites w' !! c = Some cs' ∧ same_site cs cs' ∧ (∀ v, cs_value cs = Some v → cs_value cs' = Some v);
  lt_realized : realizedServices w ⊆ realizedServices w';
  lt_disposed sid : is_disposed w sid → is_disposed w' sid;
  lt_entry sid k v : ¬ is_disposed w' sid → entry w sid k = Some v → entry w' sid k = Some v;
  lt_fresh sid k v : ¬ is_disposed w' sid → entry w sid k = None → entry w' sid k = Some v → fresh_type k.1 →
    ∃ t id, v = VObj t id ∧ next_id w <= id;
  lt_next : next_id w <= next_id w' }.

#[local] Instance later_preorder : PreOrder later.
Proof.
  split.
  - intros w. split; try done; [intros c cs Hc; by exists cs|by intros sid k v _ -> [=]].
  - intros w1 w2 w3 H1 H2. split.
    + etrans; [apply H1|apply H2].
    + intros c cs Hc. destruct (lt_site _ _ H1 c cs Hc) as (cs' & Hc' & Hs & Hv). destruct (lt_site _ _ H2 c cs' Hc') as (cs'' & Hc'' & Hs' & Hv').
      exists cs''. split_and!; [done|by etrans|by eauto].
    + etrans; [apply H1|apply H2].
    + intros sid Hd. by apply (lt_disposed _ _ H2), (lt_disposed _ _ H1).
    + intros sid k v Hd Hv. apply (lt_entry _ _ H2); [done|]. apply (lt_entry _ _ H1); [|done]. intros Hd'. by apply Hd, (lt_disposed _ _ H2).
    + intros sid k v Hd Hn Hv Hf. assert (Hd2 : ¬ is_disposed w2 sid) by (intros Hd'; by apply Hd, (lt_disposed _ _ H2)).
      destruct (entry w2 sid k) as [v2|] eqn:E.
      * apply (lt_entry _ _ H2) in E as Hv2; [|done]. rewrite Hv in Hv2. injection Hv2 as <-. by apply (lt_fresh _ _ H1 sid k).
      * destruct (lt_fresh _ _ H2 sid k v Hd E Hv Hf) as (t & id & -> & Hid). exists t, id. split; [done|]. pose proof (lt_next _ _ H1). lia.
    + etrans; [apply H1|apply H2].
Qed.

Lemma evolves_disposed B w w' sid : evolves B w w' → is_disposed w' sid ↔ is_disposed w sid.
Proof.
  intros Hev. pose proof (ev_scope _ _ _ Hev sid) as Hs. unfold is_disposed.
  destruct (scopes w !! sid) as [s|], (scopes w' !! sid) as [s'|]; try done; cbn in Hs.
  injection Hs as _ Hd. split; intros (? & [= <-] & ?); eexists; (split; [done|congruence]).
Qed.

Lemma evolves_later B w w' : evolves B w w' → later w w'.
Proof.
  intros Hev. split; try apply Hev.
  - intros c cs Hc. destruct (ev_site _ _ _ Hev c cs Hc) as (cs' & ? & ? & ? & _). by exists cs'.
  - intros sid. by rewrite (evolves_disposed _ _ _ _ Hev).
  - intros sid k v _. apply Hev.
  - intros sid k v _. apply (ev_fresh _ _ _ Hev).
Qed.

(** *** Disposal keeps the container well-formed *)
Definition keeps {A} (m : M world A) (w : world) : Prop :=
  post m w (fun _ w' => world_ok w' ∧ later w w') (fun x w' => match x with Stuck | NoFuel => True | _ => world_ok w' ∧ later w w' end).

Lemma keeps_bind {A A'} (m : M world A) (k : A → M world A') w :
  keeps m w → (∀ a w', world_ok w' → later w w' → keeps (k a) w') → keeps (m ≫= k) w.
Proof.
  intros Hm Hk. apply post_bind. eapply post_weaken; [exact Hm| |done]. intros a w' [Hw Hl].
  eapply post_weaken; [by apply Hk| |].
  - intros b w'' [? ?]. split; [done|by etrans].
  - intros x w'' Hx. destruct x; try done; destruct Hx; (split; [done|by etrans]).
Qed.

(** Changing a scope without adding entries. *)
Lemma later_update sid g w :
  (∀ s, ResolvedServices (g s) = ResolvedServices s ∨ (ResolvedServices (g s) = None ∧ s_disposed (g s) = true)) →
  (∀ s, s_disposed s = true → s_disposed (g s) = true) →
  world_ok w → world_ok (update_scope sid g w) ∧ later w (update_scope sid g w).
Proof.
  intros Hg Hd Hw. assert (He : ∀ sid' k v, entry (update_scope sid g w) sid' k = Some v → entry w sid' k = Some v).
  { intros sid' k v. unfold entry. rewrite scopes_update. case_decide as Hx; [subst sid'|done].
    destruct (scopes w !! sid) as [s|]; [|done]. cbn. destruct (Hg s) as [-> |[-> _]]; [done|done]. }
  split.
  - split; try apply Hw.
    + intros sid' k v Hv%He. by apply (wo_ids w Hw sid').
    + intros s1 s2 k v H1%He H2%He. by apply (wo_distinct w Hw s1 s2 k v).
  - split; try done.
    + intros c cs Hc. by exists cs.
    + intros sid' (s & Hs & Hds). unfold is_disposed. rewrite scopes_update. case_decide as Hx; [subst sid'|by exists s].
      rewrite Hs. eexists. split; [done|by apply Hd].
    + intros sid' k v Hnd. unfold entry, is_disposed in *. rewrite scopes_update in *. case_decide as Hx; [subst sid'|done].
      destruct (scopes w !! sid) as [s|]; [|done]. cbn in *. destruct (Hg s) as [-> |[_ Hds]]; [done|]. destruct Hnd. by eexists.
    + intros sid' k v _ Hn Hv%He. congruence.
Qed.

Lemma keeps_modify g w : world_ok (g w) ∧ later w (g w) → keeps (modify g) w.
Proof. intros H. by apply post_modify. Qed.

Lemma keeps_ret {A} (a : A) w : world_ok w → keeps (mret a) w.
Proof. intros H. by apply post_ret. Qed.

Lemma keeps_get_scope sid w : world_ok w → keeps (get_scope sid) w.
Proof. intros Hw. unfold keeps, post, get_scope. by destruct (scopes w !! sid). Qed.

Lemma keeps_scope_lock {A} sid (m : M world A) w : world_ok w → (∀ w', world_ok w' → keeps m w') → keeps (with_scope_lock sid m) w.
Proof.
  intros Hw Hm. unfold keeps, post, with_scope_lock. destruct (scopes w !! sid) as [s|]; [|done]. destruct (s_locked s); [done|].
  destruct (later_update sid (set_locked true) w) as [Hw1 Hl1]; [by left|done|done|].
  match goal with |- match deferred ?g _ _ with _ => _ end => change (post (deferred g m) (update_scope sid (set_locked true) w)
    (fun _ w' => world_ok w' ∧ later w w') (fun x w' => match x with Stuck | NoFuel => True | _ => world_ok w' ∧ later w w' end)) end.
  apply post_deferred. specialize (Hm _ Hw1).
  assert (Hback : ∀ w', world_ok w' ∧ later (update_scope sid (set_locked true) w) w' →
    world_ok (update_scope sid (set_locked false) w') ∧ later w (update_scope sid (set_locked false) w')).
  { intros w' [Hw' Hl']. destruct (later_update sid (set_locked false) w') as [Hw2 Hl2]; [by left|done|done|].
    split; [done|]. etrans; [exact Hl1|]. by etrans. }
  eapply post_weaken; [exact Hm| |].
  - intros a w'. apply Hback.
  - intros x w' Hx. destruct x; try done; by apply Hback.
Qed.

Lemma later_same w w' :
  w_f w' = w_f w → scopes w' = scopes w → realizedServices w' = realizedServices w → realizedLookupKeyServices w' = realizedLookupKeyServices w →
  next_id w' = next_id w → ctor_log w' = ctor_log w → world_ok w → world_ok w' ∧ later w w'.
Proof.
  intros Hf Hs Hr Hk Hn Hc Hw. assert (He : ∀ sid k, entry w' sid k = entry w sid k) by (intros; unfold entry; by rewrite Hs).
  split; [eapply world_ok_agree; [|done]; split; try done; lia|]. split.
  - by rewrite Hf.
  - intros c cs. rewrite Hf. intros Hc'. by exists cs.
  - by rewrite Hr.
  - intros sid. unfold is_disposed. by rewrite Hs.
  - intros sid k v _. by rewrite He.
  - intros sid k v _ Hx. rewrite He, Hx. done.
  - lia.
Qed.

Lemma keeps_Dispose n sid w : world_ok w → keeps (Dispose n sid) w.
Proof.
  revert sid w. induction n as [|n IH]; intros sid w Hw; [done|]. cbn [Dispose].
  apply keeps_bind; [by apply keeps_get_scope|]. intros s w1 Hw1 _. destruct (s_disposed s); [by apply keeps_ret|].
  apply keeps_bind; [by apply keeps_modify, later_update; [left| |]|]. intros ? w2 Hw2 _.
  apply keeps_bind; [apply keeps_modify; case_decide; [by apply later_same|by split]|]. intros ? w3 Hw3 _.
  apply keeps_bind.
  { apply keeps_scope_lock; [done|]. intros w4 Hw4. apply keeps_bind; [by apply keeps_get_scope|]. intros s' w5 Hw5 _.
    apply keeps_bind; [apply keeps_modify, later_update; [by right|done|done]|]. intros ? w6 Hw6 _. by apply keeps_ret. }
  intros dsp w4 Hw4 _. generalize (reverse dsp). clear dsp. intros l. revert w4 Hw4. induction l as [|v l IHl]; intros w4 Hw4; [by apply keeps_ret|].
  apply keeps_bind; [|intros ? w5 Hw5 _; by apply IHl].
  destruct v; try (by apply keeps_modify, later_same). by apply IH.
Qed.

(** *** The calls of a client *)
Inductive client_op := CGet (sid : nat) (t : rtype) | CGetByLookupKey (sid : nat) (t : rtype) (key : string) | CCreateScope | CDispose (sid : nat) | CContainerDispose.

Definition client (n : nat) (o : client_op) : M world unit :=
  match o with
  | CGet sid t => _ ← exec f validate n (Get sid t); mret tt
  | CGetByLookupKey sid t key => _ ← exec f validate n (GetByLookupKey sid t key); mret tt
  | CCreateScope => _ ← CreateScope; mret tt
  | CDispose sid => Dispose n sid
  | CContainerDispose => container_Dispose n
  end.

(** A call that returned, with a result, an error or a panic. *)
Definition client_step (w w' : world) : Prop :=
  ∃ n o r, client n o w = (r, w') ∧ match r with Fault Stuck | Fault NoFuel => False | _ => True end.

Lemma keeps_exec n o w : (∃ sid t, o = Get sid t) ∨ (∃ sid t k, o = GetByLookupKey sid t k) → world_ok w → keeps (exec f validate n o) w.
Proof using Hsim.
  intros Ho Hw. assert (Hr : runs nothing (exec f validate n o) w (fun _ _ => True)).
  { destruct (exec_runs n) as (Hg & Hk & _). destruct Ho as [(sid & t & ->)|(sid & t & k & ->)]; [|by apply Hk].
    eapply runs_weaken; [by apply Hg|done|done]. }
  eapply post_weaken; [exact Hr| |].
  - intros v w' (? & ? & _). split; [done|by eapply evolves_later].
  - intros x w' Hx. destruct x; try done; destruct Hx; (split; [done|by eapply evolves_later]).
Qed.

Lemma keeps_CreateScope w : world_ok w → keeps CreateScope w.
Proof.
  intros Hw. unfold keeps, post, CreateScope. destruct (c_disposed w); [by split|].
  assert (He : ∀ sid k, entry (set_scopes (fun l => l ++ [newEngineScope]) w) sid k = entry w sid k).
  { intros sid k. unfold entry. cbn. destruct (decide (sid < length (scopes w))) as [Hlt|Hge]; [by rewrite lookup_app_l|].
    rewrite lookup_app_r, (lookup_ge_None_2 (scopes w)) by lia. destruct (sid - length (scopes w)) as [|[|]]; cbn; [apply lookup_empty|done|done]. }
  split; [eapply world_ok_agree; [|done]; split; try done; lia|]. split; try done.
  - intros c cs Hc. by exists cs.
  - intros sid (s & Hs & Hd). exists s. split; [|done]. cbn. by apply lookup_app_l_Some.
  - intros sid k v _. by rewrite He.
  - intros sid k v _ Hx. rewrite He, Hx. done.
Qed.

Lemma client_step_ok w w' : client_step w w' → world_ok w → world_ok w' ∧ later w w'.
Proof using Hsim.
  intros (n & o & r & Hc & Hr) Hw. enough (Hk : keeps (client n o) w).
  { unfold keeps, post in Hk. rewrite Hc in Hk. by destruct r as [|[]]. }
  destruct o as [sid t|sid t key| |sid|]; cbn [client].
  - apply keeps_bind; [apply keeps_exec; [left; by exists sid, t|done]|]. intros. by apply keeps_ret.
  - apply keeps_bind; [apply keeps_exec; [right; by exists sid, t, key|done]|]. intros. by apply keeps_ret.
  - apply keeps_bind; [by apply keeps_CreateScope|]. intros. by apply keeps_ret.
  - by apply keeps_Dispose.
  - unfold container_Dispose. apply keeps_bind; [by apply keeps_modify, later_same|]. intros ? w1 Hw1 _. by apply keeps_Dispose.
Qed.

Lemma client_steps_ok w w' : rtc client_step w w' → world_ok w → world_ok w' ∧ later w w'.
Proof using Hsim.
  induction 1 as [w|w1 w2 w3 H12 _ IH]; intros Hw; [by split|]. destruct (client_step_ok _ _ H12 Hw) as [Hw2 Hl].
  destruct (IH Hw2) as [Hw3 Hl']. split; [done|by etrans].
Qed.

Lemma world_ok_init : world_ok new_world.
Proof.
  split.
  - apply store_ok_init.
  - intros t a Ht. cbn in Ht. by rewrite lookup_empty in Ht.
  - intros k c Hk. cbn in Hk. by rewrite lookup_empty in Hk.
  - intros t ts vs Hin. by apply elem_of_nil in Hin.
  - intros [|sid] k v Hv; cbn in Hv; [by rewrite lookup_empty in Hv|done].
  - intros [|sid] sid' k v Hv; cbn in Hv; [by rewrite lookup_empty in Hv|done].
Qed.

(** *** Two requests for the same type *)
Abbreviation run n sid t w := (exec f validate n (Get sid t) w).

Lemma run_facts n sid t w v w' : world_ok w → run n sid t w = (Done v, w') →
  world_ok w' ∧ evolves nothing w w' ∧ got sid t w v w' ∧ ¬ is_disposed w sid.
Proof using Hsim.
  intros Hw Hr. destruct (exec_runs n) as (Hg & _). specialize (Hg sid t w Hw). unfold runs, post in Hg. rewrite Hr in Hg.
  destruct Hg as (Hw' & Hev & Hgot). split_and!; [done|done|done|]. intros (s & Hs & Hd). destruct n as [|n]; [done|].
  cbn [exec] in Hr. unfold scope_Get, mbind, M_bind, get_scope in Hr. by rewrite Hs, Hd in Hr.
Qed.

(** The call site a registered type is resolved with. *)
Lemma got_site sid t d w v w' :
  world_ok w' → got sid t w v w' → ¬ built_in t → nth_registration ds t DefaultSlot = Some d → d_Instance d = None →
  ∃ c cs a, callSiteCache (w_f w') !! (t, DefaultSlot) = Some c ∧ sites w' !! c = Some cs ∧ realizedServices w' !! t = Some a ∧
    cs_cache cs = newResultCacheWithLifetime (d_Lifetime d) t DefaultSlot ∧
    match a with
    | AccessValue v' => v = v' ∧ Location (cs_cache cs) = CacheLocation_Root ∧ cs_value cs = Some v'
    | AccessSite c' => c' = c ∧ Location (cs_cache cs) ≠ CacheLocation_Root ∧ visited c (mkRC sid false false) w v w'
    end.
Proof using Hsim.
  intros Hw' (a & Ha & Hv) Hnb Hd Hi. destruct (wo_realized w' Hw' t a Ha) as (c & cs & Harg & Hc & Hm).
  destruct (default_site ds rank Hsim _ _ _ _ _ (wo_store w' Hw') Hnb Hd Harg Hc) as [Hcache [Ht Hmade]].
  destruct (registration_facts ds rank Hsim _ _ _ Hd) as [_ Hst].
  exists c, cs, a. split_and!; [done|done|done| |].
  - rewrite Hi, Hst in Hmade. destruct (d_Factory d); [by destruct Hmade|]. destruct (d_Ctor d); [by destruct Hmade|done].
  - destruct a as [v'|c']; [by destruct Hm|]. destruct Hm as [-> Hl]. done.
Qed.

(** C6: A singleton is one object.  For registrations that list no implemented
    interfaces and whose constructors have no cycles ([simple]; with implemented
    interfaces the code can build a singleton twice, see
    [Scenarios.singleton_built_twice]): two successful requests for a type whose
    last registration is a singleton made by a constructor or a factory, from any
    scopes, at any time, with any client calls in between (other requests, new
    scopes, disposals), get the same value; and every constructor that took the
    type as an argument was given that value. *)
Theorem singleton_is_unique t d w1 w1' w2 w2' n1 n2 s1 s2 v1 v2 :
  ¬ built_in t → nth_registration ds t DefaultSlot = Some d → d_Instance d = None → d_Lifetime d = Lifetime_Singleton →
  rtc client_step new_world w1 → run n1 s1 t w1 = (Done v1, w1') → rtc client_step w1' w2 → run n2 s2 t w2 = (Done v2, w2') →
  v1 = v2 ∧ ∀ u ts vs i v, (u, ts, vs) ∈ ctor_log w2' → ts !! i = Some t → vs !! i = Some v → v = v1.
Proof using Hsim.
  intros Hnb Hd Hi Hlt H01 H1 H12 H2. destruct (client_steps_ok _ _ H01 world_ok_init) as [Hw1 _].
  destruct (run_facts _ _ _ _ _ _ Hw1 H1) as (Hw1' & _ & Hg1 & _). destruct (client_steps_ok _ _ H12 Hw1') as [Hw2 Hl12].
  destruct (run_facts _ _ _ _ _ _ Hw2 H2) as (Hw2' & Hev2 & Hg2 & _).
  destruct (got_site _ _ _ _ _ _ Hw1' Hg1 Hnb Hd Hi) as (c1 & cs1 & a1 & _ & _ & Ha1 & Hc1 & Hm1).
  destruct (got_site _ _ _ _ _ _ Hw2' Hg2 Hnb Hd Hi) as (c2 & cs2 & a2 & Hk2 & Hs2 & Ha2 & Hc2 & Hm2).
  assert (a2 = a1) as ->.
  { assert (Ha : realizedServices w2' !! t = Some a1); [|congruence]. eapply lookup_weaken; [|apply Hev2].
    eapply lookup_weaken; [exact Ha1|apply Hl12]. }
  rewrite Hlt in Hc1, Hc2. destruct a1 as [v|c']; [|destruct Hm1 as (_ & Hl & _); by rewrite Hc1 in Hl].
  destruct Hm1 as (-> & _). destruct Hm2 as (-> & _ & Hval). split; [done|]. intros u ts vs i v' Hin Hti Hvi.
  destruct (Forall2_lookup_lr _ _ _ _ _ _ (wo_args w2' Hw2' u ts vs Hin) Hti Hvi) as (c & cs & Harg & Hc & Hroot).
  destruct (default_site ds rank Hsim _ _ _ _ _ (wo_store w2' Hw2') Hnb Hd Harg Hc) as [Hcache _].
  assert (c = c2) as -> by congruence. assert (cs = cs2) as -> by congruence. rewrite Hc2 in Hroot. specialize (Hroot eq_refl). congruence.
Qed.

(** C7: Scoped and transient services, for registrations that list no implemented
    interfaces and have no cycles ([simple]): two successful requests for a scoped
    type get the same object in one scope other than the root, and different objects
    in two such scopes if the type's constructors allocate what they return
    ([fresh_type]); two requests for a transient type with such constructors always
    get different objects. *)
Theorem scoped_and_transient_instances t d w1 w1' w2 w2' n1 n2 s1 s2 v1 v2 :
  ¬ built_in t → nth_registration ds t DefaultSlot = Some d → d_Instance d = None →
  rtc client_step new_world w1 → run n1 s1 t w1 = (Done v1, w1') → rtc client_step w1' w2 → run n2 s2 t w2 = (Done v2, w2') →
  match d_Lifetime d with
  | Lifetime_Singleton => True
  | Lifetime_Scoped => s1 ≠ 0 → s2 ≠ 0 → if decide (s1 = s2) then v1 = v2 else fresh_type t → v1 ≠ v2
  | Lifetime_Transient => fresh_type t → v1 ≠ v2
  end.
Proof using Hsim.
  intros Hnb Hd Hi H01 H1 H12 H2. destruct (client_steps_ok _ _ H01 world_ok_init) as [Hw1 _].
  destruct (run_facts _ _ _ _ _ _ Hw1 H1) as (Hw1' & _ & Hg1 & _). destruct (client_steps_ok _ _ H12 Hw1') as [Hw2 Hl12].
  destruct (run_facts _ _ _ _ _ _ Hw2 H2) as (Hw2' & Hev2 & Hg2 & Hnd2).
  destruct (got_site _ _ _ _ _ _ Hw1' Hg1 Hnb Hd Hi) as (c1 & cs1 & a1 & _ & Hs1 & _ & Hc1 & Hm1).
  destruct (got_site _ _ _ _ _ _ Hw2' Hg2 Hnb Hd Hi) as (c2 & cs2 & a2 & _ & Hs2 & _ & Hc2 & Hm2).
  assert (Hl : later w1' w2') by (etrans; [exact Hl12|by eapply evolves_later]).
  assert (Hnd : ¬ is_disposed w2' s2) by (by rewrite (evolves_disposed _ _ _ _ Hev2)).
  assert (Htype : ∀ cs c w', world_ok w' → sites w' !! c = Some cs → cs_cache cs = newResultCacheWithLifetime (d_Lifetime d) t DefaultSlot →
    fresh_type t → fresh_site cs).
  { intros cs c w' Hw Hc Hcache Hf. assert (Hloc : Location (cs_cache cs) ≠ CacheLocation_None) by (rewrite Hcache; by destruct (d_Lifetime d)).
    eapply fresh_type_site; [apply (wo_store w' Hw)|done|done|]. destruct (site_key ds rank Hsim _ _ _ (wo_store w' Hw) Hc Hloc) as [slot Hk].
    rewrite Hcache in Hk. cbn in Hk. injection Hk as Hk _. by rewrite <- Hk. }
  destruct (d_Lifetime d) eqn:Elt; [done| |].
  - intros Hn1 Hn2. destruct a1 as [v|c1']; [destruct Hm1 as (_ & Hx & _); by rewrite Hc1 in Hx|].
    destruct a2 as [v|c2']; [destruct Hm2 as (_ & Hx & _); by rewrite Hc2 in Hx|].
    destruct Hm1 as (-> & _ & cs & Hcs & _ & Hscope & _). rewrite Hs1 in Hcs. injection Hcs as <-. rewrite Hc1 in Hscope.
    destruct (Hscope eq_refl Hn1) as (k & [= <-] & He1). clear Hscope.
    destruct Hm2 as (-> & _ & cs & Hcs & _ & Hscope & _). rewrite Hs2 in Hcs. injection Hcs as <-. rewrite Hc2 in Hscope.
    destruct (Hscope eq_refl Hn2) as (k & [= <-] & He2). clear Hscope. cbn in He1, He2. case_decide as Hs.
    + subst s2. apply (lt_entry _ _ Hl) in He1; [|done]. congruence.
    + intros Hf <-. destruct (entry w1' s2 (t, DefaultSlot)) as [v|] eqn:E.
      * apply (lt_entry _ _ Hl) in E as E'; [|done]. assert (v = v1) as -> by congruence.
        by destruct Hs; apply (wo_distinct w1' Hw1' s1 s2 (t, DefaultSlot) v1).
      * destruct (lt_fresh _ _ Hl s2 _ v1 Hnd E He2 Hf) as (u & id & -> & Hid).
        destruct (wo_ids w1' Hw1' _ _ _ He1 Hf) as (? & ? & [= <- <-] & ?). lia.
  - intros Hf. destruct a1 as [v|c1']; [destruct Hm1 as (_ & Hx & _); by rewrite Hc1 in Hx|].
    destruct a2 as [v|c2']; [destruct Hm2 as (_ & Hx & _); by rewrite Hc2 in Hx|].
    destruct Hm1 as (-> & _ & cs & Hcs & _ & _ & Hnew1). rewrite Hs1 in Hcs. injection Hcs as <-. rewrite Hc1 in Hnew1.
    destruct Hm2 as (-> & _ & cs & Hcs & _ & _ & Hnew2). rewrite Hs2 in Hcs. injection Hcs as <-. rewrite Hc2 in Hnew2.
    destruct (Hnew1 eq_refl) as (u1 & id1 & -> & _ & Hid1); [by apply (Htype cs1 c1 w1')|].
    destruct (Hnew2 eq_refl) as (u2 & id2 & -> & Hid2 & _); [by apply (Htype cs2 c2 w2')|]. intros [= _ <-].
    pose proof (lt_next _ _ Hl12). lia.
Qed.
End lifetimes.

(** ** Examples *)
Section examples.
Import Di.Examples DiResolve.Scenarios.

Lemma layered_simple : simple layered layered_rank.
Proof.
  split; [apply layered_acyclic| |].
  - intros d Hd. unfold layered in Hd. rewrite !elem_of_cons, elem_of_nil in Hd. by destruct Hd as [-> |[-> |[-> |[]]]].
  - intros d d' Hd Hd'. unfold layered in Hd, Hd'. rewrite !elem_of_cons, elem_of_nil in Hd, Hd'.
    destruct Hd as [-> |[-> |[-> |[]]]], Hd' as [-> |[-> |[-> |[]]]]; done.
Qed.

(** Two scopes; A and C from the first, then B, which A needed, from both, and
    A and C from the second. *)
Abbreviation call_on w sid t := (exec (newCallSiteFactory layered) false 20 (Get sid t) w).
Definition world1 : world := (client layered false 20 CCreateScope (client layered false 20 CCreateScope new_world).2).2.
Definition world2 : world := (call_on world1 1 A).2.
Definition world3 : world := (call_on world2 1 B).2.
Definition world4 : world := (call_on world3 2 B).2.
Definition world5 : world := (call_on world4 1 C).2.
Definition world6 : world := (call_on world5 2 C).2.
Definition world7 : world := (call_on world6 2 A).2.
Definition world8 : world := (call_on world7 1 A).2.

Lemma session_results :
  call_on world1 1 A = (Done (VObj A 2), world2) ∧ call_on world2 1 B = (Done (VObj B 1), world3) ∧
  call_on world3 2 B = (Done (VObj B 1), world4) ∧ call_on world4 1 C = (Done (VObj C 3), world5) ∧
  call_on world5 2 C = (Done (VObj C 4), world6) ∧ call_on world6 2 A = (Done (VObj A 5), world7) ∧
  call_on world7 1 A = (Done (VObj A 2), world8).
Proof.
  assert (Hpair : ∀ w sid t v, (call_on w sid t).1 = Done v → call_on w sid t = (Done v, (call_on w sid t).2)).
  { intros w sid t v <-. by destruct (call_on w sid t). }
  split_and!; apply Hpair; vm_compute; reflexivity.
Qed.

Lemma call_step w sid t v w' : call_on w sid t = (Done v, w') → client_step layered false w w'.
Proof. intros Hc. exists 20, (CGet sid t), (Done tt). cbn [client]. unfold mbind, M_bind. by rewrite Hc. Qed.

Lemma session_steps :
  rtc (client_step layered false) new_world world1 ∧ rtc (client_step layered false) world1 world2 ∧
  rtc (client_step layered false) world2 world4 ∧ rtc (client_step layered false) world4 world6 ∧
  rtc (client_step layered false) world6 world7.
Proof.
  destruct session_results as (H1 & H2 & H3 & H4 & H5 & H6 & _). split_and!.
  - eapply rtc_l; [exists 20, CCreateScope; eexists; split; [reflexivity|done]|].
    eapply rtc_l; [exists 20, CCreateScope; eexists; split; [reflexivity|done]|]. constructor.
  - exact (rtc_once _ _ (call_step _ _ _ _ _ H1)).
  - exact (rtc_l _ _ _ _ (call_step _ _ _ _ _ H2) (rtc_once _ _ (call_step _ _ _ _ _ H3))).
  - exact (rtc_l _ _ _ _ (call_step _ _ _ _ _ H4) (rtc_once _ _ (call_step _ _ _ _ _ H5))).
  - exact (rtc_once _ _ (call_step _ _ _ _ _ H6)).
Qed.

(** A's constructor was given the singleton. *)
Lemma log_of_A : (A, [B; ContainerType], [VObj B 1; VScope 1]) ∈ ctor_log world4.
Proof.
  apply (list_elem_of_lookup_2 _ 2). vm_compute. reflexivity.
Qed.
#[local] Opaque world1 world2 world3 world4 world5 world6 world7 world8.

Lemma plain_facts t : t ∈ [A; B; C] → ¬ built_in t ∧ fresh_type layered t.
Proof.
  intros Ht. rewrite !elem_of_cons, elem_of_nil in Ht. split.
  - unfold built_in. rewrite !elem_of_cons, elem_of_nil. destruct Ht as [-> |[-> |[-> |[]]]]; by intros [?|[?|[?|[]]]].
  - split.
    + unfold layered. destruct Ht as [-> |[-> |[-> |[]]]]; eexists; (split; [rewrite !elem_of_cons|]); [by left|done|by right; left|done|by right; right; left|done].
    + intros d Hd _. unfold layered in Hd. rewrite !elem_of_cons, elem_of_nil in Hd.
      destruct Hd as [-> |[-> |[-> |[]]]]; (split_and!; [done|done|]); eexists; (split; [done|]); intros args; by eexists.
Qed.

Lemma singleton_is_unique_witness :
  (call_on world2 1 B).1 = Done (VObj B 1) ∧ (∃ v, (call_on world3 2 B).1 = Done v ∧ v = VObj B 1) ∧
  (A, [B; ContainerType], [VObj B 1; VScope 1]) ∈ ctor_log world4 ∧
  ∀ u ts vs i v, (u, ts, vs) ∈ ctor_log world4 → ts !! i = Some B → vs !! i = Some v → v = VObj B 1.
Proof.
  destruct session_results as (_ & H2 & H3 & _). destruct session_steps as (S1 & S2 & _).
  destruct (singleton_is_unique layered layered_rank layered_simple false B (service 2 B Lifetime_Singleton [C] [])
    world2 world3 world3 world4 20 20 1 2 (VObj B 1) (VObj B 1)
    (proj1 (plain_facts B (list_elem_of_further _ _ _ (list_elem_of_here _ _)))) eq_refl eq_refl eq_refl
    (rtc_trans _ _ _ S1 S2) H2 (rtc_refl _ _) H3) as [He Hlog].
  split; [rewrite H2; reflexivity|]. split; [exists (VObj B 1); split; [rewrite H3; reflexivity|exact He]|].
  split; [exact log_of_A|exact Hlog].
Defined.

Lemma scoped_and_transient_instances_witness :
  ∃ a1 a2 a3 c1 c2, (call_on world1 1 A).1 = Done a1 ∧ (call_on world6 2 A).1 = Done a2 ∧ (call_on world7 1 A).1 = Done a3 ∧
    (call_on world4 1 C).1 = Done c1 ∧ (call_on world5 2 C).1 = Done c2 ∧ a1 ≠ a2 ∧ a1 = a3 ∧ c1 ≠ c2.
Proof.
  destruct session_results as (H1 & _ & _ & H4 & H5 & H6 & H7). destruct session_steps as (S1 & S2 & S3 & S4 & S5).
  exists (VObj A 2), (VObj A 5), (VObj A 2), (VObj C 3), (VObj C 4). rewrite H1, H4, H5, H6, H7.
  split; [reflexivity|]. split; [reflexivity|]. split; [reflexivity|]. split; [reflexivity|]. split; [reflexivity|]. split; [|split].
  - refine (scoped_and_transient_instances layered layered_rank layered_simple false A (service 1 A Lifetime_Scoped [B; ContainerType] [])
      world1 world2 world6 world7 20 20 1 2 (VObj A 2) (VObj A 5) _ eq_refl eq_refl S1 H1 (rtc_trans _ _ _ S3 S4) H6 _ _ _); [|done|done|];
      apply plain_facts; rewrite !elem_of_cons; tauto.
  - refine (scoped_and_transient_instances layered layered_rank layered_simple false A (service 1 A Lifetime_Scoped [B; ContainerType] [])
      world1 world2 world7 world8 20 20 1 1 (VObj A 2) (VObj A 2) _ eq_refl eq_refl S1 H1 (rtc_trans _ _ _ S3 (rtc_trans _ _ _ S4 S5)) H7 _ _); [|done|done];
      apply plain_facts; rewrite !elem_of_cons; tauto.
  - refine (scoped_and_transient_instances layered layered_rank layered_simple false C (service 3 C Lifetime_Transient [] [])
      world4 world5 world5 world6 20 20 1 2 (VObj C 3) (VObj C 4) _ eq_refl eq_refl
      (rtc_trans _ _ _ S1 (rtc_trans _ _ _ S2 S3)) H4 (rtc_refl _ _) H5 _);
      apply plain_facts; rewrite !elem_of_cons; tauto.
Defined.
End examples.
