(* ===== verification/DiScopes.v ===== *)
(** * The dependency injection container: validation and disposal

    [CallSiteValidator] finds exactly the singletons that need scoped services;
    disposing a scope disposes of what it captured, last first, and closes it. *)
From stdpp Require Import gmap strings.
From S2P Require Import Prelude GoText Claims Request Di DiStore DiResolve.
From stdpp Require Import options.

(** ** Validation *)
Section validator.
Context (store : list CallSite).

Definition scope_factory_site (cs : CallSite) : Prop := Location (cs_cache cs) = CacheLocation_Scope ∧ cs_type cs = ScopeFactoryType.

(** The call sites a call site needs. *)
Definition needs (c p : csid) : Prop := ∃ cs, store !! c = Some cs ∧ ¬ scope_factory_site cs ∧ p ∈ children cs.
Definition scoped_site (c : csid) : Prop := ∃ cs, store !! c = Some cs ∧ Location (cs_cache cs) = CacheLocation_Scope ∧ cs_type cs ≠ ScopeFactoryType.
Definition root_site (c : csid) : Prop := ∃ cs, store !! c = Some cs ∧ Location (cs_cache cs) = CacheLocation_Root.

Definition needs_scoped (c : csid) : Prop := ∃ b, rtc needs c b ∧ scoped_site b.
(** A singleton below [c] that needs a scoped service. *)
Definition captive (c : csid) : Prop := ∃ a b, rtc needs c a ∧ root_site a ∧ tc needs a b ∧ scoped_site b.

(** What a visit says, for a call site below a singleton or not. *)
Definition verdict (singleton : option rtype) (c : csid) (r : res (option rtype)) : Prop :=
  match singleton, r with
  | Some _, Done x => x = None ∧ ¬ needs_scoped c
  | Some _, Fault (Failed _) => needs_scoped c
  | None, Done x => ¬ captive c ∧ (is_Some x ↔ needs_scoped c)
  | None, Fault (Failed _) => captive c
  | _, _ => False
  end.

Lemma needs_scoped_step c cs : store !! c = Some cs → ¬ scope_factory_site cs →
  needs_scoped c ↔ Location (cs_cache cs) = CacheLocation_Scope ∨ ∃ p, p ∈ children cs ∧ needs_scoped p.
Proof.
  intros Hc Hn. split.
  - intros (b & Hr & cs' & Hb & Hl & Ht). inversion Hr as [|x y z Hxy Hyz]; subst; [left; congruence|].
    destruct Hxy as (cs0 & Hc0 & _ & Hin). assert (cs0 = cs) as -> by congruence. right. exists y. split; [done|]. exists b. split; [done|by exists cs'].
  - intros [Hl|(p & Hp & b & Hr & Hb)].
    + exists c. split; [constructor|]. exists cs. split_and!; [done|done|]. intros Ht. by apply Hn.
    + exists b. split; [|done]. eapply rtc_l; [|done]. by exists cs.
Qed.

Lemma captive_step c cs : store !! c = Some cs → ¬ scope_factory_site cs →
  captive c ↔ (Location (cs_cache cs) = CacheLocation_Root ∧ ∃ p, p ∈ children cs ∧ needs_scoped p) ∨ ∃ p, p ∈ children cs ∧ captive p.
Proof.
  intros Hc Hn. split.
  - intros (a & b & Hr & Ha & Hab & Hb). inversion Hr as [|x y z Hxy Hyz]; subst.
    + left. destruct Ha as (cs' & Ha & Hl). assert (cs' = cs) as -> by congruence. split; [done|].
      assert (Hfirst : ∃ y, needs a y ∧ rtc needs y b) by (inversion Hab; subst; eexists; (split; [done|]); [constructor|by apply tc_rtc]).
      destruct Hfirst as (y & (cs0 & Hc0 & _ & Hin) & Hyb). assert (cs0 = cs) as -> by congruence. exists y. split; [done|by exists b].
    + right. destruct Hxy as (cs0 & Hc0 & _ & Hin). assert (cs0 = cs) as -> by congruence. exists y. split; [done|by exists a, b].
  - intros [[Hl (p & Hp & b & Hr & Hb)]|(p & Hp & a & b & Hr & Ha & Hab & Hb)].
    + exists c, b. split_and!; [constructor|by exists cs| |done]. eapply tc_rtc_r; [apply tc_once; by exists cs|done].
    + exists a, b. split_and!; [|done|done|done]. eapply rtc_l; [|done]. by exists cs.
Qed.

Lemma visit_first_verdict st visit l acc :
  (∀ p, p ∈ l → verdict st p (visit p)) → (st ≠ None → acc = None) →
  match visit_first visit l acc with
  | Done x => (∀ p, p ∈ l → match st with Some _ => ¬ needs_scoped p | None => ¬ captive p end) ∧
              match st with Some _ => x = None | None => is_Some x ↔ is_Some acc ∨ ∃ p, p ∈ l ∧ needs_scoped p end
  | Fault (Failed _) => ∃ p, p ∈ l ∧ match st with Some _ => needs_scoped p | None => captive p end
  | Fault _ => False
  end.
Proof.
  revert acc. induction l as [|c l IH]; intros acc Hv Hacc; cbn [visit_first].
  - split; [by intros p ?%elem_of_nil|]. destruct st; [by apply Hacc|]. split; [by left|]. intros [?|(p & Hp & _)]; [done|by apply elem_of_nil in Hp].
  - pose proof (Hv c ltac:(left)) as Hc.
    destruct (visit c) as [x|[e|e| |]]; [|exists c; split; [left|by destruct st]|by destruct st|by destruct st|by destruct st].
    assert (Hrest : ∀ p, p ∈ l → verdict st p (visit p)) by (intros p Hp; apply Hv; by right).
    set (acc' := match acc with None => x | Some _ => acc end).
    assert (Hacc' : st ≠ None → acc' = None).
    { intros Hst. unfold acc'. rewrite Hacc by done. destruct st; [|done]. by destruct Hc. }
    specialize (IH acc' Hrest Hacc'). destruct (visit_first visit l acc') as [y|[e|e| |]]; [|destruct IH as (p & Hp & IH); exists p; split; [by right|done]|done|done|done].
    destruct IH as [IH1 IH2]. split.
    + intros p [-> |Hp]%elem_of_cons; [|by apply IH1]. destruct st; by destruct Hc.
    + destruct st; [done|]. rewrite IH2. destruct Hc as [_ Hx]. setoid_rewrite elem_of_cons. unfold acc'. split.
      * intros [Ha|(p & Hp & Hn)]; [|right; exists p; tauto]. destruct acc; [by left|]. right. exists c. rewrite <- Hx. tauto.
      * intros [Ha|(p & [-> |Hp] & Hn)]; [left; by destruct Ha as [? ->]| |right; by exists p].
        left. destruct acc; [done|]. by apply Hx.
Qed.

(** Older call sites do not need newer ones. *)
Context (Horder : ∀ c cs p, store !! c = Some cs → p ∈ children cs → p < c).

Lemma validator_verdict n st c : c < n → is_Some (store !! c) → verdict st c (validator_visit store n st c).
Proof using Horder.
  revert st c. induction n as [|n IH]; intros st c Hn [cs Hc]; [lia|]. cbn [validator_visit]. rewrite Hc.
  destruct (decide (Location (cs_cache cs) = CacheLocation_Scope ∧ cs_type cs = ScopeFactoryType)) as [[Hl Ht]|Hnf].
  { rewrite Hl, decide_True by done. assert (Hno : ∀ b, rtc needs c b → b = c).
    { intros b Hr. inversion Hr as [|x y z Hxy _]; subst; [done|]. destruct Hxy as (cs0 & Hc0 & Hx & _). assert (cs0 = cs) as -> by congruence. by destruct Hx. }
    assert (Hns : ¬ needs_scoped c).
    { intros (b & Hr & cs0 & Hb & _ & Ht0). apply Hno in Hr as ->. congruence. }
    assert (Hnc : ¬ captive c).
    { intros (a & b & Hr & (cs0 & Ha & Hl0) & _). apply Hno in Hr as ->. congruence. }
    destruct st; cbn; [done|]. split; [done|]. split; [by intros []|done]. }
  pose proof (needs_scoped_step c cs Hc Hnf) as Hns. pose proof (captive_step c cs Hc Hnf) as Hcap.
  cbv zeta. set (main := validator_main (validator_visit store n) cs).
  assert (Hall : ∀ st, match main st with
    | Done x => (∀ p, p ∈ children cs → match st with Some _ => ¬ needs_scoped p | None => ¬ captive p end) ∧
                match st with Some _ => x = None | None => is_Some x ↔ ∃ p, p ∈ children cs ∧ needs_scoped p end
    | Fault (Failed _) => ∃ p, p ∈ children cs ∧ match st with Some _ => needs_scoped p | None => captive p end
    | Fault _ => False end).
  { intros st'. assert (Hleaf : children cs = [] → (∀ p, p ∈ children cs → match st' with Some _ => ¬ needs_scoped p | None => ¬ captive p end) ∧
      match st' with Some _ => @None rtype = None | None => is_Some (@None rtype) ↔ ∃ p, p ∈ children cs ∧ needs_scoped p end).
    { intros ->. split; [by intros p ?%elem_of_nil|]. destruct st'; [done|]. split; [by intros []|]. intros (p & Hp & _). by apply elem_of_nil in Hp. }
    assert (Hvis : ∀ p, p ∈ children cs → verdict st' p (validator_visit store n st' p)).
    { intros p Hp. pose proof (Horder c cs p Hc Hp). apply IH; [lia|]. apply lookup_lt_is_Some_2. apply lookup_lt_Some in Hc. lia. }
    unfold children, main, validator_main in *. destruct (cs_kind cs); try (by apply Hleaf);
      (pose proof (visit_first_verdict st' (validator_visit store n st') _ None Hvis ltac:(done)) as Hf;
       destruct (visit_first _ _ _) as [x|[]]; [|done|done|done|done]; destruct Hf as [Hf1 Hf2]; split; [done|]; destruct st'; [done|];
       rewrite Hf2; split; [by intros [[]|]|by right]). }
  assert (Hneed : ∀ p, captive p → needs_scoped p).
  { intros p (a & b & Hr & _ & Hab & Hb). exists b. split; [|done]. etrans; [exact Hr|by apply tc_rtc]. }
  destruct (Location (cs_cache cs)) eqn:El.
  - specialize (Hall (Some (cs_type cs))). destruct (main (Some (cs_type cs))) as [x|[e|e| |]]; [|destruct Hall as (p & Hp & Hsc)|done|done|done].
    + destruct Hall as [Hno ->]. assert (Hnsc : ¬ needs_scoped c) by (rewrite Hns; intros [?|(p & Hp & Hsc)]; [done|by apply (Hno p Hp)]).
      destruct st; [done|]. split; [intros Hx; by apply Hnsc, Hneed|]. by split; [intros []|].
    + destruct st; [rewrite Hns; right; by exists p|]. cbn. rewrite Hcap. left. split; [done|by exists p].
  - rewrite decide_False by tauto. destruct st as [t|]; [cbn; rewrite Hns; by left|]. specialize (Hall None).
    destruct (main None) as [x|[e|e| |]]; [|destruct Hall as (p & Hp & Hsc); cbn; rewrite Hcap; right; by exists p|done|done|done].
    destruct Hall as [Hno _]. split; [rewrite Hcap; intros [[? _]|(p & Hp & Hx)]; [done|by apply (Hno p Hp)]|]. rewrite Hns. split; [by left|by eexists].
  - specialize (Hall st). destruct (main st) as [x|[e|e| |]]; [|destruct Hall as (p & Hp & Hsc)|by destruct st|by destruct st|by destruct st].
    + destruct Hall as [Hno Hx]. destruct st; cbn.
      * split; [done|]. rewrite Hns. intros [?|(p & Hp & Hsc)]; [done|by apply (Hno p Hp)].
      * split; [rewrite Hcap; intros [[? _]|(p & Hp & Hy)]; [done|by apply (Hno p Hp)]|]. rewrite Hx, Hns. split; [by right|by intros [?|?]].
    + destruct st; cbn; [rewrite Hns|rewrite Hcap]; right; by exists p.
  - specialize (Hall st). destruct (main st) as [x|[e|e| |]]; [|destruct Hall as (p & Hp & Hsc)|by destruct st|by destruct st|by destruct st].
    + destruct Hall as [Hno Hx]. destruct st; cbn.
      * split; [done|]. rewrite Hns. intros [?|(p & Hp & Hsc)]; [done|by apply (Hno p Hp)].
      * split; [rewrite Hcap; intros [[? _]|(p & Hp & Hy)]; [done|by apply (Hno p Hp)]|]. rewrite Hx, Hns. split; [by right|by intros [?|?]].
    + destruct st; cbn; [rewrite Hns|rewrite Hcap]; right; by exists p.
Qed.

(** *** Which services are named *)
(** The first scoped service a call site needs, in the order of the parameters,
    and before anything it needs itself. *)
Inductive first_scoped : csid → rtype → Prop :=
| first_here c cs :
    store !! c = Some cs → Location (cs_cache cs) = CacheLocation_Scope → cs_type cs ≠ ScopeFactoryType → first_scoped c (cs_type cs)
| first_below c cs l1 p l2 u :
    store !! c = Some cs → Location (cs_cache cs) ≠ CacheLocation_Scope → children cs = l1 ++ p :: l2 →
    (∀ q, q ∈ l1 → ¬ needs_scoped q) → first_scoped p u → first_scoped c u.

(** The error names a singleton below [c] and a scoped service it needs; or the
    singleton [s] above [c] and a scoped service that [c] needs. *)
Definition captured (c : csid) (e : derror) : Prop :=
  ∃ a b csa csb, rtc needs c a ∧ store !! a = Some csa ∧ Location (cs_cache csa) = CacheLocation_Root ∧ tc needs a b ∧
    store !! b = Some csb ∧ Location (cs_cache csb) = CacheLocation_Scope ∧ cs_type csb ≠ ScopeFactoryType ∧
    e = CannotConsumeScoped (cs_type csb) (cs_type csa).
Definition consumed (s : rtype) (c : csid) (e : derror) : Prop :=
  ∃ b csb, rtc needs c b ∧ store !! b = Some csb ∧ Location (cs_cache csb) = CacheLocation_Scope ∧ cs_type csb ≠ ScopeFactoryType ∧
    e = CannotConsumeScoped (cs_type csb) s.
Definition blamed (singleton : option rtype) (c : csid) (e : derror) : Prop :=
  captured c e ∨ match singleton with Some s => consumed s c e | None => False end.

Lemma blamed_child st c cs p e :
  store !! c = Some cs → ¬ scope_factory_site cs → p ∈ children cs → blamed st p e → blamed st c e.
Proof using.
  intros Hc Hn Hp [(a & b & csa & csb & Hr & H)|H].
  - left. exists a, b, csa, csb. split; [|done]. eapply rtc_l; [by exists cs|done].
  - right. destruct st; [|done]. destruct H as (b & csb & Hr & H). exists b, csb. split; [|done]. eapply rtc_l; [by exists cs|done].
Qed.

Lemma visit_first_error visit l acc e :
  visit_first visit l acc = Fault (Failed e) → ∃ p, p ∈ l ∧ visit p = Fault (Failed e).
Proof using.
  revert acc. induction l as [|c l IH]; intros acc; cbn [visit_first]; [done|]. destruct (visit c) as [x|x] eqn:Ev.
  - intros (p & Hp & Hv)%IH. exists p. split; [by right|done].
  - intros [= ->]. exists c. split; [left|done].
Qed.

Lemma visit_first_found visit l u :
  visit_first visit l None = Done (Some u) →
  ∃ l1 p l2, l = l1 ++ p :: l2 ∧ (∀ q, q ∈ l1 → visit q = Done None) ∧ visit p = Done (Some u).
Proof using.
  assert (Hkeep : ∀ l v, visit_first visit l (Some v) = Done (Some u) → v = u).
  { clear l. induction l as [|c l IH]; intros v; cbn [visit_first]; [by intros [= ->]|]. destruct (visit c); [apply IH|done]. }
  induction l as [|c l IH]; cbn [visit_first]; [done|]. destruct (visit c) as [[v|]|] eqn:Ev; [| |done].
  - intros ->%Hkeep. exists [], c, l. split_and!; [done|by intros q ?%elem_of_nil|done].
  - intros (l1 & p & l2 & -> & Hl1 & Hp)%IH. exists (c :: l1), p, l2. split_and!; [done| |done].
    intros q [-> |Hq]%elem_of_cons; auto.
Qed.

Lemma validator_main_children visit cs st :
  validator_main visit cs st = match children cs with [] => Done None | l => visit_first (visit st) l None end.
Proof using. unfold validator_main, children. destruct (cs_kind cs) as [|c l| |e l|]; try done; by destruct l. Qed.

Lemma validator_main_error visit cs st e :
  validator_main visit cs st = Fault (Failed e) → ∃ p, p ∈ children cs ∧ visit st p = Fault (Failed e).
Proof using. rewrite validator_main_children. destruct (children cs); [done|]. apply visit_first_error. Qed.

Lemma validator_blames n st c e : validator_visit store n st c = Fault (Failed e) → blamed st c e.
Proof using.
  revert st c. induction n as [|n IH]; intros st c; cbn [validator_visit]; [done|]. destruct (store !! c) as [cs|] eqn:Hc; [|done]. cbv zeta.
  destruct (Location (cs_cache cs)) eqn:El.
  - intros (p & Hp & Hv%IH)%validator_main_error. assert (Hn : ¬ scope_factory_site cs) by (intros [? _]; congruence).
    destruct Hv as [Hv|(b & csb & Hr & Hb & Hlb & Htb & ->)]; [eapply blamed_child; [done|done|done|by left]|].
    left. exists c, b, cs, csb. split_and!; try done. eapply tc_rtc_r; [apply tc_once; by exists cs|done].
  - case_decide as Ht; [done|]. assert (Hn : ¬ scope_factory_site cs) by (by intros [_ ?]). destruct st as [s|].
    + intros [= <-]. right. exists c, cs. split_and!; try done.
    + destruct (validator_main _ _ _) as [x|x] eqn:Em; [done|]. intros [= ->].
      apply validator_main_error in Em as (p & Hp & Hv%IH). by eapply blamed_child.
  - intros (p & Hp & Hv%IH)%validator_main_error. eapply blamed_child; [done| |done|done]. intros [? _]; congruence.
  - intros (p & Hp & Hv%IH)%validator_main_error. eapply blamed_child; [done| |done|done]. intros [? _]; congruence.
Qed.

Lemma validator_first n c u : c < n → validator_visit store n None c = Done (Some u) → first_scoped c u.
Proof using Horder.
  revert c. induction n as [|n IH]; intros c Hn; cbn [validator_visit]; [done|]. destruct (store !! c) as [cs|] eqn:Hc; [|done]. cbv zeta.
  assert (Hbelow : ∀ st, validator_main (validator_visit store n) cs st = Done (Some u) → Location (cs_cache cs) ≠ CacheLocation_Scope →
    st = None ∧ first_scoped c u).
  { intros st Hm Hl. rewrite validator_main_children in Hm.
    assert (Hf : visit_first (validator_visit store n st) (children cs) None = Done (Some u)) by (by destruct (children cs)).
    apply visit_first_found in Hf as (l1 & p & l2 & El & Hl1 & Hp).
    assert (Hin : ∀ q, q ∈ l1 ++ [p] → q < n ∧ is_Some (store !! q)).
    { intros q Hq. assert (Hq' : q ∈ children cs) by (rewrite El; set_solver). pose proof (Horder c cs q Hc Hq').
      split; [lia|]. apply lookup_lt_is_Some_2. apply lookup_lt_Some in Hc. lia. }
    destruct st as [s|].
    { destruct (Hin p) as [Hlt Hs]; [set_solver|]. pose proof (validator_verdict n (Some s) p Hlt Hs) as Hv. rewrite Hp in Hv. by destruct Hv. }
    split; [done|]. eapply first_below; [done|done|done| |].
    - intros q Hq. destruct (Hin q) as [Hlt Hs]; [set_solver|]. pose proof (validator_verdict n None q Hlt Hs) as Hv.
      rewrite (Hl1 q Hq) in Hv. destruct Hv as [_ Hv]. rewrite <- Hv. by intros [].
    - apply IH; [|done]. by destruct (Hin p) as [? _]; [set_solver|]. }
  destruct (Location (cs_cache cs)) eqn:El.
  - intros [? _]%Hbelow; [done|congruence].
  - case_decide; [done|]. destruct (validator_main _ _ _); [|done]. intros [= <-]. by apply first_here.
  - intros [_ ?]%Hbelow; [done|congruence].
  - intros [_ ?]%Hbelow; [done|congruence].
Qed.
End validator.

(** C9: [ValidateCallSite] finds exactly the captive dependencies.  For
    registrations that list no implemented interfaces and have no cycles, and the
    call site of any type not validated before, after any earlier requests:
    validation fails if and only if some singleton below it needs, directly or
    through other services, a scoped service, and the error names such a singleton
    and a scoped service it needs; otherwise it succeeds and records, for the type,
    the first scoped service it needs in the order of the constructor parameters,
    or nothing if it needs none.  It needs no more fuel than there are call sites. *)
Theorem validator_finds_captives ds rank n ts t c s' w :
  simple ds rank → GetCallSite (newCallSiteFactory ds) n t (requests (newCallSiteFactory ds) n ts) = (Done c, s') → w_f w = s' →
  scopedServices w !! t = None →
  match ValidateCallSite c w with
  | (Done _, w') => ¬ captive (callSites s') c ∧
      match scopedServices w' !! t with
      | Some u => needs_scoped (callSites s') c ∧ first_scoped (callSites s') c u
      | None => ¬ needs_scoped (callSites s') c
      end
  | (Fault (Failed e), w') => captive (callSites s') c ∧ captured (callSites s') c e ∧ w' = w
  | _ => False
  end.
Proof.
  intros Hsim Hget Hf Hnone. set (f := newCallSiteFactory ds) in *.
  assert (Hs : store_ok ds (requests f n ts)).
  { apply (requests_invariant f n (store_ok ds) (fun _ => True)); [apply store_ok_init| |by apply Forall_true].
    intros u s _ Hs. pose proof (GetCallSite_store ds rank Hsim n u s Hs) as Hp. unfold store_call, post in Hp. fold f in Hp.
    by destruct (GetCallSite f n u s) as [[?|?] ?]; destruct Hp as [? _]. }
  pose proof (GetCallSite_store ds rank Hsim n t _ Hs) as Hp. unfold store_call, post in Hp. fold f in Hp. rewrite Hget in Hp.
  destruct Hp as (Hs' & _ & Harg). destruct (arg_site_type ds rank Hsim _ _ _ Hs' Harg) as (cs & Hc & Ht).
  set (m := S (length (callSites s'))). assert (Hlt : c < m) by (unfold m; apply lookup_lt_Some in Hc; lia).
  pose proof (validator_verdict (callSites s') (ok_order ds s' Hs') m None c Hlt ltac:(by exists cs)) as Hv.
  unfold ValidateCallSite. rewrite Hf. fold m.
  destruct (validator_visit _ _ _ _) as [[u|]|[e|e| |]] eqn:Ev; cbn in Hv; try done.
  - rewrite Hc. destruct Hv as [Hnc Hns]. split; [done|]. cbn. rewrite Ht, lookup_insert_eq.
    split; [apply Hns; by eexists|]. by apply (validator_first _ (ok_order ds s' Hs') m).
  - destruct Hv as [Hnc Hns]. split; [done|]. rewrite Hnone, <- Hns. by intros [].
  - split; [done|]. split; [|done]. by destruct (validator_blames _ _ _ _ _ Ev).
Qed.

(** ** Disposal *)
Lemma list_alter_insert {A} (g : A → A) (l : list A) i x : l !! i = Some x → alter g i l = <[i := g x]> l.
Proof.
  revert i. induction l as [|y l IH]; intros [|i] Hx; simplify_eq/=; [done|]. f_equal. by apply IH.
Qed.

Lemma scopes_update_eq sid g w : scopes (update_scope sid g w) !! sid = g <$> scopes w !! sid.
Proof. cbn. apply list_lookup_alter_eq. Qed.

Section disposal.
Context `{TS : TypeSystem}.

(** Disposing of plain objects. *)
Lemma dispose_all_log (go : nat → M world unit) l w :
  (∀ id, VScope id ∉ l) →
  (fix dispose_all (l : list value) : M world unit :=
     match l with
     | [] => mret tt
     | v :: l' => _ ← match v with VScope sid' => go sid' | _ => modify (log_dispose v) end; dispose_all l'
     end) l w = (Done tt, foldl (fun w v => log_dispose v w) w l).
Proof.
  revert w. induction l as [|v l IH]; intros w Hl; [done|]. cbn [foldl].
  assert (Hrest : ∀ id, VScope id ∉ l) by (intros id Hin; apply (Hl id); by right).
  destruct v as [t id|e vs|id| |]; try (exact (IH _ Hrest)). exfalso. apply (Hl id). left.
Qed.

Lemma fold_log l w : let w' := foldl (fun w v => log_dispose v w) w l in
  disposed_log w' = disposed_log w ++ l ∧ scopes w' = scopes w ∧ c_disposed w' = c_disposed w ∧ realizedServices w' = realizedServices w.
Proof.
  revert w. induction l as [|v l IH]; intros w; cbn [foldl]; [by rewrite app_nil_r|].
  destruct (IH (log_dispose v w)) as (H1 & H2 & H3 & H4). split_and!; [|done|done|done]. rewrite H1. cbn. by rewrite <- app_assoc.
Qed.

(** C11: Disposing of a scope: every object it captured is disposed of once, in the
    reverse order of capture; the scope is left empty and closed, other scopes are
    untouched, and for the root scope the container is closed too.  Afterwards
    every request on the scope fails (for the root: on any scope), and disposing
    again does nothing. *)
Theorem scope_disposal sid s w n :
  scopes w !! sid = Some s → s_disposed s = false → s_locked s = false → (∀ id, VScope id ∉ disposables s) →
  ∃ w', Dispose (S n) sid w = (Done tt, w') ∧
    disposed_log w' = disposed_log w ++ reverse (disposables s) ∧
    scopes w' = <[sid := mkScope None false true []]> (scopes w) ∧
    (c_disposed w' = true ↔ sid = 0 ∨ c_disposed w = true) ∧
    Dispose (S n) sid w' = (Done tt, w') ∧
    ∀ f validate m sid' t, sid' = sid ∨ sid = 0 ∧ is_Some (scopes w !! sid') →
      ∃ e, exec f validate (S m) (Get sid' t) w' = (Fault (Failed e), w').
Proof.
  intros Hs Hd Hl Hno.
  set (w1 := update_scope sid (fun s => mkScope (ResolvedServices s) (s_locked s) true (disposables s)) w).
  set (w2 := if decide (sid = 0) then set_c_disposed w1 else w1).
  set (w3 := update_scope sid (set_locked false) (update_scope sid begin_dispose (update_scope sid (set_locked true) w2))).
  assert (Hlt : sid < length (scopes w)) by (by eapply lookup_lt_Some).
  assert (Hs2 : scopes w2 = <[sid := mkScope (ResolvedServices s) false true (disposables s)]> (scopes w)).
  { unfold w2. transitivity (scopes w1); [by case_decide|]. cbn. rewrite (list_alter_insert _ _ _ s) by done. by rewrite Hl. }
  assert (Hs3 : scopes w3 = <[sid := mkScope None false true []]> (scopes w)).
  { unfold w3. cbn. rewrite Hs2. rewrite (list_alter_insert (set_locked true) _ _ _ (list_lookup_insert_eq _ _ _ Hlt)), list_insert_insert_eq.
    rewrite (list_alter_insert begin_dispose _ _ _ (list_lookup_insert_eq _ _ _ Hlt)), list_insert_insert_eq.
    rewrite (list_alter_insert (set_locked false) _ _ _ (list_lookup_insert_eq _ _ _ Hlt)), list_insert_insert_eq. done. }
  assert (Hc3 : c_disposed w3 = true ↔ sid = 0 ∨ c_disposed w = true).
  { unfold w3, w2. cbn. case_decide; cbn; [tauto|]. split; [by right|by intros [?|?]]. }
  assert (Hlog3 : disposed_log w3 = disposed_log w) by (unfold w3, w2; cbn; by case_decide).
  assert (Hrev : ∀ id, VScope id ∉ reverse (disposables s)) by (intros id; rewrite elem_of_reverse; apply Hno).
  set (w4 := foldl (fun w v => log_dispose v w) w3 (reverse (disposables s))).
  destruct (fold_log (reverse (disposables s)) w3) as (H1 & H2 & H3 & _). fold w4 in H1, H2, H3.
  assert (Hs4 : scopes w4 !! sid = Some (mkScope None false true [])) by (rewrite H2, Hs3; by apply list_lookup_insert_eq).
  exists w4. split_and!.
  - cbn [Dispose]. unfold mbind, M_bind, get_scope. rewrite Hs, Hd. unfold modify. fold w1. fold w2.
    assert (Hlk : scopes w2 !! sid = Some (mkScope (ResolvedServices s) false true (disposables s))) by (rewrite Hs2; by apply list_lookup_insert_eq).
    unfold with_scope_lock. rewrite Hlk. cbn [s_locked]. unfold deferred.
    rewrite scopes_update_eq, Hlk. cbn [fmap option_fmap option_map]. cbn [disposables set_locked]. fold w3.
    exact (dispose_all_log (Dispose n) (reverse (disposables s)) w3 Hrev).
  - by rewrite H1, Hlog3.
  - by rewrite H2.
  - by rewrite H3.
  - cbn [Dispose]. unfold mbind, M_bind, get_scope. by rewrite Hs4.
  - intros f validate m sid' t [-> |[-> [s' Hs']]]; cbn [exec]; unfold scope_Get, mbind, M_bind, get_scope.
    + rewrite Hs4. by eexists.
    + destruct (scopes w4 !! sid') as [s4|] eqn:E4; [|rewrite H2, Hs3 in E4; apply lookup_ge_None in E4; rewrite length_insert in E4;
        apply lookup_lt_Some in Hs'; lia].
      destruct (s_disposed s4); [by eexists|]. unfold GetWithScope, mbind, M_bind, gets. rewrite H3.
      assert (c_disposed w3 = true) as -> by (apply Hc3; by left). by eexists.
Qed.
End disposal.

(** ** Examples *)
Section examples.
Import Di.Examples DiResolve.Scenarios.

(** A singleton that needs a scoped service. *)
Definition captives : list Descriptor := [service 1 A Lifetime_Singleton [B] []; service 2 B Lifetime_Scoped [] []].

Lemma captives_simple : simple captives layered_rank.
Proof.
  assert (Hd : ∀ d, d ∈ captives → d = service 1 A Lifetime_Singleton [B] [] ∨ d = service 2 B Lifetime_Scoped [] []).
  { intros d. unfold captives. rewrite !elem_of_cons, elem_of_nil. tauto. }
  split; [split| |].
  - intros d ctor t [-> | ->]%Hd; intros [= <-]; cbn [In makes]; rewrite ?elem_of_cons, elem_of_nil; [intros [-> |[]]; vm_compute; lia|by intros []].
  - intros d t [-> | ->]%Hd; by intros ?%elem_of_nil.
  - intros t. cbn. lia.
  - by intros d [-> | ->]%Hd.
  - intros d d' [-> | ->]%Hd [-> | ->]%Hd; done.
Qed.

Abbreviation captive_request := (GetCallSite (newCallSiteFactory captives) 5 A (requests (newCallSiteFactory captives) 5 [])).
Definition captive_world (s : fstate) : world := set_f (fun _ => s) new_world.

Lemma captive_facts : ∃ s, captive_request = (Done 4, s) ∧ (ValidateCallSite 4 (captive_world s)).1 = Fault (Failed (CannotConsumeScoped B A)).
Proof.
  assert (Hr : captive_request.1 = Done 4) by (vm_compute; reflexivity).
  assert (Hv : (ValidateCallSite 4 (captive_world captive_request.2)).1 = Fault (Failed (CannotConsumeScoped B A))) by (vm_compute; reflexivity).
  destruct captive_request as [r s]. cbn in *. subst r. by exists s.
Qed.

Lemma validator_finds_captives_witness : ∃ s, captive_request = (Done 4, s) ∧
  (ValidateCallSite 4 (captive_world s)).1 = Fault (Failed (CannotConsumeScoped B A)) ∧
  captive (callSites s) 4 ∧ captured (callSites s) 4 (CannotConsumeScoped B A).
Proof.
  destruct captive_facts as (s & Hreq & Hv). exists s. split; [exact Hreq|]. split; [exact Hv|].
  pose proof (validator_finds_captives captives layered_rank 5 [] A 4 s (captive_world s) captives_simple Hreq eq_refl eq_refl) as H.
  destruct (ValidateCallSite 4 (captive_world s)) as [r w']. cbn in Hv. subst r. destruct H as (H1 & H2 & _). split; [exact H1|exact H2].
Defined.

(** The check on the root scope looks for the type asked for, but the validator
    recorded the type of the implementation: a scoped service asked for by its
    interface is handed out by the root. *)
Example interface_bypasses_root_check :
  let f := newCallSiteFactory [service 1 A Lifetime_Scoped [] [I]] in
  (exec f true 20 (Get 0 A) new_world).1 = Fault (Failed (ScopedServiceFromRootError A A)) ∧
  (exec f true 20 (Get 0 I) new_world).1 = Done (VObj A 0).
Proof. vm_compute. split; reflexivity. Qed.

Definition closing : world := set_scopes (fun l => l ++ [mkScope (Some ∅) false false [VObj D 0; VObj D 1]]) new_world.

Lemma scope_disposal_witness : ∃ w', Dispose 1 1 closing = (Done tt, w') ∧ disposed_log w' = [VObj D 1; VObj D 0].
Proof.
  destruct (scope_disposal 1 (mkScope (Some ∅) false false [VObj D 0; VObj D 1]) closing 0) as (w' & H1 & H2 & _).
  - reflexivity.
  - reflexivity.
  - reflexivity.
  - intros id. cbn [disposables]. rewrite !elem_of_cons, elem_of_nil. by intros [?|[?|[]]].
  - by exists w'.
Defined.
End examples.
