(* ===== verification/DiLive.v ===== *)
(** * The dependency injection container: resolution always ends

    A goroutine that asks a container for a service gets an answer: for
    registrations as in [DiStore], application code that does not call the container
    back while it builds a service, and transients that are not disposable, no
    request ever locks a mutex twice, and its depth is bounded by the rank of the
    type.  The examples of [DiResolve.Scenarios] show that both conditions on the
    application are needed. *)
From stdpp Require Import gmap strings.
From S2P Require Import Prelude GoText Claims Request Di DiStore DiResolve DiLifetimes DiScopes.
From stdpp Require Import options.

(** Code that does not ask a container, and what it can return. *)
Fixpoint direct (p : prog) : Prop :=
  match p with Return _ _ | Throw _ => True | New t k => ∀ id, direct (k (VObj t id)) | GetFrom _ _ _ | GetKeyFrom _ _ _ _ => False end.
Fixpoint returns (p : prog) (v : value) : Prop :=
  match p with Return v' _ => v = v' | New t k => ∃ id, returns (k (VObj t id)) v | _ => False end.

Section live.
Context `{TS : TypeSystem} (ds : list Descriptor) (rank : rtype → nat) (Hsim : simple ds rank) (validate : bool).
Let f := newCallSiteFactory ds.

Record well_behaved : Prop := {
  wb_valid d : d ∈ ds → valid_descriptor d;
  wb_ctor d ctor args : d ∈ ds → d_Ctor d = Some ctor → direct (Call ctor args) ∧
    (d_Lifetime d = Lifetime_Transient → ∀ v, returns (Call ctor args) v → is_disposable v = false);
  wb_factory d fac c : d ∈ ds → d_Factory d = Some fac → direct (fac c) ∧
    (d_Lifetime d = Lifetime_Transient → ∀ v, returns (fac c) v → is_disposable v = false) }.

Context (Hwb : well_behaved).

Abbreviation sites w := (callSites (w_f w)).
Abbreviation nothing := (fun (_ : nat) (_ : ServiceCacheKey) => False).
Abbreviation world_ok := (world_ok ds).
Abbreviation evolves := (evolves ds).
Abbreviation runs := (runs ds).

(** A computation that comes to an end. *)
Definition ends {A} (r : res A) : Prop := match r with Fault Stuck | Fault NoFuel => False | _ => True end.
Definition live {A} (m : M world A) (w : world) : Prop := ends (m w).1.

Lemma live_bind {A B} (m : M world A) (k : A → M world B) w :
  live m w → (∀ a w', m w = (Done a, w') → live (k a) w') → live (m ≫= k) w.
Proof. unfold live, mbind, M_bind. intros Hm Hk. destruct (m w) as [[a|x] w'] eqn:E; [by apply Hk|done]. Qed.

Lemma live_deferred {A} g (m : M world A) w : live m w → live (deferred g m) w.
Proof. unfold live, deferred. by destruct (m w) as [[a|[]] w']. Qed.

Lemma runs_Done B {A} (m : M world A) w Q a w' : runs B m w Q → m w = (Done a, w') → world_ok w' ∧ evolves B w w' ∧ Q a w'.
Proof. unfold DiLifetimes.runs, post. intros H E. by rewrite E in H. Qed.

Lemma live_get_site c w : live (get_site c) w.
Proof. unfold live, get_site. by destruct (sites w !! c). Qed.
Lemma live_get_scope sid w : live (get_scope sid) w.
Proof. unfold live, get_scope. by destruct (scopes w !! sid). Qed.

Definition unlocked (sid : nat) (w : world) : Prop := ∀ s, scopes w !! sid = Some s → s_locked s = false.

Lemma unlocked_evolves B sid w w' : evolves B w w' → unlocked sid w → unlocked sid w'.
Proof.
  intros Hev Hu s Hs. pose proof (ev_scope _ _ _ _ Hev sid) as Hsc. rewrite Hs in Hsc.
  destruct (scopes w !! sid) as [s0|] eqn:E; [|done]. injection Hsc as -> _. by apply Hu.
Qed.

Lemma live_scope_lock {A} sid (m : M world A) w :
  unlocked sid w → (∀ s, scopes w !! sid = Some s → live m (update_scope sid (set_locked true) w)) → live (with_scope_lock sid m) w.
Proof.
  intros Hu Hm. unfold live, with_scope_lock. destruct (scopes w !! sid) as [s|] eqn:E; [|done]. rewrite (Hu s E).
  by apply (live_deferred (update_scope sid (set_locked false)) m), (Hm s).
Qed.

Lemma live_Capture sid v w : is_disposable v = false ∨ unlocked sid w → live (CaptureDisposable sid v) w.
Proof.
  intros Hv. unfold CaptureDisposable. destruct (is_disposable v && _) eqn:E; [|done]. apply andb_true_iff in E as [Hd _].
  destruct Hv as [Hv|Hu]; [congruence|]. apply live_bind.
  - apply live_scope_lock; [done|]. intros s Hs. apply live_bind; [apply live_get_scope|]. intros s' w' _. destruct (s_disposed s'); [done|].
    by apply live_bind.
  - intros b w' _. destruct b; [by apply live_bind|done].
Qed.

Lemma live_CaptureWithoutLock sid v w : live (CaptureDisposableWithoutLock sid v) w.
Proof.
  unfold CaptureDisposableWithoutLock. destruct (_ && _); [|done]. apply live_bind; [apply live_get_scope|]. intros s w' _.
  destruct (s_disposed s); [by apply live_bind|done].
Qed.

(** *** Application code *)
Lemma run_prog_live get get_key p w : direct p → live (run_prog get get_key p) w.
Proof.
  revert w. induction p as [v err|e|t k IH|c t k IH|c t key k IH]; intros w Hd; cbn [run_prog]; try done.
  apply live_bind; [done|]. intros v w' Hv. injection Hv as <- _. apply IH, Hd.
Qed.

Lemma run_prog_returns get get_key p w v err w' : direct p → run_prog get get_key p w = (Done (v, err), w') → returns p v.
Proof.
  revert w. induction p as [v0 err0|e|t k IH|c t k IH|c t key k IH]; intros w Hd; cbn [run_prog returns]; try done.
  - intros [= <- _ _]. done.
  - intros Hr. exists (next_id w). eapply IH; [apply Hd|]. exact Hr.
Qed.

(** *** Visits *)

(** The mutexes a visit of a call site of rank [r] may need are free. *)
Record free (r : nat) (ctx : resolverContext) (w : world) : Prop := {
  fr_sites c' : c' ∈ siteLocks w → ∃ cs', sites w !! c' = Some cs' ∧ r < rank (cs_type cs');
  fr_root : unlocked 0 w;
  fr_scope : Acquired_Scope ctx = false → unlocked (rc_Scope ctx) w }.

Lemma free_evolves B r ctx w w' : evolves B w w' → free r ctx w → free r ctx w'.
Proof.
  intros Hev [H1 H2 H3]. split.
  - intros c' Hin. rewrite (ev_locks _ _ _ _ Hev) in Hin. destruct (H1 c' Hin) as (cs1 & Hc1 & Hr).
    destruct (ev_site _ _ _ _ Hev c' cs1 Hc1) as (cs2 & Hc2 & (Ht & _) & _). exists cs2. by rewrite Ht.
  - by eapply unlocked_evolves.
  - intros Ha. by eapply unlocked_evolves; [|apply H3].
Qed.

Lemma free_mono r r' ctx w : r' <= r → free r ctx w → free r' ctx w.
Proof. intros Hr [H1 H2 H3]. split; [|done|done]. intros c' Hin. destruct (H1 c' Hin) as (cs' & Hc' & Hlt). exists cs'. split; [done|lia]. Qed.

(** The values of a transient are not disposable. *)
Definition harmless (cs : CallSite) (v : value) : Prop := Location (cs_cache cs) = CacheLocation_Dispose → is_disposable v = false.
Definition direct_site (cs : CallSite) : Prop :=
  match cs_kind cs with
  | FactoryCallSite fac => ∀ c, direct (fac c) ∧ ∀ v, returns (fac c) v → harmless cs v
  | ConstructorCallSite ctor _ => ∀ args, direct (Call ctor args) ∧ ∀ v, returns (Call ctor args) v → harmless cs v
  | _ => Location (cs_cache cs) ≠ CacheLocation_Dispose
  end.

Lemma sites_direct s c cs : store_ok ds s → callSites s !! c = Some cs → direct_site cs.
Proof using Hsim Hwb.
  intros Hs Hc. unfold direct_site, harmless. destruct (ok_sites _ _ Hs c cs Hc) as [(t & slot & [Hb|(d & Hd & Hm)])|(e & Ht & _ & (css & Hk & _) & Hl)].
  - destruct Hb as (_ & _ & _ & Hcache & [Hk|[v Hk]]); by rewrite Hk, Hcache.
  - destruct (registration_facts ds rank Hsim _ _ _ Hd) as [Hin _]. destruct Hm as [_ Hm].
    assert (Hloc : ∀ v, Location (newResultCacheWithLifetime (d_Lifetime d) (ServiceType d) slot) = CacheLocation_Dispose →
      (d_Lifetime d = Lifetime_Transient → is_disposable v = false) → is_disposable v = false) by (by destruct (d_Lifetime d); auto).
    destruct (d_Instance d) as [v|]; [destruct Hm as [Hk Hl]; by rewrite Hk, Hl|].
    destruct (d_Factory d) as [fac|] eqn:Ef.
    { destruct Hm as [Hk Hl]. rewrite Hk, Hl. intros x. destruct (wb_factory Hwb d fac x Hin Ef) as [H1 H2]. split; [done|].
      intros v Hv Hx. apply (Hloc v Hx). intros Htr. by apply H2. }
    destruct (d_Ctor d) as [ctor|] eqn:Ec; [|done]. destruct Hm as (Hl & params & Hk & _). rewrite Hk, Hl. intros args.
    destruct (wb_ctor Hwb d ctor args Hin Ec) as [H1 H2]. split; [done|]. intros v Hv Hx. apply (Hloc v Hx). intros Htr. by apply H2.
  - rewrite Hk. destruct Hl as [-> |(loc & Hloc & ->)]; [done|]. cbn. by destruct Hloc as [-> | ->].
Qed.

Lemma live_runs {A C} B (m : M world A) (k : A → M world C) w Q :
  live m w → runs B m w Q → (∀ a w', world_ok w' → evolves B w w' → Q a w' → live (k a) w') → live (m ≫= k) w.
Proof. intros Hl Hr Hk. apply live_bind; [done|]. intros a w' Ha. destruct (runs_Done _ _ _ _ _ _ Hr Ha) as (? & ? & ?). by apply Hk. Qed.

Section visits.
Context (n : nat) (visit : csid → resolverContext → M world value) (get : nat → rtype → M world value) (get_key : nat → rtype → string → M world value).
Context (Hget : ∀ sid t w, world_ok w → runs nothing (get sid t) w (fun _ _ => True)).
Context (Hkey : ∀ sid t k w, world_ok w → runs nothing (get_key sid t k) w (fun _ _ => True)).
Context (Hvisit : ∀ c ctx w cs, world_ok w → ctx_ok ctx w → sites w !! c = Some cs →
  runs (below rank ctx (S (rank (cs_type cs)))) (visit c ctx) w (visited c ctx w)).
Context (Hlive : ∀ c ctx w cs, world_ok w → ctx_ok ctx w → sites w !! c = Some cs → free (rank (cs_type cs)) ctx w →
  rank (cs_type cs) < n → live (visit c ctx) w).

(** The mutexes are free for everything below rank [r]. *)
Definition free_below (r : nat) (ctx : resolverContext) (w : world) : Prop := ∀ r', r' < r → free r' ctx w.

Lemma free_below_evolves B r ctx w w' : evolves B w w' → free_below r ctx w → free_below r ctx w'.
Proof. intros Hev Hf r' Hr. eapply free_evolves; [exact Hev|by apply Hf]. Qed.

Lemma visit_parameters_live ctx r ts ps w :
  world_ok w → ctx_ok ctx w → Forall2 (arg_site ds (w_f w)) ts ps → (∀ t, t ∈ ts → rank t < r) → free_below r ctx w → r <= n →
  live (visit_parameters visit ctx ps) w.
Proof using Hvisit Hlive Hsim.
  revert ts w. induction ps as [|p ps IH]; intros ts w Hw Hctx Hall Hr Hf Hn; cbn [visit_parameters]; [done|].
  apply Forall2_cons_inv_r in Hall as (t & ts' & Ha & Hall & ->).
  destruct (arg_site_type ds rank Hsim _ _ _ (wo_store _ w Hw) Ha) as (cs & Hc & Ht).
  assert (Hlt : rank (cs_type cs) < r) by (rewrite Ht; apply Hr; left).
  eapply live_runs; [apply (Hlive p ctx w cs); [done|done|done|by apply Hf|lia]|by apply (Hvisit p ctx w cs)|].
  intros v w1 Hw1 Hev1 _. apply live_bind; [|done]. apply (IH ts'); [done|by eapply ctx_ok_evolves| |intros u Hu; apply Hr; by right| |done].
  - eapply Forall2_impl; [done|]. intros u c. apply arg_site_extends. by eapply evolves_extends.
  - by eapply free_below_evolves.
Qed.

Lemma check_arguments_live ps ts vs w : live (check_arguments ps ts vs) w.
Proof.
  revert ts vs w. induction ps as [|p ps IH]; intros [|t ts] [|v vs] w; cbn [check_arguments]; try done.
  apply live_bind; [|intros; apply IH]. unfold check_argument. apply live_bind; [apply live_get_site|]. intros cs w' _. by destruct (AssignableTo _ _).
Qed.

Lemma visitConstructor_live ctx r ctor params t w :
  world_ok w → ctx_ok ctx w → Forall2 (arg_site ds (w_f w)) (In ctor) params → (∀ u, u ∈ In ctor → rank u < r) → free_below r ctx w → r <= n →
  (∀ args, direct (Call ctor args)) → live (visitConstructor visit get get_key t ctor params ctx) w.
Proof using Hvisit Hlive Hsim.
  intros Hw Hctx Hall Hr Hf Hn Hd. unfold visitConstructor. apply live_bind; [by apply (visit_parameters_live ctx r (In ctor))|].
  intros vs w1 _. apply live_bind; [apply check_arguments_live|]. intros ? w2 _. apply live_bind; [done|]. intros ? w3 _.
  apply live_bind; [by apply run_prog_live|]. intros [v err] w4 _. destruct (length (Out ctor)) as [|[|[|]]]; try done. by destruct err.
Qed.

Lemma visit_elements_live ctx r elem css w :
  world_ok w → ctx_ok ctx w → (∀ p, p ∈ css → ∃ cs, sites w !! p = Some cs ∧ rank (cs_type cs) < r) → free_below r ctx w → r <= n →
  live (visit_elements visit ctx elem css) w.
Proof using Hvisit Hlive.
  revert w. induction css as [|c css IH]; intros w Hw Hctx Hr Hf Hn; cbn [visit_elements]; [done|].
  destruct (Hr c) as (cs & Hc & Hlt); [left|].
  eapply live_runs; [apply (Hlive c ctx w cs); [done|done|done|by apply Hf|lia]|by apply (Hvisit c ctx w cs)|].
  intros v w1 Hw1 Hev1 _. destruct (reflect_TypeOf v); [|done]. destruct (AssignableTo _ _); [|done]. apply live_bind; [|done].
  apply IH; [done|by eapply ctx_ok_evolves| |by eapply free_below_evolves|done].
  intros p Hp. destruct (Hr p) as (cs' & Hc' & Hlt'); [by right|].
  destruct (ev_site _ _ _ _ Hev1 p cs' Hc') as (cs'' & Hc'' & (Ht & _) & _). exists cs''. by rewrite Ht.
Qed.

Lemma visitCallSiteMain_live c cs ctx w :
  world_ok w → ctx_ok ctx w → sites w !! c = Some cs → free_below (rank (cs_type cs)) ctx w → rank (cs_type cs) <= n →
  live (visitCallSiteMain visit get get_key cs ctx) w.
Proof using Hvisit Hlive Hsim Hwb.
  intros Hw Hctx Hc Hf Hn. pose proof (site_children ds rank Hsim (w_f w) c cs (wo_store _ w Hw) Hc) as Hch.
  pose proof (sites_direct (w_f w) c cs (wo_store _ w Hw) Hc) as Hdir. unfold visitCallSiteMain, direct_site in *.
  destruct (cs_kind cs) as [fac|ctor params|v|e css|] eqn:Ek; [| |done| |done].
  - unfold visitFactory. apply live_bind; [|done]. apply run_prog_live, Hdir.
  - destruct Hch as [Hall Hr]. apply (visitConstructor_live ctx (rank (cs_type cs))); try done. intros args. apply Hdir.
  - destruct Hch as [Hr Hel]. unfold visitSlice. apply live_bind; [|done]. apply (visit_elements_live ctx (rank (cs_type cs))); try done.
    intros p Hp. destruct (Hel p Hp) as [slot Hs]. destruct (cached_type ds rank Hsim _ _ _ _ (wo_store _ w Hw) Hs) as (cs' & Hc' & Ht).
    exists cs'. by rewrite Ht.
Qed.

(** What a transient's call site yields is not captured. *)
Lemma visitCallSiteMain_harmless c cs ctx w v w' :
  world_ok w → sites w !! c = Some cs → visitCallSiteMain visit get get_key cs ctx w = (Done v, w') → harmless cs v.
Proof using Hsim Hwb.
  intros Hw Hc. pose proof (sites_direct (w_f w) c cs (wo_store _ w Hw) Hc) as Hdir. unfold visitCallSiteMain, direct_site in *.
  destruct (cs_kind cs) as [fac|ctor params|x|e css|] eqn:Ek; try (intros _ Hl; done).
  - unfold visitFactory, mbind, M_bind. destruct (run_prog _ _ _ w) as [[[y err]|x] w1] eqn:E; [|done]. intros [= <- _].
    destruct (Hdir (VScope (rc_Scope ctx))) as [H1 H2]. apply H2. by eapply run_prog_returns.
  - unfold visitConstructor, mbind, M_bind.
    destruct (visit_parameters _ _ _ w) as [[vs|x] w1]; [|done]. destruct (check_arguments _ _ _ w1) as [[?|x] w2]; [|done]. cbn [modify].
    destruct (run_prog _ _ _ _) as [[[y err]|x] w3] eqn:E; [|done]. destruct (Hdir vs) as [H1 H2]. specialize (H2 y (run_prog_returns _ _ _ _ _ _ _ H1 E)).
    destruct (length (Out ctor)) as [|[|[|]]]; cbn; [done|by intros [= <- _]| |done]. destruct err; [done|by intros [= <- _]].
Qed.

Lemma visitRootCache_live c ctx w cs :
  world_ok w → sites w !! c = Some cs → free (rank (cs_type cs)) ctx w → rank (cs_type cs) <= n →
  live (visitRootCache visit get get_key c ctx) w.
Proof using Hvisit Hlive Hsim Hwb Hget Hkey.
  intros Hw Hc Hf Hn. unfold visitRootCache. apply live_bind; [apply live_get_site|]. unfold get_site at 1. rewrite Hc. intros cs0 w0 [= <- <-].
  destruct (cs_value cs) as [v|] eqn:Ev; [done|]. assert (Hnl : c ∉ siteLocks w).
  { intros Hin. destruct (fr_sites _ _ _ Hf c Hin) as (cs' & Hc' & Hlt). assert (cs' = cs) as -> by congruence. lia. }
  unfold live, with_site_lock. rewrite decide_False by done. set (w1 := set_siteLocks (fun l => {[c]} ∪ l) w). apply live_deferred.
  apply live_bind; [apply live_get_site|]. unfold get_site at 1. change (sites w1) with (sites w). rewrite Hc. intros cs0 w0 [= <- <-]. rewrite Ev.
  assert (Hw1 : world_ok w1) by (by apply (world_ok_agree ds w)). set (ctx' := mkRC 0 (Acquired_Scope ctx) true).
  assert (Hctx : ctx_ok ctx' w1) by (by intros _ []).
  assert (Hfb : free_below (rank (cs_type cs)) ctx' w1).
  { intros r Hr. split; [|apply Hf|intros _; apply Hf]. intros c' Hin. cbn in Hin. apply elem_of_union in Hin as [->%elem_of_singleton|Hin].
    - by exists cs.
    - destruct (fr_sites _ _ _ Hf c' Hin) as (cs' & Hc' & Hlt). exists cs'. split; [done|lia]. }
  eapply live_runs; [by apply (visitCallSiteMain_live c)|by apply (visitCallSiteMain_runs ds rank Hsim _ _ _ Hget Hkey Hvisit c)|].
  intros v w2 Hw2 Hev2 _. eapply live_bind.
  - apply live_Capture. right. eapply unlocked_evolves; [exact Hev2|apply Hf].
  - intros ? w3 _. by destruct v.
Qed.

Lemma visit_scope_body_live c cs ctx w s :
  world_ok w → sites w !! c = Some cs → scopes w !! rc_Scope ctx = Some s → s_locked s = true →
  (∀ c', c' ∈ siteLocks w → ∃ cs', sites w !! c' = Some cs' ∧ rank (cs_type cs) < rank (cs_type cs')) → unlocked 0 w → rank (cs_type cs) <= n →
  live (visit_scope_body visit get get_key cs ctx) w.
Proof using Hvisit Hlive Hsim Hwb.
  intros Hw Hc Hs Hl Hsl Hz Hn. unfold visit_scope_body. apply live_bind; [apply live_get_scope|]. intros s0 w0 Hg.
  unfold get_scope in Hg. rewrite Hs in Hg. injection Hg as <- <-. destruct (lookup_resolved s (Key (cs_cache cs))) as [v|]; [done|].
  apply live_bind.
  - apply (visitCallSiteMain_live c); [done|by intros _ _; exists s|done| |done]. intros r Hr. split; [|done|done].
    intros c' Hin. destruct (Hsl c' Hin) as (cs' & Hc' & Hlt). exists cs'. split; [done|lia].
  - intros v w1 _. apply live_bind; [apply live_CaptureWithoutLock|]. intros ? w2 _. apply live_bind; [|done]. unfold store_resolved.
    apply live_bind; [apply live_get_scope|]. intros s2 w3 _. destruct (ResolvedServices s2), (Key (cs_cache cs)); done.
Qed.

Lemma visitScopeCache_live c ctx w cs :
  world_ok w → ctx_ok ctx w → sites w !! c = Some cs → free (rank (cs_type cs)) ctx w → rank (cs_type cs) <= n →
  live (visitScopeCache visit get get_key c ctx) w.
Proof using Hvisit Hlive Hsim Hwb Hget Hkey.
  intros Hw Hctx Hc Hf Hn. unfold visitScopeCache. case_decide as Hz; [by apply (visitRootCache_live c ctx w cs)|].
  apply live_bind; [apply live_get_site|]. unfold get_site at 1. rewrite Hc. intros cs0 w0 [= <- <-].
  destruct (Acquired_Scope ctx) eqn:Ea.
  - destruct (Hctx Ea Hz) as (s & Hs & Hl). eapply (visit_scope_body_live c cs ctx w s); try done; apply Hf.
  - apply live_scope_lock; [by apply (fr_scope _ _ _ Hf)|]. intros s Hs. set (w1 := update_scope _ _ w).
    apply (visit_scope_body_live c cs ctx w1 (set_locked true s)); try done.
    + apply (world_ok_agree ds w); [by apply agree_update|done].
    + unfold w1. rewrite scopes_update, decide_True by done. by rewrite Hs.
    + apply (fr_sites _ _ _ Hf).
    + intros s0. unfold w1. rewrite scopes_update, decide_False by done. apply (fr_root _ _ _ Hf).
Qed.

Lemma visitCallSite_live c ctx w cs :
  world_ok w → ctx_ok ctx w → sites w !! c = Some cs → free (rank (cs_type cs)) ctx w → rank (cs_type cs) <= n →
  live (visitCallSite visit get get_key c ctx) w.
Proof using Hvisit Hlive Hsim Hwb Hget Hkey.
  intros Hw Hctx Hc Hf Hn. unfold visitCallSite. apply live_bind; [apply live_get_site|]. unfold get_site at 1. rewrite Hc. intros cs0 w0 [= <- <-].
  assert (Hmain : live (visitCallSiteMain visit get get_key cs ctx) w).
  { apply (visitCallSiteMain_live c); try done. intros r Hr. eapply free_mono; [|exact Hf]. lia. }
  destruct (Location (cs_cache cs)) eqn:El; [by apply (visitRootCache_live c ctx w cs)|by apply (visitScopeCache_live c ctx w cs)| |done].
  unfold visitDisposeCache. apply live_bind; [done|]. intros v w1 Hv. apply live_bind; [|done]. apply live_Capture. left.
  by apply (visitCallSiteMain_harmless c cs ctx w v w1).
Qed.
End visits.

(** Visits with enough fuel come to an end. *)
Lemma exec_visit_live n c ctx w cs :
  world_ok w → ctx_ok ctx w → sites w !! c = Some cs → free (rank (cs_type cs)) ctx w → rank (cs_type cs) < n →
  live (exec f validate n (Visit c ctx)) w.
Proof using Hsim Hwb.
  revert c ctx w cs. induction n as [|n IH]; intros c ctx w cs Hw Hctx Hc Hf Hn; [lia|]. cbn [exec].
  destruct (exec_runs ds rank Hsim validate n) as (Hg & Hk & Hv).
  eapply (visitCallSite_live n); try done; [|lia]. intros sid t w' Hw'. eapply runs_weaken; [by apply Hg|done|done].
Qed.

(** ** Requests *)

(** No mutex is held. *)
Definition quiet (w : world) : Prop := typeLocks (w_f w) = ∅ ∧ siteLocks w = ∅ ∧ ∀ sid, unlocked sid w.

Lemma quiet_evolves B w w' : evolves B w w' → quiet w → quiet w'.
Proof.
  intros Hev (H1 & H2 & H3). split_and!; [by rewrite (ev_tlocks _ _ _ _ Hev)|by rewrite (ev_locks _ _ _ _ Hev)|].
  intros sid. eapply unlocked_evolves; [exact Hev|apply H3].
Qed.

Lemma quiet_free r ctx w : quiet w → free r ctx w.
Proof. intros (_ & H2 & H3). split; [|apply H3|by intros _]. intros c' Hin. rewrite H2 in Hin. by apply elem_of_empty in Hin. Qed.

Lemma Resolve_live n c sid w cs : world_ok w → quiet w → sites w !! c = Some cs → rank (cs_type cs) < n →
  live (Resolve (fun c ctx => exec f validate n (Visit c ctx)) c sid) w.
Proof using Hsim Hwb.
  intros Hw Hq Hc Hn. assert (Hv : live (exec f validate n (Visit c (mkRC sid false false))) w).
  { apply (exec_visit_live n c _ w cs); [done|by intros [=]|done|by apply quiet_free|done]. }
  unfold Resolve. apply live_bind; [apply live_get_site|]. unfold get_site at 1. rewrite Hc. intros cs0 w0 [= <- <-].
  destruct (cs_value cs); [by case_decide|done].
Qed.

Lemma ValidateCallSite_live c w : world_ok w → is_Some (sites w !! c) → live (if validate then ValidateCallSite c else mret tt) w.
Proof.
  intros Hw [cs Hc]. destruct validate; [|done]. unfold live, ValidateCallSite.
  pose proof (validator_verdict (sites w) (ok_order _ _ (wo_store _ w Hw)) (S (length (sites w))) None c) as Hv.
  specialize (Hv ltac:(apply lookup_lt_Some in Hc; lia) ltac:(by eexists)).
  destruct (validator_visit _ _ _ _) as [[t|]|[]]; done.
Qed.

Lemma factory_live n t w : world_ok w → quiet w → rank t < n → live (in_factory (GetCallSite f n t)) w.
Proof using Hsim Hwb.
  intros Hw (Hl & _) Hn. unfold live, in_factory. set (s := mkF _ _ _ _).
  assert (Hg : good_call ds (GetCallSite f n t) t s).
  { apply (GetCallSite_acyclic ds rank (simple_acyclic _ _ Hsim) (wb_valid Hwb)); [done| | |apply (ok_built_in _ _ (wo_store _ w Hw))].
    - intros x. unfold s. cbn. by intros ?%elem_of_empty.
    - intros x. unfold s. cbn. rewrite Hl. by intros ?%elem_of_empty. }
  unfold good_call, post in Hg. destruct (GetCallSite f n t s) as [[c|x] s']; [done|]. by destruct Hg as [(u & -> & _) _].
Qed.

Lemma createServiceAccessor_live n t w : world_ok w → quiet w → rank t < n →
  live (createServiceAccessor f validate n (fun c ctx => exec f validate n (Visit c ctx)) t) w.
Proof using Hsim Hwb.
  intros Hw Hq Hn. unfold createServiceAccessor.
  eapply live_runs; [by apply factory_live|apply (in_factory_runs ds rank nothing (GetCallSite f n t) (S (rank t)) w (fun c s' => arg_site ds s' t c)); [done| |]|].
  { intros s Hs. exact (GetCallSite_store ds rank Hsim n t s Hs). }
  { intros s. apply GetCallSite_gives_back. }
  intros c w1 Hw1 Hev1 Ha. destruct (arg_site_type ds rank Hsim _ _ _ (wo_store _ w1 Hw1) Ha) as (cs & Hc & Ht).
  pose proof (quiet_evolves _ _ _ Hev1 Hq) as Hq1. unfold realize.
  eapply live_bind; [apply ValidateCallSite_live; [done|by eexists]|]. intros [] w2 Hv2.
  assert (Hr2 : runs nothing (if validate then ValidateCallSite c else mret tt) w1 (fun _ w' => w_f w' = w_f w1)).
  { destruct validate; [by apply (ValidateCallSite_runs ds nothing)|by apply runs_ret]. }
  destruct (runs_Done _ _ _ _ _ _ Hr2 Hv2) as (Hw2 & Hev2 & Hf2). cbv beta in Hf2.
  apply live_bind; [apply live_get_site|]. unfold get_site at 1. rewrite Hf2, Hc. intros cs0 w0 [= <- <-]. case_decide; [|done].
  apply live_bind; [|done]. apply (Resolve_live n c 0 w2 cs); [done|by eapply quiet_evolves|by rewrite Hf2|by rewrite Ht].
Qed.

Lemma live_recovered {A} (m : M world A) w : live m w → live (recovered m) w.
Proof. unfold live, recovered. by destruct (m w) as [[a|[]] w']. Qed.

Lemma GetWithScope_live n t sid w : world_ok w → quiet w → rank t < n →
  live (GetWithScope f validate n (fun c ctx => exec f validate n (Visit c ctx)) t sid) w.
Proof using Hsim Hwb.
  intros Hw Hq Hn. destruct (exec_runs ds rank Hsim validate n) as (_ & _ & Hv). unfold GetWithScope.
  apply live_bind; [done|]. intros d w0 [= <- <-]. destruct (c_disposed w); [done|]. apply live_recovered.
  apply live_bind; [done|]. intros o w0 [= <- <-].
  eapply (live_runs nothing _ _ _ (fun a w' => realizedServices w' !! t = Some a)).
  - destruct (realizedServices w !! t) as [a|]; [done|]. apply live_bind; [by apply createServiceAccessor_live|]. intros a w1 _.
    apply live_bind; [done|]. intros o w2 _. by destruct o.
  - by apply (realized_or_created ds rank Hsim validate n _ Hv).
  - intros a w1 Hw1 Hev1 Ha. apply live_bind.
    { destruct validate; [|done]. unfold ValidateResolution. apply live_bind; [done|]. intros m w2 _. case_decide; [by destruct (m !! t)|done]. }
    intros [] w2 Hval. destruct (runs_Done _ _ _ _ _ _ (ValidateResolution_runs ds validate nothing t sid w1 Hw1) Hval) as (_ & _ & ->).
    destruct (wo_realized _ w1 Hw1 t a Ha) as (c & cs & Harg & Hc & Hacc). destruct a as [v|c']; cbn [access]; [done|]. destruct Hacc as [-> _].
    destruct (arg_site_type ds rank Hsim _ _ _ (wo_store _ w1 Hw1) Harg) as (cs' & Hc' & Ht). assert (cs' = cs) as -> by congruence.
    apply (Resolve_live n c sid w1 cs); [done|by eapply quiet_evolves|done|by rewrite Ht].
Qed.

(** *** Clients leave no mutex held *)
Definition settles {A} (m : M world A) (w : world) : Prop :=
  post m w (fun _ w' => quiet w') (fun x w' => match x with Stuck | NoFuel => True | _ => quiet w' end).

Lemma settles_bind {A C} (m : M world A) (k : A → M world C) w :
  settles m w → (∀ a w', quiet w' → settles (k a) w') → settles (m ≫= k) w.
Proof. intros Hm Hk. apply post_bind. eapply post_weaken; [exact Hm| |done]. intros a w' Hq. by apply Hk. Qed.

Lemma settles_runs {A} (m : M world A) w Q : quiet w → runs nothing m w Q → settles m w.
Proof.
  intros Hq Hr. eapply post_weaken; [exact Hr| |].
  - intros a w' (_ & Hev & _). by eapply quiet_evolves.
  - intros x w' Hx. destruct x; try done; destruct Hx as [_ Hev]; by eapply quiet_evolves.
Qed.

(** Changes that lock nothing. *)
Lemma quiet_update sid g w : (∀ s, s_locked s = false → s_locked (g s) = false) → quiet w → quiet (update_scope sid g w).
Proof.
  intros Hg (H1 & H2 & H3). split_and!; [done|done|]. intros sid' s. rewrite scopes_update. case_decide as Hd; [|apply H3].
  destruct (scopes w !! sid) as [s0|] eqn:E; [|done]. intros [= <-]. apply Hg. by apply (H3 sid).
Qed.

Lemma quiet_take sid w : quiet w →
  settles (with_scope_lock sid (s ← get_scope sid; _ ← modify (update_scope sid begin_dispose); mret (disposables s))) w.
Proof.
  intros (H1 & H2 & H3). unfold settles, post, with_scope_lock. destruct (scopes w !! sid) as [s|] eqn:E; [|done]. rewrite (H3 sid s E).
  unfold deferred, mbind, M_bind, get_scope. rewrite scopes_update, decide_True, E by done. cbn. split_and!; [done|done|].
  intros sid' s'. cbn. destruct (decide (sid' = sid)) as [-> |Hne].
  - rewrite !list_lookup_alter_eq, E. cbn. by intros [= <-].
  - rewrite !list_lookup_alter_ne by done. apply H3.
Qed.

Lemma settles_Dispose n sid w : quiet w → settles (Dispose n sid) w.
Proof.
  revert sid w. induction n as [|n IH]; intros sid w Hq; [done|]. cbn [Dispose].
  apply settles_bind; [unfold settles, post, get_scope; by destruct (scopes w !! sid)|]. intros s w1 Hq1. destruct (s_disposed s); [done|].
  apply settles_bind; [by apply post_modify, quiet_update|]. intros ? w2 Hq2.
  apply settles_bind; [apply post_modify; by case_decide|]. intros ? w3 Hq3.
  apply settles_bind; [by apply quiet_take|]. intros dsp w4 Hq4. generalize (reverse dsp). clear dsp. intros l. revert w4 Hq4.
  induction l as [|v l IHl]; intros w4 Hq4; [done|]. apply settles_bind; [|intros ? w5 Hq5; by apply IHl]. destruct v; try done. by apply IH.
Qed.

Lemma settles_CreateScope w : quiet w → settles CreateScope w.
Proof.
  intros (H1 & H2 & H3). unfold settles, post, CreateScope. destruct (c_disposed w); [done|]. split_and!; [done|done|].
  intros sid s. cbn. intros [Hs|[_ Hs]]%lookup_app_Some; [by apply (H3 sid)|]. by apply list_lookup_singleton_Some in Hs as [_ <-].
Qed.

Lemma client_step_quiet w w' : client_step ds validate w w' → world_ok w → quiet w → quiet w'.
Proof using Hsim.
  intros (n & o & r & Hc & Hr) Hw Hq. enough (Hk : settles (client ds validate n o) w).
  { unfold settles, post in Hk. rewrite Hc in Hk. by destruct r as [|[]]. }
  destruct (exec_runs ds rank Hsim validate n) as (Hg & Hk & _). destruct o as [sid t|sid t key| |sid|]; cbn [client].
  - apply settles_bind; [|done]. by eapply settles_runs; [|apply Hg].
  - apply settles_bind; [|done]. by eapply settles_runs; [|apply Hk].
  - apply settles_bind; [by apply settles_CreateScope|done].
  - by apply settles_Dispose.
  - unfold container_Dispose. apply settles_bind; [done|]. intros ? w1 Hq1. by apply settles_Dispose.
Qed.

Lemma client_steps_quiet w w' : rtc (client_step ds validate) w w' → world_ok w → quiet w → world_ok w' ∧ quiet w'.
Proof using Hsim.
  induction 1 as [w|w1 w2 w3 H12 _ IH]; intros Hw Hq; [by split|].
  apply IH; [by apply (client_step_ok ds rank Hsim validate w1)|by apply (client_step_quiet w1)].
Qed.

Lemma quiet_init : quiet new_world.
Proof. split_and!; [done|done|]. intros [|sid] s Hs; cbn in Hs; [by injection Hs as <-|done]. Qed.

(** C8: Resolution of well-behaved registrations always ends.  When no registration
    lists implemented interfaces, constructors have no cycles ([simple]), application
    code does not call the container back, and transients are not disposable
    ([well_behaved]; [Scenarios] and [Di.Examples] show deadlocks without each of these), then
    after any client calls [Get] of any type from any scope ends with a value, an
    error or a recovered panic: it never locks a mutex it holds, and fuel two above
    the rank of the type is enough. *)
Theorem resolution_never_deadlocks w sid t n :
  rtc (client_step ds validate) new_world w → S (rank t) < n → ends (exec f validate n (Get sid t) w).1.
Proof using Hsim Hwb.
  intros Hsteps Hn. destruct (client_steps_quiet _ _ Hsteps (world_ok_init ds) quiet_init) as [Hw Hq].
  destruct n as [|n]; [lia|]. cbn [exec]. unfold scope_Get. fold (live (s ← get_scope sid; if s_disposed s then fails ObjectDisposedError
    else GetWithScope f validate n (fun c ctx => exec f validate n (Visit c ctx)) t sid) w).
  apply live_bind; [apply live_get_scope|]. intros s w0 Hg. unfold get_scope in Hg. destruct (scopes w !! sid); [|done]. injection Hg as <- <-.
  destruct (s_disposed _); [done|]. apply GetWithScope_live; [done|done|lia].
Qed.
End live.

(** ** Example *)
Section examples.
Import Di.Examples DiResolve.Scenarios.

Lemma layered_well_behaved : well_behaved layered.
Proof.
  split.
  - intros d Hd. unfold layered in Hd. rewrite !elem_of_cons, elem_of_nil in Hd. right; right. destruct Hd as [-> |[-> |[-> |[]]]]; by eexists.
  - intros d ctor args Hd. unfold layered in Hd. rewrite !elem_of_cons, elem_of_nil in Hd.
    destruct Hd as [-> |[-> |[-> |[]]]]; cbn; intros [= <-]; (split; [done|]); try done. intros _ v [id ->]. reflexivity.
  - intros d fac c Hd. unfold layered in Hd. rewrite !elem_of_cons, elem_of_nil in Hd. by destruct Hd as [-> |[-> |[-> |[]]]].
Qed.

Lemma resolution_never_deadlocks_witness : ends (exec (newCallSiteFactory layered) false 20 (Get 1 A) world1).1.
Proof.
  apply (resolution_never_deadlocks layered layered_rank layered_simple false layered_well_behaved world1 1 A 20).
  - exact (proj1 session_steps).
  - apply Nat.ltb_lt. reflexivity.
Defined.
End examples.
