(* ===== verification/ServerTls.v ===== *)
(** * TLS of the gRPC server ([runtime/servertls])

    [servertls.go] builds the TLS configuration from [CoreConfig] and re-reads the
    certificate, the key and the client CA bundle when their files change;
    [loopback.go] holds the credentials of in-process clients.  Parsing of PEM files
    and verification of certificate chains belong to [crypto/tls] and [crypto/x509]
    and are the class [TlsLib]; the file system is part of the state. *)
From Stdlib Require Import Ascii.
From stdpp Require Import gmap strings pretty.
From S2P Require Import Prelude GoText Claims Request Mtls.
From stdpp Require Import options.

(** ** [path/filepath] *)
Definition cSlash : ascii := ascii_of_N 47.

(** The elements of a cleaned path, last first. *)
Definition clean_step (rooted : bool) (acc : list string) (e : string) : list string :=
  if decide (e = "" ∨ e = ".") then acc
  else if decide (e = "..") then
    match acc with
    | [] => if rooted then [] else [".."]
    | x :: acc' => if decide (x = "..") then ".." :: acc else acc'
    end
  else e :: acc.
Definition filepath_Clean (p : string) : string :=
  let rooted := String.prefix "/" p in
  let elems := reverse (foldl (clean_step rooted) [] (split_char cSlash p)) in
  if rooted then "/" +:+ strings_Join elems "/" else match elems with [] => "." | _ => strings_Join elems "/" end.
Definition filepath_Join (elems : list string) : string :=
  match filter (fun e => e ≠ "") elems with [] => "" | es => filepath_Clean (strings_Join es "/") end.

Example Join_certs : filepath_Join ["./certs/"; "server-cert.pem"] = "certs/server-cert.pem" ∧ filepath_Join ["/a/../b//c"; "ca.pem"] = "/b/c/ca.pem".
Proof. split; vm_compute; reflexivity. Qed.

(** ** Configuration *)
Record CoreConfig := mkCoreConfig {
  ApplicationEnvironment : string; ApplicationName : string; PORT : Z; GRPCGateWayEnabled : bool; RESTPort : Z;
  PrettyLog : bool; LogLevel : string; NATSEnabled : bool;
  TLSEnabled : bool; TLSCertFile : string; TLSKeyFile : string; TLSClientCAFile : string; TLSClientAuth : string; TLSCertsDir : string }.

Definition ClientAuthNone : string := "none".
Definition ClientAuthRequest : string := "request".
Definition ClientAuthVerifyIfGiven : string := "verify_if_given".
Definition ClientAuthRequire : string := "require".
(** Nanoseconds. *)
Definition defaultMinCheckInterval : Z := 5 * 10 ^ 9.

Record resolvedConfig := mkResolved { enabled : bool; certFile : string; keyFile : string; clientCAFile : string; clientAuth : string }.

Definition or_else (s dflt : string) : string := if decide (s = "") then dflt else s.

Definition resolveConfig (cfg : CoreConfig) : resolvedConfig :=
  if decide (TLSCertsDir cfg = "") then mkResolved (TLSEnabled cfg) (TLSCertFile cfg) (TLSKeyFile cfg) (TLSClientCAFile cfg) (TLSClientAuth cfg)
  else mkResolved true (or_else (TLSCertFile cfg) (filepath_Join [TLSCertsDir cfg; "server-cert.pem"]))
         (or_else (TLSKeyFile cfg) (filepath_Join [TLSCertsDir cfg; "server-key.pem"]))
         (or_else (TLSClientCAFile cfg) (filepath_Join [TLSCertsDir cfg; "ca.pem"])) (TLSClientAuth cfg).

(** A nil config is [None]. *)
Definition IsMutualTLSEnabled (cfg : option CoreConfig) : bool :=
  match cfg with None => false | Some cfg => bool_decide (clientCAFile (resolveConfig cfg) ≠ "") end.

Definition LoopbackTrustFile (cfg : option CoreConfig) : option string :=
  match cfg with
  | None => None
  | Some cfg =>
      let resolved := resolveConfig cfg in
      if decide (enabled resolved = false ∨ certFile resolved = "") then None else Some (certFile resolved)
  end.

(** [tls.ClientAuthType]. *)
Inductive ClientAuthType := NoClientCert | RequestClientCert | RequireAnyClientCert | VerifyClientCertIfGiven | RequireAndVerifyClientCert.
#[global] Instance ClientAuthType_eq_dec : EqDecision ClientAuthType.
Proof. solve_decision. Defined.

(** The errors of the package, by what is wrong. *)
Inductive terror :=
| NotEnabledButConfigured
| NoCertOrKey
| ClientAuthNeedsCA (mode : string)
| UnknownClientAuth (mode : string)
| StatFailed (file : string)
| ReadFailed (file : string)
| BadKeyPair
| NoUsableCertificates (file : string)
| NoLoopbackCertFile
| NoPeerCertificate
| VerifyFailed.

Definition parseClientAuth (mode clientCAFile : string) : result terror ClientAuthType :=
  if decide (mode = "") then Ok (if decide (clientCAFile = "") then NoClientCert else VerifyClientCertIfGiven)
  else if decide (mode = ClientAuthNone) then Ok NoClientCert
  else if decide (mode = ClientAuthRequest) then Ok RequestClientCert
  else if decide (mode = ClientAuthVerifyIfGiven ∨ mode = ClientAuthRequire) then
    if decide (clientCAFile = "") then Err (ClientAuthNeedsCA mode)
    else Ok (if decide (mode = ClientAuthRequire) then RequireAndVerifyClientCert else VerifyClientCertIfGiven)
  else Err (UnknownClientAuth mode).

Definition RequiresClientCert (cfg : option CoreConfig) : bool :=
  match cfg with
  | None => false
  | Some cfg =>
      let r := resolveConfig cfg in
      enabled r && match parseClientAuth (clientAuth r) (clientCAFile r) with Ok auth => bool_decide (auth = RequireAndVerifyClientCert) | Err _ => false end
  end.

(** The modes in which a presented certificate is verified. *)
Definition verifies (a : ClientAuthType) : bool := match a with VerifyClientCertIfGiven | RequireAndVerifyClientCert => true | _ => false end.

Lemma parseClientAuth_CA mode ca a : parseClientAuth mode ca = Ok a → verifies a = true → ca ≠ "".
Proof. unfold parseClientAuth. repeat case_decide; intros [= <-]; done. Qed.

(** ** Files *)
Record file := mkFile { content : list N; ModTime : Z }.
Abbreviation filesystem := (gmap string file).

(** [tls.X509KeyPair] and [AppendCertsFromPEM] on file contents: a key pair for a
    certificate and a key that belong together, a pool of at least one certificate. *)
Class TlsLib := {
  KeyPair : Type;
  CertPool : Type;
  X509KeyPair : list N → list N → option KeyPair;
  AppendCertsFromPEM : list N → option CertPool;
  (** [Verify] of a chain of peer certificates against roots, for a host name. *)
  x509_Verify : string → CertPool → Certificate → list Certificate → bool }.

Definition os_Stat (fs : filesystem) (p : string) : result terror Z := match fs !! p with Some f => Ok (ModTime f) | None => Err (StatFailed p) end.
Definition os_ReadFile (fs : filesystem) (p : string) : result terror (list N) := match fs !! p with Some f => Ok (content f) | None => Err (ReadFailed p) end.

Section tls.
Context `{TL : TlsLib}.

Record reloadingCertificate := mkReloading {
  r_certFile : string; r_keyFile : string; r_clientCAFile : string;
  minCheckInterval : Z;
  cert : option KeyPair;
  clientCAs : option CertPool;
  certModTime : Z; keyModTime : Z; caModTime : Z;
  lastChecked : Z }.

Definition checked (now : Z) (r : reloadingCertificate) : reloadingCertificate :=
  mkReloading (r_certFile r) (r_keyFile r) (r_clientCAFile r) (minCheckInterval r) (cert r) (clientCAs r) (certModTime r) (keyModTime r) (caModTime r) now.
Definition loaded (now : Z) (kp : KeyPair) (pool : option CertPool) (m1 m2 : Z) (m3 : option Z) (r : reloadingCertificate) : reloadingCertificate :=
  mkReloading (r_certFile r) (r_keyFile r) (r_clientCAFile r) (minCheckInterval r) (Some kp) pool m1 m2 (default (caModTime r) m3) now.

Definition LoadX509KeyPair (fs : filesystem) (certFile keyFile : string) : result terror KeyPair :=
  c ← os_ReadFile fs certFile; k ← os_ReadFile fs keyFile;
  match X509KeyPair c k with Some kp => Ok kp | None => Err BadKeyPair end.

Definition load_pool (fs : filesystem) (clientCAFile : string) : result terror (option CertPool) :=
  if decide (clientCAFile = "") then Ok None
  else caPEM ← os_ReadFile fs clientCAFile;
       match AppendCertsFromPEM caPEM with Some pool => Ok (Some pool) | None => Err (NoUsableCertificates clientCAFile) end.

Definition stat_CA (fs : filesystem) (clientCAFile : string) : result terror (option Z) :=
  if decide (clientCAFile = "") then Ok None else m ← os_Stat fs clientCAFile; Ok (Some m).

Definition unchanged (r : reloadingCertificate) (m1 m2 : Z) (m3 : option Z) : bool :=
  bool_decide (is_Some (cert r)) && bool_decide (m1 = certModTime r) && bool_decide (m2 = keyModTime r) &&
  (bool_decide (r_clientCAFile r = "") || bool_decide (m3 = Some (caModTime r))).

(** [reload], undisturbed, at one instant: the new state, or the error. *)
Definition reload (force : bool) (fs : filesystem) (now : Z) (r : reloadingCertificate) : result terror reloadingCertificate :=
  if negb force && bool_decide (now - lastChecked r < minCheckInterval r)%Z then Ok r
  else
    m1 ← os_Stat fs (r_certFile r);
    m2 ← os_Stat fs (r_keyFile r);
    m3 ← stat_CA fs (r_clientCAFile r);
    if unchanged r m1 m2 m3 then Ok (checked now r)
    else
      kp ← LoadX509KeyPair fs (r_certFile r) (r_keyFile r);
      pool ← load_pool fs (r_clientCAFile r);
      Ok (loaded now kp pool m1 m2 m3 r).

Definition newReloadingCertificate (certFile keyFile clientCAFile : string) (interval : Z) (fs : filesystem) (now : Z) : result terror reloadingCertificate :=
  reload true fs now (mkReloading certFile keyFile clientCAFile interval None None 0 0 0 0).

(** Errors are logged and the last good state is kept. *)
Definition reload_logged (fs : filesystem) (now : Z) (r : reloadingCertificate) : reloadingCertificate :=
  match reload false fs now r with Ok r' => r' | Err _ => r end.
Definition GetCertificate (fs : filesystem) (now : Z) (r : reloadingCertificate) : option KeyPair * reloadingCertificate :=
  let r' := reload_logged fs now r in (cert r', r').
Definition clientCAPool (fs : filesystem) (now : Z) (r : reloadingCertificate) : option CertPool * reloadingCertificate :=
  let r' := reload_logged fs now r in (clientCAs r', r').

(** The fields of [*tls.Config] that are set; [GetConfigForClient] tells whether
    the callback that refreshes [ClientCAs] is. *)
Record tls_Config := mkTlsConfig { ClientAuth : ClientAuthType; GetConfigForClient : bool; reloading : reloadingCertificate }.

Definition BuildServerTLSConfig (cfg : option CoreConfig) (fs : filesystem) (now : Z) : result terror (option tls_Config) :=
  match cfg with
  | None => Ok None
  | Some cfg =>
      let resolved := resolveConfig cfg in
      if negb (enabled resolved) then
        if decide (TLSClientAuth cfg ≠ "" ∨ TLSClientCAFile cfg ≠ "" ∨ TLSCertFile cfg ≠ "" ∨ TLSKeyFile cfg ≠ "")
        then Err NotEnabledButConfigured else Ok None
      else if decide (certFile resolved = "" ∨ keyFile resolved = "") then Err NoCertOrKey
      else
        auth ← parseClientAuth (clientAuth resolved) (clientCAFile resolved);
        r ← newReloadingCertificate (certFile resolved) (keyFile resolved) (clientCAFile resolved) defaultMinCheckInterval fs now;
        Ok (Some (mkTlsConfig auth (bool_decide (clientCAFile resolved ≠ "")) r))
  end.

(** ** Loopback clients *)
Definition LoopbackServerName : string := "localhost".
Inductive netAddr := TCPAddr (IP : option string) (unspecified : bool) (Port : Z) | UnixAddr (Name : string) | OtherAddr.
(** [net.JoinHostPort]: brackets for IPv6 literals. *)
Definition JoinHostPort (host port : string) : string :=
  if decide (count_char ":"%char host = 0) then host +:+ ":" +:+ port else "[" +:+ host +:+ "]:" +:+ port.
Definition LoopbackTarget (addr : netAddr) (fallbackPort : Z) : string :=
  match addr with
  | TCPAddr ip unspecified port =>
      let host := match ip with None => LoopbackServerName | Some h => if unspecified then LoopbackServerName else h end in
      JoinHostPort host (pretty port)
  | UnixAddr name => "unix:" +:+ name
  | OtherAddr => JoinHostPort LoopbackServerName (pretty fallbackPort)
  end.

Inductive TransportCredentials := Insecure | VerifyAgainst (certFile : string).
Definition LoopbackClientCredentials (cfg : option CoreConfig) (serverTLS : bool) : result terror TransportCredentials :=
  if negb serverTLS then Ok Insecure
  else match LoopbackTrustFile cfg with None => Err NoLoopbackCertFile | Some certFile => Ok (VerifyAgainst certFile) end.

Definition verifyAgainstFile (fs : filesystem) (PeerCertificates : list Certificate) (certFile : string) : result terror unit :=
  match PeerCertificates with
  | [] => Err NoPeerCertificate
  | leaf :: intermediates =>
      pem ← os_ReadFile fs certFile;
      match AppendCertsFromPEM pem with
      | None => Err (NoUsableCertificates certFile)
      | Some roots => if x509_Verify LoopbackServerName roots leaf intermediates then Ok tt else Err VerifyFailed
      end
  end.

(** ** Concurrent reloads

    Handshakes run [reload] at the same time, while files are replaced under them.
    A [reload] is a program counter; one step does one file operation, or one
    section under the mutex. *)
Inductive rpc :=
| RStart (force : bool)
| RStatCert
| RStatKey (m1 : Z)
| RStatCA (m1 m2 : Z)
| RCompare (m1 m2 : Z) (m3 : option Z)
| RTouch
| RReadCert (m1 m2 : Z) (m3 : option Z)
| RReadKey (m1 m2 : Z) (m3 : option Z) (c : list N)
| RReadCA (m1 m2 : Z) (m3 : option Z) (kp : KeyPair)
| RCommit (m1 m2 : Z) (m3 : option Z) (kp : KeyPair) (pool : option CertPool)
| RDone (e : option terror).

Definition rstep (fs : filesystem) (now : Z) (r : reloadingCertificate) (pc : rpc) : reloadingCertificate * rpc :=
  match pc with
  | RStart force => (r, if negb force && bool_decide (now - lastChecked r < minCheckInterval r)%Z then RDone None else RStatCert)
  | RStatCert => (r, match os_Stat fs (r_certFile r) with Ok m1 => RStatKey m1 | Err e => RDone (Some e) end)
  | RStatKey m1 => (r, match os_Stat fs (r_keyFile r) with Ok m2 => RStatCA m1 m2 | Err e => RDone (Some e) end)
  | RStatCA m1 m2 => (r, match stat_CA fs (r_clientCAFile r) with Ok m3 => RCompare m1 m2 m3 | Err e => RDone (Some e) end)
  | RCompare m1 m2 m3 => (r, if unchanged r m1 m2 m3 then RTouch else RReadCert m1 m2 m3)
  | RTouch => (checked now r, RDone None)
  | RReadCert m1 m2 m3 => (r, match os_ReadFile fs (r_certFile r) with Ok c => RReadKey m1 m2 m3 c | Err e => RDone (Some e) end)
  | RReadKey m1 m2 m3 c =>
      (r, match os_ReadFile fs (r_keyFile r) with
          | Ok k => match X509KeyPair c k with Some kp => RReadCA m1 m2 m3 kp | None => RDone (Some BadKeyPair) end
          | Err e => RDone (Some e)
          end)
  | RReadCA m1 m2 m3 kp => (r, match load_pool fs (r_clientCAFile r) with Ok pool => RCommit m1 m2 m3 kp pool | Err e => RDone (Some e) end)
  | RCommit m1 m2 m3 kp pool => (loaded now kp pool m1 m2 m3 r, RDone None)
  | RDone e => (r, RDone e)
  end.

Fixpoint rrun (n : nat) (fs : filesystem) (now : Z) (r : reloadingCertificate) (pc : rpc) : reloadingCertificate * rpc :=
  match n with 0 => (r, pc) | S n' => let '(r', pc') := rstep fs now r pc in rrun n' fs now r' pc' end.

(** Undisturbed, nine steps are [reload]. *)
Lemma rrun_reload force fs now r :
  rrun 9 fs now r (RStart force) = match reload force fs now r with Ok r' => (r', RDone None) | Err e => (r, RDone (Some e)) end.
Proof.
  unfold reload. cbn. destruct (negb force && _); [done|]. cbn. destruct (os_Stat fs (r_certFile r)) as [m1|e]; [|done]. cbn.
  destruct (os_Stat fs (r_keyFile r)) as [m2|e]; [|done]. cbn. destruct (stat_CA fs (r_clientCAFile r)) as [m3|e]; [|done]. cbn.
  destruct (unchanged r m1 m2 m3); [done|]. unfold LoadX509KeyPair. cbn. destruct (os_ReadFile fs (r_certFile r)) as [c|e]; [|done]. cbn.
  destruct (os_ReadFile fs (r_keyFile r)) as [k|e]; [|done]. cbn. destruct (X509KeyPair c k) as [kp|]; [|done]. cbn.
  destruct (load_pool fs (r_clientCAFile r)) as [pool|e]; done.
Qed.

(** *** The system: files, clock, state and running reloads.  [t_hist] remembers
    what every version of a file contained, [t_last] its newest modification time. *)
Record tsys := mkSys {
  t_fs : filesystem;
  t_hist : gmap (string * Z) (list N);
  t_last : gmap string Z;
  t_now : Z;
  t_r : reloadingCertificate;
  t_threads : gmap nat rpc }.

Inductive tstep (y : tsys) : tsys → Prop :=
(** Someone writes a file; modification times of a file only increase. *)
| ts_write p c m : (∀ l, t_last y !! p = Some l → l < m)%Z →
    tstep y (mkSys (<[p := mkFile c m]> (t_fs y)) (<[(p, m) := c]> (t_hist y)) (<[p := m]> (t_last y)) (t_now y) (t_r y) (t_threads y))
| ts_remove p : tstep y (mkSys (delete p (t_fs y)) (t_hist y) (t_last y) (t_now y) (t_r y) (t_threads y))
| ts_tick d : (0 <= d)%Z → tstep y (mkSys (t_fs y) (t_hist y) (t_last y) (t_now y + d) (t_r y) (t_threads y))
| ts_call i : t_threads y !! i = None →
    tstep y (mkSys (t_fs y) (t_hist y) (t_last y) (t_now y) (t_r y) (<[i := RStart false]> (t_threads y)))
| ts_run i pc r' pc' : t_threads y !! i = Some pc → rstep (t_fs y) (t_now y) (t_r y) pc = (r', pc') →
    tstep y (mkSys (t_fs y) (t_hist y) (t_last y) (t_now y) r' (<[i := pc']> (t_threads y))).

(** A new server: the files as they are, and a certificate loaded from them. *)
Definition start (fs : filesystem) (now : Z) (r : reloadingCertificate) : tsys :=
  mkSys fs (list_to_map ((fun pf => ((pf.1, ModTime pf.2), content pf.2)) <$> map_to_list fs)) (ModTime <$> fs) now r ∅.

(** *** Invariant *)
Section invariant.
Context (y : tsys).

(** A version of a file that was there. *)
Definition seen (p : string) (m : Z) : Prop := ∃ l, t_last y !! p = Some l ∧ (m <= l)%Z.
(** [c] is what version [m] of the file, or a newer one, contained. *)
Definition read_of (p : string) (m : Z) (c : list N) : Prop := ∃ m', (m <= m')%Z ∧ t_hist y !! (p, m') = Some c.

Definition pair_of (certFile keyFile : string) (m1 m2 : Z) (kp : KeyPair) : Prop :=
  ∃ c k, X509KeyPair c k = Some kp ∧ read_of certFile m1 c ∧ read_of keyFile m2 k.
Definition pool_of (caFile : string) (m3 : option Z) (pool : option CertPool) : Prop :=
  if decide (caFile = "") then m3 = None ∧ pool = None else ∃ m c pl, m3 = Some m ∧ pool = Some pl ∧ AppendCertsFromPEM c = Some pl ∧ read_of caFile m c.
Definition seen_CA (caFile : string) (m3 : option Z) : Prop := if decide (caFile = "") then m3 = None else ∃ m, m3 = Some m ∧ seen caFile m.

Definition pc_ok (r : reloadingCertificate) (pc : rpc) : Prop :=
  let cf := r_certFile r in let kf := r_keyFile r in let af := r_clientCAFile r in
  match pc with
  | RStart _ | RStatCert | RTouch | RDone _ => True
  | RStatKey m1 => seen cf m1
  | RStatCA m1 m2 => seen cf m1 ∧ seen kf m2
  | RCompare m1 m2 m3 | RReadCert m1 m2 m3 => seen cf m1 ∧ seen kf m2 ∧ seen_CA af m3
  | RReadKey m1 m2 m3 c => read_of cf m1 c ∧ seen kf m2 ∧ seen_CA af m3
  | RReadCA m1 m2 m3 kp => pair_of cf kf m1 m2 kp ∧ seen_CA af m3
  | RCommit m1 m2 m3 kp pool => pair_of cf kf m1 m2 kp ∧ pool_of af m3 pool
  end.

Record sys_ok : Prop := {
  ok_disk p f : t_fs y !! p = Some f → t_hist y !! (p, ModTime f) = Some (content f) ∧ t_last y !! p = Some (ModTime f);
  ok_hist p m c : t_hist y !! (p, m) = Some c → seen p m;
  ok_threads i pc : t_threads y !! i = Some pc → pc_ok (t_r y) pc;
  ok_cert : ∃ kp, cert (t_r y) = Some kp ∧ pair_of (r_certFile (t_r y)) (r_keyFile (t_r y)) (certModTime (t_r y)) (keyModTime (t_r y)) kp;
  ok_pool : pool_of (r_clientCAFile (t_r y)) (if decide (r_clientCAFile (t_r y) = "") then None else Some (caModTime (t_r y))) (clientCAs (t_r y)) }.
End invariant.

(** What is known of versions stays known. *)
Definition newer (y y' : tsys) : Prop :=
  t_hist y ⊆ t_hist y' ∧ ∀ p l, t_last y !! p = Some l → ∃ l', t_last y' !! p = Some l' ∧ (l <= l')%Z.

Section newer.
Context (y y' : tsys) (Hn : newer y y').

Lemma seen_newer p m : seen y p m → seen y' p m.
Proof using Hn. intros (l & Hl & Hm). destruct (proj2 Hn p l Hl) as (l' & Hl' & ?). exists l'. split; [done|lia]. Qed.
Lemma read_of_newer p m c : read_of y p m c → read_of y' p m c.
Proof using Hn.
  intros (m' & Hm & Hh). exists m'. split; [done|]. by eapply lookup_weaken; [|apply Hn].
Qed.
Lemma pair_of_newer cf kf m1 m2 kp : pair_of y cf kf m1 m2 kp → pair_of y' cf kf m1 m2 kp.
Proof using Hn. intros (c & k & Hx & Hc & Hk). exists c, k. split_and!; [done|by apply read_of_newer..]. Qed.
Lemma pool_of_newer af m3 pool : pool_of y af m3 pool → pool_of y' af m3 pool.
Proof using Hn. unfold pool_of. case_decide; [done|]. intros (m & c & pl & ? & ? & ? & Hr). exists m, c, pl. split_and!; try done. by apply read_of_newer. Qed.
Lemma seen_CA_newer af m3 : seen_CA y af m3 → seen_CA y' af m3.
Proof using Hn. unfold seen_CA. case_decide; [done|]. intros (m & ? & Hs). exists m. split; [done|by apply seen_newer]. Qed.
Lemma pc_ok_newer r pc : pc_ok y r pc → pc_ok y' r pc.
Proof using Hn.
  destruct pc; cbn; try done; [apply seen_newer| | | | | |]; intros; destruct_and?; split_and?;
    by (apply seen_newer || apply seen_CA_newer || apply read_of_newer || apply pair_of_newer || apply pool_of_newer).
Qed.
End newer.

(** Where the files are, and the interval, never change. *)
Definition same_files (r r' : reloadingCertificate) : Prop :=
  r_certFile r' = r_certFile r ∧ r_keyFile r' = r_keyFile r ∧ r_clientCAFile r' = r_clientCAFile r ∧ minCheckInterval r' = minCheckInterval r.

Lemma rstep_files fs now r pc : same_files r (rstep fs now r pc).1.
Proof. by destruct pc. Qed.

Lemma pc_ok_files y r r' pc : same_files r r' → pc_ok y r pc → pc_ok y r' pc.
Proof. intros (H1 & H2 & H3 & _). destruct pc; cbn; by rewrite ?H1, ?H2, ?H3. Qed.

Section steps.
Context (y : tsys) (Hy : sys_ok y).
Abbreviation r := (t_r y).

Lemma stat_seen p m : os_Stat (t_fs y) p = Ok m → seen y p m.
Proof using Hy.
  unfold os_Stat. destruct (t_fs y !! p) as [f|] eqn:E; [|done]. intros [= <-]. destruct (ok_disk y Hy p f E) as [_ Hl].
  exists (ModTime f). split; [done|lia].
Qed.

Lemma read_read_of p m c : seen y p m → os_ReadFile (t_fs y) p = Ok c → read_of y p m c.
Proof using Hy.
  intros (l & Hl & Hm). unfold os_ReadFile. destruct (t_fs y !! p) as [f|] eqn:E; [|done]. intros [= <-].
  destruct (ok_disk y Hy p f E) as [Hh Hl']. assert (l = ModTime f) as -> by congruence.
  by exists (ModTime f).
Qed.

(** A step of a reload: its program counter and the state stay good. *)
Lemma rstep_ok pc r' pc' : pc_ok y r pc → rstep (t_fs y) (t_now y) r pc = (r', pc') →
  pc_ok y r' pc' ∧
  (∃ kp, cert r' = Some kp ∧ pair_of y (r_certFile r') (r_keyFile r') (certModTime r') (keyModTime r') kp) ∧
  pool_of y (r_clientCAFile r') (if decide (r_clientCAFile r' = "") then None else Some (caModTime r')) (clientCAs r').
Proof using Hy.
  intros Hpc. pose proof (ok_cert y Hy) as Hc. pose proof (ok_pool y Hy) as Hp.
  destruct pc as [force| |m1|m1 m2|m1 m2 m3| |m1 m2 m3|m1 m2 m3 c|m1 m2 m3 kp|m1 m2 m3 kp pool|e]; cbn in Hpc |- *.
  - intros [= <- <-]. by destruct (_ && _).
  - intros [= <- <-]. destruct (os_Stat _ _) as [m1|e] eqn:E; [|done]. split; [by apply stat_seen|done].
  - intros [= <- <-]. destruct (os_Stat _ _) as [m2|e] eqn:E; [|done]. split; [split; [done|by apply stat_seen]|done].
  - intros [= <- <-]. destruct Hpc as [H1 H2]. assert (Hs : ∀ m3, stat_CA (t_fs y) (r_clientCAFile r) = Ok m3 → seen_CA y (r_clientCAFile r) m3).
    { unfold stat_CA, seen_CA. destruct (decide (r_clientCAFile r = "")); intros m3; [by intros [= <-]|].
      destruct (os_Stat _ _) as [m|e] eqn:E; [|done]. intros [= <-]. exists m. split; [done|by apply stat_seen]. }
    destruct (stat_CA _ _) as [m3|e]; [|done]. split; [split_and!; [done|done|by apply Hs]|done].
  - intros [= <- <-]. by destruct (unchanged _ _ _ _).
  - intros [= <- <-]. done.
  - intros [= <- <-]. destruct (os_ReadFile _ _) as [c|e] eqn:E; [|done]. destruct Hpc as (H1 & H2 & H3).
    split; [split_and!; [by apply read_read_of|done|done]|done].
  - intros [= <- <-]. destruct (os_ReadFile _ _) as [k|e] eqn:E; [|done]. destruct (X509KeyPair c k) as [kp|] eqn:Ek; [|done].
    destruct Hpc as (H1 & H2 & H3). split; [|done]. split; [|done]. exists c, k. split_and!; [done|done|by apply read_read_of].
  - intros [= <- <-]. destruct Hpc as [H1 H2]. unfold load_pool, seen_CA in *. destruct (decide (r_clientCAFile r = "")) as [Hd|Hd].
    + cbn. split; [|done]. split; [done|]. unfold pool_of. by rewrite decide_True.
    + destruct H2 as (m & -> & Hs). destruct (os_ReadFile _ _) as [ca|e] eqn:E; [|done]. cbn. destruct (AppendCertsFromPEM ca) as [pl|] eqn:Ep; [|done].
      split; [|done]. split; [done|]. unfold pool_of. rewrite decide_False by done. exists m, ca, pl. split_and!; [done..|]. by apply read_read_of.
  - intros [= <- <-]. destruct Hpc as [H1 H2]. cbn. split; [done|]. split; [by exists kp|]. unfold pool_of in *.
    destruct (decide (r_clientCAFile r = "")); [by destruct H2|]. destruct H2 as (m & ca & pl & -> & -> & ? & ?). by exists m, ca, pl.
  - intros [= <- <-]. done.
Qed.
End steps.

Lemma tstep_ok y y' : tstep y y' → sys_ok y → sys_ok y' ∧ same_files (t_r y) (t_r y').
Proof.
  intros Hst Hy. assert (Hkeep : ∀ y', newer y y' → t_r y' = t_r y → t_threads y' = t_threads y →
    (∀ p f, t_fs y' !! p = Some f → t_hist y' !! (p, ModTime f) = Some (content f) ∧ t_last y' !! p = Some (ModTime f)) →
    (∀ p m c, t_hist y' !! (p, m) = Some c → seen y' p m) → sys_ok y' ∧ same_files (t_r y) (t_r y')).
  { intros y1 Hn Hr Ht Hd Hh. split; [|by rewrite Hr]. destruct (ok_cert y Hy) as (kp & Hk & Hp). split; [done|done| | |]; rewrite Hr.
    - intros i pc. rewrite Ht. intros Hi. eapply pc_ok_newer; [exact Hn|by apply (ok_threads y Hy i)].
    - exists kp. split; [done|]. by eapply pair_of_newer.
    - eapply pool_of_newer; [exact Hn|apply (ok_pool y Hy)]. }
  destruct Hst as [p c m Hm|p|d Hd|i Hi|i pc r' pc' Hi Hr].
  - assert (Hfresh : t_hist y !! (p, m) = None).
    { destruct (t_hist y !! (p, m)) as [c'|] eqn:E; [|done]. destruct (ok_hist y Hy p m c' E) as (l & Hl & ?). specialize (Hm l Hl). lia. }
    apply Hkeep; cbn; try done.
    + split; cbn; [by apply insert_subseteq|]. intros p' l Hl. destruct (decide (p = p')) as [-> |Hne].
      * exists m. rewrite lookup_insert_eq. split; [done|]. specialize (Hm l Hl). lia.
      * exists l. rewrite lookup_insert_ne by done. split; [done|lia].
    + intros p' f. destruct (decide (p = p')) as [-> |Hne].
      * rewrite !lookup_insert_eq. intros [= <-]. cbn. by rewrite lookup_insert_eq.
      * rewrite !lookup_insert_ne by congruence. apply (ok_disk y Hy).
    + intros p' m' c' Hh. unfold seen. cbn. destruct (decide (p = p')) as [-> |Hne].
      * rewrite lookup_insert_eq. exists m. split; [done|]. apply lookup_insert_Some in Hh as [[[= <-] _]|[_ Hh]]; [lia|].
        destruct (ok_hist y Hy p' m' c' Hh) as (l & Hl & ?). specialize (Hm l Hl). lia.
      * rewrite lookup_insert_ne by done. rewrite lookup_insert_ne in Hh by congruence. by apply (ok_hist y Hy p' m' c').
  - apply Hkeep; cbn; try done; [|intros p' f [_ Hf]%lookup_delete_Some; by apply (ok_disk y Hy)|apply (ok_hist y Hy)].
    split; [done|]. intros p' l Hl. exists l. split; [done|lia].
  - apply Hkeep; cbn; try done; [|apply (ok_disk y Hy)|apply (ok_hist y Hy)]. split; [done|]. intros p' l Hl. exists l. split; [done|lia].
  - split; [|done]. split; cbn; try apply Hy. intros j pc. intros [[<- <-]|[_ Hj]]%lookup_insert_Some; [done|]. by apply (ok_threads y Hy j).
  - destruct (rstep_ok y Hy pc r' pc' (ok_threads y Hy i pc Hi) Hr) as (H1 & H2 & H3).
    pose proof (rstep_files (t_fs y) (t_now y) (t_r y) pc) as Hf. rewrite Hr in Hf. split; [|done]. split; cbn; try done; [apply (ok_disk y Hy)|apply (ok_hist y Hy)|].
    intros j pc0. intros [[<- <-]|[_ Hj]]%lookup_insert_Some; [done|]. eapply pc_ok_files; [exact Hf|]. by apply (ok_threads y Hy j).
Qed.

Lemma tsteps_ok y y' : rtc tstep y y' → sys_ok y → sys_ok y' ∧ same_files (t_r y) (t_r y').
Proof.
  induction 1 as [y|y1 y2 y3 H12 _ IH]; intros Hy; [done|]. destruct (tstep_ok _ _ H12 Hy) as [Hy2 (H1 & H2 & H3 & H4)].
  destruct (IH Hy2) as [Hy3 (H5 & H6 & H7 & H8)]. split; [done|]. unfold same_files. by rewrite H5, H6, H7, H8.
Qed.

Lemma start_hist fs now r p m c : t_hist (start fs now r) !! (p, m) = Some c ↔ fs !! p = Some (mkFile c m).
Proof.
  cbn. rewrite <- elem_of_list_to_map.
  - rewrite list_elem_of_fmap. split.
    + intros ([p' f] & [= -> -> ->] & Hin). apply elem_of_map_to_list in Hin. by destruct f.
    + intros Hf. exists (p, mkFile c m). split; [done|]. by apply elem_of_map_to_list.
  - apply (NoDup_fmap_1 fst). rewrite <- !list_fmap_compose. apply (NoDup_fst_map_to_list fs).
Qed.

(** What a forced load leaves. *)
Lemma newReloading_ok cf kf af ival fs now r : newReloadingCertificate cf kf af ival fs now = Ok r →
  sys_ok (start fs now r) ∧ r_certFile r = cf ∧ r_keyFile r = kf ∧ r_clientCAFile r = af ∧ minCheckInterval r = ival.
Proof.
  intros Hr. unfold newReloadingCertificate, reload in Hr. cbn in Hr.
  destruct (os_Stat fs cf) as [m1|] eqn:E1; [|done]. destruct (os_Stat fs kf) as [m2|] eqn:E2; [|done].
  destruct (stat_CA fs af) as [m3|] eqn:E3; [|done]. cbn in Hr. unfold LoadX509KeyPair in Hr.
  destruct (os_ReadFile fs cf) as [c|] eqn:E4; [|done]. destruct (os_ReadFile fs kf) as [k|] eqn:E5; [|done]. cbn in Hr.
  destruct (X509KeyPair c k) as [kp|] eqn:E6; [|done]. cbn in Hr. destruct (load_pool fs af) as [pool|] eqn:E7; [|done]. cbn in Hr.
  injection Hr as <-. split; [|done]. set (y := start _ _ _).
  assert (Hread : ∀ p m c, os_Stat fs p = Ok m → os_ReadFile fs p = Ok c → read_of y p m c).
  { intros p m c' Hs Hrd. unfold os_Stat, os_ReadFile in *. destruct (fs !! p) as [[c0 m0]|] eqn:Ef; [|done]. cbn in *.
    injection Hs as ->. injection Hrd as ->. exists m. split; [lia|]. by apply start_hist. }
  split.
  - intros p f Hf. split; [apply start_hist; by destruct f|]. cbn. rewrite lookup_fmap. by cbn in Hf; rewrite Hf.
  - intros p m c' Hh%start_hist. exists m. split; [|lia]. cbn. by rewrite lookup_fmap, Hh.
  - intros i pc Hi. cbn in Hi. by rewrite lookup_empty in Hi.
  - exists kp. split; [done|]. exists c, k. split_and!; [done|by apply Hread..].
  - unfold stat_CA, load_pool, pool_of in *. cbn. destruct (decide (af = "")); [by injection E7 as <-|].
    destruct (os_Stat fs af) as [m|] eqn:E8; [|done]. injection E3 as <-. destruct (os_ReadFile fs af) as [ca|] eqn:E9; [|done]. cbn in E7.
    destruct (AppendCertsFromPEM ca) as [pl|] eqn:E10; [|done]. injection E7 as <-. exists m, ca, pl. cbn. split_and!; [done..|by apply Hread].
Qed.

(** When the recorded times are those on disk, so is what was loaded. *)
Lemma read_current y p m c f : sys_ok y → t_fs y !! p = Some f → ModTime f = m → read_of y p m c → content f = c.
Proof.
  intros Hy Hf <- (m' & Hm & Hh). destruct (ok_disk y Hy p f Hf) as [Hh' Hl]. destruct (ok_hist y Hy p m' c Hh) as (l & Hl' & ?).
  assert (l = ModTime f) as -> by congruence. assert (m' = ModTime f) as -> by lia. congruence.
Qed.

Lemma stat_current y p m c : sys_ok y → os_Stat (t_fs y) p = Ok m → read_of y p m c → os_ReadFile (t_fs y) p = Ok c.
Proof.
  intros Hy Hs Hr. unfold os_Stat, os_ReadFile in *. destruct (t_fs y !! p) as [f|] eqn:E; [|done]. injection Hs as Hm.
  by rewrite (read_current y p m c f Hy E Hm Hr).
Qed.

(** A reload that is due makes what is on disk current. *)
Lemma reload_current y kp pool : sys_ok y → (minCheckInterval (t_r y) <= t_now y - lastChecked (t_r y))%Z →
  LoadX509KeyPair (t_fs y) (r_certFile (t_r y)) (r_keyFile (t_r y)) = Ok kp → load_pool (t_fs y) (r_clientCAFile (t_r y)) = Ok pool →
  ∃ r', reload false (t_fs y) (t_now y) (t_r y) = Ok r' ∧ cert r' = Some kp ∧ clientCAs r' = pool.
Proof.
  intros Hy Hdue Hkp Hpool. unfold reload. rewrite bool_decide_false by lia. cbn.
  assert (Hstat : ∀ p c, os_ReadFile (t_fs y) p = Ok c → ∃ m, os_Stat (t_fs y) p = Ok m).
  { intros p c. unfold os_ReadFile, os_Stat. destruct (t_fs y !! p); [by eexists|done]. }
  pose proof Hkp as Hkp'. unfold LoadX509KeyPair in Hkp'.
  destruct (os_ReadFile _ (r_certFile _)) as [c|] eqn:Ec; [|done]. destruct (os_ReadFile _ (r_keyFile _)) as [k|] eqn:Ek; [|done]. cbn in Hkp'.
  destruct (X509KeyPair c k) as [kp0|] eqn:Ex; [|done]. injection Hkp' as ->.
  destruct (Hstat _ _ Ec) as [m1 E1]. destruct (Hstat _ _ Ek) as [m2 E2]. rewrite E1, E2. cbn.
  assert (H3 : ∃ m3, stat_CA (t_fs y) (r_clientCAFile (t_r y)) = Ok m3).
  { unfold stat_CA, load_pool in *. case_decide; [by eexists|]. destruct (os_ReadFile _ (r_clientCAFile _)) as [ca|] eqn:Ea; [|done].
    destruct (Hstat _ _ Ea) as [m ->]. by eexists. }
  destruct H3 as [m3 E3]. rewrite E3. cbn. destruct (unchanged (t_r y) m1 m2 m3) eqn:Eu.
  2: { rewrite Hkp. cbn. rewrite Hpool. cbn. eexists. by split_and!. }
  unfold unchanged in Eu. rewrite !andb_true_iff, orb_true_iff, !bool_decide_eq_true in Eu. destruct Eu as [[[_ ->] ->] H3].
  eexists. split; [done|]. cbn. destruct (ok_cert y Hy) as (kp0 & Hc & c0 & k0 & Hx & Hrc & Hrk).
  pose proof (stat_current y _ _ _ Hy E1 Hrc) as Hc0. pose proof (stat_current y _ _ _ Hy E2 Hrk) as Hk0. split; [congruence|].
  pose proof (ok_pool y Hy) as Hp. unfold pool_of, stat_CA, load_pool in *. destruct (decide (r_clientCAFile (t_r y) = "")) as [Hd|Hd].
  - destruct Hp as [_ ->]. by injection Hpool as <-.
  - destruct H3 as [H3|H3]; [done|]. destruct Hp as (m & ca & pl & [= <-] & -> & Ha & Hra).
    destruct (os_Stat _ (r_clientCAFile _)) as [m|] eqn:Es; [|done]. cbn in E3. injection E3 as <-. injection H3 as ->.
    rewrite (stat_current y _ _ _ Hy Es Hra) in Hpool. cbn in Hpool. rewrite Ha in Hpool. by injection Hpool as <-.
Qed.

(** A reload that no one disturbs is made of steps. *)
Lemma rrun_ok n y pc : sys_ok y → pc_ok y (t_r y) pc →
  let '(r', pc') := rrun n (t_fs y) (t_now y) (t_r y) pc in
  sys_ok (mkSys (t_fs y) (t_hist y) (t_last y) (t_now y) r' ∅) ∧ same_files (t_r y) r'.
Proof.
  revert y pc. induction n as [|n IH]; intros y pc Hy Hpc; cbn [rrun].
  { split; [|done]. split; [apply Hy|apply Hy| |apply Hy|apply Hy]. intros i pc0 Hi. cbn in Hi. by rewrite lookup_empty in Hi. }
  destruct (rstep (t_fs y) (t_now y) (t_r y) pc) as [r' pc'] eqn:E. destruct (rstep_ok y Hy pc r' pc' Hpc E) as (H1 & H2 & H3).
  pose proof (rstep_files (t_fs y) (t_now y) (t_r y) pc) as Hf. rewrite E in Hf. cbn in Hf.
  set (y' := mkSys (t_fs y) (t_hist y) (t_last y) (t_now y) r' ∅).
  assert (Hy' : sys_ok y') by (split; [apply Hy|apply Hy| |exact H2|exact H3]; intros i pc0 Hi; cbn in Hi; by rewrite lookup_empty in Hi).
  specialize (IH y' pc' Hy' H1). cbn in IH. destruct (rrun n (t_fs y) (t_now y) r' pc') as [r'' pc'']. destruct IH as [IH1 (H4 & H5 & H6 & H7)].
  split; [done|]. destruct Hf as (H8 & H9 & H10 & H11). unfold same_files. by rewrite H4, H5, H6, H7.
Qed.

Lemma reload_sequential y : sys_ok y →
  sys_ok (mkSys (t_fs y) (t_hist y) (t_last y) (t_now y) (reload_logged (t_fs y) (t_now y) (t_r y)) ∅) ∧
  same_files (t_r y) (reload_logged (t_fs y) (t_now y) (t_r y)).
Proof.
  intros Hy. pose proof (rrun_ok 9 y (RStart false) Hy I) as Hr. rewrite rrun_reload in Hr. unfold reload_logged.
  by destruct (reload false (t_fs y) (t_now y) (t_r y)).
Qed.
End tls.

(** C12: Rotated TLS files take effect and a bad rotation does no harm.  However
    handshakes, file writes and the clock interleave: there is always a certificate
    to serve (and a client CA pool, if one is configured); a handshake for which a
    check is due serves exactly the key pair and the pool that are on disk whenever
    those can be loaded; and when they cannot, it serves what was served before. *)
Theorem rotation_takes_effect `{TL : TlsLib} cf kf af ival fs0 now0 r0 y :
  newReloadingCertificate cf kf af ival fs0 now0 = Ok r0 → rtc tstep (start fs0 now0 r0) y →
  let serve := GetCertificate (t_fs y) (t_now y) (t_r y) in
  let pool := clientCAPool (t_fs y) (t_now y) (t_r y) in
  (is_Some (cert (t_r y)) ∧ is_Some serve.1 ∧ (is_Some pool.1 ↔ af ≠ "")) ∧
  (∀ kp p, (ival <= t_now y - lastChecked (t_r y))%Z → LoadX509KeyPair (t_fs y) cf kf = Ok kp → load_pool (t_fs y) af = Ok p →
     serve.1 = Some kp ∧ pool.1 = p) ∧
  (∀ e, reload false (t_fs y) (t_now y) (t_r y) = Err e → serve = (cert (t_r y), t_r y) ∧ pool = (clientCAs (t_r y), t_r y)).
Proof.
  intros Hnew Hsteps serve pool. destruct (newReloading_ok _ _ _ _ _ _ _ Hnew) as (Hy0 & H1 & H2 & H3 & H4).
  destruct (tsteps_ok _ _ Hsteps Hy0) as [Hy (H5 & H6 & H7 & H8)]. cbn in H5, H6, H7, H8.
  assert (Hrun : sys_ok (mkSys (t_fs y) (t_hist y) (t_last y) (t_now y) (reload_logged (t_fs y) (t_now y) (t_r y)) ∅) ∧
    same_files (t_r y) (reload_logged (t_fs y) (t_now y) (t_r y))) by (by apply reload_sequential).
  destruct Hrun as [Hy' (_ & _ & Hca & _)]. split_and!.
  - destruct (ok_cert y Hy) as (kp & -> & _). done.
  - destruct (ok_cert _ Hy') as (kp & Hk & _). unfold serve, GetCertificate. cbn in *. by rewrite Hk.
  - pose proof (ok_pool _ Hy') as Hp. unfold pool, clientCAPool, pool_of in *. cbn in *. rewrite Hca, H7, H3 in Hp.
    destruct (decide (af = "")); [destruct Hp as [_ ->]; split; [by intros []|done]|]. destruct Hp as (? & ? & ? & _ & -> & _). done.
  - intros kp p Hdue Hkp Hp. destruct (reload_current y kp p Hy) as (r' & Hr & Hc & Hcas); [by rewrite H8, H4|by rewrite H5, H6, H1, H2|by rewrite H7, H3|].
    unfold serve, pool, GetCertificate, clientCAPool, reload_logged. by rewrite Hr.
  - intros e He. unfold serve, pool, GetCertificate, clientCAPool, reload_logged. by rewrite He.
Qed.

(** ** Client certificates *)

(** The TLS stack of the server: the chains it verified for the presented client
    certificates, under a mode and a pool of CAs; no pool means those of the system. *)
Class TlsStack `{TL : TlsLib} := {
  trusts : CertPool → Certificate → Prop;
  system_root : Certificate → Prop;
  verified_chains : ClientAuthType → option CertPool → list Certificate → list (list Certificate) }.
(** [ConnectionState.VerifiedChains]: only in a verifying mode; the first element of
    a chain is the certificate the peer presented first, the last one is from the pool. *)
Class TlsStackLaws `{TL : TlsLib} (TS : TlsStack) : Prop := {
  law_verified a pool presented chain : chain ∈ verified_chains a pool presented →
    verifies a = true ∧ head chain = head presented ∧ ∃ root, last chain = Some root ∧ match pool with Some p => trusts p root | None => system_root root end }.

Section clients.
Context `{TL : TlsLib}.

(** The CAs of a handshake: refreshed by the callback, or not set. *)
Definition handshake_CAs (c : tls_Config) (y : tsys) : option CertPool :=
  if GetConfigForClient c then (clientCAPool (t_fs y) (t_now y) (t_r y)).1 else None.

Lemma BuildServerTLSConfig_Some cfg fs now c : BuildServerTLSConfig (Some cfg) fs now = Ok (Some c) →
  let r := resolveConfig cfg in
  enabled r = true ∧ certFile r ≠ "" ∧ keyFile r ≠ "" ∧ parseClientAuth (clientAuth r) (clientCAFile r) = Ok (ClientAuth c) ∧
  GetConfigForClient c = bool_decide (clientCAFile r ≠ "") ∧
  newReloadingCertificate (certFile r) (keyFile r) (clientCAFile r) defaultMinCheckInterval fs now = Ok (reloading c).
Proof.
  unfold BuildServerTLSConfig. cbv zeta. destruct (enabled (resolveConfig cfg)); cbn [negb]; [|by case_decide]. case_decide as Hd; [done|].
  destruct (parseClientAuth _ _) as [a|] eqn:Ea; [|done]. cbn [mbind result_bind]. destruct (newReloadingCertificate _ _ _ _ _ _) as [r|] eqn:Er; [|done].
  intros [= <-]. cbn [ClientAuth GetConfigForClient reloading]. split_and!; try done; intros He; apply Hd; tauto.
Qed.
End clients.


(** When the first load succeeds, and with what. *)
Section first_load.
Context `{TL : TlsLib} (cf kf af : string) (ival : Z) (fs : filesystem) (now : Z).

Lemma newReloading_loads r : newReloadingCertificate cf kf af ival fs now = Ok r →
  ∃ kp, LoadX509KeyPair fs cf kf = Ok kp ∧ cert r = Some kp ∧ load_pool fs af = Ok (clientCAs r).
Proof.
  unfold newReloadingCertificate, reload. cbn. destruct (os_Stat fs cf); [|done]. destruct (os_Stat fs kf); [|done].
  destruct (stat_CA fs af); [|done]. cbn. destruct (LoadX509KeyPair fs cf kf) as [kp|]; [|done]. cbn.
  destruct (load_pool fs af); [|done]. cbn. intros [= <-]. by exists kp.
Qed.

Lemma newReloading_fails e : newReloadingCertificate cf kf af ival fs now = Err e →
  ¬ ∃ kp pool, LoadX509KeyPair fs cf kf = Ok kp ∧ load_pool fs af = Ok pool.
Proof.
  unfold newReloadingCertificate, reload. cbn. intros Hn (kp & pool & Hl & Hp).
  assert (Hstat : ∀ p c, os_ReadFile fs p = Ok c → ∃ m, os_Stat fs p = Ok m).
  { intros p c. unfold os_ReadFile, os_Stat. destruct (fs !! p); [by eexists|done]. }
  pose proof Hl as Hl'. unfold LoadX509KeyPair in Hl'. destruct (os_ReadFile fs cf) as [c|] eqn:Ec; [|done]. destruct (os_ReadFile fs kf) as [k|] eqn:Ek; [|done].
  destruct (Hstat _ _ Ec) as [m1 E1]. destruct (Hstat _ _ Ek) as [m2 E2]. rewrite E1, E2 in Hn. cbn in Hn. rewrite Hl, Hp in Hn.
  unfold stat_CA, load_pool in *. case_decide; [done|]. destruct (os_ReadFile fs af) as [ca|] eqn:Ea; [|done]. destruct (Hstat _ _ Ea) as [m3 E3].
  by rewrite E3 in Hn.
Qed.

Lemma newReloading_errors e : newReloadingCertificate cf kf af ival fs now = Err e →
  match e with StatFailed _ | ReadFailed _ | BadKeyPair | NoUsableCertificates _ => True | _ => False end.
Proof.
  unfold newReloadingCertificate, reload, LoadX509KeyPair, load_pool, stat_CA, os_Stat, os_ReadFile. cbn.
  destruct (fs !! cf) as [f1|]; [|by intros [= <-]]. destruct (fs !! kf) as [f2|]; [|by intros [= <-]]. cbn.
  destruct (decide (af = "")); cbn.
  - destruct (X509KeyPair _ _); [done|by intros [= <-]].
  - destruct (fs !! af) as [f3|]; cbn; [|by intros [= <-]]. destruct (X509KeyPair _ _); cbn; [|by intros [= <-]].
    destruct (AppendCertsFromPEM _); [done|by intros [= <-]].
Qed.
End first_load.

(** C13: A verified client certificate, and so every mTLS claim, comes from the
    configured client CA bundle.  Whatever the interleaving of handshakes and file
    rotations, the certificate that [verifiedClientCert] reports for a connection to
    the built server is the one the client presented first, it is the leaf of a
    chain that the TLS stack verified against a pool loaded from some version of the
    configured bundle (so the handshake never falls back to the system's roots),
    the chain ends in a certificate that pool trusts, and the mTLS claims of the
    request are those of that leaf. *)
Theorem client_certificates_need_configured_CA `{TS : TlsStack} `{!TlsStackLaws TS} {Ctx} `{GrpcContext Ctx} (Sum256 : list N → list N)
    cfg fs0 now0 c y presented (ctx : Ctx) leaf :
  BuildServerTLSConfig (Some cfg) fs0 now0 = Ok (Some c) → rtc tstep (start fs0 now0 (reloading c)) y →
  peer_AuthInfo ctx = Some (TLSInfo (verified_chains (ClientAuth c) (handshake_CAs c y) presented)) →
  verifiedClientCert ctx = Some leaf →
  ∃ m pem pool chain root,
    t_hist y !! (clientCAFile (resolveConfig cfg), m) = Some pem ∧ AppendCertsFromPEM pem = Some pool ∧ handshake_CAs c y = Some pool ∧
    chain ∈ verified_chains (ClientAuth c) (Some pool) presented ∧ head chain = Some leaf ∧ head presented = Some leaf ∧
    last chain = Some root ∧ trusts pool root ∧ peer_claims Sum256 ctx = cert_claims Sum256 leaf.
Proof.
  intros Hb Hsteps Hpeer Hleaf. destruct (BuildServerTLSConfig_Some _ _ _ _ Hb) as (_ & _ & _ & Ha & Hg & Hnew).
  destruct (newReloading_ok _ _ _ _ _ _ _ Hnew) as (Hy0 & _ & _ & Haf & _). destruct (tsteps_ok _ _ Hsteps Hy0) as [Hy (_ & _ & H7 & _)]. cbn in H7.
  pose proof Hleaf as Hclaims. unfold verifiedClientCert in Hleaf. rewrite Hpeer in Hleaf.
  destruct (verified_chains _ _ _) as [|[|x chain] rest] eqn:Ev; [done|done|]. injection Hleaf as ->.
  assert (Hin : leaf :: chain ∈ verified_chains (ClientAuth c) (handshake_CAs c y) presented) by (rewrite Ev; left).
  destruct (law_verified _ _ _ _ Hin) as (Hv & Hhead & root & Hlast & Htr).
  pose proof (parseClientAuth_CA _ _ _ Ha Hv) as Hne. destruct (reload_sequential y Hy) as [Hy' (_ & _ & Hca & _)].
  pose proof (ok_pool _ Hy') as Hp. unfold pool_of in Hp. cbn in Hp. rewrite Hca, H7, Haf in Hp. rewrite decide_False in Hp by done.
  destruct Hp as (m & pem & pl & _ & Hpl & Happ & m' & _ & Hh).
  assert (Hpool : handshake_CAs c y = Some pl).
  { unfold handshake_CAs. rewrite Hg, bool_decide_true by done. unfold clientCAPool. cbn. by rewrite Hpl. }
  rewrite Hpool in Hin, Htr. exists m', pem, pl, (leaf :: chain), root. split_and!; try done. unfold peer_claims. by rewrite Hclaims.
Qed.

(** What the TLS settings mean, on every branch.  The server is plaintext only if
    no TLS setting is given; with a configuration, in-process clients verify the
    server against its own certificate file, the reported mutual TLS is the one in
    force, and a client certificate is reported as required exactly when the
    handshake requires it; a mode that verifies without a CA bundle, an unknown
    mode, or a missing certificate or key is an error. *)
Theorem server_tls_settings `{TL : TlsLib} cfg fs now :
  let r := resolveConfig cfg in
  match BuildServerTLSConfig (Some cfg) fs now with
  | Ok None => TLSEnabled cfg = false ∧ Forall (fun s => s = "") [TLSCertFile cfg; TLSKeyFile cfg; TLSClientCAFile cfg; TLSClientAuth cfg; TLSCertsDir cfg]
  | Ok (Some c) =>
      (∃ kp, LoadX509KeyPair fs (certFile r) (keyFile r) = Ok kp ∧ cert (reloading c) = Some kp ∧ load_pool fs (clientCAFile r) = Ok (clientCAs (reloading c))) ∧
      LoopbackClientCredentials (Some cfg) true = Ok (VerifyAgainst (certFile r)) ∧
      IsMutualTLSEnabled (Some cfg) = GetConfigForClient c ∧
      RequiresClientCert (Some cfg) = bool_decide (ClientAuth c = RequireAndVerifyClientCert)
  | Err NotEnabledButConfigured => enabled r = false ∧ Exists (fun s => s ≠ "") [TLSClientAuth cfg; TLSClientCAFile cfg; TLSCertFile cfg; TLSKeyFile cfg]
  | Err NoCertOrKey => certFile r = "" ∨ keyFile r = ""
  | Err (ClientAuthNeedsCA mode) => mode = TLSClientAuth cfg ∧ mode ∈ [ClientAuthVerifyIfGiven; ClientAuthRequire] ∧ clientCAFile r = ""
  | Err (UnknownClientAuth mode) =>
      mode = TLSClientAuth cfg ∧ mode ∉ [""; ClientAuthNone; ClientAuthRequest; ClientAuthVerifyIfGiven; ClientAuthRequire]
  | Err _ => ¬ ∃ kp pool, LoadX509KeyPair fs (certFile r) (keyFile r) = Ok kp ∧ load_pool fs (clientCAFile r) = Ok pool
  end.
Proof.
  cbv zeta. destruct (BuildServerTLSConfig (Some cfg) fs now) as [[c|]|e] eqn:Eb.
  - destruct (BuildServerTLSConfig_Some _ _ _ _ Eb) as (He & Hc & Hk & Ha & Hg & Hnew).
    apply newReloading_loads in Hnew as (kp & Hl & Hcert & Hpool). split_and!; [by exists kp| | |].
    + unfold LoopbackClientCredentials, LoopbackTrustFile. cbv zeta. cbn. rewrite He. rewrite decide_False by (by intros [?|?]). done.
    + by rewrite Hg.
    + unfold RequiresClientCert. cbv zeta. by rewrite He, Ha.
  - unfold BuildServerTLSConfig in Eb. cbv zeta in Eb. destruct (enabled (resolveConfig cfg)) eqn:Ee; cbn [negb] in Eb.
    { case_decide; [done|]. destruct (parseClientAuth _ _); [|done]. cbn [mbind result_bind] in Eb. by destruct (newReloadingCertificate _ _ _ _ _ _). }
    case_decide as Hd; [done|]. unfold resolveConfig in Ee. case_decide as Hdir; [|done]. cbn in Ee. split; [done|].
    assert (Hne : ∀ s, ¬ s ≠ "" → s = "") by (intros s Hs; destruct (decide (s = "")); tauto).
    repeat constructor; [..|done]; apply Hne; tauto.
  - unfold BuildServerTLSConfig in Eb. cbv zeta in Eb. set (r := resolveConfig cfg) in *.
    assert (Hauth : clientAuth r = TLSClientAuth cfg) by (unfold r, resolveConfig; destruct (decide (TLSCertsDir cfg = "")); reflexivity).
    destruct (enabled r); cbn [negb] in Eb.
    + case_decide as Hd; [by injection Eb as <-|]. destruct (parseClientAuth (clientAuth r) (clientCAFile r)) as [a|e'] eqn:Ea; cbn [mbind result_bind] in Eb.
      * destruct (newReloadingCertificate _ _ _ _ _ _) as [x|e'] eqn:En; [done|]. injection Eb as ->.
        pose proof (newReloading_fails _ _ _ _ _ _ _ En) as Hf. apply newReloading_errors in En. by destruct e.
      * injection Eb as ->. rewrite Hauth in Ea. unfold parseClientAuth in Ea. repeat case_decide; try done; injection Ea as <-.
        -- split_and!; [done| |done]. rewrite !elem_of_cons. tauto.
        -- split; [done|]. rewrite !elem_of_cons, elem_of_nil. tauto.
    + case_decide as Hd; [injection Eb as <-|done]. split; [done|]. rewrite !Exists_cons. tauto.
Qed.

(** ** Examples *)
Section examples.

(** Certificates and keys are numbers; a key belongs to the equal certificate. *)
#[local] Instance toy_tls : TlsLib := {|
  KeyPair := list N * list N;
  CertPool := list N;
  X509KeyPair c k := if decide (c = k) then Some (c, k) else None;
  AppendCertsFromPEM c := match c with [] => None | _ => Some c end;
  x509_Verify _ roots leaf _ := bool_decide (Raw leaf = roots) |}.

(** A leaf verifies if it is the certificate of the bundle. *)
#[local] Instance toy_stack : TlsStack := {|
  trusts pool root := Raw root = pool;
  system_root _ := False;
  verified_chains a pool presented :=
    match verifies a, pool, presented with
    | true, Some p, leaf :: _ => if decide (Raw leaf = p) then [[leaf]] else []
    | _, _, _ => []
    end |}.
#[local] Instance toy_stack_laws : TlsStackLaws toy_stack.
Proof.
  split. intros a pool presented chain. cbn. destruct (verifies a); [|by intros ?%elem_of_nil].
  destruct pool as [p|]; [|by intros ?%elem_of_nil]. destruct presented as [|leaf rest]; [by intros ?%elem_of_nil|].
  case_decide; [|by intros ?%elem_of_nil]. intros ->%list_elem_of_singleton. split_and!; [done|done|]. by exists leaf.
Qed.

Definition disk (n : N) (m : Z) : filesystem :=
  {["certs/server-cert.pem" := mkFile [n] m; "certs/server-key.pem" := mkFile [n] m; "certs/ca.pem" := mkFile [7]%N m]}.
Definition tls_cfg : CoreConfig := mkCoreConfig "" "" 0 false 0 false "" false false "" "" "" ClientAuthRequire "./certs".

Definition first_load : reloadingCertificate :=
  mkReloading "certs/server-cert.pem" "certs/server-key.pem" "certs/ca.pem" defaultMinCheckInterval (Some ([1], [1])%N) (Some [7]%N) 100 100 100 1000.
Lemma first_load_ok : newReloadingCertificate "certs/server-cert.pem" "certs/server-key.pem" "certs/ca.pem" defaultMinCheckInterval (disk 1 100) 1000 = Ok first_load.
Proof. vm_compute. reflexivity. Qed.

(** The certificate and the key are replaced one after the other, and time passes. *)
Definition half_rotated : tsys := mkSys
  (<["certs/server-cert.pem" := mkFile [2]%N 200]> (disk 1 100)) (<[("certs/server-cert.pem", 200%Z) := [2]%N]> (t_hist (start (disk 1 100) 1000 first_load)))
  (<["certs/server-cert.pem" := 200%Z]> (ModTime <$> disk 1 100)) 1000 first_load ∅.
Definition rotated : tsys := mkSys
  (<["certs/server-key.pem" := mkFile [2]%N 201]> (t_fs half_rotated)) (<[("certs/server-key.pem", 201%Z) := [2]%N]> (t_hist half_rotated))
  (<["certs/server-key.pem" := 201%Z]> (t_last half_rotated)) 1000 first_load ∅.
Definition later_on (y : tsys) : tsys := mkSys (t_fs y) (t_hist y) (t_last y) (t_now y + 6 * 10 ^ 9) (t_r y) (t_threads y).

Lemma rotation_steps : rtc tstep (start (disk 1 100) 1000 first_load) (later_on rotated).
Proof.
  eapply rtc_l; [apply (ts_write _ "certs/server-cert.pem" [2]%N 200); intros l Hl; vm_compute in Hl; injection Hl as <-; lia|].
  eapply rtc_l; [apply (ts_write _ "certs/server-key.pem" [2]%N 201); intros l Hl; vm_compute in Hl; injection Hl as <-; lia|].
  apply rtc_once. apply ts_tick. lia.
Qed.

Lemma rotation_takes_effect_witness : (GetCertificate (t_fs (later_on rotated)) (t_now (later_on rotated)) (t_r (later_on rotated))).1 = Some ([2], [2])%N.
Proof.
  destruct (rotation_takes_effect _ _ _ _ _ _ _ (later_on rotated) first_load_ok rotation_steps) as (_ & Hserve & _).
  apply (Hserve ([2], [2])%N (Some [7]%N)).
  - vm_compute. congruence.
  - vm_compute. reflexivity.
  - vm_compute. reflexivity.
Defined.

(** In between the pair does not match, and the old one is still served. *)
Example half_rotated_serves_old : (GetCertificate (t_fs half_rotated) (1000 + 6 * 10 ^ 9) (t_r half_rotated)).1 = Some ([1], [1])%N.
Proof. vm_compute. reflexivity. Qed.

Definition built : tls_Config := mkTlsConfig RequireAndVerifyClientCert true first_load.
Lemma built_ok : BuildServerTLSConfig (Some tls_cfg) (disk 1 100) 1000 = Ok (Some built).
Proof. vm_compute. reflexivity. Qed.

Lemma client_certificates_need_configured_CA_witness :
  let leaf := mkCert "svc" [7]%N [] in
  let ctx := mkCtx None (Some (TLSInfo (verified_chains RequireAndVerifyClientCert (Some [7]%N) [leaf]))) None in
  verifiedClientCert ctx = Some leaf ∧
  ∃ m pem pool chain root,
    t_hist (later_on rotated) !! ("certs/ca.pem", m) = Some pem ∧ AppendCertsFromPEM pem = Some pool ∧
    handshake_CAs built (later_on rotated) = Some pool ∧
    chain ∈ verified_chains RequireAndVerifyClientCert (Some pool) [leaf] ∧ head chain = Some leaf ∧ head [leaf] = Some leaf ∧
    last chain = Some root ∧ trusts pool root ∧ peer_claims (fun b => b) ctx = cert_claims (fun b => b) leaf.
Proof.
  intros leaf ctx. assert (Hl : verifiedClientCert ctx = Some leaf) by (vm_compute; reflexivity). split; [exact Hl|].
  assert (Hp : peer_AuthInfo ctx = Some (TLSInfo (verified_chains (ClientAuth built) (handshake_CAs built (later_on rotated)) [leaf])))
    by (vm_compute; reflexivity).
  exact (client_certificates_need_configured_CA (fun b => b) tls_cfg (disk 1 100) 1000 built (later_on rotated) [leaf]
    ctx leaf built_ok rotation_steps Hp Hl).
Defined.

(** Settings without TLS, and a verifying mode without a bundle, are refused. *)
Example refused_settings :
  BuildServerTLSConfig (Some (mkCoreConfig "" "" 0 false 0 false "" false false "cert.pem" "" "" "" "")) (disk 1 100) 1000 = Err NotEnabledButConfigured ∧
  BuildServerTLSConfig (Some (mkCoreConfig "" "" 0 false 0 false "" false true "certs/server-cert.pem" "certs/server-key.pem" "" ClientAuthRequire "")) (disk 1 100) 1000
    = Err (ClientAuthNeedsCA "require").
Proof. split; vm_compute; reflexivity. Qed.
End examples.
