(* ===== verification/Environment.v ===== *)
(** * The process environment and the cached environment service

    [utils/env.go] ([StringEnv], [BoolEnv], [IntEnv]), [ReplaceEnvVars] of
    [utils/strings.go] and [services/SingletonEnvironmentServices]: a service
    that keeps a copy of the process environment in a [sync.Map] next to a flag
    saying whether the copy is complete.

    The process environment is modelled as Go's [syscall] package keeps it, a
    list of [key=value] entries, with its rules for malformed keys.  The
    service's operations are run against it one after the other (module
    [Service]); module [Race] splits the operations into their atomic steps, to
    show what the unlocked read path does when it overlaps with an update. *)
From Stdlib Require Import Ascii.
From stdpp Require Import gmap strings.
From S2P Require Import Prelude GoText.
From stdpp Require Import options.

(** ** [os]: the environment of the process *)
Module Os.

Definition cEq : ascii := ascii_of_N 61.
Definition cNul : ascii := ascii_of_N 0.

(** The entries; an unset variable leaves an empty slot in Go's array, which
    [os.Environ] skips: the model drops the slot. *)
Abbreviation environ := (list string).

Definition env_entry (key value : string) : string := key +:+ String cEq value.

(** The key and the value of an entry, split at the first [=]. *)
Definition split_entry (e : string) : option (string * string) :=
  match splitn2_char cEq e with [k; v] => Some (k, v) | _ => None end.
Definition entry_key (e : string) : option string := fst <$> split_entry e.

(** [syscall.copyenv]: of two entries with one key, the first counts. *)
Fixpoint copyenv (seen : gset string) (raw : list string) : environ :=
  match raw with
  | [] => []
  | e :: raw' =>
      match entry_key e with
      | Some k => if decide (k ∈ seen) then copyenv seen raw' else e :: copyenv ({[k]} ∪ seen) raw'
      | None => if decide (e = "") then copyenv seen raw' else e :: copyenv seen raw'
      end
  end.

Fixpoint find_entry (os : environ) (key : string) : option string :=
  match os with
  | [] => None
  | e :: os' => match split_entry e with
                | Some (k, v) => if decide (k = key) then Some v else find_entry os' key
                | None => find_entry os' key
                end
  end.

Definition LookupEnv (os : environ) (key : string) : option string :=
  if decide (key = "") then None else find_entry os key.

Definition EINVAL : string := "setenv: invalid argument".

Definition Setenv (key value : string) (os : environ) : result string environ :=
  if decide (key = "") then Err EINVAL
  else if (0 <? count_char cEq key)%nat || (0 <? count_char cNul key)%nat then Err EINVAL
  else if (0 <? count_char cNul value)%nat then Err EINVAL
  else match list_find (fun e => entry_key e = Some key) os with
       | Some (i, _) => Ok (<[i := env_entry key value]> os)
       | None => Ok (os ++ [env_entry key value])
       end.

Definition Unsetenv (key : string) (os : environ) : environ :=
  filter (fun e => entry_key e ≠ Some key) os.

(** Each key has one entry. *)
Definition os_ok (os : environ) : Prop := NoDup (omap entry_key os).
End Os.
Import Os.

(** ** Reading one variable ([utils/env.go]) *)
Definition StringEnv (os : environ) (key def : string) : string :=
  match LookupEnv os key with
  | None => def
  | Some v => if decide (v = "") then def else v
  end.

(** [strconv.ParseBool]. *)
Definition ParseBool (s : string) : option bool :=
  if decide (s ∈ ["1"; "t"; "T"; "true"; "TRUE"; "True"]) then Some true
  else if decide (s ∈ ["0"; "f"; "F"; "false"; "FALSE"; "False"]) then Some false
  else None.

Definition BoolEnv (os : environ) (key : string) (def : bool) : bool :=
  match LookupEnv os key with
  | None => def
  | Some vv => default def (ParseBool vv)
  end.

Definition IntEnv (os : environ) (key : string) (def : Z) : Z :=
  match LookupEnv os key with
  | None => def
  | Some vv => default def (Atoi vv)
  end.

(** ** [ReplaceEnvVars] *)
Module Replace.

(** The compiled pattern: the quoted runes of [pattern], and a capturing group
    [([A-Za-z0-9_-]+)] for each [%s]. *)
Inductive re_token := TLit (r : rune) | TName.

Fixpoint compile_runes (rs : list rune) : list re_token :=
  match rs with
  | [] => []
  | r :: rs' =>
      match rs' with
      | r' :: rs'' => if (r =? 37)%N && (r' =? 115)%N then TName :: compile_runes rs'' else TLit r :: compile_runes rs'
      | [] => [TLit r]
      end
  end.

Definition is_bad (c : chunk) : bool := match c with Bad _ => true | Good _ => false end.

(** [regexp.MustCompile] panics on a pattern that is not UTF-8. *)
Definition compile (pattern : string) : option (list re_token) :=
  if existsb is_bad (chunks pattern) then None else Some (compile_runes (runes pattern)).

Definition name_rune (r : rune) : bool :=
  between 65 90 r || between 97 122 r || between 48 57 r || (r =? 95)%N || (r =? 45)%N.

(** The longest run of name characters. *)
Fixpoint run_length (cs : list chunk) : nat :=
  match cs with c :: cs' => if name_rune (chunk_rune c) then S (run_length cs') else 0 | [] => 0 end.

(** The first success among the lengths [n], [n-1], ..., [1] (a greedy group). *)
Fixpoint backtrack {A} (n : nat) (f : nat → option A) : option A :=
  match n with
  | 0 => None
  | S m => match f n with Some a => Some a | None => backtrack m f end
  end.

(** The match of the tokens at the start of a text, as the regexp engine's
    leftmost-first rule chooses it: its length and its groups. *)
Fixpoint match_at (toks : list re_token) (cs : list chunk) : option (nat * list (list chunk)) :=
  match toks with
  | [] => Some (0, [])
  | TLit r :: toks' =>
      match cs with
      | c :: cs' => if (chunk_rune c =? r)%N
                    then (fun '(n, caps) => (S n, caps)) <$> match_at toks' cs' else None
      | [] => None
      end
  | TName :: toks' =>
      backtrack (run_length cs) (fun k =>
        (fun '(n, caps) => (k + n, take k cs :: caps)) <$> match_at toks' (drop k cs))
  end.

(** [re.FindStringSubmatch]: the groups of the leftmost match. *)
Fixpoint find_submatch (toks : list re_token) (cs : list chunk) : option (list (list chunk)) :=
  match match_at toks cs with
  | Some (_, caps) => Some caps
  | None => match cs with _ :: cs' => find_submatch toks cs' | [] => None end
  end.

Section replace.
Context (lookup : string → option string).

(** The function literal of [ReplaceEnvVars]. *)
Definition replacement (toks : list re_token) (m : list chunk) : string :=
  match find_submatch toks m with
  | Some (varName :: _) => default (text m) (lookup (text varName))
  | _ => text m
  end.

(** [re.ReplaceAllStringFunc]. *)
Fixpoint replace_matches (fuel : nat) (toks : list re_token) (cs : list chunk) : string :=
  match fuel, cs with
  | S n, c :: cs' =>
      match match_at toks cs with
      | Some (S m, _) => replacement toks (take (S m) cs) +:+ replace_matches n toks (drop (S m) cs)
      | _ => text [c] +:+ replace_matches n toks cs'
      end
  | _, _ => ""
  end.

(** The result; [None] when the pattern does not compile, where the code panics. *)
Definition ReplaceEnvVars (original pattern : string) : option string :=
  toks ← compile pattern;
  let cs := chunks original in
  Some (replace_matches (length cs) toks cs).
End replace.
End Replace.
Import Replace.

(** ** The service *)
Module Service.

(** [findFirstEqual]: [for i, c := range s] visits the runes with their byte offsets. *)
Fixpoint first_equal (i : nat) (cs : list chunk) : option nat :=
  match cs with
  | [] => None
  | c :: cs' => if (chunk_rune c =? 61)%N then Some i else first_equal (i + length (chunk_bytes c)) cs'
  end.
Definition findFirstEqual (s : string) : option nat := first_equal 0 (chunks s).

(** The service, with the environment of the process it runs in. *)
Record env_service := mkService { envMap : gmap string string; loaded : bool; os : environ }.

Definition Ctor (os : environ) : env_service := mkService ∅ false os.

Definition getMapFromCache (s : env_service) : option (gmap string string) :=
  if loaded s then Some (envMap s) else None.

(** The loop over [os.Environ()], on the map returned and on the cache. *)
Definition load_entry (e : string) (ms : gmap string string * gmap string string) :=
  match findFirstEqual e with
  | Some (S i) =>
      let key := String.substring 0 (S i) e in
      let value := String.substring (S i + 1) (String.length e - (S i + 1)) e in
      (<[key := value]> ms.1, <[key := value]> ms.2)
  | _ => ms
  end.

Definition load_environ (os : environ) (cache : gmap string string) : gmap string string * gmap string string :=
  foldl (fun ms e => load_entry e ms) (∅, cache) os.

Definition GetEnvironmentMap (s : env_service) : gmap string string * env_service :=
  match getMapFromCache s with
  | Some cachedMap => (cachedMap, s)
  | None =>
      let '(m, cache) := load_environ (os s) (envMap s) in
      (m, mkService cache true (os s))
  end.

Definition ReplaceEnvironmentVariables (s : env_service) (input pattern : string) : option string :=
  ReplaceEnvVars (LookupEnv (os s)) input pattern.

Definition GetEnvironmentVariable (key : string) (s : env_service) : option string * env_service :=
  match envMap s !! key with
  | Some v => (Some v, s)
  | None =>
      match LookupEnv (os s) key with
      | Some value => (Some value, mkService (<[key := value]> (envMap s)) (loaded s) (os s))
      | None => (None, s)
      end
  end.

Definition GetEnvironmentVariableOrDefault (key defaultValue : string) (s : env_service) : string * env_service :=
  let '(value, s') := GetEnvironmentVariable key s in (default defaultValue value, s').

Definition HasEnvironmentVariable (key : string) (s : env_service) : bool * env_service :=
  let '(value, s') := GetEnvironmentVariable key s in (bool_decide (is_Some value), s').

Definition SetEnvironmentVariable (key value : string) (s : env_service) : option string * env_service :=
  match Setenv key value (os s) with
  | Err err => (Some err, s)
  | Ok os' => (None, mkService (<[key := value]> (envMap s)) (loaded s) os')
  end.

Definition UnsetEnvironmentVariable (key : string) (s : env_service) : env_service :=
  mkService (delete key (envMap s)) (loaded s) (Unsetenv key (os s)).

(** The [Range] that deletes every key. *)
Definition ClearCache (s : env_service) : env_service :=
  mkService (foldr delete (envMap s) (map_to_list (envMap s)).*1) false (os s).

Definition ReloadEnvironmentMap (s : env_service) : gmap string string * env_service :=
  GetEnvironmentMap (ClearCache s).

(** The operations of the interface as commands, with their results. *)
Inductive env_op :=
  | OpMap | OpReplace (input pattern : string) | OpGet (key : string) | OpGetOr (key def : string)
  | OpHas (key : string) | OpSet (key value : string) | OpUnset (key : string) | OpClear | OpReload.

Inductive env_reply :=
  | RMap (m : gmap string string) | RReplaced (r : option string) | RValue (v : option string)
  | RString (s : string) | RBool (b : bool) | RError (e : option string).

Definition env_exec (o : env_op) (s : env_service) : env_reply * env_service :=
  match o with
  | OpMap => let '(m, s') := GetEnvironmentMap s in (RMap m, s')
  | OpReplace input pattern => (RReplaced (ReplaceEnvironmentVariables s input pattern), s)
  | OpGet k => let '(v, s') := GetEnvironmentVariable k s in (RValue v, s')
  | OpGetOr k d => let '(v, s') := GetEnvironmentVariableOrDefault k d s in (RString v, s')
  | OpHas k => let '(b, s') := HasEnvironmentVariable k s in (RBool b, s')
  | OpSet k v => let '(e, s') := SetEnvironmentVariable k v s in (RError e, s')
  | OpUnset k => (RError None, UnsetEnvironmentVariable k s)
  | OpClear => (RError None, ClearCache s)
  | OpReload => let '(m, s') := ReloadEnvironmentMap s in (RMap m, s')
  end.

Fixpoint exec_all (ops : list env_op) (s : env_service) : list env_reply * env_service :=
  match ops with
  | [] => ([], s)
  | o :: ops' => let '(r, s1) := env_exec o s in let '(rs, s2) := exec_all ops' s1 in (r :: rs, s2)
  end.

(** *** The specification: a plain map, without a cache *)

(** A key and value that [os.Setenv] accepts. *)
Definition settable (key value : string) : bool :=
  negb (bool_decide (key = "")) && (count_char cEq key =? 0)%nat && (count_char cNul key =? 0)%nat
  && (count_char cNul value =? 0)%nat.

Definition spec_exec (o : env_op) (m : gmap string string) : env_reply * gmap string string :=
  match o with
  | OpMap | OpReload => (RMap m, m)
  | OpReplace input pattern => (RReplaced (ReplaceEnvVars (fun k => m !! k) input pattern), m)
  | OpGet k => (RValue (m !! k), m)
  | OpGetOr k d => (RString (default d (m !! k)), m)
  | OpHas k => (RBool (bool_decide (is_Some (m !! k))), m)
  | OpSet k v => if settable k v then (RError None, <[k := v]> m) else (RError (Some EINVAL), m)
  | OpUnset k => (RError None, delete k m)
  | OpClear => (RError None, m)
  end.

Fixpoint spec_exec_all (ops : list env_op) (m : gmap string string) : list env_reply :=
  match ops with
  | [] => []
  | o :: ops' => let '(r, m') := spec_exec o m in r :: spec_exec_all ops' m'
  end.

(** The variables of an environment: what [LookupEnv] finds. *)
Definition variables (os : environ) : gmap string string :=
  list_to_map (filter (fun kv => kv.1 ≠ "") (omap split_entry os)).

(** The cache agrees with the process, and is complete once it is loaded. *)
Record service_ok (s : env_service) (m : gmap string string) : Prop := {
  sok_os : os_ok (os s);
  sok_vars : variables (os s) = m;
  sok_cache : envMap s ⊆ m;
  sok_loaded : loaded s = true → envMap s = m }.
End Service.
Import Service.

(** ** Theorems *)
Section entries.

Lemma split_entry_app k v : count_char cEq k = 0 → split_entry (env_entry k v) = Some (k, v).
Proof. intros Hk. unfold split_entry, env_entry. by rewrite splitn2_char_app. Qed.

Lemma split_entry_cases e :
  (split_entry e = None ∧ count_char cEq e = 0) ∨
  (∃ k v, split_entry e = Some (k, v) ∧ e = env_entry k v ∧ count_char cEq k = 0).
Proof.
  unfold split_entry. destruct (splitn2_char_cases cEq e) as [[-> ?]|(k & v & -> & ? & ?)]; [by left|right; by exists k, v].
Qed.

(** The scan of [findFirstEqual] over runes finds the byte that splits an entry. *)
Lemma first_equal_none i cs : (61%N ∉ chunk_rune <$> cs) → first_equal i cs = None.
Proof.
  revert i. induction cs as [|c cs IH]; simpl; intros i Hn; [done|]. apply not_elem_of_cons in Hn as [Hc Hn].
  destruct (N.eqb_spec (chunk_rune c) 61); [congruence|]. by apply IH.
Qed.

Lemma first_equal_app i cs cs' :
  (61%N ∉ chunk_rune <$> cs) → first_equal i (cs ++ Good 61 :: cs') = Some (i + length (cs ≫= chunk_bytes)).
Proof.
  revert i. induction cs as [|c cs IH]; intros i Hn; [simpl; f_equal; lia|].
  rewrite fmap_cons in Hn. apply not_elem_of_cons in Hn as [Hc Hn]. cbn [app first_equal].
  destruct (N.eqb_spec (chunk_rune c) 61); [congruence|]. rewrite IH by done. f_equal. rewrite bind_cons, length_app. lia.
Qed.

Lemma no_equal_rune k : count_char cEq k = 0 → 61%N ∉ chunk_rune <$> chunks k.
Proof. intros Hk Hin. apply count_char_none in Hk. apply Hk. by apply decode_ascii_elem in Hin. Qed.

Lemma length_bytes s : length (bytes_of_string s) = String.length s.
Proof. induction s; simpl; congruence. Qed.

Lemma findFirstEqual_entry k v : count_char cEq k = 0 → findFirstEqual (env_entry k v) = Some (String.length k).
Proof.
  intros Hk. unfold findFirstEqual, env_entry, chunks. rewrite bytes_of_string_app. cbn [bytes_of_string].
  rewrite decode_app_ascii by done. rewrite first_equal_app by (by apply no_equal_rune).
  by rewrite chunk_bytes_decode, length_bytes.
Qed.

Lemma findFirstEqual_none e : count_char cEq e = 0 → findFirstEqual e = None.
Proof. intros. by apply first_equal_none, no_equal_rune. Qed.

Lemma substring_app_l k t : String.substring 0 (String.length k) (k +:+ t) = k.
Proof. induction k as [|c k IH]; simpl; [by destruct t|]. by f_equal. Qed.

(** One entry of the environment, in the loop of [GetEnvironmentMap]. *)
Lemma load_entry_split e ms :
  load_entry e ms = match split_entry e with
                    | Some (k, v) => if decide (k = "") then ms else (<[k := v]> ms.1, <[k := v]> ms.2)
                    | None => ms
                    end.
Proof.
  unfold load_entry. destruct (split_entry_cases e) as [[-> Hc]|(k & v & -> & -> & Hk)]; [by rewrite findFirstEqual_none|].
  rewrite findFirstEqual_entry by done. case_decide as Hk0; [by subst|]. destruct k as [|c k]; [done|].
  remember (String c k) as key eqn:Hkey. assert (Hlen : String.length key = S (String.length k)) by (by subst).
  rewrite Hlen. cbv zeta. rewrite <- Hlen. unfold env_entry. rewrite substring_app_l.
  assert (Hkv : key +:+ String cEq v = (key +:+ String cEq "") +:+ v) by (by rewrite <- sapp_assoc).
  rewrite Hkv. replace (String.length key + 1) with (String.length (key +:+ String cEq "")) by (by rewrite slength_app).
  by rewrite substring_app.
Qed.
End entries.

Section refinement.

(** The replacement only sees the variables through the lookup. *)
Lemma ReplaceEnvVars_ext f g original pattern :
  (∀ k, f k = g k) → ReplaceEnvVars f original pattern = ReplaceEnvVars g original pattern.
Proof.
  intros Hfg. unfold ReplaceEnvVars. destruct (compile pattern) as [toks|]; [|done]. simpl. f_equal.
  generalize (length (chunks original)) as n. generalize (chunks original) as cs. intros cs n.
  revert cs. induction n as [|n IH]; intros [|c cs]; [done..|]. cbn [replace_matches].
  destruct (match_at toks (c :: cs)) as [[[|m] caps]|]; rewrite IH; [done| |done]. f_equal.
  unfold replacement. destruct (find_submatch _ _) as [[|name ?]|]; [done| |done]. by rewrite Hfg.
Qed.

Lemma omap_entry_key os : omap entry_key os = (omap split_entry os).*1.
Proof.
  induction os as [|e os IH]; [done|]. cbn [omap list_omap]. unfold entry_key at 1.
  destruct (split_entry e) as [[k v]|]; simpl; [by f_equal|done].
Qed.

(** The entries as an association list. *)
Lemma find_entry_assoc os k v : find_entry os k = Some v → (k, v) ∈ omap split_entry os.
Proof.
  induction os as [|e os IH]; [done|]. cbn [omap list_omap find_entry].
  destruct (split_entry e) as [[k' v']|]; simpl; [|done]. case_decide; intros; simplify_eq; [left|right; auto].
Qed.

Lemma find_entry_none os k : find_entry os k = None → k ∉ omap entry_key os.
Proof.
  rewrite omap_entry_key. induction os as [|e os IH]; [set_solver|]. cbn [omap list_omap find_entry].
  destruct (split_entry e) as [[k' v']|]; simpl; [|done]. case_decide; [done|]. set_solver.
Qed.

(** [LookupEnv] reads the map of the variables. *)
Lemma LookupEnv_variables os k : os_ok os → LookupEnv os k = variables os !! k.
Proof.
  intros Hok. unfold os_ok in Hok. rewrite omap_entry_key in Hok. unfold LookupEnv, variables.
  assert (Hnd : NoDup (filter (fun kv : string * string => kv.1 ≠ "") (omap split_entry os)).*1).
  { eapply sublist_NoDup; [exact Hok|]. apply fmap_sublist, sublist_filter. }
  symmetry. destruct (LookupEnv os k) as [v|] eqn:Hl; unfold LookupEnv in Hl; case_decide as Hk0; simplify_eq; rewrite ?Hl.
  - apply elem_of_list_to_map; [done|]. apply list_elem_of_filter. split; [done|]. by apply find_entry_assoc.
  - apply not_elem_of_list_to_map. intros ([k v] & ? & [Hne _]%list_elem_of_filter)%list_elem_of_fmap. naive_solver.
  - apply find_entry_none in Hl. rewrite omap_entry_key in Hl. apply not_elem_of_list_to_map.
    intros ([k' v] & ? & [_ Hin]%list_elem_of_filter)%list_elem_of_fmap. simplify_eq/=. apply Hl, list_elem_of_fmap. by exists (k', v).
Qed.

(** The load fills the map returned and completes the cache. *)
Lemma load_variables os cache m :
  os_ok os → foldl (fun ms e => load_entry e ms) (m, cache) os = (variables os ∪ m, variables os ∪ cache).
Proof.
  intros Hok. unfold os_ok, variables in *. rewrite omap_entry_key in Hok. revert cache m.
  induction os as [|e os IH]; intros cache m; [simpl; by rewrite !(left_id_L ∅ (∪))|].
  cbn [foldl]. rewrite load_entry_split. cbn [omap list_omap] in *.
  destruct (split_entry e) as [[k v]|]; [|by apply IH]. rewrite filter_cons. cbn [fmap list_fmap fst] in Hok.
  apply NoDup_cons in Hok as [Hk Hok]. destruct (decide (k = "")) as [-> |Hk0].
  { rewrite decide_False by (by intros []). by apply IH. }
  rewrite decide_True by done. cbn [fst snd list_to_map foldr uncurry]. rewrite IH by done.
  assert (Hnk : (list_to_map (filter (fun kv : string * string => kv.1 ≠ "") (omap split_entry os))
                 : gmap string string) !! k = None).
  { apply not_elem_of_list_to_map. intros ([k' v'] & ? & [_ Hin]%list_elem_of_filter)%list_elem_of_fmap.
    simplify_eq/=. apply Hk, list_elem_of_fmap. by exists (k', v'). }
  by rewrite <- !insert_union_l, !insert_union_r.
Qed.

Lemma find_entry_app l1 l2 k :
  find_entry (l1 ++ l2) k = match find_entry l1 k with Some v => Some v | None => find_entry l2 k end.
Proof. induction l1 as [|e l1 IH]; [done|]. simpl. destruct (split_entry e) as [[k' v]|]; [case_decide|]; done. Qed.

Lemma variables_ext os m : os_ok os → (∀ k, LookupEnv os k = m !! k) → variables os = m.
Proof. intros Hok Hl. apply map_eq. intros k. by rewrite <- LookupEnv_variables, Hl. Qed.

Lemma settable_spec k v :
  settable k v = true ↔ k ≠ "" ∧ count_char cEq k = 0 ∧ count_char cNul k = 0 ∧ count_char cNul v = 0.
Proof. unfold settable. rewrite !andb_true_iff, !Nat.eqb_eq, negb_true_iff, bool_decide_eq_false. tauto. Qed.

Lemma entry_key_entry k v : count_char cEq k = 0 → entry_key (env_entry k v) = Some k.
Proof. intros. unfold entry_key. by rewrite split_entry_app. Qed.

(** A variable that is set replaces its entry, or gets a new one at the end. *)
Lemma Setenv_shape k v os :
  settable k v = true → os_ok os →
  ∃ l1 l2, Setenv k v os = Ok (l1 ++ env_entry k v :: l2) ∧ find_entry l1 k = None ∧ (os = l1 ++ l2 ∧ l2 = [] ∨
    ∃ e, os = l1 ++ e :: l2 ∧ entry_key e = Some k).
Proof.
  intros (Hk0 & Hk & Hkn & Hv)%settable_spec Hok. unfold Setenv. rewrite decide_False by done. rewrite Hk, Hkn, Hv.
  cbn [orb Nat.ltb Nat.leb]. destruct (list_find _ os) as [[i e]|] eqn:Hf.
  - apply list_find_Some in Hf as (Hi & He & Hpre). apply list_elem_of_split_length in Hi as (l1 & l2 & -> & ->).
    exists l1, l2. rewrite insert_app_r_alt, Nat.sub_diag by lia. split; [done|]. split; [|right; by exists e].
    destruct (find_entry l1 k) as [v'|] eqn:Hl1; [|done]. exfalso. apply find_entry_assoc in Hl1.
    unfold os_ok in Hok. rewrite omap_app in Hok. apply NoDup_app in Hok as (_ & Hdis & _). apply (Hdis k).
    + rewrite omap_entry_key. apply list_elem_of_fmap. by exists (k, v').
    + cbn [omap list_omap]. rewrite He. left.
  - apply list_find_None in Hf. exists os, []. split; [done|]. split; [|left; by rewrite app_nil_r].
    destruct (find_entry os k) as [v'|] eqn:Hos; [|done]. exfalso. apply find_entry_assoc in Hos.
    apply list_elem_of_omap in Hos as (e & Hin & He). rewrite Forall_forall in Hf. apply (Hf e Hin).
    unfold entry_key. by rewrite He.
Qed.

Lemma Setenv_variables k v os :
  os_ok os →
  if settable k v then ∃ os', Setenv k v os = Ok os' ∧ os_ok os' ∧ variables os' = <[k := v]> (variables os)
  else Setenv k v os = Err EINVAL.
Proof.
  intros Hok. destruct (settable k v) eqn:Hs.
  - destruct (Setenv_shape k v os Hs Hok) as (l1 & l2 & HS & Hl1 & Hos). apply settable_spec in Hs as (Hk0 & Hk & _).
    assert (Hok' : os_ok (l1 ++ env_entry k v :: l2)).
    { unfold os_ok in *. rewrite omap_app in *. cbn [omap list_omap]. rewrite entry_key_entry by done.
      destruct Hos as [[-> ->]|(e & -> & He)].
      - rewrite app_nil_r in Hok. apply NoDup_app. repeat split; [done| |apply NoDup_singleton].
        intros x Hx ->%list_elem_of_singleton. by apply find_entry_none in Hl1.
      - rewrite omap_app in Hok. cbn [omap list_omap] in Hok. by rewrite He in Hok. }
    exists (l1 ++ env_entry k v :: l2). repeat split; [done..|]. apply variables_ext; [done|]. intros k'.
    rewrite lookup_insert, <- LookupEnv_variables by done. unfold LookupEnv.
    destruct (decide (k = k')) as [<-|Hne].
    + rewrite decide_False, find_entry_app, Hl1 by done. cbn [find_entry]. rewrite split_entry_app by done. by rewrite decide_True.
    + case_decide; [done|]. destruct Hos as [[-> ->]|(e & -> & He)]; rewrite !find_entry_app; cbn [find_entry];
        rewrite split_entry_app, decide_False by done; [done|]. unfold entry_key in He.
      destruct (split_entry e) as [[ke ve]|]; simplify_eq/=. by rewrite decide_False.
  - revert Hs. unfold settable, Setenv.
    destruct (decide (k = "")) as [-> |Hk]; [done|]. rewrite bool_decide_eq_false_2 by done.
    destruct (count_char cEq k), (count_char cNul k), (count_char cNul v); done.
Qed.

Lemma find_entry_filter k k' os :
  find_entry (Unsetenv k os) k' = if decide (k = k') then None else find_entry os k'.
Proof.
  unfold Unsetenv. induction os as [|e os IH]; [by case_decide|]. rewrite filter_cons. cbn [find_entry].
  destruct (decide (entry_key e ≠ Some k)) as [Hn|Hn]; cbn [find_entry]; rewrite IH; unfold entry_key in Hn;
    destruct (split_entry e) as [[ke ve]|]; simpl in Hn; try done; repeat case_decide; naive_solver.
Qed.

Lemma Unsetenv_variables k os :
  os_ok os → os_ok (Unsetenv k os) ∧ variables (Unsetenv k os) = delete k (variables os).
Proof.
  intros Hok.
  assert (Hok' : os_ok (Unsetenv k os)).
  { unfold os_ok, Unsetenv in *. induction os as [|e os IH]; [done|]. rewrite filter_cons. cbn [omap list_omap] in Hok.
    destruct (entry_key e) as [ke|] eqn:He; [|rewrite decide_True by done; cbn [omap list_omap]; rewrite He; auto].
    apply NoDup_cons in Hok as [Hke Hok]. case_decide; [|auto]. cbn [omap list_omap]. rewrite He.
    constructor; [|auto]. contradict Hke. apply list_elem_of_omap in Hke as (e' & [_ ?]%list_elem_of_filter & ?).
    apply list_elem_of_omap. by exists e'. }
  split; [done|]. apply variables_ext; [done|]. intros k'. rewrite lookup_delete, <- LookupEnv_variables by done.
  unfold LookupEnv. rewrite find_entry_filter. by destruct (decide (k = k')), (decide (k' = "")).
Qed.

Lemma foldr_delete_all (ks : list string) (m : gmap string string) k :
  foldr delete m ks !! k = if decide (k ∈ ks) then None else m !! k.
Proof.
  induction ks as [|k' ks IH]; [done|]. cbn [foldr]. rewrite lookup_delete, IH.
  destruct (decide (k' = k)) as [-> |]; [by rewrite decide_True by left|]. by repeat case_decide; try set_solver.
Qed.

Lemma ClearCache_empty s : envMap (ClearCache s) = ∅.
Proof.
  apply map_eq. intros k. cbn [ClearCache envMap]. rewrite foldr_delete_all, lookup_empty. case_decide as Hk; [done|].
  destruct (envMap s !! k) as [v|] eqn:Hv; [|done]. exfalso. apply Hk, list_elem_of_fmap. exists (k, v).
  split; [done|]. by apply elem_of_map_to_list.
Qed.

Lemma ClearCache_ok s m : service_ok s m → service_ok (ClearCache s) m.
Proof. intros [??? _]. split; [done..| |done]. rewrite ClearCache_empty. apply map_empty_subseteq. Qed.

Lemma union_subseteq_absorb (m c : gmap string string) : c ⊆ m → m ∪ c = m.
Proof.
  intros Hc. apply map_eq. intros k. rewrite lookup_union. destruct (m !! k) as [v|] eqn:Hm; [by destruct (c !! k)|].
  destruct (c !! k) as [v|] eqn:Hk; [|done]. pose proof (lookup_weaken _ _ _ _ Hk Hc). congruence.
Qed.

Lemma GetEnvironmentMap_ok s m :
  service_ok s m → (GetEnvironmentMap s).1 = m ∧ service_ok (GetEnvironmentMap s).2 m.
Proof.
  intros H. pose proof H as [Hok Hv Hc Hl]. unfold GetEnvironmentMap, getMapFromCache.
  destruct (loaded s); [by split; [apply Hl|]|]. unfold load_environ. rewrite load_variables by done. rewrite Hv. simpl.
  rewrite (right_id_L ∅ (∪)). split; [done|]. assert (Hm : m ∪ envMap s = m) by (by apply union_subseteq_absorb).
  by split; simpl; rewrite ?Hm.
Qed.

Lemma GetEnvironmentVariable_ok k s m :
  service_ok s m → (GetEnvironmentVariable k s).1 = m !! k ∧ service_ok (GetEnvironmentVariable k s).2 m.
Proof.
  intros H. pose proof H as [Hok Hv Hc Hl]. unfold GetEnvironmentVariable. destruct (envMap s !! k) as [v|] eqn:Hk.
  { split; [|done]. symmetry. by eapply lookup_weaken. }
  rewrite LookupEnv_variables, Hv by done. destruct (m !! k) as [v|] eqn:Hm; [|done]. split; [done|].
  split; [done..| |]; simpl.
  - by apply insert_subseteq_l.
  - intros Hld. by rewrite Hl, insert_id by auto.
Qed.

Lemma service_ok_Ctor raw : os_ok raw → service_ok (Ctor raw) (variables raw).
Proof. intros. split; [done..|apply map_empty_subseteq|done]. Qed.

(** One operation: the reply is that of the uncached map, and the cache stays right. *)
Lemma exec_ok o s m :
  service_ok s m → (env_exec o s).1 = (spec_exec o m).1 ∧ service_ok (env_exec o s).2 (spec_exec o m).2.
Proof.
  intros H. pose proof H as [Hok Hv Hc Hl]. destruct o as [|input pattern|k|k d|k|k v|k| |]; cbn [env_exec spec_exec].
  - destruct (GetEnvironmentMap_ok s m H) as [Hm ?]. destruct (GetEnvironmentMap s). simpl in *. by subst.
  - split; [|done]. cbn [fst]. f_equal. unfold ReplaceEnvironmentVariables. apply ReplaceEnvVars_ext. intros k.
    by rewrite LookupEnv_variables, Hv.
  - destruct (GetEnvironmentVariable_ok k s m H) as [Hg ?]. destruct (GetEnvironmentVariable k s). simpl in *. by subst.
  - destruct (GetEnvironmentVariable_ok k s m H) as [Hg ?]. unfold GetEnvironmentVariableOrDefault.
    destruct (GetEnvironmentVariable k s). simpl in *. by subst.
  - destruct (GetEnvironmentVariable_ok k s m H) as [Hg ?]. unfold HasEnvironmentVariable.
    destruct (GetEnvironmentVariable k s). simpl in *. by subst.
  - unfold SetEnvironmentVariable. pose proof (Setenv_variables k v (os s) Hok) as HS. rewrite Hv in HS.
    destruct (settable k v); [|by rewrite HS]. destruct HS as (os' & -> & Hok' & Hv'). split; [done|].
    split; simpl; [done..|by apply insert_mono|]. intros Hld. by rewrite Hl.
  - destruct (Unsetenv_variables k (os s) Hok) as [Hok' Hv']. split; [done|].
    split; simpl; [done|by rewrite Hv', Hv|by apply delete_mono|]. intros Hld. by rewrite Hl.
  - split; [done|]. by apply ClearCache_ok.
  - pose proof (ClearCache_ok s m H) as H'.
    unfold ReloadEnvironmentMap. destruct (GetEnvironmentMap_ok _ m H') as [Hm ?].
    destruct (GetEnvironmentMap (ClearCache s)). simpl in *. by subst.
Qed.
End refinement.

(** ** The environment as a map *)
Lemma copyenv_ok seen raw : os_ok (copyenv seen raw) ∧ (∀ k, k ∈ seen → k ∉ omap entry_key (copyenv seen raw)).
Proof.
  revert seen. induction raw as [|e raw IH]; intros seen; [split; [constructor|set_solver]|]. cbn [copyenv].
  destruct (entry_key e) as [k|] eqn:He; case_decide as Hk; try apply IH.
  - destruct (IH ({[k]} ∪ seen)) as [Hok Hdis]. unfold os_ok. cbn [omap list_omap]. rewrite He. split.
    + constructor; [apply Hdis; set_solver|done].
    + intros k' Hk'. apply not_elem_of_cons. split; [set_solver|]. apply Hdis. set_solver.
  - destruct (IH seen) as [Hok Hdis]. unfold os_ok. cbn [omap list_omap]. by rewrite He.
Qed.

Lemma exec_all_ok ops s m : service_ok s m → (exec_all ops s).1 = spec_exec_all ops m.
Proof.
  revert s m. induction ops as [|o ops IH]; intros s m H; [done|]. cbn [exec_all spec_exec_all].
  destruct (exec_ok o s m H) as [Hr H']. destruct (env_exec o s) as [r s1], (spec_exec o m) as [r' m']. simpl in *. subst.
  specialize (IH s1 m' H'). destruct (exec_all ops s1). simpl in *. by subst.
Qed.

(** C26: the cached environment service is an environment without a cache: in
    any process, any sequence of its operations (whole-map reads, single reads
    with and without default, membership tests, updates, removals, cache
    clears, reloads and placeholder replacements) returns what the same
    operations return on a plain map of the process's variables, rejected
    updates included; a partially filled cache is never taken for the whole
    environment. *)
Theorem environment_service_refines_map (raw : list string) (ops : list env_op) :
  (exec_all ops (Ctor (copyenv ∅ raw))).1 = spec_exec_all ops (variables (copyenv ∅ raw)).
Proof. apply exec_all_ok, service_ok_Ctor, copyenv_ok. Qed.

Example environment_session :
  (exec_all [OpGet "HOME"; OpMap; OpSet "A=B" "x"; OpSet "TERM" "vt"; OpUnset "HOME"; OpMap;
             OpGetOr "HOME" "/"; OpReplace "on ${TERM}, ${NONE}" "${%s}"] (Ctor (copyenv ∅ ["HOME=/root"; "PATH=/bin=x"; "HOME=2"; "=C:"]))).1
  = [RValue (Some "/root"); RMap {["HOME" := "/root"; "PATH" := "/bin=x"]}; RError (Some EINVAL); RError None; RError None;
     RMap {["PATH" := "/bin=x"; "TERM" := "vt"]}; RString "/"; RReplaced (Some "on vt, ${NONE}")].
Proof. vm_compute. reflexivity. Qed.

(** ** Placeholders *)
Section placeholders.
Context (lookup : string → option string).

Definition cDollar : ascii := ascii_of_N 36.
Definition placeholder (name : string) : string := "${" +:+ name +:+ "}".

(** A template: a text, then placeholders, each with the text behind it. *)
Definition template (t0 : string) (vars : list (string * string)) : string :=
  t0 +:+ foldr (fun '(n, t) s => placeholder n +:+ t +:+ s) "" vars.

(** What it should expand to; the value of an unknown variable is the placeholder itself. *)
Definition expansion (t0 : string) (vars : list (string * string)) : string :=
  t0 +:+ foldr (fun '(n, t) s => default (placeholder n) (lookup n) +:+ t +:+ s) "" vars.

Definition var_ok (v : string * string) : Prop :=
  v.1 ≠ "" ∧ Forall (fun b => name_rune b = true) (bytes_of_string v.1) ∧ count_char cDollar v.2 = 0.

Abbreviation toks := [TLit 36; TLit 123; TName; TLit 125].

Lemma compile_braces : compile "${%s}" = Some toks.
Proof. vm_compute. reflexivity. Qed.

Lemma name_rune_ascii b : name_rune b = true → (b < 0x80)%N.
Proof. unfold name_rune, between. rewrite !orb_true_iff, !andb_true_iff, !N.leb_le, !N.eqb_eq. lia. Qed.

Lemma decode_names bs rest :
  Forall (fun b => name_rune b = true) bs → decode (bs ++ rest) = (Good <$> bs) ++ decode rest.
Proof. induction 1 as [|b bs Hb _ IH]; [done|]. cbn [app]. rewrite decode_1, IH by (by apply name_rune_ascii). done. Qed.

Lemma run_length_names bs rest :
  Forall (fun b => name_rune b = true) bs → run_length ((Good <$> bs) ++ Good 125 :: rest) = length bs.
Proof. induction 1 as [|b bs Hb _ IH]; [done|]. cbn [fmap list_fmap app run_length chunk_rune]. rewrite Hb. simpl. by f_equal. Qed.

Lemma match_placeholder bs rest :
  bs ≠ [] → Forall (fun b => name_rune b = true) bs →
  match_at toks (Good 36 :: Good 123 :: (Good <$> bs) ++ Good 125 :: rest) = Some (length bs + 3, [Good <$> bs]).
Proof.
  intros Hne Hbs. cbn [match_at chunk_rune N.eqb Pos.eqb]. rewrite run_length_names by done.
  destruct bs as [|b bs]; [done|]. set (n := length (b :: bs)). assert (Hn : n = length (Good <$> b :: bs)) by (by rewrite length_fmap).
  assert (HS : n = S (length bs)) by done. rewrite HS at 1. cbn [backtrack]. rewrite <- HS. rewrite Hn, drop_app_length, take_app_length.
  cbn [match_at chunk_rune N.eqb Pos.eqb fmap option_fmap option_map]. do 2 f_equal. lia.
Qed.

Lemma text_names bs : Forall (fun b => name_rune b = true) bs → text (Good <$> bs) = string_of_bytes bs.
Proof.
  intros Hbs. unfold text. f_equal. induction Hbs as [|b bs Hb _ IH]; [done|]. rewrite fmap_cons, bind_cons, IH.
  cbn [chunk_bytes]. unfold EncodeRune. by rewrite (proj2 (N.leb_le _ _)) by (apply name_rune_ascii in Hb; lia).
Qed.

Lemma text_app a b : text (a ++ b) = text a +:+ text b.
Proof. unfold text. by rewrite bind_app, string_of_bytes_app. Qed.

(** Text without a dollar is copied. *)
Lemma replace_matches_text cs rest fuel :
  (36%N ∉ chunk_rune <$> cs) → length cs <= fuel →
  replace_matches lookup fuel toks (cs ++ rest) = text cs +:+ replace_matches lookup (fuel - length cs) toks rest.
Proof.
  revert fuel. induction cs as [|c cs IH]; intros fuel Hn Hf; [by rewrite Nat.sub_0_r|]. destruct fuel as [|fuel]; [simpl in Hf; lia|].
  rewrite fmap_cons in Hn. apply not_elem_of_cons in Hn as [Hc Hn]. cbn [app replace_matches match_at].
  rewrite (proj2 (N.eqb_neq _ _)) by congruence. rewrite IH by (done || (simpl in Hf; lia)).
  change (c :: cs) with ([c] ++ cs). rewrite text_app, <- sapp_assoc. done.
Qed.

Lemma replacement_placeholder bs :
  bs ≠ [] → Forall (fun b => name_rune b = true) bs →
  replacement lookup toks (Good 36 :: Good 123 :: (Good <$> bs) ++ [Good 125])
  = default (placeholder (string_of_bytes bs)) (lookup (string_of_bytes bs)).
Proof.
  intros Hne Hbs. unfold replacement. cbn [find_submatch]. rewrite match_placeholder by done. rewrite text_names by done.
  destruct (lookup _); [done|]. simpl.
  change (Good 36 :: Good 123 :: (Good <$> bs) ++ [Good 125]) with ([Good 36; Good 123] ++ (Good <$> bs) ++ [Good 125]).
  by rewrite !text_app, text_names.
Qed.

Lemma no_dollar_rune t : count_char cDollar t = 0 → 36%N ∉ chunk_rune <$> chunks t.
Proof. intros Ht Hin. apply count_char_none in Ht. apply Ht. by apply decode_ascii_elem in Hin. Qed.

(** The chunks of a template. *)
Lemma chunks_template t0 n t vars :
  Forall (fun b => name_rune b = true) (bytes_of_string n) →
  chunks (template t0 ((n, t) :: vars))
  = chunks t0 ++ Good 36 :: Good 123 :: (Good <$> bytes_of_string n) ++ Good 125 :: chunks (template t vars).
Proof.
  intros Hn. unfold template, chunks, placeholder. cbn [foldr]. rewrite bytes_of_string_app.
  rewrite <- !sapp_assoc, !bytes_of_string_app. cbn [bytes_of_string app]. rewrite decode_app_ascii by done.
  rewrite decode_1, decode_names by done. by rewrite decode_1 by done.
Qed.

Lemma replace_template vars t0 fuel :
  count_char cDollar t0 = 0 → Forall var_ok vars → length (chunks (template t0 vars)) <= fuel →
  replace_matches lookup fuel toks (chunks (template t0 vars)) = expansion t0 vars.
Proof.
  intros Ht0 Hvars. revert t0 fuel Ht0. induction Hvars as [|[n t] vars (Hne & Hn & Ht) _ IH]; intros t0 fuel Ht0 Hf.
  { unfold template, expansion in *. cbn [foldr] in *. rewrite sapp_nil_r in *. rewrite <- (app_nil_r (chunks t0)).
    rewrite replace_matches_text by (done || by apply no_dollar_rune). rewrite text_chunks.
    destruct (fuel - length (chunks t0)); by rewrite sapp_nil_r. }
  rewrite chunks_template in * by done. rewrite length_app in Hf.
  rewrite replace_matches_text by (lia || by apply no_dollar_rune). rewrite text_chunks.
  cbn [fst snd] in *. set (bs := bytes_of_string n) in *.
  assert (Hbs : bs ≠ []) by (by subst bs; destruct n). cbn [length] in Hf. rewrite length_app, length_fmap in Hf. cbn [length] in Hf.
  destruct (fuel - length (chunks t0)) as [|fuel'] eqn:Hfuel; [lia|]. cbn [replace_matches].
  rewrite match_placeholder by done. replace (length bs + 3) with (S (length bs + 2)) by lia.
  set (all := Good 36 :: _). assert (Hall : all = (Good 36 :: Good 123 :: (Good <$> bs) ++ [Good 125]) ++ chunks (template t vars)).
  { subst all. cbn [app]. by rewrite <- (assoc_L (++)). }
  assert (Hlen : S (length bs + 2) = length (Good 36 :: Good 123 :: (Good <$> bs) ++ [Good 125])).
  { cbn [length]. rewrite length_app, length_fmap. simpl. lia. }
  rewrite Hall, Hlen, take_app_length, drop_app_length, replacement_placeholder by done. rewrite IH by (done || lia).
  subst bs. rewrite string_of_bytes_of_string. done.
Qed.

(** [ReplaceEnvVars] with the pattern [${%s}] expands every placeholder of
    a template to the variable's value, leaves the placeholder of an unknown
    variable as it is, copies the text between them byte for byte (invalid
    UTF-8 included), and does not expand placeholders inside the values. *)
Theorem ReplaceEnvVars_expands (t0 : string) (vars : list (string * string)) :
  count_char cDollar t0 = 0 → Forall var_ok vars →
  ReplaceEnvVars lookup (template t0 vars) "${%s}" = Some (expansion t0 vars).
Proof. intros Ht0 Hvars. unfold ReplaceEnvVars. rewrite compile_braces. simpl. f_equal. by apply replace_template. Qed.
End placeholders.

Lemma ReplaceEnvVars_expands_witness :
  ReplaceEnvVars (fun k => if decide (k = "HOST") then Some "${PORT}" else None) "http://${HOST}:${P-1}/" "${%s}"
  = Some "http://${PORT}:${P-1}/".
Proof.
  assert (Hvars : Forall var_ok [("HOST", ":"); ("P-1", "/")]).
  { repeat constructor; done. }
  exact (ReplaceEnvVars_expands (fun k => if decide (k = "HOST") then Some "${PORT}" else None) "http://"
           [("HOST", ":"); ("P-1", "/")] eq_refl Hvars).
Defined.

(** ** Overlapping operations

    [GetEnvironmentVariable] takes no lock: its cache read, its read of the
    process environment and its cache write are three separate steps, and an
    [UnsetEnvironmentVariable] or [SetEnvironmentVariable] (whose two updates
    are made under [s.lock]) may run between them. *)
Module Race.

(** Where a goroutine is in its operation. *)
Inductive env_pc :=
  | GetLoad (key : string) | GetLookup (key : string) | GetStore (key value : string) | GetDone (r : option string)
  | UnsetLock (key : string) | UnsetOs (key : string) | UnsetCache (key : string) | UnsetUnlock | UnsetDone
  | SetLock (key value : string) | SetOs (key value : string) | SetCache (key value : string) | SetUnlock (e : option string)
  | SetDone (e : option string).

(** The service, whether [s.lock] is held, and the goroutines. *)
Record env_sys := mkSys { srv : env_service; locked : bool; threads : list env_pc }.

Definition store (key value : string) (s : env_service) : env_service := mkService (<[key := value]> (envMap s)) (loaded s) (os s).
Definition uncache (key : string) (s : env_service) : env_service := mkService (delete key (envMap s)) (loaded s) (os s).
Definition with_os (s : env_service) (o : environ) : env_service := mkService (envMap s) (loaded s) o.

(** One atomic step of a goroutine: its next position, the service and the lock after it. *)
Inductive move : env_pc → env_service → bool → env_pc → env_service → bool → Prop :=
  | mv_load_hit k v s l : envMap s !! k = Some v → move (GetLoad k) s l (GetDone (Some v)) s l
  | mv_load_miss k s l : envMap s !! k = None → move (GetLoad k) s l (GetLookup k) s l
  | mv_lookup_hit k v s l : LookupEnv (os s) k = Some v → move (GetLookup k) s l (GetStore k v) s l
  | mv_lookup_miss k s l : LookupEnv (os s) k = None → move (GetLookup k) s l (GetDone None) s l
  | mv_store k v s l : move (GetStore k v) s l (GetDone (Some v)) (store k v s) l
  | mv_unset_lock k s : move (UnsetLock k) s false (UnsetOs k) s true
  | mv_unset_os k s l : move (UnsetOs k) s l (UnsetCache k) (with_os s (Unsetenv k (os s))) l
  | mv_unset_cache k s l : move (UnsetCache k) s l UnsetUnlock (uncache k s) l
  | mv_unset_unlock s l : move UnsetUnlock s l UnsetDone s false
  | mv_set_lock k v s : move (SetLock k v) s false (SetOs k v) s true
  | mv_set_os k v o s l : Setenv k v (os s) = Ok o → move (SetOs k v) s l (SetCache k v) (with_os s o) l
  | mv_set_os_err k v e s l : Setenv k v (os s) = Err e → move (SetOs k v) s l (SetUnlock (Some e)) s l
  | mv_set_cache k v s l : move (SetCache k v) s l (SetUnlock None) (store k v s) l
  | mv_set_unlock e s l : move (SetUnlock e) s l (SetDone e) s false.

Inductive env_step : env_sys → env_sys → Prop :=
  | step_move i p p' s s' l l' ts :
      ts !! i = Some p → move p s l p' s' l' → env_step (mkSys s l ts) (mkSys s' l' (<[i := p']> ts)).
End Race.
Import Race.

Lemma step_to i p p' s s' l l' ts ts' :
  ts !! i = Some p → move p s l p' s' l' → <[i := p']> ts = ts' → env_step (mkSys s l ts) (mkSys s' l' ts').
Proof. intros ?? <-. by eapply step_move. Qed.

Ltac thread_step i := eapply (step_to i); [reflexivity|econstructor; (eassumption || reflexivity)|reflexivity].

(** Run alone, the atomic steps are the operations. *)
Lemma get_alone k s :
  rtc env_step (mkSys s false [GetLoad k])
    (mkSys (GetEnvironmentVariable k s).2 false [GetDone (GetEnvironmentVariable k s).1]).
Proof.
  unfold GetEnvironmentVariable. destruct (envMap s !! k) as [v|] eqn:Hk.
  { apply rtc_once. thread_step 0. }
  eapply rtc_l; [thread_step 0|]. destruct (LookupEnv (os s) k) as [v|] eqn:Hl.
  - eapply rtc_l; [thread_step 0|].
    apply rtc_once. thread_step 0.
  - apply rtc_once. thread_step 0.
Qed.

Lemma unset_alone k s :
  rtc env_step (mkSys s false [UnsetLock k]) (mkSys (UnsetEnvironmentVariable k s) false [UnsetDone]).
Proof.
  eapply rtc_l; [thread_step 0|].
  eapply rtc_l; [thread_step 0|].
  eapply rtc_l; [thread_step 0|].
  apply rtc_once. thread_step 0.
Qed.

(** Overlapping, they are not: for every variable of the process there is an
    interleaving of one read and one removal, both of which complete, after
    which the variable is gone from the process and every later read through
    the service still returns its old value. *)
Theorem unset_may_not_take_effect raw k v :
  os_ok raw → LookupEnv raw k = Some v →
  ∃ s, rtc env_step (mkSys (Ctor raw) false [GetLoad k; UnsetLock k]) (mkSys s false [GetDone (Some v); UnsetDone]) ∧
    LookupEnv (os s) k = None ∧ GetEnvironmentVariable k s = (Some v, s).
Proof.
  intros Hok Hv. exists (mkService {[k := v]} false (Unsetenv k raw)). split; [|split].
  - eapply rtc_l; [thread_step 0|].
    eapply rtc_l; [thread_step 0|].
    eapply rtc_l; [thread_step 1|].
    eapply rtc_l; [thread_step 1|].
    eapply rtc_l; [thread_step 1|].
    eapply rtc_l; [thread_step 1|].
    apply rtc_once. thread_step 0.
  - cbn [os]. unfold LookupEnv. rewrite find_entry_filter. by destruct (decide (k = "")), (decide (k = k)).
  - unfold GetEnvironmentVariable. cbn [envMap]. by rewrite lookup_singleton_eq.
Qed.
