(* ===== verification/Base64.v ===== *)
(** * [encoding/base64]

    The encodings the code uses for secrets, passwords, cookies and NATS
    tokens: [StdEncoding], [URLEncoding] and [RawURLEncoding], with Go's decoder
    (line breaks are skipped, padding is checked, trailing bits are not), and
    the round trip. *)
From Stdlib Require Import Ascii.
From stdpp Require Import strings.
From S2P Require Import Prelude GoText.
From stdpp Require Import options.

Local Open Scope N_scope.

(** An encoding: its alphabet and whether it pads with [=]. *)
Record Encoding := mkEncoding { alphabet : string; padded : bool }.

Definition letters : string := "ABCDEFGHIJKLMNOPQRSTUVWXYZabcdefghijklmnopqrstuvwxyz0123456789".
Definition StdEncoding : Encoding := mkEncoding (letters +:+ "+/") true.
Definition URLEncoding : Encoding := mkEncoding (letters +:+ "-_") true.
Definition RawURLEncoding : Encoding := mkEncoding (letters +:+ "-_") false.

Definition pad : ascii := ascii_of_N 61.

Section encoding.
Context (enc : Encoding).

(** The character of six bits, and back. *)
Definition enc_char (v : N) : ascii := default pad (String.get (N.to_nat v) (alphabet enc)).

Fixpoint index_of (c : ascii) (s : string) (i : N) : option N :=
  match s with
  | EmptyString => None
  | String c' s' => if Ascii.eqb c c' then Some i else index_of c s' (i + 1)
  end.
Definition dec_char (c : ascii) : option N := index_of c (alphabet enc) 0.

(** [EncodeToString]. *)
Fixpoint EncodeToString (src : list N) : string :=
  match src with
  | [] => ""
  | [b0] =>
      let tail := if padded enc then String pad (String pad "") else "" in
      String (enc_char (b0 / 4)) (String (enc_char (b0 mod 4 * 16)) tail)
  | [b0; b1] =>
      let tail := if padded enc then String pad "" else "" in
      String (enc_char (b0 / 4)) (String (enc_char (b0 mod 4 * 16 + b1 / 16)) (String (enc_char (b1 mod 16 * 4)) tail))
  | b0 :: b1 :: b2 :: src' =>
      String (enc_char (b0 / 4)) (String (enc_char (b0 mod 4 * 16 + b1 / 16))
        (String (enc_char (b1 mod 16 * 4 + b2 / 64)) (String (enc_char (b2 mod 64)) (EncodeToString src'))))
  end.

Definition newline (c : ascii) : bool := let n := N_of_ascii c in (n =? 13) || (n =? 10).
Fixpoint strip (s : string) : string :=
  match s with EmptyString => "" | String c s' => if newline c then strip s' else String c (strip s') end.

(** The bytes of a quantum of 2, 3 or 4 characters. *)
Definition bytes2 (v0 v1 : N) : list N := [v0 * 4 + v1 / 16].
Definition bytes3 (v0 v1 v2 : N) : list N := [v0 * 4 + v1 / 16; v1 mod 16 * 16 + v2 / 4].
Definition bytes4 (v0 v1 v2 v3 : N) : list N := [v0 * 4 + v1 / 16; v1 mod 16 * 16 + v2 / 4; v2 mod 4 * 64 + v3].

Definition is_pad (c : ascii) : bool := padded enc && Ascii.eqb c pad.

(** The decoder on a text without line breaks; [None] is [CorruptInputError]. *)
Fixpoint decode_quanta (s : string) : option (list N) :=
  match s with
  | EmptyString => Some []
  | String c0 s1 =>
    match s1 with
    | EmptyString => None
    | String c1 s2 =>
      v0 ← dec_char c0; v1 ← dec_char c1;
      match s2 with
      | EmptyString => if padded enc then None else Some (bytes2 v0 v1)
      | String c2 s3 =>
        if is_pad c2 then
          match s3 with String c3 EmptyString => if is_pad c3 then Some (bytes2 v0 v1) else None | _ => None end
        else
          v2 ← dec_char c2;
          match s3 with
          | EmptyString => if padded enc then None else Some (bytes3 v0 v1 v2)
          | String c3 s4 =>
            if is_pad c3 then match s4 with EmptyString => Some (bytes3 v0 v1 v2) | _ => None end
            else v3 ← dec_char c3; app (bytes4 v0 v1 v2 v3) <$> decode_quanta s4
          end
      end
    end
  end.

Definition DecodeString (s : string) : option (list N) := decode_quanta (strip s).
End encoding.

(** The encodings are usable: 64 different characters, no padding or line break among them. *)
Definition alphabet_ok (enc : Encoding) : bool :=
  forallb (fun n => let v := N.of_nat n in let c := enc_char enc v in
     bool_decide (dec_char enc c = Some v) && negb (newline c) && negb (Ascii.eqb c pad)) (seq 0 64).

(** ** The round trip *)
Lemma StdEncoding_ok : alphabet_ok StdEncoding = true.
Proof. vm_compute. reflexivity. Qed.
Lemma URLEncoding_ok : alphabet_ok URLEncoding = true.
Proof. vm_compute. reflexivity. Qed.
Lemma RawURLEncoding_ok : alphabet_ok RawURLEncoding = true.
Proof. vm_compute. reflexivity. Qed.

Section roundtrip.
Context (enc : Encoding) (Hok : alphabet_ok enc = true).

Lemma alphabet_char v :
  v < 64 → dec_char enc (enc_char enc v) = Some v ∧ newline (enc_char enc v) = false ∧ is_pad enc (enc_char enc v) = false.
Proof using Hok.
  intros Hv. unfold alphabet_ok in Hok. rewrite forallb_Forall, Forall_forall in Hok.
  specialize (Hok (N.to_nat v)). cbv zeta in Hok. rewrite N2Nat.id in Hok.
  rewrite !andb_true_iff, !negb_true_iff, bool_decide_eq_true in Hok. destruct Hok as [[H1 H2] H3].
  { apply elem_of_seq. lia. }
  repeat split; [done..|]. unfold is_pad. by rewrite H3, andb_false_r.
Qed.

Lemma pad_facts : newline pad = false ∧ is_pad enc pad = padded enc.
Proof. split; [done|]. unfold is_pad. by rewrite Ascii.eqb_refl, andb_true_r. Qed.

(** Six-bit arithmetic. *)
Local Ltac bits := zify; Z.to_euclidean_division_equations; lia.

Lemma bytes4_split b0 b1 b2 :
  b0 < 256 → b1 < 256 → b2 < 256 →
  bytes4 (b0 / 4) (b0 mod 4 * 16 + b1 / 16) (b1 mod 16 * 4 + b2 / 64) (b2 mod 64) = [b0; b1; b2].
Proof. intros. unfold bytes4. repeat f_equal; bits. Qed.

Lemma bytes3_split b0 b1 :
  b0 < 256 → b1 < 256 → bytes3 (b0 / 4) (b0 mod 4 * 16 + b1 / 16) (b1 mod 16 * 4) = [b0; b1].
Proof. intros. unfold bytes3. repeat f_equal; bits. Qed.

Lemma bytes2_split b0 : b0 < 256 → bytes2 (b0 / 4) (b0 mod 4 * 16) = [b0].
Proof. intros. unfold bytes2. repeat f_equal; bits. Qed.

(** Induction by groups of three bytes, as the encoder works. *)
Lemma three_ind (P : list N → Prop) :
  P [] → (∀ a, P [a]) → (∀ a b, P [a; b]) → (∀ a b c l, P l → P (a :: b :: c :: l)) → ∀ l, P l.
Proof.
  intros H0 H1 H2 H3 l. enough (H : P l ∧ (∀ a, P (a :: l)) ∧ (∀ a b, P (a :: b :: l))) by apply H.
  induction l as [|x l (IH0 & IH1 & IH2)]; [by auto|]. repeat split; auto.
Qed.

Local Ltac plain v :=
  let H := fresh in assert (H : v < 64) by bits; rewrite (proj1 (proj2 (alphabet_char v H))); clear H.

Lemma strip_encoded src : Forall (fun b => b < 256) src → strip (EncodeToString enc src) = EncodeToString enc src.
Proof using Hok.
  induction src as [|b0|b0 b1|b0 b1 b2 src IH] using three_ind; [done|..]; rewrite !Forall_cons; intros Hb;
    cbn [EncodeToString strip].
  all: plain (b0 / 4).
  - plain (b0 mod 4 * 16). by destruct (padded enc).
  - plain (b0 mod 4 * 16 + b1 / 16). plain (b1 mod 16 * 4). by destruct (padded enc).
  - plain (b0 mod 4 * 16 + b1 / 16). plain (b1 mod 16 * 4 + b2 / 64). plain (b2 mod 64). by rewrite IH by tauto.
Qed.

Local Ltac quantum v :=
  let H := fresh in assert (H : v < 64) by bits;
  let H1 := fresh in let H3 := fresh in destruct (alphabet_char v H) as (H1 & _ & H3); rewrite ?H1, ?H3; clear H H1 H3.

(** Decoding an encoded byte string gives it back. *)
Lemma DecodeString_EncodeToString src :
  Forall (fun b => b < 256) src → DecodeString enc (EncodeToString enc src) = Some src.
Proof using Hok.
  intros Hsrc. unfold DecodeString. rewrite strip_encoded by done. revert Hsrc. destruct pad_facts as [_ Hpad].
  induction src as [|b0|b0 b1|b0 b1 b2 src IH] using three_ind; [done|..]; rewrite !Forall_cons; intros Hb;
    cbn [EncodeToString decode_quanta]; quantum (b0 / 4).
  - quantum (b0 mod 4 * 16). cbn [mbind option_bind]. rewrite bytes2_split by tauto.
    destruct (padded enc) eqn:Hp; [|done]. by rewrite Hpad, ?Hp.
  - quantum (b0 mod 4 * 16 + b1 / 16). quantum (b1 mod 16 * 4). cbn [mbind option_bind]. rewrite bytes3_split by tauto.
    destruct (padded enc) eqn:Hp; [|done]. by rewrite Hpad, ?Hp.
  - quantum (b0 mod 4 * 16 + b1 / 16). quantum (b1 mod 16 * 4 + b2 / 64). quantum (b2 mod 64). cbn [mbind option_bind].
    rewrite bytes4_split by tauto. by rewrite IH by tauto.
Qed.

(** The length of a text without padding. *)
Lemma raw_length src :
  padded enc = false → String.length (EncodeToString enc src) = ((4 * length src + 2) / 3)%nat.
Proof.
  intros Hp. induction src as [|b0|b0 b1|b0 b1 b2 src IH] using three_ind; try (simpl; rewrite ?Hp; reflexivity).
  cbn [EncodeToString String.length length]. rewrite IH.
  replace (4 * S (S (S (length src))) + 2)%nat with (4 * length src + 2 + 4 * 3)%nat by lia.
  rewrite Nat.div_add by lia. lia.
Qed.
End roundtrip.
