(* ===== verification/Sessions.v ===== *)
(** * Web sessions

    The session layer of the echo web stack: the cookie options and lifetimes of
    [echo/internal/storeopts], the MongoDB session store of
    [echo/gorilla/sessions/mongostore], the store wrappers of
    [echo/services/sessions/cookie_session_store] and [memory_session_store],
    the per-request session objects of [cookie_session] and [memory_session],
    and [session_factory].

    Not under src/, and so parameters with the laws their documentation states:
    [gorilla/securecookie] (class [Multi]: [EncodeMulti] and [DecodeMulti], with
    the lifetime of signed values), [rs/xid] (class [Xid]: ids are valid and
    unique) and [gorilla/sessions] stores and registry (class [GorillaStore]).
    The Mongo collection is a map from [_id] to documents next to the failure
    the driver reports when the database is unavailable. *)
From stdpp Require Import gmap strings.
From S2P Require Import Prelude.
From stdpp Require Import options.

(** ** Errors *)
Inductive scode := InvalidArgument | NotFound | Internal.
Inductive serror :=
  | StatusErr (c : scode) (msg : string)
  | CookieErr (decode : bool) (msg : string)   (* a [securecookie.Error]; [IsDecode()] *)
  | ErrInvalidId
  | ErrNoCookie
  | PlainErr (msg : string).

#[global] Instance scode_eq_dec : EqDecision scode.
Proof. solve_decision. Defined.
#[global] Instance serror_eq_dec : EqDecision serror.
Proof. solve_decision. Defined.

(** [status.Code(err) == codes.NotFound]. *)
Definition is_not_found (err : serror) : bool :=
  match err with StatusErr NotFound _ => true | _ => false end.

(** [sessionutil.IsUnreadableCookie]. *)
Definition IsUnreadableCookie (err : serror) : bool :=
  match err with CookieErr decode _ => decode | _ => false end.

(** ** Store options ([storeopts]) *)
Inductive SameSite := SameSiteUnset | SameSiteDefault | SameSiteLax | SameSiteStrict | SameSiteNone.
#[global] Instance SameSite_eq_dec : EqDecision SameSite.
Proof. solve_decision. Defined.

Record SessionOptions := mkSessionOptions {
  o_Path : string; o_Domain : string; o_MaxAge : Z; o_Secure : bool; o_HttpOnly : bool; o_SameSite : SameSite }.

Record SessionConfig := mkConfig {
  EncryptionKey : string; AuthenticationKey : string; Domain : string; MaxAge : Z; Insecure : bool; c_SameSite : SameSite }.

(** A codec: [*securecookie.SecureCookie] with its [maxAge], or another implementation. *)
Inductive codec (K : Type) := SecureCookie (key : K) (maxAge : Z) | OtherCodec (key : K).
Arguments SecureCookie {K}. Arguments OtherCodec {K}.

Definition DefaultSignedValueMaxAgeSeconds : Z := 86400.

Section storeopts.
Context {K : Type}.

Definition SetMaxAge (opts : SessionOptions) (codecs : list (codec K)) (age : Z) : SessionOptions * list (codec K) :=
  let validity := if (age <=? 0)%Z then DefaultSignedValueMaxAgeSeconds else age in
  (mkSessionOptions (o_Path opts) (o_Domain opts) age (o_Secure opts) (o_HttpOnly opts) (o_SameSite opts),
   (fun c => match c with SecureCookie k _ => SecureCookie k validity | OtherCodec k => OtherCodec k end) <$> codecs).

Definition Apply (opts : SessionOptions) (codecs : list (codec K)) (config : SessionConfig) : SessionOptions * list (codec K) :=
  let sameSite := if decide (c_SameSite config = SameSiteUnset) then SameSiteLax else c_SameSite config in
  SetMaxAge (mkSessionOptions (o_Path opts) (Domain config) (o_MaxAge opts) (negb (Insecure config)) true sameSite)
            codecs (MaxAge config).
End storeopts.

(** ** Libraries *)

(** How long the codecs accept a value signed at [at_]: [maxAge] 0 is for ever. *)
Definition codec_accepts {K} (now at_ : Z) (c : codec K) : Prop :=
  match c with SecureCookie _ maxAge => maxAge = 0%Z ∨ (now - at_ <= maxAge)%Z | OtherCodec _ => True end.
Definition codec_refuses {K} (now at_ : Z) (c : codec K) : Prop :=
  match c with SecureCookie _ maxAge => (0 < maxAge < now - at_)%Z | OtherCodec _ => False end.

(** [securecookie.EncodeMulti] and [DecodeMulti] at one type of values: what was
    encoded decodes under the same name and codecs while it is fresh; when it is
    too old for every codec, the decoding fails with a decode error. *)
Class Multi (K A : Type) := {
  EncodeMulti : Z → string → A → list (codec K) → result serror string;
  DecodeMulti : Z → string → string → list (codec K) → result serror A;
  multi_roundtrip now at_ name v codecs s :
    EncodeMulti at_ name v codecs = Ok s → Forall (codec_accepts now at_) codecs → (at_ <= now)%Z →
    DecodeMulti now name s codecs = Ok v;
  multi_expired now at_ name v codecs s :
    EncodeMulti at_ name v codecs = Ok s → codecs ≠ [] → Forall (codec_refuses now at_) codecs →
    ∃ msg, DecodeMulti now name s codecs = Err (CookieErr true msg) }.

(** [rs/xid]: the n-th id generated, and the check of [xid.FromString]. *)
Class Xid := {
  xid_New : nat → string;
  VerifyID : string → bool;
  xid_valid n : VerifyID (xid_New n) = true;
  xid_empty : VerifyID "" = false;
  xid_unique m n : xid_New m = xid_New n → m = n }.

(** [securecookie.CodecsFromPairs]: secure cookies, one per pair of keys. *)
Class CodecPairs (K : Type) := {
  CodecsFromPairs : list string → list (codec K);
  pairs_secure keys : Forall (fun c => match c with SecureCookie _ _ => True | OtherCodec _ => False end) (CodecsFromPairs keys) }.

(** ** The MongoDB session store *)
Module Mongo.
Section store.
Context {K U : Type}.

(** A value of a session: a [time.Time], or anything else. *)
Inductive session_value := VTime (t : Z) | VOther (u : U).
Definition Values : Type := gmap string session_value.

Record Session := mkSession { ID : string; s_Values : Values; s_Options : SessionOptions; IsNew : bool; s_name : string }.

(** A document; [Corrupt]: one that does not decode as a session. *)
Inductive document := Document (Data : string) (Modified : Z) | Corrupt (msg : string).

(** The collection, the error of the driver when Mongo does not answer, the ids
    generated so far and the clock. *)
Record session_world := mkWorld { coll : gmap string document; failure : option string; issued : nat; now : Z }.

Record MongoStore := mkStore { Codecs : list (codec K); m_Options : SessionOptions }.

(** A cookie handed to [http.SetCookie]. *)
Record Cookie := mkCookie { ck_name : string; ck_value : string; ck_options : SessionOptions }.
Definition request : Type := gmap string string.

Context `{HI : Multi K string} `{HV : Multi K Values} `{HX : Xid} `{HP : CodecPairs K}.

Definition MongoStore_MaxAge (m : MongoStore) (age : Z) : MongoStore :=
  let '(opts, codecs) := SetMaxAge (m_Options m) (Codecs m) age in mkStore codecs opts.

Definition NewMongoStore (maxAge : Z) (keyPairs : list string) : MongoStore :=
  MongoStore_MaxAge (mkStore (CodecsFromPairs keyPairs) (mkSessionOptions "/" "" maxAge false true SameSiteLax)) maxAge.

Definition GetToken (r : request) (name : string) : result serror string :=
  match r !! name with Some v => Ok v | None => Err ErrNoCookie end.

Definition SetToken (name v : string) (options : SessionOptions) : Cookie := mkCookie name v options.

(** The result of [FindOne]. *)
Definition FindOne (w : session_world) (id : string) : result serror document :=
  match failure w with
  | Some e => Err (PlainErr e)
  | None => match coll w !! id with
            | None => Err (StatusErr NotFound "not found")
            | Some d => Ok d
            end
  end.

Definition load (m : MongoStore) (w : session_world) (session : Session) : result serror Session :=
  if negb (VerifyID (ID session)) then Err ErrInvalidId
  else d ← FindOne w (ID session);
       match d with
       | Corrupt msg => Err (PlainErr msg)
       | Document data _ =>
           vs ← DecodeMulti (now w) (s_name session) data (Codecs m);
           Ok (mkSession (ID session) vs (s_Options session) (IsNew session) (s_name session))
       end.

Definition with_id (session : Session) (id : string) : Session :=
  mkSession id (s_Values session) (s_Options session) (IsNew session) (s_name session).

Definition loadExisting (m : MongoStore) (w : session_world) (session : Session) : Session * option serror :=
  match load m w session with
  | Ok s => (mkSession (ID s) (s_Values s) (s_Options s) false (s_name s), None)
  | Err err =>
      if is_not_found err || bool_decide (err = ErrInvalidId) then (with_id session "", None)
      else (with_id session "", Some err)
  end.

Definition New (m : MongoStore) (w : session_world) (r : request) (name : string) : Session * option serror :=
  let session := mkSession "" ∅ (m_Options m) true name in
  match GetToken r name with
  | Err _ => (session, None)
  | Ok cook =>
      match DecodeMulti (now w) name cook (Codecs m) with
      | Err err => (with_id session "", Some err)
      | Ok id => loadExisting m w (with_id session id)
      end
  end.

(** [Get]: through the registry of the request, which hands out the session
    registered for a name, or registers the one [New] gives. *)
Definition MongoStore_Get (registry_Get : string → Session * option serror → Session * option serror)
    (m : MongoStore) (w : session_world) (r : request) (name : string) : Session * option serror :=
  registry_Get name (New m w r name).

(** Replace or delete the document of an id. *)
Definition with_coll (w : session_world) (f : gmap string document → gmap string document) : result serror session_world :=
  match failure w with
  | Some e => Err (PlainErr e)
  | None => Ok (mkWorld (f (coll w)) None (issued w) (now w))
  end.

Definition upsert (m : MongoStore) (w : session_world) (session : Session) : result serror session_world :=
  if negb (VerifyID (ID session)) then Err ErrInvalidId
  else modified ← match s_Values session !! "modified" with
                  | Some (VTime t) => Ok t
                  | Some (VOther _) => Err (PlainErr "mongostore: invalid modified value")
                  | None => Ok (now w)
                  end;
       encoded ← EncodeMulti (now w) (s_name session) (s_Values session) (Codecs m);
       with_coll w (insert (ID session) (Document encoded modified)).

Definition delete_session (w : session_world) (session : Session) : result serror session_world :=
  if negb (VerifyID (ID session)) then Err ErrInvalidId else with_coll w (delete (ID session)).

(** [Save]: the world, the session (its id may be new), the cookie set and the error. *)
Definition Save (m : MongoStore) (w : session_world) (session : Session)
    : session_world * Session * option Cookie * option serror :=
  if (o_MaxAge (s_Options session) <? 0)%Z then
    match delete_session w session with
    | Err e => (w, session, None, Some e)
    | Ok w' => (w', session, Some (SetToken (s_name session) "" (s_Options session)), None)
    end
  else
    let '(w, session) :=
      if decide (ID session = "")
      then (mkWorld (coll w) (failure w) (S (issued w)) (now w), with_id session (xid_New (issued w)))
      else (w, session) in
    match upsert m w session with
    | Err e => (w, session, None, Some e)
    | Ok w' =>
        match EncodeMulti (now w) (s_name session) (ID session) (Codecs m) with
        | Err e => (w', session, None, Some e)
        | Ok encoded => (w', session, Some (SetToken (s_name session) encoded (s_Options session)), None)
        end
    end.
End store.
End Mongo.

(** ** Stores, session objects and the factory *)
Module Web.
Section web.
(** [W]: the request being served and the stores behind it; [V]: the values of a session. *)
Context {W V : Type}.

(** The values of the session objects, by reference ([*sessions.Session]). *)
Definition heap : Type := gmap nat (gmap string V).
Definition state : Type := W * heap.

(** [ISessionStore] (and gorilla's [sessions.Store]) for the current request. *)
Record Store := mkWebStore {
  st_New : string → state → (option nat * option serror) * state;
  st_Get : string → state → (option nat * option serror) * state;
  st_Save : nat → state → option serror * state }.

(** [cookie_session_store] and [memory_session_store]: the wrappers of a gorilla store. *)
Definition wrapper_New (st : Store) (name : string) (w : state) : (option nat * option serror) * state :=
  let '((session, err), w) := st_New st name w in
  match session with Some s => ((Some s, None), w) | None => ((None, err), w) end.

Definition wrapper_Get (st : Store) (name : string) (w : state) : (option nat * option serror) * state :=
  let '((session, err), w) := st_Get st name w in
  match err with Some e => ((None, Some e), w) | None => ((session, None), w) end.

Definition wrapper_Save (st : Store) (gs : nat) (w : state) : option serror * state := st_Save st gs w.

Definition wrapped (st : Store) : Store := mkWebStore (wrapper_New st) (wrapper_Get st) (wrapper_Save st).

(** [validateSessionConfig] of both stores. *)
Definition validateSessionConfig (config : option SessionConfig) : option serror :=
  match config with
  | None => Some (StatusErr InvalidArgument "config is required")
  | Some c =>
      if decide (EncryptionKey c = "") then Some (StatusErr InvalidArgument "config.EncryptionKey is required")
      else if decide (AuthenticationKey c = "") then Some (StatusErr InvalidArgument "config.AuthenticationKey is required")
      else if decide (Domain c = "") then Some (StatusErr InvalidArgument "config.Domain is required")
      else None
  end.

(** The options and codecs of the stores' [Ctor]s, from the options and codecs
    that [gorilla_sessions.NewCookieStore] and [memstore.NewMemStore] start with. *)
Definition cookie_store_Ctor {K} (NewCookieStore : list string → SessionOptions * list (codec K)) (config : option SessionConfig)
    : result serror (SessionOptions * list (codec K)) :=
  match validateSessionConfig config, config with
  | None, Some c =>
      let '(opts, codecs) :=
        if Insecure c then NewCookieStore [AuthenticationKey c]
        else NewCookieStore [AuthenticationKey c; EncryptionKey c] in
      Ok (Apply opts codecs c)
  | Some e, _ => Err e
  | None, None => Err (StatusErr InvalidArgument "config is required")
  end.

Definition memory_store_Ctor {K} (NewMemStore : list string → SessionOptions * list (codec K)) (config : option SessionConfig)
    : result serror (SessionOptions * list (codec K)) :=
  match validateSessionConfig config, config with
  | None, Some c => let '(opts, codecs) := NewMemStore [AuthenticationKey c; EncryptionKey c] in Ok (Apply opts codecs c)
  | Some e, _ => Err e
  | None, None => Err (StatusErr InvalidArgument "config is required")
  end.

(** A session object ([cookie_session.service], [memory_session.service]). *)
Record session_service := mkService { contextAccessor : bool; session : option nat; Name : string }.
Definition session_Ctor : session_service := mkService false None "".

Record InitializeRequest := mkInit { r_Name : string; r_EchoContextAccessor : bool }.

Definition validateInitializeRequest (request : option InitializeRequest) : option serror :=
  match request with
  | None => Some (StatusErr InvalidArgument "request is required")
  | Some r =>
      if negb (r_EchoContextAccessor r) then Some (StatusErr InvalidArgument "request.EchoContextAccessor is required")
      else if decide (r_Name r = "") then Some (StatusErr InvalidArgument "request.Name is required")
      else None
  end.

Definition Initialize (st : Store) (s : session_service) (request : option InitializeRequest) (w : state)
    : option serror * session_service * state :=
  match validateInitializeRequest request, request with
  | Some e, _ => (Some e, s, w)
  | None, Some r =>
      let '((sess, err), w) := st_Get st (r_Name r) w in
      let s := mkService true sess (r_Name r) in
      match err with
      | Some e => if bool_decide (sess = None) || negb (IsUnreadableCookie e) then (Some e, s, w) else (None, s, w)
      | None => (None, s, w)
      end
  | None, None => (None, s, w)
  end.

(** [Set], [Get], [Save] and [New]; [None]: the nil session is dereferenced. *)
Definition session_Set (s : session_service) (key : string) (v : V) (w : state) : option state :=
  r ← session s; vs ← w.2 !! r; Some (w.1, <[r := <[key := v]> vs]> w.2).

Definition session_Get (s : session_service) (key : string) (w : state) : option (result serror V) :=
  r ← session s; vs ← w.2 !! r;
  Some (match vs !! key with Some v => Ok v | None => Err (StatusErr NotFound "key not found") end).

Definition session_Save (st : Store) (s : session_service) (w : state) : option (option serror * state) :=
  r ← session s; Some (st_Save st r w).

Definition session_New (st : Store) (s : session_service) (w : state) : option serror * session_service * state :=
  let '((newSession, err), w) := st_New st (Name s) w in
  match err with
  | Some e => (Some e, s, w)
  | None => (None, mkService (contextAccessor s) newSession (Name s), w)
  end.

(** [session_factory]: the session objects of one request, by name. *)
Record factory := mkFactory { cookieSessions : gmap string nat; backendSessions : gmap string nat; objects : list session_service }.

Definition factory_Ctor : factory := mkFactory ∅ ∅ [].

(** A session object is resolved from the container (a transient) and initialized. *)
Definition open_session (st : Store) (name : string) (f : factory) (w : state) : result serror session_service * state :=
  let '(err, obj, w) := Initialize st session_Ctor (Some (mkInit name true)) w in
  match err with Some e => (Err e, w) | None => (Ok obj, w) end.

Definition GetCookieSession (st : Store) (name : string) (f : factory) (w : state) : result serror nat * factory * state :=
  match cookieSessions f !! name with
  | Some dd => (Ok dd, f, w)
  | None =>
      match open_session st name f w with
      | (Err e, w) => (Err e, f, w)
      | (Ok obj, w) =>
          let i := length (objects f) in
          (Ok i, mkFactory (<[name := i]> (cookieSessions f)) (backendSessions f) (objects f ++ [obj]), w)
      end
  end.

Definition GetBackendSession (st : Store) (name : string) (f : factory) (w : state) : result serror nat * factory * state :=
  match backendSessions f !! name with
  | Some dd => (Ok dd, f, w)
  | None =>
      match open_session st name f w with
      | (Err e, w) => (Err e, f, w)
      | (Ok obj, w) =>
          let i := length (objects f) in
          (Ok i, mkFactory (cookieSessions f) (<[name := i]> (backendSessions f)) (objects f ++ [obj]), w)
      end
  end.
End web.
End Web.

(** ** Theorems *)

(** *** Lifetimes and options *)
Section lifetimes.
Context {K : Type}.

(** How long a store set to [age] accepts signed values. *)
Definition validity (age : Z) : Z := if (age <=? 0)%Z then DefaultSignedValueMaxAgeSeconds else age.

Lemma validity_pos age : (0 < validity age)%Z.
Proof. unfold validity, DefaultSignedValueMaxAgeSeconds. destruct (Z.leb_spec age 0); lia. Qed.

Definition lives (age : Z) (c : codec K) : Prop :=
  match c with SecureCookie _ maxAge => maxAge = validity age | OtherCodec _ => False end.
Definition is_secure (c : codec K) : Prop := match c with SecureCookie _ _ => True | OtherCodec _ => False end.

Lemma SetMaxAge_lives opts (codecs : list (codec K)) age :
  Forall is_secure codecs → Forall (lives age) (SetMaxAge opts codecs age).2.
Proof. intros Hs. unfold SetMaxAge. simpl. apply Forall_fmap. eapply Forall_impl; [exact Hs|]. by intros []. Qed.

Lemma lives_secure age (codecs : list (codec K)) : Forall (lives age) codecs → Forall is_secure codecs.
Proof. intros H. eapply Forall_impl; [exact H|]. by intros []. Qed.

Lemma lives_accepts age t at_ (codecs : list (codec K)) :
  Forall (lives age) codecs → (t - at_ <= validity age)%Z → Forall (codec_accepts t at_) codecs.
Proof. intros H Ht. eapply Forall_impl; [exact H|]. intros [k ma|k]; [|done]. simpl. intros ->. by right. Qed.

Lemma lives_refuses age t at_ (codecs : list (codec K)) :
  Forall (lives age) codecs → (validity age < t - at_)%Z → Forall (codec_refuses t at_) codecs.
Proof.
  intros H Ht. eapply Forall_impl; [exact H|]. intros [k ma|k]; [|done]. simpl. intros ->. pose proof (validity_pos age). lia.
Qed.

(** What a store should be, given its configuration. *)
Definition hardened (config : option SessionConfig) (r : result serror (SessionOptions * list (codec K))) : Prop :=
  match r with
  | Ok (opts, codecs) => ∃ c, config = Some c ∧ EncryptionKey c ≠ "" ∧ AuthenticationKey c ≠ "" ∧
      o_HttpOnly opts = true ∧ o_SameSite opts ≠ SameSiteUnset ∧ o_Secure opts = negb (Insecure c) ∧
      o_Domain opts = Domain c ∧ o_MaxAge opts = MaxAge c ∧ Forall (lives (MaxAge c)) codecs
  | Err e => ∃ msg, e = StatusErr InvalidArgument msg
  end.

Lemma Apply_hardened c start :
  EncryptionKey c ≠ "" → AuthenticationKey c ≠ "" → Forall is_secure start.2 →
  hardened (Some c) (let '(opts, codecs) := start in Ok (Apply opts codecs c)).
Proof.
  intros He Ha Hs. destruct start as [opts codecs]. exists c. unfold Apply. cbv zeta.
  repeat split; try done; [unfold SetMaxAge; simpl; case_decide; congruence|]. by apply (SetMaxAge_lives opts).
Qed.

(** the options the session stores (cookie and in-memory) give their
    cookies: whatever a valid configuration says, the cookie is [HttpOnly], its
    [SameSite] is never left unset, it is [Secure] unless the configuration is
    marked insecure, and the signed value has a positive lifetime even when
    [MaxAge] is 0 or negative; an incomplete configuration gives no store. *)
Theorem session_cookies_hardened (NewStore : list string → SessionOptions * list (codec K)) (config : option SessionConfig) :
  (∀ keys, Forall is_secure (NewStore keys).2) →
  hardened config (Web.cookie_store_Ctor NewStore config) ∧ hardened config (Web.memory_store_Ctor NewStore config).
Proof.
  intros Hsec. unfold Web.cookie_store_Ctor, Web.memory_store_Ctor, Web.validateSessionConfig.
  destruct config as [c|]; [|by split; eexists]. repeat case_decide; [by split; eexists..|].
  split; apply Apply_hardened; try done. by case_match.
Qed.
End lifetimes.

Lemma session_cookies_hardened_witness :
  let store := fun keys : list string => (mkSessionOptions "/" "" 2592000 false false SameSiteUnset, (fun k => SecureCookie k 2592000) <$> keys) in
  Web.cookie_store_Ctor store (Some (mkConfig "enc" "auth" "example.com" 0 false SameSiteUnset))
  = Ok (mkSessionOptions "/" "example.com" 0 true true SameSiteLax, [SecureCookie "auth" 86400; SecureCookie "enc" 86400]%Z).
Proof.
  intros store.
  pose proof (session_cookies_hardened store (Some (mkConfig "enc" "auth" "example.com" 0 false SameSiteUnset))) as H.
  assert (Hs : ∀ keys, Forall is_secure (store keys).2) by (intros keys; apply Forall_fmap, Forall_true; done).
  destruct (H Hs) as [Hc _]. vm_compute in Hc |- *. destruct Hc. reflexivity.
Defined.

(** *** The MongoDB store *)
Section mongo.
Import Mongo.
Context {K U : Type} `{HI : Multi K string} `{HV : Multi K (@Values U)} `{HX : Xid} `{HP : CodecPairs K}.

(** Every stored session has an id that was generated. *)
Definition session_world_ok (w : session_world) : Prop := ∀ id, is_Some (coll w !! id) → ∃ n, n < issued w ∧ id = xid_New n.

Lemma xid_New_ne n : xid_New n ≠ "".
Proof using HX. intros He. pose proof (xid_valid n) as Hv. rewrite He, xid_empty in Hv. done. Qed.

Lemma load_Ok m w s s' :
  load m w s = Ok s' → VerifyID (ID s) = true ∧ ∃ d t vs, failure w = None ∧ coll w !! ID s = Some (Document d t) ∧
    DecodeMulti (now w) (s_name s) d (Codecs m) = Ok vs ∧ s' = mkSession (ID s) vs (s_Options s) (IsNew s) (s_name s).
Proof.
  unfold load, FindOne. destruct (VerifyID (ID s)); [|done]. cbn [negb]. destruct (failure w); [done|].
  destruct (coll w !! ID s) as [[d t|]|]; try done. cbn [mbind result_bind].
  destruct (DecodeMulti _ _ _ _) as [vs|] eqn:Hd; [|done]. intros [= <-]. split; [done|]. by exists d, t, vs.
Qed.

(** What [New] hands out. *)
Lemma New_cases m w (r : request) name s err :
  New m w r name = (s, err) →
  (ID s = "" ∧ IsNew s = true ∧ s_Values s = ∅) ∨
  (err = None ∧ IsNew s = false ∧ s_name s = name ∧ VerifyID (ID s) = true ∧ ∃ cook d t, r !! name = Some cook ∧
     DecodeMulti (now w) name cook (Codecs m) = Ok (ID s) ∧ coll w !! ID s = Some (Document d t) ∧
     DecodeMulti (now w) name d (Codecs m) = Ok (s_Values s)).
Proof.
  unfold New, GetToken. destruct (r !! name) as [cook|] eqn:Hr; [|intros; simplify_eq; by left].
  destruct (DecodeMulti (now w) name cook (Codecs m)) as [id|e] eqn:Hd; [|intros; simplify_eq; by left].
  unfold loadExisting. destruct (load m w _) as [s1|e] eqn:Hl; [|case_match; intros; simplify_eq; by left].
  intros ?. simplify_eq. right. apply load_Ok in Hl as (Hv & d & t & vs & _ & Hc & Hdv & ->). simpl in *.
  repeat split; [done|]. by exists cook, d, t.
Qed.

Lemma with_coll_Ok w f w' : with_coll w f = Ok w' → w' = mkWorld (f (coll w)) None (issued w) (now w) ∧ failure w = None.
Proof. unfold with_coll. destruct (failure w); [done|]. by intros [= <-]. Qed.

Lemma upsert_Ok m w s w' :
  upsert m w s = Ok w' → VerifyID (ID s) = true ∧ ∃ enc t, EncodeMulti (now w) (s_name s) (s_Values s) (Codecs m) = Ok enc ∧
    failure w = None ∧ w' = mkWorld (<[ID s := Document enc t]> (coll w)) None (issued w) (now w).
Proof.
  unfold upsert. destruct (VerifyID (ID s)); [|done]. cbn [negb].
  destruct (match s_Values s !! "modified" with Some (VTime t) => _ | Some _ => _ | None => _ end) as [t|]; [|done].
  cbn [mbind result_bind]. destruct (EncodeMulti _ _ _ _) as [enc|]; [|done]. intros [-> ?]%with_coll_Ok.
  split; [done|]. by exists enc, t.
Qed.

(** C17: a session id is never taken from outside: [New] gives a session with an
    id only if the request's cookie decodes to it and the store still holds a
    readable document under it, and hands out the values of that document; in
    every other case (no cookie, a tampered or expired one, a document that is
    gone, a malformed id, an unavailable database) the session is new and
    empty, and saving it writes under a freshly generated id: no stored session
    changes, so a stale or planted cookie cannot name the new session and an
    outage cannot make an empty session replace a stored one. *)
Theorem session_ids_not_fixable m w (r : request) name s err :
  session_world_ok w → New m w r name = (s, err) →
  if decide (ID s = "")
  then IsNew s = true ∧ s_Values s = ∅ ∧
    ∀ s' w' s'' ck e, ID s' = ID s → (0 <= o_MaxAge (s_Options s'))%Z → Save m w s' = (w', s'', ck, e) →
      ID s'' = xid_New (issued w) ∧ coll w !! ID s'' = None ∧ session_world_ok w' ∧
      ∀ id, is_Some (coll w !! id) → coll w' !! id = coll w !! id
  else err = None ∧ IsNew s = false ∧ ∃ cook d t, r !! name = Some cook ∧
     DecodeMulti (now w) name cook (Codecs m) = Ok (ID s) ∧ coll w !! ID s = Some (Document d t) ∧
     DecodeMulti (now w) name d (Codecs m) = Ok (s_Values s).
Proof using HX.
  intros Hw Hnew. apply New_cases in Hnew as [(HID & Hn & Hvs)|(-> & Hn & _ & Hv & Hc)].
  2: { rewrite decide_False; [done|]. intros He. rewrite He, xid_empty in Hv. done. }
  rewrite decide_True by done. split; [done|]. split; [done|]. intros s' w' s'' ck e HID' Hage HS.
  rewrite HID in HID'. assert (Hfresh : coll w !! xid_New (issued w) = None).
  { apply eq_None_not_Some. intros (n & Hlt & Heq%xid_unique)%Hw. lia. }
  unfold Save in HS. rewrite (proj2 (Z.ltb_ge _ _)), decide_True in HS by done.
  set (w0 := mkWorld _ _ (S _) _) in HS. set (s0 := with_id s' _) in HS.
  assert (Hw0 : session_world_ok w0) by (intros id (n & ? & ?)%Hw; exists n; split; [simpl; lia|done]).
  destruct (upsert m w0 s0) as [w1|] eqn:Hu; [|by simplify_eq].
  assert (HS' : w' = w1 ∧ s'' = s0) by (destruct (EncodeMulti _ _ _ _); by simplify_eq). destruct HS' as [-> ->].
  apply upsert_Ok in Hu as (_ & enc & t & _ & _ & ->). cbn [coll w0 s0 with_id ID]. repeat split; [done| |].
  - intros id Hid. cbn [coll] in Hid. destruct (decide (id = xid_New (issued w))) as [-> |Hne].
    + exists (issued w). cbn [issued w0]. split; [lia|done].
    + rewrite lookup_insert_ne in Hid by congruence. by apply Hw0.
  - intros id Hid. apply lookup_insert_ne. intros <-. rewrite Hfresh in Hid. by destruct Hid.
Qed.

(** A saved session can be read back. *)
Lemma New_after_save m w w' s enc t cook at_ (r : request) :
  VerifyID (ID s) = true → coll w' !! ID s = Some (Document enc t) → failure w' = None →
  r !! s_name s = Some cook → EncodeMulti at_ (s_name s) (ID s) (Codecs m) = Ok cook →
  EncodeMulti at_ (s_name s) (s_Values s) (Codecs m) = Ok enc → w = w' → (at_ <= now w)%Z →
  Forall (codec_accepts (now w) at_) (Codecs m) →
  New m w r (s_name s) = (mkSession (ID s) (s_Values s) (m_Options m) false (s_name s), None).
Proof.
  intros Hv Hc Hf Hr He Hev -> Hat Hfresh. unfold New, GetToken. rewrite Hr, (multi_roundtrip _ _ _ _ _ _ He Hfresh Hat).
  unfold loadExisting, load, FindOne. cbn [with_id ID s_name]. rewrite Hv, Hf, Hc. cbn [negb mbind result_bind].
  by rewrite (multi_roundtrip _ _ _ _ _ _ Hev Hfresh Hat).
Qed.

(** Saving works: the new world, the session with its id and the cookie. *)
Lemma Save_succeeds m w s vs_enc id_enc :
  let id := if decide (ID s = "") then xid_New (issued w) else ID s in
  (0 <= o_MaxAge (s_Options s))%Z → failure w = None → VerifyID id = true →
  (∀ u, s_Values s !! "modified" ≠ Some (VOther u)) →
  EncodeMulti (now w) (s_name s) (s_Values s) (Codecs m) = Ok vs_enc →
  EncodeMulti (now w) (s_name s) id (Codecs m) = Ok id_enc →
  ∃ w' t, Save m w s = (w', with_id s id, Some (mkCookie (s_name s) id_enc (s_Options s)), None) ∧
    coll w' !! id = Some (Document vs_enc t) ∧ failure w' = None ∧ now w' = now w.
Proof.
  intros id Hage Hf Hv Hmod Hvs Hid. unfold Save. rewrite (proj2 (Z.ltb_ge _ _)) by done. subst id.
  assert (Hup : ∀ w0, failure w0 = None → now w0 = now w → ∃ w' t,
    upsert m w0 (with_id s (if decide (ID s = "") then xid_New (issued w) else ID s)) = Ok w' ∧
    coll w' !! (if decide (ID s = "") then xid_New (issued w) else ID s) = Some (Document vs_enc t) ∧
    failure w' = None ∧ now w' = now w).
  { intros w0 Hf0 Hn0. unfold upsert. cbn [with_id ID s_Values s_name]. rewrite Hv. cbn [negb].
    destruct (s_Values s !! "modified") as [[t|u]|] eqn:Hm; [| |]; cbn [mbind result_bind];
      [|by destruct (Hmod u)|]; rewrite Hn0, Hvs; cbn [mbind result_bind]; unfold with_coll; rewrite Hf0;
      eexists _, _; (split; [reflexivity|]); cbn [coll failure now]; rewrite lookup_insert_eq; done. }
  destruct (decide (ID s = "")) as [He|Hne].
  - destruct (Hup (mkWorld (coll w) (failure w) (S (issued w)) (now w)) Hf eq_refl) as (w' & t & Hu & Hc & Hf' & Hn').
    exists w', t. rewrite Hu. cbn [now with_id s_name ID s_Options]. by rewrite Hid.
  - destruct (Hup w Hf eq_refl) as (w' & t & Hu & Hc & Hf' & Hn'). exists w', t.
    replace (with_id s (ID s)) with s in * by (by destruct s). rewrite Hu, Hid. done.
Qed.

(** C18: a session survives the round trip through the browser and the
    database: saving a session (new, or loaded before) succeeds when the
    database answers and the values can be encoded, and a later request that
    brings back the cookie, within the lifetime of signed values and with the
    document still stored, gets a session with the same id and the same values
    that is not new. *)
Theorem session_roundtrip m age w s vs_enc id_enc :
  let id := if decide (ID s = "") then xid_New (issued w) else ID s in
  Forall (lives age) (Codecs m) → (0 <= o_MaxAge (s_Options s))%Z → failure w = None → VerifyID id = true →
  (∀ u, s_Values s !! "modified" ≠ Some (VOther u)) →
  EncodeMulti (now w) (s_name s) (s_Values s) (Codecs m) = Ok vs_enc →
  EncodeMulti (now w) (s_name s) id (Codecs m) = Ok id_enc →
  ∃ w' s' ck, Save m w s = (w', s', Some ck, None) ∧
    ∀ w2 (r : request), coll w2 !! id = coll w' !! id → failure w2 = None →
      r !! s_name s = Some (ck_value ck) → (now w <= now w2 <= now w + validity age)%Z →
      New m w2 r (s_name s) = (mkSession id (s_Values s) (m_Options m) false (s_name s), None).
Proof.
  intros id Hl Hage Hf Hv Hmod Hvs Hid.
  destruct (Save_succeeds m w s vs_enc id_enc Hage Hf Hv Hmod Hvs Hid) as (w' & t & HS & Hc & _ & _).
  exists w', (with_id s id), (mkCookie (s_name s) id_enc (s_Options s)). split; [exact HS|].
  intros w2 r Hc2 Hf2 Hr Ht. fold id in Hc. rewrite Hc in Hc2.
  apply (New_after_save m w2 w2 (with_id s id) vs_enc t id_enc (now w) r); try done; [lia|].
  eapply lives_accepts; [done|lia].
Qed.

(** *** Signed values expire *)
Lemma MaxAge_lives (m : @MongoStore K) age : Forall is_secure (Codecs m) → Forall (lives age) (Codecs (MongoStore_MaxAge m age)).
Proof. intros Hs. unfold MongoStore_MaxAge. apply (SetMaxAge_lives (m_Options m) _ age Hs). Qed.

Lemma MaxAges_live a ages keys :
  Forall (lives (List.last (a :: ages) 0%Z)) (Codecs (foldl MongoStore_MaxAge (NewMongoStore (K := K) a keys) ages)).
Proof.
  assert (H0 : Forall (lives a) (Codecs (NewMongoStore (K := K) a keys))).
  { apply MaxAge_lives. eapply Forall_impl; [apply (pairs_secure keys)|]. by intros []. }
  revert H0. generalize (NewMongoStore (K := K) a keys) as m. revert a. induction ages as [|b ages IH]; intros a m Hm; [done|].
  cbn [foldl]. replace (List.last (a :: b :: ages) 0%Z) with (List.last (b :: ages) 0%Z) by done.
  apply IH, MaxAge_lives. by eapply lives_secure.
Qed.

Lemma foldl_MaxAge_length ages (m : @MongoStore K) : length (Codecs (foldl MongoStore_MaxAge m ages)) = length (Codecs m).
Proof.
  revert m. induction ages as [|b ages IH]; intros m; [done|]. cbn [foldl]. rewrite IH. apply length_fmap.
Qed.

(** C19: signed session cookies always expire: whatever lifetimes the store is
    created with and set to later (0 and negative ones included), a cookie is
    refused once it is older than the last lifetime set, or than a day when
    that was not positive: the request gets a new session without an id and an
    unreadable-cookie error. *)
Theorem session_cookies_expire a ages keys w (r : request) name (id : string) cook at_ :
  let m := foldl MongoStore_MaxAge (NewMongoStore (K := K) a keys) ages in
  CodecsFromPairs (K := K) keys ≠ [] → EncodeMulti at_ name id (Codecs m) = Ok cook → r !! name = Some cook →
  (validity (List.last (a :: ages) 0%Z) < now w - at_)%Z →
  ∃ s err, New m w r name = (s, Some err) ∧ ID s = "" ∧ IsNew s = true ∧ s_Values s = ∅ ∧ IsUnreadableCookie err = true.
Proof.
  intros m Hkeys He Hr Ht. assert (Hne : Codecs m ≠ []).
  { intros Hm. apply (f_equal length) in Hm. unfold m in Hm. rewrite foldl_MaxAge_length in Hm.
    cbn [NewMongoStore MongoStore_MaxAge SetMaxAge Codecs] in Hm. rewrite length_fmap in Hm. by destruct (CodecsFromPairs keys). }
  destruct (multi_expired (now w) at_ name id (Codecs m) cook He Hne) as [msg Hmsg].
  { eapply lives_refuses; [apply MaxAges_live|done]. }
  unfold New, GetToken. rewrite Hr, Hmsg. by eexists _, _.
Qed.

(** *** What the store refuses *)

(** Removing a session whose document is gone fails, and no cookie is set: [New]
    gives it no id, so [delete] does not accept it. *)
Theorem removing_a_lost_session_fails m w (r : request) name s err s' :
  New m w r name = (s, err) → ID s = "" → ID s' = ID s → (o_MaxAge (s_Options s') < 0)%Z →
  Save m w s' = (w, s', None, Some ErrInvalidId).
Proof.
  intros _ HID HID' Hage. unfold Save. rewrite (proj2 (Z.ltb_lt _ _)) by done. unfold delete_session.
  by rewrite HID', HID, xid_empty.
Qed.
End mongo.

(** *** Session objects *)
Section web.
Import Web.
Context {W V : Type}.

(** A store's documented answer to a cookie it cannot decode is a fresh session
    next to the error.  On such a store a session object carries on with the
    fresh session; through the wrapper of this package, which drops the session
    when there is an error, the same request fails. *)
Theorem unreadable_cookie_locks_out (st : @Store W V) s name w ref err w' :
  name ≠ "" → st_Get st name w = ((Some ref, Some err), w') → IsUnreadableCookie err = true →
  Initialize st s (Some (mkInit name true)) w = (None, mkService true (Some ref) name, w') ∧
  Initialize (wrapped st) s (Some (mkInit name true)) w = (Some err, mkService true None name, w').
Proof.
  intros Hname Hget Herr. unfold Initialize. cbn [validateInitializeRequest r_EchoContextAccessor r_Name negb].
  rewrite decide_False by done. cbn [wrapped st_Get]. unfold wrapper_Get. rewrite Hget. split; [|done].
  by rewrite Herr.
Qed.

(** The objects of a request's factory: a name that was opened gives the same
    object again, without asking the store. *)
Lemma GetCookieSession_cached (st st' : @Store W V) name f w i f' w' w2 :
  GetCookieSession st name f w = (Ok i, f', w') → GetCookieSession st' name f' w2 = (Ok i, f', w2).
Proof.
  unfold GetCookieSession at 1. destruct (cookieSessions f !! name) as [j|] eqn:Hf.
  { intros. simplify_eq. unfold GetCookieSession. by rewrite Hf. }
  destruct (open_session st name f w) as [[obj|] w1]; [|done]. intros. simplify_eq.
  unfold GetCookieSession. cbn [cookieSessions]. by rewrite lookup_insert_eq.
Qed.

(** A value set in a session is read back from it. *)
Lemma Set_session_Get s key (v : V) (w w' : @state W V) :
  session_Set s key v w = Some w' → session_Get s key w' = Some (Ok v) ∧ (∀ key', key' ≠ key → session_Get s key' w' = session_Get s key' w).
Proof.
  unfold session_Set, session_Get. destruct (session s) as [r|]; [|done]. simpl. destruct (w.2 !! r) as [vs|] eqn:Hr; [|done]. simpl.
  intros [= <-]. cbn [snd]. unfold heap. rewrite lookup_insert_eq. cbn [mbind option_bind]. rewrite lookup_insert_eq.
  split; [done|]. intros key' Hne. by rewrite lookup_insert_ne.
Qed.
End web.

(** ** Concrete libraries

    A signing library that writes the time, the name and the value into the
    token, and ids in unary: they satisfy the documented laws, and the theorems
    apply to the stores built on them. *)
Module Toy.
Import Mongo.

Fixpoint bits (p : positive) : string :=
  match p with xH => "" | xO p => String.String (Ascii.ascii_of_N 48) (bits p) | xI p => String.String (Ascii.ascii_of_N 49) (bits p) end%positive.
Fixpoint unbits (s : string) : positive :=
  match s with
  | String.EmptyString => 1
  | String.String c s' => if Ascii.eqb c (Ascii.ascii_of_N 48) then xO (unbits s') else xI (unbits s')
  end%positive.

Lemma unbits_bits p : unbits (bits p) = p.
Proof. induction p as [p IH|p IH|]; [| |done]; simpl; by rewrite IH. Qed.

Definition too_old (now at_ : Z) (c : codec unit) : bool :=
  match c with SecureCookie _ maxAge => (0 <? maxAge)%Z && (maxAge <? now - at_)%Z | OtherCodec _ => false end.

Definition enc `{Countable A} (at_ : Z) (name : string) (v : A) (codecs : list (codec unit)) : result serror string :=
  Ok (bits (encode (at_, name, v))).

Definition dec `{Countable A} (now : Z) (name s : string) (codecs : list (codec unit)) : result serror A :=
  match decode (unbits s) with
  | Some (at_, name', v) =>
      if decide (name' = name)
      then match codecs with
           | [] => Ok v
           | _ => if forallb (too_old now at_) codecs then Err (CookieErr true "expired timestamp") else Ok v
           end
      else Err (CookieErr true "the value is not valid")
  | None => Err (CookieErr true "the value is not valid")
  end.

Lemma enc_dec `{Countable A} now at_ name (v : A) codecs s :
  enc at_ name v codecs = Ok s →
  dec now name s codecs = match codecs with
                          | [] => Ok v
                          | _ => if forallb (too_old now at_) codecs then Err (CookieErr true "expired timestamp") else Ok v
                          end.
Proof. intros [= <-]. unfold dec. rewrite unbits_bits, decode_encode. by rewrite decide_True. Qed.

#[global, program] Instance toy_multi `{Countable A} : Multi unit A := {| EncodeMulti := enc; DecodeMulti := dec |}.
Next Obligation.
  intros A ?? now at_ name v codecs s Hs Hall _. rewrite (enc_dec now _ _ _ _ _ Hs). destruct codecs as [|c codecs]; [done|].
  apply Forall_cons in Hall as [Hc _]. cbn [forallb]. replace (too_old now at_ c) with false; [done|].
  destruct c as [k ma|k]; [|done]. simpl in *. symmetry. apply andb_false_iff. rewrite !Z.ltb_ge. lia.
Qed.
Next Obligation.
  intros A ?? now at_ name v codecs s Hs Hne Hall. rewrite (enc_dec now _ _ _ _ _ Hs). destruct codecs as [|c codecs]; [done|].
  replace (forallb (too_old now at_) (c :: codecs)) with true; [by eexists|]. symmetry. apply forallb_Forall.
  eapply Forall_impl; [exact Hall|]. intros [k ma|k]; [|done]. simpl. rewrite andb_true_iff, !Z.ltb_lt. lia.
Qed.

Fixpoint unary (n : nat) : string := match n with O => "" | S n => String.String (Ascii.ascii_of_N 120) (unary n) end.

Lemma unary_length n : String.length (unary n) = n.
Proof. induction n as [|n IH]; [done|]. simpl. by rewrite IH. Qed.

#[global, program] Instance toy_xid : Xid := {| xid_New n := unary (S n); VerifyID s := bool_decide (s ≠ "") |}.
Next Obligation. done. Qed.
Next Obligation. done. Qed.
Next Obligation. intros m n Heq. apply (f_equal String.length) in Heq. rewrite !unary_length in Heq. congruence. Qed.

#[global, program] Instance toy_pairs : CodecPairs unit := {| CodecsFromPairs keys := (fun _ => SecureCookie tt 2592000) <$> keys |}.
Next Obligation. intros keys. apply Forall_fmap, Forall_true. done. Qed.

#[global] Instance value_eq_dec : EqDecision (@session_value unit).
Proof. solve_decision. Defined.
#[global, program] Instance value_countable : Countable (@session_value unit) :=
  inj_countable' (fun v => match v with VTime t => inl t | VOther u => inr u end)
                 (fun x => match x with inl t => VTime t | inr u => VOther u end) _.
Next Obligation. by intros []. Qed.
#[global] Instance Values_eq_dec : EqDecision (@Values unit).
Proof. unfold Values. apply _. Defined.
#[global] Instance Values_countable : Countable (@Values unit).
Proof. unfold Values. apply _. Defined.

Definition demo_store : @MongoStore unit := NewMongoStore 3600 ["key"].
Definition demo_values : @Values unit := {["user" := VOther tt; "modified" := VTime 7]}.
Definition demo_session : @Session unit := mkSession "" demo_values (m_Options demo_store) true "sid".
Definition demo_world : session_world := mkWorld ∅ None 0 1000.
End Toy.

Section witnesses.
Import Mongo Toy.

Lemma session_roundtrip_witness :
  ∃ w' s' ck, Save demo_store demo_world demo_session = (w', s', Some ck, None) ∧
    ∀ w2 (r : request), coll w2 !! "x" = coll w' !! "x" → failure w2 = None → r !! "sid" = Some (ck_value ck) →
      (1000 <= now w2 <= 4600)%Z →
      New demo_store w2 r "sid" = (mkSession "x" demo_values (m_Options demo_store) false "sid", None).
Proof.
  assert (Hl : Forall (lives 3600) (Codecs demo_store)) by (repeat constructor).
  exact (session_roundtrip demo_store 3600 demo_world demo_session _ _ Hl ltac:(done) eq_refl eq_refl ltac:(done) eq_refl eq_refl).
Defined.

Lemma session_ids_not_fixable_witness :
  New demo_store demo_world {["sid" := "planted"]} "sid"
  = (mkSession "" ∅ (m_Options demo_store) true "sid", Some (CookieErr true "the value is not valid")) ∧
  ∀ s' w' s'' ck e, ID s' = "" → (0 <= o_MaxAge (s_Options s'))%Z → Save demo_store demo_world s' = (w', s'', ck, e) → ID s'' = "x".
Proof.
  assert (Hn : New demo_store demo_world {["sid" := "planted"]} "sid"
    = (mkSession "" ∅ (m_Options demo_store) true "sid", Some (CookieErr true "the value is not valid"))).
  { vm_compute. reflexivity. }
  split; [exact Hn|]. assert (Hw : session_world_ok demo_world) by (intros id [? Hid]; done).
  destruct (session_ids_not_fixable demo_store demo_world _ "sid" _ _ Hw Hn) as (_ & _ & HS).
  intros s' w' s'' ck e HID Hage Hsave. destruct (HS s' w' s'' ck e HID Hage Hsave) as [Hid _]. exact Hid.
Defined.

Lemma session_cookies_expire_witness :
  ∃ s err, New (foldl MongoStore_MaxAge (NewMongoStore 3600 ["key"]) [0%Z]) (mkWorld ∅ None 0 90000)
             {["sid" := bits (encode (1000%Z, "sid", "x"))]} "sid" = (s, Some err) ∧
    ID s = "" ∧ IsNew s = true ∧ s_Values s = (∅ : @Values unit) ∧ IsUnreadableCookie err = true.
Proof.
  apply (session_cookies_expire 3600 [0%Z] ["key"] (mkWorld ∅ None 0 90000) {["sid" := bits (encode (1000%Z, "sid", "x"))]}
           "sid" "x" (bits (encode (1000%Z, "sid", "x"))) 1000%Z).
  - done.
  - reflexivity.
  - reflexivity.
  - done.
Defined.
End witnesses.
