(* ===== verification/Secrets.v ===== *)
(** * Client secrets, passwords and redaction

    [utils/oauth2_secrets.go] (generation, hashing and verification of OAuth2
    client secrets), [utils/passwords.go], [password/xkcd.go] (pass phrases) and
    [utils/redact/redact.go].

    Parameters: [argon2id] (class [Argon2id], with the laws of its
    documentation), SHA-256 and HMAC (class [Digests]: 32 bytes), [float64]
    arithmetic (class [Float], no law assumed), the random source (the bytes or
    numbers a call draws) and the iteration order of Go maps (one order per
    call). *)
From Stdlib Require Import Ascii.
From stdpp Require Import gmap strings pretty.
From S2P Require Import Prelude GoText Base64.
From stdpp Require Import options.

(** ** Libraries *)

(** [float64], with [%.2f]. *)
Class Float := {
  F : Type;
  f_zero : F;
  f_three_and_a_half : F;
  f_of_nat : nat → F;
  fdiv : F → F → F;
  fmul : F → F → F;
  fsub : F → F → F;
  flog2 : F → F;
  flt : F → F → bool;
  f_text : F → string }.

(** [crypto/sha256] and [crypto/hmac]: digests of 32 bytes. *)
Class Digests := {
  Sum256 : list N → list N;
  hmac256 : list N → list N → list N;
  Sum256_bytes m : length (Sum256 m) = 32 ∧ Forall (fun b => b < 256)%N (Sum256 m);
  hmac256_bytes k m : length (hmac256 k m) = 32 ∧ Forall (fun b => b < 256)%N (hmac256 k m) }.

(** [alexedwards/argon2id]: a hash made with a salt is a PHC string that matches its password. *)
Class Argon2id := {
  Params : Type;
  DefaultParams : Params;
  CreateHash : list N → string → Params → result string string;
  ComparePasswordAndHash : string → string → result string bool;
  CreateHash_prefix salt pw p h : CreateHash salt pw p = Ok h → strings_HasPrefix h "$argon2id$" = true;
  CreateHash_matches salt pw p h : CreateHash salt pw p = Ok h → ComparePasswordAndHash pw h = Ok true }.

(** ** OAuth2 client secrets *)
Definition minSecretLen : Z := 32.
Definition PrefixSHA256 : string := "$sha256$".
Definition PrefixHMACSHA256 : string := "$hmac-sha256$".
Definition PrefixArgon2id : string := "$argon2id$".

Inductive HashAlgorithm := HashAlgorithmUnknown | HashAlgorithmSHA256 | HashAlgorithmHMACSHA256 | HashAlgorithmArgon2id.
#[global] Instance HashAlgorithm_eq_dec : EqDecision HashAlgorithm.
Proof. solve_decision. Defined.

Definition HashAlgorithm_String (a : HashAlgorithm) : string :=
  match a with
  | HashAlgorithmSHA256 => "sha256"
  | HashAlgorithmHMACSHA256 => "hmac-sha256"
  | HashAlgorithmArgon2id => "argon2id"
  | HashAlgorithmUnknown => "unknown"
  end.

Definition DetectHashAlgorithm (hash : string) : HashAlgorithm :=
  if strings_HasPrefix hash PrefixSHA256 then HashAlgorithmSHA256
  else if strings_HasPrefix hash PrefixHMACSHA256 then HashAlgorithmHMACSHA256
  else if strings_HasPrefix hash PrefixArgon2id then HashAlgorithmArgon2id
  else HashAlgorithmUnknown.

(** [subtle.ConstantTimeCompare(x, y) == 1]. *)
Definition ConstantTimeCompare (x y : string) : bool := bool_decide (x = y).

Section secrets.
Context `{HF : Float} `{HD : Digests} `{HA : Argon2id}.

Record ClientSecret := mkClientSecret {
  cs_Secret : string; cs_HashSHA256 : string; cs_HashHMAC : string; cs_HashArgon2id : string }.

Record OAuth2Secrets := mkSecrets {
  HMACKey : list N; Argon2idParams : option Params; SkipEntropyCheck : bool; MinSecretLen : Z; MinEntropyBitsPerChar : option F }.

(** The options ([MinEntropyBitsPerChar]: [None] for zero or less). *)
Inductive OAuth2SecretsOption :=
  | WithHMACKey (key : list N) | WithArgon2idParams (params : option Params) | WithSkipEntropyCheck (skip : bool)
  | WithMinSecretLen (n : Z) | WithMinEntropyBitsPerChar (bits : option F).

Definition apply_option (o : OAuth2Secrets) (opt : OAuth2SecretsOption) : OAuth2Secrets :=
  match opt with
  | WithHMACKey key => mkSecrets key (Argon2idParams o) (SkipEntropyCheck o) (MinSecretLen o) (MinEntropyBitsPerChar o)
  | WithArgon2idParams params => mkSecrets (HMACKey o) params (SkipEntropyCheck o) (MinSecretLen o) (MinEntropyBitsPerChar o)
  | WithSkipEntropyCheck skip => mkSecrets (HMACKey o) (Argon2idParams o) skip (MinSecretLen o) (MinEntropyBitsPerChar o)
  | WithMinSecretLen n => mkSecrets (HMACKey o) (Argon2idParams o) (SkipEntropyCheck o) n (MinEntropyBitsPerChar o)
  | WithMinEntropyBitsPerChar bits => mkSecrets (HMACKey o) (Argon2idParams o) (SkipEntropyCheck o) (MinSecretLen o) bits
  end.

Definition NewOAuth2Secrets (opts : list OAuth2SecretsOption) : OAuth2Secrets :=
  foldl apply_option (mkSecrets [] None false 0 None) opts.

(** The order in which a [range] over the frequencies visits them. *)
Definition order : Type := list (N * nat) → list (N * nat).

(** [freq[s[i]]++] over the bytes. *)
Definition frequencies (s : string) : gmap N nat :=
  foldl (fun freq b => <[b := S (default 0 (freq !! b))]> freq) ∅ (bytes_of_string s).

Definition shannonEntropy (ord : order) (s : string) : F :=
  if decide (String.length s = 0) then f_zero
  else let n := f_of_nat (String.length s) in
       foldl (fun entropy kv => let p := fdiv (f_of_nat kv.2) n in fsub entropy (fmul p (flog2 p)))
             f_zero (ord (map_to_list (frequencies s))).

(** The error, if any. *)
Definition validateSecretEntropy (ord : order) (s : OAuth2Secrets) (secret : string) : option string :=
  if decide (secret = "") then Some "client secret must not be empty"
  else
    let minLen := if (0 <? MinSecretLen s)%Z then MinSecretLen s else minSecretLen in
    let len := Z.of_nat (String.length secret) in
    if (len <? minLen)%Z
    then Some ("client secret must be at least " +:+ pretty minLen +:+ " characters, got " +:+ pretty len)
    else if SkipEntropyCheck s then None
    else
      let minEntropy := default f_three_and_a_half (MinEntropyBitsPerChar s) in
      let e := shannonEntropy ord secret in
      if flt e minEntropy
      then Some ("client secret entropy " +:+ f_text e +:+ " bits/char is below the required " +:+ f_text minEntropy +:+ " bits/char")
      else None.

Definition HashSHA256 (ord : order) (s : OAuth2Secrets) (secret : string) : result string string :=
  match validateSecretEntropy ord s secret with
  | Some err => Err err
  | None => Ok (PrefixSHA256 +:+ hex_EncodeToString (Sum256 (bytes_of_string secret)))
  end.

Definition VerifySHA256 (ord : order) (s : OAuth2Secrets) (secret hash : string) : bool :=
  if negb (strings_HasPrefix hash PrefixSHA256) then false
  else match HashSHA256 ord s secret with
       | Err _ => false
       | Ok computed => ConstantTimeCompare computed hash
       end.

Definition HashHMAC (ord : order) (s : OAuth2Secrets) (secret : string) : result string string :=
  if decide (length (HMACKey s) = 0) then Err "HMAC key must not be empty"
  else match validateSecretEntropy ord s secret with
       | Some err => Err err
       | None => Ok (PrefixHMACSHA256 +:+ hex_EncodeToString (hmac256 (HMACKey s) (bytes_of_string secret)))
       end.

Definition VerifyHMAC (ord : order) (s : OAuth2Secrets) (secret hash : string) : bool :=
  if negb (strings_HasPrefix hash PrefixHMACSHA256) then false
  else match HashHMAC ord s secret with
       | Err _ => false
       | Ok computed => ConstantTimeCompare computed hash
       end.

Definition HashArgon2id (ord : order) (salt : list N) (s : OAuth2Secrets) (secret : string) : result string string :=
  match validateSecretEntropy ord s secret with
  | Some err => Err err
  | None => CreateHash salt secret (default DefaultParams (Argon2idParams s))
  end.

Definition VerifyArgon2id (secret hash : string) : bool :=
  if negb (strings_HasPrefix hash PrefixArgon2id) then false
  else match ComparePasswordAndHash secret hash with Err _ => false | Ok m => m end.

Definition Verify (ord : order) (s : OAuth2Secrets) (secret hash : string) : bool :=
  match DetectHashAlgorithm hash with
  | HashAlgorithmSHA256 => VerifySHA256 ord s secret hash
  | HashAlgorithmHMACSHA256 => VerifyHMAC ord s secret hash
  | HashAlgorithmArgon2id => VerifyArgon2id secret hash
  | HashAlgorithmUnknown => false
  end.

(** What a call draws: 32 random bytes (or the error of [rand.Read]), a salt,
    and a map order per entropy computation. *)
Record draws := mkDraws { d_raw : result string (list N); d_salt : list N; d_ord : nat → order }.

(** [Generate]: the result, and the string [plaintext] points to afterwards. *)
Definition Generate (d : draws) (s : OAuth2Secrets) (plaintext : option string) : result string ClientSecret * option string :=
  let secret : result string string :=
    match plaintext with
    | Some p => if decide (p = "") then raw ← d_raw d; Ok (EncodeToString RawURLEncoding raw)
                else match validateSecretEntropy (d_ord d 0) s p with Some err => Err err | None => Ok p end
    | None => raw ← d_raw d; Ok (EncodeToString RawURLEncoding raw)
    end in
  let written := match secret, plaintext with Ok sec, Some _ => Some sec | _, _ => plaintext end in
  (secret ← secret;
   sha256Hash ← HashSHA256 (d_ord d 1) s secret;
   hmacHash ← (if decide (0 < length (HMACKey s)) then HashHMAC (d_ord d 2) s secret else Ok "");
   argonHash ← match Argon2idParams s with Some _ => HashArgon2id (d_ord d 3) (d_salt d) s secret | None => Ok "" end;
   Ok (mkClientSecret secret sha256Hash hmacHash argonHash), written).

(** ** Passwords *)
Record PasswordHashSet := mkHashSet { ph_Hash : string; ph_Password : string }.

Definition GeneratePasswordHash (salt : list N) (password : string) : result string string :=
  CreateHash salt password DefaultParams.

Definition ComparePasswordHash (password hash : string) : result string bool := ComparePasswordAndHash password hash.

Definition generatedPasswordBytes : nat := 32.

Definition GeneratePassword (raw : result string (list N)) : result string string :=
  b ← raw; Ok (EncodeToString RawURLEncoding b).

Definition GeneratePasswordHashSet (raw : result string (list N)) (salt : list N) (secret : option string)
    : result string PasswordHashSet :=
  pass ← match secret with
         | Some p => if decide (p = "") then GeneratePassword raw else Ok p
         | None => GeneratePassword raw
         end;
  hash ← GeneratePasswordHash salt pass;
  Ok (mkHashSet hash pass).
End secrets.

(** ** Pass phrases ([password/xkcd.go]) *)
Module Xkcd.
Section xkcd.
(** The word list, the title-casing of [golang.org/x/text/cases], and today's date. *)
Context (xkcdWordList : list string) (title : string → string) (today : string).

Record XKCD := mkXKCD { Separator : string }.

Inductive XKCDGeneratorOption := WithSeparator (sep : string).
Definition NewXKCDGenerator (options : list XKCDGeneratorOption) : XKCD :=
  foldl (fun x opt => match opt with WithSeparator sep => mkXKCD sep end) (mkXKCD "") options.

Definition ErrTooFewWords : string := "must have at least one word.  This is just a phrase generator for anything".
Definition ErrTooManyWords : string := "more words requested than the word list contains".

(** [StringInSlice] and [AppendIfMissing]. *)
Fixpoint StringInSlice (a : string) (l : list string) : bool :=
  match l with [] => false | b :: l' => if decide (b = a) then true else StringInSlice a l' end.
Definition AppendIfMissing (slice : list string) (s : string) : list string :=
  if StringInSlice s slice then slice else slice ++ [s].

(** The loop of [titledWords]. *)
Fixpoint title_loop (seen : gset string) (ws acc : list string) : list string :=
  match ws with
  | [] => acc
  | w :: ws' => let t := title w in
                if decide (t ∈ seen) then title_loop seen ws' acc else title_loop ({[t]} ∪ seen) ws' (acc ++ [t])
  end.
Definition titledWords : list string := title_loop ∅ xkcdWordList [].

(** What the loop ends with: an error, the words, or (no fuel left) nothing. *)
Inductive pick_outcome := Failed (err : string) | Words (ws : list string) | Panicked | Running.

(** The loop; [rnd i] is the result of the i-th [rand.Int], wrapped by [randIntn]. *)
Fixpoint pick (fuel : nat) (rnd : nat → result string nat) (i : nat) (words : list string) (len : nat)
    (used : gset nat) (usedWords : list string) : pick_outcome :=
  if decide (length usedWords < len) then
    match fuel with
    | 0 => Running
    | S fuel =>
        match rnd i with
        | Err err => Failed ("generating random number: " +:+ err)
        | Ok widx =>
            if decide (widx ∈ used) then pick fuel rnd (S i) words len used usedWords
            else match words !! widx with
                 | None => Panicked
                 | Some w => pick fuel rnd (S i) words len ({[widx]} ∪ used) (usedWords ++ [w])
                 end
        end
    end
  else Words usedWords.

Definition xkcd_GeneratePassword (fuel : nat) (rnd : nat → result string nat) (x : XKCD) (length_ : Z) (addDate : bool)
    : option (result string string) :=
  if (length_ <? 1)%Z then Some (Err ErrTooFewWords)
  else
    let password := if addDate then today +:+ Separator x else "" in
    let words := titledWords in
    if (Z.of_nat (length words) <? length_)%Z then Some (Err ErrTooManyWords)
    else match pick fuel rnd 0 words (Z.to_nat length_) ∅ [] with
         | Failed err => Some (Err ("generating random number: " +:+ err))
         | Words ws => Some (Ok (password +:+ strings_Join ws (Separator x)))
         | Panicked | Running => None
         end.
End xkcd.
End Xkcd.

(** ** Redaction *)
Module Redaction.

Definition RedactedString : string := "[[REDACTED]]".

(** What [reflect] sees of a configuration. *)
Inductive rv :=
  | RString (s : string)
  | RStruct (fields : list field)
  | RSlice (l : list rv)
  | RPtr (target : option rv)
  | ROther (x : Z)                 (* numbers, maps, interfaces, ... *)
with field := mkField (exported tagged : bool) (value : rv).

Definition redactString (s : string) : string :=
  let len := String.length s in
  if decide (8 <= len) then String.substring 0 4 s +:+ RedactedString +:+ String.substring (len - 2) 2 s
  else if decide (6 <= len) then String.substring 0 2 s +:+ RedactedString
  else RedactedString.

(** [field.SetString] panics below an unexported field ([ro]). *)
Fixpoint redact_value (ro : bool) (v : rv) {struct v} : option rv :=
  match v with
  | RStruct fields =>
      RStruct <$> (fix go (fs : list field) : option (list field) :=
        match fs with
        | [] => Some []
        | mkField exported tagged value :: fs' =>
            let ro' := ro || negb exported in
            let field_value x :=
              match x with
              | RStruct _ | RSlice _ => redact_value ro' x
              | RString s => if tagged then if ro' then None else Some (RString (redactString s)) else Some x
              | _ => Some x
              end in
            value' ← match value with
                     | RPtr (Some x) => (fun x' => RPtr (Some x')) <$> field_value x
                     | _ => field_value value
                     end;
            rest ← go fs';
            Some (mkField exported tagged value' :: rest)
        end) fields
  | RSlice l =>
      RSlice <$> (fix go (l : list rv) : option (list rv) :=
        match l with
        | [] => Some []
        | x :: l' =>
            x' ← match x with
                 | RPtr (Some y) => (fun y' => RPtr (Some y')) <$> redact_value ro y
                 | _ => redact_value ro x
                 end;
            rest ← go l';
            Some (x' :: rest)
        end) l
  | _ => Some v
  end.

(** [Redact(reflect.ValueOf(dst))]; [None]: panic. *)
Definition Redact (v : rv) : option rv :=
  match v with
  | RPtr (Some x) => (fun x' => RPtr (Some x')) <$> redact_value false x
  | _ => redact_value false v
  end.

(** [MakeRedactedCopy]: the copy made by [copier] (a deep copy, or its error), redacted. *)
Definition MakeRedactedCopy (deep_copy : rv → result string rv) (src : rv) : option (result string rv) :=
  match deep_copy src with
  | Err e => Some (Err e)
  | Ok dst => Ok <$> Redact dst
  end.
End Redaction.

(** ** Theorems *)

Lemma HasPrefix_app p s : strings_HasPrefix (p +:+ s) p = true.
Proof.
  unfold strings_HasPrefix. induction p as [|c p IH]; [by destruct s|]. rewrite sapp_cons. simpl. by destruct (Ascii.ascii_dec c c).
Qed.

Lemma prefix_app_inj p s t : p +:+ s = p +:+ t → s = t.
Proof. induction p as [|c p IH]; [done|]. rewrite !sapp_cons. intros [= Heq]. auto. Qed.

(** The tags are not prefixes of one another. *)
Lemma Detect_SHA256 s : DetectHashAlgorithm (PrefixSHA256 +:+ s) = HashAlgorithmSHA256.
Proof. unfold DetectHashAlgorithm. by rewrite HasPrefix_app. Qed.
Lemma Detect_HMAC s : DetectHashAlgorithm (PrefixHMACSHA256 +:+ s) = HashAlgorithmHMACSHA256.
Proof. unfold DetectHashAlgorithm. by rewrite HasPrefix_app. Qed.

Lemma prefix_split p h : strings_HasPrefix h p = true → ∃ t, h = p +:+ t.
Proof.
  unfold strings_HasPrefix. revert h. induction p as [|c p IH]; intros h Hp; [by exists h|]. destruct h as [|c' h]; [done|].
  simpl in Hp. destruct (Ascii.ascii_dec c c') as [-> |]; [|done]. destruct (IH h Hp) as [t ->]. by exists t.
Qed.

Lemma Detect_Argon2id h : strings_HasPrefix h PrefixArgon2id = true → DetectHashAlgorithm h = HashAlgorithmArgon2id.
Proof. intros [t ->]%prefix_split. unfold DetectHashAlgorithm. by rewrite HasPrefix_app. Qed.

Section secret_theorems.
Context `{HF : Float} `{HD : Digests} `{HA : Argon2id}.

(** The hashes of an acceptable secret, and their verification. *)
Lemma Hash_SHA256_verifies ord s secret :
  validateSecretEntropy ord s secret = None →
  let h := PrefixSHA256 +:+ hex_EncodeToString (Sum256 (bytes_of_string secret)) in
  HashSHA256 ord s secret = Ok h ∧ Verify ord s secret h = true.
Proof.
  intros Hv h. assert (Hh : HashSHA256 ord s secret = Ok h) by (unfold HashSHA256; by rewrite Hv). split; [done|].
  unfold Verify, VerifySHA256. subst h. rewrite Detect_SHA256, HasPrefix_app, Hh. by apply bool_decide_eq_true.
Qed.

Lemma Hash_HMAC_verifies ord s secret :
  HMACKey s ≠ [] → validateSecretEntropy ord s secret = None →
  let h := PrefixHMACSHA256 +:+ hex_EncodeToString (hmac256 (HMACKey s) (bytes_of_string secret)) in
  HashHMAC ord s secret = Ok h ∧ Verify ord s secret h = true.
Proof.
  intros Hk Hv h. assert (Hh : HashHMAC ord s secret = Ok h).
  { unfold HashHMAC. rewrite decide_False by (by destruct (HMACKey s)). by rewrite Hv. }
  split; [done|]. unfold Verify, VerifyHMAC. subst h. rewrite Detect_HMAC, HasPrefix_app, Hh. by apply bool_decide_eq_true.
Qed.

Lemma Hash_Argon2id_verifies ord s salt p secret h :
  CreateHash salt secret p = Ok h → Verify ord s secret h = true.
Proof using HA.
  intros Hh. pose proof (CreateHash_prefix _ _ _ _ Hh) as Hp. unfold Verify. rewrite Detect_Argon2id by done.
  unfold VerifyArgon2id. change "$argon2id$" with PrefixArgon2id in Hp. rewrite Hp. cbn [negb].
  by rewrite (CreateHash_matches _ _ _ _ Hh).
Qed.

(** C20: a client secret verifies under every hash stored for it: when the
    secret (the caller's, or 32 random bytes in base64 when none is given)
    passes the length and entropy checks, [Generate] succeeds, writes a
    generated secret back to the caller, fills in exactly the hashes that are
    configured, and [Verify] recognizes the algorithm of each from its tag and
    accepts the secret. *)
Theorem generated_secret_verifies (d : draws) (s : OAuth2Secrets) (plaintext : option string) (secret : string) :
  (plaintext = Some secret ∧ secret ≠ "" ∨
   (plaintext = None ∨ plaintext = Some "") ∧ ∃ raw, d_raw d = Ok raw ∧ secret = EncodeToString RawURLEncoding raw) →
  (∀ ord, validateSecretEntropy ord s secret = None) →
  (∀ p, Argon2idParams s = Some p → ∃ h, CreateHash (d_salt d) secret p = Ok h) →
  ∃ cs, Generate d s plaintext = (Ok cs, (fun _ => secret) <$> plaintext) ∧ cs_Secret cs = secret ∧
    (∀ ord, Verify ord s secret (cs_HashSHA256 cs) = true) ∧
    (if decide (HMACKey s = []) then cs_HashHMAC cs = "" else ∀ ord, Verify ord s secret (cs_HashHMAC cs) = true) ∧
    match Argon2idParams s with
    | None => cs_HashArgon2id cs = ""
    | Some _ => ∀ ord, Verify ord s secret (cs_HashArgon2id cs) = true
    end.
Proof using HF HD HA.
  intros Hsec Hval Hargon.
  assert (HG : Generate d s plaintext =
    ((sha256Hash ← HashSHA256 (d_ord d 1) s secret;
      hmacHash ← (if decide (0 < length (HMACKey s)) then HashHMAC (d_ord d 2) s secret else Ok "");
      argonHash ← match Argon2idParams s with Some _ => HashArgon2id (d_ord d 3) (d_salt d) s secret | None => Ok "" end;
      Ok (mkClientSecret secret sha256Hash hmacHash argonHash)), (fun _ => secret) <$> plaintext)).
  { unfold Generate. destruct Hsec as [[-> Hne]|[[-> | ->] (raw & Hraw & ->)]];
      [rewrite decide_False by done; by rewrite Hval|by rewrite Hraw..]. }
  rewrite HG, (proj1 (Hash_SHA256_verifies (d_ord d 1) s secret (Hval _))). cbn [mbind result_bind].
  assert (Hhm : ∃ h, (if decide (0 < length (HMACKey s)) then HashHMAC (d_ord d 2) s secret else Ok "") = Ok h ∧
    if decide (HMACKey s = []) then h = "" else ∀ ord, Verify ord s secret h = true).
  { destruct (decide (HMACKey s = [])) as [Hk|Hk]; [rewrite Hk, decide_False by (simpl; lia); by exists ""|].
    rewrite decide_True by (destruct (HMACKey s); [done|simpl; lia]). eexists. split; [by apply Hash_HMAC_verifies|].
    intros ord. by apply Hash_HMAC_verifies. }
  destruct Hhm as (hm & -> & Hhm). cbn [mbind result_bind].
  assert (Har : ∃ h, match Argon2idParams s with Some _ => HashArgon2id (d_ord d 3) (d_salt d) s secret | None => Ok "" end = Ok h ∧
    match Argon2idParams s with None => h = "" | Some _ => ∀ ord, Verify ord s secret h = true end).
  { destruct (Argon2idParams s) as [p|] eqn:Hp; [|by exists ""]. destruct (Hargon p eq_refl) as [h Hh]. exists h.
    unfold HashArgon2id. rewrite Hval, Hp. split; [done|]. intros ord. by eapply Hash_Argon2id_verifies. }
  destruct Har as (ar & -> & Har). eexists. split; [reflexivity|]. split; [done|]. split; [|done].
  intros ord. by apply Hash_SHA256_verifies.
Qed.

(** What a successful verification says about the stored hash. *)
Lemma Verify_true ord s secret hash :
  Verify ord s secret hash = true →
  match DetectHashAlgorithm hash with
  | HashAlgorithmSHA256 => validateSecretEntropy ord s secret = None ∧
      hash = PrefixSHA256 +:+ hex_EncodeToString (Sum256 (bytes_of_string secret))
  | HashAlgorithmHMACSHA256 => HMACKey s ≠ [] ∧ validateSecretEntropy ord s secret = None ∧
      hash = PrefixHMACSHA256 +:+ hex_EncodeToString (hmac256 (HMACKey s) (bytes_of_string secret))
  | HashAlgorithmArgon2id => ComparePasswordAndHash secret hash = Ok true
  | HashAlgorithmUnknown => False
  end.
Proof.
  unfold Verify. destruct (DetectHashAlgorithm hash); [done|..].
  - unfold VerifySHA256, HashSHA256. destruct (strings_HasPrefix _ _); [|done]. cbn [negb].
    destruct (validateSecretEntropy ord s secret); [done|]. by intros <-%bool_decide_eq_true.
  - unfold VerifyHMAC, HashHMAC. destruct (strings_HasPrefix _ _); [|done]. cbn [negb]. case_decide as Hk; [done|].
    destruct (validateSecretEntropy ord s secret); [done|]. intros <-%bool_decide_eq_true.
    split; [by intros He; rewrite He in Hk|done].
  - unfold VerifyArgon2id. destruct (strings_HasPrefix _ _); [|done]. cbn [negb].
    destruct (ComparePasswordAndHash secret hash) as [[]|]; done.
Qed.

(** a stored hash accepts nothing but its secret: if two secrets (under any
    two configurations) both verify against one stored hash, the hash carries a
    known tag and they have the same SHA-256 digest, or the same HMAC under
    their keys (which are not empty), or the argon2id library matched both;
    and under the two digests both secrets passed the configured length check.
    So an unknown tag, an empty hash, or a missing HMAC key rejects every
    secret, and a second secret is a collision of the hash function. *)
Theorem Verify_accepts_only_the_secret ord ord' s s' a b hash :
  Verify ord s a hash = true → Verify ord' s' b hash = true →
  match DetectHashAlgorithm hash with
  | HashAlgorithmSHA256 => Sum256 (bytes_of_string a) = Sum256 (bytes_of_string b) ∧
      validateSecretEntropy ord s a = None ∧ validateSecretEntropy ord' s' b = None
  | HashAlgorithmHMACSHA256 => hmac256 (HMACKey s) (bytes_of_string a) = hmac256 (HMACKey s') (bytes_of_string b) ∧
      HMACKey s ≠ [] ∧ HMACKey s' ≠ [] ∧ validateSecretEntropy ord s a = None ∧ validateSecretEntropy ord' s' b = None
  | HashAlgorithmArgon2id => ComparePasswordAndHash a hash = Ok true ∧ ComparePasswordAndHash b hash = Ok true
  | HashAlgorithmUnknown => False
  end.
Proof using HD.
  intros Ha%Verify_true Hb%Verify_true. destruct (DetectHashAlgorithm hash); [done|..].
  - destruct Ha as [Ha ->], Hb as [Hb Heq]. apply prefix_app_inj, hex_EncodeToString_inj in Heq; [done|apply Sum256_bytes..].
  - destruct Ha as (Hka & Ha & ->), Hb as (Hkb & Hb & Heq).
    apply prefix_app_inj, hex_EncodeToString_inj in Heq; [done|apply hmac256_bytes..].
  - done.
Qed.

(** Generated passwords: 43 characters, and the hash matches. *)
Lemma GeneratePassword_length raw b pw :
  raw = Ok b → length b = generatedPasswordBytes → GeneratePassword raw = Ok pw → String.length pw = 43.
Proof. intros -> Hb [= <-]. rewrite (raw_length RawURLEncoding) by done. by rewrite Hb. Qed.

Lemma GeneratePasswordHashSet_matches raw salt secret ph :
  GeneratePasswordHashSet raw salt secret = Ok ph → ComparePasswordHash (ph_Password ph) (ph_Hash ph) = Ok true.
Proof using HA.
  unfold GeneratePasswordHashSet. intros H. inv_bind. unfold ComparePasswordHash, GeneratePasswordHash in *. cbn.
  by eapply CreateHash_matches.
Qed.
End secret_theorems.

(** *** Pass phrases *)
Section phrases.
Import Xkcd.

(** The indices drawn in the calls [i], ..., [i+n-1]. *)
Definition drawn (rnd : nat → result string nat) (i n : nat) : gset nat :=
  list_to_set (omap (fun j => match rnd j with Ok x => Some x | Err _ => None end) (seq i n)).

Lemma drawn_S rnd i n x : rnd i = Ok x → drawn rnd i (S n) = {[x]} ∪ drawn rnd (S i) n.
Proof. intros Hx. unfold drawn. cbn [seq omap list_omap]. by rewrite Hx. Qed.

(** The loop invariant: the words taken are those of the indices used, and as
    many draws as give enough new indices are enough. *)
Lemma pick_enough words len rnd n i used ws :
  (∀ j, ∃ x, rnd j = Ok x ∧ x < length words) → NoDup words →
  NoDup ws → length ws = size used → (∀ w, w ∈ ws ↔ ∃ k, k ∈ used ∧ words !! k = Some w) →
  length ws <= len → len <= size (used ∪ drawn rnd i n) →
  ∃ ws', pick n rnd i words len used ws = Words ws' ∧ NoDup ws' ∧ length ws' = len ∧ ∀ w, w ∈ ws' → w ∈ words.
Proof.
  intros Hrnd Hnd. revert i used ws. induction n as [|n IH]; intros i used ws Hws Hlen Hin Hle Hsz.
  - assert (length ws = len). { unfold drawn in Hsz. cbn in Hsz. rewrite (right_id_L ∅ (∪)) in Hsz. lia. }
    exists ws. unfold pick. rewrite decide_False by lia. repeat split; [done..|].
    intros w (k & _ & Hk)%Hin. by eapply list_elem_of_lookup_2.
  - cbn [pick]. case_decide as Hlt.
    2: { exists ws. repeat split; [done|lia|]. intros w (k & _ & Hk)%Hin. by eapply list_elem_of_lookup_2. }
    destruct (Hrnd i) as (x & Hx & Hxlt). rewrite Hx. rewrite (drawn_S _ _ _ _ Hx) in Hsz. case_decide as Hused.
    + apply IH; try done. by replace (used ∪ drawn rnd (S i) n) with (used ∪ ({[x]} ∪ drawn rnd (S i) n)) by set_solver.
    + destruct (lookup_lt_is_Some_2 _ _ Hxlt) as [w Hw]. rewrite Hw. apply IH.
      * apply NoDup_app. split; [done|]. split; [|apply NoDup_singleton]. intros w' (k & Hk & Hkw)%Hin ->%list_elem_of_singleton.
        assert (k = x) as -> by exact (NoDup_lookup _ _ _ _ Hnd Hkw Hw). done.
      * rewrite length_app, size_union by set_solver. rewrite size_singleton. simpl. lia.
      * intros w'. rewrite elem_of_app, list_elem_of_singleton, Hin. set_unfold. naive_solver.
      * rewrite length_app. simpl. lia.
      * by replace ({[x]} ∪ used ∪ drawn rnd (S i) n) with (used ∪ ({[x]} ∪ drawn rnd (S i) n)) by set_solver.
Qed.

Context (xkcdWordList : list string) (title : string → string) (today : string).

Lemma title_loop_NoDup seen ws acc :
  NoDup acc → (∀ w, w ∈ acc ↔ w ∈ seen) → NoDup (title_loop title seen ws acc).
Proof.
  revert seen acc. induction ws as [|w ws IH]; intros seen acc Hnd Hs; [done|]. cbn [title_loop]. case_decide as Hin; [by apply IH|].
  apply IH; [|set_solver]. apply NoDup_app. split; [done|]. split; [|apply NoDup_singleton]. set_solver.
Qed.

Lemma titledWords_NoDup : NoDup (titledWords xkcdWordList title).
Proof. apply title_loop_NoDup; [constructor|set_solver]. Qed.

(** pass phrases: a request for no word, or for more words than the list
    holds, is refused (whatever the random source does); otherwise the
    generator terminates as soon as the numbers drawn include enough different
    ones, with a phrase of exactly the requested number of different words of
    the list, joined by the separator, behind the date if it was asked for. *)
Theorem pass_phrase_terminates (rnd : nat → result string nat) (x : XKCD) (len : Z) (addDate : bool) (fuel : nat) :
  let words := titledWords xkcdWordList title in
  (∀ j, ∃ w, rnd j = Ok w ∧ w < length words) →
  (Z.to_nat len <= length words → Z.to_nat len <= size (drawn rnd 0 fuel)) →
  if decide (1 <= len <= Z.of_nat (length words))%Z then
    ∃ ws, xkcd_GeneratePassword xkcdWordList title today fuel rnd x len addDate
            = Some (Ok ((if addDate then today +:+ Separator x else "") +:+ strings_Join ws (Separator x))) ∧
      NoDup ws ∧ Z.of_nat (length ws) = len ∧ ∀ w, w ∈ ws → w ∈ words
  else ∃ e, xkcd_GeneratePassword xkcdWordList title today fuel rnd x len addDate = Some (Err e).
Proof.
  intros words Hrnd Hfuel. unfold xkcd_GeneratePassword. fold words. case_decide as Hl.
  - rewrite (proj2 (Z.ltb_ge _ _)), (proj2 (Z.ltb_ge _ _)) by lia.
    destruct (pick_enough words (Z.to_nat len) rnd fuel 0 ∅ []) as (ws & -> & Hnd & Hlen & Hin); try done.
    + apply titledWords_NoDup.
    + constructor.
    + intros w. split; [by intros ?%not_elem_of_nil|]. intros (k & ? & _). set_solver.
    + simpl. lia.
    + rewrite (left_id_L ∅ (∪)). apply Hfuel. lia.
    + exists ws. repeat split; [done|lia|done].
  - destruct (Z.ltb_spec len 1); [by eexists|]. rewrite (proj2 (Z.ltb_lt _ _)) by lia. by eexists.
Qed.
End phrases.

Lemma pass_phrase_terminates_witness :
  ∃ ws, Xkcd.xkcd_GeneratePassword ["ab"; "cd"; "AB"; "ef"] (fun s => s) "20260101" 4 (fun i => Ok (i / 2 mod 3)) (Xkcd.mkXKCD "-") 2 true
    = Some (Ok ("20260101-" +:+ strings_Join ws "-")) ∧ length ws = 2.
Proof.
  destruct (pass_phrase_terminates ["ab"; "cd"; "AB"; "ef"] (fun s => s) "20260101" (fun i => Ok (i / 2 mod 3)) (Xkcd.mkXKCD "-") 2
              true 4) as (ws & Hg & _ & Hlen & _).
  - intros j. eexists. split; [reflexivity|]. pose proof (Nat.mod_upper_bound (j / 2) 3).
    change (length (Xkcd.titledWords _ _)) with 4. lia.
  - intros _. vm_compute. lia.
  - exists ws. split; [exact Hg|lia].
Defined.

(** *** Redaction *)
Section redaction.
Import Redaction.

(** Two secrets of the same length class that agree on the characters shown. *)
Definition same_mask (s t : string) : Prop :=
  let n := String.length s in let m := String.length t in
  (8 <= n ∧ 8 <= m ∧ String.substring 0 4 s = String.substring 0 4 t ∧ String.substring (n - 2) 2 s = String.substring (m - 2) 2 t) ∨
  (6 <= n < 8 ∧ 6 <= m < 8 ∧ String.substring 0 2 s = String.substring 0 2 t) ∨
  (n < 6 ∧ m < 6).

Lemma redactString_mask s t : same_mask s t → redactString s = redactString t.
Proof.
  unfold redactString. intros [(? & ? & Hp & Hs)|[(? & ? & Hp)|[? ?]]]; repeat case_decide; try lia; [by rewrite Hp, Hs|by rewrite Hp|done].
Qed.

(** Two configurations that differ only in tagged secrets (a string or a
    pointer to one, in structs, slices and single pointers), and there only in
    what redaction hides. *)
Inductive same_value : rv → rv → Prop :=
  | sv_refl v : same_value v v
  | sv_struct fs gs : same_fields fs gs → same_value (RStruct fs) (RStruct gs)
  | sv_slice l k : same_targets l k → same_value (RSlice l) (RSlice k)
with same_target : rv → rv → Prop :=
  | st_value v w : same_value v w → same_target v w
  | st_ptr v w : same_value v w → same_target (RPtr (Some v)) (RPtr (Some w))
with same_targets : list rv → list rv → Prop :=
  | sts_nil : same_targets [] []
  | sts_cons v w l k : same_target v w → same_targets l k → same_targets (v :: l) (w :: k)
with same_fields : list field → list field → Prop :=
  | sfs_nil : same_fields [] []
  | sfs_plain e t v w fs gs : same_target v w → same_fields fs gs → same_fields (mkField e t v :: fs) (mkField e t w :: gs)
  | sfs_secret e s t fs gs :
      same_mask s t → same_fields fs gs →
      same_fields (mkField e true (RString s) :: fs) (mkField e true (RString t) :: gs)
  | sfs_secret_ptr e s t fs gs :
      same_mask s t → same_fields fs gs →
      same_fields (mkField e true (RPtr (Some (RString s))) :: fs) (mkField e true (RPtr (Some (RString t))) :: gs).

Scheme same_value_min := Minimality for same_value Sort Prop
  with same_target_min := Minimality for same_target Sort Prop
  with same_targets_min := Minimality for same_targets Sort Prop
  with same_fields_min := Minimality for same_fields Sort Prop.
Combined Scheme same_mutind from same_value_min, same_target_min, same_targets_min, same_fields_min.

Definition redact_target (ro : bool) (v : rv) : option rv :=
  match v with RPtr (Some x) => (fun x' => RPtr (Some x')) <$> redact_value ro x | _ => redact_value ro v end.

Definition field_value (ro tagged : bool) (x : rv) : option rv :=
  match x with
  | RStruct _ | RSlice _ => redact_value ro x
  | RString s => if tagged then if ro then None else Some (RString (redactString s)) else Some x
  | _ => Some x
  end.
Definition redact_field (ro tagged : bool) (v : rv) : option rv :=
  match v with RPtr (Some x) => (fun x' => RPtr (Some x')) <$> field_value ro tagged x | _ => field_value ro tagged v end.

(** One element, and one field, at a time. *)
Lemma redact_slice_cons ro x l :
  redact_value ro (RSlice (x :: l)) =
  x' ← redact_target ro x; r ← redact_value ro (RSlice l); match r with RSlice l' => Some (RSlice (x' :: l')) | _ => None end.
Proof.
  unfold redact_target. cbn [redact_value]. set (go := fix go (l : list rv) := _).
  set (y := match x with RPtr (Some _) => _ | _ => _ end). destruct y; [|done]. cbn [mbind option_bind]. by destruct (go l).
Qed.

Lemma redact_struct_cons ro e t v fs :
  redact_value ro (RStruct (mkField e t v :: fs)) =
  v' ← redact_field (ro || negb e) t v; r ← redact_value ro (RStruct fs);
  match r with RStruct fs' => Some (RStruct (mkField e t v' :: fs')) | _ => None end.
Proof.
  cbn [redact_value]. set (go := fix go (fs : list field) := _). unfold redact_field, field_value.
  set (x := match v with RPtr (Some _) => _ | _ => _ end). destruct x; [|done]. cbn [mbind option_bind]. by destruct (go fs).
Qed.

Lemma same_value_field v w ro t :
  same_value v w → (∀ ro, redact_value ro v = redact_value ro w) → field_value ro t v = field_value ro t w.
Proof. intros Hs IH. destruct Hs as [v|fs gs|l k]; [done|apply IH..]. Qed.

Lemma redact_same :
  (∀ v w, same_value v w → ∀ ro, redact_value ro v = redact_value ro w) ∧
  (∀ v w, same_target v w → (∀ ro, redact_target ro v = redact_target ro w) ∧ ∀ ro t, redact_field ro t v = redact_field ro t w) ∧
  (∀ l k, same_targets l k → ∀ ro, redact_value ro (RSlice l) = redact_value ro (RSlice k)) ∧
  (∀ fs gs, same_fields fs gs → ∀ ro, redact_value ro (RStruct fs) = redact_value ro (RStruct gs)).
Proof.
  apply same_mutind; [done|done|done|..].
  - intros v w Hs IH. destruct Hs as [v|fs gs|l k]; [done|..]; (split; [exact IH|intros; apply IH]).
  - intros v w Hs IH. split; intros; cbn [redact_target redact_field]; [by rewrite IH|]. by rewrite (same_value_field v w).
  - done.
  - intros v w l k _ [IH _] _ IHl ro. by rewrite !redact_slice_cons, IH, IHl.
  - done.
  - intros e t v w fs gs _ [_ IH] _ IHf ro. by rewrite !redact_struct_cons, IH, IHf.
  - intros e s t fs gs Hm _ IHf ro. rewrite !redact_struct_cons, IHf. unfold redact_field, field_value. by rewrite (redactString_mask s t).
  - intros e s t fs gs Hm _ IHf ro. rewrite !redact_struct_cons, IHf. unfold redact_field, field_value. by rewrite (redactString_mask s t).
Qed.

(** a redacted copy does not depend on the secrets: two configurations that
    differ only in strings tagged for redaction (in structs nested in structs,
    slices and pointers), and there only beyond the first four and last two
    characters of secrets of eight or more, the first two of shorter ones, or
    at all in those under six, have the same redacted copy. *)
Theorem redaction_hides_secrets (v w : rv) : same_target v w → Redact v = Redact w.
Proof. intros H. apply (proj1 (proj1 (proj2 redact_same) v w H) false). Qed.

(** Not reached: tagged slices of strings are left as they are. *)
Example tagged_slice_not_redacted :
  let v := RPtr (Some (RStruct [mkField true true (RSlice [RString "my-api-key-1234"])])) in Redact v = Some v.
Proof. reflexivity. Qed.

(** An unexported tagged string makes the redaction panic. *)
Example unexported_tagged_string_panics :
  Redact (RPtr (Some (RStruct [mkField false true (RString "my-api-key-1234")]))) = None.
Proof. reflexivity. Qed.
End redaction.

Lemma redaction_hides_secrets_witness :
  let cfg s := Redaction.RPtr (Some (Redaction.RStruct [Redaction.mkField true true (Redaction.RString s);
     Redaction.mkField true false (Redaction.RSlice [Redaction.RPtr (Some (Redaction.RStruct
        [Redaction.mkField true true (Redaction.RPtr (Some (Redaction.RString s)))]))])])) in
  Redaction.Redact (cfg "1234secret90") = Redaction.Redact (cfg "1234hidden----90").
Proof.
  cbv zeta. apply redaction_hides_secrets. apply st_ptr, sv_struct, sfs_secret.
  - left. vm_compute. repeat split; lia.
  - apply sfs_plain; [|constructor]. apply st_value, sv_slice, sts_cons; [|constructor]. apply st_ptr, sv_struct, sfs_secret_ptr; [|constructor].
    left. vm_compute. repeat split; lia.
Defined.

(** ** Concrete libraries *)
Module ToySecrets.

#[global] Instance toy_float : Float := {|
  F := nat; f_zero := 0; f_three_and_a_half := 3; f_of_nat n := n; fdiv := Nat.div; fmul := Nat.mul; fsub := Nat.sub;
  flog2 := Nat.log2; flt _ _ := false; f_text n := pretty n |}.

#[global, program] Instance toy_digests : Digests := {|
  Sum256 m := replicate 32 (foldr N.add 0%N m mod 256)%N;
  hmac256 k m := replicate 32 (foldr N.add 0%N (k ++ m) mod 256)%N |}.
Next Obligation. intros m. split; [done|]. apply Forall_replicate. by apply N.mod_lt. Qed.
Next Obligation. intros k m. split; [done|]. apply Forall_replicate. by apply N.mod_lt. Qed.

#[global, program] Instance toy_argon2id : Argon2id := {|
  Params := unit; DefaultParams := tt;
  CreateHash _ pw _ := Ok (PrefixArgon2id +:+ pw);
  ComparePasswordAndHash pw h := Ok (bool_decide (h = PrefixArgon2id +:+ pw)) |}.
Next Obligation. intros salt pw p h [= <-]. apply HasPrefix_app. Qed.
Next Obligation. intros salt pw p h [= <-]. by rewrite bool_decide_true. Qed.

Definition demo_secret : string := "Tr0ub4dor&3-correct-horse-battery-staple".
Definition demo_config : OAuth2Secrets := NewOAuth2Secrets [WithHMACKey [1; 2]%N; WithArgon2idParams (Some tt)].
Definition demo_draws : draws := mkDraws (Err "no entropy") [] (fun _ l => l).
End ToySecrets.

Section witnesses.
Import ToySecrets.

Lemma generated_secret_verifies_witness :
  ∃ cs, Generate demo_draws demo_config (Some demo_secret) = (Ok cs, Some demo_secret) ∧
    (∀ ord, Verify ord demo_config demo_secret (cs_HashHMAC cs) = true) ∧
    (∀ ord, Verify ord demo_config demo_secret (cs_HashArgon2id cs) = true).
Proof.
  destruct (generated_secret_verifies demo_draws demo_config (Some demo_secret) demo_secret) as (cs & HG & _ & _ & Hh & Ha).
  - left. split; [reflexivity|discriminate].
  - intros ord. vm_compute. reflexivity.
  - intros p _. eexists. reflexivity.
  - exists cs. split; [exact HG|]. split; [exact Hh|exact Ha].
Defined.

Lemma Verify_accepts_only_the_secret_witness :
  let h := PrefixSHA256 +:+ hex_EncodeToString (Sum256 (bytes_of_string demo_secret)) in
  Sum256 (bytes_of_string demo_secret) = Sum256 (bytes_of_string demo_secret) ∧
  validateSecretEntropy (fun l => l) demo_config demo_secret = None.
Proof.
  intros h.
  destruct (Verify_accepts_only_the_secret (fun l => l) (fun l => l) demo_config demo_config demo_secret demo_secret h) as (H1 & H2 & _).
  - vm_compute. reflexivity.
  - vm_compute. reflexivity.
  - split; [exact H1|exact H2].
Defined.
End witnesses.
