(* ===== verification/Lifecycle.v ===== *)
(** * The life of the server process

    [runtime/runtime.go] ([Stop], [Wait], the message size limits, [LoadConfig],
    [StartWithListenter]), the admin servers ([adminserver.go], [control.go],
    [pprof.go], [pprof-2.go]) and the start of the NATS bridge ([nats.go]).

    [StartWithListenter] is a program in a small monad of its own: it emits the
    events of the start-up and shut-down sequence, [defer] pushes clean-up work,
    [log.Fatal] ends the process without running it, and a panic of an
    application hook runs it.  What the outside world answers (files, sockets,
    the application's start-up object) is a record of oracles; the environment
    variables are read as [utils/env.go] reads them (file [Environment]). *)
From Stdlib Require Import Ascii Sorted.
From stdpp Require Import gmap strings pretty.
From S2P Require Import Prelude GoText Environment ServerTls.
From stdpp Require Import options.

(** ** Stopping *)

(** The one-slot [waitChannel]. *)
Record RuntimeState := mkRuntimeState { waitChannel : bool }.
Definition NewRuntime : RuntimeState := mkRuntimeState false.

(** A send with [default]: never blocks. *)
Definition Stop (s : RuntimeState) : RuntimeState := mkRuntimeState true.

(** A receive; [None]: blocked. *)
Definition Wait (s : RuntimeState) : option RuntimeState := if waitChannel s then Some (mkRuntimeState false) else None.

(** ** Settings *)
Definition maxMsgSizeMegs : Z := 128.
Definition minMsgSizeMegs : Z := 4.

Definition getBindAddress (os : Os.environ) : string := if BoolEnv os "DEV_BIND_LOCALHOST" false then "127.0.0.1" else "".

Definition getGRPCMsgSizeLimits (os : Os.environ) : Z * Z :=
  let recv := IntEnv os "GRPC_MAX_RECEIVE_MSG_SIZE_MEGS" minMsgSizeMegs in
  let send := IntEnv os "GRPC_MAX_SEND_MSG_SIZE_MEGS" minMsgSizeMegs in
  let recv := if (maxMsgSizeMegs <? recv)%Z then maxMsgSizeMegs else recv in
  let send := if (maxMsgSizeMegs <? send)%Z then maxMsgSizeMegs else send in
  let recv := if (recv <? minMsgSizeMegs)%Z then minMsgSizeMegs else recv in
  let send := if (send <? minMsgSizeMegs)%Z then minMsgSizeMegs else send in
  (wrap64 (wrap64 (recv * 1024) * 1024), wrap64 (wrap64 (send * 1024) * 1024)).

(** [os.Getenv]. *)
Definition Getenv (os : Os.environ) (key : string) : string := default "" (Os.LookupEnv os key).

(** [filepath.IsAbs] and [filepath.Abs] (with the working directory, if known). *)
Definition IsAbs (p : string) : bool := String.prefix "/" p.
Definition fixPath (cwd : option string) (fpath : string) : string :=
  if decide (fpath = "") then ""
  else if decide (fpath = "stdout" ∨ fpath = "stderr") then fpath
  else if IsAbs fpath then filepath_Clean fpath
  else match cwd with None => fpath | Some d => filepath_Join [d; fpath] end.

(** ** The admin servers *)
Module Admin.
Section admin.
Context `{UT : UnicodeTables}.
(** [net.ParseIP(host).IsLoopback()], false when it does not parse. *)
Context (ip_loopback : string → bool).

Definition adminLoopback : string := "127.0.0.1".

Definition isLoopbackHost (host : string) : bool := if decide (host = "localhost") then true else ip_loopback host.

Definition adminListenConfig (getenv : string → string) (port : Z) : result string (string * string) :=
  let host := TrimSpace (getenv "ADMIN_BIND_ADDRESS") in
  let host := if decide (host = "") then adminLoopback else host in
  let token := getenv "ADMIN_TOKEN" in
  if negb (isLoopbackHost host) && bool_decide (token = "")
  then Err ("ADMIN_BIND_ADDRESS=" +:+ Quote host +:+ " is not loopback; refusing to expose admin endpoints without ADMIN_TOKEN")
  else Ok (JoinHostPort host (pretty port), token).

(** A request: method, path and [Authorization] header; an answer: status and body. *)
Record http_request := mkHttp { q_method : string; q_path : string; q_authorization : string }.
Record http_response := mkResp { p_status : Z; p_body : string }.

Definition adminTokenMiddleware {S} (token : string) (next : http_request → S → http_response * S)
    (c : http_request) (s : S) : http_response * S :=
  if decide (token = "") then next c s
  else if bool_decide (q_authorization c = "Bearer " +:+ token) then next c s
  else (mkResp 401 "unauthorized", s).

(** The routes of the control server; the state is the runtime and the number of
    garbage collections asked for. *)
Definition control_routes (c : http_request) (s : RuntimeState * nat) : http_response * (RuntimeState * nat) :=
  if decide (q_path c = "/" ∧ q_method c = "GET") then (mkResp 200 "Hello from Control", s)
  else if decide (q_path c = "/stop" ∧ q_method c = "POST") then (mkResp 200 "Signalled server to stop", (Stop s.1, s.2))
  else if decide (q_path c = "/gc" ∧ q_method c = "GET") then (mkResp 200 "Called GC", (s.1, S s.2))
  else if decide (q_path c ∈ ["/"; "/stop"; "/gc"]) then (mkResp 405 "Method Not Allowed", s)
  else (mkResp 404 "Not Found", s).

Definition newEcho (token : string) : http_request → RuntimeState * nat → http_response * (RuntimeState * nat) :=
  adminTokenMiddleware token control_routes.

(** The paths of the pprof server; every one is served for any method but "/". *)
Definition pprof_paths : list string :=
  ["/debug/pprof/"; "/debug/pprof/heap"; "/debug/pprof/cmdline"; "/debug/pprof/profile"; "/debug/pprof/symbol"; "/debug/pprof/trace";
   "/debug/pprof/goroutine"; "/debug/pprof/threadcreate"; "/debug/pprof/block"; "/debug/pprof/mutex"; "/debug/pprof/allocs"].

(** The state: the profiles written out. *)
Definition pprof_routes (c : http_request) (s : list string) : http_response * list string :=
  if decide (q_path c = "/" ∧ q_method c = "GET") then (mkResp 200 "Hello from PProf", s)
  else if decide (q_path c ∈ pprof_paths) then (mkResp 200 "", s ++ [q_path c])
  else if decide (q_path c = "/") then (mkResp 405 "Method Not Allowed", s)
  else (mkResp 404 "Not Found", s).

Definition pprof_echo (token : string) : http_request → list string → http_response * list string :=
  adminTokenMiddleware token pprof_routes.

(** [Control.Start] and [PProfServer.Start]: not asked for, refused, listening, or the process ends. *)
Inductive admin_start := NotStarted | Refused (err : string) | Listening (addr token : string) | BadPort (port : string).

Definition Admin_Start (os : Os.environ) (port_variable : string) : admin_start :=
  let port := Getenv os port_variable in
  if decide (port = "") then NotStarted
  else match Atoi port with
       | None => BadPort port
       | Some p => match adminListenConfig (Getenv os) p with
                   | Err e => Refused e
                   | Ok (addr, token) => Listening addr token
                   end
       end.
Definition Control_Start (os : Os.environ) : admin_start := Admin_Start os "CONTROL_PORT".
Definition PProfServer_Start (os : Os.environ) : admin_start := Admin_Start os "PPROF_PORT".

(** [PProf.Start]: the profile started, if any, and its directory. *)
Definition PProf_Start (os : Os.environ) : option (string * string) :=
  let goProfiling := Getenv os "GO_PROFILING" in
  if decide (goProfiling = "") then None
  else match split_char (ascii_of_N 59) goProfiling with
       | [kind; dir] =>
           if decide (strings_ToUpper kind ∈ ["CPU"; "MEM"; "BLOCK"; "GOROUTINE"; "MUTEX"; "THREAD"; "TRACE"])
           then Some (strings_ToUpper kind, dir) else None
       | _ => None
       end.
End admin.
End Admin.
Import Admin.

(** ** Configuration *)
Module Config.
Section config.
(** JSON values of the root configuration, and the libraries that read it:
    [encoding/json], viper (with the environment) and viperEx. *)
Context {J V D : Type}.
Inductive cvalue := CString (s : string) | CInt (n : Z) | CBool (b : bool) | CProfiler | COther (j : J).
Abbreviation config_map := (gmap string cvalue).

Record config_libs := mkConfigLibs {
  json_Unmarshal : string → result string config_map;
  json_Marshal : config_map → result string string;
  ReadConfig : string → result string V;
  MergeInConfig : string → V → result string V;
  Unmarshal : V → result string D;
  viperEx_update : D → result string D }.

(** What [os.Stat] says of a path: missing (with the error), a directory, a file. *)
Inductive stat := Missing (err : string) | Directory | RegularFile.

Definition ValidateConfigPath (fs : string → stat) (configPath : string) : option string :=
  match fs configPath with
  | Missing e => Some e
  | Directory => Some ("'" +:+ configPath +:+ "' is a directory, not a normal file")
  | RegularFile => None
  end.

(** [if _, ok := m[k]; !ok { m[k] = v }]. *)
Definition set_default (k : string) (v : cvalue) (m : config_map) : config_map :=
  match m !! k with Some _ => m | None => <[k := v]> m end.

Definition with_defaults (os : Os.environ) (m : config_map) : config_map :=
  let m := set_default "APPLICATION_ENVIRONMENT" (CString "in-environment") m in
  let m := set_default "APPLICATION_NAME" (CString "in-environment") m in
  let m := set_default "PORT" (CInt 0) m in
  let m := <["NATS_ENABLED" := CBool (BoolEnv os "NATS_ENABLED" false)]> m in
  let m := set_default "GRPC_GATEWAY_ENABLED" (CBool true) m in
  let m := set_default "REST_PORT" (CInt 0) m in
  let m := set_default "PRETTY_LOG" (CBool true) m in
  let m := set_default "LOG_LEVEL" (CString "info") m in
  set_default "ddProfilerConfig" CProfiler m.

Record ConfigOptions := mkConfigOptions { RootConfig : string; ConfigPath : string }.

(** The settings file of the environment, merged over the root configuration. *)
Definition merge_environment (L : config_libs) (fs : string → stat) (os : Os.environ) (o : ConfigOptions) (v : V) : result string V :=
  let environment := Getenv os "APPLICATION_ENVIRONMENT" in
  if bool_decide (environment = "") || bool_decide (ConfigPath o = "") then Ok v
  else
    let configPath := filepath_Join [ConfigPath o; "appsettings." +:+ environment +:+ ".json"] in
    match ValidateConfigPath fs configPath with
    | None => MergeInConfig L configPath v
    | Some _ => Ok v
    end.

(** [LoadConfig]: the destination, and the root configuration it leaves in the options. *)
Definition LoadConfig (L : config_libs) (fs : string → stat) (os : Os.environ) (o : ConfigOptions) : result string (D * ConfigOptions) :=
  rootConfigMap ← json_Unmarshal L (RootConfig o);
  rootConfig ← json_Marshal L (with_defaults os rootConfigMap);
  let o := mkConfigOptions rootConfig (ConfigPath o) in
  v ← ReadConfig L rootConfig;
  v ← merge_environment L fs os o v;
  d ← Unmarshal L v;
  d ← viperEx_update L d;
  Ok (d, o).
End config.
End Config.

(** ** Start-up and shut-down *)
Module Server.

(** Resources that are released by a [defer]. *)
Inductive resource := PProfServerR | PProfR | ControlR | LogFileR (name : string) | ContainerR | ConnR (endpoint : string).

Inductive event :=
  | Acquire (r : resource) | Release (r : resource)
  | SetLogLevel | LoadConfigE | ConfigureServices
  | SchedulerStart | SetRootContainer | ConfigureServerOpts | Configure
  | NewServer (maxRecv maxSend : Z) (tracing unary stream : bool)
  | RegisterReflection | RegisterEndpoint (i : nat) | RegisterHealth | SetServing (service : string)
  | ProfilerStart | OnPreServerStartup | Listen (addr : string) | Serve
  | StartNATSGateway | RegisterHandler (i : nat) | GatewayServe (addr : string)
  | WaitE | HealthShutdown | NATSShutdown | OnPreServerShutdown | GatewayShutdown | SchedulerStop | GracefulStop
  | OnPostServerShutdown | JoinGateway | ProfilerStop | JoinServer.

(** How a piece of the program ends: with a value, by [log.Fatal] ([os.Exit]), or by a panic. *)
Inductive ending (A : Type) := Done (a : A) | Exit (why : string) | Panics (why : string).
Arguments Done {A}. Arguments Exit {A}. Arguments Panics {A}.

(** What has happened, and the deferred work, last first. *)
Record pstate := mkP { trace : list event; deferred : list event }.
Definition program (A : Type) : Type := pstate → pstate * ending A.

Definition pret {A} (a : A) : program A := fun s => (s, Done a).
Definition pbind {A B} (m : program A) (f : A → program B) : program B := fun s =>
  match m s with
  | (s, Done a) => f a s
  | (s, Exit w) => (s, Exit w)
  | (s, Panics w) => (s, Panics w)
  end.
Definition emit (e : event) : program unit := fun s => (mkP (trace s ++ [e]) (deferred s), Done tt).
Definition fatal {A} (why : string) : program A := fun s => (s, Exit why).
Definition panic {A} (why : string) : program A := fun s => (s, Panics why).
(** Take a resource whose release is deferred. *)
Definition acquire (r : resource) : program unit := fun s => (mkP (trace s ++ [Acquire r]) (Release r :: deferred s), Done tt).

Declare Scope prog_scope.
Delimit Scope prog_scope with prog.
Notation "'let*' x := m 'in' k" := (pbind m (fun x => k)) (at level 10, x binder, m at level 100, k at level 200) : prog_scope.
Notation "m ;; k" := (pbind m (fun _ => k)) (at level 100, right associativity) : prog_scope.
Local Open Scope prog_scope.

Definition when (b : bool) (m : program unit) : program unit := if b then m else pret tt.
Fixpoint each {A} (l : list A) (f : A → program unit) : program unit := match l with [] => pret tt | x :: l' => f x ;; each l' f end.

(** A call of application code or of a service it registered: it may panic. *)
Definition hook (panics : event → option string) (e : event) : program unit :=
  match panics e with Some w => panic w | None => emit e end.
Definition or_fatal {A} (msg : string) (r : result string A) : program A :=
  match r with Ok a => pret a | Err e => fatal (msg +:+ ": " +:+ e) end.

(** The end of the function: the deferred work runs unless the process has exited. *)
Inductive ended := Returned | Exited (why : string) | Panicked (why : string).
Definition run_program (m : program unit) : list event * ended :=
  match m (mkP [] []) with
  | (s, Done _) => (trace s ++ deferred s, Returned)
  | (s, Panics w) => (trace s ++ deferred s, Panicked w)
  | (s, Exit w) => (trace s, Exited w)
  end.

(** The operating system, and the application. *)
Record host := mkHost {
  h_env : Os.environ; h_loopback : string → bool; h_cwd : option string; h_create : string → result string unit;
  h_listen : string → result string netAddr; h_client : string → result string unit }.

Record application := mkApp {
  su_options : bool;                          (* [GetConfigOptions()] is not nil *)
  su_config : result string CoreConfig;       (* [LoadConfig] and the core part of its result *)
  su_build : option string;                   (* a panic of [builder.Build()] *)
  su_panics : event → option string;          (* the panics of application code and services, by step *)
  su_scheduler : result string unit;
  su_tracing : bool; su_unary : bool; su_stream : bool;
  su_endpoints : nat;
  su_statuses : option (list string);         (* the services, if the health server tracks a status *)
  su_health_shutdown : bool;
  su_profiler : bool;
  su_pre : result string unit;                (* [OnPreServerStartup] *)
  su_tls : option bool;                       (* [ServerTLSEnabled()], if the start-up object has it *)
  su_nats_handlers : bool;                    (* [IsAnyNatsHandler] *)
  su_nats_config : result string bool;        (* the NATS configuration from the container, and whether it is not nil *)
  su_nats_connect : result string unit; su_nats_register : result string unit;
  su_nats_progress : nat }.                   (* the steps the NATS goroutine has made when the shut-down looks for its container *)

(** [StartNATSHandlerGateway] of [nats.go] starts a goroutine that nothing waits
    for; what it does, if it gets to the end.  (The request it validates is never
    incomplete here.) *)
Inductive nats_event := NATSConnect | NATSRegister | NATSSetContainer.
Definition nats_goroutine (a : application) : list nats_event :=
  match su_nats_config a with
  | Ok true =>
      if su_nats_handlers a then
        match su_nats_connect a with
        | Err _ => []
        | Ok _ => NATSConnect :: match su_nats_register a with Err _ => [] | Ok _ => [NATSRegister; NATSSetContainer] end
        end
      else []
  | _ => []
  end.

Section server.
Context `{UT : UnicodeTables}.
Context (h : host) (a : application).
Let env := h_env h.
Let call := hook (su_panics a).

Definition start_admin (r : resource) (what : string) (st : admin_start) : program unit :=
  match st with
  | NotStarted | Refused _ => pret tt
  | Listening _ _ => acquire r
  | BadPort p => fatal ("Failed to convert " +:+ what +:+ " port to int")
  end.

(** The log destination. *)
Definition open_log : program unit :=
  let logFileName := StringEnv env "LOG_FILE" "stderr" in
  if decide (logFileName = "stderr" ∨ logFileName = "stdout") then pret tt
  else let name := fixPath (h_cwd h) logFileName in
       or_fatal "Creating log file" (h_create h name) ;;
       acquire (LogFileR name).

Definition load_core_config : program CoreConfig :=
  if negb (su_options a) then fatal "configOptions is nil"
  else let* c := or_fatal "Failed to load config" (su_config a) in
       emit LoadConfigE ;; pret c.

(** The server with its interceptors and services. *)
Definition build_server : program unit :=
  let '(maxRecv, maxSend) := getGRPCMsgSizeLimits env in
  call SetRootContainer ;;
  call ConfigureServerOpts ;;
  call Configure ;;
  emit (NewServer maxRecv maxSend (su_tracing a) (su_unary a) (su_stream a)) ;;
  when (BoolEnv env "ENABLE_GRPC_SERVER_REFLECTION" false) (emit RegisterReflection) ;;
  each (seq 0 (su_endpoints a)) (fun i => call (RegisterEndpoint i)) ;;
  call RegisterHealth ;;
  match su_statuses a with Some names => each names (fun n => call (SetServing n)) | None => pret tt end.

(** The listener passed in, or a new one. *)
Definition listen (lis : option netAddr) (coreConfig : CoreConfig) : program netAddr :=
  match lis with
  | Some addr => pret addr
  | None =>
      if decide (PORT coreConfig = 0%Z) then fatal "port is not set"
      else let address := getBindAddress env +:+ ":" +:+ pretty (PORT coreConfig) in
           let* addr := or_fatal "Failed to listen" (h_listen h address) in
           emit (Listen address) ;; pret addr
  end.

(** The client connection to the server itself. *)
Definition dial_loopback (coreConfig : CoreConfig) (addr : netAddr) : program unit :=
  let serverTLS := default false (su_tls a) in
  match LoopbackClientCredentials (Some coreConfig) serverTLS with
  | Err _ => fatal "Failed to build loopback client credentials"
  | Ok _ =>
      let endpoint := LoopbackTarget addr (PORT coreConfig) in
      or_fatal "Failed to create gRPC client connection" (h_client h endpoint) ;;
      acquire (ConnR endpoint)
  end.

Definition start_gateway (coreConfig : CoreConfig) : program unit :=
  when (GRPCGateWayEnabled coreConfig)
    (each (seq 0 (su_endpoints a)) (fun i => call (RegisterHandler i)) ;;
     emit (GatewayServe (getBindAddress env +:+ ":" +:+ pretty (RESTPort coreConfig)))).

(** The gateway is started by the environment variable, not by the configuration. *)
Definition nats_started : bool := BoolEnv env "NATS_ENABLED" false.
(** [si.NATSMicroServicesContainer != nil], as the shut-down finds it. *)
Definition nats_handed_over : bool :=
  nats_started && existsb (fun e => match e with NATSSetContainer => true | _ => false end) (take (su_nats_progress a) (nats_goroutine a)).

Definition shut_down (coreConfig : CoreConfig) : program unit :=
  when (su_health_shutdown a) (call HealthShutdown) ;;
  when (NATSEnabled coreConfig && nats_handed_over) (call NATSShutdown) ;;
  call OnPreServerShutdown ;;
  when (GRPCGateWayEnabled coreConfig) (emit GatewayShutdown) ;;
  call SchedulerStop ;;
  emit GracefulStop ;;
  call OnPostServerShutdown ;;
  when (GRPCGateWayEnabled coreConfig) (emit JoinGateway) ;;
  when (su_profiler a) (call ProfilerStop) ;;
  emit JoinServer.

Definition StartWithListenter (lis : option netAddr) : program unit :=
  start_admin PProfServerR "pprof" (PProfServer_Start (h_loopback h) env) ;;
  when (bool_decide (is_Some (PProf_Start env))) (acquire PProfR) ;;
  start_admin ControlR "Control" (Control_Start (h_loopback h) env) ;;
  open_log ;;
  emit SetLogLevel ;;
  let* coreConfig := load_core_config in
  call ConfigureServices ;;
  match su_build a with Some w => panic w | None => acquire ContainerR end ;;
  or_fatal "Failed to start scheduler" (su_scheduler a) ;;
  call SchedulerStart ;;
  build_server ;;
  when (su_profiler a) (call ProfilerStart) ;;
  or_fatal "OnPreServerStartup failed" (su_pre a) ;;
  call OnPreServerStartup ;;
  let* addr := listen lis coreConfig in
  emit Serve ;;
  dial_loopback coreConfig addr ;;
  when nats_started (emit StartNATSGateway) ;;
  start_gateway coreConfig ;;
  emit WaitE ;;
  shut_down coreConfig.
End server.
End Server.

(** ** Theorems *)

(** *** Stopping and limits *)
Lemma Stop_Wait s n : Wait (Nat.iter (S n) Stop s) = Some NewRuntime.
Proof. done. Qed.

(** the message size limits of the server are within 4 and 128 MiB whatever
    the environment says (missing, malformed, negative or overflowing numbers
    included), equal the configured number of megabytes when that is in range,
    and default to 4 MiB. *)
Theorem message_sizes_bounded (os : Os.environ) :
  let '(recv, send) := getGRPCMsgSizeLimits os in
  (4 * 2 ^ 20 <= recv <= 128 * 2 ^ 20)%Z ∧ (4 * 2 ^ 20 <= send <= 128 * 2 ^ 20)%Z ∧
  (∀ v n, Os.LookupEnv os "GRPC_MAX_RECEIVE_MSG_SIZE_MEGS" = Some v → Atoi v = Some n → (4 <= n <= 128)%Z → recv = (n * 2 ^ 20)%Z) ∧
  (∀ v n, Os.LookupEnv os "GRPC_MAX_SEND_MSG_SIZE_MEGS" = Some v → Atoi v = Some n → (4 <= n <= 128)%Z → send = (n * 2 ^ 20)%Z) ∧
  (Os.LookupEnv os "GRPC_MAX_RECEIVE_MSG_SIZE_MEGS" = None → recv = (4 * 2 ^ 20)%Z).
Proof.
  unfold getGRPCMsgSizeLimits, IntEnv, maxMsgSizeMegs, minMsgSizeMegs. cbv zeta.
  set (r := match Os.LookupEnv os "GRPC_MAX_RECEIVE_MSG_SIZE_MEGS" with Some vv => _ | None => _ end).
  set (t := match Os.LookupEnv os "GRPC_MAX_SEND_MSG_SIZE_MEGS" with Some vv => _ | None => _ end).
  assert (Hclamp : ∀ x : Z, let y := if (128 <? x)%Z then 128%Z else x in let y := if (y <? 4)%Z then 4%Z else y in
    (4 <= y <= 128)%Z ∧ ((4 <= x <= 128)%Z → y = x) ∧ wrap64 (wrap64 (y * 1024) * 1024) = (y * 2 ^ 20)%Z).
  { intros x y y'. assert (Hy : (4 <= y' <= 128)%Z).
    { subst y y'. destruct (Z.ltb_spec 128 x); cbn [Z.ltb Z.compare]; [done|]. destruct (Z.ltb_spec x 4); lia. }
    split; [done|]. split.
    - intros Hx. subst y y'. destruct (Z.ltb_spec 128 x); [lia|]. destruct (Z.ltb_spec x 4); lia.
    - rewrite (wrap64_small (y' * 1024)) by lia. rewrite wrap64_small by lia. lia. }
  destruct (Hclamp r) as (Hr & Hri & ->), (Hclamp t) as (Ht & Hti & ->).
  split; [lia|]. split; [lia|]. split; [|split].
  - intros v n Hv Hn Hrange. rewrite Hri; subst r; rewrite Hv, Hn; done.
  - intros v n Hv Hn Hrange. rewrite Hti; subst t; rewrite Hv, Hn; done.
  - intros Hv. rewrite Hri; subst r; rewrite Hv; done.
Qed.

(** *** The admin servers *)
Section admin_theorems.
Context `{UT : UnicodeTables} (ip_loopback : string → bool).

Lemma Admin_Start_Listening os var addr token :
  Admin_Start ip_loopback os var = Listening addr token →
  ∃ host (port : Z), addr = JoinHostPort host (pretty port) ∧ token = Getenv os "ADMIN_TOKEN" ∧
    (isLoopbackHost ip_loopback host = true ∨ token ≠ "").
Proof.
  unfold Admin_Start, adminListenConfig. case_decide; [done|]. destruct (Atoi _) as [port|]; [|done].
  set (host := if decide (TrimSpace _ = "") then _ else _). destruct (negb _ && _) eqn:Hg; [done|]. intros [= <- <-].
  exists host, port. repeat split. apply andb_false_iff in Hg as [Hg|Hg].
  - left. by apply negb_false_iff.
  - right. by apply bool_decide_eq_false in Hg.
Qed.

Lemma adminTokenMiddleware_passes {S} token next c (s : S) r s' :
  adminTokenMiddleware token next c s = (r, s') → s' ≠ s →
  next c s = (r, s') ∧ (token = "" ∨ q_authorization c = "Bearer " +:+ token).
Proof.
  unfold adminTokenMiddleware. case_decide; [by auto|]. case_bool_decide; [by auto|]. intros [= <- <-]. done.
Qed.

(** C15: the admin servers cannot be used from outside without the token: a
    control or pprof server only listens on a host that is not loopback when
    [ADMIN_TOKEN] is set, and a request has an effect (stops the server, runs
    the collector, writes a profile) only on a loopback server without a token
    or with the header [Authorization: Bearer] and the token; the server is
    stopped by [POST /stop] and nothing else. *)
Theorem admin_servers_guarded os addr token :
  (Control_Start ip_loopback os = Listening addr token ∨ PProfServer_Start ip_loopback os = Listening addr token) →
  ∃ host (port : Z), addr = JoinHostPort host (pretty port) ∧ (isLoopbackHost ip_loopback host = true ∨ token ≠ "") ∧
  (∀ c s r s', newEcho token c s = (r, s') → s' ≠ s →
     (token = "" ∧ isLoopbackHost ip_loopback host = true ∨ q_authorization c = "Bearer " +:+ token) ∧
     (waitChannel s'.1 ≠ waitChannel s.1 → q_method c = "POST" ∧ q_path c = "/stop")) ∧
  (∀ c s r s', pprof_echo token c s = (r, s') → s' ≠ s →
     token = "" ∧ isLoopbackHost ip_loopback host = true ∨ q_authorization c = "Bearer " +:+ token).
Proof.
  intros Hstart. assert (Hl : ∃ var, Admin_Start ip_loopback os var = Listening addr token)
    by (destruct Hstart as [H|H]; by eexists). destruct Hl as [var Hl].
  apply Admin_Start_Listening in Hl as (host & port & -> & _ & Hguard). exists host, port. repeat split; [done|..].
  - apply adminTokenMiddleware_passes in H as [_ [-> | ->]]; [|by right|done]. left. by destruct Hguard.
  - apply adminTokenMiddleware_passes in H as [H _]; [|done]. unfold control_routes in H. repeat case_decide; simplify_eq; naive_solver.
  - apply adminTokenMiddleware_passes in H as [H _]; [|done]. unfold control_routes in H. repeat case_decide; simplify_eq; naive_solver.
  - intros c s r s' H Hne. apply adminTokenMiddleware_passes in H as [_ [-> | ->]]; [|by right|done]. left. by destruct Hguard.
Qed.
End admin_theorems.

Lemma admin_servers_guarded_witness :
  ∃ host port, JoinHostPort "10.0.0.1" "7777" = JoinHostPort host (pretty (port : Z)) ∧ "s3cret" ≠ "" ∧
   (∀ c s r s', newEcho "s3cret" c s = (r, s') → s' ≠ s → q_authorization c = "Bearer s3cret").
Proof.
  destruct (admin_servers_guarded (UT := latin1_tables) (fun _ => false)
    ["CONTROL_PORT=7777"; "ADMIN_BIND_ADDRESS= 10.0.0.1"; "ADMIN_TOKEN=s3cret"] (JoinHostPort "10.0.0.1" "7777") "s3cret")
    as (host & port & Ha & _ & Hc & _).
  - left. vm_compute. reflexivity.
  - exists host, port. split; [exact Ha|]. split; [discriminate|]. intros c s r s' H Hne.
    destruct (Hc c s r s' H Hne) as [[[He _]|He] _]; [discriminate|exact He].
Defined.

(** *** Configuration defaults *)
Section defaults.
Import Config.
Context {J : Type}.

Lemma set_default_lookup k v (m : gmap string (@cvalue J)) k' :
  set_default k v m !! k' = match m !! k' with Some x => Some x | None => if decide (k = k') then Some v else None end.
Proof.
  unfold set_default. destruct (m !! k) as [x|] eqn:Hk.
  - destruct (m !! k') eqn:Hk'; [done|]. case_decide; congruence.
  - rewrite lookup_insert. case_decide as Heq; [subst; by rewrite Hk|by destruct (m !! k')].
Qed.

(** What the configuration says is kept, apart from [NATS_ENABLED], which the
    environment alone decides. *)
Lemma with_defaults_keeps os (m : gmap string (@cvalue J)) k x :
  k ≠ "NATS_ENABLED" → m !! k = Some x → with_defaults os m !! k = Some x.
Proof.
  intros Hk Hx. unfold with_defaults. cbv zeta. rewrite !set_default_lookup, lookup_insert_ne by congruence.
  by rewrite !set_default_lookup, Hx.
Qed.

Lemma with_defaults_nats os (m : gmap string (@cvalue J)) :
  with_defaults os m !! "NATS_ENABLED" = Some (CBool (BoolEnv os "NATS_ENABLED" false)).
Proof. unfold with_defaults. cbv zeta. by rewrite !set_default_lookup, lookup_insert_eq. Qed.

Lemma with_defaults_complete os (m : gmap string (@cvalue J)) k :
  k ∈ ["APPLICATION_ENVIRONMENT"; "APPLICATION_NAME"; "PORT"; "NATS_ENABLED"; "GRPC_GATEWAY_ENABLED"; "REST_PORT"; "PRETTY_LOG";
       "LOG_LEVEL"; "ddProfilerConfig"] → is_Some (with_defaults os m !! k).
Proof.
  intros Hk. destruct (decide (k = "NATS_ENABLED")) as [-> |Hn]; [rewrite with_defaults_nats; by eexists|].
  unfold with_defaults. cbv zeta. rewrite !set_default_lookup, lookup_insert_ne by congruence. rewrite !set_default_lookup.
  destruct (m !! k); [by eexists|]. repeat (case_decide; [by eexists|]). exfalso. set_solver.
Qed.
End defaults.

(** *** The sequence of events *)
Section lifecycle.
Import Server.

(** The place of an event in the life of the process. *)
Definition acquire_phase (r : resource) : nat :=
  match r with PProfServerR => 1 | PProfR => 2 | ControlR => 3 | LogFileR _ => 4 | ContainerR => 8 | ConnR _ => 24 end.
Definition phase (e : event) : nat :=
  match e with
  | Acquire r => acquire_phase r
  | SetLogLevel => 5 | LoadConfigE => 6 | ConfigureServices => 7
  | SchedulerStart => 9 | SetRootContainer => 10 | ConfigureServerOpts => 11 | Configure => 12
  | NewServer _ _ _ _ _ => 13 | RegisterReflection => 14 | RegisterEndpoint _ => 15 | RegisterHealth => 16 | SetServing _ => 17
  | ProfilerStart => 18 | OnPreServerStartup => 19 | Listen _ => 20 | Serve => 21
  | StartNATSGateway => 25 | RegisterHandler _ => 26 | GatewayServe _ => 27
  | WaitE => 30 | HealthShutdown => 31 | NATSShutdown => 32 | OnPreServerShutdown => 33 | GatewayShutdown => 34
  | SchedulerStop => 35 | GracefulStop => 36 | OnPostServerShutdown => 37 | JoinGateway => 38 | ProfilerStop => 39 | JoinServer => 40
  | Release r => 100 - acquire_phase r
  end.

Definition acquired (tr : list event) : list resource :=
  omap (fun e => match e with Acquire r => Some r | _ => None end) tr.
Definition not_release (e : event) : Prop := match e with Release _ => False | _ => True end.

Definition in_order (tr : list event) : Prop := StronglySorted (fun e e' => phase e <= phase e') tr.

(** A piece of the program between two phases: its events are in order and in
    these phases, it defers the releases of what it acquires, and when it ends
    normally the events of [must] have happened. *)
Definition stage {A} (lo hi : nat) (must : list event) (m : program A) : Prop := ∀ s, ∃ new,
  trace (m s).1 = trace s ++ new ∧ deferred (m s).1 = (Release <$> reverse (acquired new)) ++ deferred s ∧
  in_order new ∧ Forall (fun e => lo <= phase e <= hi ∧ not_release e) new ∧ (∀ x, (m s).2 = Done x → must ⊆ new).

(** The values a piece may end with. *)
Definition may_return {A} (m : program A) (x : A) : Prop := ∃ s, (m s).2 = Done x.

Lemma in_order_app l1 l2 mid :
  in_order l1 → in_order l2 → Forall (fun e => phase e <= mid) l1 → Forall (fun e => mid <= phase e) l2 → in_order (l1 ++ l2).
Proof.
  unfold in_order. intros H1 H2 Hl1 Hl2. induction H1 as [|e l1 _ IH He]; [done|]. apply Forall_cons in Hl1 as [Hm Hl1]. cbn [app].
  constructor; [by apply IH|]. apply Forall_app. split; [done|]. eapply Forall_impl; [exact Hl2|]. simpl. lia.
Qed.

Lemma stage_none {A} lo hi (m : program A) : (∀ s, (m s).1 = s) → stage lo hi [] m.
Proof. intros Hm s. exists []. rewrite Hm, app_nil_r. repeat split; [constructor..|]. done. Qed.

Lemma stage_pret {A} lo hi (a : A) : stage lo hi [] (pret a).
Proof. by apply stage_none. Qed.
Lemma stage_or_fatal {A} lo hi msg (r : result string A) : stage lo hi [] (or_fatal msg r).
Proof. apply stage_none. by destruct r. Qed.
Lemma stage_fatal {A} lo hi must w : stage lo hi must (@fatal A w).
Proof. intros s. exists []. rewrite app_nil_r. repeat split; [constructor..|]. done. Qed.
Lemma stage_panic {A} lo hi must w : stage lo hi must (@panic A w).
Proof. intros s. exists []. rewrite app_nil_r. repeat split; [constructor..|]. done. Qed.

Definition plain_event (e : event) : Prop := match e with Release _ | Acquire _ => False | _ => True end.

Lemma stage_emit lo hi e : lo <= phase e <= hi → plain_event e → stage lo hi [e] (emit e).
Proof.
  intros Hp He s. exists [e]. split; [done|]. split; [by destruct e|]. split; [repeat constructor|].
  split; [|done]. repeat constructor; [lia..|]. by destruct e.
Qed.

Lemma stage_acquire lo hi r : lo <= acquire_phase r <= hi → stage lo hi [Acquire r] (acquire r).
Proof. intros Hp s. exists [Acquire r]. repeat split; [repeat constructor| |done]. repeat constructor; simpl; lia. Qed.

Lemma stage_bind {A B} lo mid hi l1 l2 (m : program A) (f : A → program B) :
  lo <= mid <= hi → stage lo mid l1 m → (∀ a, may_return m a → stage mid hi l2 (f a)) → stage lo hi (l1 ++ l2) (pbind m f).
Proof.
  intros Hlm Hm Hf s. destruct (Hm s) as (n1 & Ht1 & Hd1 & Ho1 & Hp1 & Hx1). unfold pbind.
  assert (Hwide : Forall (fun e => lo <= phase e <= hi ∧ not_release e) n1)
    by (eapply Forall_impl; [exact Hp1|]; intros e [He ?]; split; [lia|done]).
  destruct (m s) as [s1 [a|w|w]] eqn:Hms; cbn [fst snd] in *; [|exists n1; repeat split; done..].
  destruct (Hf a) with (s := s1) as (n2 & Ht2 & Hd2 & Ho2 & Hp2 & Hx2); [exists s; by rewrite Hms|].
  exists (n1 ++ n2). rewrite Ht2, Ht1, Hd2, Hd1, <- (assoc_L (++)). split; [done|]. split; [|split; [|split]].
  - unfold acquired. rewrite omap_app, reverse_app, fmap_app. by rewrite (assoc_L (++)).
  - apply (in_order_app _ _ mid); [done..| |]; [eapply Forall_impl; [exact Hp1|]|eapply Forall_impl; [exact Hp2|]]; intros e [He _]; lia.
  - apply Forall_app. split; [done|]. eapply Forall_impl; [exact Hp2|]. intros e [He ?]. split; [lia|done].
  - intros x Hx. specialize (Hx1 a eq_refl). specialize (Hx2 x Hx).
    intros e [He|He]%elem_of_app; apply elem_of_app; auto.
Qed.

Lemma stage_when lo hi l (b : bool) m : stage lo hi l m → stage lo hi (if b then l else []) (when b m).
Proof. intros Hm. destruct b; [done|apply stage_pret]. Qed.

Lemma stage_hook lo hi panics e : lo <= phase e <= hi → plain_event e → stage lo hi [e] (hook panics e).
Proof. intros. unfold hook. destruct (panics e); [apply stage_panic|by apply stage_emit]. Qed.

Lemma stage_weaken {A} lo hi l lo' hi' l' (m : program A) :
  stage lo hi l m → lo' <= lo → hi <= hi' → l' ⊆ l → stage lo' hi' l' m.
Proof.
  intros Hm Hlo Hhi Hl s. destruct (Hm s) as (n & ? & ? & ? & Hp & Hx). exists n. repeat split; try done.
  - eapply Forall_impl; [exact Hp|]. intros e [He ?]. split; [lia|done].
  - intros x Hd e He. apply (Hx x Hd). auto.
Qed.

Lemma stage_each {A} p panics (l : list A) (g : A → event) :
  (∀ x, phase (g x) = p ∧ plain_event (g x)) → stage p p (g <$> l) (each l (fun x => hook panics (g x))).
Proof.
  intros Hg. induction l as [|x l IH]; [apply stage_pret|]. apply (stage_bind p p p [g x]); [lia| |done].
  destruct (Hg x). by apply stage_hook; [lia|].
Qed.

(** Go through a sequence, one phase boundary at a time. *)
Local Ltac upto mid := eapply (stage_bind _ mid); [lia| |intros].
Local Ltac one := first [ apply stage_pret | apply stage_fatal | apply stage_panic | apply stage_or_fatal
  | apply stage_when; one | apply stage_hook; simpl; [lia|done] | apply stage_emit; simpl; [lia|done] | apply stage_acquire; simpl; lia ].
Local Ltac many p := eapply (stage_weaken p p); [apply (stage_each p); done|lia..|done].

Context `{UT : UnicodeTables} (h : host) (a : application).

Lemma start_admin_stage r what st lo hi : lo <= acquire_phase r <= hi → stage lo hi [] (start_admin r what st).
Proof. intros. destruct st; [one..| |one]. eapply (stage_weaken lo hi); [by apply stage_acquire|lia|lia|set_solver]. Qed.

Lemma open_log_stage : stage 3 4 [] (open_log h).
Proof. unfold open_log. case_decide; [one|]. eapply (stage_weaken 3 4); [upto 3; one|lia|lia|set_solver]. Qed.

Lemma load_core_config_stage : stage 5 6 [LoadConfigE] (load_core_config a).
Proof. unfold load_core_config. destruct (negb _); [one|]. eapply (stage_bind _ 5 _ []); [lia|one|]. intros. eapply (stage_bind _ 6 _ [_] []); [lia|one|intros; one]. Qed.

Lemma build_server_stage :
  stage 9 17 ([Configure] ++ (RegisterEndpoint <$> seq 0 (su_endpoints a)) ++ [RegisterHealth] ++ (SetServing <$> default [] (su_statuses a)))
    (build_server h a).
Proof.
  unfold build_server. destruct (getGRPCMsgSizeLimits _) as [mr ms]. eapply (stage_weaken 9 17); [|lia..|].
  - upto 10; [one|]. upto 11; [one|]. upto 12; [one|]. upto 13; [one|]. upto 14; [one|]. upto 15; [many 15|]. upto 16; [one|].
    instantiate (1 := SetServing <$> default [] (su_statuses a)). destruct (su_statuses a); [|one]. many 17.
  - set_solver.
Qed.

Lemma listen_stage lis c : stage 19 20 [] (listen h lis c).
Proof.
  unfold listen. destruct lis; [one|]. case_decide; [one|]. eapply (stage_weaken 19 20); [upto 19; [one|]; upto 20; one|lia|lia|set_solver].
Qed.

Lemma dial_loopback_stage c addr : stage 21 24 [] (dial_loopback h a c addr).
Proof.
  unfold dial_loopback. destruct (LoopbackClientCredentials _ _); [|one]. eapply (stage_weaken 21 24); [upto 21; one|lia|lia|set_solver].
Qed.

(** The events of serving and of an orderly shut-down, for a configuration. *)
Definition gateway_address (c : CoreConfig) : string := getBindAddress (h_env h) +:+ ":" +:+ pretty (RESTPort c).
Definition gateway_events (c : CoreConfig) : list event :=
  if GRPCGateWayEnabled c then (RegisterHandler <$> seq 0 (su_endpoints a)) ++ [GatewayServe (gateway_address c)] else [].
Definition shutdown_events (c : CoreConfig) : list event :=
  (if su_health_shutdown a then [HealthShutdown] else []) ++ (if NATSEnabled c && nats_handed_over h a then [NATSShutdown] else []) ++
  [OnPreServerShutdown] ++ (if GRPCGateWayEnabled c then [GatewayShutdown] else []) ++ [SchedulerStop] ++ [GracefulStop] ++
  [OnPostServerShutdown] ++ (if GRPCGateWayEnabled c then [JoinGateway] else []) ++ (if su_profiler a then [ProfilerStop] else []) ++
  [JoinServer].
Definition startup_events : list event :=
  [LoadConfigE; ConfigureServices; Acquire ContainerR; SchedulerStart; Configure; RegisterHealth; OnPreServerStartup; Serve] ++
  (RegisterEndpoint <$> seq 0 (su_endpoints a)) ++ (SetServing <$> default [] (su_statuses a)) ++
  (if su_profiler a then [ProfilerStart] else []).

Lemma start_gateway_stage c : stage 25 27 (gateway_events c) (start_gateway h a c).
Proof. apply stage_when. upto 26; [many 26|one]. Qed.

Lemma shut_down_stage c : stage 30 40 (shutdown_events c) (shut_down h a c).
Proof.
  unfold shut_down, shutdown_events. upto 31; [one|]. upto 32; [one|]. upto 33; [one|]. upto 34; [one|]. upto 35; [one|].
  upto 36; [one|]. upto 37; [one|]. upto 38; [one|]. upto 39; [one|]. one.
Qed.

Lemma load_core_config_returns c : may_return (load_core_config a) c → su_config a = Ok c.
Proof.
  intros [s Hs]. unfold load_core_config in Hs. destruct (negb _); [done|]. unfold pbind, or_fatal in Hs.
  destruct (su_config a); [|done]. by injection Hs as ->.
Qed.

Lemma StartWithListenter_stage c lis :
  (∀ c', su_config a = Ok c' → c' = c) →
  stage 1 40 (startup_events ++ gateway_events c ++ [WaitE] ++ shutdown_events c) (StartWithListenter h a lis).
Proof.
  intros Hc. eapply (stage_weaken 1 40); [|lia..|].
  - unfold StartWithListenter. upto 1; [apply start_admin_stage; simpl; lia|]. upto 2; [one|].
    upto 3; [apply start_admin_stage; simpl; lia|]. upto 4; [apply open_log_stage|]. upto 5; [one|].
    upto 6; [apply load_core_config_stage|]. rename select CoreConfig into c'.
    match goal with H : may_return _ c' |- _ => apply load_core_config_returns in H; apply Hc in H; subst c' end.
    upto 7; [one|]. upto 8; [instantiate (1 := [Acquire ContainerR]); destruct (su_build a); one|]. upto 8; [one|]. upto 9; [one|].
    upto 17; [apply build_server_stage|]. upto 18; [one|]. upto 18; [one|]. upto 19; [one|]. upto 20; [apply listen_stage|].
    upto 21; [one|]. upto 24; [apply dial_loopback_stage|]. upto 25; [one|]. upto 27; [apply start_gateway_stage|].
    upto 30; [one|]. apply shut_down_stage.
  - unfold startup_events. set_solver.
Qed.

(** *** Well-bracketed resources *)
Fixpoint replay_resources (tr : list event) (held : list resource) : option (list resource) :=
  match tr with
  | [] => Some held
  | Acquire r :: tr' => replay_resources tr' (r :: held)
  | Release r :: tr' =>
      match held with
      | r' :: held' => match r, r' with
                       | PProfServerR, PProfServerR | PProfR, PProfR | ControlR, ControlR | ContainerR, ContainerR => replay_resources tr' held'
                       | LogFileR n, LogFileR n' | ConnR n, ConnR n' => if decide (n = n') then replay_resources tr' held' else None
                       | _, _ => None
                       end
      | [] => None
      end
  | _ :: tr' => replay_resources tr' held
  end.

Lemma replay_resources_app t1 t2 held held' : replay_resources t1 held = Some held' → replay_resources (t1 ++ t2) held = replay_resources t2 held'.
Proof.
  revert held. induction t1 as [|e t1 IH]; intros held Hr; [by injection Hr as ->|].
  destruct e; simpl in *; repeat case_match; try done; by apply IH.
Qed.

Lemma replay_acquired tr held : Forall not_release tr → replay_resources tr held = Some (reverse (acquired tr) ++ held).
Proof.
  intros Hn. revert held. induction Hn as [|e tr He _ IH]; intros held; [done|].
  destruct e; try (cbn [replay_resources]; rewrite IH; unfold acquired; done); [|done]. cbn [replay_resources]. rewrite IH. unfold acquired.
  cbn [omap list_omap]. by rewrite reverse_cons, <- (assoc_L (++)).
Qed.

Lemma replay_released held : replay_resources (Release <$> held) held = Some [].
Proof. induction held as [|r held IH]; [done|]. destruct r; simpl; rewrite ?decide_True by done; exact IH. Qed.

Lemma released_in_order tr : in_order tr → in_order (Release <$> reverse (acquired tr)).
Proof.
  unfold in_order at 1. induction 1 as [|e tr _ IH He]; [constructor|].
  assert (Hr : match e with Acquire r => acquired (e :: tr) = r :: acquired tr | _ => acquired (e :: tr) = acquired tr end) by (by destruct e).
  destruct e; try (by rewrite Hr). rewrite Hr, reverse_cons, fmap_app.
  apply (in_order_app _ _ (100 - acquire_phase r)); [done|repeat constructor| |repeat constructor].
  apply Forall_fmap, Forall_reverse. unfold acquired. clear IH Hr. induction He as [|e' tr He' _ IH]; [constructor|].
  destruct e'; try exact IH. cbn [omap list_omap]. constructor; [simpl in *; lia|exact IH].
Qed.

Lemma pbind_Done {A B} (m : program A) (f : A → program B) s s' y :
  pbind m f s = (s', Done y) → ∃ s1 x, m s = (s1, Done x) ∧ f x s1 = (s', Done y).
Proof. unfold pbind. destruct (m s) as [s1 [x|w|w]]; [|done..]. intros H. by exists s1, x. Qed.

Lemma StartWithListenter_config lis s s' x : StartWithListenter h a lis s = (s', Done x) → ∃ c, su_config a = Ok c.
Proof.
  unfold StartWithListenter. intros H. do 5 apply pbind_Done in H as (? & ? & _ & H).
  apply pbind_Done in H as (s1 & c & Hc & _). exists c. apply load_core_config_returns. eexists. by rewrite Hc.
Qed.

(** C14: the life of the server, for every host, application and listener: the
    events of start-up, serving and shut-down happen in the one order of
    [phase] (nothing serves before it is configured, registered and approved by
    [OnPreServerStartup]; the health service says NOT_SERVING before the
    servers drain; the container is disposed of after they have stopped);
    resources are released in the reverse order they were taken and, unless
    the process exits by [log.Fatal], all of them are, also when application code
    or a service panics at any step; and a run that returns has registered every
    endpoint, served, waited, stopped the scheduler and the profiler, shut down and
    joined the gRPC server and (if enabled) the HTTP gateway, and, when the
    configuration enables NATS, shut down the NATS services that the gateway's
    goroutine had handed over by then.  That goroutine itself is not waited for
    (see [nats_gateway_outlives_server]). *)
Theorem server_lifecycle (lis : option netAddr) :
  let '(tr, e) := run_program (StartWithListenter h a lis) in
  in_order tr ∧
  (∃ held, replay_resources tr [] = Some held ∧ (held = [] ∨ ∃ why, e = Exited why)) ∧
  (e = Returned → ∃ c, su_config a = Ok c ∧ startup_events ++ gateway_events c ++ [WaitE] ++ shutdown_events c ⊆ tr).
Proof.
  set (c0 := default (mkCoreConfig "" "" 0 false 0 false "" false false "" "" "" "" "") (match su_config a with Ok c => Some c | Err _ => None end)).
  assert (Hc0 : ∀ c', su_config a = Ok c' → c' = c0) by (intros c' Hc; subst c0; by rewrite Hc).
  destruct (StartWithListenter_stage c0 lis Hc0 (mkP [] [])) as (new & Ht & Hd & Ho & Hp & Hx).
  assert (Hnr : Forall not_release new) by (eapply Forall_impl; [exact Hp|]; by intros e []).
  assert (Hrun : in_order (new ++ (Release <$> reverse (acquired new)))).
  { apply (in_order_app _ _ 40); [done|by apply released_in_order|eapply Forall_impl; [exact Hp|]; intros e [? _]; lia|].
    apply Forall_fmap, Forall_true. intros r. destruct r; simpl; lia. }
  assert (Hrep : replay_resources (new ++ (Release <$> reverse (acquired new))) [] = Some []).
  { erewrite replay_resources_app; [|by apply replay_acquired]. rewrite app_nil_r. apply replay_released. }
  unfold run_program. destruct (StartWithListenter h a lis (mkP [] [])) as [s en] eqn:Hrun0. cbn [fst snd trace deferred app] in *.
  rewrite app_nil_r in Hd. rewrite Ht, Hd. destruct en as [x|w|w].
  - split; [done|]. split; [exists []; auto|]. intros _. exists c0. split.
    2: { intros e He. apply elem_of_app. left. by apply (Hx x eq_refl). }
    destruct (StartWithListenter_config lis _ _ _ Hrun0) as [c Hc]. by rewrite Hc, (Hc0 c Hc).
  - split; [done|]. split; [|done]. exists (reverse (acquired new)). split; [rewrite <- (app_nil_r (reverse _)); by apply replay_acquired|].
    right. by exists w.
  - split; [done|]. split; [exists []; auto|done].
Qed.
End lifecycle.

(** *** Concrete runs *)
Section runs.
Import Server.
#[local] Existing Instance latin1_tables.

Definition run_host (env : Os.environ) : host :=
  mkHost env (fun _ => false) (Some "/srv") (fun _ => Ok tt) (fun _ => Ok (TCPAddr (Some "127.0.0.1") false 50051)) (fun _ => Ok tt).
Definition run_config : CoreConfig := mkCoreConfig "" "" 50051 true 50052 false "" true false "" "" "" "" "".
(** One endpoint, the HTTP gateway and NATS; the goroutine has made [progress] steps at shut-down. *)
Definition run_app (progress : nat) : application :=
  mkApp true (Ok run_config) None (fun _ => None) (Ok tt) false true true 1 (Some ["greeter"]) true false (Ok tt) None
    true (Ok true) (Ok tt) (Ok tt) progress.
Definition nats_env : Os.environ := ["NATS_ENABLED=true"].

Lemma server_lifecycle_witness :
  let run := run_program (StartWithListenter (run_host nats_env) (run_app 3) None) in
  run.2 = Returned ∧ in_order run.1 ∧ drop 19 run.1 =
    [WaitE; HealthShutdown; NATSShutdown; OnPreServerShutdown; GatewayShutdown; SchedulerStop; GracefulStop; OnPostServerShutdown;
     JoinGateway; JoinServer; Release (ConnR "127.0.0.1:50051"); Release ContainerR].
Proof.
  intros run. pose proof (server_lifecycle (run_host nats_env) (run_app 3) None) as H.
  assert (Hr : run.2 = Returned) by (vm_compute; reflexivity).
  assert (Ht : drop 19 run.1 = [WaitE; HealthShutdown; NATSShutdown; OnPreServerShutdown; GatewayShutdown; SchedulerStop; GracefulStop;
    OnPostServerShutdown; JoinGateway; JoinServer; Release (ConnR "127.0.0.1:50051"); Release ContainerR]) by (vm_compute; reflexivity).
  fold run in H. clearbody run. destruct run as [tr e]. split; [exact Hr|]. split; [exact (proj1 H)|exact Ht].
Defined.

(** The goroutine of the NATS gateway is not joined: when the server is stopped
    before it has handed its container over, [StartWithListenter] returns without a
    shut-down of NATS, with the container of services and the connection it uses
    already released, and the goroutine goes on to register its services. *)
Theorem nats_gateway_outlives_server :
  let '(tr, e) := run_program (StartWithListenter (run_host nats_env) (run_app 1) None) in
  e = Returned ∧ StartNATSGateway ∈ tr ∧ ¬ (NATSShutdown ∈ tr) ∧ Release ContainerR ∈ tr ∧
  drop 1 (nats_goroutine (run_app 1)) = [NATSRegister; NATSSetContainer].
Proof.
  destruct (run_program _) as [tr e] eqn:E. vm_compute in E. injection E as <- <-.
  split; [done|]. split; [|split; [|split; [|reflexivity]]].
  - repeat (apply list_elem_of_here || apply list_elem_of_further).
  - intros H. repeat (apply elem_of_cons in H as [?|H]; [done|]). by apply elem_of_nil in H.
  - repeat (apply list_elem_of_here || apply list_elem_of_further).
Qed.
End runs.
