(* ===== verification/MetadataFilter.v ===== *)
(** * Hash sets and the metadata filter

    [gods/sets/hashset] (one set type per element type, all instances of the
    same template: the model is generic in the element type) and
    [metadatafilter]: a unary interceptor that removes the incoming metadata
    that neither the global list nor the list of the called method allows. *)
From stdpp Require Import gmap strings.
From S2P Require Import Prelude GoText.
From stdpp Require Import options.

(** ** [gods/sets/hashset] *)
Module HashSet.
Section hashset.
Context `{Countable A}.

(** [items map[A]struct{}]. *)
Record Set_ := mkSet { items : gset A }.

Definition Add (set : Set_) (l : list A) : Set_ := mkSet (foldl (fun s x => {[x]} ∪ s) (items set) l).
Definition NewSet (values : list A) : Set_ := if decide (0 < length values) then Add (mkSet ∅) values else mkSet ∅.
Definition Remove (set : Set_) (l : list A) : Set_ := mkSet (foldl (fun s x => s ∖ {[x]}) (items set) l).

Fixpoint Contains (set : Set_) (l : list A) : bool :=
  match l with [] => true | x :: l' => if decide (x ∈ items set) then Contains set l' else false end.

Definition Size (set : Set_) : nat := size (items set).
Definition Empty (set : Set_) : bool := bool_decide (Size set = 0).
Definition Clear (set : Set_) : Set_ := mkSet ∅.

(** In the order of the iteration over the map, which is not specified. *)
Definition Values (order : list A → list A) (set : Set_) : list A := order (elements (items set)).

(** The text, from that of the elements. *)
Definition String_ (name : string) (show : A → string) (order : list A → list A) (set : Set_) : string :=
  name +:+ String.String (Ascii.ascii_of_N 10) "" +:+ strings_Join (show <$> order (elements (items set))) ", ".

(** [ToJSON] and [FromJSON], from the encoding of lists. *)
Definition ToJSON (marshal : list A → result string string) (order : list A → list A) (set : Set_) : result string string :=
  marshal (Values order set).
Definition FromJSON (unmarshal : string → result string (list A)) (set : Set_) (data : string) : option string * Set_ :=
  match unmarshal data with
  | Ok elements => (None, Add (Clear set) elements)
  | Err e => (Some e, set)
  end.
End hashset.
Arguments Set_ A {_ _}.
End HashSet.
Import HashSet.

(** ** The filter *)
(** [metadata.MD]: keys are lower case. *)
Abbreviation incoming_md := (gmap string (list string)).

(** The headers allowed for each method. *)
Abbreviation allowed_map := (gmap string (Set_ string)).

Section filter.
Context `{UT : UnicodeTables}.

(** The builder of the per-method lists. *)
Definition NewEntryPointAllowedMetadataMapBuilder : allowed_map := ∅.

Definition WithAllowedMetadataHeader (m : allowed_map) (fullMethodName : string) (headers : list string) : allowed_map :=
  let m := match m !! fullMethodName with Some _ => m | None => <[fullMethodName := NewSet []]> m end in
  foldl (fun m header => match m !! fullMethodName with
                         | Some set => <[fullMethodName := Add set [strings_ToLower header]]> m
                         | None => m
                         end) m headers.

Record metadataFilterMiddleware := mkFilter { allowedGlobal : Set_ string; allowedByEntryPoint : allowed_map }.

(** The test of the loop. *)
Definition header_allowed (s : metadataFilterMiddleware) (fullMethod header : string) : bool :=
  if Contains (allowedGlobal s) [header] then true
  else match allowedByEntryPoint s !! fullMethod with
       | Some entryPointAllowed => Contains entryPointAllowed [strings_ToLower header]
       | None => false
       end.

(** The loop over the headers, in the order the map is visited in. *)
Fixpoint not_allowed_headers (s : metadataFilterMiddleware) (fullMethod : string) (headers : list string) : list string :=
  match headers with
  | [] => []
  | header :: headers' =>
      if header_allowed s fullMethod header then not_allowed_headers s fullMethod headers'
      else header :: not_allowed_headers s fullMethod headers'
  end.

(** [md.Del] lowers the key. *)
Definition md_Del (md : incoming_md) (header : string) : incoming_md := delete (strings_ToLower header) md.

Section interceptor.
(** The request's context with its incoming metadata ([metautils]). *)
Context {Ctx Resp : Type} (ExtractIncoming : Ctx → incoming_md) (ToIncoming : incoming_md → Ctx → Ctx).

Definition filter_interceptor (order : list string → list string) (s : metadataFilterMiddleware) (fullMethod : string)
    (handler : Ctx → Resp) (ctx : Ctx) : Resp :=
  let md := ExtractIncoming ctx in
  let notAllowedHeaders := not_allowed_headers s fullMethod (order (map_to_list md).*1) in
  let md := foldl md_Del md notAllowedHeaders in
  handler (ToIncoming md ctx).

(** [nilMetadataFilterMiddleware]. *)
Definition nil_filter_interceptor (handler : Ctx → Resp) (ctx : Ctx) : Resp := handler ctx.
End interceptor.
End filter.

(** ** Theorems *)
Section hashset_theorems.
Context `{Countable A}.

Lemma Add_items (set : Set_ A) l : items (Add set l) = list_to_set l ∪ items set.
Proof.
  unfold Add. cbn [items]. generalize (items set) as s. induction l as [|x l IH]; intros s; [set_solver|]. cbn [foldl].
  rewrite IH. set_solver.
Qed.

Lemma NewSet_items (l : list A) : items (NewSet l) = list_to_set l.
Proof. unfold NewSet. case_decide; [rewrite Add_items; set_solver|]. destruct l; simpl in *; [done|lia]. Qed.

Lemma Remove_items (set : Set_ A) l : items (Remove set l) = items set ∖ list_to_set l.
Proof.
  unfold Remove. cbn [items]. generalize (items set) as s. induction l as [|x l IH]; intros s; [set_solver|]. cbn [foldl].
  rewrite IH. set_solver.
Qed.

Lemma Contains_items (set : Set_ A) l : Contains set l = true ↔ list_to_set l ⊆ items set.
Proof.
  induction l as [|x l IH]; [split; [set_solver|done]|]. cbn [Contains]. case_decide; [rewrite IH; set_solver|].
  split; [done|]. set_solver.
Qed.

(** The JSON of a set reads back as the set, in whatever order it was written. *)
Lemma FromJSON_ToJSON marshal unmarshal order (set set' : Set_ A) data :
  (∀ l s, marshal l = Ok s → unmarshal s = Ok l) → (∀ l, order l ≡ₚ l) →
  ToJSON marshal order set = Ok data → FromJSON unmarshal set' data = (None, set).
Proof.
  intros Hm Ho Hd. unfold FromJSON. rewrite (Hm _ _ Hd). f_equal.
  destruct set as [s]. enough (items (Add (Clear set') (Values order (mkSet s))) = s) by (unfold Add in *; by f_equal).
  rewrite Add_items. unfold Values. cbn [items Clear].
  rewrite (list_to_set_perm_L _ _ (Ho (elements s))), list_to_set_elements_L. set_solver.
Qed.
End hashset_theorems.

Section filter_theorems.
Context `{UT : UnicodeTables}.

(** The calls to the builder, in order. *)
Definition build_allowed (calls : list (string * list string)) : allowed_map :=
  foldl (fun m c => WithAllowedMetadataHeader m c.1 c.2) NewEntryPointAllowedMetadataMapBuilder calls.

Lemma with_headers (m : gmap string (Set_ string)) f set headers :
  m !! f = Some set →
  foldl (fun m header => match m !! f with Some set => <[f := Add set [strings_ToLower header]]> m | None => m end) m headers
  = <[f := Add set (strings_ToLower <$> headers)]> m.
Proof.
  revert m set. induction headers as [|hd headers IH]; intros m set Hm.
  { cbn [foldl fmap list_fmap]. rewrite insert_id; [done|]. rewrite Hm. f_equal. by destruct set. }
  cbn [foldl]. rewrite Hm, (IH _ (Add set [strings_ToLower hd])) by apply lookup_insert_eq. rewrite insert_insert_eq.
  by destruct set.
Qed.

(** One call: the method's list grows by the lowered headers, the others stay. *)
Lemma WithAllowedMetadataHeader_spec (m : gmap string (Set_ string)) f headers :
  WithAllowedMetadataHeader m f headers = <[f := Add (default (mkSet ∅) (m !! f)) (strings_ToLower <$> headers)]> m.
Proof.
  unfold WithAllowedMetadataHeader. destruct (m !! f) as [set|] eqn:Hm; [by rewrite (with_headers m f set)|].
  rewrite (with_headers _ f (mkSet ∅)) by apply lookup_insert_eq. by rewrite insert_insert_eq.
Qed.

(** C22: the lists of allowed metadata are well formed: after any calls to the
    builder, exactly the methods named have a list, and it holds exactly the
    lower-cased forms of the headers given for that method, in any call. *)
Theorem allowed_map_well_formed (calls : list (string * list string)) (f : string) :
  match build_allowed calls !! f with
  | None => f ∉ calls.*1
  | Some set => f ∈ calls.*1 ∧
      ∀ hd, hd ∈ items set ↔ ∃ headers given, (f, headers) ∈ calls ∧ given ∈ headers ∧ hd = strings_ToLower given
  end.
Proof.
  unfold build_allowed. induction calls as [|[g headers] calls IH] using rev_ind; [apply not_elem_of_nil|].
  rewrite foldl_app. cbn [foldl fst snd]. rewrite WithAllowedMetadataHeader_spec.
  set (m := foldl _ _ calls) in *. rewrite fmap_app. cbn [fmap list_fmap fst].
  destruct (decide (g = f)) as [-> |Hne].
  - rewrite lookup_insert_eq. split; [set_solver|]. intros hd. rewrite Add_items, elem_of_union, elem_of_list_to_set, list_elem_of_fmap.
    destruct (m !! f) as [set|] eqn:Hf; cbn [default].
    + destruct IH as [_ IH]. rewrite IH. setoid_rewrite elem_of_app. setoid_rewrite list_elem_of_singleton. naive_solver.
    + setoid_rewrite elem_of_app. setoid_rewrite list_elem_of_singleton. split.
      * intros [(x & -> & Hx)|Hx]; [naive_solver|set_solver].
      * intros (hs & x & [Hin|Hin] & Hx & ->); [|naive_solver]. exfalso. apply IH, list_elem_of_fmap. by exists (f, hs).
  - rewrite lookup_insert_ne by done. destruct (m !! f) as [set|] eqn:Hf.
    + destruct IH as [Hin IH]. split; [set_solver|]. intros hd. rewrite IH. setoid_rewrite elem_of_app.
      setoid_rewrite list_elem_of_singleton. naive_solver.
    + set_solver.
Qed.

Lemma not_allowed_elem s f headers hd :
  hd ∈ not_allowed_headers s f headers ↔ hd ∈ headers ∧ header_allowed s f hd = false.
Proof.
  induction headers as [|x headers IH]; [set_solver|]. cbn [not_allowed_headers].
  destruct (header_allowed s f x) eqn:Hx; rewrite ?elem_of_cons, IH; naive_solver congruence.
Qed.

Lemma foldl_Del (md : gmap string (list string)) l k :
  foldl md_Del md l !! k = if decide (k ∈ strings_ToLower <$> l) then None else md !! k.
Proof.
  revert md. induction l as [|x l IH]; intros md; [done|]. cbn [foldl]. rewrite IH. unfold md_Del. rewrite lookup_delete.
  rewrite fmap_cons. repeat case_decide; try done; exfalso; set_solver.
Qed.

(** C21: the filter passes exactly the allowed metadata: whatever order the map
    is visited in, the handler is called once, with the incoming metadata
    restricted to the headers that are on the global list or, lower-cased, on
    the list of the called method, with their values unchanged. *)
Theorem metadata_filter_exact {Ctx Resp} (ExtractIncoming : Ctx → incoming_md) (ToIncoming : incoming_md → Ctx → Ctx)
    order s fullMethod (handler : Ctx → Resp) ctx :
  (∀ l, order l ≡ₚ l) → (∀ k, is_Some (ExtractIncoming ctx !! k) → strings_ToLower k = k) →
  filter_interceptor ExtractIncoming ToIncoming order s fullMethod handler ctx
  = handler (ToIncoming (filter (fun kv => header_allowed s fullMethod kv.1 = true) (ExtractIncoming ctx)) ctx) ∧
  ∀ hd, header_allowed s fullMethod hd = true ↔ hd ∈ items (allowedGlobal s) ∨
    ∃ set, allowedByEntryPoint s !! fullMethod = Some set ∧ strings_ToLower hd ∈ items set.
Proof.
  intros Horder Hlower. split.
  - unfold filter_interceptor. cbv zeta. do 2 f_equal. set (md := ExtractIncoming ctx) in *. apply map_eq. intros k.
    rewrite foldl_Del, map_lookup_filter. destruct (md !! k) as [v|] eqn:Hk; cbn [mbind option_bind]; [|by case_decide].
    assert (Hdom : ∀ x, x ∈ order (map_to_list md).*1 ↔ is_Some (md !! x)).
    { intros x. rewrite (Horder _), list_elem_of_fmap. split.
      - intros ([y v'] & -> & Hin). apply elem_of_map_to_list in Hin. by eexists.
      - intros [v' Hv']. exists (x, v'). split; [done|]. by apply elem_of_map_to_list. }
    assert (Hin : k ∈ strings_ToLower <$> not_allowed_headers s fullMethod (order (map_to_list md).*1) ↔ header_allowed s fullMethod k = false).
    { rewrite list_elem_of_fmap. setoid_rewrite not_allowed_elem. setoid_rewrite Hdom. split.
      - intros (x & -> & Hx & Hna). by rewrite (Hlower x Hx).
      - intros Hna. exists k. assert (is_Some (md !! k)) by (by eexists). by rewrite (Hlower k). }
    case_decide as Hd.
    + apply Hin in Hd. case_guard as Hg; [|done]. cbn [fst] in Hg. congruence.
    + case_guard as Hg; [done|]. destruct Hd. apply Hin. cbn [fst] in Hg. destruct (header_allowed s fullMethod k); [by destruct Hg|done].
  - intros hd. unfold header_allowed. destruct (Contains (allowedGlobal s) [hd]) eqn:Hg.
    + apply Contains_items in Hg. split; [|done]. intros _. left. set_solver.
    + assert (hd ∉ items (allowedGlobal s)).
      { intros Hin. assert (Contains (allowedGlobal s) [hd] = true) by (apply Contains_items; set_solver). congruence. }
      destruct (allowedByEntryPoint s !! fullMethod) as [set|]; [|naive_solver]. rewrite Contains_items. set_solver.
Qed.
End filter_theorems.

Lemma metadata_filter_exact_witness :
  filter_interceptor (UT := latin1_tables) (fun md => md) (fun md _ => md) (fun l => l)
    (mkFilter (NewSet ["authorization"]) (build_allowed (UT := latin1_tables) [("/svc/M", ["X-Tenant"])])) "/svc/M" (fun md => md)
    {["authorization" := ["t"]; "x-tenant" := ["a"]; "x-evil" := ["b"]]}
  = {["authorization" := ["t"]; "x-tenant" := ["a"]]}.
Proof.
  etrans; [apply (metadata_filter_exact (UT := latin1_tables) (fun md => md) (fun md _ => md) (fun l => l) _ "/svc/M" (fun md => md))|].
  - done.
  - intros k [v Hk]. apply lookup_insert_Some in Hk as [[<- _]|[_ Hk]]; [vm_compute; reflexivity|].
    apply lookup_insert_Some in Hk as [[<- _]|[_ Hk]]; [vm_compute; reflexivity|].
    apply lookup_singleton_Some in Hk as [<- _]. vm_compute. reflexivity.
  - vm_compute. reflexivity.
Defined.
