(* ===== verification/Cookies.v ===== *)
(** * Cookies and connection tokens

    The cookie services of [echo/services/cookies/insecure] (base64 JSON) and
    [echo/services/cookies/secure] (signed and encrypted by securecookie), and
    the NATS connection tokens of [nats/nats_token] (base64 JSON).  JSON and
    securecookie are parameters with their round-trip laws; base64 is modelled
    (file [Base64]). *)
From stdpp Require Import gmap strings.
From S2P Require Import Prelude GoText Base64.
From stdpp Require Import options.

(** ** Cookies *)
Inductive cookie_code := CInvalidArgument | CNotFound | CInternal.
Record cookie_error := mkCookieError { ce_code : cookie_code; ce_msg : string }.
Inductive cookie_same_site := SSUnset | SSDefault | SSLax | SSStrict | SSNone.

Section cookies.
Context `{UT : UnicodeTables} {V : Type}.

Record SetCookieRequest := mkSetCookie {
  sc_Name : string; sc_Value : V; sc_Path : string; sc_Secure : option bool; sc_HttpOnly : bool;
  sc_Expires : Z; sc_MaxAge : Z; sc_Domain : string; sc_SameSite : cookie_same_site }.
Record DeleteCookieRequest := mkDeleteCookie {
  dc_Name : string; dc_Domain : string; dc_Path : string; dc_Secure : option bool; dc_SameSite : cookie_same_site }.

(** [http.Cookie]; [Expires] 0 is the zero time. *)
Record http_Cookie := mkHttpCookie {
  hc_Name : string; hc_Value : string; hc_Path : string; hc_Secure : bool; hc_HttpOnly : bool;
  hc_Expires : Z; hc_MaxAge : Z; hc_Domain : string; hc_SameSite : cookie_same_site }.

(** What the services see of an [echo.Context]: the scheme, the header
    [X-Forwarded-Proto] and the cookies of the request. *)
Record echo_context := mkEcho { e_scheme : string; e_forwarded : string; e_cookies : gmap string string }.

Definition secureDefault (scheme forwardedProto : string) (override : option bool) : bool :=
  match override with
  | Some b => b
  | None => bool_decide (scheme = "https") || strings_EqualFold forwardedProto "https"
  end.

(** [validateSetCookieRequest] and [validateDeleteCookieRequest]. *)
Definition validate_name_path (name path : string) : option cookie_error :=
  if decide (name = "") then Some (mkCookieError CInvalidArgument "Name is required")
  else if decide (path = "") then Some (mkCookieError CInvalidArgument "Path is required")
  else None.
Definition validateSetCookieRequest (r : SetCookieRequest) : option cookie_error := validate_name_path (sc_Name r) (sc_Path r).
Definition validateDeleteCookieRequest (r : DeleteCookieRequest) : option cookie_error := validate_name_path (dc_Name r) (dc_Path r).

(** A cookie service: how a value is written for a name, and read. *)
Record cookie_codec := mkCodec { cc_encode : string → V → result string string; cc_decode : string → string → result string V }.

(** [SetCookie]: the cookie set on the response. *)
Definition SetCookie (cc : cookie_codec) (c : echo_context) (r : SetCookieRequest) : result cookie_error http_Cookie :=
  match validateSetCookieRequest r with
  | Some e => Err e
  | None =>
      let isTLS := secureDefault (e_scheme c) (e_forwarded c) (sc_Secure r) in
      match cc_encode cc (sc_Name r) (sc_Value r) with
      | Err e => Err (mkCookieError CInternal e)
      | Ok encoded =>
          Ok (mkHttpCookie (sc_Name r) encoded (sc_Path r) isTLS (sc_HttpOnly r) (sc_Expires r) (sc_MaxAge r) (sc_Domain r) (sc_SameSite r))
      end
  end.

Definition GetCookie (cc : cookie_codec) (c : echo_context) (name : string) : result cookie_error V :=
  if decide (name = "") then Err (mkCookieError CInvalidArgument "Name is required")
  else match e_cookies c !! name with
       | None => Err (mkCookieError CNotFound "http: named cookie not present")
       | Some value => match cc_decode cc name value with
                       | Err e => Err (mkCookieError CInternal e)
                       | Ok v => Ok v
                       end
       end.

Definition DeleteCookie (c : echo_context) (r : DeleteCookieRequest) : result cookie_error http_Cookie :=
  match validateDeleteCookieRequest r with
  | Some e => Err e
  | None => Ok (mkHttpCookie (dc_Name r) "" (dc_Path r) (secureDefault (e_scheme c) (e_forwarded c) (dc_Secure r)) true 0 (-1)
                  (dc_Domain r) (dc_SameSite r))
  end.

(** The insecure service: base64 of JSON. *)
Definition insecure_codec (marshal : V → result string (list N)) (unmarshal : list N → result string V) : cookie_codec :=
  mkCodec (fun _ v => b ← marshal v; Ok (EncodeToString URLEncoding b))
          (fun _ s => match DecodeString URLEncoding s with
                      | None => Err "illegal base64 data"
                      | Some b => unmarshal b
                      end).

(** The secure service: [securecookie]'s [Encode] and [Decode]. *)
Record SecureCookiesConfig := mkSecureConfig { HashKey : string; BlockKey : string }.

Definition secure_Ctor (SecureCookie_New : string → string → cookie_codec) (config : SecureCookiesConfig) : result cookie_error cookie_codec :=
  if bool_decide (HashKey config = "") || bool_decide (BlockKey config = "")
  then Err (mkCookieError CInvalidArgument "HashKey and BlockKey are required")
  else Ok (SecureCookie_New (HashKey config) (BlockKey config)).

Definition validateSecureCookiesConfig (config : SecureCookiesConfig) : option cookie_error :=
  if decide (HashKey config = "") then Some (mkCookieError CInvalidArgument "HashKey is required")
  else if decide (String.length (HashKey config) < 32) then Some (mkCookieError CInvalidArgument "HashKey should be at least 32 bytes long")
  else if decide (BlockKey config = "") then Some (mkCookieError CInvalidArgument "BlockKey is required")
  else if decide (String.length (BlockKey config) ≠ 16 ∧ String.length (BlockKey config) ≠ 32)
  then Some (mkCookieError CInvalidArgument "BlockKey should be 16 or 32 bytes long")
  else None.

(** [AddSecureCookies]: the configuration is registered, or the process panics. *)
Definition AddSecureCookies (config : SecureCookiesConfig) : result cookie_error SecureCookiesConfig :=
  match validateSecureCookiesConfig config with Some e => Err e | None => Ok config end.
End cookies.
Arguments SetCookieRequest V : clear implicits.
Arguments cookie_codec V : clear implicits.

(** ** NATS connection tokens *)
Section nats_token.
(** The two kinds of token. *)
Record ClientCredentialsTokenType := mkCredentials { cr_ClientID : string; cr_ClientSecret : string; cr_Scopes : string; cr_Account : string }.
Record MastodonTokenType := mkMastodon { mt_AccessToken : string }.
Inductive connect_token := ClientCredentials (t : ClientCredentialsTokenType) | Mastodon (t : MastodonTokenType).

(** [encoding/json] on the structs used: a payload tagged with its type. *)
Record token_json := mkTokenJson {
  marshal_tagged : string → connect_token → result string (list N);
  unmarshal_type : list N → result string string;
  unmarshal_credentials : list N → result string (option ClientCredentialsTokenType);
  unmarshal_mastodon : list N → result string (option MastodonTokenType) }.

Definition MarshalJSON (js : token_json) (token : option connect_token) : result string (list N) :=
  match token with
  | Some (ClientCredentials t) => marshal_tagged js "ClientCredentialsTokenType" (ClientCredentials t)
  | Some (Mastodon t) => marshal_tagged js "MastodonTokenType" (Mastodon t)
  | None => Err "unknown token type"
  end.

(** The token; the inner [None] is a nil pointer of the kind named. *)
Inductive decoded_token := DCredentials (t : option ClientCredentialsTokenType) | DMastodon (t : option MastodonTokenType).

Definition UnmarshalJSON (js : token_json) (data : list N) : result string decoded_token :=
  ty ← unmarshal_type js data;
  if decide (ty = "ClientCredentialsTokenType") then t ← unmarshal_credentials js data; Ok (DCredentials t)
  else if decide (ty = "MastodonTokenType") then t ← unmarshal_mastodon js data; Ok (DMastodon t)
  else Err "unknown token type".

Record CreateNATSConnectTokenRequest := mkTokenRequest { tr_ClientID : string; tr_ClientSecret : string; tr_Account : string }.

Definition CreateNATSConnectTokenClientCredentials (js : token_json) (r : CreateNATSConnectTokenRequest) : result string string :=
  match MarshalJSON js (Some (ClientCredentials (mkCredentials (tr_ClientID r) (tr_ClientSecret r) "" (tr_Account r)))) with
  | Err e => Err ("failed to marshal NATS connect token: " +:+ e)
  | Ok json => Ok (EncodeToString StdEncoding json)
  end.

Definition DecodeNATSConnectTokenClientCredentials (js : token_json) (token : string) : result string (option ClientCredentialsTokenType) :=
  match DecodeString StdEncoding token with
  | None => Err "illegal base64 data"
  | Some json =>
      t ← UnmarshalJSON js json;
      match t with DCredentials c => Ok c | DMastodon _ => Err "invalid token type" end
  end.
End nats_token.

(** ** Theorems *)

(** A codec that reads what it wrote, under the same name (for securecookie:
    while the cookie is younger than the lifetime it signs). *)
Class CodecLaws {V} (cc : cookie_codec V) : Prop :=
  codec_roundtrip name v s : cc_encode cc name v = Ok s → cc_decode cc name s = Ok v.

(** JSON that reads what it wrote, as bytes. *)
Class JsonLaws {V} (marshal : V → result string (list N)) (unmarshal : list N → result string V) : Prop := {
  json_bytes v b : marshal v = Ok b → Forall (fun x => x < 256)%N b;
  json_roundtrip v b : marshal v = Ok b → unmarshal b = Ok v }.

#[global] Instance insecure_codec_laws {V} (marshal : V → result string (list N)) unmarshal :
  JsonLaws marshal unmarshal → CodecLaws (insecure_codec marshal unmarshal).
Proof.
  intros [Hb Hr] name v s. cbn [insecure_codec cc_encode cc_decode]. destruct (marshal v) as [b|] eqn:Hm; [|done]. intros [= <-].
  rewrite DecodeString_EncodeToString; [by apply Hr|apply URLEncoding_ok|by eapply Hb].
Qed.

Section cookie_theorems.
Context `{UT : UnicodeTables} {V : Type}.

(** a cookie that was set is read back and can be deleted: a request with a
    name and a path whose value can be written sets a cookie; the next request
    that brings it gives the value back; and deleting it from a request of the
    same kind sets a cookie with the same name, path, domain, [Secure] flag and
    [SameSite] mode, the attributes by which a browser replaces it, an empty
    value and a negative [Max-Age]; requests without a name or a path are
    refused. *)
Theorem cookie_set_get_delete (cc : cookie_codec V) (c c' : echo_context) (r : SetCookieRequest V) (encoded : string) :
  CodecLaws cc → cc_encode cc (sc_Name r) (sc_Value r) = Ok encoded →
  if decide (sc_Name r = "" ∨ sc_Path r = "") then ∃ msg, SetCookie cc c r = Err (mkCookieError CInvalidArgument msg)
  else ∃ ck, SetCookie cc c r = Ok ck ∧
    (e_cookies c' !! sc_Name r = Some (hc_Value ck) → GetCookie cc c' (sc_Name r) = Ok (sc_Value r)) ∧
    (sc_Secure r = None → hc_Secure ck = bool_decide (e_scheme c = "https") || strings_EqualFold (e_forwarded c) "https") ∧
    ∃ del, DeleteCookie c (mkDeleteCookie (sc_Name r) (sc_Domain r) (sc_Path r) (sc_Secure r) (sc_SameSite r)) = Ok del ∧
      (hc_Name del, hc_Path del, hc_Domain del, hc_Secure del, hc_SameSite del)
      = (hc_Name ck, hc_Path ck, hc_Domain ck, hc_Secure ck, hc_SameSite ck) ∧
      hc_Value del = "" ∧ (hc_MaxAge del < 0)%Z.
Proof.
  intros Hlaws Henc. unfold SetCookie, validateSetCookieRequest, DeleteCookie, validateDeleteCookieRequest, validate_name_path.
  cbn [dc_Name dc_Path dc_Domain dc_Secure dc_SameSite]. destruct (decide (sc_Name r = "")) as [Hn|Hn].
  { rewrite decide_True by auto. by eexists. }
  destruct (decide (sc_Path r = "")) as [Hp|Hp]; [rewrite decide_True by auto; by eexists|]. rewrite decide_False by tauto.
  rewrite Henc. eexists. split; [reflexivity|]. split; [|split].
  - cbn [hc_Value]. intros Hc. unfold GetCookie. rewrite decide_False, Hc by done. by rewrite (Hlaws _ _ _ Henc).
  - cbn [hc_Secure]. unfold secureDefault. by intros ->.
  - eexists. by repeat split.
Qed.
End cookie_theorems.

(** A JSON codec for strings: the text itself. *)
#[global] Instance text_json_laws : JsonLaws (fun s : string => Ok (bytes_of_string s)) (fun b => Ok (string_of_bytes b)).
Proof.
  split; intros v b [= <-]; [|by rewrite string_of_bytes_of_string].
  induction v as [|ch v IH]; [constructor|]. constructor; [apply Ascii.N_ascii_bounded|exact IH].
Qed.

Lemma cookie_set_get_delete_witness :
  let cc := insecure_codec (fun s : string => Ok (bytes_of_string s)) (fun b => Ok (string_of_bytes b)) in
  GetCookie cc (mkEcho "https" "" {["theme" := "ZGFyaw=="]}) "theme" = Ok "dark".
Proof.
  intros cc.
  destruct (cookie_set_get_delete (UT := latin1_tables) cc (mkEcho "https" "" ∅) (mkEcho "https" "" {["theme" := "ZGFyaw=="]})
    (mkSetCookie "theme" "dark" "/" None true 0 0 "" SSLax) "ZGFyaw==" _ ltac:(vm_compute; reflexivity)) as (ck & Hset & Hget & _).
  apply Hget. vm_compute in Hset. injection Hset as <-. vm_compute. reflexivity.
Defined.

(** A NATS connection token decodes to the credentials it was made from. *)
Theorem nats_token_roundtrip (js : token_json) (r : CreateNATSConnectTokenRequest) (b : list N) :
  let t := mkCredentials (tr_ClientID r) (tr_ClientSecret r) "" (tr_Account r) in
  marshal_tagged js "ClientCredentialsTokenType" (ClientCredentials t) = Ok b → Forall (fun x => x < 256)%N b →
  unmarshal_type js b = Ok "ClientCredentialsTokenType" → unmarshal_credentials js b = Ok (Some t) →
  ∃ token, CreateNATSConnectTokenClientCredentials js r = Ok token ∧
    DecodeNATSConnectTokenClientCredentials js token = Ok (Some t).
Proof.
  intros t Hm Hb Hty Hc. unfold CreateNATSConnectTokenClientCredentials. cbn [MarshalJSON]. fold t. rewrite Hm.
  eexists. split; [reflexivity|]. unfold DecodeNATSConnectTokenClientCredentials.
  rewrite DecodeString_EncodeToString; [|apply StdEncoding_ok|done]. unfold UnmarshalJSON. rewrite Hty. cbn [mbind result_bind].
  rewrite decide_True by done. by rewrite Hc.
Qed.
