(* ===== verification/Correlation.v ===== *)
(** * Correlation and logging interceptors

    [middleware/correlation], [middleware/logging], [middleware/otel] and the
    correlation middleware of [echo/middleware/logger]: correlation identifiers
    and spans travel in the request metadata, in the response headers and in
    the fields of the logger that the context carries.  Loggers are pointers
    into a store, because [UpdateContext] changes one in place while
    [WithContext] makes a new one. *)
From stdpp Require Import gmap strings pretty.
From S2P Require Import Prelude GoText NatsService.
From stdpp Require Import options.

Abbreviation md_t := (gmap string (list string)).

(** ** Contexts and loggers *)
(** A zerolog logger: whether its level is [Disabled], its fields in the order
    they were added, and how many caller and property bag hooks it has. *)
Record logger := mkLogger { lg_disabled : bool; lg_fields : list (string * string); lg_caller : bool; lg_bag : bool }.

Definition Str (k v : string) (l : logger) : logger := mkLogger (lg_disabled l) (lg_fields l ++ [(k, v)]) (lg_caller l) (lg_bag l).
Definition With_Caller (l : logger) : logger := mkLogger (lg_disabled l) (lg_fields l) true (lg_bag l).
Definition Hook_bag (l : logger) : logger := mkLogger (lg_disabled l) (lg_fields l) (lg_caller l) true.

(** A request's context: its metadata, the logger it carries, the values set
    under string keys, the trace identifier OpenTelemetry put there, and whether
    it has a request container with a property bag. *)
Record rctx := mkRctx {
  cx_md : option md_t; cx_logger : option nat; cx_values : gmap string string; cx_trace : string; cx_bag : bool }.

(** The headers given to [grpc.SetHeader] (sent with the response) or to
    [grpc.SendHeader] (sent at once). *)
Inductive header_call := SetHeader (md : md_t) | SendHeader (md : md_t).

(** The property bag of the request. *)
Abbreviation bag_t := (gmap string string).

(** The loggers; how many identifiers were generated; the response headers; the
    bag; and the name the logging interceptor has looked up once. *)
Record lworld := mkLW { w_loggers : list logger; w_ids : nat; w_headers : list header_call; w_bag : bag_t; w_origin : option string }.
Definition with_loggers (w : lworld) (l : list logger) : lworld := mkLW l (w_ids w) (w_headers w) (w_bag w) (w_origin w).
Definition with_bag (w : lworld) (b : bag_t) : lworld := mkLW (w_loggers w) (w_ids w) (w_headers w) b (w_origin w).
Definition with_origin (w : lworld) (o : string) : lworld := mkLW (w_loggers w) (w_ids w) (w_headers w) (w_bag w) (Some o).
Definition add_header (w : lworld) (h : header_call) : lworld := mkLW (w_loggers w) (w_ids w) (w_headers w ++ [h]) (w_bag w) (w_origin w).

(** ** The property bag *)
Definition bag_Get (b : bag_t) (key : string) : option string := if decide (key = "") then None else b !! key.
Definition bag_Set (b : bag_t) (key value : string) : bag_t := if decide (key ≠ "") then <[key := value]> b else b.
Definition bag_Delete (b : bag_t) (key : string) : bag_t := if decide (key ≠ "") then delete key b else b.
Definition bag_Keys (order : list string → list string) (b : bag_t) : list string := order (map_to_list b).*1.
Definition bag_AsMap (b : bag_t) : gmap string string := b.

(** ** Interceptors *)
Section interceptors.
Context `{UT : UnicodeTables}.
(** [xid.New]: the n-th identifier; the global logger; and the orders in which
    a map is visited. *)
Context (uid : nat → string) (global : logger).
Context (md_order : list (string * list string) → list (string * list string)) (field_order : list (string * string) → list (string * string)).

(** A handler's reply; [None] is a panic. *)
Context {R : Type}.
Definition lhandler : Type := rctx → lworld → option R * lworld.

Definition XRequestID : string := "x-request-id".
Definition LogCorrelationIDName : string := "correlation_id".
Definition LogSpanName : string := "span".
Definition LogParentName : string := "parent".
Definition ContextOriginKey : string := "ctxOrigin".

Definition GenerateUniqueID (w : lworld) : string * lworld :=
  (uid (w_ids w), mkLW (w_loggers w) (S (w_ids w)) (w_headers w) (w_bag w) (w_origin w)).

(** The logger of the context, if it carries one. *)
Definition ctx_logger (c : rctx) (w : lworld) : option logger := n ← cx_logger c; w_loggers w !! n.

(** [baseLogger]: the logger of the context unless it is disabled, else the global one. *)
Definition baseLogger (c : rctx) (w : lworld) : logger :=
  match ctx_logger c w with Some l => if lg_disabled l then global else l | None => global end.

(** [WithContext]: a new pointer. *)
Definition WithContext (l : logger) (c : rctx) (w : lworld) : rctx * lworld :=
  (mkRctx (cx_md c) (Some (length (w_loggers w))) (cx_values c) (cx_trace c) (cx_bag c), with_loggers w (w_loggers w ++ [l])).

Definition withLoggerFields (c : rctx) (fields : gmap string string) (w : lworld) : rctx * lworld :=
  WithContext (foldl (fun l kv => Str kv.1 kv.2 l) (baseLogger c w) (field_order (map_to_list fields))) c w.

(** The loop over the metadata: the correlation and request identifiers found
    so far; [None] when an empty list of values is indexed. *)
Fixpoint scan_ids (md : list (string * list string)) (correlationID requestID : string) : option (string * string) :=
  match md with
  | [] => Some (correlationID, requestID)
  | (key, v) :: md' =>
      let lowerKey := strings_ToLower key in
      correlationID ← (if decide (lowerKey = XCorrelationIDName) then head v else Some correlationID);
      requestID ← (if decide (lowerKey = XRequestID) then head v else Some requestID);
      scan_ids md' correlationID requestID
  end.

(** The response headers. *)
Definition response_ids (requestID correlationID : string) : md_t :=
  {[XRequestID := [requestID]; XCorrelationIDName := [correlationID]]}.

(** The identifiers of a request, generated when missing. *)
Definition ensure_correlation (md : md_t) (w : lworld) : option (string * string * md_t * lworld) :=
  '(correlationID, requestID) ← scan_ids (md_order (map_to_list md)) "" "0";
  Some (if decide (correlationID = "") then
          let '(id, w) := GenerateUniqueID w in (id, requestID, <[XCorrelationIDName := [id]]> md, w)
        else (correlationID, requestID, md, w)).

(** The spans: the incoming one becomes the parent of a new one. *)
Definition ensure_spans (md : md_t) (fields : gmap string string) (w : lworld) : md_t * gmap string string * lworld :=
  let '(md, fields) := match md !! XSpanName with
                       | Some (item :: _) => (<[XParentName := [item]]> md, <[LogParentName := item]> fields)
                       | _ => (md, fields)
                       end in
  let '(newSpanID, w) := GenerateUniqueID w in
  (<[XSpanName := [newSpanID]]> md, <[LogSpanName := newSpanID]> fields, w).

Definition ExtractIncoming (c : rctx) : md_t := default ∅ (cx_md c).
Definition ToIncoming (md : md_t) (c : rctx) : rctx := mkRctx (Some md) (cx_logger c) (cx_values c) (cx_trace c) (cx_bag c).

Definition EnsureCorrelationIDUnaryServerInterceptor (handler : lhandler) : lhandler := fun ctx w =>
  match ensure_correlation (ExtractIncoming ctx) w with
  | None => (None, w)
  | Some (correlationID, requestID, md, w) =>
      let '(md, loggerMap, w) := ensure_spans md {[LogCorrelationIDName := correlationID]} w in
      let '(ctx, w) := withLoggerFields (ToIncoming md ctx) loggerMap w in
      handler ctx (add_header w (SetHeader (response_ids requestID correlationID)))
  end.

Definition EnsureOTELCorrelationIDUnaryServerInterceptor (handler : lhandler) : lhandler := fun ctx w =>
  match ensure_correlation (ExtractIncoming ctx) w with
  | None => (None, w)
  | Some (correlationID, requestID, md, w) =>
      let loggerMap := <["trace_id" := cx_trace ctx]> {[LogCorrelationIDName := correlationID]} in
      let '(ctx, w) := withLoggerFields (ToIncoming md ctx) loggerMap w in
      handler ctx (add_header w (SetHeader (response_ids requestID correlationID)))
  end.

(** [UpdateContext]: the logger of the context is changed in place; without one
    it is zerolog's disabled logger, which is left alone. *)
Definition UpdateContext (fields : gmap string string) (c : rctx) (w : lworld) : lworld :=
  match cx_logger c with
  | Some n => with_loggers w (alter (fun l => foldl (fun l kv => Str kv.1 kv.2 l) l (field_order (map_to_list fields))) n (w_loggers w))
  | None => w
  end.

(** The interceptor of [middleware/otel]. *)
Definition EnsureOpenTelemetryUnaryServerInterceptor (handler : lhandler) : lhandler := fun ctx w =>
  match ensure_correlation (ExtractIncoming ctx) w with
  | None => (None, w)
  | Some (correlationID, requestID, md, w) =>
      let '(md, loggerMap, w) := ensure_spans md {[LogCorrelationIDName := correlationID]} w in
      let w := UpdateContext loggerMap ctx w in
      let ctx := ToIncoming md ctx in
      handler ctx (add_header w (SendHeader (response_ids requestID correlationID)))
  end.

(** *** The logging interceptors *)
(** [json.Unmarshal] into a map, given back as text for the bag ([Some None] for
    the text [null], which leaves a nil map); the container may hold a
    configuration that renames the origin. *)
Context (valid_json : string → option (option string)) (configured_origin : option string).

(** [metadata.MD.Get] lowers the key. *)
Definition getIncomingOriginContextJson (c : rctx) : result string (option string) :=
  match cx_md c with
  | None => Err "no metadata found"
  | Some md =>
      match default [] (md !! strings_ToLower ContextOriginKey) with
      | [] => Ok None
      | text :: _ => match valid_json text with Some v => Ok v | None => Err "invalid ctxOrigin" end
      end
  end.

(** The name is looked up by the first request that comes by. *)
Definition origin_name (w : lworld) : string :=
  match w_origin w with
  | Some o => o
  | None => match configured_origin with Some o => if decide (o = "") then ContextOriginKey else o | None => ContextOriginKey end
  end.

Definition EnsureContextLoggingUnaryServerInterceptor (handler : lhandler) : lhandler := fun ctx w =>
  let l := With_Caller (baseLogger ctx w) in
  if negb (cx_bag ctx) then (None, w) else
  let w := with_origin w (origin_name w) in
  let w := match getIncomingOriginContextJson ctx with
           | Ok (Some v) => with_bag w (bag_Set (w_bag w) (origin_name w) v)
           | _ => w
           end in
  let '(ctx, w) := WithContext (Hook_bag l) ctx w in
  handler ctx w.

Definition EnsureContextLoggingStreamServerInterceptor (handler : lhandler) : lhandler := fun ctx w =>
  let '(ctx, w) := WithContext (With_Caller (baseLogger ctx w)) ctx w in handler ctx w.

Definition LoggingUnaryServerInterceptor (handler : lhandler) : lhandler := fun ctx w => handler ctx w.

(** [PropertyBagHook.Run]: what the hook adds to a line. *)
Definition PropertyBagHook_Run (b : bag_t) : option (gmap string string) := if decide (b = ∅) then None else Some (bag_AsMap b).

(** *** The web middleware *)
(** [EnsureContextLoggerCorrelation]: [next] still gets the request, whose
    context is the old one; the one built here is only used to find the logger. *)
Definition EnsureContextLoggerCorrelation (headers_Get : string → string) (next : lhandler) : lhandler := fun ctx w =>
  let correlationID := headers_Get XCorrelationIDName in
  let '(correlationID, w) := if decide (correlationID = "") then GenerateUniqueID w else (correlationID, w) in
  let loggerMap := {[LogCorrelationIDName := correlationID]} in
  let span := headers_Get XSpanName in
  let '(loggerMap, span, w) :=
    if decide (span ≠ "") then let '(id, w) := GenerateUniqueID w in (<[LogParentName := span]> loggerMap, id, w)
    else (loggerMap, span, w) in
  let '(newSpanID, w) := GenerateUniqueID w in
  let loggerMap : gmap string string := <[LogSpanName := newSpanID]> loggerMap in
  let ctx' := mkRctx (cx_md ctx) (cx_logger ctx)
    (<[XSpanName := newSpanID]> (<[XParentName := span]> (<[XCorrelationIDName := correlationID]> (cx_values ctx)))) (cx_trace ctx) (cx_bag ctx) in
  let w := UpdateContext loggerMap ctx' w in
  next ctx w.
End interceptors.

(** ** Theorems *)
Section correlation_theorems.
Context `{UT : UnicodeTables} (uid : nat → string) (global : logger).
Context (md_order : list (string * list string) → list (string * list string)) (field_order : list (string * string) → list (string * string)).
Context {R : Type}.
Context (md_perm : ∀ l, md_order l ≡ₚ l) (field_perm : ∀ l, field_order l ≡ₚ l).
(** The application has not switched logging off. *)
Context (enabled : lg_disabled global = false).

(** Metadata as gRPC delivers it: lower-case keys, and at least one value each. *)
Definition wire_ok (md : md_t) : Prop := ∀ k v, md !! k = Some v → strings_ToLower k = k ∧ v ≠ [].

(** The first value of a header. *)
Definition incoming (md : md_t) (k : string) : option string := v ← md !! k; head v.

Lemma head_is_Some {A} (v : list A) : v ≠ [] → ∃ x, head v = Some x.
Proof. destruct v; [done|by eexists]. Qed.

Lemma scan_ids_spec l cid rid :
  NoDup l.*1 → (∀ k v, (k, v) ∈ l → strings_ToLower k = k ∧ v ≠ []) →
  let m : md_t := list_to_map l in
  scan_ids l cid rid = Some (default cid (incoming m XCorrelationIDName), default rid (incoming m XRequestID)).
Proof.
  cbv zeta. revert cid rid. induction l as [|[k v] l IH]; intros cid rid; [done|].
  cbn [fmap list_fmap fst scan_ids]. intros [Hk Hnd]%NoDup_cons Hok.
  destruct (Hok k v ltac:(left)) as [Hlow [x Hx]%head_is_Some]. rewrite Hlow.
  assert (IH' : ∀ cid rid, scan_ids l cid rid = Some (default cid (incoming (list_to_map l) XCorrelationIDName),
                                                      default rid (incoming (list_to_map l) XRequestID))).
  { intros. apply IH; [done|]. intros k' v' Hin. apply Hok. by right. }
  assert (Hnone : ∀ n : string, k = n → incoming (list_to_map l) n = None).
  { intros n <-. unfold incoming. by rewrite not_elem_of_list_to_map_1. }
  assert (Hinc : ∀ n, incoming (list_to_map ((k, v) :: l)) n = if decide (k = n) then Some x else incoming (list_to_map l) n).
  { intros n. unfold incoming. rewrite list_to_map_cons. case_decide as Hn.
    - subst n. rewrite lookup_insert_eq. exact Hx.
    - by rewrite lookup_insert_ne. }
  rewrite !Hinc, Hx. repeat case_decide; cbn [mbind option_bind]; rewrite IH';
    repeat match goal with H : k = ?n |- _ => rewrite (Hnone n H); clear H end; done.
Qed.

Lemma ensure_correlation_spec md w :
  wire_ok md →
  let cid := default "" (incoming md XCorrelationIDName) in
  ensure_correlation uid md_order md w = Some (
    let rid := default "0" (incoming md XRequestID) in
    if decide (cid = "") then (uid (w_ids w), rid, <[XCorrelationIDName := [uid (w_ids w)]]> md, (GenerateUniqueID uid w).2)
    else (cid, rid, md, w)).
Proof using md_perm.
  intros Hok cid. unfold ensure_correlation. rewrite scan_ids_spec.
  - cbn [mbind option_bind].
    assert (list_to_map (md_order (map_to_list md)) = md) as ->.
    { rewrite (list_to_map_proper _ (map_to_list md)); [apply list_to_map_to_list| |by apply md_perm].
      rewrite md_perm. apply NoDup_fst_map_to_list. }
    reflexivity.
  - rewrite md_perm. apply NoDup_fst_map_to_list.
  - intros k v Hin. rewrite md_perm, elem_of_map_to_list in Hin. by apply Hok.
Qed.

Lemma fields_added l fields :
  lg_fields (foldl (fun l kv => Str kv.1 kv.2 l) l (field_order (map_to_list fields)))
  = lg_fields l ++ field_order (map_to_list fields) ∧
  lg_disabled (foldl (fun l kv => Str kv.1 kv.2 l) l (field_order (map_to_list fields))) = lg_disabled l.
Proof.
  generalize (field_order (map_to_list fields)) as fs. intros fs. revert l.
  induction fs as [|[k v] fs IH]; intros l; cbn [foldl fst snd]; [by rewrite app_nil_r|].
  destruct (IH (Str k v l)) as [-> ->]. split; [|done]. cbn [Str lg_fields fst snd]. by rewrite <-app_assoc.
Qed.

Lemma field_in (fields : gmap string string) k v : fields !! k = Some v → (k, v) ∈ field_order (map_to_list fields).
Proof using field_perm. intros Hk. by rewrite field_perm, elem_of_map_to_list. Qed.

(** The logger that [withLoggerFields] puts into the context. *)
Lemma withLoggerFields_spec c fields w :
  ∃ l, withLoggerFields global field_order c fields w
       = (mkRctx (cx_md c) (Some (length (w_loggers w))) (cx_values c) (cx_trace c) (cx_bag c), with_loggers w (w_loggers w ++ [l])) ∧
    lg_fields l = lg_fields (baseLogger global c w) ++ field_order (map_to_list fields) ∧ lg_disabled l = false.
Proof using enabled.
  eexists. split; [reflexivity|]. destruct (fields_added (baseLogger global c w) fields) as [Hf Hd]. split; [exact Hf|].
  etrans; [exact Hd|]. unfold baseLogger. destruct (ctx_logger c w) as [l|]; [|exact enabled].
  by destruct (lg_disabled l) eqn:?.
Qed.

Lemma ctx_logger_new w l md v t b :
  ctx_logger (mkRctx md (Some (length (w_loggers w))) v t b) (with_loggers w (w_loggers w ++ [l])) = Some l.
Proof. unfold ctx_logger. cbn. rewrite lookup_app_r by done. by rewrite Nat.sub_diag. Qed.

(** What the handler of a correlated request gets: the identifiers of the
    caller, or fresh ones, in the metadata, in the response headers and in the
    fields of a logger of its own that extends the one the request came with;
    no logger of another request has changed. *)
Record correlated (ctx : rctx) (w : lworld) (ctx' : rctx) (w' : lworld) (cid : string) : Prop := {
  cor_id : cid = match default "" (incoming (ExtractIncoming ctx) XCorrelationIDName) with "" => uid (w_ids w) | c => c end;
  cor_md : incoming (ExtractIncoming ctx') XCorrelationIDName = Some cid;
  cor_header : w_headers w' = w_headers w ++
    [SetHeader (response_ids (default "0" (incoming (ExtractIncoming ctx) XRequestID)) cid)];
  cor_logger : ∃ l, ctx_logger ctx' w' = Some l ∧ lg_disabled l = false ∧
    (LogCorrelationIDName, cid) ∈ lg_fields l ∧ lg_fields (baseLogger global ctx w) `prefix_of` lg_fields l;
  cor_others : w_loggers w `prefix_of` w_loggers w' }.

(** The identifier that [ensure_correlation] settles on, and its metadata. *)
Lemma ensure_correlation_id md w :
  wire_ok md → ∃ cid md' w',
    ensure_correlation uid md_order md w = Some (cid, default "0" (incoming md XRequestID), md', w') ∧
    cid = match default "" (incoming md XCorrelationIDName) with "" => uid (w_ids w) | c => c end ∧
    incoming md' XCorrelationIDName = Some cid ∧
    (∀ k, k ≠ XCorrelationIDName → md' !! k = md !! k) ∧
    w_loggers w' = w_loggers w ∧ w_headers w' = w_headers w ∧ w_bag w' = w_bag w ∧ w_origin w' = w_origin w ∧
    w_ids w <= w_ids w' <= S (w_ids w).
Proof using md_perm.
  intros Hok. rewrite (ensure_correlation_spec md w Hok). cbv zeta.
  destruct (default "" (incoming md XCorrelationIDName)) as [|ch c] eqn:Hc.
  - rewrite decide_True by done. eexists _, _, _. split; [reflexivity|]. split; [done|].
    split; [unfold incoming; by rewrite lookup_insert_eq|]. split; [intros k Hk; by rewrite lookup_insert_ne|]. cbn. repeat split; lia.
  - rewrite decide_False by done. eexists _, _, _. split; [reflexivity|]. split; [done|].
    split; [|repeat split; lia]. destruct (incoming md XCorrelationIDName); [|done]. by cbn in Hc; subst.
Qed.

(** requests are correlated: in the unary chain of the server (correlation,
    then logging), for metadata as gRPC delivers it and whatever order its map
    is visited in, the handler is reached, with the correlation identifier of
    the caller or else a fresh one in its metadata, in the response headers and
    on every line its logger writes, next to the trace identifier; other
    metadata is untouched, the logger extends the one the request came with,
    and no logger of another request is changed. *)
Theorem server_logs_correlated valid_json origin (handler : @lhandler R) (ctx : rctx) (w : lworld) :
  wire_ok (ExtractIncoming ctx) → cx_bag ctx = true →
  ∃ ctx' w' cid,
    EnsureOTELCorrelationIDUnaryServerInterceptor uid global md_order field_order
      (EnsureContextLoggingUnaryServerInterceptor global valid_json origin handler) ctx w = handler ctx' w' ∧
    correlated ctx w ctx' w' cid ∧
    (∀ k, k ≠ XCorrelationIDName → ExtractIncoming ctx' !! k = ExtractIncoming ctx !! k) ∧
    ∃ l, ctx_logger ctx' w' = Some l ∧ ("trace_id", cx_trace ctx) ∈ lg_fields l ∧ lg_caller l = true ∧ lg_bag l = true.
Proof using md_perm field_perm enabled.
  intros Hok Hbag. unfold EnsureOTELCorrelationIDUnaryServerInterceptor.
  destruct (ensure_correlation_id (ExtractIncoming ctx) w Hok) as (cid & md' & w1 & -> & Hcid & Hmd & Hother & Hl & Hh & _ & _ & _).
  set (fields := <["trace_id" := _]> _).
  destruct (withLoggerFields_spec (ToIncoming md' ctx) fields w1) as (l & -> & Hlf & Hld).
  unfold EnsureContextLoggingUnaryServerInterceptor. cbn [cx_bag ToIncoming]. rewrite Hbag. cbn [negb].
  set (ctx1 := mkRctx _ _ _ _ _). set (w2 := add_header _ _).
  assert (Hbase : baseLogger global (ToIncoming md' ctx) w1 = baseLogger global ctx w) by (unfold baseLogger, ctx_logger; by rewrite Hl).
  assert (Hctx1 : baseLogger global ctx1 w2 = l).
  { unfold baseLogger. replace (ctx_logger ctx1 w2) with (Some l); [by rewrite Hld|]. symmetry.
    exact (ctx_logger_new w1 l None ∅ "" true). }
  rewrite Hctx1. set (w3 := match getIncomingOriginContextJson _ ctx1 with Ok (Some _) => _ | _ => _ end).
  assert (Hw3 : w_loggers w3 = w_loggers w1 ++ [l] ∧ w_headers w3 = w_headers w2).
  { unfold w3. by destruct (getIncomingOriginContextJson _ _) as [[]|]. }
  destruct Hw3 as [Hl3 Hh3]. unfold WithContext. eexists _, _, cid. split; [reflexivity|].
  assert (Hlog : ∀ md v t b l', ctx_logger (mkRctx md (Some (length (w_loggers w3))) v t b) (with_loggers w3 (w_loggers w3 ++ [l'])) = Some l')
    by (intros; apply ctx_logger_new).
  split; [constructor|split].
  - exact Hcid.
  - exact Hmd.
  - cbn. rewrite Hh3. cbn. by rewrite Hh.
  - eexists. split; [apply Hlog|]. split; [exact Hld|]. cbn. rewrite Hlf, Hbase. split; [|by eexists].
    apply elem_of_app. right. by apply field_in.
  - cbn. rewrite Hl3, Hl, <-app_assoc. by eexists.
  - exact Hother.
  - eexists. split; [apply Hlog|]. cbn. split; [|done]. rewrite Hlf. apply elem_of_app. right. by apply field_in.
Qed.

(** Without OpenTelemetry, a request is correlated in the same way, and its span
    becomes the parent of a fresh one. *)
Theorem spans_propagate (handler : @lhandler R) (ctx : rctx) (w : lworld) :
  wire_ok (ExtractIncoming ctx) →
  ∃ ctx' w' cid span,
    EnsureCorrelationIDUnaryServerInterceptor uid global md_order field_order handler ctx w = handler ctx' w' ∧
    correlated ctx w ctx' w' cid ∧
    let md := ExtractIncoming ctx in let md' := ExtractIncoming ctx' in
    span = uid (w_ids w' - 1) ∧ w_ids w < w_ids w' ∧ md' !! XSpanName = Some [span] ∧
    md' !! XParentName = (match incoming md XSpanName with Some parent => Some [parent] | None => md !! XParentName end) ∧
    ∀ k, k ≠ XCorrelationIDName → k ≠ XSpanName → k ≠ XParentName → md' !! k = md !! k.
Proof using md_perm field_perm enabled.
  intros Hok. unfold EnsureCorrelationIDUnaryServerInterceptor.
  destruct (ensure_correlation_id (ExtractIncoming ctx) w Hok) as (cid & md' & w1 & -> & Hcid & Hmd & Hother & Hl & Hh & _ & _ & Hids).
  set (F := fun md' fields => (fun p : md_t * gmap string string => withLoggerFields global field_order (ToIncoming p.1 ctx) p.2) (md', fields)).
  assert (Hspan : ∃ md2 fields, ensure_spans uid md' {[LogCorrelationIDName := cid]} w1
      = (<[XSpanName := [uid (w_ids w1)]]> md2, fields, (GenerateUniqueID uid w1).2) ∧ fields !! LogCorrelationIDName = Some cid ∧
      md2 !! XParentName = (match incoming (ExtractIncoming ctx) XSpanName with Some parent => Some [parent] | None => ExtractIncoming ctx !! XParentName end) ∧
      ∀ k, k ≠ XParentName → md2 !! k = md' !! k).
  { unfold ensure_spans, incoming. rewrite <-(Hother XSpanName) by done. destruct (md' !! XSpanName) as [[|item items]|] eqn:Hs.
    - exfalso. rewrite Hother in Hs by done. by apply Hok in Hs as [_ Hs].
    - eexists _, _. split; [reflexivity|]. split; [by rewrite !lookup_insert_ne|]. split; [by rewrite lookup_insert_eq|].
      intros k Hk. by rewrite lookup_insert_ne.
    - eexists _, _. split; [reflexivity|]. split; [by rewrite !lookup_insert_ne|]. split; [by apply Hother|done]. }
  destruct Hspan as (md2 & fields & -> & Hf & Hparent & Hrest). clear F.
  destruct (withLoggerFields_spec (ToIncoming (<[XSpanName := [uid (w_ids w1)]]> md2) ctx) fields (GenerateUniqueID uid w1).2) as (l & -> & Hlf & Hld).
  eexists _, _, cid, (uid (w_ids w1)). split; [reflexivity|]. split.
  { constructor; [done| | | |].
    - unfold incoming in *. cbn. rewrite lookup_insert_ne, Hrest by done. exact Hmd.
    - cbn. by rewrite Hh.
    - exists l. split; [exact (ctx_logger_new (GenerateUniqueID uid w1).2 l None ∅ "" true)|]. split; [done|].
      rewrite Hlf. unfold baseLogger, ctx_logger. cbn. rewrite Hl. split; [|by eexists].
      apply elem_of_app. right. by apply field_in.
    - cbn. rewrite Hl. by eexists. }
  cbn. split; [by rewrite Nat.sub_0_r|]. split; [lia|]. split; [by rewrite lookup_insert_eq|]. split.
  - rewrite lookup_insert_ne by done. exact Hparent.
  - intros k H1 H2 H3. rewrite lookup_insert_ne, Hrest by done. by apply Hother.
Qed.
End correlation_theorems.

Lemma server_logs_correlated_witness :
  let ctx := mkRctx (Some {["x-correlation-id" := ["abc"]]}) None ∅ "t1" true in
  ∃ l : logger, (EnsureOTELCorrelationIDUnaryServerInterceptor (UT := latin1_tables) pretty (mkLogger false [] false false) (fun l => l) (fun l => l)
    (EnsureContextLoggingUnaryServerInterceptor (UT := latin1_tables) (mkLogger false [] false false) (fun _ => None) None (fun c w => (ctx_logger c w, w)))
    ctx (mkLW [] 0 [] ∅ None)).1 = Some l ∧ (LogCorrelationIDName, "abc") ∈ lg_fields l.
Proof.
  intros ctx.
  destruct (server_logs_correlated (UT := latin1_tables) pretty (mkLogger false [] false false) (fun l => l) (fun l => l)
    ltac:(done) ltac:(done) eq_refl (fun _ => None) None (fun c w => (ctx_logger c w, w)) ctx (mkLW [] 0 [] ∅ None)) as (ctx' & w' & cid & -> & Hc & _).
  - intros k v Hk. cbn in Hk. apply lookup_singleton_Some in Hk as [<- <-]. split; [vm_compute; reflexivity|done].
  - reflexivity.
  - destruct Hc as [Hid _ _ (l & Hl & _ & Hin & _) _]. vm_compute in Hid. subst cid. exists l. split; [exact Hl|exact Hin].
Defined.

(** The interceptor of [middleware/otel] writes the fields into the logger that
    the context came with: when two requests share one, as below, the lines of
    the second carry the identifiers of the first as well. *)
Theorem otel_interceptor_mixes_requests :
  let run := EnsureOpenTelemetryUnaryServerInterceptor (UT := latin1_tables) pretty (fun l => l) (fun l => l) (fun c w => (ctx_logger c w, w)) in
  let ctx id := mkRctx (Some {["x-correlation-id" := [id]]}) (Some 0) ∅ "" true in
  let w1 := (run (ctx "first") (mkLW [mkLogger false [] false false] 0 [] ∅ None)).2 in
  (fun l => (snd <$> filter (fun kv => kv.1 = LogCorrelationIDName) (lg_fields l))) <$> (run (ctx "second") w1).1
  = Some ["first"; "second"].
Proof. vm_compute. reflexivity. Qed.

(** The identifiers that [EnsureContextLoggerCorrelation] puts into a context
    reach nobody: the next handler runs with the context the request had. *)
Theorem web_correlation_not_passed_on `{UT : UnicodeTables} {R} uid field_order headers_Get (next : @lhandler R) ctx w :
  ∃ w', EnsureContextLoggerCorrelation uid field_order headers_Get next ctx w = next ctx w' ∧ w_headers w' = w_headers w.
Proof.
  unfold EnsureContextLoggerCorrelation, UpdateContext. cbn [cx_logger]. repeat case_decide; cbn; destruct (cx_logger ctx); by eexists.
Qed.
