(* ===== verification/Web.v ===== *)
(** * The web stack ([echo])

    The request pipeline of [echo/runtime/runtime.go] (recovery from panics,
    the scoped container, the authorization middleware and the handlers), the
    routes of [echo/services/handler], and the start-up phases of [Run] with the
    shut-down race between the server goroutine and the main one.  The router
    and the response writer of the echo library are parameters. *)
From stdpp Require Import gmap strings pretty.
From S2P Require Import Prelude GoText Claims ClaimsAST AuthGate Environment.
From stdpp Require Import options.

(** ** Requests *)
Module WebStack.

(** What a handler returns, or a panic. *)
Inductive web_error := ErrInternalServerError | HandlerError (msg : string).
Inductive web_outcome := Finished (err : option web_error) | Panic.

(** A response: plain text, or a redirection. *)
Inductive response := Text (status : Z) (body : string) | Redirect (status : Z) (location : string).

(** A scope of the container, made for one request: its claims principal, the
    context its accessor holds, and whether it was disposed. *)
Record scope P := mkScope { sp_principal : P; sp_accessor : bool; sp_disposed : bool }.
Arguments mkScope {P}. Arguments sp_principal {P}. Arguments sp_accessor {P}. Arguments sp_disposed {P}.

(** The state of a request: the value under [SCOPED_CONTAINER_KEY] in the echo
    context ([None]: nil), the scopes made so far and the responses written. *)
Record web_state P := mkWeb { ws_container : option nat; ws_scopes : list (scope P); ws_responses : list response }.
Arguments mkWeb {P}. Arguments ws_container {P}. Arguments ws_scopes {P}. Arguments ws_responses {P}.

(** [echo.HandlerFunc] and [echo.MiddlewareFunc]. *)
Definition HandlerFunc (P : Type) : Type := web_state P → web_outcome * web_state P.
Definition MiddlewareFunc (P : Type) : Type := HandlerFunc P → HandlerFunc P.

(** The entry of a path; [ClaimsConfig] may be nil, as may the entry.  A value
    of the metadata is [Some] string, or [None] when it has another type. *)
Record WebEntry := mkWebEntry { we_ClaimsConfig : option ClaimsConfig; we_MetaData : gmap string (option string) }.

(** The route of the request and its URL, as text. *)
Record route := mkRoute { r_path : string; r_url : string }.

Section requests.
Context {P : Type} `{IClaimsPrincipal P}.
(** The principal of a new scope, and the error of writing a text. *)
Context (new_principal : P) (write_error : option web_error).

Definition ClaimTypeAuthenticated : string := "authenticated".

Definition respond (r : response) (st : web_state P) : web_state P :=
  mkWeb (ws_container st) (ws_scopes st) (ws_responses st ++ [r]).
Definition c_String (status : Z) (body : string) : HandlerFunc P := fun st => (Finished write_error, respond (Text status body) st).
Definition c_Redirect (status : Z) (location : string) : HandlerFunc P := fun st => (Finished None, respond (Redirect status location) st).

(** The principal of the scoped container; [None] when the type assertion panics. *)
Definition scoped_principal (st : web_state P) : option P :=
  n ← ws_container st; s ← ws_scopes st !! n; Some (sp_principal s).

(** [permissionDeniedFunc], for an entry that is not nil. *)
Definition permissionDenied (r : route) (elem : WebEntry) (authenticated : bool) : HandlerFunc P :=
  if negb authenticated then
    if decide (we_MetaData elem !! "onUnauthenticated" = Some (Some "login"))
    then c_Redirect 302 ("/login?redirect_url=" +:+ r_url r)
    else c_String 401 "Unauthorized"
  else c_Redirect 302 "/unauthorized".

Definition FinalAuthVerificationMiddlewareUsingClaimsMap (m : gmap string (option WebEntry)) (enableZeroTrust : bool)
    (r : route) : MiddlewareFunc P := fun next st =>
  match scoped_principal st with
  | None => (Panic, st)
  | Some claimsPrincipal =>
      let authenticated := HasClaimType claimsPrincipal ClaimTypeAuthenticated in
      match m !! r_path r with
      | None =>
          if enableZeroTrust then
            if negb authenticated then c_String 401 "Unauthorized" st else c_Redirect 302 "/unauthorized" st
          else next st
      | Some None => (Panic, st)
      | Some (Some elem) =>
          match we_ClaimsConfig elem with
          | None => (Panic, st)
          | Some config => if negb (config_Validate claimsPrincipal config) then permissionDenied r elem authenticated st else next st
          end
      end
  end.

Definition set_container (c : option nat) (st : web_state P) : web_state P := mkWeb c (ws_scopes st) (ws_responses st).
Definition update_scope (n : nat) (f : scope P → scope P) (st : web_state P) : web_state P :=
  mkWeb (ws_container st) (alter f n (ws_scopes st)) (ws_responses st).
Definition dispose (s : scope P) : scope P := mkScope (sp_principal s) (sp_accessor s) true.
Definition accessor_SetContext (s : scope P) : scope P := mkScope (sp_principal s) true (sp_disposed s).

(** The deferred calls run last first, also when [next] panics. *)
Definition EnsureScopedContainer : MiddlewareFunc P := fun next st =>
  let n := length (ws_scopes st) in
  let st := mkWeb (ws_container st) (ws_scopes st ++ [mkScope new_principal false false]) (ws_responses st) in
  let st := set_container (Some n) st in
  let st := update_scope n accessor_SetContext st in
  let '(out, st) := next st in
  (out, update_scope n dispose (set_container None st)).

(** The recovery middleware of [phase3]. *)
Definition Recover : MiddlewareFunc P := fun next st =>
  match next st with
  | (Panic, st) => (Finished (Some ErrInternalServerError), st)
  | r => r
  end.

(** [phase3] installs recovery, the two loggers, the scoped container, and then
    what [Startup.Configure] adds. *)
Definition web_pipeline (logger otel configured : MiddlewareFunc P) : MiddlewareFunc P := fun handler =>
  Recover (logger (otel (EnsureScopedContainer (configured handler)))).

(** [HasWellknownAuthHeaders], over the headers of the request. *)
Definition HasWellknownAuthHeaders (header_Get : string → string) : bool :=
  if decide (header_Get "Authorization" ≠ "") then true else bool_decide (header_Get "X-Api-Key" ≠ "").
End requests.

(** ** What requests can reach *)
Section request_theorems.
Context {P : Type} `{IClaimsPrincipal P} (new_principal : P) (write_error : option web_error).
Context (m : gmap string (option WebEntry)) (enableZeroTrust : bool).

(** The paths a principal may reach: those listed whose claims it has, and the
    unlisted ones without zero trust.  A path listed without claims is not
    reachable. *)
Definition web_allowed (r : route) (p : P) : bool :=
  match m !! r_path r with
  | None => negb enableZeroTrust
  | Some elem => match elem ≫= we_ClaimsConfig with Some config => config_Validate p config | None => false end
  end.

(** How a request that is not allowed is answered; [None]: by a panic. *)
Definition web_denial (r : route) (p : P) : option response :=
  let authenticated := HasClaimType p ClaimTypeAuthenticated in
  match m !! r_path r with
  | Some elem =>
      e ← elem; _ ← we_ClaimsConfig e;
      Some (if authenticated then Redirect 302 "/unauthorized"
            else if decide (we_MetaData e !! "onUnauthenticated" = Some (Some "login"))
                 then Redirect 302 ("/login?redirect_url=" +:+ r_url r) else Text 401 "Unauthorized")
  | None => Some (if authenticated then Redirect 302 "/unauthorized" else Text 401 "Unauthorized")
  end.

Abbreviation gate r := (FinalAuthVerificationMiddlewareUsingClaimsMap write_error m enableZeroTrust r).

Definition answer (resp : response) (st : web_state P) : web_outcome * web_state P :=
  (Finished (match resp with Text _ _ => write_error | Redirect _ _ => None end), respond resp st).

Lemma gate_cases r next st :
  match scoped_principal st with
  | None => gate r next st = (Panic, st)
  | Some p =>
      if web_allowed r p then gate r next st = next st
      else match web_denial r p with
           | Some resp => gate r next st = answer resp st
           | None => gate r next st = (Panic, st)
           end
  end.
Proof.
  unfold FinalAuthVerificationMiddlewareUsingClaimsMap. destruct (scoped_principal st) as [p|]; [|done].
  unfold web_allowed, web_denial, permissionDenied, c_String, c_Redirect.
  destruct (m !! r_path r) as [[e|]|]; cbn [mbind option_bind]; [|done|].
  - destruct (we_ClaimsConfig e) as [c|]; cbn [mbind option_bind]; [|done]. destruct (config_Validate p c); cbn [negb]; [done|].
    destruct (HasClaimType p _); cbn [negb]; [done|]. by case_decide.
  - destruct enableZeroTrust; cbn [negb]; [|done]. by destruct (HasClaimType p _).
Qed.

(** Middleware whose behaviour depends only on what the next handler does. *)
Definition wraps (f : MiddlewareFunc P) : Prop := ∀ h1 h2, (∀ st, h1 st = h2 st) → ∀ st, f h1 st = f h2 st.

Lemma wraps_scoped : wraps (EnsureScopedContainer new_principal).
Proof. intros h1 h2 Heq st. unfold EnsureScopedContainer. cbv zeta. by rewrite Heq. Qed.
Lemma wraps_recover : wraps Recover.
Proof. intros h1 h2 Heq st. unfold Recover. by rewrite Heq. Qed.

(** C16: web requests are guarded: in the pipeline of the web runtime, with any
    other middleware around the gate, the handler is only ever run on behalf of
    a principal that may reach the path (two handlers that agree there cannot
    be told apart by any request), no request ends in a panic, and the gate
    answers a refused request with [/unauthorized], the log-in page or 401,
    without changing anything else. *)
Theorem web_requests_guarded (logger otel before : MiddlewareFunc P) (r : route) (h1 h2 : HandlerFunc P) :
  wraps logger → wraps otel → wraps before →
  (∀ st p, scoped_principal st = Some p → web_allowed r p = true → h1 st = h2 st) →
  ∀ st,
    let run h := web_pipeline new_principal logger otel (fun h => before (gate r h)) h st in
    run h1 = run h2 ∧ (run h1).1 ≠ Panic ∧
    ∀ p, scoped_principal st = Some p → web_allowed r p = false →
      gate r h1 st = match web_denial r p with Some resp => answer resp st | None => (Panic, st) end.
Proof.
  intros Hl Ho Hb Hagree st run. split; [|split].
  - unfold run, web_pipeline. apply wraps_recover, Hl, Ho, wraps_scoped, Hb. intros st'. pose proof (gate_cases r h1 st') as H1.
    pose proof (gate_cases r h2 st') as H2. pose proof (Hagree st') as Ha. destruct (scoped_principal st') as [p|]; [|congruence].
    destruct (web_allowed r p) eqn:Hp; [by rewrite H1, H2, (Ha p)|].
    destruct (web_denial r p); congruence.
  - unfold run, web_pipeline, Recover. by destruct (logger _ st) as [[|]].
  - intros p Hp Hna. pose proof (gate_cases r h1 st) as H1. rewrite Hp, Hna in H1.
    by destruct (web_denial r p).
Qed.

(** One scope per request: the next handler runs with a fresh scope, whose
    accessor holds the request, in the echo context; whatever it does, panics
    included, the scope is disposed afterwards and the context no longer holds
    it, and the scopes of other requests are as it left them. *)
Theorem scope_per_request (next : HandlerFunc P) (st : web_state P) :
  let n := length (ws_scopes st) in
  ∃ st0, ws_container st0 = Some n ∧ ws_scopes st0 = ws_scopes st ++ [mkScope new_principal true false] ∧
    scoped_principal st0 = Some new_principal ∧
    let out := EnsureScopedContainer new_principal next st in
    out.1 = (next st0).1 ∧ ws_container out.2 = None ∧
    (∀ s, ws_scopes (next st0).2 !! n = Some s → ws_scopes out.2 !! n = Some (dispose s)) ∧
    (∀ i, i ≠ n → ws_scopes out.2 !! i = ws_scopes (next st0).2 !! i).
Proof.
  intros n. unfold EnsureScopedContainer, update_scope, set_container. cbn [ws_container ws_scopes ws_responses]. fold n.
  assert (Hsc : alter accessor_SetContext n (ws_scopes st ++ [mkScope new_principal false false])
                = ws_scopes st ++ [mkScope new_principal true false]).
  { subst n. rewrite <-(Nat.add_0_r (length _)), alter_app_r. done. }
  rewrite Hsc. set (st0 := mkWeb (Some n) _ _). exists st0. split; [done|]. split; [done|]. split.
  { unfold scoped_principal, st0. cbn [ws_container ws_scopes mbind option_bind].
    rewrite lookup_app_r by done. unfold n. by rewrite Nat.sub_diag. }
  cbv zeta. destruct (next st0) as [out st']. cbn [fst snd ws_container ws_scopes]. split; [done|]. split; [done|]. split.
  - intros s Hs. by rewrite list_lookup_alter_eq, Hs.
  - intros i Hi. by rewrite list_lookup_alter_ne.
Qed.
End request_theorems.

(** A site with an administration page, and a log-in middleware that gives the
    request's principal the claims named. *)
Definition demo_site : gmap string (option WebEntry) :=
  {["/admin" := Some (mkWebEntry (Some (mkCC [] [NewClaimFact (mkClaim "role" "admin")] None)) {["onUnauthenticated" := Some "login"]})]}.
Definition log_in (claims : list Claim) : MiddlewareFunc Principal.claimsPrincipal := fun next st =>
  match ws_container st with
  | Some n => next (update_scope n (fun s => mkScope (AddClaim (sp_principal s) claims) (sp_accessor s) (sp_disposed s)) st)
  | None => next st
  end.

Lemma web_requests_guarded_witness :
  let page : HandlerFunc Principal.claimsPrincipal := fun st => (Finished None, respond (Text 200 "admin page") st) in
  let run claims page := web_pipeline Principal.NewIClaimsPrincipal (fun h => h) (fun h => h)
    (fun h => log_in claims (FinalAuthVerificationMiddlewareUsingClaimsMap None demo_site true (mkRoute "/admin" "/admin?x=1") h)) page
    (mkWeb None [] []) in
  (run [mkClaim "authenticated" "true"] page = run [mkClaim "authenticated" "true"] (fun st => (Panic, st))) ∧
  ws_responses (run [] page).2 = [Redirect 302 "/login?redirect_url=/admin?x=1"] ∧
  ws_responses (run [mkClaim "authenticated" "true"; mkClaim "role" "admin"] page).2 = [Text 200 "admin page"].
Proof.
  intros page run. split; [|split; vm_compute; reflexivity].
  set (grants := log_in [mkClaim "authenticated" "true"]).
  set (only := fun st => match scoped_principal st with
                         | Some p => if web_allowed demo_site true (mkRoute "/admin" "/admin?x=1") p then page st else (Panic, st)
                         | None => (Panic, st) end).
  assert (Hw : wraps (P := Principal.claimsPrincipal) (fun h => h)) by (intros h1 h2 Heq st; apply Heq).
  assert (Hg : wraps grants). { intros h1 h2 Heq st. unfold grants, log_in. destruct (ws_container st); apply Heq. }
  transitivity (run [mkClaim "authenticated" "true"] only); [|vm_compute; reflexivity].
  apply (web_requests_guarded Principal.NewIClaimsPrincipal None demo_site true (fun h => h) (fun h => h) grants
    (mkRoute "/admin" "/admin?x=1") page only Hw Hw Hg).
  intros st p Hp Ha. unfold only. by rewrite Hp, Ha.
Defined.
End WebStack.

(** ** Routes *)
Module Routes.
Section routes.
Context `{UT : UnicodeTables}.

(** [HTTPVERB] is an integer; the switch knows nine of them. *)
Definition known_verb (v : Z) : bool := bool_decide (0 <= v <= 8)%Z.
Definition HTTPVERB_String (v : Z) : string :=
  match v with
  | 0 => "GET" | 1 => "POST" | 2 => "PUT" | 3 => "DELETE" | 4 => "PATCH" | 5 => "OPTIONS" | 6 => "HEAD" | 7 => "CONNECT"
  | 8 => "TRACE" | _ => "unknown"
  end%Z.

(** What the registration of handlers sees of a descriptor: whether it
    implements [IHandler], its metadata ([None]: missing, or of another type)
    and its lookup keys. *)
Record handler_descriptor := mkHandler {
  hd_handler : bool; hd_path : option string; hd_verbs : option (list Z); hd_keys : list string }.

Definition AddScopedIHandleWithMetadata (httpVerbs : list Z) (path : string) (ds : list handler_descriptor) : list handler_descriptor :=
  ds ++ [mkHandler true (Some path) (Some httpVerbs) [path]].

(** The container's [GetByLookupKey]: the last registration under the key. *)
Fixpoint by_lookup_key (key : string) (ds : list handler_descriptor) : option nat :=
  match ds with
  | [] => None
  | d :: ds' => match by_lookup_key key ds' with
                | Some i => Some (S i)
                | None => if hd_handler d && bool_decide (key ∈ hd_keys d) then Some 0 else None
                end
  end.

(** The map of paths to descriptors; [None] when an assertion panics. *)
Fixpoint path_descriptors (i : nat) (ds : list handler_descriptor) (m : gmap string nat) : option (gmap string nat) :=
  match ds with
  | [] => Some m
  | d :: ds' =>
      if hd_handler d then path ← hd_path d; path_descriptors (S i) ds' (<[strings_ToLower path := i]> m)
      else path_descriptors (S i) ds' m
  end.

(** The routes of one descriptor; a handler is resolved for its middleware. *)
Definition handler_routes (ds : list handler_descriptor) (i : nat) : option (list (Z * string)) :=
  d ← ds !! i; path ← hd_path d; httpVerbs ← hd_verbs d;
  _ ← by_lookup_key path ds;
  Some ((fun v : Z => (v, path)) <$> filter (fun v : Z => known_verb v = true) (httpVerbs : list Z)).

(** The map is visited in an order that is not specified. *)
Definition RegisterHandlers (order : list (string * nat) → list (string * nat)) (ds : list handler_descriptor) : option (list (Z * string)) :=
  m ← path_descriptors 0 ds ∅;
  routes ← mapM (fun kv => handler_routes ds kv.2) (order (map_to_list m));
  Some (concat routes).

(** [doFunc]: the handler that serves a route. *)
Definition doFunc (ds : list handler_descriptor) (path : string) : option nat := by_lookup_key path ds.
End routes.

Section routes_theorems.
Context `{UT : UnicodeTables}.

(** Descriptors as [AddScopedIHandleWithMetadata] makes them, among others. *)
Definition handler_ok (d : handler_descriptor) : Prop :=
  hd_handler d = true → ∃ path verbs, hd_path d = Some path ∧ hd_verbs d = Some verbs ∧ hd_keys d = [path].

(** The descriptor [i] serves [path]: no later handler has this path in any case. *)
Definition serves (ds : list handler_descriptor) (i : nat) (path : string) (verbs : list Z) : Prop :=
  ∃ d, ds !! i = Some d ∧ hd_handler d = true ∧ hd_path d = Some path ∧ hd_verbs d = Some verbs ∧
    ∀ j d' path', i < j → ds !! j = Some d' → hd_handler d' = true → hd_path d' = Some path' →
      strings_ToLower path' ≠ strings_ToLower path.

Lemma path_descriptors_spec i ds (m : gmap string nat) :
  Forall handler_ok ds → ∃ m', path_descriptors i ds m = Some m' ∧
    ∀ k n, m' !! k = Some n ↔
      (∃ j path verbs, n = i + j ∧ serves ds j path verbs ∧ strings_ToLower path = k) ∨
      (m !! k = Some n ∧ ∀ j d path, ds !! j = Some d → hd_handler d = true → hd_path d = Some path → strings_ToLower path ≠ k).
Proof.
  revert i m. induction ds as [|d ds IH]; intros i m; cbn [path_descriptors].
  { intros _. exists m. split; [done|]. intros k n. split; [|by intros [(?&?&?&?&(?&?&?)&?)|[? ?]]]. auto. }
  intros [Hd Hds]%Forall_cons.
  assert (Hserve : ∀ j path verbs, serves (d :: ds) (S j) path verbs ↔ serves ds j path verbs).
  { intros j path verbs. split; intros (d0 & Hj & Hh & Hp & Hv & Hlast); exists d0; (split; [done|]); (split; [done|]); (split; [done|]);
      (split; [done|]).
    - intros j' d' path' Hlt Hl. by apply (Hlast (S j')); [lia|].
    - intros [|j'] d' path' Hlt Hl; [lia|]. apply (Hlast j'); [lia|done]. }
  destruct (hd_handler d) eqn:Hh.
  - destruct (Hd Hh) as (path & verbs & Hp & Hv & _). rewrite Hp. cbn [mbind option_bind].
    destruct (IH (S i) (<[strings_ToLower path := i]> m) Hds) as (m' & -> & Hm'). exists m'. split; [done|]. intros k n. rewrite Hm'.
    rewrite lookup_insert_Some. split.
    + intros [(j & path0 & verbs0 & -> & Hs & Hk)|[[[<- <-]|[Hne Hm]] Hall]].
      * left. exists (S j), path0, verbs0. rewrite Hserve. split; [lia|done].
      * left. exists 0, path, verbs. split; [lia|]. split; [|done]. exists d. do 4 (split; [done|]).
        intros [|j] d' path' Hlt Hl; [lia|]. by apply (Hall j).
      * right. split; [done|]. intros [|j] d' path' Hl Hh' Hp'; cbn in Hl; [|by eapply Hall].
        injection Hl as <-. rewrite Hp in Hp'. by injection Hp' as <-.
    + intros [([|j] & path0 & verbs0 & -> & Hs & Hk)|[Hm Hall]].
      * destruct Hs as (d0 & Hl & _ & Hp0 & _ & Hlast). cbn in Hl. injection Hl as <-. rewrite Hp in Hp0. injection Hp0 as <-.
        right. split; [left; split; [done|lia]|]. intros j d' path' Hl Hh' Hp'. rewrite <-Hk. apply (Hlast (S j) d'); [lia|done..].
      * left. exists j, path0, verbs0. rewrite <-Hserve. split; [lia|done].
      * right. split; [|intros j d' path' Hl; by apply (Hall (S j))]. right. split; [|done]. by apply (Hall 0 d).
  - destruct (IH (S i) m Hds) as (m' & -> & Hm'). exists m'. split; [done|]. intros k n. rewrite Hm'. split.
    + intros [(j & path0 & verbs0 & -> & Hs & Hk)|[Hm Hall]].
      * left. exists (S j), path0, verbs0. rewrite Hserve. split; [lia|done].
      * right. split; [done|]. intros [|j] d' path' Hl Hh' Hp'; cbn in Hl; [|by eapply Hall]. congruence.
    + intros [([|j] & path0 & verbs0 & -> & Hs & Hk)|[Hm Hall]].
      * destruct Hs as (d0 & Hl & Hh' & _). cbn in Hl. congruence.
      * left. exists j, path0, verbs0. rewrite <-Hserve. split; [lia|done].
      * right. split; [done|]. intros j d' path' Hl. by apply (Hall (S j)).
Qed.

Lemma by_lookup_key_serves ds i path verbs : Forall handler_ok ds → serves ds i path verbs → by_lookup_key path ds = Some i.
Proof.
  intros Hok (d & Hi & Hh & Hp & Hv & Hlast). revert i Hi Hlast. induction Hok as [|d0 ds H0 Hok IH]; intros i Hi Hlast; [done|].
  cbn [by_lookup_key]. destruct i as [|i].
  - cbn in Hi. injection Hi as ->. destruct (by_lookup_key path ds) as [j|] eqn:Hj.
    + exfalso. enough (∃ d', ds !! j = Some d' ∧ hd_handler d' = true ∧ hd_path d' = Some path) as (d' & Hl & Hh' & Hp').
      { by apply (Hlast (S j) d' path); [lia|..]. }
      clear -Hj Hok. revert j Hj. induction Hok as [|d ds Hd Hok IH]; intros j; cbn [by_lookup_key]; [done|].
      destruct (by_lookup_key path ds) as [j'|]; [intros [= <-]; by apply IH|].
      destruct (hd_handler d) eqn:Hh; cbn [andb]; [|done]. case_bool_decide as Hk; [|done]. intros [= <-]. exists d. split; [done|].
      split; [done|]. destruct (Hd Hh) as (p & vs & Hp & _ & Hks). rewrite Hks in Hk. apply list_elem_of_singleton in Hk as ->. done.
    + rewrite Hh. cbn [andb]. destruct (H0 Hh) as (p & vs & Hp' & _ & Hks). rewrite Hks, bool_decide_true; [done|].
      apply list_elem_of_singleton. congruence.
  - rewrite (IH i); [done|done|]. intros j d' path' Hlt Hl. apply (Hlast (S j)); [lia|done].
Qed.

(** every path is served by the last handler registered for it: whatever
    order the map is visited in, registration succeeds, the routes are exactly
    the known verbs of the handlers whose path, ignoring case, is not
    registered again later, and the function of each of these routes resolves
    exactly that handler. *)
Theorem last_handler_serves (order : list (string * nat) → list (string * nat)) (ds : list handler_descriptor) :
  (∀ l, order l ≡ₚ l) → Forall handler_ok ds →
  ∃ routes, RegisterHandlers order ds = Some routes ∧
    (∀ v path, (v, path) ∈ routes ↔ ∃ i verbs, serves ds i path verbs ∧ v ∈ verbs ∧ known_verb v = true) ∧
    ∀ i path verbs, serves ds i path verbs → doFunc ds path = Some i.
Proof.
  intros Horder Hok. unfold RegisterHandlers. destruct (path_descriptors_spec 0 ds ∅ Hok) as (m & -> & Hm). cbn [mbind option_bind].
  assert (Hin : ∀ k n, (k, n) ∈ order (map_to_list m) ↔ ∃ path verbs, serves ds n path verbs ∧ strings_ToLower path = k).
  { intros k n. rewrite (Horder _), elem_of_map_to_list, Hm. split.
    - intros [(j & path & verbs & -> & Hs & Hk)|[Hn _]]; [by exists path, verbs|by rewrite lookup_empty in Hn].
    - intros (path & verbs & Hs & Hk). left. by exists n, path, verbs. }
  assert (Hroutes : ∀ i path verbs, serves ds i path verbs →
    handler_routes ds i = Some ((fun v => (v, path)) <$> filter (fun v => known_verb v = true) verbs)).
  { intros i path verbs Hs. pose proof (by_lookup_key_serves _ _ _ _ Hok Hs) as Hk. destruct Hs as (d & Hi & Hh & Hp & Hv & _).
    unfold handler_routes. rewrite Hi. cbn [mbind option_bind]. rewrite Hp. cbn [mbind option_bind]. rewrite Hv. cbn [mbind option_bind].
    by rewrite Hk. }
  destruct (mapM (fun kv => handler_routes ds kv.2) (order (map_to_list m))) as [rs|] eqn:Hrs.
  - cbn [mbind option_bind]. eexists. split; [done|]. split; [|intros; by eapply by_lookup_key_serves].
    apply mapM_Some in Hrs. intros v path. rewrite list_elem_of_In, in_concat. setoid_rewrite <-list_elem_of_In. split.
    + intros (r & Hr & Hv). apply list_elem_of_lookup in Hr as [idx Hr]. eapply Forall2_lookup_r in Hrs as ([k n] & Hkn & Hrn); [|done].
      apply list_elem_of_lookup_2, Hin in Hkn as (path' & verbs & Hs & _). cbn [snd] in Hrn. rewrite (Hroutes _ _ _ Hs) in Hrn.
      injection Hrn as <-. apply list_elem_of_fmap in Hv as (v' & [= -> ->] & [Hkv Hv']%list_elem_of_filter). by exists n, verbs.
    + intros (i & verbs & Hs & Hv & Hkv). assert (Hmem : (strings_ToLower path, i) ∈ order (map_to_list m)) by (apply Hin; eauto).
      apply list_elem_of_lookup in Hmem as [idx Hmem]. eapply Forall2_lookup_l in Hrs as (r & Hr & Hrn); [|done]. cbn [snd] in Hrn.
      rewrite (Hroutes _ _ _ Hs) in Hrn. injection Hrn as <-. eexists. split; [by apply list_elem_of_lookup_2 in Hr|].
      apply list_elem_of_fmap. exists v. split; [done|]. by apply list_elem_of_filter.
  - exfalso. apply mapM_None in Hrs. apply Exists_exists in Hrs as ([k n] & Hkn & Hno).
    apply Hin in Hkn as (path & verbs & Hs & _). cbn [snd] in Hno. by rewrite (Hroutes _ _ _ Hs) in Hno.
Qed.
End routes_theorems.

Lemma last_handler_serves_witness :
  let ds := AddScopedIHandleWithMetadata [0; 1]%Z "/Home" (AddScopedIHandleWithMetadata [0]%Z "/about"
              (AddScopedIHandleWithMetadata [1; 9]%Z "/home" [])) in
  ∃ routes, RegisterHandlers (UT := latin1_tables) (fun l => l) ds = Some routes ∧ ((1%Z, "/Home") ∈ routes) ∧ ((1%Z, "/home") ∉ routes) ∧
    doFunc ds "/Home" = Some 2.
Proof.
  intros ds.
  assert (Hok : Forall handler_ok ds) by (repeat constructor; intros _; by eexists _, _).
  destruct (last_handler_serves (UT := latin1_tables) (fun l => l) ds ltac:(done) Hok) as (routes & Hr & Hin & Hdo).
  exists routes. split; [exact Hr|]. vm_compute in Hr. injection Hr as <-. split; [set_solver|]. split; [set_solver|].
  apply (Hdo 2 "/Home" [0; 1]%Z). eexists. do 4 (split; [reflexivity|]). intros [|[|[|j]]] d' path' Hlt Hl; cbn in Hl; [lia..|done].
Defined.
End Routes.

(** ** Start-up and shut-down *)
Module WebRuntime.

(** What [Run] does to the world. *)
Inductive web_event :=
  | LoadedConfig | PrettyLog | SetLogLevel (level : string) | AddedDefaultServices | ConfiguredServices | Prebuild (i : nat) | Built | PostBuild (i : nat)
  | ContainerSet | NewEcho | Installed (middleware : string) | Configured | StaticRoutes | HandlersRegistered
  | PreStart (i : nat) | Started (address : string).

(** The application: what its start-up object and the libraries return. *)
Record web_app := mkWebApp {
  wa_config : option string;                 (* the error of [LoadConfig] *)
  wa_pretty_log : string;                    (* the variable [PRETTY_LOG] *)
  wa_log_level : string;                     (* the variable [LOG_LEVEL] *)
  wa_parse_level : string → option string;   (* [zerolog.ParseLevel]: the level *)
  wa_services : option string;               (* the error of [ConfigureServices] *)
  wa_prebuild : list (option (option string)); wa_postbuild : list (option (option string));
  wa_prestart : list (option (option string)); (* the hooks: absent, or their error *)
  wa_templates : option string;              (* the error of [GetTemplateRender] *)
  wa_configure : option string; wa_static : option string;
  wa_port : option Z;                        (* [GetOptions()] may be nil *)
  wa_localhost : bool }.                     (* [DEV_BIND_LOCALHOST] *)

(** A phase: the events, and the error it returns. *)
Definition phase (A : Type) : Type := list web_event * result string A.
Definition does (e : web_event) : phase unit := ([e], Ok tt).
Definition fails_with (e : option string) : phase unit := ([], match e with Some w => Err w | None => Ok tt end).
Definition andThen {A B} (m : phase A) (k : A → phase B) : phase B :=
  match m with (l, Ok a) => let '(l', r) := k a in (l ++ l', r) | (l, Err w) => (l, Err w) end.
Declare Scope phase_scope.
Notation "m ;; k" := (andThen m (fun _ => k)) (at level 100, right associativity) : phase_scope.
Local Open Scope phase_scope.

Section run.
Context `{UT : UnicodeTables} (a : web_app).

Definition pretty_log : bool := default false (ParseBool (wa_pretty_log a)).
Definition phase1 : phase unit :=
  fails_with (wa_config a) ;; does LoadedConfig ;;
  (if pretty_log then does PrettyLog else fails_with None) ;;
  let logLevel := if decide (wa_log_level a = "") then "info" else wa_log_level a in
  does (SetLogLevel (default "info" (wa_parse_level a (strings_ToLower logLevel)))).

(** The hooks of one kind, in order, until one fails. *)
Fixpoint run_hooks (e : nat → web_event) (i : nat) (hooks : list (option (option string))) : phase unit :=
  match hooks with
  | [] => ([], Ok tt)
  | None :: hooks' => run_hooks e (S i) hooks'
  | Some err :: hooks' => does (e i) ;; fails_with err ;; run_hooks e (S i) hooks'
  end.

Definition phase2 : phase unit :=
  does AddedDefaultServices ;; fails_with (wa_services a) ;; does ConfiguredServices ;;
  run_hooks Prebuild 0 (wa_prebuild a) ;; does Built ;;
  run_hooks PostBuild 0 (wa_postbuild a) ;; does ContainerSet.

(** The errors of [Configure] and [RegisterStaticRoutes] are not looked at.  At
    the end the handlers are listed on the standard output. *)
Definition phase3 : phase unit :=
  does NewEcho ;; fails_with ((fun e => "failed to initialize template renderer: " +:+ e) <$> wa_templates a) ;;
  does (Installed "recover") ;; does (Installed "logger") ;; does (Installed "otel") ;; does (Installed "scope") ;;
  does Configured ;; does StaticRoutes ;; does HandlersRegistered.

(** [finalPhase] up to the start of the server. *)
Definition start_phase : phase unit :=
  match wa_port a with
  | None => ([], Err "startup options are nil")
  | Some port =>
      run_hooks PreStart 0 (wa_prestart a) ;;
      does (Started ((if wa_localhost a then "127.0.0.1" else "") +:+ ":" +:+ pretty port))
  end.

(** [Run] up to the start of the server. *)
Definition Run : phase unit := phase1 ;; phase2 ;; phase3 ;; start_phase.
End run.

(** *** The end of [finalPhase]

    The main goroutine waits for a signal, runs the shut-down hooks, cancels
    the server if its cancel function is set, and joins; the server goroutine
    sets that function and serves until it is cancelled or fails. *)
Inductive main_pc := MWait | MHooks | MCancel | MJoin | MReturned (err : option string).
Inductive server_pc := GStart | GServing | GDone (err : option string).
Record final_state := mkFinal { f_main : main_pc; f_server : server_pc; f_signal : bool; f_cancel : bool; f_cancelled : bool }.

Inductive final_step : final_state → final_state → Prop :=
  | step_wait g c x : final_step (mkFinal MWait g true c x) (mkFinal MHooks g false c x)
  | step_hooks g sg c x : final_step (mkFinal MHooks g sg c x) (mkFinal MCancel g sg c x)
  | step_cancel g sg c x : final_step (mkFinal MCancel g sg c x) (mkFinal MJoin g sg c (c || x))
  | step_join err sg c x : final_step (mkFinal MJoin (GDone err) sg c x) (mkFinal (MReturned err) (GDone err) sg c x)
  | step_start m sg c x : final_step (mkFinal m GStart sg c x) (mkFinal m GServing sg true x)
  | step_fail m err sg c x : final_step (mkFinal m GServing sg c x) (mkFinal m (GDone (Some err)) sg c x)
  | step_stopped m err sg c : final_step (mkFinal m GServing sg c true) (mkFinal m (GDone err) sg c true).

(** A signal arrives: the channel holds one. *)
Definition signal (s : final_state) : final_state := mkFinal (f_main s) (f_server s) true (f_cancel s) (f_cancelled s).
Definition any_final_step (s s' : final_state) : Prop := final_step s s' ∨ s' = signal s.

Definition final_init : final_state := mkFinal MWait GStart false false false.

(** *** Theorems *)

(** Before the server is started everything that can go wrong has been looked
    at, except for the errors of [Configure] and [RegisterStaticRoutes]: it is
    started only when the configuration loaded, the services were configured
    and every hook that is present succeeded, and then recovery and the request
    scope are installed before the application's own middleware. *)
Section run_theorems.
Context `{UT : UnicodeTables}.

Definition hooks_ok (hooks : list (option (option string))) : Prop := Forall (fun h => h ≠ None → h = Some None) hooks.
Definition hook_events (e : nat → web_event) (i : nat) (hooks : list (option (option string))) : list web_event :=
  concat (imap (fun j h => match h with Some _ => [e (i + j)] | None => [] end) hooks).

Lemma andThen_Ok {A B} (m : phase A) (k : A → phase B) l b :
  andThen m k = (l, Ok b) ↔ ∃ l1 x l2, m = (l1, Ok x) ∧ k x = (l2, Ok b) ∧ l = l1 ++ l2.
Proof.
  destruct m as [l0 [x|w]]; cbn [andThen].
  - destruct (k x) as [l' r] eqn:Hk. split; [intros [= <- ->]; by exists l0, x, l'|]. intros (? & ? & ? & [= -> ->] & Hk' & ->). congruence.
  - split; [done|]. by intros (? & ? & ? & ? & _).
Qed.

Lemma fails_with_Ok e l : fails_with e = (l, Ok tt) ↔ e = None ∧ l = [].
Proof. unfold fails_with. destruct e; naive_solver. Qed.

Lemma run_hooks_Ok e i hooks l : run_hooks e i hooks = (l, Ok tt) ↔ hooks_ok hooks ∧ l = hook_events e i hooks.
Proof.
  revert i l. induction hooks as [|h hooks IH]; intros i l; cbn [run_hooks].
  { split; [intros [= <-]; split; [by constructor|done]|by intros [_ ->]]. }
  unfold hooks_ok, hook_events in *. cbn [imap concat]. rewrite Forall_cons.
  assert (Hext : ∀ hs, imap (fun j h => match h with Some _ => [e (S i + j)] | None => [] end) hs
                 = imap ((fun j (h : option (option string)) => match h with Some _ => [e (i + j)] | None => [] end) ∘ S) hs).
  { intros hs. apply imap_ext. intros j x _. cbn. by rewrite Nat.add_succ_r. }
  destruct h as [err|].
  - rewrite andThen_Ok. setoid_rewrite andThen_Ok. rewrite Nat.add_0_r, <-Hext. split.
    + intros (l1 & [] & l2 & [= <-] & (l3 & [] & l4 & [-> ->]%fails_with_Ok & [Hok ->]%IH & ->) & ->). done.
    + intros [[Hh Hok] ->]. specialize (Hh ltac:(done)) as [= ->]. exists [e i], tt. eexists. split; [done|]. split; [|done].
      exists [], tt. eexists. split; [done|]. split; [by apply IH|done].
  - rewrite IH, <-Hext. cbn [app]. naive_solver.
Qed.

Theorem web_start_guarded (a : web_app) l :
  Run a = (l, Ok tt) →
  wa_config a = None ∧ wa_services a = None ∧ wa_templates a = None ∧
  hooks_ok (wa_prebuild a) ∧ hooks_ok (wa_postbuild a) ∧ hooks_ok (wa_prestart a) ∧
  ∃ port level, wa_port a = Some port ∧
    l = [LoadedConfig] ++ (if pretty_log a then [PrettyLog] else []) ++ [SetLogLevel level; AddedDefaultServices; ConfiguredServices] ++ hook_events Prebuild 0 (wa_prebuild a) ++
        [Built] ++ hook_events PostBuild 0 (wa_postbuild a) ++
        [ContainerSet; NewEcho; Installed "recover"; Installed "logger"; Installed "otel"; Installed "scope";
         Configured; StaticRoutes; HandlersRegistered] ++ hook_events PreStart 0 (wa_prestart a) ++
        [Started ((if wa_localhost a then "127.0.0.1" else "") +:+ ":" +:+ pretty port)].
Proof.
  unfold Run, phase1, phase2, phase3, start_phase. intros Hrun.
  replace (if pretty_log a then does PrettyLog else fails_with None) with (if pretty_log a then [PrettyLog] else [], Ok () : result string unit)
    in Hrun by (by destruct (pretty_log a)). unfold does in Hrun.
  repeat (apply andThen_Ok in Hrun as (? & [] & ? & ?Hm & Hrun & ->); repeat match goal with
    | H : andThen _ _ = (_, Ok tt) |- _ => apply andThen_Ok in H as (? & [] & ? & ?Hm & ? & ->)
    | H : fails_with _ = _ |- _ => apply fails_with_Ok in H as [? ->]
    | H : run_hooks _ _ _ = _ |- _ => apply run_hooks_Ok in H as [? ->]
    end).
  destruct (wa_port a) as [port|]; [|done].
  repeat match goal with
    | H : andThen _ _ = (_, Ok tt) |- _ => apply andThen_Ok in H as (? & [] & ? & ?Hm & ? & ->)
    | H : fails_with _ = _ |- _ => apply fails_with_Ok in H as [? ->]
    | H : run_hooks _ _ _ = _ |- _ => apply run_hooks_Ok in H as [? ->]
    | H : (_, Ok tt) = (_, Ok tt) |- _ => injection H as <-
    end.
  destruct (wa_templates a); [done|]. do 6 (split; [done|]). exists port. eexists. split; [done|].
  rewrite <-!app_assoc. cbn [app]. reflexivity.
Qed.
End run_theorems.

(** After a stop signal, the steps left to the return of [Run]. *)
Definition steps_left (s : final_state) : nat :=
  match f_main s with MWait => 4 | MHooks => 3 | MCancel => 2 | MJoin => 1 | MReturned _ => 0 end +
  match f_server s with GStart => 2 | GServing => 1 | GDone _ => 0 end.

(** The server has recorded its cancel function, and main will use it or has. *)
Definition stopping (s : final_state) : Prop :=
  f_server s ≠ GStart ∧
  match f_main s with
  | MWait => f_signal s = true ∧ f_cancel s = true
  | MHooks | MCancel => f_cancel s = true
  | MJoin => f_cancelled s = true ∨ ∃ err, f_server s = GDone err
  | MReturned _ => True
  end.

Lemma recorded s : rtc any_final_step final_init s → f_server s ≠ GStart → f_cancel s = true.
Proof.
  revert s. apply (rtc_ind_r (fun s => f_server s ≠ GStart → f_cancel s = true) final_init); [done|]. intros s s' _ Hstep IH. destruct Hstep as [Hstep|Hsig]; [|by subst s'].
  destruct Hstep; cbn in *; auto.
Qed.

Lemma stopping_step s s' : stopping s → final_step s s' → stopping s' ∧ steps_left s' < steps_left s.
Proof.
  intros [Hg Hm] Hstep. destruct Hstep; unfold stopping, steps_left; cbn in *; try done.
  - destruct Hm. repeat split; [done|done|lia].
  - repeat split; [done|done|lia].
  - repeat split; [done| |lia]. left. by subst.
  - repeat split; [done|lia].
  - split; [|lia]. split; [done|]. destruct m; naive_solver.
  - split; [|lia]. split; [done|]. destruct m; naive_solver.
Qed.

(** a stopped web server returns: once the server goroutine has started and
    a signal to stop has arrived (or the main goroutine is on its way to cancel
    the server), [Run] returns after finitely many steps of the two goroutines
    however they interleave, with the error of the server. *)
Theorem web_stop_returns (s : final_state) :
  rtc any_final_step final_init s → f_server s ≠ GStart →
  match f_main s with MWait => f_signal s = true | MHooks | MCancel => True | _ => False end →
  eventually final_step (fun s => ∃ err, f_main s = MReturned err ∧ f_server s = GDone err) s.
Proof.
  intros Hr Hg Hm. pose proof (recorded s Hr Hg) as Hc.
  apply (eventually_measure final_step _ (fun s => stopping s ∧
    match f_main s with MReturned err => f_server s = GDone err | _ => True end) steps_left).
  - clear. intros [m g sg c x] [[Hg Hm] Hret]. cbn in *. destruct m.
    + destruct Hm as [-> ->]. right. eexists. apply step_wait.
    + right. eexists. apply step_hooks.
    + right. eexists. apply step_cancel.
    + right. destruct g as [| |err]; [done| |eexists; apply step_join]. destruct Hm as [-> |[err [=]]]. eexists. by apply (step_stopped _ None).
    + left. by eexists.
  - intros s0 s' [Hs Hret] Hstep. destruct (stopping_step s0 s' Hs Hstep) as [Hs' Hlt]. split; [|done]. split; [done|].
    destruct Hstep; cbn in *; try done; destruct m; naive_solver.
  - split; [|by destruct (f_main s)]. split; [done|]. by destruct (f_main s).
Qed.

Lemma web_stop_returns_witness :
  eventually final_step (fun s => ∃ err, f_main s = MReturned err ∧ f_server s = GDone err) (mkFinal MWait GServing true true false).
Proof.
  apply web_stop_returns; [|done|done]. eapply rtc_l; [left; apply step_start|]. eapply rtc_l; [right; reflexivity|]. reflexivity.
Defined.

(** A signal that arrives before the server goroutine has recorded its cancel
    function is lost: [Run] can reach a state in which it waits for a server
    that nobody stops; only a failure of the server itself ends it. *)
Theorem early_stop_hangs : ∃ s,
  rtc any_final_step final_init s ∧ f_main s = MJoin ∧ f_server s = GServing ∧
  ∀ s', final_step s s' → ∃ err, f_server s' = GDone (Some err).
Proof.
  exists (mkFinal MJoin GServing false true false). split; [|split; [done|split; [done|]]].
  - eapply rtc_l; [right; reflexivity|]. eapply rtc_l; [left; apply step_wait|]. eapply rtc_l; [left; apply step_hooks|].
    eapply rtc_l; [left; apply step_cancel|]. eapply rtc_l; [left; apply step_start|]. reflexivity.
  - intros s' Hstep. inversion Hstep; subst. by eexists.
Qed.
End WebRuntime.
