(* ===== verification/Url.v ===== *)
(** * Escaping and decimal numbers

    The parts of [net/url] and [strconv] that the browser helpers and the
    introspection client use: percent-encoding of path segments and of query
    components with its inverse, and decimal numbers at a width. *)
From Stdlib Require Import Ascii.
From stdpp Require Import gmap strings pretty.
From S2P Require Import Prelude GoText.
From stdpp Require Import options.
Local Open Scope N_scope.

(** ** [url.PathEscape] and [url.QueryEscape] *)
Inductive escape_mode := PathSegment | QueryComponent.

Definition unreserved (c : N) : bool :=
  between 97 122 c || between 65 90 c || between 48 57 c || bool_decide (c ∈ [45; 95; 46; 126]).
(** The reserved characters that a path segment may hold: $ & + : = @ *)
Definition segment_char (c : N) : bool := bool_decide (c ∈ [36; 38; 43; 58; 61; 64]).
Definition shouldEscape (mode : escape_mode) (c : N) : bool :=
  if unreserved c then false
  else match mode with PathSegment => negb (segment_char c) | QueryComponent => true end.

Definition escape_byte (mode : escape_mode) (c : N) : list N :=
  if shouldEscape mode c then
    match mode with
    | QueryComponent => if c =? 32 then [43] else [37; upper_hex (c / 16); upper_hex (c mod 16)]
    | PathSegment => [37; upper_hex (c / 16); upper_hex (c mod 16)]
    end
  else [c].
Definition escape (mode : escape_mode) (s : string) : string := string_of_bytes (bytes_of_string s ≫= escape_byte mode).
Definition PathEscape : string → string := escape PathSegment.
Definition QueryEscape : string → string := escape QueryComponent.

(** [None] is [EscapeError]. *)
Fixpoint unescape_bytes (mode : escape_mode) (s : list N) : option (list N) :=
  match s with
  | [] => Some []
  | 37 :: s' =>
      match s' with
      | a :: b :: s'' => x ← fromHexChar a; y ← fromHexChar b; r ← unescape_bytes mode s''; Some (16 * x + y :: r)
      | _ => None
      end
  | c :: s' =>
      r ← unescape_bytes mode s';
      Some ((match mode with QueryComponent => if c =? 43 then 32 else c | PathSegment => c end) :: r)
  end.
Definition unescape (mode : escape_mode) (s : string) : option string :=
  string_of_bytes <$> unescape_bytes mode (bytes_of_string s).
Definition PathUnescape : string → option string := unescape PathSegment.
Definition QueryUnescape : string → option string := unescape QueryComponent.

Lemma byte_cases (P : N → Prop) (n : nat) : Forall P (N.of_nat <$> seq 0 n) → ∀ b, b < N.of_nat n → P b.
Proof.
  intros Hall b Hb. rewrite Forall_forall in Hall. apply Hall, list_elem_of_fmap. exists (N.to_nat b).
  split; [by rewrite N2Nat.id|]. apply elem_of_seq. lia.
Qed.

Lemma fromHexChar_upper_hex n : n < 16 → fromHexChar (upper_hex n) = Some n.
Proof. apply (byte_cases (fun n => fromHexChar (upper_hex n) = Some n) 16). repeat constructor. Qed.

Lemma escape_byte_inverse mode c r :
  c < 256 → unescape_bytes mode (escape_byte mode c ++ r) = (cons c) <$> unescape_bytes mode r.
Proof.
  intros Hc. unfold escape_byte. destruct (shouldEscape mode c) eqn:He.
  - assert (Hx : unescape_bytes mode ([37; upper_hex (c / 16); upper_hex (c mod 16)] ++ r) = (cons c) <$> unescape_bytes mode r).
    { cbn [app unescape_bytes]. assert (c / 16 < 16) by (apply N.Div0.div_lt_upper_bound; lia).
      rewrite !fromHexChar_upper_hex by (try done; by apply N.mod_lt). cbn [mbind option_bind].
      rewrite <-(N.div_mod c 16) by done. by destruct (unescape_bytes mode r). }
    destruct mode; [exact Hx|]. destruct (N.eqb_spec c 32) as [-> |]; [|exact Hx]. cbn. by destruct (unescape_bytes QueryComponent r).
  - assert (c ≠ 37) by (intros ->; by destruct mode). assert (mode = QueryComponent → c ≠ 43) by (intros -> ->; done).
    cbn [app]. assert (Hu : unescape_bytes mode (c :: r) = r' ← unescape_bytes mode r;
      Some ((match mode with QueryComponent => if c =? 43 then 32 else c | PathSegment => c end) :: r')).
    { cbn [unescape_bytes]. by repeat (case_match; try done). }
    rewrite Hu. destruct (unescape_bytes mode r); [|done]. cbn [mbind option_bind fmap option_fmap option_map]. do 2 f_equal.
    destruct mode; [done|]. destruct (N.eqb_spec c 43); [by destruct H0|done].
Qed.

Lemma bytes_lt s : Forall (fun b => b < 256) (bytes_of_string s).
Proof. induction s as [|ch s IH]; constructor; [apply N_ascii_bounded|exact IH]. Qed.

(** The characters of escaped text. *)
Definition escaped_char (mode : escape_mode) (b : N) : bool :=
  unreserved b || (b =? 37) || match mode with PathSegment => segment_char b | QueryComponent => b =? 43 end.

Lemma escape_byte_chars mode c : c < 256 → Forall (fun b => b < 128 ∧ escaped_char mode b = true) (escape_byte mode c).
Proof.
  intros Hc. assert (Hall : forallb (fun c => forallb (fun b => (b <? 128) && escaped_char mode b) (escape_byte mode c)) (N.of_nat <$> seq 0 256) = true)
    by (destruct mode; vm_compute; reflexivity).
  rewrite forallb_forall in Hall. specialize (Hall c). rewrite forallb_forall in Hall. apply Forall_forall. intros b Hb.
  apply list_elem_of_In in Hb. enough (In c (N.of_nat <$> seq 0 256)) as Hin.
  { apply (Hall Hin), andb_prop in Hb as [Hlt Hch]. split; [by apply N.ltb_lt|done]. }
  apply list_elem_of_In, list_elem_of_fmap. exists (N.to_nat c). split; [by rewrite N2Nat.id|]. apply elem_of_seq. lia.
Qed.

Lemma escape_bytes mode s :
  bytes_of_string (escape mode s) = bytes_of_string s ≫= escape_byte mode ∧
  Forall (fun b => b < 128 ∧ escaped_char mode b = true) (bytes_of_string (escape mode s)).
Proof.
  assert (Hall : Forall (fun b => b < 128 ∧ escaped_char mode b = true) (bytes_of_string s ≫= escape_byte mode)).
  { apply Forall_bind. eapply Forall_impl; [apply bytes_lt|]. intros c Hc. by apply escape_byte_chars. }
  assert (Hb : bytes_of_string (escape mode s) = bytes_of_string s ≫= escape_byte mode).
  { unfold escape. apply bytes_of_string_of_bytes. eapply Forall_impl; [exact Hall|]. cbn. lia. }
  rewrite Hb. done.
Qed.

(** What was escaped is read back. *)
Lemma unescape_escape mode s : unescape mode (escape mode s) = Some s.
Proof.
  unfold unescape. destruct (escape_bytes mode s) as [-> _]. enough (unescape_bytes mode (bytes_of_string s ≫= escape_byte mode) = Some (bytes_of_string s)) as ->.
  { cbn. by rewrite string_of_bytes_of_string. }
  pose proof (bytes_lt s) as Hlt. induction Hlt as [|c bs Hc Hbs IH]; [done|]. cbn [mbind list_bind].
  rewrite escape_byte_inverse by done. by rewrite IH.
Qed.

(** The empty text is the only one escaped to the empty text. *)
Lemma escape_nil mode s : escape mode s = "" → s = "".
Proof. intros He. pose proof (unescape_escape mode s) as H. rewrite He in H. cbn in H. congruence. Qed.

(** ** Decimal numbers *)
(** [strconv.FormatInt] and [FormatUint] in base ten. *)
Definition FormatInt (z : Z) : string := pretty z.
Definition FormatUint (n : Z) : string := pretty n.

(** [strconv.ParseInt(s, 10, bits)]: [None] for a syntax or a range error. *)
Definition parse_int (bits : Z) (s : string) : option Z :=
  z ← signed_value s; if decide (- 2 ^ (bits - 1) <= z < 2 ^ (bits - 1))%Z then Some z else None.
(** [strconv.ParseUint(s, 10, bits)] takes no sign. *)
Definition parse_uint (bits : Z) (s : string) : option Z :=
  if decide (s = "") then None
  else z ← digits_value s 0; if decide (z < 2 ^ bits)%Z then Some z else None.

Lemma pretty_N_char_value x : x < 10 → digit_value (pretty_N_char x) = Some (Z.of_N x).
Proof. apply (byte_cases (fun x => digit_value (pretty_N_char x) = Some (Z.of_N x)) 10). repeat constructor. Qed.

Lemma digits_value_go x s : digits_value (pretty_N_go x s) 0 = digits_value s (Z.of_N x).
Proof.
  revert s. induction (N.lt_wf_0 x) as [x _ IH]. intros s. destruct (decide (x = 0)) as [-> |Hx]; [done|].
  rewrite pretty_N_go_step by lia. rewrite IH by (apply N.div_lt; lia). cbn [digits_value].
  rewrite pretty_N_char_value by (by apply N.mod_lt). cbn [mbind option_bind]. f_equal.
  pose proof (N.div_mod x 10 ltac:(done)). lia.
Qed.

(** Decimal text of a positive number starts with a digit. *)
Lemma pretty_N_go_digit x s : 0 < x → ∃ c s', pretty_N_go x s = String c s' ∧ is_Some (digit_value c).
Proof.
  revert s. induction (N.lt_wf_0 x) as [x _ IH]. intros s Hx. rewrite pretty_N_go_step by done.
  destruct (decide (x / 10 = 0)) as [Hz|Hz].
  - rewrite Hz, pretty_N_go_0. eexists _, _. split; [done|]. rewrite pretty_N_char_value by (by apply N.mod_lt). by eexists.
  - apply IH; [apply N.div_lt; lia|by apply N.neq_0_lt_0].
Qed.

Lemma digit_not_sign c : is_Some (digit_value c) → Ascii.eqb c (ascii_of_N 45) = false ∧ Ascii.eqb c (ascii_of_N 43) = false.
Proof.
  intros [z Hz]. split; apply Ascii.eqb_neq; intros ->; by vm_compute in Hz.
Qed.

Lemma signed_value_pretty z : signed_value (pretty z) = Some z.
Proof.
  destruct z as [|p|p]; [done| |].
  - change (pretty (Z.pos p)) with (pretty_N_go (N.pos p) ""). destruct (pretty_N_go_digit (N.pos p) "" ltac:(done)) as (c & s' & Heq & Hd).
    pose proof (digits_value_go (N.pos p) "") as Hv. rewrite Heq in *. unfold signed_value. destruct (digit_not_sign c Hd) as [-> ->].
    rewrite decide_False by done. exact Hv.
  - change (pretty (Z.neg p)) with (String "-"%char (pretty_N_go (N.pos p) "")).
    destruct (pretty_N_go_digit (N.pos p) "" ltac:(done)) as (c & s' & Heq & Hd). unfold signed_value.
    change (Ascii.eqb "-" (ascii_of_N 45)) with true. cbv iota. rewrite decide_False by (by rewrite Heq).
    by rewrite digits_value_go.
Qed.

Lemma parse_int_FormatInt bits z : (- 2 ^ (bits - 1) <= z < 2 ^ (bits - 1))%Z → parse_int bits (FormatInt z) = Some z.
Proof. intros Hz. unfold parse_int, FormatInt. rewrite signed_value_pretty. cbn [mbind option_bind]. by rewrite decide_True. Qed.

Lemma parse_uint_FormatUint bits n : (0 <= n < 2 ^ bits)%Z → parse_uint bits (FormatUint n) = Some n.
Proof.
  intros Hn. unfold parse_uint, FormatUint. destruct n as [|p|p]; [| |lia].
  { rewrite decide_False by done. change (digits_value (pretty 0%Z) 0) with (Some 0%Z). cbn [mbind option_bind].
    by rewrite decide_True by lia. }
  change (pretty (Z.pos p)) with (pretty_N_go (N.pos p) "").
  destruct (pretty_N_go_digit (N.pos p) "" ltac:(done)) as (c & s' & Heq & _). rewrite decide_False by (by rewrite Heq).
  rewrite digits_value_go. cbn [digits_value mbind option_bind]. rewrite decide_True by (cbn; lia). done.
Qed.

(** Decimal text is never empty. *)
Lemma pretty_nonempty (z : Z) : pretty z ≠ "".
Proof. intros H. pose proof (signed_value_pretty z) as Hs. by rewrite H in Hs. Qed.
