(* ===== verification/Browser.v ===== *)
(** * Browser storage ([go-app])

    [go-app/internal/valuecodec] (values as text), [go-app/cookies] and
    [go-app/localstorage].  Values are what reflection sees of them, at their
    width; JSON and floating point text are parameters with the laws their
    packages document, base64, percent-encoding and decimal text are modelled
    (files [Base64] and [Url]).  [document.cookie] and [localStorage] are the
    browser's. *)
From Stdlib Require Import Ascii.
From stdpp Require Import gmap strings pretty.
From S2P Require Import Prelude GoText Base64 Environment Lifecycle Url.
From stdpp Require Import options.

(** ** Types and values, as reflection sees them *)
(** Named types have the kind of the type they are defined over; [TInterface]
    is an interface type, whose zero value has no type. *)
Inductive gtype := TString | TInt (bits : Z) | TUint (bits : Z) | TFloat (bits : Z) | TBool | TPtr (t : gtype) | TOther (name : string) | TInterface.

Section values.
(** Floating point numbers, and the values of other kinds. *)
Context {F O : Type}.
Inductive gval :=
  | VString (s : string) | VInt (z : Z) | VUint (z : Z) | VFloat (f : F) | VBool (b : bool) | VOther (o : O)
  | VPtr (p : option gval) | VNil.

(** [strconv.FormatFloat(f, 'f', -1, 64)], [strconv.ParseFloat]; [json.Marshal]
    and [json.Unmarshal] into a new value of a type; the zero value of a type. *)
Record value_libs := mkValueLibs {
  FormatFloat : F → string; ParseFloat : Z → string → option F;
  json_Marshal : gval → result string (list N); json_Unmarshal : gtype → list N → result string gval;
  zero_value : gtype → gval }.
Context (L : value_libs).

(** ** [valuecodec] *)
(** [Deref]: [None] for a nil pointer and for nil. *)
Fixpoint Deref (v : gval) : option gval :=
  match v with
  | VPtr (Some v') => Deref v'
  | VPtr None | VNil => None
  | _ => Some v
  end.

Definition EncodePrimitive (v : gval) : option string :=
  match v with
  | VString s => Some s
  | VInt z => Some (FormatInt z)
  | VUint z => Some (FormatUint z)
  | VFloat f => Some (FormatFloat L f)
  | VBool b => Some (if b then "true" else "false")
  | _ => None
  end.

(** The parsers of the primitive kinds; the inner [None] is their error, the
    outer one a kind that is not handled. *)
Definition parse_kind (rt : gtype) (s : string) : option (option gval) :=
  match rt with
  | TString => Some (Some (VString s))
  | TInt bits => Some (VInt <$> parse_int bits s)
  | TUint bits => Some (VUint <$> parse_uint bits s)
  | TFloat bits => Some (VFloat <$> ParseFloat L bits s)
  | TBool => Some (VBool <$> ParseBool s)
  | _ => None
  end.

(** [DecodePrimitive], with one level of pointer. *)
Definition DecodePrimitive (t : gtype) (s : string) : option (option gval) :=
  match t with
  | TInterface => None
  | TPtr rt => match parse_kind rt s with Some r => Some (v ← r; Some (VPtr (Some v))) | None => None end
  | rt => parse_kind rt s
  end.

(** [NewTarget] and [json.Unmarshal] into it: a pointer type gets a new pointee. *)
Definition decode_json (t : gtype) (b : list N) : result string gval :=
  match t with
  | TPtr rt => v ← json_Unmarshal L rt b; Ok (VPtr (Some v))
  | rt => json_Unmarshal L rt b
  end.

(** ** [cookies] *)
Record CookieOptions := mkCookieOptions { co_Path : string; co_MaxAge : Z; co_Domain : string; co_Secure : bool; co_HttpOnly : bool; co_SameSite : string }.
Definition DefaultCookieOptions : CookieOptions := mkCookieOptions "/" 3600 "" false false "Lax".

Definition elemKind (t : gtype) : gtype := match t with TPtr t' => t' | _ => t end.

Definition encodeCookieValue (value : gval) : result string string :=
  match Deref value with
  | None => Ok ""
  | Some v =>
      match EncodePrimitive v with
      | Some s => Ok (match v with VString _ => PathEscape s | _ => s end)
      | None => jsonBytes ← json_Marshal L v; Ok (EncodeToString StdEncoding jsonBytes)
      end
  end.

Definition decodeCookieValue (t : gtype) (value : string) : result string gval :=
  if decide (value = "") then Err "cookie value is empty"
  else
    let value := match elemKind t with TString => default value (PathUnescape value) | _ => value end in
    match DecodePrimitive t value with
    | Some (Some v) => Ok v
    | Some None => Err "strconv"
    | None =>
        match DecodeString StdEncoding value with
        | None => Err "failed to decode base64"
        | Some b => match decode_json t b with Ok v => Ok v | Err e => Err ("failed to unmarshal JSON: " +:+ e) end
        end
    end.

Definition cSemi : ascii := ascii_of_N 59.

(** The loop over the cookies of the document. *)
Fixpoint find_cookie `{UnicodeTables} (name : string) (cookies : list string) : option string :=
  match cookies with
  | [] => None
  | cookie :: cookies' =>
      let cookie := TrimSpace cookie in
      if String.prefix (name +:+ "=") cookie
      then Some (String.substring (String.length (name +:+ "=")) (String.length cookie - String.length (name +:+ "=")) cookie)
      else find_cookie name cookies'
  end.

(** [GetCookie], from the text of [document.cookie]. *)
Definition GetCookie `{UnicodeTables} (t : gtype) (document_cookie name : string) : result string gval :=
  match find_cookie name (split_char cSemi document_cookie) with
  | Some value => decodeCookieValue t value
  | None => Err ("cookie " +:+ name +:+ " not found")
  end.

(** The text that [SetCookie] assigns to [document.cookie]. *)
Definition SetCookie (name : string) (value : gval) (options : CookieOptions) : result string string :=
  match encodeCookieValue value with
  | Err e => Err ("failed to encode cookie value: " +:+ e)
  | Ok encodedValue =>
      let cookieStr := name +:+ "=" +:+ encodedValue in
      let cookieStr := if decide (co_Path options ≠ "") then cookieStr +:+ "; path=" +:+ co_Path options else cookieStr in
      let cookieStr := if decide (co_MaxAge options ≠ 0%Z) then cookieStr +:+ "; max-age=" +:+ pretty (co_MaxAge options) else cookieStr in
      let cookieStr := if decide (co_Domain options ≠ "") then cookieStr +:+ "; domain=" +:+ co_Domain options else cookieStr in
      let cookieStr := if co_Secure options then cookieStr +:+ "; secure" else cookieStr in
      Ok (if decide (co_SameSite options ≠ "") then cookieStr +:+ "; SameSite=" +:+ co_SameSite options else cookieStr)
  end.

(** [GetOrSetCookie]: the value, and what is assigned to [document.cookie]. *)
Definition GetOrSetCookie `{UnicodeTables} (t : gtype) (document_cookie name : string) (defaultValue : gval) (options : CookieOptions)
    : result string gval * option string :=
  match GetCookie t document_cookie name with
  | Ok v => (Ok v, None)
  | Err _ => match SetCookie name defaultValue options with
             | Err e => (Err ("failed to set default cookie: " +:+ e), None)
             | Ok assigned => (Ok defaultValue, Some assigned)
             end
  end.

Definition DeleteCookie (name : string) (options : CookieOptions) : result string string :=
  SetCookie name (VString "")
    (mkCookieOptions (co_Path options) (-1) (co_Domain options) (co_Secure options) (co_HttpOnly options) (co_SameSite options)).

(** ** [localstorage] *)
(** [localStorage]; [None] when the browser has none. *)
Definition storage : Type := option (gmap string string).

Definition encodeLocalStorageValue (value : gval) : result string string :=
  match Deref value with
  | None => Ok ""
  | Some v => match EncodePrimitive v with Some s => Ok s | None => b ← json_Marshal L v; Ok (string_of_bytes b) end
  end.

Definition decodeLocalStorageValue (t : gtype) (value : string) : result string gval :=
  if decide (value = "") then Err "value is empty"
  else match DecodePrimitive t value with
       | Some (Some v) => Ok v
       | Some None => Err "strconv"
       | None => match decode_json t (bytes_of_string value) with Ok v => Ok v | Err e => Err ("failed to unmarshal JSON: " +:+ e) end
       end.

Definition unavailable : string := "localStorage is not available".

Definition GetLocalStorage (t : gtype) (key : string) (st : storage) : result string gval :=
  match st with
  | None => Err unavailable
  | Some m =>
      match m !! key with
      | None => Err ("key " +:+ key +:+ " not found in localStorage")
      | Some valueStr => if decide (valueStr = "") then Err ("key " +:+ key +:+ " has empty value") else decodeLocalStorageValue t valueStr
      end
  end.

Definition SetLocalStorage (key : string) (value : gval) (st : storage) : result string storage :=
  match st with
  | None => Err unavailable
  | Some m => match encodeLocalStorageValue value with
              | Err e => Err ("failed to encode value: " +:+ e)
              | Ok encodedValue => Ok (Some (<[key := encodedValue]> m))
              end
  end.

Definition GetOrSetLocalStorage (t : gtype) (key : string) (defaultValue : gval) (st : storage) : result string gval * storage :=
  match GetLocalStorage t key st with
  | Ok v => (Ok v, st)
  | Err _ => match SetLocalStorage key defaultValue st with
             | Err e => (Err ("failed to set default value: " +:+ e), st)
             | Ok st' => (Ok defaultValue, st')
             end
  end.

Definition RemoveLocalStorage (key : string) (st : storage) : result string storage :=
  match st with None => Err unavailable | Some m => Ok (Some (delete key m)) end.
Definition ClearLocalStorage (st : storage) : result string storage :=
  match st with None => Err unavailable | Some m => Ok (Some ∅) end.
Definition HasLocalStorageKey (key : string) (st : storage) : bool :=
  match st with None => false | Some m => bool_decide (is_Some (m !! key)) end.
Definition GetLocalStorageKeys (order : list string → list string) (st : storage) : list string :=
  match st with None => [] | Some m => order (map_to_list m).*1 end.
End values.
Arguments gval : clear implicits.
Arguments value_libs : clear implicits.

(** ** Theorems *)

(** Characters that may appear in a cookie value. *)
Definition cookie_char (b : N) : bool := between 33 126 b && negb (bool_decide (b ∈ [34; 44; 59; 92]%N)).
Definition cookie_text (s : string) : Prop := Forall (fun b => cookie_char b = true) (bytes_of_string s).

Lemma cookie_text_app s t : cookie_text (s +:+ t) ↔ cookie_text s ∧ cookie_text t.
Proof. unfold cookie_text. by rewrite bytes_of_string_app, Forall_app. Qed.
Lemma cookie_text_cons c s : cookie_text (String c s) ↔ cookie_char (N_of_ascii c) = true ∧ cookie_text s.
Proof. unfold cookie_text. cbn [bytes_of_string]. by rewrite Forall_cons. Qed.
Lemma cookie_text_nil : cookie_text "".
Proof. constructor. Qed.

Lemma PathEscape_cookie s : cookie_text (PathEscape s).
Proof.
  destruct (escape_bytes PathSegment s) as [_ Hall]. eapply Forall_impl; [exact Hall|]. clear. intros b [Hlt He].
  revert He. revert Hlt. revert b. apply (byte_cases (fun b => escaped_char PathSegment b = true → cookie_char b = true) 128).
  apply Forall_forall. intros b Hb.
  assert (Hall : forallb (fun b => implb (escaped_char PathSegment b) (cookie_char b)) (N.of_nat <$> seq 0 128) = true) by (vm_compute; reflexivity).
  rewrite forallb_forall in Hall. apply list_elem_of_In in Hb. specialize (Hall b Hb). intros He. by rewrite He in Hall.
Qed.

Lemma digit_cookie c : is_Some (digit_value c) → cookie_char (N_of_ascii c) = true.
Proof.
  intros [z Hz]. unfold digit_value in Hz. cbv zeta in Hz. destruct (between 48 57 (N_of_ascii c)) eqn:Hb; [|done].
  unfold between in Hb. apply andb_prop in Hb as [H1%N.leb_le H2%N.leb_le]. unfold cookie_char, between. apply andb_true_intro. split.
  - apply andb_true_intro. split; apply N.leb_le; lia.
  - rewrite bool_decide_false; [done|]. rewrite !elem_of_cons. intros [?|[?|[?|[?|?]]]]; [lia..|by apply elem_of_nil in H].
Qed.

Lemma pretty_N_go_cookie x s : cookie_text s → cookie_text (pretty_N_go x s).
Proof.
  revert s. induction (N.lt_wf_0 x) as [x _ IH]. intros s Hs. destruct (decide (x = 0)%N) as [-> |Hx]; [done|].
  rewrite pretty_N_go_step by lia. apply IH; [apply N.div_lt; lia|]. apply cookie_text_cons. split; [|done].
  apply digit_cookie. rewrite pretty_N_char_value by (by apply N.mod_lt). by eexists.
Qed.

Lemma pretty_cookie (z : Z) : cookie_text (pretty z).
Proof.
  destruct z as [|p|p]; [repeat constructor| |].
  - change (pretty (Z.pos p)) with (pretty_N_go (N.pos p) ""). apply pretty_N_go_cookie, cookie_text_nil.
  - change (pretty (Z.neg p)) with (String "-"%char (pretty_N_go (N.pos p) "")). apply cookie_text_cons.
    split; [done|]. apply pretty_N_go_cookie, cookie_text_nil.
Qed.

Lemma get_elem n s c : String.get n s = Some c → N_of_ascii c ∈ bytes_of_string s.
Proof. revert n. induction s as [|x s IH]; intros [|n]; cbn; [done|done|intros [= ->]; left|intros H; right; by eapply IH]. Qed.

Lemma enc_char_cookie v : cookie_char (N_of_ascii (enc_char StdEncoding v)) = true.
Proof.
  unfold enc_char. destruct (String.get _ _) as [c|] eqn:Hg; [|done]. cbn [default]. apply get_elem in Hg.
  assert (Hall : forallb cookie_char (bytes_of_string (alphabet StdEncoding)) = true) by (vm_compute; reflexivity).
  rewrite forallb_forall in Hall. by apply Hall, list_elem_of_In.
Qed.

Lemma base64_cookie b : cookie_text (EncodeToString StdEncoding b).
Proof.
  induction b as [| |b0 b1|b0 b1 b2 b IH] using three_ind; cbn [EncodeToString padded StdEncoding];
    repeat (apply cookie_text_cons; split); auto using enc_char_cookie, cookie_text_nil.
Qed.

(** *** Values *)
Section value_theorems.
Context {F O : Type} (L : value_libs F O).
(** The floating point numbers of a width, and the type of another value. *)
Context (float_of : Z → F → Prop) (type_of : O → string).

(** What the packages document: text of a float is read back and is cookie
    text; JSON is bytes, and never empty.  Nothing is assumed of what
    [json.Unmarshal] makes of marshalled bytes: unexported fields are lost, empty
    and nil slices can be confused. *)
Class ValueLaws : Prop := {
  float_text bits f : float_of bits f → ParseFloat L bits (FormatFloat L f) = Some f;
  float_cookie f : cookie_text (FormatFloat L f) ∧ FormatFloat L f ≠ "";
  json_text o b : json_Marshal L (VOther o) = Ok b →
    Forall (fun x => x < 256)%N b ∧ b ≠ [] }.
Context `{HL : !ValueLaws}.

(** Values of a type, at its width. *)
Fixpoint has_type (v : gval F O) (t : gtype) : Prop :=
  match v, t with
  | VString _, TString | VBool _, TBool => True
  | VInt z, TInt bits => (- 2 ^ (bits - 1) <= z < 2 ^ (bits - 1))%Z
  | VUint z, TUint bits => (0 <= z < 2 ^ bits)%Z
  | VFloat f, TFloat bits => float_of bits f
  | VOther o, TOther name => type_of o = name
  | VPtr None, TPtr _ => True
  | VPtr (Some v'), TPtr t' => has_type v' t'
  | _, _ => False
  end.

(** At most one level of pointer. *)
Definition storable (t : gtype) : Prop := match t with TPtr (TPtr _) => False | _ => True end.

(** A value that is not behind a pointer. *)
Definition plain_value (v : gval F O) : Prop := match v with VPtr _ | VNil => False | _ => True end.

Lemma plain_parse v t : has_type v t → plain_value v →
  match EncodePrimitive L v with
  | Some s => parse_kind L t s = Some (Some v) ∧ (s = "" → v = VString "")
  | None => ∃ o, v = VOther o ∧ t = TOther (type_of o)
  end.
Proof using HL.
  destruct v, t; cbn [has_type EncodePrimitive parse_kind]; try done.
  - intros _ _. split; [done|]. by intros ->.
  - intros Hz _. rewrite parse_int_FormatInt by done. split; [done|]. intros H. by apply pretty_nonempty in H.
  - intros Hz _. rewrite parse_uint_FormatUint by done. split; [done|]. intros H. by apply pretty_nonempty in H.
  - intros Hf _. rewrite (float_text _ _ Hf). split; [done|]. intros H. by apply float_cookie in H.
  - intros _ _. by destruct b.
  - intros <- _. by eexists.
Qed.

(** What is stored for a value that is not nil. *)
Lemma storable_cases v t : has_type v t → storable t →
  match Deref v with
  | None => v = VPtr None
  | Some x => plain_value x ∧ ((v = x ∧ has_type x t ∧ elemKind t = t ∧ (∀ t', t ≠ TPtr t') ∧ t ≠ TInterface) ∨
                               ∃ t', t = TPtr t' ∧ v = VPtr (Some x) ∧ has_type x t' ∧ (∀ t'', t' ≠ TPtr t''))
  end.
Proof.
  destruct v as [| | | | | |[v|]|]; destruct t; cbn [has_type Deref]; try done; try (intros; split; [done|]; left; done).
  intros Hv Ht. assert (Hpl : ∀ t'', t ≠ TPtr t'') by (intros t'' ->; done).
  assert (Hp : plain_value v ∧ Deref v = Some v). { destruct v as [| | | | | |[v|]|], t; try done; exfalso; by eapply Hpl. }
  destruct Hp as [Hp ->]. split; [done|]. right. by exists t.
Qed.

(** What reading a stored value gives: a primitive value itself; of another value,
    its JSON copy. *)
Definition read_back (v : gval F O) (t : gtype) : result string (gval F O) :=
  match Deref v with
  | Some x =>
      match EncodePrimitive L x with
      | Some _ => Ok v
      | None =>
          b ← json_Marshal L x;
          match decode_json L t b with Ok v' => Ok v' | Err e => Err ("failed to unmarshal JSON: " +:+ e) end
      end
  | None => Ok v
  end.

Lemma read_back_primitive v t x s : Deref v = Some x → EncodePrimitive L x = Some s → read_back v t = Ok v.
Proof. unfold read_back. by intros -> ->. Qed.

Lemma read_back_json v t x b : Deref v = Some x → EncodePrimitive L x = None → json_Marshal L x = Ok b →
  read_back v t = match decode_json L t b with Ok v' => Ok v' | Err e => Err ("failed to unmarshal JSON: " +:+ e) end.
Proof. unfold read_back. by intros -> -> ->. Qed.

(** Decoding after encoding, for the text of cookies and of storage. *)
Lemma decode_primitive_roundtrip v t x s :
  has_type v t → storable t → Deref v = Some x → EncodePrimitive L x = Some s → DecodePrimitive L t s = Some (Some v).
Proof using HL.
  intros Hv Ht Hd Hs. pose proof (storable_cases v t Hv Ht) as Hc. rewrite Hd in Hc. destruct Hc as [Hp [(-> & Hx & _ & Hptr & Hi)|(t' & -> & -> & Hx & Hptr)]].
  - pose proof (plain_parse x t Hx Hp) as Hpp. rewrite Hs in Hpp. unfold DecodePrimitive. destruct t; try apply Hpp; try done; exfalso; by eapply Hptr.
  - pose proof (plain_parse x t' Hx Hp) as Hpp. rewrite Hs in Hpp. unfold DecodePrimitive. by rewrite (proj1 Hpp).
Qed.

Lemma json_stored v t x b :
  has_type v t → storable t → Deref v = Some x → EncodePrimitive L x = None → json_Marshal L x = Ok b →
  (∀ s, DecodePrimitive L t s = None) ∧ Forall (fun x => x < 256)%N b ∧ b ≠ [] ∧ elemKind t ≠ TString.
Proof using HL.
  intros Hv Ht Hd Hs Hj. pose proof (storable_cases v t Hv Ht) as Hc. rewrite Hd in Hc. destruct Hc as [Hp [(-> & Hx & _)|(t' & -> & -> & Hx & _)]].
  - pose proof (plain_parse x t Hx Hp) as Hpp. rewrite Hs in Hpp. destruct Hpp as (o & -> & ->). by apply json_text in Hj as (Hb & Hne).
  - pose proof (plain_parse x t' Hx Hp) as Hpp. rewrite Hs in Hpp. destruct Hpp as (o & -> & ->). by apply json_text in Hj as (Hb & Hne).
Qed.

(** Cookie values: cookie text that is read back, empty only for nil and "". *)
Lemma cookie_value_roundtrip v t e :
  has_type v t → storable t → encodeCookieValue L v = Ok e →
  cookie_text e ∧ (e = "" → Deref v = None ∨ Deref v = Some (VString "")) ∧ (e ≠ "" → decodeCookieValue L t e = read_back v t).
Proof using HL.
  intros Hv Ht. unfold encodeCookieValue. destruct (Deref v) as [x|] eqn:Hd; [|intros [= <-]; split; [apply cookie_text_nil|split; [by left|done]]].
  destruct (EncodePrimitive L x) as [s|] eqn:Hs.
  - assert (Hdec : ∀ e', e' ≠ "" → (elemKind t = TString → PathUnescape e' = Some s) → (elemKind t ≠ TString → e' = s) →
      decodeCookieValue L t e' = read_back v t).
    { rewrite (read_back_primitive v t x s) by done. intros e' Hne Hstr Hoth. unfold decodeCookieValue. rewrite decide_False by done.
      assert (Hval : match elemKind t with TString => default e' (PathUnescape e') | _ => e' end = s).
      { destruct (elemKind t); try (by apply Hoth). by rewrite Hstr. }
      rewrite Hval, (decode_primitive_roundtrip v t x s) by done. done. }
    pose proof (storable_cases v t Hv Ht) as Hc. rewrite Hd in Hc. destruct Hc as [Hp Hc].
    assert (Hkind : has_type x (elemKind t)). { destruct Hc as [(_ & Hx & -> & _)|(t' & -> & _ & Hx & _)]; done. }
    pose proof (plain_parse x _ Hkind Hp) as Hpp. rewrite Hs in Hpp. destruct Hpp as [_ Hempty].
    destruct x; cbn [EncodePrimitive] in Hs; try done; injection Hs as <-; intros [= <-].
    + split; [apply PathEscape_cookie|]. split; [intros H; right; by rewrite (escape_nil _ _ H)|]. intros Hne. apply Hdec; [done| |].
      * intros _. apply unescape_escape.
      * intros Hk. cbn in Hkind. by destruct (elemKind t).
    + split; [apply pretty_cookie|]. split; [intros H; by apply Hempty in H|]. intros Hne. apply Hdec; [done| |done].
      intros Hk. by rewrite Hk in Hkind.
    + split; [apply pretty_cookie|]. split; [intros H; by apply Hempty in H|]. intros Hne. apply Hdec; [done| |done].
      intros Hk. by rewrite Hk in Hkind.
    + split; [apply float_cookie|]. split; [intros H; by apply Hempty in H|]. intros Hne. apply Hdec; [done| |done].
      intros Hk. by rewrite Hk in Hkind.
    + split; [destruct b; repeat constructor|]. split; [intros H; by apply Hempty in H|]. intros Hne. apply Hdec; [done| |done].
      intros Hk. by rewrite Hk in Hkind.
  - destruct (json_Marshal L x) as [b|err] eqn:Hj; [|done]. intros [= <-].
    destruct (json_stored v t x b Hv Ht Hd Hs Hj) as (Hnp & Hb & Hne & Hk).
    split; [apply base64_cookie|]. split.
    + intros He. destruct b as [|? [|? [|? ?]]]; done.
    + intros He. unfold decodeCookieValue. rewrite decide_False by done.
      assert (Hval : match elemKind t with TString => default (EncodeToString StdEncoding b) (PathUnescape (EncodeToString StdEncoding b))
                     | _ => EncodeToString StdEncoding b end = EncodeToString StdEncoding b) by (by destruct (elemKind t)).
      rewrite Hval, Hnp, DecodeString_EncodeToString by (try done; apply StdEncoding_ok).
      by rewrite (read_back_json v t x b).
Qed.
End value_theorems.

(** *** Documents *)
(** The text of [document.cookie]: the pairs, in order. *)
Definition cookie_pair (nv : string * string) : string := nv.1 +:+ "=" +:+ nv.2.
Definition document_text (cookies : list (string * string)) : string := strings_Join (cookie_pair <$> cookies) "; ".

(** Names and values that a browser accepts: cookie text, no [=] in a name. *)
Definition cookie_ok (nv : string * string) : Prop := cookie_text nv.1 ∧ cookie_text nv.2 ∧ 61%N ∉ bytes_of_string nv.1.

#[global] Instance cookie_ok_dec nv : Decision (cookie_ok nv).
Proof. unfold cookie_ok, cookie_text. apply _. Defined.

(** The value of the first cookie with a name. *)
Definition first_cookie (name : string) (cookies : list (string * string)) : option string :=
  snd <$> head (filter (fun nv => nv.1 = name) cookies).

Lemma cookie_no_semi s : cookie_text s → count_char cSemi s = 0.
Proof.
  intros Hs. apply count_char_none. intros Hin. unfold cookie_text in Hs. rewrite Forall_forall in Hs. by apply Hs in Hin.
Qed.

Lemma split_document p l :
  Forall cookie_text l → count_char cSemi p = 0 → l ≠ [] →
  split_char cSemi (p +:+ strings_Join l "; ") = match l with [] => [] | x :: l' => (p +:+ x) :: ((fun s => " " +:+ s) <$> l') end.
Proof.
  intros Hl. revert p. induction Hl as [|x l Hx Hl IH]; intros p Hp Hne; [done|]. destruct l as [|y l].
  - cbn [strings_Join fmap list_fmap]. apply split_char_none. rewrite count_char_app, Hp, cookie_no_semi by done. done.
  - change (strings_Join (x :: y :: l) "; ") with (x +:+ String cSemi (" " +:+ strings_Join (y :: l) "; ")).
    rewrite sapp_assoc. rewrite split_char_app by (by rewrite count_char_app, Hp, cookie_no_semi). f_equal. by rewrite IH.
Qed.

Lemma cookie_between s : cookie_text s → Forall (fun b => between 0x21 0x7E b = true) (bytes_of_string s).
Proof. intros Hs. eapply Forall_impl; [exact Hs|]. intros b Hb. by apply andb_prop in Hb as [Hb _]. Qed.

Lemma pair_text nv : cookie_ok nv → cookie_text (cookie_pair nv).
Proof. intros (Hn & Hv & _). apply cookie_text_app. split; [done|]. apply cookie_text_app. split; [repeat constructor|done]. Qed.

(** A pair is recognized by its name. *)
Lemma pair_prefix name nv :
  61%N ∉ bytes_of_string name → 61%N ∉ bytes_of_string nv.1 →
  String.prefix (name +:+ "=") (cookie_pair nv) = bool_decide (nv.1 = name).
Proof.
  destruct nv as [n v]. unfold cookie_pair. cbn [fst snd]. revert n. induction name as [|c name IH]; intros n Hname Hn.
  - rewrite sapp_nil_l. destruct n as [|d n]; [cbn; by destruct v|]. rewrite bool_decide_false by done.
    cbn [bytes_of_string] in Hn. change (String d n +:+ "=" +:+ v) with (String d (n +:+ "=" +:+ v)). cbn [String.prefix].
    destruct (ascii_dec "=" d) as [<-|]; [|done]. destruct Hn. left.
  - cbn [bytes_of_string] in Hname. rewrite sapp_cons. destruct n as [|d n].
    + rewrite sapp_nil_l. change ("=" +:+ v) with (String "=" v). cbn [String.prefix]. rewrite bool_decide_false by done.
      destruct (ascii_dec c "=") as [-> |]; [|done]. destruct Hname. left.
    + rewrite sapp_cons. cbn [String.prefix bytes_of_string] in *. destruct (ascii_dec c d) as [-> |Hcd].
      * rewrite IH by set_solver. apply bool_decide_ext. split; [by intros ->|by intros [= ->]].
      * rewrite bool_decide_false by congruence. done.
Qed.

Lemma find_cookie_document `{UnicodeTables} name cookies :
  Forall cookie_ok cookies → 61%N ∉ bytes_of_string name → cookies ≠ [] →
  find_cookie name (split_char cSemi (document_text cookies)) = first_cookie name cookies.
Proof.
  intros Hok Hname Hne. unfold document_text. rewrite <-(sapp_nil_l (strings_Join _ _)).
  rewrite split_document; [| |done|by destruct cookies].
  2:{ apply Forall_fmap. eapply Forall_impl; [exact Hok|]. intros nv. apply pair_text. }
  assert (Hfind : ∀ f : string → string, (∀ nv, cookie_ok nv → TrimSpace (f (cookie_pair nv)) = cookie_pair nv) →
    ∀ nv rest, cookie_ok nv →
    find_cookie name (f (cookie_pair nv) :: rest) = if decide (nv.1 = name) then Some nv.2 else find_cookie name rest).
  { intros f Hf nv rest Hnv. cbn [find_cookie]. rewrite Hf, pair_prefix by (try done; apply Hnv).
    case_bool_decide as Hn; [|by rewrite decide_False]. rewrite decide_True by done. f_equal. subst name. unfold cookie_pair.
    rewrite sapp_assoc. apply substring_app. }
  assert (Hrest : ∀ l, Forall cookie_ok l → find_cookie name ((fun s => " " +:+ s) <$> (cookie_pair <$> l)) = first_cookie name l).
  { intros l Hl. induction Hl as [|nv l Hnv Hl IH]; [done|]. cbn [fmap list_fmap].
    rewrite (Hfind (fun s => " " +:+ s)); [|intros nv' Hnv'; by apply TrimSpace_none, cookie_between, pair_text|done].
    unfold first_cookie. rewrite filter_cons. case_decide; [done|]. exact IH. }
  destruct cookies as [|nv cookies]; [done|]. apply Forall_cons in Hok as [Hnv Hok]. cbn [fmap list_fmap]. rewrite sapp_nil_l.
  rewrite (Hfind (fun s => s)); [|intros nv' Hnv'; by apply TrimSpace_none, cookie_between, pair_text|done].
  unfold first_cookie. rewrite filter_cons. case_decide; [done|]. by apply Hrest.
Qed.

(** *** Round trips *)
Section storage_theorems.
Context {F O : Type} (L : value_libs F O) (float_of : Z → F → Prop) (type_of : O → string).
Context `{HL : !ValueLaws L float_of}.

(** C24: cookies give back what was set: for every value of a type with at most
    one level of pointer that can be encoded, at every integer width, the text
    assigned to the document starts with the name and a value made of
    characters a cookie may hold, so that no value can cut the cookie short or
    add attributes to it; and when a document of well-formed cookies then lists
    that value first under the name (which has no [=]), and its text is not
    empty, reading it gives a string, integer, float or bool back as it was, and
    of any other value what [json.Unmarshal] makes of the bytes [json.Marshal] gave.
    Only nil pointers and the empty string have an empty text.  A pointer to a
    pointer is not read back ([pointer_to_pointer_unreadable]). *)
Theorem cookie_roundtrip `{UT : UnicodeTables} (v : gval F O) (t : gtype) (name e : string) (options : CookieOptions) (cookies : list (string * string)) :
  has_type float_of type_of v t → storable t → encodeCookieValue L v = Ok e →
  (∃ attributes, SetCookie L name v options = Ok (cookie_pair (name, e) +:+ attributes)) ∧ cookie_text e ∧
  (e = "" → Deref v = None ∨ Deref v = Some (VString "")) ∧
  (Forall cookie_ok cookies → 61%N ∉ bytes_of_string name → first_cookie name cookies = Some e → e ≠ "" →
   GetCookie L t (document_text cookies) name = read_back L v t).
Proof using HL.
  intros Hv Ht He. destruct (cookie_value_roundtrip L float_of type_of v t e Hv Ht He) as (Hc & Hempty & Hdec). split; [|split; [done|split; [done|]]].
  - unfold SetCookie. rewrite He. unfold cookie_pair. cbn [fst snd].
    assert (Hadd : ∀ (P : Prop) `{Decision P} a b x, (∃ y, a = x +:+ y) → ∃ y, (if decide P then a +:+ b else a) = x +:+ y).
    { intros P ? a b x [y ->]. case_decide; [|by exists y]. exists (y +:+ b). by rewrite sapp_assoc. }
    assert (Hadd' : ∀ (c : bool) a b x, (∃ y, a = x +:+ y) → ∃ y, (if c then a +:+ b else a) = x +:+ y).
    { intros [] a b x [y ->]; [|by exists y]. exists (y +:+ b). by rewrite sapp_assoc. }
    edestruct Hadd as [y Hy]; [|exists y; f_equal; exact Hy]. do 1 apply Hadd'. do 3 apply Hadd. exists "". by rewrite sapp_nil_r.
  - intros Hok Hname Hfirst Hne. unfold GetCookie. rewrite find_cookie_document by (try done; by intros ->). by rewrite Hfirst, Hdec.
Qed.

(** Local storage gives back what was stored (of a structure, its JSON copy), and keeps the other keys. *)
Theorem storage_roundtrip (v : gval F O) (t : gtype) (key : string) (m : gmap string string) (st' : storage) :
  has_type float_of type_of v t → storable t → SetLocalStorage L key v (Some m) = Ok st' →
  ∃ e, st' = Some (<[key := e]> m) ∧
    (e = "" → Deref v = None ∨ Deref v = Some (VString "")) ∧
    (e ≠ "" → GetLocalStorage L t key st' = read_back L v t) ∧ HasLocalStorageKey key st' = true ∧
    (∀ key', key' ≠ key → GetLocalStorage L t key' st' = GetLocalStorage L t key' (Some m)) ∧
    (RemoveLocalStorage key st' = Ok (Some (delete key m))).
Proof using HL.
  intros Hv Ht. unfold SetLocalStorage. destruct (encodeLocalStorageValue L v) as [e|] eqn:He; [|done]. intros [= <-]. exists e.
  split; [done|]. split; [|split; [|split; [|split]]].
  - intros ->. unfold encodeLocalStorageValue in He. destruct (Deref v) as [x|] eqn:Hd; [|by left]. right. f_equal.
    pose proof (storable_cases float_of type_of v t Hv Ht) as Hc. rewrite Hd in Hc. destruct Hc as [Hp Hc].
    assert (∃ t', has_type float_of type_of x t') as [t' Hx] by (destruct Hc as [(_ & ? & _)|(? & _ & _ & ? & _)]; eauto).
    pose proof (plain_parse L float_of type_of x t' Hx Hp) as Hpp. destruct (EncodePrimitive L x) as [s|] eqn:Hs; [injection He as ->; by apply Hpp|].
    destruct Hpp as (o & -> & ->). destruct (json_Marshal L (VOther o)) as [b|] eqn:Hj; [|done]. injection He as He.
    apply (json_text L float_of) in Hj as (_ & Hne). by destruct b.
  - intros Hne. unfold GetLocalStorage. rewrite lookup_insert_eq, decide_False by done. unfold decodeLocalStorageValue. rewrite decide_False by done.
    unfold encodeLocalStorageValue in He. destruct (Deref v) as [x|] eqn:Hd; [|by injection He as <-].
    destruct (EncodePrimitive L x) as [s|] eqn:Hs.
    + injection He as ->. by rewrite (decode_primitive_roundtrip L float_of type_of v t x e), (read_back_primitive L v t x e).
    + destruct (json_Marshal L x) as [b|] eqn:Hj; [|done]. injection He as <-.
      destruct (json_stored L float_of type_of v t x b Hv Ht Hd Hs Hj) as (Hnp & Hb & _).
      by rewrite Hnp, bytes_of_string_of_bytes, (read_back_json L v t x b).
  - unfold HasLocalStorageKey. rewrite lookup_insert_eq. by apply bool_decide_true.
  - intros key' Hk. unfold GetLocalStorage. by rewrite lookup_insert_ne.
  - unfold RemoveLocalStorage. by rewrite delete_insert_eq.
Qed.
End storage_theorems.

(** Libraries over integers as floats and texts as other values. *)
Definition text_libs : value_libs Z string :=
  mkValueLibs pretty (fun _ s => signed_value s)
    (fun v => match v with VOther o => Ok (120%N :: bytes_of_string o) | _ => Err "unsupported" end)
    (fun _ b => Ok (VOther (string_of_bytes (tail b)))) (fun _ => VNil).

#[global] Instance text_libs_laws : ValueLaws text_libs (fun _ _ => True).
Proof.
  split.
  - intros bits f _. apply signed_value_pretty.
  - intros f. split; [apply pretty_cookie|apply pretty_nonempty].
  - intros o b [= <-]. split; [|done]. constructor; [done|]. apply bytes_lt.
Qed.

Lemma cookie_roundtrip_witness :
  GetCookie (H := latin1_tables) text_libs TString (document_text [("theme", "dark"); ("q", "a%3Bb%20c"); ("q", "old")]) "q" = Ok (VString "a;b c") ∧
  GetCookie (H := latin1_tables) text_libs (TPtr (TInt 8)) (document_text [("n", "-128")]) "n" = Ok (VPtr (Some (VInt (-128)))) ∧
  GetCookie (H := latin1_tables) text_libs (TOther "T") (document_text [("c", "eGNmZw==")]) "c" = Ok (VOther "cfg").
Proof.
  assert (Hok : Forall cookie_ok [("theme", "dark"); ("q", "a%3Bb%20c"); ("q", "old")])
    by (by apply (bool_decide_unpack _)).
  split_and!.
  - eapply (cookie_roundtrip (UT := latin1_tables) text_libs (fun _ _ => True) (fun _ => "T") (VString "a;b c") TString "q" "a%3Bb%20c" DefaultCookieOptions);
      [exact I|exact I|vm_compute; reflexivity|exact Hok|by apply (bool_decide_unpack _)|vm_compute; reflexivity|done].
  - eapply (cookie_roundtrip (UT := latin1_tables) text_libs (fun _ _ => True) (fun _ => "T") (VPtr (Some (VInt (-128)))) (TPtr (TInt 8)) "n" "-128" DefaultCookieOptions);
      [cbn; lia|exact I|vm_compute; reflexivity| |by apply (bool_decide_unpack _)|vm_compute; reflexivity|done].
    by apply (bool_decide_unpack _).
  - eapply (cookie_roundtrip (UT := latin1_tables) text_libs (fun _ _ => True) (fun _ => "T") (VOther "cfg") (TOther "T") "c" "eGNmZw==" DefaultCookieOptions);
      [reflexivity|exact I|vm_compute; reflexivity| |by apply (bool_decide_unpack _)|vm_compute; reflexivity|done].
    by apply (bool_decide_unpack _).
Defined.

(** A value behind two pointers is written but cannot be read back: it is
    encoded as the text of the primitive, and decoded as base64 JSON. *)
Theorem pointer_to_pointer_unreadable :
  encodeCookieValue text_libs (VPtr (Some (VPtr (Some (VInt 5))))) = Ok "5" ∧
  decodeCookieValue text_libs (TPtr (TPtr (TInt 64))) "5" = Err "failed to decode base64".
Proof. vm_compute. done. Qed.
