(* ===== verification/GrpcClient.v ===== *)
(** * gRPC clients and token introspection

    [grpcclient]: the options of a client, the dial options it is built from,
    its TLS configuration and the credentials it sends; [GRPCClientFactory];
    and [middleware/oidc/introspection], the client of an RFC 7662 endpoint.
    Files, certificate pools, the gRPC and OAuth2 libraries and HTTP are
    parameters. *)
From Stdlib Require Import Ascii.
From stdpp Require Import gmap strings pretty.
From S2P Require Import Prelude GoText Base64 Url.
From stdpp Require Import options.

(** ** Clients *)
Module Client.
Section client.
(** Certificates, pools of them, and OAuth2 token sources. *)
Context {Cert Pool TS : Type}.
(** [os.ReadFile], and [AppendCertsFromPEM] on an empty pool ([None]: nothing found). *)
Context (ReadFile : string → result string string) (AppendCertsFromPEM : string → option Pool).

Record GRPCClient := mkClient {
  target : string; authority : string; host : string; port : Z;
  insecure : bool; insecureSet : bool; sidecarSecured : bool;
  certBundleFile : string; clientCerts : list Cert; tokenSource : option TS;
  enableOTELTracing : bool; enableDataDogTracing : bool }.

(** [GRPCClientOption]. *)
Definition GRPCClientOption : Type := GRPCClient → result string GRPCClient.

(** *** The options *)
Definition WithDataDogTracer (enable : bool) : GRPCClientOption := fun c =>
  Ok (mkClient (target c) (authority c) (host c) (port c) (insecure c) (insecureSet c) (sidecarSecured c) (certBundleFile c) (clientCerts c) (tokenSource c) (enableOTELTracing c) enable).
Definition WithOTELTracer (enable : bool) : GRPCClientOption := fun c =>
  Ok (mkClient (target c) (authority c) (host c) (port c) (insecure c) (insecureSet c) (sidecarSecured c) (certBundleFile c) (clientCerts c) (tokenSource c) enable (enableDataDogTracing c)).
Definition WithTarget (t : string) : GRPCClientOption := fun c =>
  Ok (mkClient t (authority c) (host c) (port c) (insecure c) (insecureSet c) (sidecarSecured c) (certBundleFile c) (clientCerts c) (tokenSource c) (enableOTELTracing c) (enableDataDogTracing c)).
Definition WithAuthority (a : string) : GRPCClientOption := fun c =>
  Ok (mkClient (target c) a (host c) (port c) (insecure c) (insecureSet c) (sidecarSecured c) (certBundleFile c) (clientCerts c) (tokenSource c) (enableOTELTracing c) (enableDataDogTracing c)).
Definition WithHost (h : string) : GRPCClientOption := fun c =>
  Ok (mkClient (target c) (authority c) h (port c) (insecure c) (insecureSet c) (sidecarSecured c) (certBundleFile c) (clientCerts c) (tokenSource c) (enableOTELTracing c) (enableDataDogTracing c)).
Definition WithPort (p : Z) : GRPCClientOption := fun c =>
  Ok (mkClient (target c) (authority c) (host c) p (insecure c) (insecureSet c) (sidecarSecured c) (certBundleFile c) (clientCerts c) (tokenSource c) (enableOTELTracing c) (enableDataDogTracing c)).
Definition WithTokenSource (ts : option TS) : GRPCClientOption := fun c =>
  Ok (mkClient (target c) (authority c) (host c) (port c) (insecure c) (insecureSet c) (sidecarSecured c) (certBundleFile c) (clientCerts c) ts (enableOTELTracing c) (enableDataDogTracing c)).
Definition WithCertBundle (file : string) : GRPCClientOption := fun c =>
  Ok (mkClient (target c) (authority c) (host c) (port c) (insecure c) (insecureSet c) (sidecarSecured c) file (clientCerts c) (tokenSource c) (enableOTELTracing c) (enableDataDogTracing c)).
Definition WithClientCert (cert : Cert) : GRPCClientOption := fun c =>
  Ok (mkClient (target c) (authority c) (host c) (port c) (insecure c) (insecureSet c) (sidecarSecured c) (certBundleFile c) (clientCerts c ++ [cert]) (tokenSource c) (enableOTELTracing c) (enableDataDogTracing c)).
Definition WithInsecure (i : bool) : GRPCClientOption := fun c =>
  Ok (mkClient (target c) (authority c) (host c) (port c) i true (sidecarSecured c) (certBundleFile c) (clientCerts c) (tokenSource c) (enableOTELTracing c) (enableDataDogTracing c)).
Definition WithSidecarSecured (s : bool) : GRPCClientOption := fun c =>
  Ok (mkClient (target c) (authority c) (host c) (port c) s true s (certBundleFile c) (clientCerts c) (tokenSource c) (enableOTELTracing c) (enableDataDogTracing c)).

(** *** Dialing *)
(** [tls.Config]: [MinVersion] is always TLS 1.2; [RootCAs] [None] means the
    roots of the system. *)
Record TlsConfig := mkTls { ServerName : string; Certificates : list Cert; RootCAs : option Pool }.

(** Credentials sent with every call: [oauth.TokenSource], which the library
    refuses to send without TLS, or [tokenSourceAccess]. *)
Inductive rpc_credentials := OAuthTokenSource (ts : TS) | TokenSourceAccess (ts : TS) (sidecarTLS : bool).

Inductive dial_option :=
  | DisableRetry | ConnectParams | DialAuthority (a : string) | OTELStatsHandler | DataDogStream | DataDogUnary
  | TransportTLS (cfg : TlsConfig) | TransportInsecure | PerRPCCredentials (creds : rpc_credentials).

Definition tracingDialOptions (c : GRPCClient) : list dial_option :=
  (if enableOTELTracing c then [OTELStatsHandler] else []) ++ (if enableDataDogTracing c then [DataDogStream; DataDogUnary] else []).

Definition tlsConfig (c : GRPCClient) (serverName : string) : result string TlsConfig :=
  if decide (certBundleFile c ≠ "") then
    match ReadFile (certBundleFile c) with
    | Err e => Err ("grpcclient: reading cert bundle: " +:+ e)
    | Ok pem => match AppendCertsFromPEM pem with
                | None => Err ("grpcclient: no certificates in cert bundle " +:+ certBundleFile c)
                | Some pool => Ok (mkTls serverName (clientCerts c) (Some pool))
                end
    end
  else Ok (mkTls serverName (clientCerts c) None).

Fixpoint apply_client_options (opts : list GRPCClientOption) (c : GRPCClient) : result string GRPCClient :=
  match opts with [] => Ok c | opt :: opts' => c ← opt c; apply_client_options opts' c end.

Definition default_client : GRPCClient := mkClient "" "" "" 0 true false true "" [] None true false.

Definition cColon : ascii := ascii_of_N 58.

(** The name to verify the server under, for a host without dots. *)
Definition serverNameOverride (url : string) : string :=
  match split_char cColon url with
  | [h; _] => if decide (h ≠ "" ∧ count_char cDot h = 0) then h else ""
  | _ => ""
  end.

Definition set_insecure (i : bool) (c : GRPCClient) : GRPCClient :=
  mkClient (target c) (authority c) (host c) (port c) i (insecureSet c) (sidecarSecured c) (certBundleFile c) (clientCerts c) (tokenSource c) (enableOTELTracing c) (enableDataDogTracing c).

(** [NewGRPCClient] up to the call of [grpc.NewClient]: its arguments. *)
Definition dial_plan (opts : list GRPCClientOption) : result string (GRPCClient * string * list dial_option) :=
  c ← apply_client_options opts default_client;
  let dialOpts := [DisableRetry; ConnectParams] ++
    (if decide (authority c ≠ "") then [DialAuthority (authority c)] else []) ++ tracingDialOptions c in
  c ← (if decide (certBundleFile c ≠ "" ∨ clientCerts c ≠ []) then
         if insecureSet c && insecure c then Err "grpcclient: WithInsecure(true) conflicts with WithCertBundle/WithClientCert"
         else Ok (set_insecure false c)
       else Ok c);
  let url := if decide (target c = "") then host c +:+ ":" +:+ pretty (port c) else target c in
  if negb (insecure c) then
    cfg ← tlsConfig c (serverNameOverride url);
    Ok (c, url, dialOpts ++ [TransportTLS cfg] ++
          match tokenSource c with Some ts => [PerRPCCredentials (OAuthTokenSource ts)] | None => [] end)
  else
    Ok (c, url, dialOpts ++ [TransportInsecure] ++
          match tokenSource c with Some ts => [PerRPCCredentials (TokenSourceAccess ts (sidecarSecured c))] | None => [] end).

(** [NewGRPCClient], with [grpc.NewClient]. *)
Definition NewGRPCClient {Conn} (grpc_NewClient : string → list dial_option → result string Conn) (opts : list GRPCClientOption)
    : result string (GRPCClient * Conn) :=
  '(c, url, dialOpts) ← dial_plan opts;
  conn ← grpc_NewClient url dialOpts;
  Ok (c, conn).

(** [GRPCClientFactory]. *)
Definition factory_NewGrpcClient {Conn} (grpc_NewClient : string → list dial_option → result string Conn) (OTELTracingEnabled : bool)
    (opts : list GRPCClientOption) : result string (GRPCClient * Conn) :=
  NewGRPCClient grpc_NewClient (if OTELTracingEnabled then opts ++ [WithOTELTracer OTELTracingEnabled] else opts).

(** *** Credentials *)
(** [GetRequestMetadata] of [tokenSourceAccess]: the header, and whether the
    warning about a transport that is not secure is logged ([secure]: the
    security level of the request's connection, if it is known). *)
Definition GetRequestMetadata (token : TS → result string (string * string)) (secure : option bool) (ts : TS) (sidecarTLS : bool)
    : bool * result string (gmap string string) :=
  let warned := negb sidecarTLS && bool_decide (secure = Some false) in
  (warned, '(ty, accessToken) ← token ts; Ok {["authorization" := ty +:+ " " +:+ accessToken]}).
Definition RequireTransportSecurity : bool := false.

(** *** Timeouts *)
(** [ContextWithTimeout]: the duration in nanoseconds, or a panic. *)
Definition ContextWithTimeout (defaultGrpcCallTimeoutInSeconds : option Z) (duration : list Z) : option Z :=
  match duration with
  | d :: _ => Some d
  | [] => n ← defaultGrpcCallTimeoutInSeconds; Some (wrap64 (1000000000 * n))
  end.
End client.
Arguments GRPCClient : clear implicits.
Arguments GRPCClientOption : clear implicits.

(** *** Theorems *)
Section client_theorems.
Context {Cert Pool TS : Type} (ReadFile : string → result string string) (AppendCertsFromPEM : string → option Pool).

(** The options of the package, as data. *)
Inductive client_option :=
  | OTarget (t : string) | OAuthority (a : string) | OHost (h : string) | OPort (p : Z) | OTokenSource (ts : option TS)
  | OCertBundle (file : string) | OClientCert (cert : Cert) | OInsecure (i : bool) | OSidecarSecured (s : bool)
  | OOTEL (b : bool) | ODataDog (b : bool).
Definition option_of (o : client_option) : GRPCClientOption Cert TS :=
  match o with
  | OTarget t => WithTarget t | OAuthority a => WithAuthority a | OHost h => WithHost h | OPort p => WithPort p
  | OTokenSource ts => WithTokenSource ts | OCertBundle f => WithCertBundle f | OClientCert c => WithClientCert c
  | OInsecure i => WithInsecure i | OSidecarSecured s => WithSidecarSecured s | OOTEL b => WithOTELTracer b | ODataDog b => WithDataDogTracer b
  end.

(** What was asked for: all certificates, the last bundle, the last word on
    plaintext, and the last word on a sidecar. *)
Definition asked_certs (os : list client_option) : list Cert := omap (fun o => match o with OClientCert c => Some c | _ => None end) os.
Definition asked_bundle (os : list client_option) : string :=
  default "" (last (omap (fun o => match o with OCertBundle f => Some f | _ => None end) os)).
Definition asked_insecure (os : list client_option) : option bool :=
  last (omap (fun o => match o with OInsecure i => Some i | OSidecarSecured s => Some s | _ => None end) os).
Definition asked_sidecar (os : list client_option) : option bool :=
  last (omap (fun o => match o with OSidecarSecured s => Some s | _ => None end) os).
Definition asked_tokens (os : list client_option) : option TS :=
  mjoin (last (omap (fun o => match o with OTokenSource ts => Some ts | _ => None end) os)).

Lemma last_cons_default {A} (d x : A) l : default d (last (x :: l)) = default x (last l).
Proof. rewrite last_cons. by destruct (last l). Qed.

Lemma options_applied os c :
  ∃ c', apply_client_options (option_of <$> os) c = Ok c' ∧
    clientCerts c' = clientCerts c ++ asked_certs os ∧
    certBundleFile c' = default (certBundleFile c) (last (omap (fun o => match o with OCertBundle f => Some f | _ => None end) os)) ∧
    insecure c' = default (insecure c) (asked_insecure os) ∧
    insecureSet c' = (insecureSet c || bool_decide (is_Some (asked_insecure os))) ∧
    sidecarSecured c' = default (sidecarSecured c) (asked_sidecar os) ∧
    tokenSource c' = default (tokenSource c) (last (omap (fun o => match o with OTokenSource ts => Some ts | _ => None end) os)).
Proof.
  unfold asked_certs, asked_insecure, asked_sidecar. revert c. induction os as [|o os IH]; intros c.
  { exists c. cbn. by rewrite app_nil_r, orb_false_r. }
  cbn [fmap list_fmap apply_client_options].
  assert (Ho : ∃ c1, option_of o c = Ok c1) by (destruct o; by eexists). destruct Ho as [c1 Hc1]. rewrite Hc1. cbn [mbind result_bind].
  destruct (IH c1) as (c' & -> & H1 & H2 & H3 & H4 & H5 & H6). exists c'. split; [done|]. rewrite H1, H2, H3, H4, H5, H6. clear -Hc1.
  destruct o; cbn in Hc1; injection Hc1 as <-; cbn [omap list_omap clientCerts certBundleFile insecure insecureSet sidecarSecured tokenSource];
    rewrite ?last_cons_default; rewrite <-?app_assoc; try done.
  all: repeat split; symmetry; apply orb_true_intro; right; apply bool_decide_eq_true; rewrite last_cons; by case_match.
Qed.

(** The transports and the credentials among dial options. *)
Definition transports (dials : list (@dial_option Cert Pool TS)) : list dial_option :=
  omap (fun d => match d with TransportTLS _ | TransportInsecure => Some d | _ => None end) dials.
Definition credentials (dials : list (@dial_option Cert Pool TS)) : list rpc_credentials :=
  omap (fun d => match d with PerRPCCredentials cr => Some cr | _ => None end) dials.

(** The roots of a client: those of the bundle, or of the system without one. *)
Definition roots_of (bundle : string) (roots : option Pool) : Prop :=
  if decide (bundle = "") then roots = None
  else ∃ pem pool, ReadFile bundle = Ok pem ∧ AppendCertsFromPEM pem = Some pool ∧ roots = Some pool.

(** Certificates were given. *)
Definition wants_tls (os : list client_option) : Prop := asked_bundle os ≠ "" ∨ asked_certs os ≠ [].

Lemma tlsConfig_spec (c : GRPCClient Cert TS) name :
  match tlsConfig ReadFile AppendCertsFromPEM c name with
  | Ok cfg => ServerName cfg = name ∧ Certificates cfg = clientCerts c ∧ roots_of (certBundleFile c) (RootCAs cfg)
  | Err _ => certBundleFile c ≠ "" ∧ ∀ roots, ¬ roots_of (certBundleFile c) roots
  end.
Proof.
  unfold tlsConfig, roots_of. destruct (decide (certBundleFile c = "")) as [He|He]; [by rewrite decide_False by auto|].
  rewrite decide_True by done. destruct (ReadFile _) as [pem|e] eqn:Hr.
  - destruct (AppendCertsFromPEM pem) as [pool|] eqn:Ha; [by eauto 10|]. split; [done|]. intros roots (? & ? & [= <-] & ? & _). congruence.
  - split; [done|]. by intros roots (? & ? & ? & _).
Qed.

Lemma transports_app l1 l2 : transports (l1 ++ l2) = transports l1 ++ transports l2.
Proof. apply omap_app. Qed.
Lemma credentials_app l1 l2 : credentials (l1 ++ l2) = credentials l1 ++ credentials l2.
Proof. apply omap_app. Qed.

End client_theorems.
End Client.

(** ** Token introspection *)
Module Introspection.
Definition maxResponseBytes : N := N.shiftl 1 20.
(** [io.LimitReader]: at most [n] bytes. *)
Fixpoint limit (n : N) (body : string) : string :=
  match body with String c body' => if (n =? 0)%N then "" else String c (limit (n - 1) body') | EmptyString => "" end.

Record IntrospectionValidationOptions := mkIntrospection { IntrospectionURL : string; ClientID : string; ClientSecret : string; Token : string }.

(** The members of the response this code uses, next to the rest. *)
Record IntrospectionResponse R := mkResponse { Active : bool; rest : R }.
Arguments mkResponse {R}. Arguments Active {R}. Arguments rest {R}.

Record http_request := mkRequest { q_url : string; q_body : string; q_content_type : string; q_accept : string; q_authorization : string }.

Section introspection.
Context {R : Type}.
(** [http.NewRequestWithContext]'s error, [client.Do], and the decoder: the
    member [active], if there is one, and the rest. *)
Context (bad_url : string → option string) (Do : http_request → result string (Z * string))
        (decode_json : string → result string (option bool * R)).

(** [SetBasicAuth]. *)
Definition basic_auth (username password : string) : string :=
  "Basic " +:+ EncodeToString StdEncoding (bytes_of_string (username +:+ ":" +:+ password)).

Definition introspection_request (o : IntrospectionValidationOptions) : http_request :=
  mkRequest (IntrospectionURL o) ("token=" +:+ QueryEscape (Token o)) "application/x-www-form-urlencoded" "application/json"
    (basic_auth (QueryEscape (ClientID o)) (QueryEscape (ClientSecret o))).

Definition ValidateTokenWithContext (o : IntrospectionValidationOptions) : result string (IntrospectionResponse R) :=
  match bad_url (IntrospectionURL o) with
  | Some e => Err e
  | None =>
      '(StatusCode, body) ← Do (introspection_request o);
      if decide (StatusCode ≠ 200%Z)
      then Err ("error validating token: introspection endpoint returned " +:+ pretty StatusCode)
      else match decode_json (limit maxResponseBytes body) with
           | Err e => Err ("error validating token: unparseable introspection response: " +:+ e)
           | Ok (None, _) => Err "error validating token: introspection response has no active member"
           | Ok (Some false, _) => Err "error validating token: token is not active"
           | Ok (Some true, r) => Ok (mkResponse true r)
           end
  end.

Definition ValidateToken (o : IntrospectionValidationOptions) : result string unit :=
  _ ← ValidateTokenWithContext o; Ok tt.
End introspection.

(** *** Theorems *)
(** How a server reads the request. *)
Definition read_basic (header : string) : option (string * string) :=
  b ← DecodeString StdEncoding (String.substring 6 (String.length header - 6) header);
  match split_char ":"%char (string_of_bytes b) with
  | [u; p] => u ← QueryUnescape u; p ← QueryUnescape p; Some (u, p)
  | _ => None
  end.
Definition read_token (body : string) : option string :=
  if String.prefix "token=" body then QueryUnescape (String.substring 6 (String.length body - 6) body) else None.

Lemma escaped_no_colon s : count_char ":"%char (QueryEscape s) = 0.
Proof.
  apply count_char_none. intros Hin. destruct (escape_bytes QueryComponent s) as [_ Hall]. rewrite Forall_forall in Hall.
  by destruct (Hall _ Hin).
Qed.

Lemma read_basic_auth u p : read_basic (basic_auth (QueryEscape u) (QueryEscape p)) = Some (u, p).
Proof.
  unfold read_basic, basic_auth. set (e := EncodeToString _ _).
  assert (Hs : String.substring 6 (String.length ("Basic " +:+ e) - 6) ("Basic " +:+ e) = e) by apply (substring_app "Basic ").
  rewrite Hs. unfold e. rewrite DecodeString_EncodeToString; [|apply StdEncoding_ok|apply bytes_lt]. cbn [mbind option_bind].
  rewrite string_of_bytes_of_string. change (QueryEscape u +:+ ":" +:+ QueryEscape p) with (QueryEscape u +:+ String ":" (QueryEscape p)).
  rewrite split_char_app, split_char_none by apply escaped_no_colon. unfold QueryUnescape, QueryEscape.
  by rewrite !unescape_escape.
Qed.

(** a token is valid only when the endpoint says that it is active: a
    successful validation comes from an answer with status 200 whose first
    megabyte decodes to a response with an [active] member that is true (any
    other status, a body that does not decode, a missing or false member and a
    failed call are errors); and the request it answers carries exactly the
    token and the client's identifier and secret, whatever characters they have. *)
Theorem introspection_accepts_only_active {R} bad_url Do (decode_json : string → result string (option bool * R)) o :
  match ValidateTokenWithContext bad_url Do decode_json o with
  | Ok resp => Active resp = true ∧ ∃ body, Do (introspection_request o) = Ok (200%Z, body) ∧
      decode_json (limit maxResponseBytes body) = Ok (Some true, rest resp)
  | Err _ => ∀ body r, bad_url (IntrospectionURL o) = None → Do (introspection_request o) = Ok (200%Z, body) →
      decode_json (limit maxResponseBytes body) ≠ Ok (Some true, r)
  end ∧
  read_token (q_body (introspection_request o)) = Some (Token o) ∧
  read_basic (q_authorization (introspection_request o)) = Some (ClientID o, ClientSecret o) ∧
  q_url (introspection_request o) = IntrospectionURL o.
Proof.
  split; [|split; [|split; [apply read_basic_auth|done]]].
  - unfold ValidateTokenWithContext. destruct (bad_url _); [done|]. destruct (Do _) as [[st body]|]; cbn [mbind result_bind]; [|done].
    case_decide as Hst; [intros body' r _ [= Hst' _]; by destruct Hst|]. assert (st = 200%Z) as -> by (by destruct (decide (st = 200%Z))).
    destruct (decode_json _) as [[[[|]|] r]|e] eqn:Hd; try (intros body' r' _ [= <-]; by rewrite Hd). split; [done|]. by exists body.
  - unfold read_token, introspection_request. cbn [q_body]. set (e := QueryEscape _).
    assert (Hp : String.prefix "token=" ("token=" +:+ e) = true) by (cbn; by destruct e). rewrite Hp.
    assert (Hs : String.substring 6 (String.length ("token=" +:+ e) - 6) ("token=" +:+ e) = e) by apply (substring_app "token=").
    rewrite Hs. apply unescape_escape.
Qed.
End Introspection.
