(* ===== verification/MapMerge.v ===== *)
(** * Merging maps ([utils/replace_merge_map.go]) and replacing strings

    [ReplaceMergeMap] merges one configuration map into another, recursively
    where both have a map under a key, to a bounded depth.  Go visits maps in an
    order that is not specified: the loop takes it as an argument, and the
    result does not depend on it.  [ReplaceStrings] of [utils/strings.go] has no
    such guarantee. *)
From stdpp Require Import gmap strings.
From S2P Require Import Prelude GoText.
From stdpp Require Import options.

Section merge.
(** Values that are not string-keyed maps. *)
Context {A : Type}.

(** A value: a string-keyed map (of some Go type), or something else. *)
Inductive mval := MLeaf (x : A) | MMap (ty : string) (m : gmap string mval).

(** [map[string]interface{}]. *)
Definition anyMap : string := "map[string]interface {}".

Definition MaxDepth : nat := 32.

(** [mapify]: a fresh copy of a string-keyed map. *)
Definition mapify (v : mval) : option (gmap string mval) := match v with MMap _ m => Some m | MLeaf _ => None end.

Inductive merge_error := DepthExceeded | DstNil.

Section loop.
Context (merge : gmap string mval → gmap string mval → gmap string mval * option merge_error).

(** The loop over the source: [dst] as it is left, and the error. *)
Fixpoint merge_loop (src : list (string * mval)) (dst : gmap string mval) : gmap string mval * option merge_error :=
  match src with
  | [] => (dst, None)
  | (key, srcVal) :: src' =>
      match dst !! key with
      | Some dstVal =>
          match mapify srcVal, mapify dstVal with
          | Some srcMap, Some dstMap =>
              match merge dstMap srcMap with
              | (_, Some err) => (dst, Some err)
              | (dstMap, None) => merge_loop src' (<[key := MMap anyMap dstMap]> dst)
              end
          | _, _ => merge_loop src' (<[key := srcVal]> dst)
          end
      | None => merge_loop src' (<[key := srcVal]> dst)
      end
  end.
End loop.

(** [replaceOnlyMergeMap]; [left] is how many levels may still be entered,
    [MaxDepth + 1 - depth]. *)
Fixpoint replaceOnlyMergeMap (order : list (string * mval) → list (string * mval)) (left : nat) (dst src : gmap string mval)
    : gmap string mval * option merge_error :=
  match left with
  | 0 => (dst, Some DepthExceeded)
  | S left' => merge_loop (replaceOnlyMergeMap order left') (order (map_to_list src)) dst
  end.

(** [ReplaceMergeMap]: [None] is a nil map. *)
Definition ReplaceMergeMap (order : list (string * mval) → list (string * mval)) (dst : option (gmap string mval)) (src : gmap string mval)
    : option (gmap string mval) * option merge_error :=
  match dst with
  | None => (None, Some DstNil)
  | Some dst => let '(dst, err) := replaceOnlyMergeMap order (S MaxDepth) dst src in (Some dst, err)
  end.

(** ** Theorems *)
(** What merging means: keys of the source win, except that two maps are merged. *)
Inductive merged (dst src res : gmap string mval) : Prop :=
  merged_intro :
    (∀ k, src !! k = None → res !! k = dst !! k) →
    (∀ k s, src !! k = Some s → mapify s = None ∨ dst !! k ≫= mapify = None → res !! k = Some s) →
    (∀ k s d, src !! k ≫= mapify = Some s → dst !! k ≫= mapify = Some d → ∃ r, res !! k = Some (MMap anyMap r) ∧ merged d s r) →
    merged dst src res.

(** Maps below common keys, [n] levels deep. *)
Inductive deep : nat → gmap string mval → gmap string mval → Prop :=
  | deep_here dst src : deep 0 dst src
  | deep_below n k d s dst src : dst !! k ≫= mapify = Some d → src !! k ≫= mapify = Some s → deep n d s → deep (S n) dst src.

(** One pass of the loop over the rest of the source. *)
Lemma merge_loop_spec merge n l (dst0 src : gmap string mval) :
  (∀ d s, match merge d s with (r, None) => merged d s r ∧ ¬ deep n d s | (_, Some err) => err = DepthExceeded ∧ deep n d s end) →
  NoDup l.*1 → (∀ k v, (k, v) ∈ l → src !! k = Some v) →
  ∀ dst, (∀ k, k ∈ l.*1 → dst !! k = dst0 !! k) →
  match merge_loop merge l dst with
  | (res, None) =>
      (∀ k, k ∉ l.*1 → res !! k = dst !! k) ∧
      (∀ k s, (k, s) ∈ l → mapify s = None ∨ dst0 !! k ≫= mapify = None → res !! k = Some s) ∧
      (∀ k v s d, (k, v) ∈ l → mapify v = Some s → dst0 !! k ≫= mapify = Some d → (∃ r, res !! k = Some (MMap anyMap r) ∧ merged d s r) ∧ ¬ deep n d s)
  | (_, Some err) => err = DepthExceeded ∧ deep (S n) dst0 src
  end.
Proof.
  intros Hm. induction l as [|[k v] l IH]; intros Hnd Hsrc dst Hdst; cbn [merge_loop].
  { split; [done|]. split; [by intros k s ?%elem_of_nil|by intros k v s d ?%elem_of_nil]. }
  cbn [fmap list_fmap fst] in *. apply NoDup_cons in Hnd as [Hk Hnd].
  assert (Hv : src !! k = Some v) by (apply Hsrc; left). rewrite (Hdst k) by left.
  assert (Hstep : ∀ w,
    match dst0 !! k ≫= mapify, mapify v with
    | Some d, Some s => (∃ r, w = MMap anyMap r ∧ merged d s r) ∧ ¬ deep n d s
    | _, _ => w = v
    end →
    match merge_loop merge l (<[k := w]> dst) with
    | (res, None) =>
        (∀ k0, k0 ∉ k :: l.*1 → res !! k0 = dst !! k0) ∧
        (∀ k0 s, (k0, s) ∈ (k, v) :: l → mapify s = None ∨ dst0 !! k0 ≫= mapify = None → res !! k0 = Some s) ∧
        (∀ k0 v0 s d, (k0, v0) ∈ (k, v) :: l → mapify v0 = Some s → dst0 !! k0 ≫= mapify = Some d →
           (∃ r, res !! k0 = Some (MMap anyMap r) ∧ merged d s r) ∧ ¬ deep n d s)
    | (_, Some err) => err = DepthExceeded ∧ deep (S n) dst0 src
    end).
  { intros w Hw. assert (Hsrc' : ∀ k0 v0, (k0, v0) ∈ l → src !! k0 = Some v0) by (intros k0 v0 Hin; apply Hsrc; by right).
    assert (Hdst' : ∀ k0, k0 ∈ l.*1 → <[k := w]> dst !! k0 = dst0 !! k0).
    { intros k0 Hin. rewrite lookup_insert_ne by (by intros ->). apply Hdst. by right. }
    specialize (IH Hnd Hsrc' _ Hdst'). destruct (merge_loop merge l (<[k := w]> dst)) as [res [err|]]; [done|].
    destruct IH as (I1 & I2 & I3). assert (Hres : res !! k = Some w) by (by rewrite I1, lookup_insert_eq).
    split; [|split].
    - intros k0 [Hne Hnin]%not_elem_of_cons. rewrite I1 by done. by rewrite lookup_insert_ne.
    - intros k0 s [[= -> ->]|Hin]%elem_of_cons Hc; [|by apply I2]. rewrite Hres.
      destruct (dst0 !! k ≫= mapify) eqn:Hd, (mapify v) eqn:Hmv; subst; try done. by destruct Hc.
    - intros k0 v0 s d [[= -> ->]|Hin]%elem_of_cons Hs Hd; [|by eapply I3]. rewrite Hd, Hs in Hw. destruct Hw as [(r & -> & Hr) Hnd'].
      split; [|done]. by exists r. }
  destruct (dst0 !! k) as [d|] eqn:Hd; [|by apply Hstep]. cbn [mbind option_bind] in Hstep.
  destruct (mapify v) as [s|] eqn:Hmv, (mapify d) as [dm|] eqn:Hmd; try (by apply Hstep).
  specialize (Hm dm s). destruct (merge dm s) as [r [err|]].
  - destruct Hm as [-> Hdeep]. split; [done|]. apply (deep_below n k dm s); [by rewrite Hd|by rewrite Hv|done].
  - apply Hstep. split; [|apply Hm]. exists r. split; [done|apply Hm].
Qed.

(** The result is unique. *)
Lemma merged_unique : ∀ dst src r1, merged dst src r1 → ∀ r2, merged dst src r2 → r1 = r2.
Proof.
  fix IH 4. intros dst src r1 [A1 B1 C1] r2 [A2 B2 C2]. apply map_eq. intros k.
  destruct (src !! k) as [v|] eqn:Hv; [|by rewrite A1, A2].
  destruct (mapify v) as [s|] eqn:Hs; [|rewrite (B1 k v), (B2 k v) by auto; done].
  destruct (dst !! k ≫= mapify) as [d|] eqn:Hd; [|rewrite (B1 k v), (B2 k v) by auto; done].
  assert (Hvs : src !! k ≫= mapify = Some s) by (by rewrite Hv).
  destruct (C1 k s d Hvs Hd) as (x1 & H1 & M1). destruct (C2 k s d Hvs Hd) as (x2 & H2 & M2).
  rewrite H1, H2. f_equal. f_equal. exact (IH d s x1 M1 x2 M2).
Qed.

Lemma replaceOnlyMergeMap_spec order n : (∀ l, order l ≡ₚ l) → ∀ d s,
  match replaceOnlyMergeMap order n d s with
  | (r, None) => merged d s r ∧ ¬ deep n d s
  | (_, Some err) => err = DepthExceeded ∧ deep n d s
  end.
Proof.
  intros Horder. induction n as [|n IH]; intros d s; cbn [replaceOnlyMergeMap]; [split; [done|constructor]|].
  pose proof (merge_loop_spec _ n (order (map_to_list s)) d s IH) as Hl.
  assert (Hin : ∀ k v, (k, v) ∈ order (map_to_list s) ↔ s !! k = Some v) by (intros k v; by rewrite (Horder _), elem_of_map_to_list).
  assert (Hdom : ∀ k, k ∈ (order (map_to_list s)).*1 ↔ is_Some (s !! k)).
  { intros k. rewrite list_elem_of_fmap. split; [intros ([? v] & -> & H%Hin); by eexists|intros [v Hv]; exists (k, v); split; [done|by apply Hin]]. }
  specialize (Hl ltac:(rewrite (Horder _); apply NoDup_fst_map_to_list) ltac:(intros k v; apply Hin) d ltac:(done)).
  destruct (merge_loop _ _ _) as [r [err|]]; [done|]. destruct Hl as (H1 & H2 & H3). split.
  - constructor.
    + intros k Hk. apply H1. rewrite Hdom, Hk. by intros [].
    + intros k v Hk Hc. apply H2; [by apply Hin|done].
    + intros k sm dm Hs Hd. destruct (s !! k) as [v|] eqn:Hv; [|done]. by apply (H3 k v); [apply Hin| |].
  - intros Hdeep. inversion Hdeep as [|n' k dm sm ? ? Hd Hs Hb]; subst. destruct (s !! k) as [v|] eqn:Hv; [|done].
    by apply (H3 k v sm dm); [apply Hin|..].
Qed.

(** C25: maps are merged as specified, in any order: whatever order the source is
    visited in, merging into a map gives the map in which the keys of the
    source win, except that two string-keyed maps are merged into one, and any
    other order gives the same map; it fails exactly when maps sit below common
    keys more than 32 levels deep, and when the destination is nil. *)
Theorem ReplaceMergeMap_merges (order order' : list (string * mval) → list (string * mval)) (dst : option (gmap string mval)) (src : gmap string mval) :
  (∀ l, order l ≡ₚ l) → (∀ l, order' l ≡ₚ l) →
  match dst, ReplaceMergeMap order dst src with
  | None, r => r = (None, Some DstNil)
  | Some dst, (Some res, None) =>
      merged dst src res ∧ ¬ deep (S MaxDepth) dst src ∧ ReplaceMergeMap order' (Some dst) src = (Some res, None)
  | Some dst, (_, err) => err = Some DepthExceeded ∧ deep (S MaxDepth) dst src
  end.
Proof.
  intros H1 H2. destruct dst as [dst|]; [|done]. unfold ReplaceMergeMap.
  pose proof (replaceOnlyMergeMap_spec order (S MaxDepth) H1 dst src) as S1.
  pose proof (replaceOnlyMergeMap_spec order' (S MaxDepth) H2 dst src) as S2.
  destruct (replaceOnlyMergeMap order _ dst src) as [r1 [e1|]]; [by destruct S1 as [-> ?]|]. destruct S1 as [M1 D1].
  split; [done|]. split; [done|]. destruct (replaceOnlyMergeMap order' _ dst src) as [r2 [e2|]]; [by destruct S2|].
  by rewrite (merged_unique _ _ _ M1 r2) by apply S2.
Qed.
End merge.
Arguments mval : clear implicits.

Lemma ReplaceMergeMap_merges_witness :
  let dst : gmap string (mval nat) := {["db" := MMap "map[string]int" {["port" := MLeaf 1; "pool" := MLeaf 2]}; "name" := MLeaf 3]} in
  let src : gmap string (mval nat) := {["db" := MMap anyMap {["port" := MLeaf 9]}; "debug" := MLeaf 4]} in
  ReplaceMergeMap (fun l => l) (Some dst) src
  = (Some {["db" := MMap anyMap {["port" := MLeaf 9; "pool" := MLeaf 2]}; "name" := MLeaf 3; "debug" := MLeaf 4]}, None) ∧
  ReplaceMergeMap reverse (Some dst) src = ReplaceMergeMap (fun l => l) (Some dst) src.
Proof.
  intros dst src. pose proof (ReplaceMergeMap_merges (fun l => l) reverse (Some dst) src ltac:(done) (fun l => reverse_Permutation l)) as H.
  assert (Hr : ReplaceMergeMap (fun l => l) (Some dst) src
    = (Some {["db" := MMap anyMap {["port" := MLeaf 9; "pool" := MLeaf 2]}; "name" := MLeaf 3; "debug" := MLeaf 4]}, None))
    by (vm_compute; reflexivity).
  split; [exact Hr|]. cbv beta iota in H. rewrite Hr in H |- *. apply H.
Defined.

(** ** Replacing strings ([utils/strings.go]) *)
(** The pairs in the order they are visited in; [None] is a nil map. *)
Definition ReplaceStrings (order : list (string * string) → list (string * string)) (original : string) (replace : option (gmap string string)) : string :=
  match replace with
  | None => original
  | Some m => foldl (fun s kv => strings_ReplaceAll s kv.1 kv.2) original (order (map_to_list m))
  end.
Definition CurlyBraceReplaceStrings (order : list (string * string) → list (string * string)) (original : string) (replace : option (gmap string string)) : string :=
  match replace with
  | None => original
  | Some m => foldl (fun s kv => strings_ReplaceAll s ("{" +:+ kv.1 +:+ "}") kv.2) original (order (map_to_list m))
  end.

(** When a value mentions another key, the result depends on the order in which
    the map is visited, which Go leaves open. *)
Theorem CurlyBraceReplaceStrings_depends_on_order :
  let m : gmap string string := {["greeting" := "Hi {name}"; "name" := "Bob"]} in
  ∃ order order', (∀ l, order l ≡ₚ l) ∧ (∀ l, order' l ≡ₚ l) ∧
    CurlyBraceReplaceStrings order "{greeting}" (Some m) ≠ CurlyBraceReplaceStrings order' "{greeting}" (Some m).
Proof.
  intros m. exists (fun l => l), reverse. split; [done|]. split; [intros l; apply reverse_Permutation|]. by vm_compute.
Qed.
