(* ===== verification/Helpers.v ===== *)
(** * Small services and helpers

    [services/tasks] (the scheduler service over the madflojo library),
    [async] (a call run in a goroutine, with its future), [services/claims]
    (a bag of claims with typed accessors) and [utils/zeroer.go] (emptiness of
    any value, over what reflection sees of it). *)
From stdpp Require Import gmap strings.
From S2P Require Import Prelude GoText.
From stdpp Require Import options.

(** ** [services/tasks] *)
Module Tasks.
Section tasks.
(** Tasks, and the scheduler library: a scheduler is a pointer to the tasks it
    owns; [invalid] says what [AddWithID] finds wrong with a task, [fresh] is the
    identifier that [Add] makes. *)
Context {T : Type} (invalid : T → option string) (fresh : gmap string T → string).

Inductive task_error := ErrNotStarted | InvalidTask (msg : string) | IDInUse | TaskNotFound.

(** The library: the schedulers made so far, by their pointers. *)
Abbreviation schedulers := (list (gmap string T)).

Definition lib_AddWithID (n : nat) (id : string) (t : T) (h : schedulers) : result task_error schedulers :=
  match invalid t, h !! n with
  | Some e, _ => Err (InvalidTask e)
  | None, Some tasks => if decide (is_Some (tasks !! id)) then Err IDInUse else Ok (<[n := <[id := t]> tasks]> h)
  | None, None => Err TaskNotFound
  end.
Definition lib_Stop (n : nat) (h : schedulers) : schedulers := <[n := ∅]> h.
Definition lib_Del (n : nat) (id : string) (h : schedulers) : schedulers := alter (delete id) n h.

(** The service: the current scheduler; the library's heap goes along. *)
Record service := mkTasks { schedular : option nat; lib : schedulers }.

Definition Start (s : service) : service :=
  match schedular s with
  | Some _ => s
  | None => mkTasks (Some (length (lib s))) (lib s ++ [∅])
  end.
Definition Stop (s : service) : service :=
  match schedular s with
  | None => s
  | Some n => mkTasks None (lib_Stop n (lib s))
  end.
(** [current]. *)
Definition current (s : service) : option nat := schedular s.

Definition AddWithID (id : string) (t : T) (s : service) : result task_error unit * service :=
  match current s with
  | None => (Err ErrNotStarted, s)
  | Some sch => match lib_AddWithID sch id t (lib s) with
                | Ok h => (Ok tt, mkTasks (schedular s) h)
                | Err e => (Err e, s)
                end
  end.
Definition Add (t : T) (s : service) : result task_error string * service :=
  match current s with
  | None => (Err ErrNotStarted, s)
  | Some sch =>
      let id := fresh (default ∅ (lib s !! sch)) in
      match lib_AddWithID sch id t (lib s) with
      | Ok h => (Ok id, mkTasks (schedular s) h)
      | Err e => (Err e, s)
      end
  end.
Definition Del (name : string) (s : service) : service :=
  match current s with Some sch => mkTasks (schedular s) (lib_Del sch name (lib s)) | None => s end.
Definition Lookup (name : string) (s : service) : result task_error T :=
  match current s with
  | None => Err ErrNotStarted
  | Some sch => match lib s !! sch ≫= (.!! name) with Some t => Ok t | None => Err TaskNotFound end
  end.
Definition Tasks (s : service) : gmap string T := match current s with Some sch => default ∅ (lib s !! sch) | None => ∅ end.

(** *** The service as a map that exists while it runs *)
Inductive task_op := OpStart | OpStop | OpAdd (t : T) | OpAddWithID (id : string) (t : T) | OpDel (id : string) | OpLookup (id : string) | OpTasks.
Inductive task_reply := RNone | RId (r : result task_error string) | RUnit (r : result task_error unit) | RTask (r : result task_error T) | RTasks (m : gmap string T).

Definition task_exec (o : task_op) (s : service) : task_reply * service :=
  match o with
  | OpStart => (RNone, Start s) | OpStop => (RNone, Stop s)
  | OpAdd t => let '(r, s) := Add t s in (RId r, s)
  | OpAddWithID id t => let '(r, s) := AddWithID id t s in (RUnit r, s)
  | OpDel id => (RNone, Del id s) | OpLookup id => (RTask (Lookup id s), s) | OpTasks => (RTasks (Tasks s), s)
  end.

(** The specification: [None] while stopped. *)
Definition spec_add (id : string) (t : T) (m : gmap string T) : result task_error (gmap string T) :=
  match invalid t with
  | Some e => Err (InvalidTask e)
  | None => if decide (is_Some (m !! id)) then Err IDInUse else Ok (<[id := t]> m)
  end.
Definition task_spec (o : task_op) (m : option (gmap string T)) : task_reply * option (gmap string T) :=
  match o, m with
  | OpStart, None => (RNone, Some ∅)
  | OpStart, Some m => (RNone, Some m)
  | OpStop, _ => (RNone, None)
  | OpAdd t, Some m => let id := fresh m in match spec_add id t m with Ok m' => (RId (Ok id), Some m') | Err e => (RId (Err e), Some m) end
  | OpAdd _, None => (RId (Err ErrNotStarted), None)
  | OpAddWithID id t, Some m => match spec_add id t m with Ok m' => (RUnit (Ok tt), Some m') | Err e => (RUnit (Err e), Some m) end
  | OpAddWithID _ _, None => (RUnit (Err ErrNotStarted), None)
  | OpDel id, Some m => (RNone, Some (delete id m))
  | OpDel _, None => (RNone, None)
  | OpLookup id, Some m => (RTask (match m !! id with Some t => Ok t | None => Err TaskNotFound end), Some m)
  | OpLookup _, None => (RTask (Err ErrNotStarted), None)
  | OpTasks, m => (RTasks (default ∅ m), m)
  end.

Fixpoint run_all {S} (exec : task_op → S → task_reply * S) (ops : list task_op) (s : S) : list task_reply :=
  match ops with [] => [] | o :: ops' => let '(r, s) := exec o s in r :: run_all exec ops' s end.

(** The service and the map agree; the schedulers that were stopped own nothing. *)
Definition tasks_rep (s : service) (m : option (gmap string T)) : Prop :=
  match schedular s with
  | Some n => lib s !! n = m ∧ is_Some m
  | None => m = None
  end ∧ ∀ i tasks, lib s !! i = Some tasks → schedular s ≠ Some i → tasks = ∅.

Lemma task_step o s m : tasks_rep s m →
  (task_exec o s).1 = (task_spec o m).1 ∧ tasks_rep (task_exec o s).2 (task_spec o m).2.
Proof.
  intros [Hcur Hold]. destruct s as [[n|] h]; cbn in Hcur, Hold.
  - destruct Hcur as [Hn [tasks ->]]. assert (Hlt : n < length h) by (by eapply lookup_lt_Some).
    assert (Hins : ∀ tasks', tasks_rep (mkTasks (Some n) (<[n := tasks']> h)) (Some tasks')).
    { intros tasks'. split; [cbn; by rewrite list_lookup_insert_eq|]. intros i tk Hi Hne. cbn in Hi, Hne.
      rewrite list_lookup_insert_ne in Hi by congruence. by apply (Hold i). }
    assert (Hsame : tasks_rep (mkTasks (Some n) h) (Some tasks)) by (split; [by split|exact Hold]).
    destruct o; cbn.
    + done.
    + split; [done|]. split; [done|]. cbn. intros i tk Hi _. unfold lib_Stop in Hi.
      apply list_lookup_insert_Some in Hi as [(-> & -> & _)|[Hne Hi]]; [done|]. apply (Hold i tk Hi). by intros [= ->].
    + unfold Add. cbn. rewrite Hn. cbn. unfold lib_AddWithID, spec_add. destruct (invalid t); [done|]. rewrite Hn. case_decide; [done|]. by split; [|apply Hins].
    + unfold AddWithID. cbn. unfold lib_AddWithID, spec_add. destruct (invalid t); [done|]. rewrite Hn. case_decide; [done|]. by split; [|apply Hins].
    + split; [done|]. unfold Del, lib_Del. cbn. replace (alter (delete id) n h) with (<[n := delete id tasks]> h); [apply Hins|].
      apply list_eq. intros i. destruct (decide (i = n)) as [-> |Hne]; [by rewrite list_lookup_insert_eq, list_lookup_alter_eq, Hn|].
      by rewrite list_lookup_insert_ne, list_lookup_alter_ne.
    + unfold Lookup. cbn. by rewrite Hn.
    + unfold Tasks. cbn. by rewrite Hn.
  - subst m. destruct o; cbn; try (by split; [|split]).
    split; [done|]. unfold Start. cbn. split.
    + cbn. rewrite lookup_app_r, Nat.sub_diag by done. split; [done|by eexists].
    + intros i tk Hi Hne. cbn in Hi, Hne. apply lookup_app_Some in Hi as [Hi|[Hge Hi]]; [by apply (Hold i)|].
      destruct (i - length h) as [|?] eqn:Hs; cbn in Hi; [|done]. destruct Hne. f_equal. lia.
Qed.

(** the scheduler service is a map of tasks that exists between [Start] and
    [Stop]: every sequence of operations is answered as such a map answers it,
    whatever came before; operations before [Start] and after [Stop] report
    that it is not started, starting again begins with no task, and a scheduler
    that was stopped owns none. *)
Theorem tasks_service_refines_map (ops : list task_op) :
  run_all task_exec ops (mkTasks None []) = run_all task_spec ops None.
Proof.
  assert (Hgen : ∀ s m, tasks_rep s m → run_all task_exec ops s = run_all task_spec ops m).
  { induction ops as [|o ops IH]; intros s m Hrep; [done|]. cbn [run_all]. destruct (task_step o s m Hrep) as [Hr Hrep'].
    destruct (task_exec o s) as [r s'], (task_spec o m) as [r' m']. cbn in *. subst. f_equal. by apply IH. }
  apply Hgen. split; [done|]. by intros i tk Hi.
Qed.

(** *** A race *)
(** [Add] reads the current scheduler under the lock and uses it after
    releasing it: between the two, [Stop] may run. *)
Definition add_after_stop (id : string) (t : T) (s : service) : service :=
  match current s with
  | None => s
  | Some sch => let s := Stop s in match lib_AddWithID sch id t (lib s) with Ok h => mkTasks (schedular s) h | Err _ => s end
  end.

(** Then the task is scheduled although the service is stopped, by a scheduler
    that no later operation of the service can reach. *)
Theorem add_may_outlive_stop (id : string) (t : T) :
  invalid t = None →
  let s := add_after_stop id t (Start (mkTasks None [])) in
  schedular s = None ∧ lib s = [{[id := t]}] ∧ Tasks (Start s) = ∅ ∧ lib (Stop (Start s)) !! 0 = Some {[id := t]}.
Proof. intros Hv. unfold add_after_stop, lib_AddWithID. cbn. rewrite Hv. cbn. rewrite decide_False; [done|]. by rewrite lookup_empty; intros []. Qed.
End tasks.
End Tasks.

(** ** [async] *)
Module Async.
Section async.
Context {V : Type}.

(** How the function ends: with a value and an error, or by a panic. *)
Inductive call_end := CallReturned (v : V) (err : option string) | CallPanicked (what : string).
Record FutureResponse := mkFuture { Value : option V; fr_Err : option string }.

(** The response that the deferred function publishes. *)
Definition response_of (e : call_end) : FutureResponse :=
  match e with
  | CallReturned v err => mkFuture (Some v) err
  | CallPanicked what => mkFuture None (Some ("panic: " +:+ what))
  end.

(** The goroutine of [ExecuteAsync]: the call runs; [p.Success]; [close(done)].
    The promise holds the response; [done] is a channel that is only closed. *)
Inductive async_pc := Running | Publishing (r : FutureResponse) | Closing | Finished.
Record async_state := mkAsync { a_pc : async_pc; a_promise : option FutureResponse; a_done : bool }.

Definition ExecuteAsync : async_state := mkAsync Running None false.

Inductive async_step : async_state → async_state → Prop :=
  | step_call e p d : async_step (mkAsync Running p d) (mkAsync (Publishing (response_of e)) p d)
  | step_success r p d : async_step (mkAsync (Publishing r) p d) (mkAsync Closing (Some r) d)
  | step_close p d : async_step (mkAsync Closing p d) (mkAsync Finished p true).

(** [IsComplete] looks at the channel without taking anything from it. *)
Definition IsComplete (s : async_state) : bool := a_done s.
(** [Future.Join], after the mapping of the response to its error; [None] blocks. *)
Definition Join (s : async_state) : option (FutureResponse * option string) := (fun r => (r, fr_Err r)) <$> a_promise s.

(** What holds of every state of the goroutine. *)
Definition async_ok (s : async_state) : Prop :=
  match a_pc s with
  | Running => a_promise s = None ∧ a_done s = false
  | Publishing r => (∃ e, r = response_of e) ∧ a_promise s = None ∧ a_done s = false
  | Closing => (∃ e, a_promise s = Some (response_of e)) ∧ a_done s = false
  | Finished => (∃ e, a_promise s = Some (response_of e)) ∧ a_done s = true
  end.

Lemma async_invariant s : rtc async_step ExecuteAsync s → async_ok s.
Proof.
  revert s. apply (rtc_ind_r async_ok ExecuteAsync); [done|]. intros s s' _ Hstep Hok.
  destruct Hstep; unfold async_ok in *; cbn in *; naive_solver.
Qed.

(** an asynchronous call completes with its result: once the function has
    ended, by returning or by a panic, the future is completed and the channel
    closed after finitely many steps, without anybody looking at them; from then
    on every look says so; a complete call can be joined without blocking; and
    what is joined is the value and the error of the function, or its panic as
    an error. *)
Theorem async_call_completes (s : async_state) :
  rtc async_step ExecuteAsync s →
  eventually async_step (fun s => IsComplete s = true) s ∧
  (IsComplete s = true → is_Some (Join s) ∧ ∀ s', rtc async_step s s' → IsComplete s' = true ∧ Join s' = Join s) ∧
  (∀ r err, Join s = Some (r, err) → ∃ e, r = response_of e ∧
     err = match e with CallReturned _ err => err | CallPanicked what => Some ("panic: " +:+ what) end).
Proof.
  intros Hr. pose proof (async_invariant s Hr) as Hok. split; [|split].
  - apply (eventually_measure async_step _ async_ok (fun s => match a_pc s with Running => 3 | Publishing _ => 2 | Closing => 1 | Finished => 0 end)); [| |done].
    + clear. intros [pc p d] Hok. unfold async_ok in Hok. cbn in *. destruct pc as [|r| |].
      * right. eexists. apply (step_call (CallPanicked "")).
      * right. eexists. apply step_success.
      * right. eexists. apply step_close.
      * left. apply Hok.
    + clear. intros s s' Hok Hstep. destruct Hstep; unfold async_ok in *; cbn in *; (split; [naive_solver|lia]).
  - intros Hd. unfold IsComplete in Hd. destruct s as [pc p d]. cbn in Hd. subst d. unfold async_ok in Hok. cbn in Hok.
    destruct pc as [|r| |]; [by destruct Hok|by destruct Hok as (_ & _ & ?)|by destruct Hok|]. destruct Hok as [[e ->] _]. split; [by eexists|].
    intros s' Hs'. inversion Hs' as [|? ? ? Hstep _]; subst; [done|]. inversion Hstep.
  - intros r err. unfold Join. destruct (a_promise s) as [r'|] eqn:Hp; [|done]. intros [= -> <-].
    assert (∃ e, r = response_of e) as [e ->].
    { unfold async_ok in Hok. rewrite Hp in Hok. destruct (a_pc s); naive_solver. }
    exists e. split; [done|]. by destruct e.
Qed.
End async.

Lemma async_call_completes_witness :
  eventually async_step (fun s => IsComplete s = true) (ExecuteAsync (V := nat)).
Proof. apply (async_call_completes ExecuteAsync). reflexivity. Defined.
End Async.

(** ** [services/claims] *)
Module ClaimsBag.
Section bag.
(** Floating point numbers and their truncation to 64 bits; other values. *)
Context {F O : Type} (int64_of : F → Z).
Inductive claim_value := CString (s : string) | CStrings (l : list string) | CFloat (f : F) | COther (o : O).
Abbreviation bag := (gmap string claim_value).

Definition NewClaims : bag := ∅.
Definition Set_claim (a : bag) (key : string) (value : claim_value) : bag := <[key := value]> a.
Definition Delete_claim (a : bag) (key : string) : bag := delete key a.
Definition Get_claim (a : bag) (key : string) : option claim_value := a !! key.
Definition Claims (order : list (string * claim_value) → list (string * claim_value)) (a : bag) : list (string * claim_value) := order (map_to_list a).

Definition GetAudience (a : bag) : result string (list string) :=
  match a !! "aud" with Some (CStrings aud) => Ok aud | _ => Err "audience is not a string array" end.
(** The three dates, in seconds. *)
Definition get_date (what : string) (key : string) (a : bag) : result string Z :=
  match a !! key with Some (CFloat f) => Ok (int64_of f) | _ => Err (what +:+ " is not a float64") end.
Definition GetExpirationTime : bag → result string Z := get_date "expiration time" "exp".
Definition GetIssuedAt : bag → result string Z := get_date "issued at time" "iat".
Definition GetNotBefore : bag → result string Z := get_date "not before time" "nbf".
Definition get_string (what : string) (key : string) (a : bag) : result string string :=
  match a !! key with Some (CString s) => Ok s | _ => Err (what +:+ " is not a string") end.
Definition GetIssuer : bag → result string string := get_string "issuer" "iss".
Definition GetSubject : bag → result string string := get_string "subject" "sub".

(** What was set is read, at its type; the claims listed are those set. *)
Theorem claims_bag_spec order (a : bag) key v :
  (∀ l, order l ≡ₚ l) →
  Get_claim (Set_claim a key v) key = Some v ∧
  (∀ key', key' ≠ key → Get_claim (Set_claim a key v) key' = Get_claim a key' ∧ Get_claim (Delete_claim a key) key' = Get_claim a key') ∧
  Get_claim (Delete_claim a key) key = None ∧
  (∀ k x, (k, x) ∈ Claims order a ↔ Get_claim a k = Some x).
Proof.
  intros Ho. unfold Get_claim, Set_claim, Delete_claim, Claims. split; [by rewrite lookup_insert_eq|].
  split; [intros k Hk; by rewrite lookup_insert_ne, lookup_delete_ne|]. split; [by rewrite lookup_delete_eq|].
  intros k x. by rewrite (Ho _), elem_of_map_to_list.
Qed.
End bag.
End ClaimsBag.

(** ** [utils/zeroer.go] *)
Module Zero.
(** What reflection sees of a value.  [GZeroer z v]: the type of [v] has a
    method [IsZero], which gives [z] ([None]: it panics). *)
Inductive gov :=
  | GPrim (zero : bool)                  (* a boolean or a number, and whether it is the zero *)
  | GString (s : string)
  | GPtr (isnil : bool) | GChan (isnil : bool) | GUnsafe (isnil : bool) | GFunc (isnil : bool)
  | GSlice (isnil : bool) (len : nat) | GMap (isnil : bool) (len : nat)
  | GArray (l : list gov)
  | GStruct (fields : list (bool * gov)) (* with whether the field is exported *)
  | GIface (v : option gov)              (* of interface type *)
  | GZeroer (z : option bool) (v : gov).

(** [reflect.Value.IsZero]. *)
Fixpoint reflect_IsZero (v : gov) : bool :=
  match v with
  | GPrim z => z
  | GString s => bool_decide (s = "")
  | GPtr n | GChan n | GUnsafe n | GFunc n | GSlice n _ | GMap n _ => n
  | GArray l => forallb reflect_IsZero l
  | GStruct fs => forallb (fun f => reflect_IsZero f.2) fs
  | GIface o => match o with None => true | Some _ => false end
  | GZeroer _ v => reflect_IsZero v
  end.

(** [z = z && IsZero(...)] over the elements: the rest is not looked at once one
    is not zero; [None] is a panic. *)
Fixpoint all_zero (l : list (option bool)) : option bool :=
  match l with
  | [] => Some true
  | None :: _ => None
  | Some true :: l' => all_zero l'
  | Some false :: _ => Some false
  end.

(** [IsZero] on a valid value that can be turned into an interface.  A value
    under an unexported field cannot, and is left to the library. *)
Fixpoint IsZero (v : gov) : option bool :=
  match v with
  | GZeroer z _ => z
  | GIface o => match o with Some (GZeroer z _) => z | Some _ => Some false | None => Some true end
  | GFunc n => Some n
  | GSlice n len | GMap n len => Some (n || bool_decide (len = 0))
  | GArray l => all_zero (IsZero <$> l)
  | GStruct fs => all_zero ((fun f : bool * gov => if f.1 then IsZero f.2 else Some (reflect_IsZero f.2)) <$> fs)
  | GPrim z => Some z
  | GString s => Some (bool_decide (s = ""))
  | GPtr n | GChan n | GUnsafe n => Some n
  end.

(** The value without its methods. *)
Fixpoint bare (v : gov) : gov := match v with GZeroer _ v' => bare v' | _ => v end.

(** [IsNil], on an interface holding a value ([None]: nil). *)
Definition IsNil (i : option gov) : bool :=
  match i with
  | None => true
  | Some v => match bare v with GPtr n | GMap n _ | GChan n | GSlice n _ | GFunc n | GUnsafe n => n | _ => false end
  end.

Definition IsEmptyOrNil (i : option gov) : option bool :=
  if IsNil i then Some true
  else match i with
       | None => Some true
       | Some v => match bare v with
                   | GPtr _ | GMap _ _ | GArray _ | GChan _ | GSlice _ _ => IsZero v
                   | GString s => Some (bool_decide (s = ""))
                   | _ => Some false
                   end
       end.

(** Emptiness means what its callers take it to mean, and the check panics only
    if a method [IsZero] of the value, or of an element of an array, does: a
    string is empty when it has no character, a slice or map when it has no
    element, a pointer or channel when it is nil; numbers, booleans and structs
    never are. *)
Theorem IsEmptyOrNil_spec :
  IsEmptyOrNil None = Some true ∧
  (∀ s, IsEmptyOrNil (Some (GString s)) = Some (bool_decide (s = ""))) ∧
  (∀ n len, (n = true → len = 0) → IsEmptyOrNil (Some (GSlice n len)) = Some (bool_decide (len = 0)) ∧ IsEmptyOrNil (Some (GMap n len)) = Some (bool_decide (len = 0))) ∧
  (∀ n, IsEmptyOrNil (Some (GPtr n)) = Some n ∧ IsEmptyOrNil (Some (GChan n)) = Some n) ∧
  (∀ z, IsEmptyOrNil (Some (GPrim z)) = Some false) ∧ (∀ fs, IsEmptyOrNil (Some (GStruct fs)) = Some false) ∧
  (∀ l, IsEmptyOrNil (Some (GArray l)) = None → ∃ v, v ∈ l ∧ IsZero v = None).
Proof.
  split; [done|]. split; [done|]. split; [|split; [|split; [done|split; [done|]]]].
  - intros n len Hn. unfold IsEmptyOrNil. cbn. destruct n; [by rewrite (Hn eq_refl)|]. done.
  - intros []; done.
  - intros l. unfold IsEmptyOrNil. cbn. induction l as [|v l IH]; cbn; [done|]. destruct (IsZero v) as [[]|] eqn:Hv; [|done|].
    + intros H. destruct (IH H) as (x & Hx & Hz). exists x. split; [by right|done].
    + intros _. exists v. split; [left|done].
Qed.
End Zero.
